(* ===== verification/_CoqProject ===== *)
-Q . S2P
Prelude.v
LruCache.v
RingQueue.v
RingSafety.v
RingProps.v
RingSeq.v
BlockingQueue.v
BoundedQueue.v
SafeQueue.v
BloomFilter.v
BloomEstimate.v
MemoryPool.v
PoolSafety.v
PoolOps.v
PoolPtr.v
PooledBuffer.v
Http.v
Messages.v
Cstdlib.v
HttpHandler.v
Logger.v
LoggerProps.v
Profiler.v
Poller.v
PollerFactory.v
ThreadPool.v
ThreadPoolShutdown.v
Task.v
TaskProps.v
TaskDestroy.v
TaskGroup.v
Reactor.v
ReactorProps.v
ReactorInv.v
ReactorLimits.v
HttpServer.v
Server.v
Proxy.v
ProxyIO.v
ProxyProps.v
ProxyPool.v
ProxyRuns.v
ProxyCoro.v
ProxyServer.v
ProxyUses.v
ProxyClients.v
Mains.v
