(* ===== verification/Prelude.v ===== *)
(** * muses: a verification library (root file)

    muses is a header-only C++ library for network servers (src/muses).  This
    development translates its components into executable definitions and proves
    what each of them promises.  This file holds the shared prelude; the rest is one
    file per component, with the longer proofs in files of their own.

    ** The program and where it is modelled

    - Containers.  bounded_queue.hpp has a lock-free ring for the dropping policies
      (RingQueue.v: one step per atomic or payload access, any number of threads), a
      monitor for the blocking policy (BlockingQueue.v) and the facade that selects
      one (BoundedQueue.v, with the class [QueueImpl] and its laws between them).
      queue.hpp is SafeQueue.v, lru_cache.hpp is LruCache.v (the map of iterators and
      the list), bloom_filter.hpp is BloomFilter.v (packed four-bit counters) and
      BloomEstimate.v (the estimate of the number of items, over the reals).
    - Memory.  memory_pool.hpp is MemoryPool.v (arenas, size classes, headers, free
      lists, reference counts on a byte-addressed heap), PoolPtr.v (the counting
      handles) and PooledBuffer.v (the growing byte buffer).
    - Threads.  thread_pool.hpp is ThreadPool.v and, for its destructor,
      ThreadPoolShutdown.v; logging.hpp is Logger.v (producers,
      the writer thread, [flush] and the destructor over the bounded queue);
      profiler.hpp, which logs through it, is Profiler.v.
    - I/O.  net/poller.hpp with its epoll and kqueue versions is Poller.v; the choice
      of the platform in config.hpp and net/poller_factory.hpp is PollerFactory.v (with
      the class [Watcher], what a poller promises); task.hpp,
      the coroutines that the poller schedules, is Task.v; TaskDestroy.v and
      TaskGroup.v are what an event loop may rely on (destroying a task with the tasks
      it awaits, the group of coroutines that a set of tasks owns).
    - Servers.  net/reactor.hpp is Reactor.v (connections, incremental scan,
      dispatch, writing, limits: it uses the poller's interest set, the Bloom filter
      for its blacklist and the queue as its outbox) and Server.v (start and stop, the
      pool of shards, the listener).  net_components/http_handler.hpp is Http.v
      (parsing and responses) and HttpHandler.v (static files through the LRU cache);
      net_components/proxy.hpp is Proxy.v (a client's coroutine, which parses with the
      definitions of Http.v, read as one computation), ProxyCoro.v (the same as a tree
      of tasks and suspensions for the machine of Task.v), ProxyServer.v (the event
      loop, start and stop, over that machine, with any coroutines as clients) and
      ProxyUses.v and ProxyClients.v (that loop with many clients that run the
      coroutine of ProxyCoro.v).  Messages.v has the facts on where a message's head
      ends that the reactor, the server and the proxy share, and Cstdlib.v the number
      parsers of the C library.
    - Programs.  examples/http_server.cpp is HttpServer.v (the reactor with the file
      handler and its cache, from the first byte of a request to the last byte of the
      response) and [HttpMain] of Mains.v ([main], from the environment to the exit
      code); examples/reverse_proxy.cpp is [ProxyMain] of Mains.v.

    Operations keep the names of the source.  State is passed explicitly: a record
    per object, a function per operation; code of several threads is a machine whose
    steps are the atomic accesses or critical sections of the source.  [outcome]
    separates returning from undefined behaviour, [option] is used for operations
    that may not return.  Machine integers are [Z] with the wrap-around written out.

    ** What the theorems show

    - Queues.  The ring delivers every item exactly once, without data races and
      without faults, under every interleaving (RingSafety.v, RingProps.v); called by
      one thread it is a bounded FIFO (RingSeq.v), the facade is one for every policy
      (BoundedQueue.v), and the blocking queue is FIFO and loses no wakeup.
    - LRU cache and Bloom filter refine a list by recency and a multiset of counters;
      the estimate is zero for the empty filter only and grows with every item.
    - The pool hands out disjoint blocks, counts references exactly and never frees a
      block that is in use (PoolSafety.v, PoolOps.v, PoolPtr.v); appending to a pooled
      buffer keeps its bytes.
    - The thread pool runs every task once, does not stall, and its destructor ends.
      The logger loses no
      line, keeps their order, and its shutdown ends (LoggerProps.v).  A profiler
      reports every measurement once.
    - The two pollers answer alike, and so does what the factory makes; destructors
      close what constructors opened, whichever calls failed.  Coroutines refine independent sequential
      processes, and task objects own their frames uniquely (TaskProps.v).
    - The reactor's scan equals a search of the whole input and responses are
      delivered in order (ReactorProps.v); its invariant holds in every reachable
      state (ReactorInv.v); rate limit and ban do what they say (ReactorLimits.v); the
      invariant survives every sequence of starts and stops (Server.v).
    - Requests survive printing and parsing, responses are framed, static paths are
      confined to the root and caching is transparent.  The proxy rewrites requests
      faithfully (ProxyProps.v), relays exactly what the upstream answers however the
      streams are cut, never lends a connection twice and returns what it borrows on
      every path (ProxyPool.v), and answers 502 when the upstream is gone.  Run by the
      coroutine machine, the coroutines compute just that (ProxyCoro.v).  The loop
      never resumes a destroyed coroutine, leaks no frame, and [stop] returns
      (ProxyServer.v).  With any number of clients in any interleaving, an upstream
      connection is lent to one client at a time, every coroutine that has not ended is
      registered for a descriptor of its own, a client that is resumed leaves the
      streams of the others alone, and what a client is sent is a 502 or a response, off
      one connection, to a request of its own (ProxyUses.v, ProxyClients.v).
    - The example server answers the requests of a connection in order, byte for byte
      as the handler without a cache (HttpServer.v); its settings are what the
      environment says, and both programs end without leaving a thread, a coroutine or
      the listen descriptor behind (Mains.v), with [serve_client] as the coroutine of
      the proxy's clients.
    - Some theorems pin down what the code does against its intent: a response for a
      client that hung up can reach the next owner of its descriptor, [stop] races
      with the workers, the proxy never closes a client's descriptor once its
      coroutine has been suspended and its [stop] strands the connections that are lent,
      [flush] of the logger can miss an entry, and others in
      ReactorLimits.v, ProxyRuns.v, RingSeq.v, SafeQueue.v and BloomFilter.v.

    ** Bounds and fuel

    - The ring's positions are 64-bit words; its theorems hold while the number of
      pushes plus the capacity is below 2^63 (2^61 calls for the sequential ones), so
      that no signed difference overflows, and for at least two cells (with one cell
      the algorithm is broken, which is proved in RingSeq.v).
    - Loops whose recursion is not structural take fuel: more than the length of the
      text for the header loop, the size of the script for the reading loops of the
      proxy, 65 doublings for a buffer that grows, since 64 exhaust the word; lemmas
      show that this is enough.  Where the source bounds a loop itself (accept
      batches, retries) that bound is used.  The keep-alive loop of the proxy is run
      for a given number of requests.  For coroutines the theorem gives the existence
      of enough fuel, and more fuel gives the same result.  The logger's writer, the
      thread pool and the proxy's loop have no fuel: they end by a measure that every
      step decreases.
    - What the kernel answers to [read], [write], [accept], [epoll_wait] or [connect]
      is an input (a script) of the operations; theorems quantify over it.  The
      promise used of the kernel is that a new descriptor is not one that is open.

    ** Not modelled

    - ProxyCoro.v relates the coroutine to the computation of Proxy.v for a client that
      runs alone; between the suspensions of one of many clients the others change the
      pools, the health table and the clock, so that ProxyClients.v states what each of
      them touches, keeps and may be told, not which connection it is given.  There a
      descriptor number that is given out again after it was closed counts as a new
      name.  The estimate of the Bloom filter is not rounded.
    - Memory orders weaker than sequential consistency: the ring is an interleaving
      machine.  Its payload accesses are ordered by the acquire and release accesses
      of the sequence numbers, and the race-freedom theorem is the condition for
      reading the program this way.
    - The text of times ([strftime]), file contents, hashing of strings and addresses
      are parameters.  The tasks of the thread pool are opaque.  Socket options, the
      non-blocking flag and
      the timing of blocking calls are left out.
*)

From stdpp Require Export base decidable gmap list strings numbers sets relations.
From Stdlib Require Export ZArith Lia.
From Stdlib Require Import Ascii String.


(** ** Outcomes

    A C++ operation returns normally, or it reaches undefined behaviour (a
    dangling iterator, an empty [std::optional] that is dereferenced, an index
    past the end of a container).  [Undef] is that second case; the theorems
    of the components show that it does not occur from well-formed states. *)

Inductive outcome (A : Type) : Type :=
  | Ret (a : A)
  | Undef.
Arguments Ret {A} a.
Arguments Undef {A}.

#[export] Instance outcome_ret : MRet outcome := λ A a, Ret a.
#[export] Instance outcome_bind : MBind outcome := λ A B f m,
  match m with Ret a => f a | Undef => Undef end.
#[export] Instance outcome_fmap : FMap outcome := λ A B f m,
  match m with Ret a => Ret (f a) | Undef => Undef end.
#[export] Instance outcome_eq_dec {A} `{EqDecision A} : EqDecision (outcome A).
Proof. solve_decision. Defined.

(** Lift an [option]: [None] is undefined behaviour. *)
Definition deref {A} (o : option A) : outcome A :=
  match o with Some a => Ret a | None => Undef end.

(** ** Machine integers

    [std::size_t] and [std::uint64_t] are 64 bits wide and wrap around;
    [std::ptrdiff_t] is the two's complement reading of the same word. *)

Declare Scope muses_scope.
Delimit Scope muses_scope with muses.
Open Scope muses_scope.

Definition wrap64 (z : Z) : Z := z `mod` 2 ^ 64.
Definition wrap32 (z : Z) : Z := z `mod` 2 ^ 32.
Definition wrap8 (z : Z) : Z := z `mod` 2 ^ 8.
Definition to_ptrdiff (z : Z) : Z := if decide (z < 2 ^ 63)%Z then z else (z - 2 ^ 64)%Z.

Notation "a +64 b" := (wrap64 (a + b)%Z) (at level 50, left associativity) : muses_scope.
Notation "a *64 b" := (wrap64 (a * b)%Z) (at level 40, left associativity) : muses_scope.

Lemma wrap64_small z : (0 ≤ z < 2 ^ 64)%Z → wrap64 z = z.
Proof. intros. by apply Z.mod_small. Qed.

Lemma wrap64_range z : (0 ≤ wrap64 z < 2 ^ 64)%Z.
Proof. apply Z.mod_pos_bound. lia. Qed.

Lemma to_ptrdiff_small z : (z < 2 ^ 63)%Z → to_ptrdiff z = z.
Proof. intros. unfold to_ptrdiff. by rewrite decide_True. Qed.

(** ** Proof automation shared by the components *)

Create HintDb muses.

(** Split every [if decide _] and every [match] of the goal and simplify. *)
Ltac crush_decide :=
  repeat (first [ progress simplify_eq/=
                | progress case_decide
                | progress case_bool_decide ]); try done; try lia.

(** Invert a step whose source is a constructor application. *)
Ltac inv_step H := inversion H; clear H; simplify_eq/=.

(** ** Relations: invariants of transition systems *)

(** The induction every reachability argument of the library goes through:
    a predicate that holds initially and is preserved by each step (from a
    state that is itself reachable) holds of every reachable state. *)
Lemma rtc_invariant {A} (R : relation A) (I : A → Prop) (x y : A) :
  I x → (∀ a b, rtc R x a → I a → R a b → I b) → rtc R x y → I y.
Proof. intros H0 Hs. revert y. apply rtc_ind_r; naive_solver. Qed.

(** ** Counting the elements of a list that satisfy a test

    The thread tables of the monitor-style components are lists of program
    counters; an update of one thread changes a count by at most one. *)

Section count.
Context {A : Type} (f : A → bool).

Definition b2n (b : bool) : nat := if b then 1 else 0.

Fixpoint countb (l : list A) : nat :=
  match l with [] => 0 | x :: l' => b2n (f x) + countb l' end.

Lemma countb_app (l1 l2 : list A) : countb (l1 ++ l2) = countb l1 + countb l2.
Proof. induction l1 as [|x l1 IH]; cbn [countb app]; [done|]. rewrite IH. lia. Qed.

Lemma countb_insert (l : list A) i x y :
  l !! i = Some x → countb (<[i := y]> l) + b2n (f x) = countb l + b2n (f y).
Proof.
  intros Hi. rewrite <- (take_drop_middle l i x Hi) at 2.
  rewrite insert_take_drop by (by eapply lookup_lt_Some).
  rewrite !countb_app. cbn [countb]. lia.
Qed.

Lemma countb_pos (l : list A) i x : l !! i = Some x → f x = true → 0 < countb l.
Proof.
  revert i. induction l as [|z l IH]; intros [|i] Hi Hf; cbn in Hi; simplify_eq; cbn [countb].
  - rewrite Hf. cbn. lia.
  - specialize (IH i Hi Hf). lia.
Qed.

Lemma countb_pos_inv (l : list A) : 0 < countb l → ∃ i x, l !! i = Some x ∧ f x = true.
Proof.
  induction l as [|z l IH]; cbn; [lia|]. intros Hc. destruct (f z) eqn:Hz.
  - by exists 0, z.
  - destruct IH as (i & x & Hi & Hx); [done|]. by exists (S i), x.
Qed.

Lemma countb_zero (l : list A) i x : countb l = 0 → l !! i = Some x → f x = false.
Proof.
  intros Hc Hi. destruct (f x) eqn:Hx; [|done]. pose proof (countb_pos _ _ _ Hi Hx). lia.
Qed.
End count.

Lemma countb_map {A} (f g : A → bool) (h : A → A) (l : list A) :
  (∀ x, f (h x) = g x) → countb f (h <$> l) = countb g l.
Proof. intros Hh. induction l as [|x l IH]; cbn; [done|]. by rewrite Hh, IH. Qed.

Lemma countb_or {A} (f g h : A → bool) (l : list A) :
  (∀ x, b2n (h x) = b2n (f x) + b2n (g x)) → countb h l = countb f l + countb g l.
Proof. intros Hh. induction l as [|x l IH]; cbn; [done|]. rewrite Hh, IH. lia. Qed.

Lemma countb_perm {A} (f : A → bool) (l l' : list A) : l ≡ₚ l' → countb f l = countb f l'.
Proof. induction 1; cbn; lia. Qed.

Lemma countb_le {A} (f : A → bool) (l : list A) : countb f l ≤ List.length l.
Proof. induction l as [|x l IH]; cbn; [done|]. destruct (f x); cbn; lia. Qed.

Lemma forallb_pointwise {A} (f g : A → bool) (l : list A) :
  (∀ x, f x = g x) → forallb f l = forallb g l.
Proof. intros Hfg. induction l as [|x l IH]; cbn; [done|]. by rewrite Hfg, IH. Qed.

(** ** Counting the values of a finite map that satisfy a test *)

Section countm.
Context {V : Type} (f : V → bool).
Local Open Scope Z_scope.

Definition countm (m : gmap Z V) : Z := Z.of_nat (size (filter (λ kv, f kv.2 = true) m)).

Definition flag (o : option V) : Z := match o with Some v => if f v then 1 else 0 | None => 0 end.

Lemma countm_empty : countm ∅ = 0.
Proof. unfold countm. by rewrite map_filter_empty, map_size_empty. Qed.

Lemma countm_nonneg m : 0 ≤ countm m.
Proof. unfold countm. lia. Qed.

Lemma countm_delete m i : countm (delete i m) = countm m - flag (m !! i).
Proof.
  unfold countm. rewrite map_filter_delete.
  destruct (filter (λ kv, f kv.2 = true) m !! i) as [v|] eqn:Hf.
  - pose proof Hf as Hf'. apply map_lookup_filter_Some in Hf' as [Hm Hv]. cbn in Hv.
    rewrite Hm. cbn. rewrite Hv. rewrite map_size_delete_Some by eauto.
    assert (size (filter (λ kv, f kv.2 = true) m) ≠ 0)%nat; [|lia].
    intros H0%map_size_empty_inv. by rewrite H0, lookup_empty in Hf.
  - rewrite delete_id by done.
    destruct (m !! i) as [v|] eqn:Hm; cbn; [|lia].
    destruct (f v) eqn:Hv; [|lia].
    apply map_lookup_filter_None in Hf as [Hf|Hf]; [congruence|]. by destruct (Hf v).
Qed.

Lemma countm_insert m i v : countm (<[i := v]> m) = countm m - flag (m !! i) + flag (Some v).
Proof.
  rewrite <- countm_delete, <- insert_delete_eq. unfold countm. cbn.
  destruct (f v) eqn:Hv.
  - rewrite map_filter_insert_True by done. rewrite map_size_insert_None; [lia|].
    apply map_lookup_filter_None. left. apply lookup_delete_eq.
  - rewrite map_filter_insert_False by (cbn; congruence).
    rewrite delete_id by apply lookup_delete_eq. lia.
Qed.

Lemma countm_zero m : (∀ i v, m !! i = Some v → f v = false) → countm m = 0.
Proof.
  intros Hm. unfold countm.
  assert (filter (λ kv, f kv.2 = true) m = ∅) as ->; [|by rewrite map_size_empty].
  apply map_empty. intros i. apply map_lookup_filter_None. right. cbn.
  intros v Hv. by rewrite (Hm i v Hv).
Qed.
End countm.

Lemma wrap64_add_l a b : wrap64 (wrap64 a + b) = wrap64 (a + b).
Proof. unfold wrap64. by rewrite Zplus_mod_idemp_l. Qed.
