(* ===== verification/LruCache.v ===== *)
(** * [LruCache<K, V>] (src/muses/lru_cache.hpp)

    The cache is a [std::list] of key/value pairs, most recently used first,
    paired with an [unordered_map] from a key to the iterator of its node.
    A list node keeps its identity when it is spliced, so an iterator is a
    node number here and [entries_] carries the number of each node.  An
    access through an iterator that is no longer in the list is undefined
    behaviour and the model says so ([Undef]).

    Every public method takes the mutex for its whole body, so an operation is
    one atomic transition of the state.

    [Module LruSpec] is the contract: an association list in recency order.
    The theorems show that every method implements it, that no method reaches
    undefined behaviour, that the size bound is kept, and that the keys the
    cache holds are exactly the most recently touched ones. *)

From S2P Require Import Prelude.

(** ** The contract *)

Module LruSpec.
Section spec.
Context {K V : Type} `{EqDecision K}.
Implicit Types (l : list (K * V)) (k : K) (v : V).

Fixpoint lookup_key k l : option V :=
  match l with
  | [] => None
  | (k', v) :: l' => if decide (k = k') then Some v else lookup_key k l'
  end.

Fixpoint remove_key k l : list (K * V) :=
  match l with
  | [] => []
  | (k', v) :: l' =>
      if decide (k = k') then remove_key k l' else (k', v) :: remove_key k l'
  end.

Definition spec_get k l : option V * list (K * V) :=
  match lookup_key k l with
  | None => (None, l)
  | Some v => (Some v, (k, v) :: remove_key k l)
  end.

Definition spec_put (cap : nat) k v l : list (K * V) :=
  match cap with
  | 0 => l
  | S cap' =>
      match lookup_key k l with
      | Some _ => (k, v) :: remove_key k l
      | None => (k, v) :: take cap' l
      end
  end.

Definition spec_erase k l : bool * list (K * V) :=
  match lookup_key k l with
  | None => (false, l)
  | Some _ => (true, remove_key k l)
  end.

Lemma lookup_key_None k l : lookup_key k l = None ↔ k ∉ l.*1.
Proof.
  induction l as [|[k' v] l IH]; cbn.
  - by rewrite elem_of_nil; intuition.
  - rewrite not_elem_of_cons. case_decide as E; [|tauto].
    split; [done|]. by intros [? _].
Qed.

Lemma remove_key_notin k l : k ∉ l.*1 → remove_key k l = l.
Proof.
  induction l as [|[k' v] l IH]; cbn; [done|].
  intros Hk. rewrite decide_False by set_solver. f_equal. set_solver.
Qed.

Lemma remove_key_keys k l : (remove_key k l).*1 = filter (λ x, x ≠ k) l.*1.
Proof.
  induction l as [|[k' v] l IH]; [done|].
  rewrite fmap_cons, filter_cons. cbn [fst remove_key].
  destruct (decide (k = k')) as [->|Hne].
  - by rewrite decide_False by (intros Hk; by apply Hk).
  - rewrite decide_True by congruence. rewrite fmap_cons. by f_equal.
Qed.

Lemma remove_key_app k l1 l2 :
  remove_key k (l1 ++ l2) = remove_key k l1 ++ remove_key k l2.
Proof.
  induction l1 as [|[k' v] l1 IH]; cbn; [done|].
  case_decide; cbn; by rewrite IH.
Qed.

Lemma lookup_key_app k l1 l2 :
  lookup_key k (l1 ++ l2) =
    match lookup_key k l1 with Some v => Some v | None => lookup_key k l2 end.
Proof.
  induction l1 as [|[k' v] l1 IH]; cbn; [done|]. by case_decide.
Qed.

Lemma lookup_key_remove_ne k k' l :
  k ≠ k' → lookup_key k (remove_key k' l) = lookup_key k l.
Proof.
  intros Hne. induction l as [|[k0 v] l IH]; cbn; [done|].
  repeat (case_decide; cbn); congruence.
Qed.
End spec.
End LruSpec.

(** ** The implementation *)

Module LruCache.
Section impl.
Context {K V : Type} `{Countable K}.

(** [std::list<std::pair<K, V>>]: a node is its iterator and its pair. *)
Abbreviation ListIt := nat (only parsing).
#[local] Abbreviation Node := (nat * (K * V))%type.

Record t : Type := mk {
  entries_ : list Node;        (* front = MRU, back = LRU *)
  index_ : gmap K ListIt;
  max_entries_ : nat;
  next_node : ListIt           (* the next node [emplace_front] creates *)
}.

Definition init (max_entries : nat) : t := mk [] ∅ max_entries 0.

(** *** The [std::list] operations the class uses *)

Fixpoint find_node (it : ListIt) (l : list Node) : option (K * V) :=
  match l with
  | [] => None
  | (it', e) :: l' => if decide (it = it') then Some e else find_node it l'
  end.

Fixpoint erase_node (it : ListIt) (l : list Node) : list Node :=
  match l with
  | [] => []
  | (it', e) :: l' =>
      if decide (it = it') then l' else (it', e) :: erase_node it l'
  end.

(** [it->second = value] on the pair of node [it]. *)
Fixpoint assign_node (it : ListIt) (v : V) (l : list Node) : list Node :=
  match l with
  | [] => []
  | (it', (k, w)) :: l' =>
      if decide (it = it') then (it', (k, v)) :: l'
      else (it', (k, w)) :: assign_node it v l'
  end.

(** *** The methods *)

(** [promote]: [entries_.splice(entries_.begin(), entries_, it)]. *)
Definition promote (it : ListIt) (c : t) : outcome t :=
  e ← deref (find_node it (entries_ c));
  Ret (mk ((it, e) :: erase_node it (entries_ c)) (index_ c)
          (max_entries_ c) (next_node c)).

Definition get (key : K) (c : t) : outcome (option V * t) :=
  match index_ c !! key with
  | None => Ret (None, c)
  | Some it =>
      c' ← promote it c;
      e ← deref (find_node it (entries_ c'));
      Ret (Some e.2, c')
  end.

(** [evict_lru_locked]: erase the key of the back node from the index, then
    drop the node. *)
Definition evict_lru_locked (c : t) : t :=
  match last (entries_ c) with
  | None => c
  | Some (_, (k, _)) =>
      mk (removelast (entries_ c)) (delete k (index_ c))
         (max_entries_ c) (next_node c)
  end.

Definition put_locked (key : K) (value : V) (c : t) : outcome t :=
  if decide (max_entries_ c = 0) then Ret c
  else
    match index_ c !! key with
    | Some it =>
        _ ← deref (find_node it (entries_ c));
        promote it (mk (assign_node it value (entries_ c)) (index_ c)
                       (max_entries_ c) (next_node c))
    | None =>
        let c1 := if decide (max_entries_ c ≤ length (entries_ c))
                  then evict_lru_locked c else c in
        Ret (mk ((next_node c1, (key, value)) :: entries_ c1)
                (<[key := next_node c1]> (index_ c1))
                (max_entries_ c1) (S (next_node c1)))
    end.

Definition put (key : K) (value : V) (c : t) : outcome t := put_locked key value c.

Definition contains (key : K) (c : t) : bool :=
  bool_decide (is_Some (index_ c !! key)).

Definition erase (key : K) (c : t) : outcome (bool * t) :=
  match index_ c !! key with
  | None => Ret (false, c)
  | Some it =>
      _ ← deref (find_node it (entries_ c));
      Ret (true, mk (erase_node it (entries_ c)) (delete key (index_ c))
                    (max_entries_ c) (next_node c))
  end.

Definition clear (c : t) : t := mk [] ∅ (max_entries_ c) (next_node c).

Definition size (c : t) : nat := length (entries_ c).

Definition capacity (c : t) : nat := max_entries_ c.

(** *** Invariant and abstraction *)

(** The index maps a key to [it] exactly when node [it] holds that key; node
    numbers and keys are unique; the size bound holds. *)
Record wf (c : t) : Prop := Wf {
  wf_its : NoDup (entries_ c).*1;
  wf_keys : NoDup ((entries_ c).*2).*1;
  wf_index : ∀ k it, index_ c !! k = Some it ↔ ∃ v, (it, (k, v)) ∈ entries_ c;
  wf_bound : length (entries_ c) ≤ max_entries_ c;
  wf_next : ∀ n, n ∈ entries_ c → n.1 < next_node c
}.

Definition abs (c : t) : list (K * V) := (entries_ c).*2.

Lemma length_abs c : length (abs c) = size c.
Proof. apply length_fmap. Qed.

(** One position of the list, with the facts every operation needs. *)
Lemma node_split (l : list Node) it e :
  (it, e) ∈ l → NoDup l.*1 →
  ∃ l1 l2, l = l1 ++ (it, e) :: l2 ∧ it ∉ l1.*1 ∧ it ∉ l2.*1.
Proof.
  intros (l1 & l2 & ->)%list_elem_of_split Hnd. exists l1, l2.
  rewrite fmap_app, fmap_cons, NoDup_app, NoDup_cons in Hnd.
  destruct Hnd as (_ & Hd & Hit & _). split_and!; [done| |done].
  intros Hin. apply (Hd _ Hin). cbn. by left.
Qed.

Lemma find_node_mid (l1 l2 : list Node) it e :
  it ∉ l1.*1 → find_node it (l1 ++ (it, e) :: l2) = Some e.
Proof.
  induction l1 as [|[it' e'] l1 IH]; cbn.
  - by rewrite decide_True.
  - rewrite not_elem_of_cons. intros [? ?]. rewrite decide_False by done. auto.
Qed.

Lemma erase_node_mid (l1 l2 : list Node) it e :
  it ∉ l1.*1 → erase_node it (l1 ++ (it, e) :: l2) = l1 ++ l2.
Proof.
  induction l1 as [|[it' e'] l1 IH]; cbn.
  - by rewrite decide_True.
  - rewrite not_elem_of_cons. intros [? ?]. rewrite decide_False by done.
    f_equal. auto.
Qed.

Lemma assign_node_mid (l1 l2 : list Node) it k v w :
  it ∉ l1.*1 →
  assign_node it w (l1 ++ (it, (k, v)) :: l2) = l1 ++ (it, (k, w)) :: l2.
Proof.
  induction l1 as [|[it' [k' v']] l1 IH]; cbn.
  - by rewrite decide_True.
  - rewrite not_elem_of_cons. intros [? ?]. rewrite decide_False by done.
    f_equal. auto.
Qed.

(** A hit of the index, unpacked: where the node is in the list, and what the
    contract sees there. *)
Lemma index_hit c k it :
  wf c → index_ c !! k = Some it →
  ∃ v l1 l2,
    entries_ c = l1 ++ (it, (k, v)) :: l2 ∧ it ∉ l1.*1 ∧ it ∉ l2.*1 ∧
    k ∉ (l1.*2).*1 ∧ k ∉ (l2.*2).*1 ∧
    LruSpec.lookup_key k (abs c) = Some v ∧
    LruSpec.remove_key k (abs c) = l1.*2 ++ l2.*2.
Proof.
  intros [Hits Hkeys Hidx _ _] [v Hv]%Hidx.
  destruct (node_split _ _ _ Hv Hits) as (l1 & l2 & Heq & H1 & H2).
  rewrite Heq, !fmap_app, !fmap_cons, NoDup_app, NoDup_cons in Hkeys.
  destruct Hkeys as (_ & Hd & Hk2 & _).
  assert (k ∉ (l1.*2).*1) as Hk1.
  { intros Hin. apply (Hd _ Hin). cbn. by left. }
  exists v, l1, l2. unfold abs. rewrite Heq, fmap_app, fmap_cons.
  rewrite LruSpec.lookup_key_app, LruSpec.remove_key_app.
  rewrite (proj2 (LruSpec.lookup_key_None _ _) Hk1). cbn.
  rewrite !decide_True by done. by rewrite !LruSpec.remove_key_notin.
Qed.

Lemma index_miss c k :
  wf c → index_ c !! k = None → LruSpec.lookup_key k (abs c) = None.
Proof.
  intros [_ _ Hidx _ _] Hk. apply LruSpec.lookup_key_None.
  intros [[k' v] [-> Hin]]%list_elem_of_fmap. cbn in *.
  apply list_elem_of_fmap in Hin as [[it e] [He Hin]]. cbn in He. subst e.
  assert (index_ c !! k' = Some it) as Hs by (apply Hidx; eauto).
  congruence.
Qed.

(** Replacing the value of a node and moving it to the front keeps the
    invariant; [get] uses it with the value unchanged. *)
Lemma wf_move_front c it k v w l1 l2 :
  wf c → entries_ c = l1 ++ (it, (k, v)) :: l2 →
  wf (mk ((it, (k, w)) :: l1 ++ l2) (index_ c) (max_entries_ c) (next_node c)).
Proof.
  intros [Hits Hkeys Hidx Hb Hn] Heq.
  assert (∀ n, n ∈ (it, (k, w)) :: l1 ++ l2 → n.1 ∈ (entries_ c).*1) as Hsub.
  { intros n. rewrite Heq, fmap_app, fmap_cons, elem_of_cons, !elem_of_app, elem_of_cons.
    intros [->|[?|?]]; cbn; auto using list_elem_of_fmap_2. }
  rewrite Heq in Hits, Hkeys, Hidx, Hb. split; cbn [entries_ index_ max_entries_ next_node].
  - rewrite fmap_app, fmap_cons, <- Permutation_middle in Hits.
    by rewrite fmap_cons, fmap_app.
  - rewrite !fmap_app, !fmap_cons, <- Permutation_middle in Hkeys.
    by rewrite !fmap_cons, !fmap_app.
  - intros k' it'. rewrite Hidx. setoid_rewrite elem_of_app.
    setoid_rewrite elem_of_cons. setoid_rewrite elem_of_app. naive_solver.
  - rewrite length_app in Hb. cbn in *. rewrite length_app. lia.
  - intros [i e] Hin. apply Hsub, list_elem_of_fmap in Hin as (m & Hm & Hin).
    apply Hn in Hin. cbn in *. lia.
Qed.

(** *** Each method implements the contract *)

Lemma wf_init n : wf (init n).
Proof.
  split; cbn; [constructor|constructor| |lia|set_solver].
  intros k it. rewrite lookup_empty. set_solver.
Qed.

Lemma get_refines k c :
  wf c →
  ∃ c', get k c = Ret ((LruSpec.spec_get k (abs c)).1, c') ∧
        abs c' = (LruSpec.spec_get k (abs c)).2 ∧ wf c' ∧ max_entries_ c' = max_entries_ c.
Proof.
  intros Hwf. unfold get, LruSpec.spec_get, promote.
  destruct (index_ c !! k) as [it|] eqn:Hk.
  - destruct (index_hit _ _ _ Hwf Hk) as (v & l1 & l2 & Heq & H1 & _ & _ & _ & -> & ->).
    rewrite Heq, find_node_mid, erase_node_mid by done.
    cbn. rewrite decide_True by done. cbn. eexists. split; [done|].
    split; [unfold abs; cbn; by rewrite fmap_app|].
    split; [by eapply wf_move_front|done].
  - rewrite (index_miss _ _ Hwf Hk). eauto.
Qed.

(** Dropping a suffix of the list, with the index entry of what is dropped. *)
Lemma wf_evict c :
  wf c → wf (evict_lru_locked c) ∧
  abs (evict_lru_locked c) = take (length (abs c) - 1) (abs c) ∧
  max_entries_ (evict_lru_locked c) = max_entries_ c ∧
  next_node (evict_lru_locked c) = next_node c ∧
  ∀ k, index_ c !! k = None → index_ (evict_lru_locked c) !! k = None.
Proof.
  intros Hwf. unfold evict_lru_locked.
  destruct (last (entries_ c)) as [[it [k v]]|] eqn:Hl.
  2:{ apply last_None in Hl. split; [done|]. unfold abs. by rewrite Hl. }
  destruct c as [l idx mx nx]. destruct Hwf as [Hits Hkeys Hidx Hb Hn].
  apply last_Some in Hl as [l' Hl]. unfold abs. cbn in *. subst l.
  rewrite removelast_last, fmap_app, length_app, Nat.add_sub; cbn.
  rewrite take_app_length. split_and!; try done.
  2:{ intros k' Hk'. rewrite lookup_delete. by case_decide. }
  split; cbn; rewrite ?fmap_app in *; cbn in *.
  - by apply NoDup_app in Hits as [? _].
  - by apply NoDup_app in Hkeys as [? _].
  - apply NoDup_app in Hkeys as (_ & Hd & _). intros k' it'.
    rewrite lookup_delete. case_decide as Ek.
    + subst k'. split; [done|]. intros [w Hw]. exfalso. apply (Hd k); [|by left].
      apply list_elem_of_fmap. exists (k, w). split; [done|].
      apply list_elem_of_fmap. by exists (it', (k, w)).
    + rewrite Hidx. setoid_rewrite elem_of_app. setoid_rewrite list_elem_of_singleton.
      naive_solver.
  - rewrite length_app in Hb. cbn in Hb. lia.
  - intros n Hin. apply Hn. apply elem_of_app. by left.
Qed.

(** A fresh node at the front of a cache with room. *)
Lemma wf_insert c k v :
  wf c → index_ c !! k = None → length (entries_ c) < max_entries_ c →
  wf (mk ((next_node c, (k, v)) :: entries_ c) (<[k := next_node c]> (index_ c))
         (max_entries_ c) (S (next_node c))).
Proof.
  intros Hwf Hk Hlen. pose proof (index_miss _ _ Hwf Hk) as Hm.
  apply LruSpec.lookup_key_None in Hm. destruct Hwf as [Hits Hkeys Hidx Hb Hn].
  assert (next_node c ∉ (entries_ c).*1) as Hfresh.
  { intros ([i e] & Heq & Hin)%list_elem_of_fmap. apply Hn in Hin. cbn in *. lia. }
  split; cbn; try (constructor; done).
  - intros k' it'. rewrite lookup_insert. setoid_rewrite elem_of_cons.
    case_decide as Ek; [subst k'|].
    + split; [intros [= <-]; eauto|]. intros [w [[= -> _]|Hw]]; [done|].
      destruct Hm. apply list_elem_of_fmap. exists (k, w). split; [done|].
      apply list_elem_of_fmap. by exists (it', (k, w)).
    + rewrite Hidx. naive_solver.
  - lia.
  - intros n [->|Hin]%elem_of_cons; cbn; [lia|]. apply Hn in Hin. lia.
Qed.

Lemma put_refines k v c :
  wf c →
  ∃ c', put k v c = Ret c' ∧ abs c' = LruSpec.spec_put (max_entries_ c) k v (abs c) ∧
        wf c' ∧ max_entries_ c' = max_entries_ c.
Proof.
  intros Hwf. unfold put, put_locked, LruSpec.spec_put, promote.
  destruct (max_entries_ c) as [|cap] eqn:Hcap; [cbn; eauto|].
  rewrite decide_False by lia.
  destruct (index_ c !! k) as [it|] eqn:Hk.
  - destruct (index_hit _ _ _ Hwf Hk) as (w & l1 & l2 & Heq & H1 & _ & _ & _ & -> & ->).
    rewrite Heq, find_node_mid by done. cbn.
    rewrite assign_node_mid, find_node_mid, erase_node_mid by done. cbn. eexists. split; [done|]. split; [unfold abs; cbn; by rewrite fmap_app|].
    split; [rewrite <- Hcap; by eapply wf_move_front|done].
  - rewrite (index_miss _ _ Hwf Hk).
    destruct (wf_evict _ Hwf) as (Hwf' & Habs & Hm & Hnx & Hi).
    pose proof (wf_bound _ Hwf) as Hb.
    pose proof (length_abs c) as Hlen. unfold size in Hlen.
    case_decide as Hfull; eexists; (split; [done|]).
    + rewrite Hm, Hcap. split; [unfold abs at 1; cbn; fold (abs (evict_lru_locked c))|].
      { rewrite Habs. do 2 f_equal. lia. }
      split; [|done]. rewrite <- Hcap, <- Hm. apply wf_insert; [done|by auto|].
      change (size (evict_lru_locked c) < max_entries_ (evict_lru_locked c)).
      rewrite <- length_abs, Habs, length_take. unfold size in *. lia.
    + rewrite Hcap. unfold abs at 1; cbn. fold (abs c).
      split; [by rewrite take_ge by lia|]. split; [|done].
      rewrite <- Hcap. apply wf_insert; auto. lia.
Qed.

Lemma erase_refines k c :
  wf c →
  ∃ c', erase k c = Ret ((LruSpec.spec_erase k (abs c)).1, c') ∧
        abs c' = (LruSpec.spec_erase k (abs c)).2 ∧ wf c' ∧ max_entries_ c' = max_entries_ c.
Proof.
  intros Hwf. unfold erase, LruSpec.spec_erase.
  destruct (index_ c !! k) as [it|] eqn:Hk; [|rewrite (index_miss _ _ Hwf Hk); eauto].
  destruct (index_hit _ _ _ Hwf Hk) as (v & l1 & l2 & Heq & H1 & H2 & Hk1 & Hk2 & -> & ->).
  rewrite Heq, find_node_mid, erase_node_mid by done. cbn. eexists. split; [done|].
  split; [unfold abs; cbn; by rewrite fmap_app|]. split; [|done].
  destruct (wf_move_front _ _ _ _ v _ _ Hwf Heq) as [Hits Hkeys Hidx Hb Hn]; cbn in *.
  split; cbn.
  - by apply NoDup_cons in Hits as [_ ?].
  - by apply NoDup_cons in Hkeys as [_ ?].
  - intros k' it'. rewrite lookup_delete. case_decide as Ek; [subst k'|].
    + split; [done|]. intros [w Hw]. exfalso.
      apply NoDup_cons in Hkeys as [Hkeys _]. apply Hkeys.
      apply list_elem_of_fmap. exists (k, w). split; [done|].
      apply list_elem_of_fmap. by exists (it', (k, w)).
    + rewrite Hidx. setoid_rewrite elem_of_cons. naive_solver.
  - lia.
  - intros n Hin. apply Hn. by apply elem_of_cons; right.
Qed.

Lemma clear_refines c : wf c → wf (clear c) ∧ abs (clear c) = [].
Proof. intros Hwf. split; [|done]. destruct (wf_init (max_entries_ c)); cbn in *.
  split; cbn; [done..|]. set_solver. Qed.

Lemma contains_refines k c :
  wf c → contains k c = bool_decide (k ∈ (abs c).*1).
Proof.
  intros Hwf. unfold contains. apply bool_decide_ext. split.
  - intros [it Hk]. destruct (index_hit _ _ _ Hwf Hk) as (v & l1 & l2 & Heq & _).
    unfold abs. rewrite Heq, !fmap_app, elem_of_app. right. cbn. by left.
  - intros Hin. destruct (index_ c !! k) eqn:Hk; [eauto|].
    by apply index_miss, LruSpec.lookup_key_None in Hk.
Qed.

End impl.
Arguments t K V {_ _}.
End LruCache.

(** ** Whole runs *)

Module LruRuns.
Section runs.
Context {K V : Type} `{Countable K}.

(** The calls a client can make; a run is any sequence of them (the mutex
    makes each call atomic, so this is every interleaving of any threads). *)
Inductive call : Type :=
  | CGet (k : K)
  | CPut (k : K) (v : V)
  | CContains (k : K)
  | CErase (k : K)
  | CClear
  | CSize.

Inductive answer : Type :=
  | AValue (o : option V)
  | ABool (b : bool)
  | AUnit
  | ANat (n : nat).

Definition do_call (o : call) (c : LruCache.t K V) : outcome (answer * LruCache.t K V) :=
  match o with
  | CGet k => r ← LruCache.get k c; Ret (AValue r.1, r.2)
  | CPut k v => c' ← LruCache.put k v c; Ret (AUnit, c')
  | CContains k => Ret (ABool (LruCache.contains k c), c)
  | CErase k => r ← LruCache.erase k c; Ret (ABool r.1, r.2)
  | CClear => Ret (AUnit, LruCache.clear c)
  | CSize => Ret (ANat (LruCache.size c), c)
  end.

Definition spec_call (cap : nat) (o : call) (l : list (K * V)) : answer * list (K * V) :=
  match o with
  | CGet k => let r := LruSpec.spec_get k l in (AValue r.1, r.2)
  | CPut k v => (AUnit, LruSpec.spec_put cap k v l)
  | CContains k => (ABool (bool_decide (k ∈ l.*1)), l)
  | CErase k => let r := LruSpec.spec_erase k l in (ABool r.1, r.2)
  | CClear => (AUnit, [])
  | CSize => (ANat (length l), l)
  end.

Fixpoint run (os : list call) (c : LruCache.t K V) : outcome (list answer * LruCache.t K V) :=
  match os with
  | [] => Ret ([], c)
  | o :: os' =>
      r ← do_call o c;
      rs ← run os' r.2;
      Ret (r.1 :: rs.1, rs.2)
  end.

Fixpoint spec_run (cap : nat) (os : list call) (l : list (K * V)) : list answer * list (K * V) :=
  match os with
  | [] => ([], l)
  | o :: os' =>
      let r := spec_call cap o l in
      let rs := spec_run cap os' r.2 in
      (r.1 :: rs.1, rs.2)
  end.

Lemma do_call_refines o c :
  LruCache.wf c →
  ∃ c', do_call o c =
          Ret ((spec_call (LruCache.max_entries_ c) o (LruCache.abs c)).1, c') ∧
        LruCache.abs c' = (spec_call (LruCache.max_entries_ c) o (LruCache.abs c)).2 ∧
        LruCache.wf c' ∧ LruCache.max_entries_ c' = LruCache.max_entries_ c.
Proof.
  intros Hwf. destruct o as [k|k v|k|k| |]; cbn.
  - destruct (LruCache.get_refines k c Hwf) as (c' & -> & ? & ? & ?). cbn. eauto.
  - destruct (LruCache.put_refines k v c Hwf) as (c' & -> & ? & ? & ?). cbn. eauto.
  - rewrite (LruCache.contains_refines k c Hwf). eauto.
  - destruct (LruCache.erase_refines k c Hwf) as (c' & -> & ? & ? & ?). cbn. eauto.
  - destruct (LruCache.clear_refines c Hwf). eauto.
  - rewrite LruCache.length_abs. eauto.
Qed.

Lemma run_refines os c :
  LruCache.wf c →
  ∃ c', run os c =
          Ret ((spec_run (LruCache.max_entries_ c) os (LruCache.abs c)).1, c') ∧
        LruCache.abs c' = (spec_run (LruCache.max_entries_ c) os (LruCache.abs c)).2 ∧
        LruCache.wf c' ∧ LruCache.max_entries_ c' = LruCache.max_entries_ c.
Proof.
  revert c. induction os as [|o os IH]; intros c Hwf; cbn; [eauto|].
  destruct (do_call_refines o c Hwf) as (c1 & -> & Habs & Hwf1 & Hm). cbn.
  destruct (IH c1 Hwf1) as (c2 & -> & Habs2 & Hwf2 & Hm2). cbn.
  rewrite Habs, Hm in *. eexists. split; [done|]. split; [done|]. split; [done|congruence].
Qed.

(** *** Recency *)

(** The distinct elements of a history, latest first, each once. *)
Fixpoint distinct (h : list K) : list K :=
  match h with
  | [] => []
  | k :: h' => k :: filter (λ x, x ≠ k) (distinct h')
  end.

(** The keys touched so far, latest first: a put touches its key, a get
    touches it when the key is among the [cap] most recently touched ones. *)
Definition touch (cap : nat) (h : list K) (o : call) : list K :=
  match o with
  | CPut k _ => k :: h
  | CGet k => if decide (k ∈ take cap (distinct h)) then k :: h else h
  | _ => h
  end.

Definition history (cap : nat) (os : list call) : list K := foldl (touch cap) [] os.

(** Calls that never remove a key on purpose. *)
Definition keeps (o : call) : bool :=
  match o with CErase _ | CClear => false | _ => true end.

Lemma take_filter_in (k : K) n l :
  NoDup l → k ∈ take (S n) l → filter (λ x, x ≠ k) (take (S n) l) = take n (filter (λ x, x ≠ k) l).
Proof.
  revert n. induction l as [|x l IH]; intros n Hnd Hin; [by apply elem_of_nil in Hin|].
  apply NoDup_cons in Hnd as [Hx Hnd]. rewrite firstn_cons, !filter_cons.
  rewrite firstn_cons in Hin. destruct (decide (x = k)) as [->|Hne].
  - rewrite !decide_False by (intros E; by apply E).
    assert (∀ l' : list K, (∀ y, y ∈ l' → y ∈ l) → filter (λ x, x ≠ k) l' = l') as Hall.
    { intros l' Hsub. induction l' as [|y l' IHl]; [done|].
      rewrite filter_cons_True; [f_equal; set_solver|]. intros ->. set_solver. }
    rewrite !Hall; [done|done|]. intros y Hy.
    eapply elem_of_take in Hy as (j & Hj & _). by eapply list_elem_of_lookup_2.
  - rewrite !decide_True by done. apply elem_of_cons in Hin as [?|Hin]; [by subst|].
    destruct n as [|n]; [by apply elem_of_nil in Hin|].
    rewrite firstn_cons. f_equal. by apply IH.
Qed.

Lemma take_filter_notin (k : K) n l :
  k ∉ take (S n) l → take n (filter (λ x, x ≠ k) l) = take n l.
Proof.
  revert n. induction l as [|x l IH]; intros n Hin; [by destruct n|].
  rewrite firstn_cons, not_elem_of_cons in Hin. destruct Hin as [Hx Hin].
  rewrite filter_cons_True by done.
  destruct n as [|n]; [done|]. rewrite !firstn_cons. f_equal. by apply IH.
Qed.

Lemma distinct_NoDup h : NoDup (distinct h).
Proof.
  induction h as [|k h IH]; cbn; constructor.
  - rewrite list_elem_of_filter. naive_solver.
  - by apply NoDup_filter.
Qed.

Lemma spec_call_recency cap o (l : list (K * V)) h :
  keeps o = true → l.*1 = take cap (distinct h) →
  (spec_call cap o l).2.*1 = take cap (distinct (touch cap h o)).
Proof.
  intros Hk Hl. destruct o as [k|k v|k|k| |]; cbn in *; try done.
  - unfold LruSpec.spec_get. destruct (LruSpec.lookup_key k l) as [v|] eqn:E.
    + rewrite decide_True.
      2:{ rewrite <- Hl. apply dec_stable. intros Hn%LruSpec.lookup_key_None. congruence. }
      cbn. rewrite LruSpec.remove_key_keys, Hl.
      assert (k ∈ take cap (distinct h)) as Hin.
      { rewrite <- Hl. apply dec_stable. intros Hn%LruSpec.lookup_key_None. congruence. }
      destruct cap as [|cap]; [by apply elem_of_nil in Hin|].
      rewrite firstn_cons. f_equal. apply take_filter_in; [apply distinct_NoDup|done].
    + rewrite decide_False; [done|]. by rewrite <- Hl, <- LruSpec.lookup_key_None.
  - unfold LruSpec.spec_put. destruct cap as [|cap]; [done|].
    destruct (LruSpec.lookup_key k l) as [w|] eqn:E; cbn; f_equal.
    + rewrite LruSpec.remove_key_keys, Hl. apply take_filter_in; [apply distinct_NoDup|].
      rewrite <- Hl. apply dec_stable. intros Hn%LruSpec.lookup_key_None. congruence.
    + apply LruSpec.lookup_key_None in E. rewrite Hl in E.
      rewrite fmap_take, Hl, take_take, Nat.min_l by lia.
      symmetry. by apply take_filter_notin.
Qed.

Lemma spec_run_recency cap os (l : list (K * V)) h :
  forallb keeps os = true → l.*1 = take cap (distinct h) →
  (spec_run cap os l).2.*1 = take cap (distinct (foldl (touch cap) h os)).
Proof.
  revert l h. induction os as [|o os IH]; intros l h Hk Hl; cbn; [done|].
  apply andb_prop in Hk as [Ho Hos]. apply IH; [done|]. by apply spec_call_recency.
Qed.
End runs.
Arguments call K V : clear implicits.
Arguments answer V : clear implicits.
End LruRuns.

(** ** Properties *)

Section properties.
Context {K V : Type} `{Countable K}.

(** C39: For every sequence of calls on a fresh cache of any capacity, the list
    of nodes and the iterator index together answer exactly what an association
    list in recency order answers, no call dereferences a dangling iterator,
    and the size never exceeds the capacity. *)
Theorem lru_refinement (cap : nat) (os : list (LruRuns.call K V)) :
  ∃ c', LruRuns.run os (LruCache.init cap) =
          Ret ((LruRuns.spec_run cap os []).1, c') ∧
        LruCache.abs c' = (LruRuns.spec_run cap os []).2 ∧
        LruCache.size c' ≤ cap.
Proof.
  destruct (LruRuns.run_refines os (LruCache.init cap) (LruCache.wf_init cap))
    as (c' & Hrun & Habs & Hwf & Hm). cbn in *.
  exists c'. split_and!; [done..|]. rewrite <- Hm. apply Hwf.
Qed.

(** As long as no entry is erased on purpose, the keys in the cache are
    exactly the [cap] most recently touched distinct keys, latest first: what is
    evicted is always the least recently used entry. *)
Theorem lru_recency (cap : nat) (os : list (LruRuns.call K V)) (c' : LruCache.t K V) rs :
  forallb LruRuns.keeps os = true →
  LruRuns.run os (LruCache.init cap) = Ret (rs, c') →
  (LruCache.abs c').*1 = take cap (LruRuns.distinct (LruRuns.history cap os)).
Proof.
  intros Hk Hrun.
  destruct (LruRuns.run_refines os (LruCache.init cap) (LruCache.wf_init cap))
    as (c2 & Hrun2 & Habs & _). cbn in *.
  rewrite Hrun in Hrun2. injection Hrun2 as -> ->. rewrite Habs.
  apply LruRuns.spec_run_recency; [done|]. by destruct cap.
Qed.

(** A stored value is found again: after [put key value] on a cache with
    capacity, [get key] returns that value, whatever was cached before. *)
Theorem lru_put_get (c c' : LruCache.t K V) (k : K) (v : V) :
  LruCache.wf c → LruCache.max_entries_ c ≠ 0 →
  LruCache.put k v c = Ret c' →
  ∃ c'', LruCache.get k c' = Ret (Some v, c'').
Proof.
  intros Hwf Hcap Hput.
  destruct (LruCache.put_refines k v c Hwf) as (c1 & Hc1 & Habs & Hwf1 & _).
  rewrite Hput in Hc1. injection Hc1 as ->.
  destruct (LruCache.get_refines k c1 Hwf1) as (c2 & Hget & _).
  exists c2. rewrite Hget, Habs. unfold LruSpec.spec_get, LruSpec.spec_put.
  destruct (LruCache.max_entries_ c); [done|].
  destruct (LruSpec.lookup_key k (LruCache.abs c)); cbn; by rewrite decide_True.
Qed.
End properties.

(** Put 1, 2, touch 1, put 3 in a cache of two: 2 is the one evicted. *)
Definition demo_calls : list (LruRuns.call nat nat) :=
  [LruRuns.CPut 1 10; LruRuns.CPut 2 20; LruRuns.CGet 1; LruRuns.CPut 3 30].

Lemma lru_recency_witness :
  ∃ rs c', LruRuns.run demo_calls (LruCache.init 2) = Ret (rs, c') ∧
  (LruCache.abs c').*1 = take 2 (LruRuns.distinct (LruRuns.history 2 demo_calls)) ∧
  (LruCache.abs c').*1 = [3; 1].
Proof.
  destruct (LruRuns.run demo_calls (LruCache.init 2)) as [[rs c']|] eqn:E;
    [|exfalso; vm_compute in E; discriminate].
  exists rs, c'. split; [reflexivity|].
  pose proof (lru_recency 2 demo_calls c' rs eq_refl E) as Hr.
  split; [exact Hr|]. rewrite Hr. vm_compute. reflexivity.
Defined.

Lemma lru_put_get_witness :
  ∃ c', LruCache.put 7 70 (LruCache.init (K:=nat) (V:=nat) 1) = Ret c' ∧
  ∃ c'', LruCache.get 7 c' = Ret (Some 70, c'').
Proof.
  eexists. split; [reflexivity|].
  eapply (lru_put_get (LruCache.init 1)); [apply LruCache.wf_init|discriminate|reflexivity].
Defined.
