(* ===== verification/RingQueue.v ===== *)
(** * The lock-free ring of [BoundedQueue<T>] (src/muses/bounded_queue.hpp)

    [RingImpl] is a Vyukov MPMC ring: a power-of-two array of cells, each with
    an atomic sequence number, and two cursors.  Producers and consumers claim
    a position with a compare-exchange on a cursor, touch the cell of that
    position, and publish with a store of the cell's sequence number.

    The model is a small-step machine.  Each atomic access of the source (and
    each access to a cell's payload) is one step of one thread, and threads
    interleave arbitrarily; [compare_exchange_weak] may fail spuriously.  The
    interleavings are sequentially consistent: every payload access is ordered
    by the acquire load and the release store of the cell's sequence number,
    which is what makes the theorem on data races below the condition for that
    reading of the C++ program.

    Positions are 64-bit words that wrap; [std::ptrdiff_t] differences are
    signed and their overflow is undefined ([Fault]). *)

From S2P Require Import Prelude.
Local Open Scope Z_scope.

Inductive OverflowPolicy : Type :=
  | DropNew
  | DropOldest
  | Block.

#[export] Instance OverflowPolicy_eq_dec : EqDecision OverflowPolicy.
Proof. solve_decision. Defined.

Module Ring.

Section machine.
Context {T : Type}.

Record Cell : Type := mkCell {
  sequence : Z;
  data : option T
}.

(** The shared memory of one [RingImpl]. *)
Record Shared : Type := mkShared {
  policy_ : OverflowPolicy;
  ring_ : list Cell;
  mask_ : Z;
  enqueue_pos_ : Z;
  dequeue_pos_ : Z;
  dropped_ : Z;
  stopped_ : bool;
  sem_ : Z
}.

Definition capacity (s : Shared) : Z := mask_ s + 1.

(** *** Construction *)

(** [while (p < cap) p <<= 1]; [None] when the loop has not ended within the
    fuel.  The shift drops the top bit of the 64-bit word. *)
Fixpoint round_up_pow2 (fuel : nat) (p cap : Z) : option Z :=
  match fuel with
  | O => None
  | S f => if decide (p < cap) then round_up_pow2 f (wrap64 (Z.shiftl p 1)) cap
           else Some p
  end.

Definition init_cells (p : Z) : list Cell :=
  (λ i : nat, mkCell (Z.of_nat i) None) <$> seq 0 (Z.to_nat p).

Definition make_shared (p : Z) (policy : OverflowPolicy) : Shared :=
  mkShared policy (init_cells p) (p - 1) 0 0 0 false 0.

(** The constructor; 65 iterations are enough for every 64-bit capacity that
    has a power of two above it. *)
Definition RingImpl (cap : Z) (policy : OverflowPolicy) : option Shared :=
  p ← round_up_pow2 65 1 cap; Some (make_shared p policy).

(** *** Field updates *)

Definition set_cell (i : nat) (c : Cell) (s : Shared) : Shared :=
  mkShared (policy_ s) (<[i := c]> (ring_ s)) (mask_ s) (enqueue_pos_ s)
           (dequeue_pos_ s) (dropped_ s) (stopped_ s) (sem_ s).
Definition set_enqueue (z : Z) (s : Shared) : Shared :=
  mkShared (policy_ s) (ring_ s) (mask_ s) z (dequeue_pos_ s) (dropped_ s)
           (stopped_ s) (sem_ s).
Definition set_dequeue (z : Z) (s : Shared) : Shared :=
  mkShared (policy_ s) (ring_ s) (mask_ s) (enqueue_pos_ s) z (dropped_ s)
           (stopped_ s) (sem_ s).
Definition set_dropped (z : Z) (s : Shared) : Shared :=
  mkShared (policy_ s) (ring_ s) (mask_ s) (enqueue_pos_ s) (dequeue_pos_ s) z
           (stopped_ s) (sem_ s).
Definition set_stopped (b : bool) (s : Shared) : Shared :=
  mkShared (policy_ s) (ring_ s) (mask_ s) (enqueue_pos_ s) (dequeue_pos_ s)
           (dropped_ s) b (sem_ s).
Definition set_sem (z : Z) (s : Shared) : Shared :=
  mkShared (policy_ s) (ring_ s) (mask_ s) (enqueue_pos_ s) (dequeue_pos_ s)
           (dropped_ s) (stopped_ s) z.

(** [ring_[pos & mask_]] *)
Definition slot (s : Shared) (pos : Z) : nat := Z.to_nat (Z.land pos (mask_ s)).
Definition cell_at (s : Shared) (pos : Z) : option Cell := ring_ s !! slot s pos.

(** [static_cast<ptrdiff_t>(a) - static_cast<ptrdiff_t>(b)] *)
Definition ptrdiff_sub (a b : Z) : option Z :=
  let d := to_ptrdiff a - to_ptrdiff b in
  if decide (- 2 ^ 63 ≤ d < 2 ^ 63) then Some d else None.

(** *** Threads *)

(** Where a call of [try_pop] returns to: a plain [try_pop], the fast attempt
    at the head of [wait_pop], the attempt after the semaphore was acquired, or
    the last attempt (time-out or stop).  [timed] tells the two overloads of
    [wait_pop] apart. *)
Inductive popk : Type :=
  | KTry
  | KFast (timed : bool)
  | KAfter (timed : bool)
  | KLast.

Inductive pc : Type :=
  | Idle
  (* push *)
  | PushEnter (item : T)
  | PushLoadPos (item : T)
  | PushLoadSeq (item : T) (pos : Z)
  | PushCas (item : T) (pos : Z)
  | PushEmplace (item : T) (pos : Z)
  | PushPublish (item : T) (pos : Z)
  | PushSignal
  | PushReload (item : T)
  | PushCountDrop
  | PushDone (ok : bool)
  (* evict_one, inside push *)
  | EvLoadPos (item : T)
  | EvLoadSeq (item : T) (pos : Z)
  | EvCas (item : T) (pos : Z)
  | EvReset (item : T) (pos : Z)
  | EvPublish (item : T) (pos : Z)
  | EvCount (item : T)
  (* try_pop *)
  | PopLoadPos (k : popk)
  | PopLoadSeq (k : popk) (pos : Z)
  | PopCas (k : popk) (pos : Z)
  | PopTake (pos : Z)
  | PopReset (pos : Z) (out : T)
  | PopPublish (pos : Z) (out : T)
  | PopDone (out : option T)
  (* wait_pop *)
  | WaitCheck (timed : bool)
  | WaitAcquire (timed : bool)
  (* stop *)
  | StopStore
  | StopRelease.

Inductive result : Type :=
  | Next (p : pc) (s : Shared)
  | Blocked
  | Fault.

(** What a failed attempt does next. *)
Definition pop_empty (k : popk) : pc :=
  match k with
  | KTry | KLast => PopDone None
  | KFast timed | KAfter timed => WaitCheck timed
  end.

(** [std::numeric_limits<int>::max() / 4] *)
Definition stop_permits : Z := (2 ^ 31 - 1) `div` 4.

(** The load of a cell's sequence number and the three-way branch on
    [diff = seq - expected] that follows it. *)
Definition on_diff (s : Shared) (pos expected : Z) (zero neg posv : pc) : result :=
  match cell_at s pos with
  | None => Fault
  | Some c =>
      match ptrdiff_sub (sequence c) expected with
      | None => Fault
      | Some d =>
          if decide (d = 0) then Next zero s
          else if decide (d < 0) then Next neg s else Next posv s
      end
  end.

(** One step of a thread.  [choice] resolves what the language leaves open: a
    spurious failure of [compare_exchange_weak], and the expiry of the timer in
    [try_acquire_for]. *)
Definition thread_step (choice : bool) (p : pc) (s : Shared) : result :=
  match p with
  | Idle => Blocked
  | PushEnter item =>
      if stopped_ s then Next (PushDone false) s else Next (PushLoadPos item) s
  | PushLoadPos item => Next (PushLoadSeq item (enqueue_pos_ s)) s
  | PushLoadSeq item pos =>
      on_diff s pos pos (PushCas item pos)
        (match policy_ s with DropNew => PushCountDrop | _ => EvLoadPos item end)
        (PushReload item)
  | PushCas item pos =>
      if decide (enqueue_pos_ s = pos ∧ choice = false)
      then Next (PushEmplace item pos) (set_enqueue (pos +64 1) s)
      else Next (PushLoadPos item) s
  | PushEmplace item pos =>
      match cell_at s pos with
      | None => Fault
      | Some c => Next (PushPublish item pos)
                       (set_cell (slot s pos) (mkCell (sequence c) (Some item)) s)
      end
  | PushPublish item pos =>
      match cell_at s pos with
      | None => Fault
      | Some c => Next PushSignal
                       (set_cell (slot s pos) (mkCell (pos +64 1) (data c)) s)
      end
  | PushSignal => Next (PushDone true) (set_sem (sem_ s + 1) s)
  | PushReload item => Next (PushLoadPos item) s
  | PushCountDrop => Next (PushDone false) (set_dropped (dropped_ s +64 1) s)
  | PushDone ok => Blocked
  | EvLoadPos item => Next (EvLoadSeq item (dequeue_pos_ s)) s
  | EvLoadSeq item pos =>
      on_diff s pos (pos +64 1) (EvCas item pos) (PushLoadPos item) (EvLoadPos item)
  | EvCas item pos =>
      if decide (dequeue_pos_ s = pos ∧ choice = false)
      then Next (EvReset item pos) (set_dequeue (pos +64 1) s)
      else Next (EvLoadPos item) s
  | EvReset item pos =>
      match cell_at s pos with
      | None => Fault
      | Some c => Next (EvPublish item pos)
                       (set_cell (slot s pos) (mkCell (sequence c) None) s)
      end
  | EvPublish item pos =>
      match cell_at s pos with
      | None => Fault
      | Some c => Next (EvCount item)
                       (set_cell (slot s pos) (mkCell (pos +64 capacity s) (data c)) s)
      end
  | EvCount item => Next (PushLoadPos item) (set_dropped (dropped_ s +64 1) s)
  | PopLoadPos k => Next (PopLoadSeq k (dequeue_pos_ s)) s
  | PopLoadSeq k pos =>
      on_diff s pos (pos +64 1) (PopCas k pos) (pop_empty k) (PopLoadPos k)
  | PopCas k pos =>
      if decide (dequeue_pos_ s = pos ∧ choice = false)
      then Next (PopTake pos) (set_dequeue (pos +64 1) s)
      else Next (PopLoadPos k) s
  | PopTake pos =>
      match cell_at s pos with
      | Some (mkCell _ (Some v)) => Next (PopReset pos v) s
      | _ => Fault
      end
  | PopReset pos out =>
      match cell_at s pos with
      | None => Fault
      | Some c => Next (PopPublish pos out)
                       (set_cell (slot s pos) (mkCell (sequence c) None) s)
      end
  | PopPublish pos out =>
      match cell_at s pos with
      | None => Fault
      | Some c => Next (PopDone (Some out))
                       (set_cell (slot s pos) (mkCell (pos +64 capacity s) (data c)) s)
      end
  | PopDone out => Blocked
  | WaitCheck timed =>
      if stopped_ s then Next (PopLoadPos KLast) s else Next (WaitAcquire timed) s
  | WaitAcquire timed =>
      if decide (0 < sem_ s) then Next (PopLoadPos (KAfter timed)) (set_sem (sem_ s - 1) s)
      else if timed && choice then Next (PopLoadPos KLast) s
      else Blocked
  | StopStore => Next StopRelease (set_stopped true s)
  | StopRelease => Next Idle (set_sem (sem_ s + stop_permits) s)
  end.

(** [size()]: the two cursors are loaded one after the other; this is the value
    when nothing runs in between. *)
Definition size (s : Shared) : Z :=
  if decide (dequeue_pos_ s ≤ enqueue_pos_ s)
  then wrap64 (enqueue_pos_ s - dequeue_pos_ s) else 0.
End machine.
Arguments Cell T : clear implicits.
Arguments Shared T : clear implicits.
Arguments pc T : clear implicits.
Arguments result T : clear implicits.

End Ring.
