(* ===== verification/RingSafety.v ===== *)
(** * Safety of the lock-free ring under every interleaving

    A configuration is the shared memory of one [RingImpl], the program counter
    of every thread, and history variables that the program does not have: the
    items in the order their positions were claimed, and the positions that
    have been consumed (delivered to a caller, or evicted).  The history
    variables are written, never read, by the steps.

    The invariant ([Inv]) gives each cell one of four phases (empty, being
    written, full, being read) according to its sequence number and the two
    cursors, and each thread what it knows about the cell it works on.  It holds
    of every reachable configuration as long as fewer than [2^63 - capacity]
    items have been pushed in total, for every capacity of at least two. *)

From S2P Require Import Prelude RingQueue.
Import Ring.
Local Open Scope Z_scope.

Section config.
Context {T : Type}.

Record config : Type := Config {
  sh : Shared T;
  threads : gmap nat (pc T);
  log : list T;                   (* item number [p] was pushed at position [p] *)
  consumed : list (Z * option T)  (* [Some v]: delivered; [None]: evicted *)
}.

(** The effect of a step on the history variables. *)
Definition log_event (p p' : pc T) (l : list T) : list T :=
  match p, p' with
  | PushCas item _, PushEmplace _ _ => l ++ [item]
  | _, _ => l
  end.

Definition consume_event (p p' : pc T) (l : list (Z * option T)) : list (Z * option T) :=
  match p, p' with
  | PopTake pos, PopReset _ v => l ++ [(pos, Some v)]
  | EvReset _ pos, EvPublish _ _ => l ++ [(pos, None)]
  | _, _ => l
  end.

(** A call starts from [Idle] and its result is read off before the next. *)
Inductive starts : pc T → pc T → Prop :=
  | starts_push item : starts Idle (PushEnter item)
  | starts_try_pop : starts Idle (PopLoadPos KTry)
  | starts_wait_pop timed : starts Idle (PopLoadPos (KFast timed))
  | starts_stop : starts Idle StopStore
  | returns_push ok : starts (PushDone ok) Idle
  | returns_pop out : starts (PopDone out) Idle.

Inductive step : config → config → Prop :=
  | step_client c t p p' :
      threads c !! t = Some p → starts p p' →
      step c (Config (sh c) (<[t := p']> (threads c)) (log c) (consumed c))
  | step_thread c t choice p p' s' :
      threads c !! t = Some p → thread_step choice p (sh c) = Next p' s' →
      step c (Config s' (<[t := p']> (threads c)) (log_event p p' (log c))
                     (consume_event p p' (consumed c))).

(** [n] threads, all idle, on a fresh ring of [2^k] cells. *)
Definition initial (k : Z) (policy : OverflowPolicy) (n : nat) : config :=
  Config (make_shared (2 ^ k) policy)
         (list_to_map ((λ t, (t, Idle)) <$> seq 0 n)) [] [].

(** ** The invariant *)

(** The position whose cell a thread owns: it won the compare-exchange for it
    and has not published yet. *)
Definition owns (p : pc T) : option Z :=
  match p with
  | PushEmplace _ pos | PushPublish _ pos
  | EvReset _ pos | EvPublish _ pos
  | PopTake pos | PopReset pos _ | PopPublish pos _ => Some pos
  | _ => None
  end.

(** The positions claimed for reading whose consumption is not recorded yet. *)
Definition reading (p : pc T) : option Z :=
  match p with EvReset _ pos | PopTake pos => Some pos | _ => None end.

Section predicates.
Context (C E D : Z) (cell : Z → option (Cell T)) (l : list T).

Definition item_at (p : Z) : option T := l !! Z.to_nat p.

(** The cell of the unclaimed position [q]; [q - C] is the last position of
    the same cell that was claimed. *)
Definition phase (q : Z) (c : Cell T) : Prop :=
  (sequence c = q ∧ q - C < D ∧ data c = None)
  ∨ (0 ≤ q - C ∧ D ≤ q - C ∧ sequence c = q - C)
  ∨ (0 ≤ q - C ∧ D ≤ q - C ∧ sequence c = q - C + 1 ∧ data c = item_at (q - C))
  ∨ (0 ≤ q - C ∧ q - C < D ∧ sequence c = q - C + 1).

Definition has_seq (pos z : Z) : Prop := ∃ c, cell pos = Some c ∧ sequence c = z.

Definition holds_cell (pos z : Z) (d : option T → Prop) : Prop :=
  ∃ c, cell pos = Some c ∧ sequence c = z ∧ d (data c).

Definition pc_ok (p : pc T) : Prop :=
  match p with
  | PushLoadSeq _ pos => 0 ≤ pos ≤ E
  | PushCas _ pos => 0 ≤ pos ≤ E ∧ (pos = E → has_seq pos pos)
  | PushEmplace item pos =>
      0 ≤ pos ∧ D ≤ pos < E ∧ E ≤ pos + C ∧ item_at pos = Some item ∧
      holds_cell pos pos (λ _, True)
  | PushPublish item pos =>
      0 ≤ pos ∧ D ≤ pos < E ∧ E ≤ pos + C ∧ item_at pos = Some item ∧
      holds_cell pos pos (λ d, d = Some item)
  | EvLoadSeq _ pos | PopLoadSeq _ pos => 0 ≤ pos ≤ D
  | EvCas _ pos | PopCas _ pos => 0 ≤ pos ≤ D ∧ (pos = D → has_seq pos (pos + 1))
  | EvReset _ pos | PopTake pos =>
      0 ≤ pos < D ∧ E ≤ pos + C ∧ holds_cell pos (pos + 1) (λ d, d = item_at pos)
  | PopReset pos out =>
      0 ≤ pos < D ∧ E ≤ pos + C ∧ item_at pos = Some out ∧
      holds_cell pos (pos + 1) (λ _, True)
  | EvPublish _ pos | PopPublish pos _ =>
      0 ≤ pos < D ∧ E ≤ pos + C ∧ holds_cell pos (pos + 1) (λ d, d = None)
  | _ => True
  end.
End predicates.

Record Inv (k : Z) (c : config) : Prop := mkInv {
  inv_k : 1 ≤ k;
  inv_mask : mask_ (sh c) = 2 ^ k - 1;
  inv_cells : Z.of_nat (length (ring_ (sh c))) = 2 ^ k;
  inv_enq : enqueue_pos_ (sh c) = Z.of_nat (length (log c));
  inv_window : 0 ≤ dequeue_pos_ (sh c) ≤ enqueue_pos_ (sh c) ∧
               enqueue_pos_ (sh c) ≤ dequeue_pos_ (sh c) + 2 ^ k;
  inv_phase : ∀ q, enqueue_pos_ (sh c) ≤ q < enqueue_pos_ (sh c) + 2 ^ k →
    ∃ cl, cell_at (sh c) q = Some cl ∧
          phase (2 ^ k) (dequeue_pos_ (sh c)) (log c) q cl;
  inv_threads : ∀ t p, threads c !! t = Some p →
    pc_ok (2 ^ k) (enqueue_pos_ (sh c)) (dequeue_pos_ (sh c))
          (cell_at (sh c)) (log c) p;
  inv_owners : ∀ t1 t2 p1 p2 pos, threads c !! t1 = Some p1 → threads c !! t2 = Some p2 →
    owns p1 = Some pos → owns p2 = Some pos → t1 = t2;
  inv_nodup : NoDup (consumed c).*1;
  inv_consumed : ∀ p, 0 ≤ p < dequeue_pos_ (sh c) ↔
    p ∈ (consumed c).*1 ∨ ∃ t pr, threads c !! t = Some pr ∧ reading pr = Some p;
  inv_unconsumed : ∀ t pr p, threads c !! t = Some pr → reading pr = Some p →
    p ∉ (consumed c).*1;
  inv_values : ∀ p v, (p, Some v) ∈ consumed c → item_at (log c) p = Some v
}.
End config.
Arguments config T : clear implicits.

(** ** Cells and positions *)

Section cells.
Context {T : Type}.
Implicit Types (s : Shared T) (c : config T) (p : pc T).

Lemma slot_mod s k pos :
  0 ≤ k → mask_ s = 2 ^ k - 1 → slot s pos = Z.to_nat (pos `mod` 2 ^ k).
Proof.
  intros Hk Hm. unfold slot. rewrite Hm, Z.sub_1_r, <- Z.ones_equiv.
  by rewrite Z.land_ones.
Qed.

Lemma slot_lt s k pos :
  0 ≤ k → mask_ s = 2 ^ k - 1 → Z.of_nat (length (ring_ s)) = 2 ^ k →
  (slot s pos < length (ring_ s))%nat.
Proof.
  intros Hk Hm Hl. rewrite (slot_mod s k) by done.
  pose proof (Z.mod_pos_bound pos (2 ^ k)). lia.
Qed.

Lemma slot_eq_mod s k pos pos' :
  0 ≤ k → mask_ s = 2 ^ k - 1 → slot s pos = slot s pos' →
  pos `mod` 2 ^ k = pos' `mod` 2 ^ k.
Proof.
  intros Hk Hm. rewrite !(slot_mod s k) by done. intros Heq.
  pose proof (Z.mod_pos_bound pos (2 ^ k)).
  pose proof (Z.mod_pos_bound pos' (2 ^ k)). lia.
Qed.

(** Two positions of one cell are a multiple of the capacity apart. *)
Lemma slot_inj s k pos pos' :
  0 ≤ k → mask_ s = 2 ^ k - 1 → slot s pos = slot s pos' →
  - 2 ^ k < pos - pos' < 2 ^ k → pos = pos'.
Proof.
  intros Hk Hm Hs%(slot_eq_mod _ k) Hr; [|done..].
  pose proof (Z.div_mod pos (2 ^ k)). pose proof (Z.div_mod pos' (2 ^ k)).
  assert (pos `div` 2 ^ k = pos' `div` 2 ^ k) by nia. lia.
Qed.

Lemma slot_shift s k pos :
  0 ≤ k → mask_ s = 2 ^ k - 1 → slot s (pos + 2 ^ k) = slot s pos.
Proof.
  intros Hk Hm. rewrite !(slot_mod s k) by done.
  f_equal. rewrite <- (Z.mul_1_l (2 ^ k)) at 1. apply Z_mod_plus_full.
Qed.

Lemma cell_at_shift s k pos :
  0 ≤ k → mask_ s = 2 ^ k - 1 → cell_at s (pos + 2 ^ k) = cell_at s pos.
Proof. intros. unfold cell_at. by rewrite (slot_shift s k). Qed.

(** Every position has a representative in the window of length [2^k] that
    starts at [e]. *)
Lemma window_repr s k e pos :
  0 ≤ k → mask_ s = 2 ^ k - 1 → ∃ q, e ≤ q < e + 2 ^ k ∧ slot s q = slot s pos.
Proof.
  intros Hk Hm. exists (e + (pos - e) `mod` 2 ^ k).
  pose proof (Z.mod_pos_bound (pos - e) (2 ^ k)). split; [lia|].
  rewrite !(slot_mod s k) by done. f_equal.
  rewrite Z.add_mod_idemp_r by lia. f_equal. lia.
Qed.

Lemma cell_at_set_eq s k pos cl :
  0 ≤ k → mask_ s = 2 ^ k - 1 → Z.of_nat (length (ring_ s)) = 2 ^ k →
  cell_at (set_cell (slot s pos) cl s) pos = Some cl.
Proof.
  intros. unfold cell_at. cbn. apply list_lookup_insert_eq. by eapply slot_lt.
Qed.

Lemma cell_at_set_ne s pos pos' cl :
  slot s pos ≠ slot s pos' →
  cell_at (set_cell (slot s pos) cl s) pos' = cell_at s pos'.
Proof. intros. unfold cell_at. cbn. by apply list_lookup_insert_ne. Qed.

(** Two's complement differences of words below [2^63] are exact. *)
Lemma ptrdiff_sub_small a b :
  0 ≤ a < 2 ^ 63 → 0 ≤ b < 2 ^ 63 → ptrdiff_sub a b = Some (a - b).
Proof.
  intros. unfold ptrdiff_sub. rewrite !to_ptrdiff_small by lia.
  by rewrite decide_True by lia.
Qed.

Lemma pow2_ge_2 k : 1 ≤ k → 2 ≤ 2 ^ k.
Proof. intros. change 2 with (2 ^ 1) at 1. apply Z.pow_le_mono_r; lia. Qed.

(** ** What the invariant gives about one cell *)

Definition room k c : Prop := Z.of_nat (length (log c)) + 2 ^ k < 2 ^ 63.

Lemma inv_cell_range k c pos :
  Inv k c → room k c → 0 ≤ pos →
  ∃ cl, cell_at (sh c) pos = Some cl ∧ 0 ≤ sequence cl < 2 ^ 63.
Proof.
  intros [Hk Hm _ He Hw Hph _ _ _ _ _ _] Hroom Hpos. unfold room in Hroom.
  destruct (window_repr (sh c) k (enqueue_pos_ (sh c)) pos) as (q & Hq & Hs);
    [lia|done|].
  destruct (Hph q Hq) as (cl & Hcl & Hphase). exists cl.
  split; [unfold cell_at in *; by rewrite <- Hs|].
  destruct Hphase as [(->&_)|[(?&_&->)|[(?&_&->&_)|(?&_&->)]]]; lia.
Qed.

(** A cell whose sequence number is the enqueue cursor is empty; this is where
    a capacity of at least two is needed. *)
Lemma inv_claim_push k c :
  Inv k c → has_seq (cell_at (sh c)) (enqueue_pos_ (sh c)) (enqueue_pos_ (sh c)) →
  enqueue_pos_ (sh c) < dequeue_pos_ (sh c) + 2 ^ k.
Proof.
  intros [Hk Hm _ He Hw Hph _ _ _ _ _ _] (cl & Hcl & Hs).
  pose proof (pow2_ge_2 k Hk).
  destruct (Hph (enqueue_pos_ (sh c))) as (cl' & Hcl' & Hphase); [lia|].
  rewrite Hcl in Hcl'. injection Hcl' as <-.
  destruct Hphase as [(?&?&_)|[(?&_&?)|[(?&_&?&_)|(?&_&?)]]]; lia.
Qed.

(** A cell whose sequence number is one past the dequeue cursor is full. *)
Lemma inv_claim_pop k c :
  Inv k c → has_seq (cell_at (sh c)) (dequeue_pos_ (sh c)) (dequeue_pos_ (sh c) + 1) →
  dequeue_pos_ (sh c) < enqueue_pos_ (sh c) ∧
  holds_cell (cell_at (sh c)) (dequeue_pos_ (sh c)) (dequeue_pos_ (sh c) + 1)
    (λ d, d = item_at (log c) (dequeue_pos_ (sh c))).
Proof.
  intros [Hk Hm _ He Hw Hph _ _ _ _ _ _] (cl & Hcl & Hs).
  pose proof (pow2_ge_2 k Hk). set (d := dequeue_pos_ (sh c)) in *.
  destruct (decide (d = enqueue_pos_ (sh c))) as [Hd|Hd].
  - destruct (Hph d) as (cl' & Hcl' & Hphase); [lia|].
    rewrite Hcl in Hcl'. injection Hcl' as <-.
    destruct Hphase as [(?&?&_)|[(?&_&?)|[(?&_&?&_)|(?&_&?)]]]; lia.
  - split; [lia|]. destruct (Hph (d + 2 ^ k)) as (cl' & Hcl' & Hphase); [lia|].
    rewrite (cell_at_shift _ k), Hcl in Hcl' by (lia || done). injection Hcl' as <-.
    unfold phase in Hphase. replace (d + 2 ^ k - 2 ^ k) with d in Hphase by lia.
    exists cl. split; [done|]. split; [done|].
    destruct Hphase as [(?&?&_)|[(?&_&?)|[(?&_&?&?)|(?&?&?)]]]; try lia. done.
Qed.
End cells.

(** ** Framing: which cell a thread's knowledge is about *)

Section frame.
Context {T : Type}.
Implicit Types (s : Shared T) (c : config T) (p : pc T).

Definition watches (E D : Z) (p : pc T) : option Z :=
  match p with
  | PushCas _ pos => if decide (pos = E) then Some pos else None
  | EvCas _ pos | PopCas _ pos => if decide (pos = D) then Some pos else None
  | _ => owns p
  end.

Lemma pc_ok_frame C E D cell cell' (l : list T) p :
  pc_ok C E D cell l p →
  (∀ pos, watches E D p = Some pos → cell' pos = cell pos) →
  pc_ok C E D cell' l p.
Proof.
  unfold has_seq, holds_cell.
  destruct p; cbn; try done; unfold has_seq, holds_cell; intros Hok Hw;
    try (rewrite (Hw _ eq_refl); exact Hok);
    (destruct Hok as [? Hseq]; split; [done|]; intros Heq;
     rewrite decide_True in Hw by done; rewrite (Hw _ eq_refl); auto).
Qed.

(** A thread that owns a cell shares it with no thread that knows anything
    about a cell. *)
Lemma watch_disjoint k c t t' p p' pos pos' :
  Inv k c → threads c !! t = Some p → threads c !! t' = Some p' → t ≠ t' →
  owns p = Some pos → watches (enqueue_pos_ (sh c)) (dequeue_pos_ (sh c)) p' = Some pos' →
  slot (sh c) pos ≠ slot (sh c) pos'.
Proof.
  intros HI Ht Ht' Hne Hown Hwatch Hs. destruct HI as [Hk Hm _ He Hw Hph Hth Huniq _ _ _ _].
  pose proof (pow2_ge_2 k Hk). pose proof (Hth _ _ Ht) as Hp. pose proof (Hth _ _ Ht') as Hp'.
  set (E := enqueue_pos_ (sh c)) in *. set (D := dequeue_pos_ (sh c)) in *.
  assert (0 ≤ pos < E ∧ E ≤ pos + 2 ^ k ∧
          ((D ≤ pos ∧ has_seq (cell_at (sh c)) pos pos) ∨
           (pos < D ∧ has_seq (cell_at (sh c)) pos (pos + 1)))) as (Hpos & HE & Hown').
  { destruct p; cbn in Hown, Hp; simplify_eq; unfold holds_cell, has_seq in *; naive_solver lia. }
  assert (∀ z, has_seq (cell_at (sh c)) pos' z → has_seq (cell_at (sh c)) pos z) as Htr.
  { unfold has_seq, cell_at. by rewrite Hs. }
  assert (∀ z z', has_seq (cell_at (sh c)) pos z → has_seq (cell_at (sh c)) pos z' → z = z') as Hfun.
  { intros z z' (c1 & H1 & <-) (c2 & H2 & <-). congruence. }
  assert (owns p' = Some pos' → False) as Hbad.
  { intros Hown2.
    assert (0 ≤ pos' < E ∧ E ≤ pos' + 2 ^ k) as [? ?].
    { destruct p'; cbn in Hown2, Hp'; simplify_eq; naive_solver lia. }
    assert (pos = pos') as <- by (eapply (slot_inj (sh c) k); [lia|done|done|lia]).
    by eapply Hne, Huniq. }
  pose proof (slot_inj (sh c) k pos pos' ltac:(lia) Hm Hs) as Hinj.
  destruct p'; cbn in Hwatch; try (by apply Hbad); case_decide; simplify_eq; cbn in Hp';
    destruct Hp' as [? Hseq]; specialize (Hseq eq_refl); apply Htr in Hseq;
    destruct Hown' as [[? Ho]|[? Ho]]; pose proof (Hfun _ _ Hseq Ho) as Heq; lia.
Qed.

(** A step that leaves the ring alone. *)
Lemma inv_local k c t p p' s' :
  Inv k c → threads c !! t = Some p →
  ring_ s' = ring_ (sh c) → mask_ s' = mask_ (sh c) →
  enqueue_pos_ s' = enqueue_pos_ (sh c) → dequeue_pos_ s' = dequeue_pos_ (sh c) →
  pc_ok (2 ^ k) (enqueue_pos_ (sh c)) (dequeue_pos_ (sh c)) (cell_at (sh c)) (log c) p' →
  owns p' = None → reading p = None →
  Inv k (Config s' (<[t := p']> (threads c)) (log c) (consumed c)).
Proof.
  intros HI Ht Hr Hm Hq Hd Hok Ho Hrd.
  assert (cell_at s' = cell_at (sh c)) as Hcell.
  { unfold cell_at, slot. by rewrite Hr, Hm. }
  assert (reading p' = None) as Hrd'. { by destruct p'. }
  destruct HI. split; cbn; rewrite ?Hcell, ?Hr, ?Hm, ?Hq, ?Hd; try done.
  - intros t1 p1. rewrite lookup_insert. case_decide; naive_solver.
  - intros t1 t2 p1 p2 pos. rewrite !lookup_insert. repeat case_decide; naive_solver.
  - intros q. rewrite inv_consumed0. f_equiv. split; intros (t1 & p1 & Ht1 & Hr1); exists t1.
    + rewrite lookup_insert_ne by (intros ->; congruence). eauto.
    + rewrite lookup_insert in Ht1. case_decide; naive_solver.
  - intros t1 p1 q. rewrite lookup_insert. case_decide; naive_solver.
Qed.
End frame.

(** ** The steps that change the ring or the history *)

Section preservation.
Context {T : Type}.
Implicit Types (s : Shared T) (c : config T) (p : pc T).

(** The owner of a cell rewrites it: its payload, or its sequence number. *)
Lemma inv_own_cell k c t p p' pos cl :
  Inv k c → threads c !! t = Some p → owns p = Some pos → reading p = None →
  0 ≤ pos < enqueue_pos_ (sh c) → enqueue_pos_ (sh c) ≤ pos + 2 ^ k →
  phase (2 ^ k) (dequeue_pos_ (sh c)) (log c) (pos + 2 ^ k) cl →
  pc_ok (2 ^ k) (enqueue_pos_ (sh c)) (dequeue_pos_ (sh c))
        (cell_at (set_cell (slot (sh c) pos) cl (sh c))) (log c) p' →
  owns p' = Some pos ∨ owns p' = None → reading p' = None →
  Inv k (Config (set_cell (slot (sh c) pos) cl (sh c)) (<[t := p']> (threads c))
                (log c) (consumed c)).
Proof.
  intros HI Ht Hown Hrd Hpos HE Hphase Hok Hown' Hrd'.
  pose proof (λ t' p' pos', watch_disjoint k c t t' p p' pos pos' HI Ht) as Hdis.
  destruct HI. split; cbn; try done.
  - by rewrite length_insert.
  - intros q Hq. destruct (decide (slot (sh c) pos = slot (sh c) q)) as [Hs|Hs].
    + assert (q = pos + 2 ^ k) as ->.
      { rewrite <- (slot_shift (sh c) k) in Hs by (lia || done).
        symmetry. eapply (slot_inj (sh c) k); [lia|done|done|lia]. }
      exists cl. split; [|done]. rewrite (cell_at_shift _ k) by (lia || done).
      by eapply (cell_at_set_eq (sh c) k); [lia|..].
    + rewrite cell_at_set_ne by done. auto.
  - intros t1 p1. rewrite lookup_insert. case_decide; [naive_solver|].
    intros Ht1. eapply pc_ok_frame; [by eauto|].
    intros pos1 Hw. apply cell_at_set_ne. eauto.
  - intros t1 t2 p1 p2 pos1. rewrite !lookup_insert.
    repeat case_decide; naive_solver.
  - intros q. rewrite inv_consumed0. f_equiv. split; intros (t1 & p1 & Ht1 & Hr1); exists t1.
    + rewrite lookup_insert_ne by (intros ->; congruence). eauto.
    + rewrite lookup_insert in Ht1. case_decide; naive_solver.
  - intros t1 p1 q. rewrite lookup_insert. case_decide; naive_solver.
Qed.

(** The consumption of a claimed position is recorded. *)
Lemma inv_consume k c t p p' pos o :
  Inv k c → threads c !! t = Some p → owns p = Some pos → reading p = Some pos →
  pc_ok (2 ^ k) (enqueue_pos_ (sh c)) (dequeue_pos_ (sh c)) (cell_at (sh c)) (log c) p' →
  owns p' = Some pos → reading p' = None →
  (∀ v, o = Some v → item_at (log c) pos = Some v) →
  Inv k (Config (sh c) (<[t := p']> (threads c)) (log c) (consumed c ++ [(pos, o)])).
Proof.
  intros HI Ht Hown Hrd Hok Hown' Hrd' Hv. destruct HI. split; cbn; try done.
  - intros t1 p1. rewrite lookup_insert. case_decide; naive_solver.
  - intros t1 t2 p1 p2 pos1. rewrite !lookup_insert. repeat case_decide; naive_solver.
  - rewrite fmap_app. apply NoDup_app. split; [done|]. split; [|apply NoDup_singleton].
    cbn. intros q Hq ->%list_elem_of_singleton. by eapply inv_unconsumed0.
  - intros q. rewrite inv_consumed0, fmap_app, elem_of_app. cbn.
    rewrite list_elem_of_singleton. split.
    + intros [?|(t1 & p1 & Ht1 & Hr1)]; [by auto|]. destruct (decide (t1 = t)) as [->|].
      * left; right; congruence.
      * right. exists t1, p1. by rewrite lookup_insert_ne.
    + intros [[?| ->]|(t1 & p1 & Ht1 & Hr1)]; [by auto|by eauto|].
      rewrite lookup_insert in Ht1. case_decide; naive_solver.
  - intros t1 p1 q. rewrite lookup_insert, fmap_app, elem_of_app. cbn.
    rewrite list_elem_of_singleton. case_decide; [naive_solver|].
    intros Ht1 Hr1 [Hin| ->]; [by eapply inv_unconsumed0|].
    assert (owns p1 = Some pos) by (by destruct p1). by eapply H, inv_owners0.
  - intros q v. rewrite elem_of_app, list_elem_of_singleton. naive_solver.
Qed.

(** A producer claims the position at the enqueue cursor. *)
Lemma inv_push_claim k c t p item :
  Inv k c → threads c !! t = Some p → p = PushCas item (enqueue_pos_ (sh c)) →
  Inv k (Config (set_enqueue (enqueue_pos_ (sh c) + 1) (sh c))
                (<[t := PushEmplace item (enqueue_pos_ (sh c))]> (threads c))
                (log c ++ [item]) (consumed c)).
Proof.
  intros HI Ht ->. pose proof (inv_threads _ _ HI _ _ Ht) as [_ Hseq]. specialize (Hseq eq_refl).
  pose proof (inv_claim_push _ _ HI Hseq) as Hroom. destruct HI.
  pose proof (pow2_ge_2 k inv_k0). set (E := enqueue_pos_ (sh c)) in *.
  set (D := dequeue_pos_ (sh c)) in *.
  assert (∀ pos, 0 ≤ pos < E → item_at (log c ++ [item]) pos = item_at (log c) pos) as Hit.
  { intros pos Hpos. unfold item_at. apply lookup_app_l. lia. }
  assert (∀ pos z P, holds_cell (cell_at (sh c)) pos z P → z = pos ∨ z = pos + 1 →
          pos + 2 ^ k ≠ E) as Hne.
  { intros pos z P (c1 & H1 & Hq1 & _) Hz Heq. destruct Hseq as (cl & Hcl & HclE).
    rewrite <- Heq, (cell_at_shift _ k), H1 in Hcl by (lia || done). simplify_eq. lia. }
  split; cbn; try done.
  - rewrite length_app. cbn. lia.
  - lia.
  - intros q Hq. change (cell_at (set_enqueue (E + 1) (sh c))) with (cell_at (sh c)).
    destruct (decide (q = E + 2 ^ k)) as [->|Hqe].
    + rewrite (cell_at_shift _ k) by (lia || done). destruct Hseq as (cl & Hcl & HclE).
      exists cl. split; [done|]. right; left. lia.
    + destruct (inv_phase0 q) as (cl & Hcl & Hph); [lia|]. exists cl. split; [done|].
      unfold phase in *. destruct (decide (0 ≤ q - 2 ^ k)); [|naive_solver lia].
      rewrite Hit by lia. done.
  - intros t1 p1. rewrite lookup_insert. case_decide as Htt.
    + intros [= <-]. cbn. split_and!; try lia.
      * unfold item_at. rewrite lookup_app_r by lia.
        replace (Z.to_nat E - length (log c))%nat with 0%nat by lia. done.
      * destruct Hseq as (cl & Hcl & HclE). by exists cl.
    + intros Ht1. specialize (inv_threads0 _ _ Ht1).
      change (cell_at (set_enqueue (E + 1) (sh c))) with (cell_at (sh c)).
      destruct p1; cbn [pc_ok] in *; try done; try (rewrite Hit by lia);
        repeat match goal with
        | H : _ ∧ _ |- _ => destruct H
        | Hh : holds_cell _ _ _ _ |- _ =>
            pose proof (Hne _ _ _ Hh ltac:(lia)); revert Hh
        end; intros; split_and!; try done; try lia.
  - intros t1 t2 p1 p2 pos1. rewrite !lookup_insert.
    assert (∀ t' p', threads c !! t' = Some p' → owns p' = Some E → False) as Hno.
    { intros t' p' Ht' Ho. specialize (inv_threads0 _ _ Ht').
      destruct p'; cbn in Ho, inv_threads0; simplify_eq; lia. }
    repeat case_decide; naive_solver.
  - intros q. fold D. rewrite inv_consumed0. f_equiv.
    split; intros (t1 & p1 & Ht1 & Hr1); exists t1.
    + rewrite lookup_insert_ne by (intros ->; simplify_eq). eauto.
    + rewrite lookup_insert in Ht1. case_decide; naive_solver.
  - intros t1 p1 q. rewrite lookup_insert. case_decide; naive_solver.
  - intros q v Hin. pose proof (inv_values0 q v Hin) as Hv. rewrite Hit; [done|].
    assert (0 ≤ q < D); [|lia]. apply inv_consumed0. left.
    apply list_elem_of_fmap. by exists (q, Some v).
Qed.

(** A consumer (or an evicting producer) claims the position at the dequeue
    cursor. *)
Lemma inv_pop_claim k c t p p' :
  Inv k c → threads c !! t = Some p → reading p = None →
  has_seq (cell_at (sh c)) (dequeue_pos_ (sh c)) (dequeue_pos_ (sh c) + 1) →
  owns p' = Some (dequeue_pos_ (sh c)) → reading p' = Some (dequeue_pos_ (sh c)) →
  Inv k (Config (set_dequeue (dequeue_pos_ (sh c) + 1) (sh c))
                (<[t := p']> (threads c)) (log c) (consumed c)).
Proof.
  intros HI Ht Hrd Hseq Hown' Hrd'.
  destruct (inv_claim_pop _ _ HI Hseq) as [Hlt Hhold]. destruct HI.
  pose proof (pow2_ge_2 k inv_k0). set (E := enqueue_pos_ (sh c)) in *.
  set (D := dequeue_pos_ (sh c)) in *.
  assert (∀ z P, holds_cell (cell_at (sh c)) D z P → z = D + 1) as Hfull.
  { intros z P (c1 & H1 & Hq1 & _). destruct Hseq as (cl & Hcl & HclE). congruence. }
  assert (∀ t' p', threads c !! t' = Some p' → owns p' = Some D → False) as Hno.
  { intros t1 p1 Ht1 Ho. specialize (inv_threads0 _ _ Ht1).
    destruct p1; cbn [pc_ok owns] in *; simplify_eq; try lia;
      destruct inv_threads0 as (_ & _ & _ & _ & Hh); apply Hfull in Hh; lia. }
  split; cbn; try done; change (cell_at (set_dequeue (D + 1) (sh c))) with (cell_at (sh c)).
  - lia.
  - intros q Hq. destruct (inv_phase0 q Hq) as (cl & Hcl & Hph). exists cl. split; [done|].
    destruct (decide (q = D + 2 ^ k)) as [->|Hqe]; [|unfold phase in *; naive_solver lia].
    destruct Hhold as (c1 & H1 & Hq1 & _). rewrite (cell_at_shift _ k) in Hcl by (lia || done).
    rewrite Hcl in H1. injection H1 as <-. right; right; right. lia.
  - intros t1 p1. rewrite lookup_insert. case_decide as Htt.
    + intros [= <-]. destruct p'; cbn [owns reading] in *; try congruence;
        injection Hown' as ->; cbn [pc_ok]; (split_and!; [lia|lia|lia|done]).
    + intros Ht1. pose proof (Hno _ _ Ht1) as Hno1. specialize (inv_threads0 _ _ Ht1).
      destruct p1; cbn [pc_ok owns] in *; try done; destruct_and?;
        try (assert (pos ≠ D) by (intros ->; by apply Hno1));
        split_and!; try done; try (intros; lia).
  - intros t1 t2 p1 p2 pos1. rewrite !lookup_insert. repeat case_decide; naive_solver.
  - intros q. split.
    + intros Hq. destruct (decide (q = D)) as [->|].
      * right. exists t, p'. by rewrite lookup_insert_eq.
      * destruct (proj1 (inv_consumed0 q)) as [?|(t1 & p1 & Ht1 & Hr1)]; [lia|by auto|].
        right. exists t1, p1. rewrite lookup_insert_ne by (intros ->; congruence). done.
    + intros Hq. destruct (decide (q = D)); [lia|]. cut (0 ≤ q < D); [lia|].
      apply inv_consumed0. destruct Hq as [?|(t1 & p1 & Ht1 & Hr1)]; [by auto|].
      rewrite lookup_insert in Ht1. case_decide; naive_solver.
  - intros t1 p1 q. rewrite lookup_insert. case_decide; [|by eauto].
    intros [= <-] Hq Hin. assert (0 ≤ q < D) by (apply inv_consumed0; auto).
    assert (q = D) by congruence. lia.
Qed.
End preservation.
