(* ===== verification/RingProps.v ===== *)
(** * Theorems about the lock-free ring

    The invariant of RingSafety.v holds of every reachable configuration; the
    properties of the ring follow from it. *)

From S2P Require Import Prelude RingQueue RingSafety.
Import Ring.
Local Open Scope Z_scope.

(** ** Every step preserves the invariant *)

Section steps.
Context {T : Type}.
Implicit Types (s : Shared T) (c : config T) (p : pc T).

Lemma on_diff_next k c pos expected zero neg posv p' s' :
  Inv k c → room k c → 0 ≤ pos → 0 ≤ expected < 2 ^ 63 →
  on_diff (sh c) pos expected zero neg posv = Next p' s' →
  s' = sh c ∧ ((p' = zero ∧ has_seq (cell_at (sh c)) pos expected) ∨ p' = neg ∨ p' = posv).
Proof.
  intros HI Hroom Hpos Hexp Heq. unfold on_diff in Heq.
  destruct (inv_cell_range _ _ _ HI Hroom Hpos) as (cl & Hcl & Hrange).
  rewrite Hcl, ptrdiff_sub_small in Heq by done.
  repeat case_decide; simplify_eq; split; auto.
  left. split; [done|]. exists cl. split; [done|]. lia.
Qed.

Lemma log_event_mono p p' (l : list T) :
  (length l ≤ length (log_event p p' l))%nat.
Proof. destruct p, p'; cbn; rewrite ?length_app; lia. Qed.

(** A published or rewritten cell, seen from the position that owns it. *)
Lemma holds_cell_set k c pos z (P : option T → Prop) (d : option T) :
  Inv k c → P d →
  holds_cell (cell_at (set_cell (slot (sh c) pos) (mkCell z d) (sh c))) pos z P.
Proof.
  intros [Hk Hm Hl _ _ _ _ _ _ _ _ _] HP. exists (mkCell z d). split; [|done].
  by eapply (cell_at_set_eq (sh c) k); [lia|..].
Qed.

Lemma inv_thread_step k c t choice p p' s' :
  Inv k c → room k c →
  Z.of_nat (length (log_event p p' (log c))) + 2 ^ k < 2 ^ 63 →
  threads c !! t = Some p → thread_step choice p (sh c) = Next p' s' →
  Inv k (Config s' (<[t := p']> (threads c)) (log_event p p' (log c))
                (consume_event p p' (consumed c))).
Proof.
  intros HI Hroom Hroom' Ht Hstep. pose proof (inv_threads _ _ HI _ _ Ht) as Hp.
  pose proof (inv_enq _ _ HI) as HE. pose proof (inv_window _ _ HI) as HW.
  pose proof (pow2_ge_2 k (inv_k _ _ HI)) as HC. unfold room in Hroom.
  pose proof (inv_mask _ _ HI) as Hm.
  destruct p; cbn [thread_step pc_ok] in *; try discriminate Hstep.
  all: try (simplify_eq; cbn [log_event consume_event];
            eapply inv_local; cbn [pc_ok]; try done; lia).
  (* PushEnter *)
  - destruct (stopped_ (sh c)); simplify_eq; by eapply inv_local.
  (* PushLoadSeq *)
  - eapply on_diff_next in Hstep as [-> [[-> Hs]|[->| ->]]]; try done; try lia.
    + eapply inv_local; try done; cbn [pc_ok]; auto.
    + destruct (policy_ (sh c)); by eapply inv_local.
    + by eapply inv_local.
  (* PushCas *)
  - case_decide as Hcas; simplify_eq; [|by eapply inv_local].
    destruct Hcas as [<- _]. cbn [log_event consume_event] in *.
    rewrite length_app in Hroom'. cbn in Hroom'.
    rewrite wrap64_small by lia. by eapply inv_push_claim.
  (* PushEmplace *)
  - destruct Hp as (? & ? & ? & Hit & (cl & Hcl & Hs & _)). rewrite Hcl in Hstep. injection Hstep as <- <-.
    eapply inv_own_cell; try done; try lia; try (by left).
    + right; left. cbn. lia.
    + cbn [pc_ok]. split_and!; try done; try lia. rewrite Hs. by eapply holds_cell_set.
  (* PushPublish *)
  - destruct Hp as (? & ? & ? & Hit & (cl & Hcl & Hs & Hd)). rewrite Hcl in Hstep. injection Hstep as <- <-.
    rewrite wrap64_small by lia. eapply inv_own_cell; try done; try lia; try (by right).
    right; right; left. cbn. replace (pos + 2 ^ k - 2 ^ k) with pos by lia.
    split_and!; try lia. congruence.
  (* EvLoadSeq *)
  - rewrite wrap64_small in Hstep by lia.
    eapply on_diff_next in Hstep as [-> [[-> Hs]|[->| ->]]]; try done; try lia.
    all: eapply inv_local; try done; cbn [pc_ok]; auto.
  (* EvCas *)
  - case_decide as Hcas; simplify_eq; [|by eapply inv_local].
    destruct Hcas as [<- _]. cbn [log_event consume_event] in *.
    rewrite wrap64_small by lia. eapply inv_pop_claim; try done. by apply Hp.
  (* EvReset *)
  - destruct Hp as (? & ? & (cl & Hcl & Hs & Hd)). rewrite Hcl in Hstep. injection Hstep as <- <-.
    cbn [log_event consume_event].
    destruct (lookup_lt_is_Some_2 (log c) (Z.to_nat pos)) as [v Hv]; [lia|].
    rewrite <- (insert_insert_eq (threads c) t (EvPublish item pos) (PopReset pos v)).
    assert (Inv k (Config (sh c) (<[t := PopReset pos v]> (threads c)) (log c)
                          (consumed c ++ [(pos, None)]))) as HI'.
    { eapply inv_consume; try done; cbn [pc_ok]. split_and!; try done; try lia.
      exists cl. done. }
    eapply (inv_own_cell k _ t (PopReset pos v) (EvPublish item pos) pos _ HI'); cbn; try done;
      try lia; try (by left).
    + by rewrite lookup_insert_eq.
    + right; right; right. cbn. lia.
    + split_and!; try lia. rewrite Hs. by eapply (holds_cell_set k c).
  (* EvPublish *)
  - destruct Hp as (? & ? & (cl & Hcl & Hs & Hd)). rewrite Hcl in Hstep. injection Hstep as <- <-.
    unfold capacity. rewrite Hm. replace (2 ^ k - 1 + 1) with (2 ^ k) by lia.
    rewrite wrap64_small by lia. eapply inv_own_cell; try done; try lia; try (by right).
    left. cbn. split_and!; try lia. done.
  (* PopLoadSeq *)
  - rewrite wrap64_small in Hstep by lia.
    eapply on_diff_next in Hstep as [-> [[-> Hs]|[->| ->]]]; try done; try lia.
    all: try destruct k0; eapply inv_local; try done; cbn [pc_ok]; auto.
  (* PopCas *)
  - case_decide as Hcas; simplify_eq; [|by eapply inv_local].
    destruct Hcas as [<- _]. cbn [log_event consume_event] in *.
    rewrite wrap64_small by lia. eapply inv_pop_claim; try done. by apply Hp.
  (* PopTake *)
  - destruct Hp as (? & ? & (cl & Hcl & Hs & Hd)). rewrite Hcl in Hstep.
    destruct cl as [z [v|]]; simplify_eq. cbn [log_event consume_event sequence data] in *.
    eapply inv_consume; try done; cbn [pc_ok].
    + split_and!; try lia; [done|]. by eexists.
    + naive_solver.
  (* PopReset *)
  - destruct Hp as (? & ? & Hit & (cl & Hcl & Hs & _)). rewrite Hcl in Hstep. injection Hstep as <- <-.
    eapply inv_own_cell; try done; try lia; try (by left).
    + right; right; right. cbn. lia.
    + cbn [pc_ok]. split_and!; try lia. rewrite Hs. by eapply holds_cell_set.
  (* PopPublish *)
  - destruct Hp as (? & ? & (cl & Hcl & Hs & Hd)). rewrite Hcl in Hstep. injection Hstep as <- <-.
    unfold capacity. rewrite Hm. replace (2 ^ k - 1 + 1) with (2 ^ k) by lia.
    rewrite wrap64_small by lia. eapply inv_own_cell; try done; try lia; try (by right).
    left. cbn. split_and!; try lia. done.
  (* WaitCheck *)
  - destruct (stopped_ (sh c)); simplify_eq; by eapply inv_local.
  (* WaitAcquire *)
  - case_decide; [|destruct (timed && choice)]; simplify_eq; by eapply inv_local.
Qed.
End steps.

(** ** Reachable configurations *)

Section reachable.
Context {T : Type}.
Implicit Types (s : Shared T) (c : config T) (p : pc T).

Lemma step_log_mono c c' : step c c' → (length (log c) ≤ length (log c'))%nat.
Proof. intros Hs. inv_step Hs; [done|]. apply log_event_mono. Qed.

Lemma starts_facts k c t p p' :
  Inv k c → threads c !! t = Some p → starts p p' →
  Inv k (Config (sh c) (<[t := p']> (threads c)) (log c) (consumed c)).
Proof. intros HI Ht Hs. inversion Hs; subst; by eapply inv_local. Qed.

Lemma inv_step_preserved k c c' : Inv k c → step c c' → room k c' → Inv k c'.
Proof.
  intros HI Hs Hroom. assert (room k c) as Hroom0.
  { apply step_log_mono in Hs. unfold room in *. lia. }
  inv_step Hs; [by eapply starts_facts|]. by eapply inv_thread_step.
Qed.

Lemma init_cells_lookup (n : Z) (i : nat) :
  Z.of_nat i < n → init_cells (T:=T) n !! i = Some (mkCell (Z.of_nat i) None).
Proof.
  intros Hi. unfold init_cells. rewrite list_lookup_fmap, lookup_seq_lt by lia. done.
Qed.

Lemma inv_initial k policy n : 1 ≤ k → Inv k (initial (T:=T) k policy n).
Proof.
  intros Hk. pose proof (pow2_ge_2 k Hk).
  assert (∀ t p, threads (initial (T:=T) k policy n) !! t = Some p → p = Idle) as Hidle.
  { cbn. intros t p Hp%elem_of_list_to_map_2. apply list_elem_of_fmap in Hp. naive_solver. }
  split; cbn [sh log consumed initial]; try done; cbn.
  - unfold init_cells. rewrite length_fmap, length_seq. lia.
  - lia.
  - intros q Hq. exists (mkCell q None). unfold cell_at.
    rewrite (slot_mod _ k) by (cbn; lia). cbn. rewrite Z.mod_small by lia.
    rewrite init_cells_lookup, Z2Nat.id by lia. split; [done|].
    left. cbn. split_and!; [done|lia|done].
  - intros t p ->%Hidle. done.
  - intros t1 t2 p1 p2 pos ->%Hidle. done.
  - constructor.
  - intros p. split; [lia|]. intros [[]%elem_of_nil|(t & pr & ->%Hidle & ?)]. done.
  - intros t pr p ->%Hidle. done.
  - intros p v []%elem_of_nil.
Qed.

Lemma reachable_inv k policy n c :
  1 ≤ k → rtc step (initial k policy n) c → room k c → Inv k c.
Proof.
  intros Hk. revert c. refine (rtc_ind_r (λ c, room k c → Inv k c) _ _ _).
  - intros _. by apply inv_initial.
  - intros c c' _ Hs IH Hroom. eapply inv_step_preserved; [|done|done].
    apply IH. apply step_log_mono in Hs. unfold room in *. lia.
Qed.

(** The payload accesses of a thread: [emplace], [reset], and the read of
    [*c.data]. *)
Definition payload_access (p : pc T) : option Z :=
  match p with
  | PushEmplace _ pos | EvReset _ pos | PopTake pos | PopReset pos _ => Some pos
  | _ => None
  end.

Lemma on_diff_no_fault k c pos expected (zero neg posv : pc T) :
  Inv k c → room k c → 0 ≤ pos → 0 ≤ expected < 2 ^ 63 →
  on_diff (sh c) pos expected zero neg posv ≠ Fault.
Proof.
  intros HI Hroom Hpos Hexp. unfold on_diff.
  destruct (inv_cell_range _ _ _ HI Hroom Hpos) as (cl & -> & Hrange).
  rewrite ptrdiff_sub_small by done. by repeat case_decide.
Qed.

Lemma inv_no_fault k c t p choice :
  Inv k c → room k c → threads c !! t = Some p → thread_step choice p (sh c) ≠ Fault.
Proof.
  intros HI Hroom Ht. pose proof (inv_threads _ _ HI _ _ Ht) as Hp.
  pose proof (inv_enq _ _ HI). pose proof (inv_window _ _ HI).
  pose proof (pow2_ge_2 k (inv_k _ _ HI)). unfold room in Hroom.
  destruct p; cbn [thread_step pc_ok] in *; try done; try (repeat case_match; done).
  all: destruct_and?; try (rewrite wrap64_small by lia).
  all: try (eapply on_diff_no_fault; [done|done|lia|lia]).
  all: match goal with Hh : holds_cell _ _ _ _ |- _ =>
         destruct Hh as (cl & Hcl & ? & Hd); rewrite Hcl end; try done.
  destruct cl as [z d]. cbn in Hd. subst d. unfold item_at.
  destruct (lookup_lt_is_Some_2 (log c) (Z.to_nat pos)) as [v ->]; [lia|]. done.
Qed.
End reachable.

(** ** Properties *)

Section properties.
Context {T : Type}.
Implicit Types (c : config T) (p : pc T).


(** C10: No data race on a payload: two different threads are never both about
    to access the [data] member of the same cell. *)
Theorem ring_race_free k policy n c t1 t2 p1 p2 pos1 pos2 :
  1 ≤ k → rtc step (initial k policy n) c → room k c →
  threads c !! t1 = Some p1 → threads c !! t2 = Some p2 → t1 ≠ t2 →
  payload_access p1 = Some pos1 → payload_access p2 = Some pos2 →
  slot (sh c) pos1 ≠ slot (sh c) pos2.
Proof.
  intros Hk Hr Hroom H1 H2 Hne Ha1 Ha2.
  pose proof (reachable_inv _ _ _ _ Hk Hr Hroom) as HI.
  eapply (watch_disjoint k c t1 t2); try done.
  - by destruct p1.
  - by destruct p2.
Qed.

(** C1: Exactly once, in order: the positions below the dequeue cursor are
    exactly those consumed or in the hands of one thread, no position is consumed
    twice, and a consumer that took position [p] got the item that was pushed
    as number [p]. *)
Theorem ring_exactly_once k policy n c :
  1 ≤ k → rtc step (initial k policy n) c → room k c →
  NoDup (consumed c).*1 ∧
  (∀ q v, (q, Some v) ∈ consumed c → log c !! Z.to_nat q = Some v) ∧
  (∀ q, 0 ≤ q < dequeue_pos_ (sh c) ↔
        q ∈ (consumed c).*1 ∨ ∃ t p, threads c !! t = Some p ∧ reading p = Some q).
Proof.
  intros Hk Hr Hroom. destruct (reachable_inv _ _ _ _ Hk Hr Hroom). auto.
Qed.

(** The number of claimed and unconsumed positions never exceeds the number
    of cells, and [size()] reports it: a push into a full ring never overwrites. *)
Theorem ring_occupancy k policy n c :
  1 ≤ k → rtc step (initial k policy n) c → room k c →
  enqueue_pos_ (sh c) = Z.of_nat (length (log c)) ∧
  size (sh c) = enqueue_pos_ (sh c) - dequeue_pos_ (sh c) ∧
  0 ≤ size (sh c) ≤ capacity (sh c).
Proof.
  intros Hk Hr Hroom. destruct (reachable_inv _ _ _ _ Hk Hr Hroom).
  unfold size, capacity, room in *. rewrite decide_True by lia.
  rewrite wrap64_small by lia. lia.
Qed.
End properties.

(** ** Schedules, for concrete executions *)

Section schedules.
Context {T : Type}.

Inductive action : Type :=
  | APush (item : T)
  | ATryPop
  | AWaitPop (timed : bool)
  | AStop
  | AReturn
  | ARun (choice : bool).

Definition act (a : action) (p : pc T) (s : Shared T) : option (pc T * Shared T) :=
  match a, p with
  | APush item, Idle => Some (PushEnter item, s)
  | ATryPop, Idle => Some (PopLoadPos KTry, s)
  | AWaitPop timed, Idle => Some (PopLoadPos (KFast timed), s)
  | AStop, Idle => Some (StopStore, s)
  | AReturn, PushDone _ | AReturn, PopDone _ => Some (Idle, s)
  | ARun choice, _ =>
      match thread_step choice p s with Next p' s' => Some (p', s') | _ => None end
  | _, _ => None
  end.

Fixpoint schedule (es : list (nat * action)) (c : config T) : option (config T) :=
  match es with
  | [] => Some c
  | (t, a) :: es' =>
      p ← threads c !! t;
      r ← act a p (sh c);
      schedule es' (Config r.2 (<[t := r.1]> (threads c)) (log_event p r.1 (log c))
                           (consume_event p r.1 (consumed c)))
  end.

Lemma schedule_sound es c c' : schedule es c = Some c' → rtc step c c'.
Proof.
  revert c. induction es as [|[t a] es IH]; intros c Hs; cbn in Hs; [by simplify_eq|].
  destruct (threads c !! t) as [p|] eqn:Hp; [|done]. cbn in Hs.
  destruct (act a p (sh c)) as [[p' s']|] eqn:Ha; [|done]. cbn in Hs.
  eapply rtc_l; [|by apply IH]. destruct a; cbn in Ha;
    try (destruct p; simplify_eq; by eapply step_client; [|constructor]).
  destruct (thread_step choice p (sh c)) eqn:Hst; simplify_eq. by eapply step_thread.
Qed.

(** The same thread [n] times. *)
Definition runs (n : nat) (t : nat) : list (nat * action) := replicate n (t, ARun false).
End schedules.
Arguments action T : clear implicits.

(** Two producers claim neighbouring positions, the second publishes first, a
    consumer takes the first item while the ring wraps. *)
Definition demo_schedule : list (nat * action nat) :=
  [(0%nat, APush 10%nat); (1%nat, APush 11%nat)]
  ++ runs 4 0 ++ runs 7 1 ++ runs 3 0 ++ [(2%nat, ATryPop)] ++ runs 4 2
  ++ [(0%nat, AReturn); (0%nat, APush 12%nat)] ++ runs 3 0.

Definition demo_config : config nat :=
  default (initial 1 DropNew 3) (schedule demo_schedule (initial 1 DropNew 3)).

Lemma demo_reachable : rtc step (initial 1 DropNew 3) demo_config.
Proof. apply (schedule_sound demo_schedule). vm_compute. reflexivity. Qed.

Lemma demo_facts :
  threads demo_config !! 2%nat = Some (PopReset 0 10%nat) ∧
  consumed demo_config = [(0, Some 10%nat)] ∧
  log demo_config = [10%nat; 11%nat] ∧ size (sh demo_config) = 1.
Proof. vm_compute. split_and!; reflexivity. Qed.


Lemma ring_exactly_once_witness :
  NoDup (consumed demo_config).*1 ∧ log demo_config !! 0%nat = Some 10%nat.
Proof.
  destruct (ring_exactly_once 1 DropNew 3 demo_config) as (Hnd & Hv & _);
    [lia|exact demo_reachable|vm_compute; reflexivity|].
  split; [exact Hnd|]. apply (Hv 0 10%nat). vm_compute. left.
Defined.

Lemma ring_occupancy_witness :
  size (sh demo_config) = 1 ∧ size (sh demo_config) ≤ capacity (sh demo_config).
Proof.
  split; [vm_compute; reflexivity|].
  apply (ring_occupancy 1 DropNew 3 demo_config);
    [lia|exact demo_reachable|vm_compute; reflexivity].
Defined.

(** Both producers hold a claimed cell at the same time. *)
Definition two_writers_schedule : list (nat * action nat) :=
  [(0%nat, APush 10%nat); (1%nat, APush 11%nat)] ++ runs 4 0 ++ runs 4 1.

Definition two_writers : config nat :=
  default (initial 1 DropNew 2) (schedule two_writers_schedule (initial 1 DropNew 2)).

Lemma two_writers_reachable : rtc step (initial 1 DropNew 2) two_writers.
Proof. apply (schedule_sound two_writers_schedule). vm_compute. reflexivity. Qed.

Lemma ring_race_free_witness :
  threads two_writers !! 0%nat = Some (PushEmplace 10%nat 0) ∧
  threads two_writers !! 1%nat = Some (PushEmplace 11%nat 1) ∧
  slot (sh two_writers) 0 ≠ slot (sh two_writers) 1.
Proof.
  split; [vm_compute; reflexivity|]. split; [vm_compute; reflexivity|].
  apply (ring_race_free 1 DropNew 2 two_writers 0 1
           (PushEmplace 10%nat 0) (PushEmplace 11%nat 1));
    [lia|exact two_writers_reachable|vm_compute; reflexivity..|lia|reflexivity|reflexivity].
Defined.
