(* ===== verification/RingSeq.v ===== *)
(** * One call at a time on the lock-free ring

    When no other thread is inside the ring, a call of [push] or [try_pop]
    returns after a fixed number of steps and behaves as the operation of a
    bounded FIFO queue.  [repr k s l] relates the cells and cursors to the list
    [l] of queued items; [push] and [try_pop] run the machine of RingQueue.v for
    one thread until it returns.

    The file also has the constructor's rounding loop and what goes wrong with a
    ring of a single cell. *)

From S2P Require Import Prelude RingQueue RingSafety.
Import Ring.
Local Open Scope Z_scope.

Section solo.
Context {T : Type}.
Implicit Types (s : Shared T) (p : pc T) (l : list T).

(** Run one thread until its call returns; [None] if it has not within the
    fuel, or if it blocks or faults. *)
Fixpoint run_solo (fuel : nat) (p : pc T) (s : Shared T) : option (pc T * Shared T) :=
  match fuel with
  | O => None
  | S f =>
      match p with
      | PushDone _ | PopDone _ => Some (p, s)
      | _ => match thread_step false p s with
             | Next p' s' => run_solo f p' s'
             | _ => None
             end
      end
  end.

(** [RingImpl::push] and [RingImpl::try_pop] for one thread at a time.  Sixteen
    steps are the longest path (a full ring that evicts, then enqueues). *)
Definition push (item : T) (s : Shared T) : option (bool * Shared T) :=
  match run_solo 17 (PushEnter item) s with
  | Some (PushDone ok, s') => Some (ok, s')
  | _ => None
  end.

Definition try_pop (s : Shared T) : option (option T * Shared T) :=
  match run_solo 8 (PopLoadPos KTry) s with
  | Some (PopDone out, s') => Some (out, s')
  | _ => None
  end.

Definition stop (s : Shared T) : Shared T := set_sem (sem_ s + stop_permits) (set_stopped true s).

Record repr (k : Z) (s : Shared T) (l : list T) : Prop := mkRepr {
  repr_k : 1 ≤ k;
  repr_mask : mask_ s = 2 ^ k - 1;
  repr_cells : Z.of_nat (length (ring_ s)) = 2 ^ k;
  repr_deq : 0 ≤ dequeue_pos_ s;
  repr_enq : enqueue_pos_ s = dequeue_pos_ s + Z.of_nat (length l);
  repr_len : Z.of_nat (length l) ≤ 2 ^ k;
  repr_full : ∀ (i : nat) x, l !! i = Some x →
    cell_at s (dequeue_pos_ s + Z.of_nat i) =
      Some (mkCell (dequeue_pos_ s + Z.of_nat i + 1) (Some x));
  repr_empty : ∀ q, enqueue_pos_ s ≤ q < dequeue_pos_ s + 2 ^ k →
    cell_at s q = Some (mkCell q None)
}.

(** The cursors are far from wrapping: room for [n] more pushes. *)
Definition far (k n : Z) (s : Shared T) : Prop := enqueue_pos_ s + 2 ^ k + n < 2 ^ 63.

Lemma run_solo_next f p s p' s' :
  thread_step false p s = Next p' s' →
  run_solo (S f) p s = run_solo f p' s'.
Proof. intros Hs. cbn [run_solo]. destruct p; try (by rewrite Hs); done. Qed.

Lemma on_diff_eval s pos expected (zero neg posv : pc T) z d :
  cell_at s pos = Some (mkCell z d) → 0 ≤ z < 2 ^ 63 → 0 ≤ expected < 2 ^ 63 →
  on_diff s pos expected zero neg posv =
    if decide (z = expected) then Next zero s
    else if decide (z < expected) then Next neg s else Next posv s.
Proof.
  intros Hc Hz He. unfold on_diff. rewrite Hc. cbn [sequence].
  rewrite ptrdiff_sub_small by done. repeat case_decide; (done || lia).
Qed.

(** Claim, fill and publish one cell. *)
Definition after_enqueue (item : T) (s : Shared T) : Shared T :=
  let pos := enqueue_pos_ s in
  set_sem (sem_ s + 1)
    (set_cell (slot s pos) (mkCell (pos + 1) (Some item)) (set_enqueue (pos + 1) s)).

Lemma after_enqueue_cells k s l item q :
  repr k s l →
  cell_at (after_enqueue item s) q =
    if decide (slot s (enqueue_pos_ s) = slot s q)
    then Some (mkCell (enqueue_pos_ s + 1) (Some item)) else cell_at s q.
Proof.
  intros [Hk Hm Hc _ _ _ _ _].
  change (cell_at (after_enqueue item s) q) with
    (cell_at (set_cell (slot s (enqueue_pos_ s))
                (mkCell (enqueue_pos_ s + 1) (Some item)) s) q).
  case_decide as Hs; [|by apply cell_at_set_ne].
  unfold cell_at. change (slot (set_cell _ _ s) q) with (slot s q). rewrite <- Hs.
  by apply (cell_at_set_eq s k); [lia|..].
Qed.

Lemma repr_enqueue k s l item :
  repr k s l → Z.of_nat (length l) < 2 ^ k → repr k (after_enqueue item s) (l ++ [item]).
Proof.
  intros Hr Hlt. pose proof (λ q, after_enqueue_cells k s l item q Hr) as Hcells.
  destruct Hr as [Hk Hm Hc Hd He Hl Hf Hem]. pose proof (pow2_ge_2 k Hk).
  split; try done; try (cbn; rewrite ?length_app, ?length_insert; cbn; lia).
  - intros i x Hi. cbn [dequeue_pos_ after_enqueue set_sem set_cell set_enqueue].
    rewrite Hcells. apply lookup_app_Some in Hi as [Hi|[Hge Hi]].
    + rewrite decide_False; [by apply Hf|]. apply lookup_lt_Some in Hi as Hlen.
      intros Hs. apply (slot_inj s k) in Hs; (done || lia).
    + apply list_lookup_singleton_Some in Hi as [Hi ->].
      replace (dequeue_pos_ s + Z.of_nat i) with (enqueue_pos_ s) by lia.
      by rewrite decide_True.
  - intros q. cbn [dequeue_pos_ enqueue_pos_ after_enqueue set_sem set_cell set_enqueue].
    intros Hq. rewrite Hcells, decide_False; [apply Hem; lia|].
    intros Hs. apply (slot_inj s k) in Hs; (done || lia).
Qed.

Lemma push_has_room k s l item f :
  repr k s l → far k 0 s → Z.of_nat (length l) < 2 ^ k →
  run_solo (7 + f) (PushLoadPos item) s = Some (PushDone true, after_enqueue item s).
Proof.
  intros Hr Hfar Hlt. destruct Hr as [Hk Hm Hc Hd He Hl Hf Hem]. unfold far in Hfar.
  pose proof (pow2_ge_2 k Hk). set (E := enqueue_pos_ s).
  assert (cell_at s E = Some (mkCell E None)) as HE by (apply Hem; lia).
  cbn [Nat.add]. erewrite run_solo_next by reflexivity. fold E.
  erewrite run_solo_next.
  2:{ cbn [thread_step]. erewrite on_diff_eval by (done || lia).
      by rewrite decide_True. }
  erewrite run_solo_next.
  2:{ cbn [thread_step]. by rewrite decide_True. }
  rewrite wrap64_small by lia. erewrite run_solo_next.
  2:{ cbn [thread_step]. change (cell_at (set_enqueue (E + 1) s)) with (cell_at s).
      rewrite HE. done. }
  erewrite run_solo_next.
  2:{ cbn [thread_step].
      rewrite (cell_at_set_eq (set_enqueue (E + 1) s) k) by (lia || done). done. }
  erewrite run_solo_next by reflexivity. cbn [run_solo data].
  rewrite wrap64_small by lia. unfold after_enqueue, set_sem, set_cell. cbn.
  change (slot _ E) with (slot s E). fold E. by rewrite list_insert_insert_eq.
Qed.

(** Claim, clear and publish the front cell. *)
Definition after_dequeue (s : Shared T) : Shared T :=
  let pos := dequeue_pos_ s in
  set_cell (slot s pos) (mkCell (pos + capacity s) None) (set_dequeue (pos + 1) s).

Lemma after_dequeue_cells k s l q :
  repr k s l →
  cell_at (after_dequeue s) q =
    if decide (slot s (dequeue_pos_ s) = slot s q)
    then Some (mkCell (dequeue_pos_ s + 2 ^ k) None) else cell_at s q.
Proof.
  intros [Hk Hm Hc _ _ _ _ _]. unfold after_dequeue, capacity. rewrite Hm.
  replace (2 ^ k - 1 + 1) with (2 ^ k) by lia.
  change (cell_at (set_cell _ ?cl _) q) with
    (cell_at (set_cell (slot s (dequeue_pos_ s)) cl s) q).
  case_decide as Hs; [|by apply cell_at_set_ne].
  unfold cell_at. change (slot (set_cell _ _ s) q) with (slot s q). rewrite <- Hs.
  by apply (cell_at_set_eq s k); [lia|..].
Qed.

Lemma repr_dequeue k s x l : repr k s (x :: l) → repr k (after_dequeue s) l.
Proof.
  intros Hr. pose proof (λ q, after_dequeue_cells k s (x :: l) q Hr) as Hcells.
  destruct Hr as [Hk Hm Hc Hd He Hl Hf Hem]. pose proof (pow2_ge_2 k Hk). cbn in He, Hl.
  split; try done; try (cbn; rewrite ?length_insert; lia).
  - intros i y Hi. cbn [dequeue_pos_ after_dequeue set_cell set_dequeue].
    rewrite Hcells. apply lookup_lt_Some in Hi as Hlen. rewrite decide_False.
    + replace (dequeue_pos_ s + 1 + Z.of_nat i) with (dequeue_pos_ s + Z.of_nat (S i)) by lia.
      by apply Hf.
    + intros Hs. apply (slot_inj s k) in Hs; (done || lia).
  - intros q. cbn [dequeue_pos_ enqueue_pos_ after_dequeue set_cell set_dequeue].
    intros Hq. rewrite Hcells. case_decide as Hs.
    + rewrite <- (slot_shift s k) in Hs by (lia || done).
      apply (slot_inj s k) in Hs; (done || lia || (intros; by subst)).
    + apply Hem. assert (q ≠ dequeue_pos_ s + 2 ^ k); [|lia].
      intros ->. rewrite (slot_shift s k) in Hs by (lia || done). done.
Qed.

Lemma front_cell k s x l :
  repr k s (x :: l) →
  cell_at s (dequeue_pos_ s) = Some (mkCell (dequeue_pos_ s + 1) (Some x)).
Proof. intros [_ _ _ _ _ _ Hf _]. specialize (Hf 0%nat x eq_refl). by rewrite Z.add_0_r in Hf. Qed.

Lemma evict_front k s x l item f :
  repr k s (x :: l) → far k 0 s →
  run_solo (6 + f) (EvLoadPos item) s =
    run_solo f (PushLoadPos item) (set_dropped (dropped_ s +64 1) (after_dequeue s)).
Proof.
  intros Hr Hfar. pose proof (front_cell _ _ _ _ Hr) as Hfront.
  destruct Hr as [Hk Hm Hc Hd He Hl _ _]. unfold far in Hfar.
  pose proof (pow2_ge_2 k Hk). cbn in He. set (D := dequeue_pos_ s) in *.
  cbn [Nat.add]. erewrite run_solo_next by reflexivity. fold D.
  erewrite run_solo_next.
  2:{ cbn [thread_step]. rewrite wrap64_small by lia.
      erewrite on_diff_eval by (done || lia). by rewrite decide_True. }
  erewrite run_solo_next.
  2:{ cbn [thread_step]. by rewrite decide_True. }
  rewrite wrap64_small by lia. erewrite run_solo_next.
  2:{ cbn [thread_step]. change (cell_at (set_dequeue (D + 1) s)) with (cell_at s).
      rewrite Hfront. done. }
  erewrite run_solo_next.
  2:{ cbn [thread_step].
      rewrite (cell_at_set_eq (set_dequeue (D + 1) s) k) by (lia || done). done. }
  erewrite run_solo_next by reflexivity. f_equal.
  unfold after_dequeue, set_dropped, set_cell, capacity. cbn [mask_ set_dequeue]. cbn.
  change (slot _ D) with (slot s D). fold D. rewrite wrap64_small by lia.
  by rewrite list_insert_insert_eq.
Qed.

Lemma pop_front k s x l f :
  repr k s (x :: l) → far k 0 s →
  run_solo (7 + f) (PopLoadPos KTry) s = Some (PopDone (Some x), after_dequeue s).
Proof.
  intros Hr Hfar. pose proof (front_cell _ _ _ _ Hr) as Hfront.
  destruct Hr as [Hk Hm Hc Hd He Hl _ _]. unfold far in Hfar.
  pose proof (pow2_ge_2 k Hk). cbn in He. set (D := dequeue_pos_ s) in *.
  cbn [Nat.add]. erewrite run_solo_next by reflexivity. fold D.
  erewrite run_solo_next.
  2:{ cbn [thread_step]. rewrite wrap64_small by lia.
      erewrite on_diff_eval by (done || lia). by rewrite decide_True. }
  erewrite run_solo_next.
  2:{ cbn [thread_step]. by rewrite decide_True. }
  rewrite wrap64_small by lia. erewrite run_solo_next.
  2:{ cbn [thread_step]. change (cell_at (set_dequeue (D + 1) s)) with (cell_at s).
      rewrite Hfront. done. }
  erewrite run_solo_next.
  2:{ cbn [thread_step]. change (cell_at (set_dequeue (D + 1) s)) with (cell_at s).
      rewrite Hfront. done. }
  erewrite run_solo_next.
  2:{ cbn [thread_step].
      rewrite (cell_at_set_eq (set_dequeue (D + 1) s) k) by (lia || done). done. }
  cbn [run_solo]. unfold after_dequeue, set_cell, capacity. cbn [mask_ set_dequeue]. cbn.
  change (slot _ D) with (slot s D). fold D. rewrite wrap64_small by lia.
  by rewrite list_insert_insert_eq.
Qed.

Lemma pop_empty_run k s f :
  repr k s [] → far k 0 s →
  run_solo (3 + f) (PopLoadPos KTry) s = Some (PopDone None, s).
Proof.
  intros [Hk Hm Hc Hd He Hl _ Hem] Hfar. unfold far in Hfar.
  pose proof (pow2_ge_2 k Hk). cbn in He. set (D := dequeue_pos_ s) in *.
  assert (cell_at s D = Some (mkCell D None)) as HD by (apply Hem; lia).
  cbn [Nat.add]. erewrite run_solo_next by reflexivity. fold D.
  erewrite run_solo_next.
  2:{ cbn [thread_step]. rewrite wrap64_small by lia.
      erewrite on_diff_eval by (done || lia).
      by rewrite decide_False, decide_True by lia. }
  done.
Qed.

(** A full ring: the cell at the enqueue cursor still has the sequence number
    of the previous lap. *)
Lemma push_full k s l item f :
  repr k s l → far k 0 s → Z.of_nat (length l) = 2 ^ k →
  run_solo (2 + f) (PushLoadPos item) s =
    run_solo f (match policy_ s with DropNew => PushCountDrop | _ => EvLoadPos item end) s.
Proof.
  intros Hr Hfar Hfull. destruct l as [|x l]; [pose proof (repr_k _ _ _ Hr);
    pose proof (pow2_ge_2 k); cbn in Hfull; lia|].
  pose proof (front_cell _ _ _ _ Hr) as Hfront.
  destruct Hr as [Hk Hm Hc Hd He Hl _ _]. unfold far in Hfar. pose proof (pow2_ge_2 k Hk).
  rewrite Hfull in He. cbn [Nat.add]. erewrite run_solo_next by reflexivity.
  rewrite He. erewrite run_solo_next; [done|]. cbn [thread_step].
  erewrite on_diff_eval; [|by rewrite (cell_at_shift s k) by (lia || done)|lia|lia].
  by rewrite decide_False, decide_True by lia.
Qed.

End solo.

(** ** The contract: a bounded FIFO queue with an overflow policy *)

Section contract.
Context {T : Type}.
Implicit Types (s : Shared T) (l : list T).

(** What a push into a queue of [cap] items does: the answer, the new content,
    and whether an item was dropped (the new one or the oldest). *)
Definition fifo_push (policy : OverflowPolicy) (cap : Z) (item : T) (l : list T) : bool * list T * bool :=
  if decide (Z.of_nat (length l) < cap) then (true, l ++ [item], false)
  else match policy with
       | DropNew => (false, l, true)
       | _ => (true, tail l ++ [item], true)
       end.

Definition fifo_pop (l : list T) : option T * list T :=
  match l with [] => (None, []) | x :: l' => (Some x, l') end.

Definition count_drop (z : Z) (dropped : bool) : Z := if dropped then z +64 1 else z.

Lemma repr_dropped k z s l : repr k s l → repr k (set_dropped z s) l.
Proof. intros [????????]. by split. Qed.

(** A full ring under a policy that evicts. *)
Lemma push_evicts k s x l item :
  repr k s (x :: l) → far k 0 s →
  ∃ s', run_solo 14 (EvLoadPos item) s = Some (PushDone true, s') ∧
        repr k s' (l ++ [item]) ∧ dropped_ s' = dropped_ s +64 1 ∧
        enqueue_pos_ s' = enqueue_pos_ s + 1 ∧
        policy_ s' = policy_ s ∧ stopped_ s' = stopped_ s.
Proof.
  intros Hr Hfar. pose proof (repr_len _ _ _ Hr) as Hlen. rewrite length_cons in Hlen.
  pose proof (repr_dropped k (dropped_ s +64 1) _ _ (repr_dequeue k s x l Hr)) as Hr'.
  change 14%nat with (6 + 8)%nat. rewrite (evict_front k s x l) by done.
  change 8%nat with (7 + 1)%nat. rewrite (push_has_room k _ l); [|done|done|lia].
  eexists. split; [done|]. split; [apply repr_enqueue; [done|lia]|]. done.
Qed.

Lemma push_refines k s l item :
  repr k s l → far k 0 s → stopped_ s = false →
  ∃ s', push item s = Some ((fifo_push (policy_ s) (2 ^ k) item l).1.1, s') ∧
        repr k s' (fifo_push (policy_ s) (2 ^ k) item l).1.2 ∧
        dropped_ s' = count_drop (dropped_ s) (fifo_push (policy_ s) (2 ^ k) item l).2 ∧
        enqueue_pos_ s' ≤ enqueue_pos_ s + 1 ∧
        policy_ s' = policy_ s ∧ stopped_ s' = false.
Proof.
  intros Hr Hfar Hst. unfold push, fifo_push. change 17%nat with (S 16).
  erewrite run_solo_next by (cbn [thread_step]; by rewrite Hst).
  pose proof (repr_len _ _ _ Hr) as Hlen. case_decide as Hroom.
  - change 16%nat with (7 + 9)%nat. rewrite (push_has_room k s l) by done.
    eexists. split; [done|]. split; [by apply repr_enqueue|]. cbn. split_and!; done || lia.
  - change 16%nat with (2 + 14)%nat. rewrite (push_full k s l) by (done || lia).
    destruct l as [|x l].
    { pose proof (pow2_ge_2 k (repr_k _ _ _ Hr)). cbn in Hroom. lia. }
    destruct (push_evicts k s x l item Hr Hfar) as (s' & Hrun & Hr' & Hdr & He & Hp & Hs').
    destruct (policy_ s) eqn:Hpol.
    2,3: rewrite Hrun; exists s'; split_and!; (done || lia || congruence).
    change 14%nat with (S 13). erewrite run_solo_next by reflexivity. cbn [run_solo].
    eexists. split; [done|]. split; [by apply repr_dropped|]. cbn. split_and!; done || lia.
Qed.

Lemma push_stopped s item : stopped_ s = true → push item s = Some (false, s).
Proof.
  intros Hst. unfold push. change 17%nat with (S 16).
  by erewrite run_solo_next by (cbn [thread_step]; by rewrite Hst).
Qed.

Lemma try_pop_refines k s l :
  repr k s l → far k 0 s →
  ∃ s', try_pop s = Some ((fifo_pop l).1, s') ∧ repr k s' (fifo_pop l).2 ∧
        dropped_ s' = dropped_ s ∧ enqueue_pos_ s' = enqueue_pos_ s ∧
        policy_ s' = policy_ s ∧ stopped_ s' = stopped_ s.
Proof.
  intros Hr Hfar. unfold try_pop. destruct l as [|x l].
  - change 8%nat with (3 + 5)%nat. rewrite (pop_empty_run k) by done. eauto 10.
  - change 8%nat with (7 + 1)%nat. rewrite (pop_front k s x l) by done.
    eexists. split; [done|]. split; [by eapply repr_dequeue|]. done.
Qed.

Lemma repr_initial k policy : 1 ≤ k → repr (T:=T) k (make_shared (2 ^ k) policy) [].
Proof.
  intros Hk. pose proof (pow2_ge_2 k Hk). split; cbn; try done; try lia.
  - unfold init_cells. rewrite length_fmap, length_seq. lia.
  - intros q Hq. unfold cell_at. rewrite (slot_mod _ k) by (cbn; lia). cbn.
    rewrite Z.mod_small by lia. unfold init_cells.
    rewrite list_lookup_fmap, lookup_seq_lt by lia. cbn. by rewrite Z2Nat.id by lia.
Qed.
End contract.

(** ** Construction *)

Section construction.

Lemma round_up_pow2_spec fuel j cap :
  0 ≤ j → cap ≤ 2 ^ 63 → 64 ≤ Z.of_nat fuel + j → j ≤ 63 → (j = 0 ∨ 2 ^ (j - 1) < cap) →
  ∃ k, round_up_pow2 fuel (2 ^ j) cap = Some (2 ^ k) ∧ j ≤ k ≤ 63 ∧ cap ≤ 2 ^ k ∧
       (k = 0 ∨ 2 ^ (k - 1) < cap).
Proof.
  revert j. induction fuel as [|f IH]; intros j Hj Hcap Hfuel Hj63 Hprev; [lia|].
  cbn [round_up_pow2]. case_decide as Hlt; [|exists j; split_and!; done || lia].
  assert (j < 63). { destruct (decide (j = 63)) as [->|]; lia. }
  assert (2 ^ (j + 1) = 2 * 2 ^ j) as Hpow by (rewrite Z.pow_add_r by lia; lia).
  assert (0 < 2 ^ j) by lia. assert (2 ^ (j + 1) ≤ 2 ^ 63) by (apply Z.pow_le_mono_r; lia).
  rewrite Z.shiftl_mul_pow2, Z.pow_1_r, wrap64_small by lia.
  replace (2 ^ j * 2) with (2 ^ (j + 1)) by lia.
  destruct (IH (j + 1)) as (k & Hk & ? & ? & ?); try lia.
  { right. by replace (j + 1 - 1) with j by lia. }
  exists k. split_and!; done || lia.
Qed.

Lemma ring_ctor_ok {T} cap policy :
  1 ≤ cap ≤ 2 ^ 63 →
  ∃ k, RingImpl (T:=T) cap policy = Some (make_shared (2 ^ k) policy) ∧
       0 ≤ k ≤ 63 ∧ cap ≤ 2 ^ k ∧ 2 ^ k < 2 * cap.
Proof.
  intros Hcap. unfold RingImpl.
  destruct (round_up_pow2_spec 65 0 cap) as (k & Hk & ? & Hc & Hp); try lia.
  exists k. change 1 with (2 ^ 0). rewrite Hk. cbn. split_and!; try done; try lia.
  destruct (decide (k = 0)) as [->|]; [cbn; lia|]. destruct Hp as [?|Hp]; [lia|].
  replace k with (Z.succ (k - 1)) by lia. rewrite Z.pow_succ_r by lia. lia.
Qed.

(** Above [2^63] the shifted word becomes zero and stays zero. *)
Lemma round_up_pow2_stuck fuel p cap :
  2 ^ 63 < cap → (p = 0 ∨ ∃ j, 0 ≤ j ≤ 63 ∧ p = 2 ^ j) → round_up_pow2 fuel p cap = None.
Proof.
  intros Hcap. revert p. induction fuel as [|f IH]; intros p Hp; [done|].
  cbn [round_up_pow2]. rewrite decide_True.
  2:{ destruct Hp as [->|(j & Hj & ->)]; [lia|].
      assert (2 ^ j ≤ 2 ^ 63) by (apply Z.pow_le_mono_r; lia). lia. }
  apply IH. rewrite Z.shiftl_mul_pow2, Z.pow_1_r by lia.
  destruct Hp as [->|(j & Hj & ->)]; [by left|].
  destruct (decide (j = 63)) as [->|]; [by left|]. right. exists (j + 1). split; [lia|].
  assert (2 ^ (j + 1) ≤ 2 ^ 63) by (apply Z.pow_le_mono_r; lia).
  rewrite Z.pow_add_r in * by lia. rewrite wrap64_small by lia. lia.
Qed.
End construction.

(** ** Runs of calls *)

Section runs.
Context {T : Type}.

Inductive qcall : Type :=
  | QPush (item : T)
  | QTryPop
  | QStop
  | QSize
  | QDropped.

Inductive qanswer : Type :=
  | QBool (b : bool)
  | QItem (o : option T)
  | QNum (z : Z)
  | QUnit.

Definition ring_call (c : qcall) (s : Shared T) : option (qanswer * Shared T) :=
  match c with
  | QPush item => r ← push item s; Some (QBool r.1, r.2)
  | QTryPop => r ← try_pop s; Some (QItem r.1, r.2)
  | QStop => Some (QUnit, stop s)
  | QSize => Some (QNum (size s), s)
  | QDropped => Some (QNum (dropped_ s), s)
  end.

Fixpoint ring_run (cs : list qcall) (s : Shared T) : option (list qanswer * Shared T) :=
  match cs with
  | [] => Some ([], s)
  | c :: cs' => r ← ring_call c s; rs ← ring_run cs' r.2; Some (r.1 :: rs.1, rs.2)
  end.

Record fifo : Type := mkFifo {
  items : list T;
  fifo_dropped : Z;
  fifo_stopped : bool
}.

Definition fifo_call (policy : OverflowPolicy) (cap : Z) (c : qcall) (q : fifo) : qanswer * fifo :=
  match c with
  | QPush item =>
      if fifo_stopped q then (QBool false, q)
      else let r := fifo_push policy cap item (items q) in
           (QBool r.1.1, mkFifo r.1.2 (count_drop (fifo_dropped q) r.2) false)
  | QTryPop => let r := fifo_pop (items q) in
               (QItem r.1, mkFifo r.2 (fifo_dropped q) (fifo_stopped q))
  | QStop => (QUnit, mkFifo (items q) (fifo_dropped q) true)
  | QSize => (QNum (Z.of_nat (length (items q))), q)
  | QDropped => (QNum (fifo_dropped q), q)
  end.

Fixpoint fifo_run (policy : OverflowPolicy) (cap : Z) (cs : list qcall) (q : fifo) : list qanswer * fifo :=
  match cs with
  | [] => ([], q)
  | c :: cs' => let r := fifo_call policy cap c q in
                let rs := fifo_run policy cap cs' r.2 in (r.1 :: rs.1, rs.2)
  end.

(** The ring stands for the abstract queue. *)
Definition models (k : Z) (policy : OverflowPolicy) (s : Shared T) (q : fifo) : Prop :=
  repr k s (items q) ∧ policy_ s = policy ∧ dropped_ s = fifo_dropped q ∧
  stopped_ s = fifo_stopped q.

Lemma ring_call_refines k policy c s q :
  models k policy s q → far k 0 s →
  ∃ s', ring_call c s = Some ((fifo_call policy (2 ^ k) c q).1, s') ∧
        models k policy s' (fifo_call policy (2 ^ k) c q).2 ∧
        enqueue_pos_ s' ≤ enqueue_pos_ s + 1.
Proof.
  intros (Hr & Hp & Hd & Hs) Hfar. destruct c as [item| | | |]; cbn [ring_call fifo_call].
  - destruct (fifo_stopped q) eqn:Hst.
    + rewrite push_stopped by done. exists s. split; [done|].
      cbn [snd]. split; [split_and!; done || congruence|lia].
    + destruct (push_refines k s (items q) item) as (s' & -> & Hr' & Hd' & He & Hp' & Hs');
        [done..|]. rewrite Hp, Hd in *.
      eexists. split; [done|]. split; [by split_and!|done].
  - destruct (try_pop_refines k s (items q)) as (s' & -> & Hr' & Hd' & He & Hp' & Hs'); [done..|].
    eexists. split; [done|]. split; [|cbn; lia]. split_and!; cbn; congruence || done.
  - eexists. split; [done|]. split; [|cbn; lia].
    split_and!; try done. destruct Hr. by split.
  - exists s. split; [|split; [by split_and!|lia]]. do 3 f_equal. unfold size.
    destruct Hr as [Hk _ _ ? He Hl _ _]. unfold far in Hfar. pose proof (pow2_ge_2 k Hk).
    rewrite decide_True, wrap64_small by lia. cbn. f_equal. lia.
  - exists s. rewrite Hd. split; [done|]. split; [by split_and!|lia].
Qed.

Lemma ring_run_refines k policy cs s q :
  models k policy s q → far k (Z.of_nat (length cs)) s →
  ∃ s', ring_run cs s = Some ((fifo_run policy (2 ^ k) cs q).1, s') ∧
        models k policy s' (fifo_run policy (2 ^ k) cs q).2.
Proof.
  revert s q. induction cs as [|c cs IH]; intros s q Hm Hfar; cbn [ring_run fifo_run]; [by eauto|].
  unfold far in *. rewrite length_cons in Hfar.
  destruct (ring_call_refines k policy c s q Hm) as (s1 & -> & Hm1 & He); [unfold far; lia|].
  destruct (IH s1 _ Hm1) as (s2 & Hrun & Hm2); [lia|]. cbn. rewrite Hrun. by eexists.
Qed.
End runs.
Arguments qcall T : clear implicits.
Arguments qanswer T : clear implicits.
Arguments fifo T : clear implicits.

(** ** Properties *)

(** Called by one thread at a time, a ring built for any capacity from two
    to [2^61] always returns, and its answers are those of a FIFO queue that
    holds the capacity rounded up to a power of two, rejects the new item
    ([DropNew]) or evicts the oldest ([DropOldest]) when full, counts the drops,
    and refuses pushes after [stop]. *)
Theorem ring_refines_fifo {T} (cap : Z) (policy : OverflowPolicy) (cs : list (qcall T)) :
  2 ≤ cap ≤ 2 ^ 61 → Z.of_nat (length cs) ≤ 2 ^ 61 →
  ∃ k s s', RingImpl cap policy = Some s ∧ cap ≤ 2 ^ k < 2 * cap ∧ capacity s = 2 ^ k ∧
    ring_run cs s = Some ((fifo_run policy (2 ^ k) cs (mkFifo [] 0 false)).1, s').
Proof.
  intros Hcap Hlen. destruct (ring_ctor_ok (T:=T) cap policy) as (k & Hs & Hk & Hlo & Hhi); [lia|].
  assert (1 ≤ k). { destruct (decide (k = 0)) as [->|]; [cbn in Hlo; lia|lia]. }
  destruct (ring_run_refines k policy cs (make_shared (2 ^ k) policy) (mkFifo [] 0 false))
    as (s' & Hrun & _).
  - split_and!; try done. by apply repr_initial.
  - unfold far. cbn. lia.
  - exists k, (make_shared (2 ^ k) policy), s'. split_and!; try done. unfold capacity. cbn. lia.
Qed.

Lemma ring_refines_fifo_witness :
  ∃ k s s', RingImpl 3 DropOldest = Some s ∧ 3 ≤ 2 ^ k < 2 * 3 ∧ capacity s = 2 ^ k ∧
    ring_run [QPush 1%nat; QPush 2%nat; QTryPop; QDropped] s =
      Some ((fifo_run DropOldest (2 ^ k) [QPush 1%nat; QPush 2%nat; QTryPop; QDropped]
               (mkFifo [] 0 false)).1, s').
Proof. apply (ring_refines_fifo 3 DropOldest); cbn; lia. Defined.

(** The constructor's rounding loop ends exactly for the capacities up to
    [2^63], and then gives the least power of two that is not below the request;
    for a larger capacity the shifted word becomes zero and the loop never ends. *)
Theorem ring_constructor {T} (cap : Z) (policy : OverflowPolicy) :
  1 ≤ cap < 2 ^ 64 →
  (cap ≤ 2 ^ 63 → ∃ k s, RingImpl (T:=T) cap policy = Some s ∧ capacity s = 2 ^ k ∧
     cap ≤ 2 ^ k < 2 * cap ∧ Z.of_nat (length (ring_ s)) = 2 ^ k) ∧
  (2 ^ 63 < cap → ∀ fuel, round_up_pow2 fuel 1 cap = None).
Proof.
  intros Hcap. split.
  - intros Hle. destruct (ring_ctor_ok (T:=T) cap policy) as (k & Hs & Hk & ? & ?); [lia|].
    eexists k, _. split_and!; [done|unfold capacity; cbn; lia|done|done|].
    cbn. unfold init_cells. rewrite length_fmap, length_seq. lia.
  - intros Hgt fuel. apply round_up_pow2_stuck; [done|]. right. by exists 0.
Qed.

Lemma ring_constructor_witness :
  (∃ k s, RingImpl (T:=nat) 5 DropNew = Some s ∧ capacity s = 2 ^ k ∧
     5 ≤ 2 ^ k < 2 * 5 ∧ Z.of_nat (length (ring_ s)) = 2 ^ k) ∧
  (∀ fuel, round_up_pow2 fuel 1 (2 ^ 63 + 1) = None).
Proof.
  split.
  - destruct (ring_constructor (T:=nat) 5 DropNew) as [H _]; [lia|]. apply H. lia.
  - destruct (ring_constructor (T:=nat) (2 ^ 63 + 1) DropNew) as [_ H]; [lia|].
    apply H. lia.
Defined.

Lemma single_cell_spins {T} (s : Shared T) fuel :
  cell_at s (dequeue_pos_ s) = Some (mkCell 2 (data (default (mkCell 2 None)
                                      (cell_at s (dequeue_pos_ s))))) →
  dequeue_pos_ s = 0 →
  run_solo fuel (PopLoadPos KTry) s = None ∧ run_solo fuel (PopLoadSeq KTry 0) s = None.
Proof.
  intros Hc Hd. induction fuel as [|f [IH1 IH2]]; [done|]. split.
  - erewrite run_solo_next by reflexivity. by rewrite Hd.
  - erewrite run_solo_next; [exact IH1|]. cbn [thread_step]. rewrite Hd in Hc.
    rewrite wrap64_small by lia. erewrite on_diff_eval by (exact Hc || lia).
    by rewrite !decide_False by lia.
Qed.

(** A ring of one cell (capacity 0 or 1 requested, [DropNew]) is broken:
    the sequence number of a filled cell is also the number of an empty cell one
    lap later, so a second push succeeds and overwrites the first item, and the
    [try_pop] that follows never returns, however long it runs. *)
Theorem ring_single_cell_broken {T} (a b : T) :
  ∃ s0 s1 s2, RingImpl 1 DropNew = Some s0 ∧ capacity s0 = 1 ∧
    push a s0 = Some (true, s1) ∧ push b s1 = Some (true, s2) ∧ dropped_ s2 = 0 ∧
    ring_ s2 = [mkCell 2 (Some b)] ∧
    ∀ fuel, run_solo fuel (PopLoadPos KTry) s2 = None.
Proof.
  do 3 eexists. split; [reflexivity|]. split; [reflexivity|].
  split; [vm_compute; reflexivity|]. split; [vm_compute; reflexivity|].
  split; [reflexivity|]. split; [reflexivity|].
  intros fuel. by apply single_cell_spins.
Qed.
