(* ===== verification/BlockingQueue.v ===== *)
(** * The blocking queues

    [BlockingImpl] (src/muses/bounded_queue.hpp, the [Block] policy): a mutex,
    a deque and two condition variables.

    Threads are program counters in a list.  A critical section runs from the
    acquisition of the mutex to its release (the return of the call, or the
    start of a wait) as one step.  A waiting thread is either not notified yet,
    or notified and on its way to re-acquire the mutex and test its predicate
    again; [notify_one] picks any waiter that is not notified, a waiter may also
    wake spuriously, and a timed wait may time out at any moment.

    [pushed] and [popped] are history variables. *)

From S2P Require Import Prelude.

Module Blocking.
Section machine.
Context {T : Type}.

Record queue : Type := mkQueue {
  buffer_ : list T;
  capacity_ : nat;
  stopped_ : bool;
  dropped_ : nat
}.

Definition BlockingImpl (cap : nat) : queue := mkQueue [] cap false 0.

Inductive pc : Type :=
  | Idle
  | CallPush (item : T)
  | CallTryPop
  | CallWaitPop (timed : bool)
  | CallStop
  | WaitFull (item : T) (notified : bool)
  | WaitEmpty (timed notified : bool)
  | PushRet (ok : bool)
  | PopRet (out : option T).

(** What a critical section does besides updating the queue. *)
Inductive signal : Type :=
  | SigNone
  | SigNotEmpty
  | SigNotFull
  | SigAll.

Definition set_buffer (b : list T) (q : queue) : queue :=
  mkQueue b (capacity_ q) (stopped_ q) (dropped_ q).

(** From the test of the wait predicate of [push] to the end of the call or the
    start of the next wait. *)
Definition push_check (item : T) (q : queue) : pc * queue * signal :=
  if stopped_ q || bool_decide (length (buffer_ q) < capacity_ q) then
    if stopped_ q then (PushRet false, q, SigNone)
    else (PushRet true, set_buffer (buffer_ q ++ [item]) q, SigNotEmpty)
  else (WaitFull item false, q, SigNone).

Definition push_enter (item : T) (q : queue) : pc * queue * signal :=
  if stopped_ q then (PushRet false, q, SigNone) else push_check item q.

(** [if (buffer_.empty()) return false; out = front; pop_front; notify]. *)
Definition pop_or_fail (q : queue) : pc * queue * signal :=
  match buffer_ q with
  | [] => (PopRet None, q, SigNone)
  | x :: b => (PopRet (Some x), set_buffer b q, SigNotFull)
  end.

Definition try_pop (q : queue) : pc * queue * signal := pop_or_fail q.

(** From the test of the wait predicate of [wait_pop]. *)
Definition wait_pop_check (timed : bool) (q : queue) : pc * queue * signal :=
  if stopped_ q || negb (bool_decide (buffer_ q = [])) then pop_or_fail q
  else (WaitEmpty timed false, q, SigNone).

(** The timer of [wait_for] expired: it returns the value of the predicate. *)
Definition wait_pop_timeout (q : queue) : pc * queue * signal :=
  if stopped_ q || negb (bool_decide (buffer_ q = [])) then pop_or_fail q
  else (PopRet None, q, SigNone).

Definition stop (q : queue) : pc * queue * signal :=
  (Idle, mkQueue (buffer_ q) (capacity_ q) true (dropped_ q), SigAll).

Definition size (q : queue) : nat := length (buffer_ q).
Definition dropped (q : queue) : nat := dropped_ q.

(** The critical section a thread is about to run. *)
Definition section (p : pc) (q : queue) : option (pc * queue * signal) :=
  match p with
  | CallPush item => Some (push_enter item q)
  | CallTryPop => Some (try_pop q)
  | CallWaitPop timed => Some (wait_pop_check timed q)
  | CallStop => Some (stop q)
  | WaitFull item true => Some (push_check item q)
  | WaitEmpty timed true => Some (wait_pop_check timed q)
  | _ => None
  end.

(** *** Condition variables *)

Definition waits_full (p : pc) : bool := match p with WaitFull _ false => true | _ => false end.
Definition waits_empty (p : pc) : bool := match p with WaitEmpty _ false => true | _ => false end.
Definition woken_full (p : pc) : bool := match p with WaitFull _ true => true | _ => false end.
Definition woken_empty (p : pc) : bool := match p with WaitEmpty _ true => true | _ => false end.

Definition wake (p : pc) : pc :=
  match p with
  | WaitFull item _ => WaitFull item true
  | WaitEmpty timed _ => WaitEmpty timed true
  | _ => p
  end.

Definition waiter_of (sig : signal) (p : pc) : bool :=
  match sig with
  | SigNotEmpty => waits_empty p
  | SigNotFull => waits_full p
  | _ => false
  end.

(** [notify_one] wakes some waiter, and none only when there is none. *)
Inductive notified (sig : signal) : list pc → list pc → Prop :=
  | notify_nobody ts : countb (waiter_of sig) ts = 0 → sig ≠ SigAll → notified sig ts ts
  | notify_some ts t p :
      ts !! t = Some p → waiter_of sig p = true → notified sig ts (<[t := wake p]> ts)
  | notify_every ts : sig = SigAll → notified sig ts (wake <$> ts).

(** *** Configurations *)

Record config : Type := Config {
  q : queue;
  threads : list pc;
  pushed : list T;
  popped : list T
}.

Definition pushed_event (p : pc) (r : pc) (l : list T) : list T :=
  match p, r with
  | CallPush item, PushRet true | WaitFull item _, PushRet true => l ++ [item]
  | _, _ => l
  end.

Definition popped_event (r : pc) (l : list T) : list T :=
  match r with PopRet (Some x) => l ++ [x] | _ => l end.

Inductive starts : pc → pc → Prop :=
  | starts_push item : starts Idle (CallPush item)
  | starts_try_pop : starts Idle CallTryPop
  | starts_wait_pop timed : starts Idle (CallWaitPop timed)
  | starts_stop : starts Idle CallStop
  | returns_push ok : starts (PushRet ok) Idle
  | returns_pop out : starts (PopRet out) Idle.

Inductive step : config → config → Prop :=
  | step_client c t p p' :
      threads c !! t = Some p → starts p p' →
      step c (Config (q c) (<[t := p']> (threads c)) (pushed c) (popped c))
  | step_section c t p p' q' sig ts' :
      threads c !! t = Some p → section p (q c) = Some (p', q', sig) →
      notified sig (<[t := p']> (threads c)) ts' →
      step c (Config q' ts' (pushed_event p p' (pushed c)) (popped_event p' (popped c)))
  | step_spurious c t p :
      threads c !! t = Some p → waits_full p || waits_empty p = true →
      step c (Config (q c) (<[t := wake p]> (threads c)) (pushed c) (popped c))
  | step_timeout c t b p' q' sig ts' :
      threads c !! t = Some (WaitEmpty true b) →
      wait_pop_timeout (q c) = (p', q', sig) →
      notified sig (<[t := p']> (threads c)) ts' →
      step c (Config q' ts' (pushed c) (popped_event p' (popped c))).

Definition initial (cap n : nat) : config :=
  Config (BlockingImpl cap) (replicate n Idle) [] [].
End machine.
Arguments queue T : clear implicits.
Arguments pc T : clear implicits.
Arguments config T : clear implicits.

(** *** The invariant *)

Section invariant.
Context {T : Type}.
Implicit Types (c : config T) (ts : list (pc T)) (p : pc T).

(** Not stopped: while a producer waits without having been notified, there are
    at least as many notified producers as free places; likewise for consumers
    and queued items.  Stopped: nobody waits without having been notified. *)
Record Inv (cap : nat) (c : config T) : Prop := mkInv {
  inv_cap : capacity_ (q c) = cap;
  inv_bound : length (buffer_ (q c)) ≤ cap;
  inv_fifo : pushed c = popped c ++ buffer_ (q c);
  inv_full : stopped_ (q c) = false → 0 < countb waits_full (threads c) →
    cap - length (buffer_ (q c)) ≤ countb woken_full (threads c);
  inv_empty : stopped_ (q c) = false → 0 < countb waits_empty (threads c) →
    length (buffer_ (q c)) ≤ countb woken_empty (threads c);
  inv_stopped : stopped_ (q c) = true →
    countb waits_full (threads c) = 0 ∧ countb waits_empty (threads c) = 0
}.

(** The four counts after one thread moved. *)
Lemma counts_insert ts t p p' :
  ts !! t = Some p →
  (countb waits_full (<[t := p']> ts) + b2n (waits_full p) =
     countb waits_full ts + b2n (waits_full p')) ∧
  (countb waits_empty (<[t := p']> ts) + b2n (waits_empty p) =
     countb waits_empty ts + b2n (waits_empty p')) ∧
  (countb woken_full (<[t := p']> ts) + b2n (woken_full p) =
     countb woken_full ts + b2n (woken_full p')) ∧
  (countb woken_empty (<[t := p']> ts) + b2n (woken_empty p) =
     countb woken_empty ts + b2n (woken_empty p')).
Proof. intros Ht. by split_and!; apply countb_insert. Qed.

(** The four counts after a notification. *)
Definition notified_counts (sig : signal) ts ts' : Prop :=
  match sig with
  | SigNone =>
      countb waits_full ts' = countb waits_full ts ∧
      countb waits_empty ts' = countb waits_empty ts ∧
      countb woken_full ts' = countb woken_full ts ∧
      countb woken_empty ts' = countb woken_empty ts
  | SigNotEmpty =>
      countb waits_full ts' = countb waits_full ts ∧
      countb waits_empty ts' = countb waits_empty ts - 1 ∧
      countb woken_full ts' = countb woken_full ts ∧
      countb woken_empty ts' + countb waits_empty ts' =
        countb woken_empty ts + countb waits_empty ts
  | SigNotFull =>
      countb waits_full ts' = countb waits_full ts - 1 ∧
      countb waits_empty ts' = countb waits_empty ts ∧
      countb woken_full ts' + countb waits_full ts' =
        countb woken_full ts + countb waits_full ts ∧
      countb woken_empty ts' = countb woken_empty ts
  | SigAll =>
      countb waits_full ts' = 0 ∧ countb waits_empty ts' = 0
  end.

Lemma notified_counts_ok sig ts ts' : notified sig ts ts' → notified_counts sig ts ts'.
Proof.
  intros Hn. destruct Hn as [ts Hc Hne|ts t p Ht Hw|ts ->].
  - unfold notified_counts. destruct sig; cbn [waiter_of] in *; try done.
    + change (countb waits_empty ts = 0) in Hc. rewrite Hc. lia.
    + change (countb waits_full ts = 0) in Hc. rewrite Hc. lia.
  - destruct (counts_insert ts t p (wake p) Ht) as (H1 & H2 & H3 & H4).
    pose proof (countb_pos waits_empty ts t p Ht) as Hp1.
    pose proof (countb_pos waits_full ts t p Ht) as Hp2.
    unfold notified_counts.
    destruct sig; cbn in Hw; try done; destruct p as [| | | | |item [|]|tm [|]| |];
      cbn [b2n waits_full waits_empty woken_full woken_empty wake] in *; try done; specialize (Hp1 eq_refl) || specialize (Hp2 eq_refl); lia.
  - cbn. split; erewrite countb_map with (g := λ _, false).
    all: try (by intros [| | | | | | | |]).
    all: clear; induction ts; cbn; done.
Qed.

Lemma inv_initial_blocking cap n : Inv cap (initial (T:=T) cap n).
Proof.
  assert (∀ f : pc T → bool, f Idle = false → countb f (replicate n Idle) = 0) as Hz.
  { intros f Hf. induction n; cbn [replicate countb]; [done|]. rewrite Hf. done. }
  split; cbn; try done; try lia; intros; rewrite ?Hz in * by done; try lia.
Qed.

(** A critical section followed by its notification. *)
Lemma inv_section cap c t p p' q' sig ts' pushed' popped' :
  Inv cap c → threads c !! t = Some p →
  notified sig (<[t := p']> (threads c)) ts' →
  (section p (q c) = Some (p', q', sig) ∨
   (∃ b, p = WaitEmpty true b) ∧ wait_pop_timeout (q c) = (p', q', sig)) →
  pushed' = pushed_event p p' (pushed c) → popped' = popped_event p' (popped c) →
  Inv cap (Config q' ts' pushed' popped').
Proof.
  intros [Hcap Hb Hf Hfull Hempty Hst] Ht Hn Hs -> ->.
  apply notified_counts_ok in Hn.
  destruct (counts_insert (threads c) t p p' Ht) as (H1 & H2 & H3 & H4).
  revert Hn H1 H2 H3 H4. unfold notified_counts. generalize (<[t := p']> (threads c)) as ts.
  intros ts Hn H1 H2 H3 H4.
  destruct (q c) as [buf cp st dr] eqn:Hq. cbn in *. subst cp.
  unfold section, push_enter, push_check, try_pop, wait_pop_check, wait_pop_timeout,
    pop_or_fail, stop, set_buffer in Hs; cbn in Hs.
  destruct Hs as [Hs|[[b ->] Hs]];
    [destruct p as [|item| |timed| |item [|]|timed [|]| |]; try discriminate Hs
    |destruct b];
    destruct st, buf as [|x buf]; cbn in Hs; try case_bool_decide; injection Hs as <- <- <-;
    cbn in Hn, H1, H2, H3, H4, Hfull, Hempty, Hst, Hb;
    split; cbn; rewrite ?length_app in *; cbn; try (intros; lia); try done;
    try (rewrite Hf, <- ?app_assoc; done).
Qed.

Lemma inv_step_blocking cap c c' : Inv cap c → step c c' → Inv cap c'.
Proof.
  intros HI Hs. destruct Hs as [c t p p' Ht Hst|c t p p' q' sig ts' Ht Hsec Hn
                               |c t p Ht Hw|c t b p' q' sig ts' Ht Hto Hn].
  - destruct (counts_insert (threads c) t p p' Ht) as (H1 & H2 & H3 & H4).
    destruct HI. split; cbn; try done;
      inversion Hst; subst; cbn in H1, H2, H3, H4; intros; try lia; naive_solver lia.
  - eapply (inv_section cap c t p p' q' sig ts'); eauto.
  - destruct (counts_insert (threads c) t p (wake p) Ht) as (H1 & H2 & H3 & H4).
    revert H1 H2 H3 H4. generalize (<[t := wake p]> (threads c)) as ts. intros ts H1 H2 H3 H4.
    destruct HI as [? ? ? Hf He Hst]. split; cbn; try done;
      destruct p as [| | | | |item [|]|tm [|]| |]; try discriminate Hw;
      cbn in H1, H2, H3, H4; intros Hq; try specialize (Hf Hq); try specialize (He Hq);
      try specialize (Hst Hq); lia.
  - eapply (inv_section cap c t _ p' q' sig ts'); eauto.
Qed.

Lemma reachable_inv_blocking cap n c : rtc step (initial cap n) c → Inv cap c.
Proof.
  apply rtc_invariant; [apply inv_initial_blocking|].
  intros a b _. apply inv_step_blocking.
Qed.
End invariant.
End Blocking.

(** ** Properties of [BlockingImpl] *)

Section blocking_properties.
Context {T : Type}.
Import Blocking.
Implicit Types (c : config T).

(** Under every interleaving, the blocking queue never holds more than its
    capacity, and what has been pushed is what has been popped, in the same
    order, followed by what is still queued: nothing is lost, duplicated or
    reordered. *)
Theorem blocking_fifo_bounded cap n c :
  rtc step (initial cap n) c →
  length (buffer_ (q c)) ≤ cap ∧ pushed c = popped c ++ buffer_ (q c).
Proof. intros Hr. by destruct (reachable_inv_blocking cap n c Hr). Qed.

(** C35: No lost wakeup: whenever a producer sleeps on [not_full_] although
    there is room, another producer has been notified and its critical section
    will complete its push; whenever a consumer sleeps on [not_empty_] although
    there is an item, a notified consumer will take one; and after [stop] nobody
    sleeps. *)
Theorem blocking_no_lost_wakeup cap n c :
  rtc step (initial cap n) c →
  (stopped_ (q c) = false → 0 < countb waits_full (threads c) →
     length (buffer_ (q c)) < cap →
     ∃ t item, threads c !! t = Some (WaitFull item true) ∧
       section (WaitFull item true) (q c) =
         Some (PushRet true, set_buffer (buffer_ (q c) ++ [item]) (q c), SigNotEmpty)) ∧
  (stopped_ (q c) = false → 0 < countb waits_empty (threads c) →
     ∀ x b, buffer_ (q c) = x :: b →
     ∃ t timed, threads c !! t = Some (WaitEmpty timed true) ∧
       section (WaitEmpty timed true) (q c) =
         Some (PopRet (Some x), set_buffer b (q c), SigNotFull)) ∧
  (stopped_ (q c) = true →
     ∀ t p, threads c !! t = Some p → waits_full p = false ∧ waits_empty p = false).
Proof.
  intros Hr. destruct (reachable_inv_blocking cap n c Hr) as [Hcap Hb _ Hf He Hst].
  split_and!.
  - intros Hq Hw Hlen. specialize (Hf Hq Hw).
    destruct (countb_pos_inv woken_full (threads c)) as (t & p & Ht & Hp); [lia|].
    destruct p as [| | | | |item [|]| | |]; try discriminate Hp.
    exists t, item. split; [done|]. cbn. unfold push_check. rewrite Hq, Hcap. cbn.
    by rewrite bool_decide_eq_true_2.
  - intros Hq Hw x b Hbuf. specialize (He Hq Hw). rewrite Hbuf in He. cbn in He.
    destruct (countb_pos_inv woken_empty (threads c)) as (t & p & Ht & Hp); [lia|].
    destruct p as [| | | | | |timed [|]| |]; try discriminate Hp.
    exists t, timed. split; [done|]. cbn. unfold wait_pop_check, pop_or_fail.
    by rewrite Hq, Hbuf.
  - intros Hq t p Ht. destruct (Hst Hq) as [H1 H2].
    split; [by eapply (countb_zero waits_full)|by eapply (countb_zero waits_empty)].
Qed.
End blocking_properties.

(** ** Schedules of the blocking queue, for concrete executions *)

Module BlockingRuns.
Section schedules.
Context {T : Type}.
Import Blocking.

Inductive action : Type :=
  | ACall (p : pc T)                  (* start a call, or return from one *)
  | ASection (target : option nat)    (* run the critical section; whom to notify *)
  | ASpurious
  | ATimeout (target : option nat).

Definition may_start (p p' : pc T) : bool :=
  match p, p' with
  | Idle, CallPush _ | Idle, CallTryPop | Idle, CallWaitPop _ | Idle, CallStop => true
  | PushRet _, Idle | PopRet _, Idle => true
  | _, _ => false
  end.

Definition notify (sig : signal) (target : option nat) (ts : list (pc T)) : option (list (pc T)) :=
  match sig, target with
  | SigAll, _ => Some (wake <$> ts)
  | _, None => if decide (countb (waiter_of sig) ts = 0) then Some ts else None
  | _, Some t => p ← ts !! t; if waiter_of sig p then Some (<[t := wake p]> ts) else None
  end.

Definition act (t : nat) (a : action) (c : config T) : option (config T) :=
  p ← threads c !! t;
  match a with
  | ACall p' => if may_start p p'
                then Some (Config (q c) (<[t := p']> (threads c)) (pushed c) (popped c)) else None
  | ASection target =>
      r ← section p (q c);
      ts ← notify r.2 target (<[t := r.1.1]> (threads c));
      Some (Config r.1.2 ts (pushed_event p r.1.1 (pushed c)) (popped_event r.1.1 (popped c)))
  | ASpurious => if waits_full p || waits_empty p
                 then Some (Config (q c) (<[t := wake p]> (threads c)) (pushed c) (popped c)) else None
  | ATimeout target =>
      match p with
      | WaitEmpty true _ =>
          let r := wait_pop_timeout (q c) in
          ts ← notify r.2 target (<[t := r.1.1]> (threads c));
          Some (Config r.1.2 ts (pushed c) (popped_event r.1.1 (popped c)))
      | _ => None
      end
  end.

Fixpoint schedule (es : list (nat * action)) (c : config T) : option (config T) :=
  match es with [] => Some c | (t, a) :: es' => c' ← act t a c; schedule es' c' end.

Lemma notify_sound sig target ts ts' : notify sig target ts = Some ts' → notified sig ts ts'.
Proof.
  unfold notify. intros Hn. destruct sig, target as [t|]; simplify_eq;
    try (by apply notify_every);
    try (case_decide; simplify_eq; by apply notify_nobody).
  all: destruct (ts !! t) as [p|] eqn:Ht; [|done];
    cbn [mbind option_bind] in Hn;
    match type of Hn with context [waiter_of ?sg ?x] => destruct (waiter_of sg x) eqn:Hw end;
    simplify_eq; by eapply notify_some.
Qed.

Lemma act_sound t a c c' : act t a c = Some c' → step c c'.
Proof.
  unfold act. destruct (threads c !! t) as [p|] eqn:Ht; [|done]. cbn. intros Ha.
  destruct a as [p'|target| |target].
  - destruct (may_start p p') eqn:Hm; simplify_eq. eapply step_client; [done|].
    destruct p, p'; try discriminate Hm; constructor.
  - destruct (section p (q c)) as [[[p' q'] sig]|] eqn:Hs; [|done]. cbn in Ha.
    destruct (notify sig target _) as [ts|] eqn:Hn; [|done]. cbn in Ha. simplify_eq.
    eapply step_section; [done..|]. by eapply notify_sound.
  - destruct (waits_full p || waits_empty p) eqn:Hw; simplify_eq. by eapply step_spurious.
  - destruct p as [| | | | | |[|] b| |]; try done. cbn in Ha.
    destruct (wait_pop_timeout (q c)) as [[p' q'] sig] eqn:Hs. cbn in Ha.
    destruct (notify sig target _) as [ts|] eqn:Hn; [|done]. cbn in Ha. simplify_eq.
    eapply step_timeout; [done..|]. by eapply notify_sound.
Qed.

Lemma blocking_schedule_sound es c c' : schedule es c = Some c' → rtc step c c'.
Proof.
  revert c. induction es as [|[t a] es IH]; intros c Hs; cbn in Hs; [by simplify_eq|].
  destruct (act t a c) as [c1|] eqn:Ha; [|done]. cbn in Hs.
  eapply rtc_l; [by eapply act_sound|by apply IH].
Qed.
End schedules.
Arguments action T : clear implicits.
End BlockingRuns.

(** Capacity 1: two producers queue up behind a full buffer, a consumer pops and
    wakes the first of them; the second still sleeps. *)
Definition blocking_schedule : list (nat * BlockingRuns.action nat) :=
  [(0, BlockingRuns.ACall (Blocking.CallPush 10)); (0, BlockingRuns.ASection None);
   (1, BlockingRuns.ACall (Blocking.CallPush 11)); (1, BlockingRuns.ASection None);
   (2, BlockingRuns.ACall (Blocking.CallPush 12)); (2, BlockingRuns.ASection None);
   (3, BlockingRuns.ACall (Blocking.CallWaitPop false)); (3, BlockingRuns.ASection (Some 1))].

Definition blocking_config : Blocking.config nat :=
  default (Blocking.initial 1 4)
    (BlockingRuns.schedule blocking_schedule (Blocking.initial 1 4)).

Lemma blocking_config_reachable : rtc Blocking.step (Blocking.initial 1 4) blocking_config.
Proof. apply (BlockingRuns.blocking_schedule_sound blocking_schedule). vm_compute. reflexivity. Qed.

Lemma blocking_fifo_bounded_witness :
  length (Blocking.buffer_ (Blocking.q blocking_config)) ≤ 1 ∧
  Blocking.pushed blocking_config = [10] ∧
  Blocking.pushed blocking_config =
    Blocking.popped blocking_config ++ Blocking.buffer_ (Blocking.q blocking_config).
Proof.
  destruct (blocking_fifo_bounded 1 4 blocking_config blocking_config_reachable) as [Hb Hf].
  split; [exact Hb|]. split; [vm_compute; reflexivity|exact Hf].
Defined.

Lemma blocking_no_lost_wakeup_witness :
  ∃ t item, Blocking.threads blocking_config !! t = Some (Blocking.WaitFull item true) ∧
    Blocking.section (Blocking.WaitFull item true) (Blocking.q blocking_config) =
      Some (Blocking.PushRet true,
            Blocking.set_buffer (Blocking.buffer_ (Blocking.q blocking_config) ++ [item])
                                (Blocking.q blocking_config), Blocking.SigNotEmpty).
Proof.
  destruct (blocking_no_lost_wakeup 1 4 blocking_config blocking_config_reachable) as (Hf & _).
  apply Hf; vm_compute; [reflexivity|lia|lia].
Defined.
