(* ===== verification/BoundedQueue.v ===== *)
(** * The queue facade (src/muses/bounded_queue.hpp, class BoundedQueue)

    [BoundedQueue] picks one of two implementations when it is constructed and
    forwards every call to it.  The interface between the facade and the
    implementations is the class [QueueImpl] with the laws [QueueLaws]: called by
    one thread at a time, an implementation answers like a bounded FIFO with the
    overflow policy, and it does not return exactly when a blocking push meets a
    full queue.  The ring of RingSeq.v and the blocking queue of BlockingQueue.v
    are instances; the facade's theorem is proved from the laws alone. *)

From S2P Require Import Prelude RingQueue RingSafety RingSeq BlockingQueue.
Import Ring.
Local Open Scope Z_scope.

(** ** What a queue promises to its clients *)

Section spec.
Context {T : Type}.

(** A call on the abstract queue; [None] when it blocks. *)
Definition spec_call (policy : OverflowPolicy) (cap : Z) (c : qcall T) (q : fifo T) :
    option (qanswer T * fifo T) :=
  match policy, c with
  | Block, QPush item =>
      if fifo_stopped q then Some (QBool false, q)
      else if decide (Z.of_nat (length (items q)) < cap) then
        Some (QBool true, mkFifo (items q ++ [item]) (fifo_dropped q) false)
      else None
  | _, _ => Some (fifo_call policy cap c q)
  end.

Fixpoint spec_run (policy : OverflowPolicy) (cap : Z) (cs : list (qcall T)) (q : fifo T) :
    option (list (qanswer T) * fifo T) :=
  match cs with
  | [] => Some ([], q)
  | c :: cs' =>
      '(a, q) ← spec_call policy cap c q; '(l, q) ← spec_run policy cap cs' q; Some (a :: l, q)
  end.
End spec.

Class QueueImpl (T Q : Type) : Type := queue_call : qcall T → Q → option (qanswer T * Q).

(** [q_models n q f]: [q] stands for [f] and is good for [n] more calls. *)
Class QueueLaws (T Q : Type) `{!QueueImpl T Q} (policy : OverflowPolicy) (cap : Z) : Type := {
  q_models : nat → Q → fifo T → Prop;
  q_call_ok n c q f :
    q_models (S n) q f →
    match spec_call policy cap c f with
    | Some (a, f') => ∃ q', queue_call c q = Some (a, q') ∧ q_models n q' f'
    | None => queue_call c q = None
    end
}.

Section client.
Context {T Q : Type} `{!QueueImpl T Q}.

Fixpoint queue_run (cs : list (qcall T)) (q : Q) : option (list (qanswer T) * Q) :=
  match cs with
  | [] => Some ([], q)
  | c :: cs' => '(a, q) ← queue_call c q; '(l, q) ← queue_run cs' q; Some (a :: l, q)
  end.

Lemma queue_run_ok policy cap `{!QueueLaws T Q policy cap} cs q f :
  q_models (length cs) q f →
  fst <$> queue_run cs q = fst <$> spec_run policy cap cs f.
Proof.
  revert q f. induction cs as [|c cs IH]; intros q f Hq; [done|].
  cbn [queue_run spec_run length] in Hq |- *. pose proof (q_call_ok (length cs) c q f Hq) as Hc.
  destruct (spec_call policy cap c f) as [[a f']|]; [|by rewrite Hc].
  destruct Hc as (q' & -> & Hq'). specialize (IH q' f' Hq'). cbn [mbind option_bind].
  destruct (queue_run cs q') as [[l q2]|], (spec_run policy cap cs f') as [[l' f2]|]; cbn in *; congruence.
Qed.
End client.

(** ** The two implementations *)

#[export] Instance ring_impl (T : Type) : QueueImpl T (Shared T) := ring_call.

(** The blocking queue called by one thread: a call that would wait never
    returns, because nobody can change the queue. *)
Definition blocking_call {T} (c : qcall T) (q : Blocking.queue T) : option (qanswer T * Blocking.queue T) :=
  match c with
  | QPush item => match Blocking.push_enter item q with
                  | (Blocking.PushRet ok, q', _) => Some (QBool ok, q')
                  | _ => None
                  end
  | QTryPop => match Blocking.try_pop q with
               | (Blocking.PopRet out, q', _) => Some (QItem out, q')
               | _ => None
               end
  | QStop => Some (QUnit, (Blocking.stop q).1.2)
  | QSize => Some (QNum (Z.of_nat (Blocking.size q)), q)
  | QDropped => Some (QNum (Z.of_nat (Blocking.dropped q)), q)
  end.

#[export] Instance blocking_impl (T : Type) : QueueImpl T (Blocking.queue T) := blocking_call.

Lemma ring_call_ok {T} k policy n (c : qcall T) s f :
  policy ≠ Block → models k policy s f ∧ far k (Z.of_nat (S n)) s →
  match spec_call policy (2 ^ k) c f with
  | Some (a, f') => ∃ s', ring_call c s = Some (a, s') ∧ models k policy s' f' ∧ far k (Z.of_nat n) s'
  | None => ring_call c s = None
  end.
Proof.
  intros Hp [Hm Hfar].
  assert (spec_call policy (2 ^ k) c f = Some (fifo_call policy (2 ^ k) c f)) as -> by (by destruct policy).
  unfold far in *. destruct (ring_call_refines k policy c s f Hm) as (s' & Hr & Hm' & He); [unfold far; lia|].
  destruct (fifo_call policy (2 ^ k) c f) as [a f'].
  exists s'. split_and!; [done|done|lia].
Qed.

Definition ring_laws (T : Type) (k : Z) (policy : OverflowPolicy) (Hp : policy ≠ Block) :
    QueueLaws T (Shared T) policy (2 ^ k) := {|
  q_models n s f := models k policy s f ∧ far k (Z.of_nat n) s;
  q_call_ok n c s f := ring_call_ok k policy n c s f Hp
|}.

Definition blocking_models {T} (cap : nat) (q : Blocking.queue T) (f : fifo T) : Prop :=
  Blocking.buffer_ q = items f ∧ Blocking.capacity_ q = cap ∧ Blocking.stopped_ q = fifo_stopped f ∧
  Z.of_nat (Blocking.dropped_ q) = fifo_dropped f.

Lemma blocking_call_ok {T} cap (n : nat) (c : qcall T) q f :
  blocking_models cap q f →
  match spec_call Block (Z.of_nat cap) c f with
  | Some (a, f') => ∃ q', blocking_call c q = Some (a, q') ∧ blocking_models cap q' f'
  | None => blocking_call c q = None
  end.
Proof.
  unfold blocking_models. intros (Hb & Hc & Hs & Hd). destruct c as [item| | | |]; cbn [spec_call blocking_call].
  - unfold Blocking.push_enter, Blocking.push_check. rewrite Hs.
    destruct (fifo_stopped f) eqn:Hf; [exists q; split_and!; try done; congruence|]. cbn [orb].
    rewrite Hb, Hc. destruct (decide (Z.of_nat (length (items f)) < Z.of_nat cap)) as [Hlt|Hge].
    + rewrite bool_decide_eq_true_2 by lia. eexists. split; [done|]. split_and!; cbn; congruence.
    + by rewrite bool_decide_eq_false_2 by lia.
  - unfold Blocking.try_pop, Blocking.pop_or_fail. rewrite Hb.
    destruct (items f) as [|x l] eqn:Hi; eexists; (split; [unfold fifo_call; by rewrite Hi|]); unfold fifo_call; rewrite Hi;
      split_and!; first [done | cbn; congruence].
  - eexists. split; [done|]. split_and!; first [done | cbn; congruence].
  - exists q. unfold Blocking.size. rewrite Hb. by split_and!.
  - exists q. unfold Blocking.dropped. rewrite Hd. by split_and!.
Qed.

Definition blocking_laws (T : Type) (cap : nat) : QueueLaws T (Blocking.queue T) Block (Z.of_nat cap) := {|
  q_models _ q f := blocking_models cap q f;
  q_call_ok n c q f := blocking_call_ok cap n c q f
|}.

(** ** The facade *)

Inductive impl (T : Type) : Type :=
  | RingOf (s : Shared T)
  | BlockingOf (q : Blocking.queue T).
Arguments RingOf {T} s.
Arguments BlockingOf {T} q.

Record bounded (T : Type) : Type := mkBounded {
  bq_capacity : Z;
  bq_policy : OverflowPolicy;
  bq_impl : impl T
}.
Arguments mkBounded {T} _ _ _.
Arguments bq_capacity {T} _.
Arguments bq_policy {T} _.
Arguments bq_impl {T} _.

(** The constructor; [None] when the ring's rounding loop does not end. *)
Definition BoundedQueue {T} (cap : Z) (policy : OverflowPolicy) : option (bounded T) :=
  let capacity_ := if decide (cap = 0) then 1 else cap in
  match policy with
  | Block => Some (mkBounded capacity_ policy (BlockingOf (Blocking.BlockingImpl (Z.to_nat capacity_))))
  | _ => s ← RingImpl capacity_ policy; Some (mkBounded capacity_ policy (RingOf s))
  end.

(** Every operation tests the policy and forwards; the other pointer is null. *)
Definition bounded_call {T} (c : qcall T) (b : bounded T) : option (qanswer T * bounded T) :=
  match bq_policy b, bq_impl b with
  | Block, BlockingOf q =>
      '(a, q) ← queue_call c q; Some (a, mkBounded (bq_capacity b) (bq_policy b) (BlockingOf q))
  | (DropNew | DropOldest), RingOf s =>
      '(a, s) ← queue_call c s; Some (a, mkBounded (bq_capacity b) (bq_policy b) (RingOf s))
  | _, _ => None
  end.

#[export] Instance bounded_impl (T : Type) : QueueImpl T (bounded T) := bounded_call.

Definition bounded_capacity {T} (b : bounded T) : Z := bq_capacity b.

(** *** Forwarding keeps the laws *)

(** The facade over an implementation answers as the implementation does. *)
Lemma bounded_run_ring {T} cs cap policy (s : Shared T) :
  policy ≠ Block →
  fst <$> queue_run cs (mkBounded cap policy (RingOf s)) = fst <$> queue_run cs s.
Proof.
  intros Hp. revert s. induction cs as [|c cs IH]; intros s; [done|]. cbn [queue_run].
  unfold queue_call at 1, bounded_impl, bounded_call. cbn [bq_policy bq_impl bq_capacity].
  destruct policy; [| |done]; (destruct (queue_call c s) as [[a s']|]; [|done]); cbn [mbind option_bind];
    specialize (IH s'); destruct (queue_run cs (mkBounded _ _ (RingOf s'))) as [[? ?]|], (queue_run cs s') as [[? ?]|];
    cbn in *; congruence.
Qed.

Lemma bounded_run_blocking {T} cs cap (q : Blocking.queue T) :
  fst <$> queue_run cs (mkBounded cap Block (BlockingOf q)) = fst <$> queue_run cs q.
Proof.
  revert q. induction cs as [|c cs IH]; intros q; [done|]. cbn [queue_run].
  unfold queue_call at 1, bounded_impl, bounded_call. cbn [bq_policy bq_impl bq_capacity].
  destruct (queue_call c q) as [[a q']|]; [|done]. cbn [mbind option_bind]. specialize (IH q').
  destruct (queue_run cs (mkBounded _ _ (BlockingOf q'))) as [[? ?]|], (queue_run cs q') as [[? ?]|]; cbn in *; congruence.
Qed.


