(* ===== verification/SafeQueue.v ===== *)
(** * [ThreadSafeQueue<T>] (src/muses/queue.hpp)

    An unbounded queue with a soft capacity: one mutex and one condition
    variable that producers and consumers share.  The machine is that of
    BlockingQueue.v with a single wait set: [notify_one] may wake a producer or a
    consumer. *)

From S2P Require Import Prelude.

Module SafeQueue.
Section machine.
Context {T : Type}.

Record queue : Type := mkQueue {
  capacity : Z;
  stopped : bool;
  data_queue : list T
}.

(** The capacity starts as [std::numeric_limits<unsigned int>::max()]. *)
Definition ThreadSafeQueue : queue := mkQueue (2 ^ 32 - 1) false [].

Definition set_capacity (cap : Z) (s : queue) : queue := mkQueue cap (stopped s) (data_queue s).

Inductive pc : Type :=
  | Idle
  | CallPush (item : T)
  | CallTryPop
  | CallWaitAndPop
  | CallStop
  | CallSetCapacity (cap : Z)
  | WaitPush (item : T) (notified : bool)
  | WaitPop (notified : bool)
  | PushRet (ok : bool)
  | PopRet (out : option T).

Inductive signal : Type :=
  | SigNone
  | SigOne
  | SigAll.

Definition set_data (l : list T) (s : queue) : queue := mkQueue (capacity s) (stopped s) l.

(** [push], from the test of its wait predicate. *)
Definition push (item : T) (s : queue) : pc * queue * signal :=
  if stopped s || bool_decide (Z.of_nat (length (data_queue s)) < capacity s)%Z then
    if stopped s then (PushRet false, s, SigNone)
    else (PushRet true, set_data (data_queue s ++ [item]) s, SigOne)
  else (WaitPush item false, s, SigNone).

(** [try_pop] signals nobody. *)
Definition try_pop (s : queue) : pc * queue * signal :=
  match data_queue s with
  | [] => (PopRet None, s, SigNone)
  | x :: l => (PopRet (Some x), set_data l s, SigNone)
  end.

Definition wait_and_pop (s : queue) : pc * queue * signal :=
  if stopped s || negb (bool_decide (data_queue s = [])) then
    match data_queue s with
    | [] => (PopRet None, s, SigNone)
    | x :: l => (PopRet (Some x), set_data l s, SigOne)
    end
  else (WaitPop false, s, SigNone).

Definition empty (s : queue) : bool := bool_decide (data_queue s = []).

Definition stop (s : queue) : pc * queue * signal :=
  (Idle, mkQueue (capacity s) true (data_queue s), SigAll).

Definition section (p : pc) (s : queue) : option (pc * queue * signal) :=
  match p with
  | CallPush item | WaitPush item true => Some (push item s)
  | CallTryPop => Some (try_pop s)
  | CallWaitAndPop | WaitPop true => Some (wait_and_pop s)
  | CallStop => Some (stop s)
  | CallSetCapacity cap => Some (Idle, set_capacity cap s, SigNone)
  | _ => None
  end.

Definition waits (p : pc) : bool :=
  match p with WaitPush _ false | WaitPop false => true | _ => false end.

Definition wake (p : pc) : pc :=
  match p with
  | WaitPush item _ => WaitPush item true
  | WaitPop _ => WaitPop true
  | _ => p
  end.

Inductive notified : signal → list pc → list pc → Prop :=
  | notify_none ts : notified SigNone ts ts
  | notify_nobody ts : countb waits ts = 0 → notified SigOne ts ts
  | notify_some ts t p :
      ts !! t = Some p → waits p = true → notified SigOne ts (<[t := wake p]> ts)
  | notify_every ts : notified SigAll ts (wake <$> ts).

Record config : Type := Config {
  q : queue;
  threads : list pc;
  pushed : list T;
  popped : list T
}.

Definition pushed_event (p r : pc) (l : list T) : list T :=
  match p, r with
  | CallPush item, PushRet true | WaitPush item _, PushRet true => l ++ [item]
  | _, _ => l
  end.

Definition popped_event (r : pc) (l : list T) : list T :=
  match r with PopRet (Some x) => l ++ [x] | _ => l end.

Inductive starts : pc → pc → Prop :=
  | starts_push item : starts Idle (CallPush item)
  | starts_try_pop : starts Idle CallTryPop
  | starts_wait : starts Idle CallWaitAndPop
  | starts_stop : starts Idle CallStop
  | starts_set_capacity cap : starts Idle (CallSetCapacity cap)
  | returns_push ok : starts (PushRet ok) Idle
  | returns_pop out : starts (PopRet out) Idle.

(** Steps of the program itself ([program]) and steps that come from outside:
    a client that starts a call or takes its result, a spurious wakeup. *)
Inductive program : config → config → Prop :=
  | program_section c t p p' s' sig ts' :
      threads c !! t = Some p → section p (q c) = Some (p', s', sig) →
      notified sig (<[t := p']> (threads c)) ts' →
      program c (Config s' ts' (pushed_event p p' (pushed c)) (popped_event p' (popped c))).

Inductive step : config → config → Prop :=
  | step_program c c' : program c c' → step c c'
  | step_client c t p p' :
      threads c !! t = Some p → starts p p' →
      step c (Config (q c) (<[t := p']> (threads c)) (pushed c) (popped c))
  | step_spurious c t p :
      threads c !! t = Some p → waits p = true →
      step c (Config (q c) (<[t := wake p]> (threads c)) (pushed c) (popped c)).

(** [n] threads on a queue whose capacity has been set. *)
Definition initial (cap : Z) (n : nat) : config :=
  Config (mkQueue cap false []) (replicate n Idle) [] [].

(** *** Safety *)

Lemma section_fifo c t p p' s' sig :
  threads c !! t = Some p → section p (q c) = Some (p', s', sig) →
  pushed c = popped c ++ data_queue (q c) →
  pushed_event p p' (pushed c) = popped_event p' (popped c) ++ data_queue s'.
Proof.
  intros _ Hs Hf. destruct (q c) as [cap st l]. cbn in *.
  unfold section, push, try_pop, wait_and_pop, stop, set_capacity, set_data in Hs.
  destruct p as [|item| | | |cp|item [|]|[|]| |]; try discriminate Hs; cbn in Hs;
    destruct st, l as [|x l]; cbn in Hs; try case_bool_decide; simplify_eq; cbn;
    rewrite ?Hf, <- ?app_assoc; done.
Qed.

Lemma reachable_fifo cap n c :
  rtc step (initial cap n) c → pushed c = popped c ++ data_queue (q c).
Proof.
  apply (rtc_invariant step (λ c, pushed c = popped c ++ data_queue (q c))); [done|].
  intros a b _ Ha Hs. destruct Hs as [c0 c' Hp| |]; [|done|done].
  destruct Hp. cbn. by eapply section_fifo.
Qed.
End machine.
Arguments queue T : clear implicits.
Arguments pc T : clear implicits.
Arguments config T : clear implicits.
End SafeQueue.

(** ** Schedules, for concrete executions *)

Module SafeQueueRuns.
Section schedules.
Context {T : Type}.
Import SafeQueue.

Inductive action : Type :=
  | ACall (p : pc T)                 (* start a call, or return from one *)
  | ASection (target : option nat).  (* run the critical section; whom to notify *)

Definition may_start (p p' : pc T) : bool :=
  match p, p' with
  | Idle, CallPush _ | Idle, CallTryPop | Idle, CallWaitAndPop | Idle, CallStop
  | Idle, CallSetCapacity _ | PushRet _, Idle | PopRet _, Idle => true
  | _, _ => false
  end.

Definition notify (sig : signal) (target : option nat) (ts : list (pc T)) : option (list (pc T)) :=
  match sig, target with
  | SigNone, _ => Some ts
  | SigAll, _ => Some (wake <$> ts)
  | SigOne, None => if decide (countb waits ts = 0) then Some ts else None
  | SigOne, Some t => p ← ts !! t; if waits p then Some (<[t := wake p]> ts) else None
  end.

Definition act (t : nat) (a : action) (c : config T) : option (config T) :=
  p ← threads c !! t;
  match a with
  | ACall p' => if may_start p p'
                then Some (Config (q c) (<[t := p']> (threads c)) (pushed c) (popped c)) else None
  | ASection target =>
      r ← section p (q c);
      ts ← notify r.2 target (<[t := r.1.1]> (threads c));
      Some (Config r.1.2 ts (pushed_event p r.1.1 (pushed c)) (popped_event r.1.1 (popped c)))
  end.

Fixpoint schedule (es : list (nat * action)) (c : config T) : option (config T) :=
  match es with [] => Some c | (t, a) :: es' => c' ← act t a c; schedule es' c' end.

Lemma safequeue_act_sound t a c c' : act t a c = Some c' → step c c'.
Proof.
  unfold act. destruct (threads c !! t) as [p|] eqn:Ht; [|done]. cbn. intros Ha.
  destruct a as [p'|target].
  - destruct (may_start p p') eqn:Hm; simplify_eq. eapply step_client; [done|].
    destruct p, p'; try discriminate Hm; constructor.
  - destruct (section p (q c)) as [[[p' s'] sig]|] eqn:Hs; [|done]. cbn in Ha.
    destruct (notify sig target _) as [ts|] eqn:Hn; [|done]. cbn in Ha. simplify_eq.
    apply step_program. eapply program_section; [done..|].
    destruct sig, target as [t'|]; cbn in Hn; simplify_eq; try by constructor.
    + destruct (insert _ _ _ !! t') as [p1|] eqn:Ht'; [|done]. cbn in Hn.
      destruct (waits p1) eqn:Hw; simplify_eq. by eapply notify_some.
    + case_decide; simplify_eq. by constructor.
Qed.

Lemma safequeue_schedule_sound es c c' : schedule es c = Some c' → rtc step c c'.
Proof.
  revert c. induction es as [|[t a] es IH]; intros c Hs; cbn in Hs; [by simplify_eq|].
  destruct (act t a c) as [c1|] eqn:Ha; [|done]. cbn in Hs.
  eapply rtc_l; [by eapply safequeue_act_sound|by apply IH].
Qed.
End schedules.
Arguments action T : clear implicits.
End SafeQueueRuns.

(** ** Properties *)

Section properties.
Context {T : Type}.
Import SafeQueue SafeQueueRuns.

(** Under every interleaving of pushes, pops, capacity changes and stops,
    what has been pushed is what has been popped, in order, followed by what is
    still queued. *)
Theorem safequeue_fifo cap n (c : config T) :
  rtc step (initial cap n) c → pushed c = popped c ++ data_queue (q c).
Proof. apply reachable_fifo. Qed.

(** A lost wakeup: with capacity 1, a producer that found the queue full
    keeps sleeping after [try_pop] has emptied the queue, because [try_pop]
    notifies nobody; no thread of the program has a step left, although the
    producer's predicate holds. *)
Theorem safequeue_try_pop_loses_wakeup (a b : T) :
  ∃ c, rtc step (initial 1 3) c ∧
    threads c = [Idle; WaitPush b false; Idle] ∧
    (Z.of_nat (length (data_queue (q c))) < capacity (q c))%Z ∧ stopped (q c) = false ∧
    popped c = [a] ∧
    ∀ c', program c c' → False.
Proof.
  exists (Config (mkQueue 1 false []) [Idle; WaitPush b false; Idle] [a] [a]).
  split; [|split_and!; try done].
  - apply (safequeue_schedule_sound
      [(0, ACall (CallPush a)); (0, ASection None); (0, ACall Idle);
       (1, ACall (CallPush b)); (1, ASection None);
       (2, ACall CallTryPop); (2, ASection None); (2, ACall Idle)]). reflexivity.
  - intros c' Hp. inversion Hp as [c t p p' s' sig ts' Ht Hs Hn]; subst.
    destruct t as [|[|[|t]]]; cbn in Ht; simplify_eq; discriminate Hs.
Qed.

(** The shared condition variable loses wakeups even without [try_pop]:
    with capacity 1, two consumers and two producers, the [notify_one] of a pop
    can wake the second consumer, which finds the queue empty and sleeps again
    while a producer sleeps although there is room. *)
Theorem safequeue_shared_condition_deadlock (a b : T) :
  ∃ c, rtc step (initial 1 4) c ∧
    threads c = [Idle; WaitPop false; Idle; WaitPush b false] ∧
    (Z.of_nat (length (data_queue (q c))) < capacity (q c))%Z ∧ stopped (q c) = false ∧
    popped c = [a] ∧
    ∀ c', program c c' → False.
Proof.
  exists (Config (mkQueue 1 false []) [Idle; WaitPop false; Idle; WaitPush b false] [a] [a]).
  split; [|split_and!; try done].
  - apply (safequeue_schedule_sound
      [(0, ACall CallWaitAndPop); (0, ASection None);
       (1, ACall CallWaitAndPop); (1, ASection None);
       (2, ACall (CallPush a)); (2, ASection (Some 0)); (2, ACall Idle);
       (3, ACall (CallPush b)); (3, ASection None);
       (0, ASection (Some 1)); (0, ACall Idle);
       (1, ASection None)]). reflexivity.
  - intros c' Hp. inversion Hp as [c t p p' s' sig ts' Ht Hs Hn]; subst.
    destruct t as [|[|[|[|t]]]]; cbn in Ht; simplify_eq; discriminate Hs.
Qed.
End properties.

Lemma safequeue_fifo_witness :
  ∃ c : SafeQueue.config nat, rtc SafeQueue.step (SafeQueue.initial 2 2) c ∧
    SafeQueue.pushed c = [5; 6] ∧ SafeQueue.popped c = [5] ∧
    SafeQueue.pushed c = SafeQueue.popped c ++ SafeQueue.data_queue (SafeQueue.q c).
Proof.
  assert (rtc SafeQueue.step (SafeQueue.initial 2 2)
    (SafeQueue.Config (SafeQueue.mkQueue 2 false [6])
       [SafeQueue.Idle; SafeQueue.PopRet (Some 5)] [5; 6] [5])) as Hr.
  { apply (SafeQueueRuns.safequeue_schedule_sound
      [(0, SafeQueueRuns.ACall (SafeQueue.CallPush 5)); (0, SafeQueueRuns.ASection None);
       (0, SafeQueueRuns.ACall SafeQueue.Idle);
       (0, SafeQueueRuns.ACall (SafeQueue.CallPush 6)); (0, SafeQueueRuns.ASection None);
       (0, SafeQueueRuns.ACall SafeQueue.Idle);
       (1, SafeQueueRuns.ACall SafeQueue.CallTryPop); (1, SafeQueueRuns.ASection None)]).
    reflexivity. }
  eexists. split; [exact Hr|]. split; [reflexivity|]. split; [reflexivity|].
  exact (safequeue_fifo 2 2 _ Hr).
Defined.
