(* ===== verification/BloomFilter.v ===== *)
(** * [CountingBloomFilter<T>] (src/muses/bloom_filter.hpp)

    A byte vector with two 4-bit counters per byte.  The model keeps the packed
    bytes and the bit operations of the source; [std::hash] is a parameter, and
    so are the two floating-point results of the constructor ([m_d], [k_d]).
    Every method holds the mutex for its whole body, so a call is one step.

    [BloomSpec] is the filter without packing: one saturating counter per slot.
    [BloomFilter] is the packed implementation, shown to refine it; the
    multiset reading of the counters is at the end. *)

From S2P Require Import Prelude.
Local Open Scope Z_scope.

(** ** Hashing, shared by the specification and the implementation *)

Section hashing.
Context {T : Type} (hash : T → Z).

Definition hashes (item : T) : Z * Z :=
  let h1 := wrap64 (hash item) in
  let h2 := Z.lxor (h1 *64 0x9E3779B97F4A7C15) (Z.shiftr h1 32) in
  (h1, if decide (h2 = 0) then 0x517cc1b727220a95 else h2).

Definition slot_of (num_slots h1 h2 i : Z) : Z := (h1 +64 (i *64 h2)) `mod` num_slots.

(** The slots that [add], [remove] and [contains] visit, in order. *)
Definition probes (num_slots num_hashes : Z) (item : T) : list Z :=
  slot_of num_slots (hashes item).1 (hashes item).2 <$> seqZ 0 num_hashes.
End hashing.

Definition kCounterMax : Z := 15.
Definition saturate_inc (c : Z) : Z := if decide (kCounterMax ≤ c) then kCounterMax else c + 1.

(** ** The filter without packing *)

Module BloomSpec.
Section spec.
Context {T : Type} (hash : T → Z) (m k : Z).
Abbreviation counters := (Z → Z).

Definition update (s v : Z) (c : counters) : counters := λ s', if decide (s' = s) then v else c s'.

Definition empty : counters := λ _, 0.

Definition add (item : T) (c : counters) : counters :=
  foldl (λ c s, update s (saturate_inc (c s)) c) c (probes hash m k item).

Definition contains (item : T) (c : counters) : bool :=
  forallb (λ s, negb (c s =? 0)) (probes hash m k item).

Definition remove_slots (ss : list Z) (c : counters) : bool * counters :=
  foldl (λ r s, if decide (0 < r.2 s) then (true, update s (r.2 s - 1) r.2) else r) (false, c) ss.

Definition remove (item : T) (c : counters) : bool * counters :=
  remove_slots (probes hash m k item) c.

Definition decay (shift : Z) (c : counters) : counters := λ s, Z.shiftr (c s) shift.
End spec.
End BloomSpec.

(** ** The packed implementation *)

Module BloomFilter.
Section impl.
Context {T : Type} (hash : T → Z).

Record t : Type := mk {
  bytes_ : list Z;
  num_slots_ : Z;
  num_hashes_ : Z
}.

(** The constructor after the floating-point work: [m_d] is the value of
    [ceil(-n ln p / ln2^2)] and [k_d m] that of [round(m / n * ln2)]. *)
Definition CountingBloomFilter (m_d : Z) (k_d : Z → Z) : t :=
  let m := if decide (m_d < 2) then 2 else m_d in
  let m := if decide (m `mod` 2 ≠ 0) then m + 1 else m in
  mk (replicate (Z.to_nat (m `div` 2)) 0) m (if decide (k_d m < 1) then 1 else k_d m).

(** [bytes_[i]]; out of range is undefined. *)
Definition byte_at (b : t) (i : Z) : outcome Z := deref (bytes_ b !! Z.to_nat i).

Definition get_counter (b : t) (slot : Z) : outcome Z :=
  let byte := slot `div` 2 in
  x ← byte_at b byte;
  if decide (slot `mod` 2 = 0) then Ret (Z.land x 0x0F)
  else Ret (Z.land (Z.shiftr x 4) 0x0F).

Definition store_byte (b : t) (i v : Z) : t :=
  mk (<[Z.to_nat i := v]> (bytes_ b)) (num_slots_ b) (num_hashes_ b).

Definition set_counter (b : t) (slot val : Z) : outcome t :=
  let byte := slot `div` 2 in
  x ← byte_at b byte;
  if decide (slot `mod` 2 = 0) then
    Ret (store_byte b byte (Z.lor (Z.land x 0xF0) (Z.land val 0x0F)))
  else
    Ret (store_byte b byte (Z.lor (Z.land x 0x0F) (wrap8 (Z.shiftl (Z.land val 0x0F) 4)))).

Fixpoint add_loop (ss : list Z) (b : t) : outcome t :=
  match ss with
  | [] => Ret b
  | s :: ss' =>
      c ← get_counter b s;
      b' ← set_counter b s (saturate_inc c);
      add_loop ss' b'
  end.

Definition probed (b : t) (item : T) : list Z := probes hash (num_slots_ b) (num_hashes_ b) item.

Definition add (item : T) (b : t) : outcome t := add_loop (probed b item) b.

Fixpoint contains_loop (ss : list Z) (b : t) : outcome bool :=
  match ss with
  | [] => Ret true
  | s :: ss' =>
      c ← get_counter b s;
      if decide (c = 0) then Ret false else contains_loop ss' b
  end.

Definition contains (item : T) (b : t) : outcome bool := contains_loop (probed b item) b.

Fixpoint remove_loop (ss : list Z) (changed : bool) (b : t) : outcome (bool * t) :=
  match ss with
  | [] => Ret (changed, b)
  | s :: ss' =>
      c ← get_counter b s;
      if decide (0 < c) then
        b' ← set_counter b s (c - 1);
        remove_loop ss' true b'
      else remove_loop ss' changed b
  end.

Definition remove (item : T) (b : t) : outcome (bool * t) :=
  remove_loop (probed b item) false b.

Definition clear (b : t) : t :=
  mk ((λ _, 0) <$> bytes_ b) (num_slots_ b) (num_hashes_ b).

Definition decay_byte (shift packed : Z) : Z :=
  let hi := Z.land (Z.shiftr packed 4) 0x0F in
  let lo := Z.land packed 0x0F in
  let hi := Z.shiftr hi shift in
  let lo := Z.shiftr lo shift in
  wrap8 (Z.lor (Z.shiftl hi 4) lo).

Definition decay (shift : Z) (b : t) : t :=
  if decide (shift = 0) then b
  else if decide (4 ≤ shift) then clear b
  else mk (decay_byte shift <$> bytes_ b) (num_slots_ b) (num_hashes_ b).

Definition capacity (b : t) : Z := num_slots_ b.
Definition hash_count (b : t) : Z := num_hashes_ b.

(** The counting loop of [approximate_count]; its formula is in BloomEstimate.v. *)
Fixpoint zero_nibbles (bs : list Z) : Z :=
  match bs with
  | [] => 0
  | packed :: bs' =>
      (if decide (Z.land (Z.shiftr packed 4) 0x0F = 0) then 1 else 0) +
      (if decide (Z.land packed 0x0F = 0) then 1 else 0) + zero_nibbles bs'
  end.
End impl.

(** *** Well-formed filters *)

Definition byte_ok (x : Z) : Prop := 0 ≤ x < 256.

Record wf (b : t) : Prop := mkWf {
  wf_even : num_slots_ b `mod` 2 = 0;
  wf_slots : 2 ≤ num_slots_ b;
  wf_hashes : 1 ≤ num_hashes_ b;
  wf_length : Z.of_nat (length (bytes_ b)) = num_slots_ b `div` 2;
  wf_bytes : Forall byte_ok (bytes_ b)
}.

(** The counters a filter represents. *)
Record repr (b : t) (c : Z → Z) : Prop := mkRepr {
  repr_wf : wf b;
  repr_counter s : 0 ≤ s < num_slots_ b → get_counter b s = Ret (c s);
  repr_range s : 0 ≤ s < num_slots_ b → 0 ≤ c s ≤ kCounterMax
}.

(** *** Nibbles: every byte and every counter value, by enumeration *)

Definition all_nibbles (P : Z → Z → bool) : bool :=
  forallb (λ x, forallb (P x) (seqZ 0 16)) (seqZ 0 256).

Lemma all_nibbles_spec P x v :
  all_nibbles P = true → 0 ≤ x < 256 → 0 ≤ v < 16 → P x v = true.
Proof.
  intros Hall Hx Hv. unfold all_nibbles in Hall. rewrite forallb_forall in Hall.
  specialize (Hall x). rewrite forallb_forall in Hall. apply Hall.
  - apply list_elem_of_In, elem_of_seqZ. lia.
  - apply list_elem_of_In, elem_of_seqZ. lia.
Qed.

Definition low (x : Z) : Z := Z.land x 0x0F.
Definition high (x : Z) : Z := Z.land (Z.shiftr x 4) 0x0F.

Lemma nibble_ops x v :
  0 ≤ x < 256 → 0 ≤ v < 16 →
  let xl := Z.lor (Z.land x 0xF0) (Z.land v 0x0F) in
  let xh := Z.lor (Z.land x 0x0F) (wrap8 (Z.shiftl (Z.land v 0x0F) 4)) in
  (0 ≤ xl < 256 ∧ low xl = v ∧ high xl = high x) ∧
  (0 ≤ xh < 256 ∧ high xh = v ∧ low xh = low x) ∧
  0 ≤ low x < 16 ∧ 0 ≤ high x < 16.
Proof.
  intros Hx Hv xl xh. set (P := λ x v,
    let xl := Z.lor (Z.land x 0xF0) (Z.land v 0x0F) in
    let xh := Z.lor (Z.land x 0x0F) (wrap8 (Z.shiftl (Z.land v 0x0F) 4)) in
    bool_decide ((0 ≤ xl < 256 ∧ low xl = v ∧ high xl = high x) ∧
    (0 ≤ xh < 256 ∧ high xh = v ∧ low xh = low x) ∧
    0 ≤ low x < 16 ∧ 0 ≤ high x < 16)).
  assert (P x v = true) as HP by (apply all_nibbles_spec; [vm_compute; reflexivity|done|done]).
  by apply bool_decide_eq_true in HP.
Qed.

Lemma decay_byte_ok x shift :
  0 ≤ x < 256 → 0 < shift < 4 →
  0 ≤ decay_byte shift x < 256 ∧ low (decay_byte shift x) = Z.shiftr (low x) shift ∧
  high (decay_byte shift x) = Z.shiftr (high x) shift.
Proof.
  intros Hx Hs. set (P := λ x v, bool_decide (0 < v < 4 →
    0 ≤ decay_byte v x < 256 ∧ low (decay_byte v x) = Z.shiftr (low x) v ∧
    high (decay_byte v x) = Z.shiftr (high x) v)).
  assert (P x shift = true) as HP by (apply all_nibbles_spec; [vm_compute; reflexivity|done|lia]).
  apply bool_decide_eq_true in HP. auto.
Qed.

Lemma shiftr_counter_zero c shift : 0 ≤ c ≤ kCounterMax → 4 ≤ shift → Z.shiftr c shift = 0.
Proof.
  unfold kCounterMax. intros Hc Hs. rewrite Z.shiftr_div_pow2 by lia. apply Z.div_small.
  split; [lia|]. assert (2 ^ 4 ≤ 2 ^ shift) by (apply Z.pow_le_mono_r; lia). lia.
Qed.

(** *** Reading and writing one counter *)

Lemma wf_byte b i :
  wf b → 0 ≤ i < num_slots_ b `div` 2 → ∃ x, byte_at b i = Ret x ∧ byte_ok x ∧
    bytes_ b !! Z.to_nat i = Some x.
Proof.
  intros [_ _ _ Hl Hb] Hi. unfold byte_at.
  destruct (lookup_lt_is_Some_2 (bytes_ b) (Z.to_nat i)) as [x Hx]; [lia|].
  exists x. rewrite Hx. split_and!; try done. by eapply Forall_lookup_1 in Hx.
Qed.

Lemma half_slot m s : m `mod` 2 = 0 → 0 ≤ s < m → 0 ≤ s `div` 2 < m `div` 2.
Proof. intros. Z.to_euclidean_division_equations. lia. Qed.

(** Reading through the byte of a slot. *)
Lemma get_counter_byte b s x :
  bytes_ b !! Z.to_nat (s `div` 2) = Some x →
  get_counter b s = Ret (if decide (s `mod` 2 = 0) then low x else high x).
Proof. intros Hx. unfold get_counter, byte_at. rewrite Hx. cbn. by case_decide. Qed.

Lemma get_counter_ok b s : wf b → 0 ≤ s < num_slots_ b →
  ∃ c, get_counter b s = Ret c ∧ 0 ≤ c ≤ kCounterMax.
Proof.
  intros Hwf Hs. destruct (wf_byte b (s `div` 2)) as (x & _ & Hx & Hl); [done| |].
  { apply half_slot; [apply Hwf|done]. }
  rewrite (get_counter_byte b s x Hl). eexists. split; [done|].
  destruct (nibble_ops x 0) as (_ & _ & ? & ?); [done|lia|]. unfold kCounterMax. case_decide; lia.
Qed.

Lemma store_byte_wf b i v : wf b → byte_ok v → wf (store_byte b i v).
Proof.
  intros [] Hv. constructor; try done; cbn; [by rewrite length_insert|].
  by apply Forall_insert.
Qed.

(** A store of the byte of slot [s] that keeps the other nibble changes exactly
    counter [s]. *)
Lemma store_byte_counter b s s' x x' v :
  0 ≤ s → 0 ≤ s' → bytes_ b !! Z.to_nat (s `div` 2) = Some x →
  (if decide (s `mod` 2 = 0) then low x' = v ∧ high x' = high x
   else high x' = v ∧ low x' = low x) →
  get_counter (store_byte b (s `div` 2) x') s' =
    if decide (s' = s) then Ret v else get_counter b s'.
Proof.
  intros Hs Hs' Hx Hx'. destruct (decide (s' `div` 2 = s `div` 2)) as [Heq|Hne].
  - rewrite (get_counter_byte _ s' x').
    2: { cbn. rewrite Heq. apply list_lookup_insert_eq. by eapply lookup_lt_Some. }
    rewrite (get_counter_byte b s' x) by (by rewrite Heq).
    assert (s' = s ↔ s' `mod` 2 = s `mod` 2) as Hiff
      by (Z.to_euclidean_division_equations; lia).
    assert (0 ≤ s `mod` 2 < 2 ∧ 0 ≤ s' `mod` 2 < 2) as [] by (split; apply Z.mod_pos_bound; lia).
    repeat case_decide; destruct Hx'; f_equal; try congruence; lia.
  - rewrite decide_False by (intros ->; done). unfold get_counter, byte_at. cbn.
    rewrite list_lookup_insert_ne; [done|]. Z.to_euclidean_division_equations; lia.
Qed.

Lemma set_counter_ok b s v c :
  repr b c → 0 ≤ s < num_slots_ b → 0 ≤ v ≤ kCounterMax →
  ∃ b', set_counter b s v = Ret b' ∧ repr b' (BloomSpec.update s v c) ∧
    num_slots_ b' = num_slots_ b ∧ num_hashes_ b' = num_hashes_ b.
Proof.
  intros [Hwf Hc Hr] Hs Hv. unfold kCounterMax in Hv.
  destruct (wf_byte b (s `div` 2)) as (x & Hx & Hok & Hl); [done| |].
  { apply half_slot; [apply Hwf|done]. }
  destruct (nibble_ops x v) as ((Hl1 & Hl2) & (Hh1 & Hh2) & _); [done|lia|].
  unfold set_counter. rewrite Hx. cbn [mbind outcome_bind].
  assert (∀ x', byte_ok x' → (if decide (s `mod` 2 = 0) then low x' = v ∧ high x' = high x
     else high x' = v ∧ low x' = low x) →
     repr (store_byte b (s `div` 2) x') (BloomSpec.update s v c)) as Hrepr.
  { intros x' Hx' Hnib. constructor; [by apply store_byte_wf|cbn [num_slots_ store_byte] ..].
    - intros s' Hs'. rewrite (store_byte_counter b s s' x x' v) by (done || lia).
      unfold BloomSpec.update. by destruct (decide (s' = s)); [|apply Hc].
    - intros s' Hs'. unfold BloomSpec.update, kCounterMax. destruct (decide (s' = s)); [lia|]. by apply Hr. }
  destruct (decide (s `mod` 2 = 0)); eexists; split_and!; try done; apply Hrepr; done.
Qed.

(** *** The loops refine the folds of the specification *)

Section loops.
Context {T : Type} (hash : T → Z).

Definition same_shape (b b' : t) : Prop :=
  num_slots_ b' = num_slots_ b ∧ num_hashes_ b' = num_hashes_ b.

Lemma add_loop_ok ss b c :
  repr b c → Forall (λ s, 0 ≤ s < num_slots_ b) ss →
  ∃ b', add_loop ss b = Ret b' ∧ same_shape b b' ∧
    repr b' (foldl (λ c s, BloomSpec.update s (saturate_inc (c s)) c) c ss).
Proof.
  revert b c. induction ss as [|s ss IH]; intros b c Hb Hss; cbn; [by exists b|].
  inversion Hss as [|? ? Hs Hss']; subst. rewrite (repr_counter _ _ Hb s Hs). cbn.
  pose proof (repr_range _ _ Hb s Hs) as Hr.
  destruct (set_counter_ok b s (saturate_inc (c s)) c Hb Hs) as (b1 & -> & Hb1 & Hm & Hk).
  { unfold saturate_inc. case_decide; lia. }
  cbn. destruct (IH b1 _ Hb1) as (b' & Heq & [Hm' Hk'] & Hb'); [by rewrite Hm|].
  exists b'. split_and!; [done|split; congruence|done].
Qed.

Lemma contains_loop_ok ss b c :
  repr b c → Forall (λ s, 0 ≤ s < num_slots_ b) ss →
  contains_loop ss b = Ret (forallb (λ s, negb (c s =? 0)) ss).
Proof.
  intros Hb. induction 1 as [|s ss Hs Hss IH]; cbn; [done|].
  rewrite (repr_counter _ _ Hb s Hs). cbn.
  destruct (decide (c s = 0)) as [->|Hne]; [done|].
  rewrite (proj2 (Z.eqb_neq _ _) Hne). done.
Qed.

Lemma remove_loop_ok ss b c changed :
  repr b c → Forall (λ s, 0 ≤ s < num_slots_ b) ss →
  ∃ b', remove_loop ss changed b =
      Ret ((foldl (λ r s, if decide (0 < r.2 s) then (true, BloomSpec.update s (r.2 s - 1) r.2)
                          else r) (changed, c) ss).1, b') ∧ same_shape b b' ∧
    repr b' (foldl (λ r s, if decide (0 < r.2 s) then (true, BloomSpec.update s (r.2 s - 1) r.2)
                           else r) (changed, c) ss).2.
Proof.
  revert b c changed. induction ss as [|s ss IH]; intros b c changed Hb Hss; cbn; [by exists b|].
  inversion Hss as [|? ? Hs Hss']; subst. rewrite (repr_counter _ _ Hb s Hs). cbn.
  pose proof (repr_range _ _ Hb s Hs) as Hr. unfold kCounterMax in Hr.
  destruct (decide (0 < c s)) as [Hpos|Hz]; [|by apply IH].
  destruct (set_counter_ok b s (c s - 1) c Hb Hs) as (b1 & -> & Hb1 & Hm & Hk).
  { unfold kCounterMax. lia. }
  cbn. destruct (IH b1 _ true Hb1) as (b' & Heq & [Hm' Hk'] & Hb'); [by rewrite Hm|].
  exists b'. split_and!; [done|split; congruence|done].
Qed.

Lemma probed_range b item : wf b → Forall (λ s, 0 ≤ s < num_slots_ b) (probed hash b item).
Proof.
  intros [_ Hm _ _ _]. apply Forall_forall. intros s Hs. unfold probed, probes in Hs.
  apply list_elem_of_fmap in Hs as (i & -> & _). apply Z.mod_pos_bound. lia.
Qed.

Lemma decay_ok shift b c : 0 ≤ shift → repr b c → repr (decay shift b) (BloomSpec.decay shift c).
Proof.
  intros Hshift [Hwf Hc Hr].
  assert (∀ s, 0 ≤ s < num_slots_ b → 0 ≤ BloomSpec.decay shift c s ≤ kCounterMax) as Hrange.
  { intros s Hs. specialize (Hr s Hs). unfold BloomSpec.decay, kCounterMax in *.
    rewrite Z.shiftr_div_pow2 by done. split; [apply Z.div_pos; lia|].
    apply Z.div_le_upper_bound; [lia|]. nia. }
  unfold decay, clear. destruct (decide (shift = 0)) as [->|Hne].
  { by constructor. }
  assert (∀ g : Z → Z, (∀ x, byte_ok x → byte_ok (g x) ∧
      low (g x) = Z.shiftr (low x) shift ∧ high (g x) = Z.shiftr (high x) shift) →
    repr (mk (g <$> bytes_ b) (num_slots_ b) (num_hashes_ b)) (BloomSpec.decay shift c)) as Hmap.
  { intros g Hg. destruct Hwf as [He Hs Hh Hl Hb]. constructor; [constructor|..]; cbn; try done.
    - by rewrite length_fmap.
    - apply Forall_fmap. eapply Forall_impl; [exact Hb|]. cbn. intros x Hx. by apply Hg.
    - intros s Hs'. specialize (Hc s Hs'). destruct (wf_byte b (s `div` 2)) as (x & _ & Hok & Hx);
        [done|by apply half_slot|].
      rewrite (get_counter_byte b s x Hx) in Hc.
      rewrite (get_counter_byte _ s (g x)) by (cbn; by rewrite list_lookup_fmap, Hx).
      destruct (Hg x Hok) as (_ & Hlow & Hhigh). unfold BloomSpec.decay. injection Hc as <-.
      case_decide; by rewrite ?Hlow, ?Hhigh. }
  case_decide; apply Hmap; intros x Hx.
  - destruct (nibble_ops x 0) as (_ & _ & Hl & Hh); [done|lia|].
    split; [done|]. rewrite !(shiftr_counter_zero _ shift) by (unfold kCounterMax; lia). done.
  - apply decay_byte_ok; [done|lia].
Qed.

Lemma clear_ok b c : repr b c → repr (clear b) BloomSpec.empty.
Proof.
  intros [[He Hs Hh Hl Hb] Hc Hr]. constructor; [constructor|..]; cbn; try done.
  - by rewrite length_fmap.
  - apply Forall_fmap. eapply Forall_impl; [exact Hb|]. done.
  - intros s Hs'. destruct (wf_byte b (s `div` 2)) as (x & _ & _ & Hx); [done|by apply half_slot|].
    rewrite (get_counter_byte _ s 0) by (cbn; by rewrite list_lookup_fmap, Hx).
    by case_decide.
Qed.

Lemma ctor_ok m_d k_d : repr (CountingBloomFilter m_d k_d) BloomSpec.empty.
Proof.
  unfold CountingBloomFilter. set (m := if decide (m_d < 2) then 2 else m_d).
  assert (2 ≤ m) by (unfold m; case_decide; lia).
  set (m' := if decide (m `mod` 2 ≠ 0) then m + 1 else m).
  assert (m' `mod` 2 = 0 ∧ 2 ≤ m') as [He Hm].
  { unfold m'. clearbody m. destruct (decide _); Z.to_euclidean_division_equations; lia. }
  clearbody m'. assert (0 < m' `div` 2) by (Z.to_euclidean_division_equations; lia).
  assert (wf (mk (replicate (Z.to_nat (m' `div` 2)) 0) m' (if decide (k_d m' < 1) then 1 else k_d m'))).
  { constructor; cbn; try done; [case_decide; lia|rewrite length_replicate; lia|].
    apply Forall_replicate. unfold byte_ok. lia. }
  constructor; [done| |cbn; done]. cbn. intros s Hs.
  rewrite (get_counter_byte _ s 0); [by destruct (decide (s `mod` 2 = 0))|].
  cbn. apply lookup_replicate. split; [done|]. destruct (half_slot m' s); [done..|]. lia.
Qed.
End loops.
End BloomFilter.

(** ** Sequences of calls *)

Inductive bloom_call (T : Type) : Type :=
  | BAdd (item : T)
  | BContains (item : T)
  | BRemove (item : T)
  | BDecay (shift : Z)
  | BClear.
Arguments BAdd {T} item.
Arguments BContains {T} item.
Arguments BRemove {T} item.
Arguments BDecay {T} shift.
Arguments BClear {T}.

Section runs.
Context {T : Type} (hash : T → Z).
Implicit Types (b : BloomFilter.t) (c : Z → Z) (x : T).

Definition bloom_step (cl : bloom_call T) b : outcome (option bool * BloomFilter.t) :=
  match cl with
  | BAdd x => b' ← BloomFilter.add hash x b; Ret (None, b')
  | BContains x => r ← BloomFilter.contains hash x b; Ret (Some r, b)
  | BRemove x => r ← BloomFilter.remove hash x b; Ret (Some r.1, r.2)
  | BDecay shift => Ret (None, BloomFilter.decay shift b)
  | BClear => Ret (None, BloomFilter.clear b)
  end.

Definition bloom_spec_step (m k : Z) (cl : bloom_call T) c : option bool * (Z → Z) :=
  match cl with
  | BAdd x => (None, BloomSpec.add hash m k x c)
  | BContains x => (Some (BloomSpec.contains hash m k x c), c)
  | BRemove x => let r := BloomSpec.remove hash m k x c in (Some r.1, r.2)
  | BDecay shift => (None, BloomSpec.decay shift c)
  | BClear => (None, BloomSpec.empty)
  end.

Fixpoint bloom_run (cls : list (bloom_call T)) b : outcome (list (option bool) * BloomFilter.t) :=
  match cls with
  | [] => Ret ([], b)
  | cl :: cls' => r ← bloom_step cl b; rs ← bloom_run cls' r.2; Ret (r.1 :: rs.1, rs.2)
  end.

Fixpoint bloom_spec_run (m k : Z) (cls : list (bloom_call T)) c : list (option bool) * (Z → Z) :=
  match cls with
  | [] => ([], c)
  | cl :: cls' =>
      let r := bloom_spec_step m k cl c in
      let rs := bloom_spec_run m k cls' r.2 in (r.1 :: rs.1, rs.2)
  end.

(** [shift] is an [unsigned] argument. *)
Definition unsigned_shift (cl : bloom_call T) : Prop :=
  match cl with BDecay shift => 0 ≤ shift | _ => True end.

Lemma bloom_step_refines cl b c :
  unsigned_shift cl → BloomFilter.repr b c →
  let m := BloomFilter.num_slots_ b in let k := BloomFilter.num_hashes_ b in
  ∃ b', bloom_step cl b = Ret ((bloom_spec_step m k cl c).1, b') ∧
    BloomFilter.repr b' (bloom_spec_step m k cl c).2 ∧ BloomFilter.same_shape b b'.
Proof.
  intros Hsh Hb m k. pose proof (BloomFilter.repr_wf _ _ Hb) as Hwf.
  destruct cl as [x|x|x|shift|]; cbn.
  - destruct (BloomFilter.add_loop_ok (BloomFilter.probed hash b x) b c Hb) as (b' & Heq & ? & ?);
      [by apply BloomFilter.probed_range|].
    exists b'. unfold BloomFilter.add. by rewrite Heq.
  - exists b. unfold BloomFilter.contains.
    rewrite (BloomFilter.contains_loop_ok _ b c Hb) by (by apply BloomFilter.probed_range). done.
  - destruct (BloomFilter.remove_loop_ok (BloomFilter.probed hash b x) b c false Hb)
      as (b' & Heq & ? & ?); [by apply BloomFilter.probed_range|].
    exists b'. unfold BloomFilter.remove. by rewrite Heq.
  - eexists. split; [done|]. split; [by apply BloomFilter.decay_ok|].
    unfold BloomFilter.decay, BloomFilter.clear. by repeat case_decide.
  - eexists. split; [done|]. split; [by eapply BloomFilter.clear_ok|done].
Qed.

Lemma bloom_run_refines cls b c :
  Forall unsigned_shift cls → BloomFilter.repr b c →
  let r := bloom_spec_run (BloomFilter.num_slots_ b) (BloomFilter.num_hashes_ b) cls c in
  ∃ b', bloom_run cls b = Ret (r.1, b') ∧ BloomFilter.repr b' r.2 ∧ BloomFilter.same_shape b b'.
Proof.
  intros Hcls. revert b c. induction Hcls as [|cl cls Hcl Hcls IH]; intros b c Hb; [by exists b|].
  destruct (bloom_step_refines cl b c Hcl Hb) as (b1 & Hs & Hb1 & [Hm Hk]). cbn.
  destruct (IH b1 _ Hb1) as (b2 & Hr & Hb2 & [Hm2 Hk2]). rewrite Hs. cbn. rewrite Hr.
  exists b2. cbn. rewrite Hm, Hk in *. split_and!; [done|done|split; congruence].
Qed.

(** *** The multiset a history of additions and removals leaves

    Items are added freely as long as no counter would exceed its 4 bits, and
    only items that are present are removed. *)
Section multiset.
Context `{!EqDecision T} (m k : Z).

(** How often the probes of the items of [l] hit slot [s]. *)
Definition load (l : list T) (s : Z) : Z :=
  Z.of_nat (countb (λ s', bool_decide (s' = s)) (l ≫= probes hash m k)).

Inductive history : list T → list (bloom_call T) → list T → Prop :=
  | history_done l : history l [] l
  | history_add l x cls l' :
      (∀ s, load (x :: l) s ≤ kCounterMax) →
      history (x :: l) cls l' → history l (BAdd x :: cls) l'
  | history_remove l x l1 cls l' :
      l ≡ₚ x :: l1 →
      history l1 cls l' → history l (BRemove x :: cls) l'
  | history_query l x cls l' : history l cls l' → history l (BContains x :: cls) l'.

Abbreviation hits ss s := (Z.of_nat (countb (λ s' : Z, bool_decide (s' = s)) ss)).

Lemma hits_cons (s0 : Z) ss (s : Z) : hits (s0 :: ss) s = (if decide (s = s0) then 1 else 0) + hits ss s.
Proof.
  cbn [countb]. destruct (decide (s = s0)) as [->|].
  - rewrite bool_decide_eq_true_2 by done. cbn [b2n]. lia.
  - rewrite bool_decide_eq_false_2 by congruence. cbn [b2n]. lia.
Qed.

Lemma load_cons x l s : load (x :: l) s = hits (probes hash m k x) s + load l s.
Proof. unfold load. cbn. rewrite countb_app. lia. Qed.

Lemma load_perm l l' s : l ≡ₚ l' → load l s = load l' s.
Proof. intros Hp. unfold load. f_equal. apply countb_perm. by rewrite Hp. Qed.

Lemma load_le l s : 0 ≤ k → load l s ≤ k * Z.of_nat (length l).
Proof.
  intros Hk. induction l as [|x l IH]; [unfold load; cbn; lia|]. rewrite load_cons. cbn [length].
  pose proof (countb_le (λ s', bool_decide (s' = s)) (probes hash m k x)) as Hle.
  unfold probes in Hle. rewrite length_fmap, length_seqZ in Hle. unfold probes at 1. lia.
Qed.

(** What the folds of the specification do to one counter. *)
Lemma add_fold_counter ss c s :
  (∀ s, 0 ≤ c s ≤ kCounterMax) →
  foldl (λ c s, BloomSpec.update s (saturate_inc (c s)) c) c ss s =
    Z.min kCounterMax (c s + hits ss s).
Proof.
  revert c. induction ss as [|s0 ss IH]; intros c Hc; cbn [foldl].
  - cbn. specialize (Hc s). lia.
  - assert (∀ s1, BloomSpec.update s0 (saturate_inc (c s0)) c s1 =
      Z.min kCounterMax (c s1 + if decide (s1 = s0) then 1 else 0)) as Hup.
    { intros s1. specialize (Hc s1). unfold BloomSpec.update, saturate_inc.
      destruct (decide (s1 = s0)) as [->|]; [case_decide|]; lia. }
    rewrite IH; [|intros s1; rewrite Hup; specialize (Hc s1); unfold kCounterMax in *; case_decide; lia].
    rewrite Hup, hits_cons. specialize (Hc s). unfold kCounterMax in *. case_decide; lia.
Qed.

Lemma remove_fold_counter ss c changed :
  (∀ s, hits ss s ≤ c s) →
  let r := foldl (λ r s, if decide (0 < r.2 s) then (true, BloomSpec.update s (r.2 s - 1) r.2)
                         else r) (changed, c) ss in
  (∀ s, r.2 s = c s - hits ss s) ∧ r.1 = changed || negb (bool_decide (ss = [])).
Proof.
  revert c changed. induction ss as [|s0 ss IH]; intros c changed Hc.
  - cbn. split; [intros; lia|]. by rewrite orb_false_r.
  - pose proof (Hc s0) as H0. rewrite hits_cons, decide_True in H0 by done.
    cbn [foldl fst snd]. rewrite decide_True by lia.
    assert (∀ s, BloomSpec.update s0 (c s0 - 1) c s = c s - if decide (s = s0) then 1 else 0) as Hup.
    { intros s. unfold BloomSpec.update. destruct (decide (s = s0)) as [->|]; lia. }
    edestruct (IH (BloomSpec.update s0 (c s0 - 1) c) true) as [IH1 IH2].
    { intros s. rewrite Hup. specialize (Hc s). rewrite hits_cons in Hc. lia. }
    split; [|rewrite IH2; by rewrite orb_true_r].
    intros s. rewrite IH1, Hup, hits_cons. lia.
Qed.

Lemma history_counters l cls l' c :
  history l cls l' → (∀ s, c s = load l s) → (∀ s, load l s ≤ kCounterMax) →
  (∀ s, (bloom_spec_run m k cls c).2 s = load l' s) ∧ (∀ s, load l' s ≤ kCounterMax).
Proof.
  intros Hh. revert c.
  induction Hh as [l|l x cls l' Hfit Hh IH|l x l1 cls l' Hp Hh IH|l x cls l' Hh IH];
    intros c Hc Hmax; cbn; [done|..].
  - apply IH; [|done]. intros s. unfold BloomSpec.add. rewrite add_fold_counter.
    + rewrite Hc. specialize (Hfit s). rewrite load_cons in *. lia.
    + intros s1. rewrite Hc. specialize (Hmax s1). unfold load in *. lia.
  - assert (∀ s, load l s = hits (probes hash m k x) s + load l1 s) as Hl.
    { intros s. rewrite (load_perm _ _ s Hp). apply load_cons. }
    apply IH.
    + intros s. unfold BloomSpec.remove, BloomSpec.remove_slots.
      destruct (remove_fold_counter (probes hash m k x) c false) as [-> _].
      * intros s1. rewrite Hc, Hl. unfold load. lia.
      * rewrite Hc, Hl. lia.
    + intros s. specialize (Hmax s). rewrite Hl in Hmax. lia.
  - by apply IH.
Qed.

Lemma load_elem l x s : x ∈ l → s ∈ probes hash m k x → 0 < load l s.
Proof.
  intros Hx Hs. unfold load. enough (0 < countb (λ s', bool_decide (s' = s)) (l ≫= probes hash m k))%nat by lia.
  assert (s ∈ l ≫= probes hash m k) as Hin by (apply list_elem_of_bind; eauto).
  apply list_elem_of_lookup_1 in Hin as [i Hi].
  eapply countb_pos; [exact Hi|]. by apply bool_decide_eq_true_2.
Qed.
End multiset.
End runs.

(** ** Properties *)

Section properties.
Context {T : Type} (hash : T → Z).
Implicit Types (x : T).

Abbreviation slots b := (BloomFilter.num_slots_ b).
Abbreviation hash_fns b := (BloomFilter.num_hashes_ b).

(** C40: Packing is invisible: for every hash function and every sequence of
    calls on a fresh filter, no byte access is out of range and every answer is
    the one of the unpacked filter with one 0..15 counter per slot, whose decay
    is a right shift of every counter. *)
Theorem bloom_refinement (m_d : Z) (k_d : Z → Z) (cls : list (bloom_call T)) :
  Forall unsigned_shift cls →
  let b := BloomFilter.CountingBloomFilter m_d k_d in
  ∃ b', bloom_run hash cls b =
      Ret ((bloom_spec_run hash (slots b) (hash_fns b) cls BloomSpec.empty).1, b') ∧
    ∀ s, 0 ≤ s < slots b → BloomFilter.get_counter b' s =
      Ret ((bloom_spec_run hash (slots b) (hash_fns b) cls BloomSpec.empty).2 s).
Proof.
  intros Hcls b.
  destruct (bloom_run_refines hash cls b BloomSpec.empty Hcls) as (b' & Hr & Hb' & [Hm _]);
    [apply BloomFilter.ctor_ok|].
  exists b'. split; [done|]. intros s Hs. apply (BloomFilter.repr_counter _ _ Hb'). by rewrite Hm.
Qed.

(** Removal works as long as no counter saturates and only present items
    are removed: after any such history each counter is the exact number of
    probes of the remaining items, so every remaining item is found, and an item
    is reported present exactly when each of its slots is probed by some
    remaining item. *)
Theorem bloom_tracks_multiset `{!EqDecision T} (m_d : Z) (k_d : Z → Z)
    (cls : list (bloom_call T)) (l : list T) :
  let b := BloomFilter.CountingBloomFilter m_d k_d in
  history hash (slots b) (hash_fns b) [] cls l →
  ∃ answers b', bloom_run hash cls b = Ret (answers, b') ∧
    (∀ s, 0 ≤ s < slots b →
       BloomFilter.get_counter b' s = Ret (load hash (slots b) (hash_fns b) l s)) ∧
    (∀ x, x ∈ l → BloomFilter.contains hash x b' = Ret true) ∧
    (∀ x, BloomFilter.contains hash x b' =
       Ret (forallb (λ s, bool_decide (0 < load hash (slots b) (hash_fns b) l s))
                    (probes hash (slots b) (hash_fns b) x))).
Proof.
  intros b Hh.
  assert (Forall unsigned_shift cls) as Hcls by (clear -Hh; induction Hh; by constructor).
  destruct (bloom_run_refines hash cls b BloomSpec.empty Hcls) as (b' & Hr & Hb' & [Hm Hk]);
    [apply BloomFilter.ctor_ok|].
  destruct (history_counters hash (slots b) (hash_fns b) [] cls l BloomSpec.empty Hh)
    as [Hc Hmax]; [done|done|].
  assert (∀ x, BloomFilter.contains hash x b' =
       Ret (forallb (λ s, bool_decide (0 < load hash (slots b) (hash_fns b) l s))
                    (probes hash (slots b) (hash_fns b) x))) as Hcontains.
  { intros x. unfold BloomFilter.contains.
    erewrite (BloomFilter.contains_loop_ok _ b' _ Hb')
      by (apply BloomFilter.probed_range, (BloomFilter.repr_wf _ _ Hb')).
    unfold BloomFilter.probed. rewrite Hm, Hk. f_equal.
    apply forallb_pointwise. intros s. rewrite Hc. unfold load. case_bool_decide as Hd.
    - by rewrite (proj2 (Z.eqb_neq _ _)) by lia.
    - by rewrite (proj2 (Z.eqb_eq _ _)) by lia. }
  eexists _, b'. split; [exact Hr|]. split_and!; [|intros x Hx|exact Hcontains].
  - intros s Hs. rewrite (BloomFilter.repr_counter _ _ Hb') by (by rewrite Hm). by rewrite Hc.
  - rewrite Hcontains. f_equal. apply forallb_forall. intros s Hs. apply bool_decide_eq_true.
    eapply load_elem; [done|]. by apply list_elem_of_In.
Qed.

Lemma spec_adds_keep m k x c ys :
  (∀ s, 0 ≤ c s ≤ kCounterMax) → BloomSpec.contains hash m k x c = true →
  BloomSpec.contains hash m k x (bloom_spec_run hash m k (BAdd <$> ys) c).2 = true.
Proof.
  revert c. induction ys as [|y ys IH]; intros c Hc Hx; cbn; [done|].
  assert (∀ s, BloomSpec.add hash m k y c s =
    Z.min kCounterMax (c s + Z.of_nat (countb (λ s' : Z, bool_decide (s' = s)) (probes hash m k y))))
    as Hadd by (intros s; by apply add_fold_counter).
  apply IH.
  - intros s. rewrite Hadd. specialize (Hc s). unfold kCounterMax in *. lia.
  - unfold BloomSpec.contains in *. rewrite forallb_forall in Hx |- *. intros s Hs.
    specialize (Hx s Hs). rewrite Hadd. specialize (Hc s). unfold kCounterMax in *.
    rewrite negb_true_iff, Z.eqb_neq in *. lia.
Qed.

Lemma spec_add_present m k x c :
  (∀ s, 0 ≤ c s ≤ kCounterMax) → BloomSpec.contains hash m k x (BloomSpec.add hash m k x c) = true.
Proof.
  intros Hc. unfold BloomSpec.contains, BloomSpec.add. apply forallb_forall. intros s Hs.
  rewrite add_fold_counter by done. apply list_elem_of_In, list_elem_of_lookup_1 in Hs as [i Hi].
  assert (0 < countb (λ s' : Z, bool_decide (s' = s)) (probes hash m k x))%nat.
  { eapply countb_pos; [exact Hi|]. by apply bool_decide_eq_true_2. }
  specialize (Hc s). unfold kCounterMax in *. rewrite negb_true_iff, Z.eqb_neq. lia.
Qed.

Lemma spec_run_range m k cls c :
  Forall unsigned_shift cls → (∀ s, 0 ≤ c s ≤ kCounterMax) →
  ∀ s, 0 ≤ (bloom_spec_run hash m k cls c).2 s ≤ kCounterMax.
Proof.
  intros Hcls. revert c. induction Hcls as [|cl cls Hcl Hcls IH]; intros c Hc; cbn; [done|].
  apply IH. destruct cl as [x|x|x|shift|]; cbn; [|done| | |done].
  - intros s. unfold BloomSpec.add. rewrite add_fold_counter by done.
    specialize (Hc s). unfold kCounterMax in *. lia.
  - unfold BloomSpec.remove, BloomSpec.remove_slots. generalize false.
    induction (probes _ _ _ x) as [|s0 ss IHss] in c, Hc |- *; intros ch; cbn; [done|].
    destruct (decide (0 < c s0)); [|by apply IHss]. apply IHss.
    intros s. pose proof (Hc s0). specialize (Hc s). unfold BloomSpec.update.
    destruct (decide (s = s0)); lia.
  - intros s. specialize (Hc s). unfold BloomSpec.decay, kCounterMax in *. cbn in Hcl.
    rewrite Z.shiftr_div_pow2 by done. split; [apply Z.div_pos; lia|].
    apply Z.div_le_upper_bound; [lia|]. nia.
Qed.

Lemma spec_run_app m k cls1 cls2 c :
  (bloom_spec_run hash m k (cls1 ++ cls2) c).2 =
  (bloom_spec_run hash m k cls2 (bloom_spec_run hash m k cls1 c).2).2.
Proof. revert c. induction cls1 as [|cl cls1 IH]; intros c; cbn; [done|]. apply IH. Qed.

(** The membership test at the end of a run, in terms of the specification. *)
Lemma run_contains m_d k_d cls x :
  Forall unsigned_shift cls →
  let b := BloomFilter.CountingBloomFilter m_d k_d in
  ∃ answers b', bloom_run hash cls b = Ret (answers, b') ∧
    BloomFilter.contains hash x b' = Ret (BloomSpec.contains hash (slots b) (hash_fns b) x
      (bloom_spec_run hash (slots b) (hash_fns b) cls BloomSpec.empty).2).
Proof.
  intros Hcls b.
  destruct (bloom_run_refines hash cls b BloomSpec.empty Hcls) as (b' & Hr & Hb' & [Hm Hk]);
    [apply BloomFilter.ctor_ok|].
  eexists _, b'. split; [exact Hr|]. unfold BloomFilter.contains.
  erewrite (BloomFilter.contains_loop_ok _ b' _ Hb')
    by (apply BloomFilter.probed_range, (BloomFilter.repr_wf _ _ Hb')).
  unfold BloomFilter.probed. by rewrite Hm, Hk.
Qed.

(** No false negatives, saturated or not: whatever happened before, an item
    that is added is reported present after any number of further additions. *)
Theorem bloom_no_false_negatives (m_d : Z) (k_d : Z → Z) (cls : list (bloom_call T)) x (ys : list T) :
  Forall unsigned_shift cls →
  ∃ answers b', bloom_run hash (cls ++ BAdd x :: (BAdd <$> ys))
      (BloomFilter.CountingBloomFilter m_d k_d) = Ret (answers, b') ∧
    BloomFilter.contains hash x b' = Ret true.
Proof.
  intros Hcls. destruct (run_contains m_d k_d (cls ++ BAdd x :: (BAdd <$> ys)) x) as (a & b' & Hr & Hc).
  { apply Forall_app. split; [done|]. constructor; [done|]. by apply Forall_fmap, Forall_true. }
  exists a, b'. split; [done|]. rewrite Hc, spec_run_app. f_equal.
  cbn [bloom_spec_run bloom_spec_step snd].
  set (b := BloomFilter.CountingBloomFilter m_d k_d).
  assert (∀ s, 0 ≤ (bloom_spec_run hash (slots b) (hash_fns b) cls BloomSpec.empty).2 s
               ≤ kCounterMax) as Hrange.
  { apply spec_run_range; [done|]. unfold kCounterMax, BloomSpec.empty. lia. }
  apply spec_adds_keep; [|by apply spec_add_present].
  intros s. unfold BloomSpec.add. rewrite add_fold_counter by done.
  specialize (Hrange s). unfold kCounterMax in *. lia.
Qed.

Lemma spec_decays m k n c s :
  (∀ s, 0 ≤ c s) →
  (bloom_spec_run hash m k (replicate n (BDecay 1)) c).2 s = c s `div` 2 ^ Z.of_nat n.
Proof.
  revert c. induction n as [|n IH]; intros c Hc; cbn [replicate bloom_spec_run bloom_spec_step snd].
  - by rewrite Z.div_1_r.
  - rewrite IH by (intros s'; unfold BloomSpec.decay; rewrite Z.shiftr_div_pow2 by lia;
                   apply Z.div_pos; [apply Hc|lia]).
    unfold BloomSpec.decay. rewrite Z.shiftr_div_pow2 by lia.
    rewrite Z.div_div by lia. f_equal. rewrite Nat2Z.inj_succ, Z.pow_succ_r by lia. lia.
Qed.

(** Expiry: after [n] halvings an item is still present exactly when each of
    its counters had reached [2^n], and four halvings expire everything. *)
Theorem bloom_decay_expiry (m_d : Z) (k_d : Z → Z) (cls : list (bloom_call T)) x (n : nat) :
  Forall unsigned_shift cls →
  let b := BloomFilter.CountingBloomFilter m_d k_d in
  ∃ a0 b0 a1 b1 r, bloom_run hash cls b = Ret (a0, b0) ∧
    bloom_run hash (cls ++ replicate n (BDecay 1)) b = Ret (a1, b1) ∧
    BloomFilter.contains hash x b1 = Ret r ∧
    (r = true ↔ ∀ s c, s ∈ probes hash (slots b) (hash_fns b) x →
       BloomFilter.get_counter b0 s = Ret c → 2 ^ Z.of_nat n ≤ c) ∧
    ((4 ≤ n)%nat → r = false).
Proof.
  intros Hcls b. pose proof (BloomFilter.ctor_ok m_d k_d) as Hb. fold b in Hb.
  pose proof (BloomFilter.probed_range hash b x (BloomFilter.repr_wf _ _ Hb)) as Hps.
  rewrite Forall_forall in Hps.
  destruct (bloom_run_refines hash cls b BloomSpec.empty Hcls Hb) as (b0 & Hr0 & Hb0 & [Hm0 _]).
  destruct (run_contains m_d k_d (cls ++ replicate n (BDecay 1)) x) as (a1 & b1 & Hr1 & Hc1).
  { apply Forall_app. split; [done|]. by apply Forall_replicate. }
  set (c0 := (bloom_spec_run hash (slots b) (hash_fns b) cls BloomSpec.empty).2) in *.
  assert (∀ s, 0 ≤ c0 s ≤ kCounterMax) as Hrange.
  { apply spec_run_range; [done|]. unfold kCounterMax, BloomSpec.empty. lia. }
  eexists _, b0, a1, b1, _. split; [exact Hr0|]. split; [exact Hr1|]. split; [exact Hc1|].
  rewrite spec_run_app. fold b c0. unfold BloomSpec.contains.
  rewrite (forallb_pointwise _ (λ s, bool_decide (2 ^ Z.of_nat n ≤ c0 s))).
  2: { intros s. rewrite spec_decays by apply Hrange. destruct (Hrange s).
       case_bool_decide as Hd; cbn beta in *.
       - rewrite negb_true_iff, Z.eqb_neq. assert (1 ≤ c0 s `div` 2 ^ Z.of_nat n); [|lia].
         apply Z.div_le_lower_bound; lia.
       - rewrite negb_false_iff, Z.eqb_eq. apply Z.div_small. lia. }
  split.
  - rewrite forallb_forall. split.
    + intros Hall s c Hs Hg. specialize (Hps s Hs).
      rewrite (BloomFilter.repr_counter _ _ Hb0) in Hg by (by rewrite Hm0). injection Hg as <-.
      eapply bool_decide_eq_true, Hall. by apply list_elem_of_In.
    + intros Hall s Hs. apply list_elem_of_In in Hs. apply bool_decide_eq_true.
      apply (Hall s); [done|]. apply (BloomFilter.repr_counter _ _ Hb0). rewrite Hm0. by apply Hps.
  - intros Hn. apply not_true_is_false. rewrite forallb_forall. intros Hall.
    assert (∃ s, s ∈ probes hash (slots b) (hash_fns b) x) as [s Hs].
    { eexists. unfold probes. apply list_elem_of_fmap. exists 0. split; [done|].
      apply elem_of_seqZ. pose proof (BloomFilter.wf_hashes _ (BloomFilter.repr_wf _ _ Hb)). lia. }
    apply list_elem_of_In, Hall, bool_decide_eq_true in Hs. destruct (Hrange s).
    assert (2 ^ 4 ≤ 2 ^ Z.of_nat n) by (apply Z.pow_le_mono_r; lia). unfold kCounterMax in *. lia.
Qed.

(** Removing an item that was never added is not harmless: with two probes
    per item in four slots, item 2 is reported absent, its removal nevertheless
    succeeds, and item 1, which was added and not removed, is then reported
    absent. *)
Theorem bloom_remove_absent_corrupts :
  ∃ b, bloom_run (T:=Z) (λ z, z) [BAdd 1; BContains 2; BRemove 2; BContains 1]
         (BloomFilter.CountingBloomFilter 4 (λ _, 2)) =
       Ret ([None; Some false; Some true; Some false], b).
Proof. eexists. vm_compute. reflexivity. Qed.
End properties.

(** ** Witnesses: [std::hash] instantiated by the identity on integers *)

Lemma bloom_refinement_witness :
  let b := BloomFilter.CountingBloomFilter 5 (λ _, 3) in
  let cls := [BAdd 7; BContains 7; BDecay 1; BContains 7] in
  ∃ b', bloom_run (λ z, z) cls b =
      Ret ((bloom_spec_run (λ z, z) 6 3 cls BloomSpec.empty).1, b') ∧
    ∀ s, 0 ≤ s < 6 → BloomFilter.get_counter b' s =
      Ret ((bloom_spec_run (λ z, z) 6 3 cls BloomSpec.empty).2 s).
Proof. apply (bloom_refinement (λ z, z) 5 (λ _, 3)). repeat constructor; cbn; lia. Defined.

Lemma bloom_tracks_multiset_witness :
  ∃ answers b', bloom_run (λ z, z) [BAdd 7; BAdd 9; BRemove 7]
      (BloomFilter.CountingBloomFilter 5 (λ _, 3)) = Ret (answers, b') ∧
    BloomFilter.contains (λ z, z) 9 b' = Ret true.
Proof.
  destruct (bloom_tracks_multiset (λ z, z) 5 (λ _, 3) [BAdd 7; BAdd 9; BRemove 7] [9])
    as (a & b' & Hr & _ & Hin & _).
  - apply history_add.
    { intros s. etrans; [apply load_le; vm_compute; discriminate|]. vm_compute. discriminate. }
    apply history_add.
    { intros s. etrans; [apply load_le; vm_compute; discriminate|]. vm_compute. discriminate. }
    eapply history_remove; [apply perm_swap|]. apply history_done.
  - exists a, b'. split; [exact Hr|]. apply Hin. apply list_elem_of_singleton. reflexivity.
Defined.

Lemma bloom_no_false_negatives_witness :
  ∃ answers b', bloom_run (λ z, z) [BAdd 3; BDecay 2; BAdd 7; BAdd 8]
      (BloomFilter.CountingBloomFilter 5 (λ _, 3)) = Ret (answers, b') ∧
    BloomFilter.contains (λ z, z) 7 b' = Ret true.
Proof.
  apply (bloom_no_false_negatives (λ z, z) 5 (λ _, 3) [BAdd 3; BDecay 2] 7 [8]).
  repeat constructor; cbn; lia.
Defined.

Lemma bloom_decay_expiry_witness :
  ∃ a1 b1, bloom_run (λ z, z) [BAdd 3; BDecay 1; BDecay 1; BDecay 1; BDecay 1]
      (BloomFilter.CountingBloomFilter 5 (λ _, 3)) = Ret (a1, b1) ∧
    BloomFilter.contains (λ z, z) 3 b1 = Ret false.
Proof.
  destruct (bloom_decay_expiry (λ z, z) 5 (λ _, 3) [BAdd 3] 3 4)
    as (a0 & b0 & a1 & b1 & r & _ & Hr & Hc & _ & Hf); [repeat constructor|].
  exists a1, b1. split; [exact Hr|]. rewrite Hc. f_equal. apply Hf. lia.
Defined.
