(* ===== verification/BloomEstimate.v ===== *)
(** * The estimate of the Bloom filter (src/muses/bloom_filter.hpp, approximate_count)

    The number of counters that are zero, as the loop over the packed bytes counts
    them, and the formula of Swamidass and Baldi.  The formula is evaluated over the
    real numbers, without the rounding of [double]; the logarithm of zero is minus
    infinity, as in the C library. *)

From Stdlib Require Import Reals Lra.
From S2P Require Import Prelude BloomFilter.
Local Open Scope Z_scope.

Inductive estimate : Type :=
  | Count (n : R)
  | Infinity.

(** [m] slots, [k] hash functions, [zeros] counters that are zero. *)
Definition formula (m k zeros : Z) : estimate :=
  if decide (zeros = m) then Count 0
  else if decide (zeros = 0) then Infinity
  else Count (- (IZR m / IZR k) * ln (IZR zeros / IZR m))%R.

Definition approximate_count (b : BloomFilter.t) : estimate :=
  formula (BloomFilter.num_slots_ b) (BloomFilter.num_hashes_ b) (BloomFilter.zero_nibbles (BloomFilter.bytes_ b)).

Definition est_le (e e' : estimate) : Prop :=
  match e, e' with
  | Count n, Count n' => (n <= n')%R
  | _, Infinity => True
  | Infinity, Count _ => False
  end.

(** ** The formula *)

Lemma ln_below x : (0 < x → ln x <= x - 1)%R.
Proof. intros Hx. pose proof (exp_ineq1_le (ln x)) as He. rewrite exp_ln in He by done. lra. Qed.

Section formula.
Context (m k : Z) (Hm : 0 < m) (Hk : 0 < k).

Lemma slots_pos : (0 < IZR m)%R ∧ (0 < IZR k)%R.
Proof. split; by apply (IZR_lt 0). Qed.

Lemma ratio_pos : (0 < IZR m / IZR k)%R.
Proof. destruct slots_pos. by apply Rdiv_lt_0_compat. Qed.

Lemma fraction_pos z : 0 < z → (0 < IZR z / IZR m)%R.
Proof. intros Hz. destruct slots_pos. apply Rdiv_lt_0_compat; [by apply (IZR_lt 0)|done]. Qed.

(** At least the counters in use, divided by the counters of one item. *)
Lemma formula_below z : 0 < z ≤ m →
  (IZR (m - z) / IZR k <= - (IZR m / IZR k) * ln (IZR z / IZR m))%R.
Proof.
  intros Hz. destruct slots_pos as [Hm' Hk']. pose proof ratio_pos as Hr.
  pose proof (ln_below _ (fraction_pos z (proj1 Hz))) as Hl.
  replace (IZR (m - z) / IZR k)%R with (- (IZR m / IZR k) * (IZR z / IZR m - 1))%R
    by (rewrite minus_IZR; field; split; lra).
  nra.
Qed.

Lemma formula_mono z z' : 0 ≤ z' ≤ z → z ≤ m → est_le (formula m k z) (formula m k z').
Proof.
  intros Hz Hzm. unfold formula. destruct (decide (z = m)) as [->|Hne].
  - destruct (decide (z' = m)); [cbn; lra|]. destruct (decide (z' = 0)) as [|Hz0]; [done|].
    assert (0 < z' ≤ m) as Hr by lia. pose proof (formula_below z' Hr) as Hb.
    destruct slots_pos as [_ Hk']. assert (0 <= IZR (m - z') / IZR k)%R.
    { apply Rle_mult_inv_pos; [apply (IZR_le 0); lia|done]. }
    cbn. lra.
  - rewrite (decide_False (P := z' = m)) by lia.
    destruct (decide (z' = 0)) as [->|Hz0]; [by destruct (decide (z = 0))|].
    rewrite decide_False by lia. cbn. pose proof ratio_pos as Hr.
    assert (ln (IZR z' / IZR m) <= ln (IZR z / IZR m))%R as Hl; [|nra].
    destruct (decide (z' = z)) as [->|Hzz]; [lra|]. left. apply ln_increasing; [apply fraction_pos; lia|].
    destruct slots_pos. apply Rmult_lt_compat_r; [by apply Rinv_0_lt_compat|apply IZR_lt; lia].
Qed.

Lemma formula_zero z : 0 ≤ z ≤ m → formula m k z = Count 0 ↔ z = m.
Proof.
  intros Hz. unfold formula. destruct (decide (z = m)) as [|Hne]; [done|].
  destruct (decide (z = 0)) as [|Hz0]; [done|]. split; [|done]. intros [= E].
  assert (0 < z ≤ m) as Hr by lia. pose proof (formula_below z Hr) as Hb.
  destruct slots_pos as [_ Hk']. assert (0 < IZR (m - z) / IZR k)%R.
  { apply Rdiv_lt_0_compat; [apply (IZR_lt 0); lia|done]. }
  lra.
Qed.
End formula.

(** ** The counting loop *)

Definition zeros (m : Z) (c : Z → Z) : Z := Z.of_nat (length (filter (λ s, c s = 0) (seqZ 0 m))).

Lemma zero_nibbles_count bs : ∀ i (c : Z → Z),
  (∀ j x, bs !! j = Some x → c (i + 2 * Z.of_nat j) = BloomFilter.low x ∧ c (i + 2 * Z.of_nat j + 1) = BloomFilter.high x) →
  BloomFilter.zero_nibbles bs = Z.of_nat (length (filter (λ s, c s = 0) (seqZ i (2 * Z.of_nat (length bs))))).
Proof.
  induction bs as [|x bs IH]; intros i c Hc; [done|]. cbn [BloomFilter.zero_nibbles length].
  destruct (Hc 0%nat x eq_refl) as [Hlo Hhi]. rewrite Z.add_0_r in Hlo, Hhi.
  rewrite (IH (i + 2) c).
  2:{ intros j y Hy. specialize (Hc (S j) y Hy).
      replace (i + 2 * Z.of_nat (S j)) with (i + 2 + 2 * Z.of_nat j) in Hc by lia. done. }
  rewrite (seqZ_cons i), (seqZ_cons (Z.succ i)) by lia.
  replace (Z.succ (Z.succ i)) with (i + 2) by lia.
  replace (Z.pred (Z.pred (2 * Z.of_nat (S (length bs))))) with (2 * Z.of_nat (length bs)) by lia.
  rewrite !filter_cons. replace (Z.succ i) with (i + 1) by lia. rewrite Hlo, Hhi.
  unfold BloomFilter.low, BloomFilter.high. repeat case_decide; cbn [length]; lia.
Qed.

Lemma zero_nibbles_repr b c : BloomFilter.repr b c →
  BloomFilter.zero_nibbles (BloomFilter.bytes_ b) = zeros (BloomFilter.num_slots_ b) c.
Proof.
  intros [Hwf Hc _]. destruct (Hwf) as [He Hs _ Hl _]. rewrite (zero_nibbles_count _ 0 c).
  - unfold zeros. do 4 f_equal. rewrite Hl. Z.to_euclidean_division_equations. lia.
  - intros j x Hx. pose proof (lookup_lt_Some _ _ _ Hx) as Hj.
    assert (Z.of_nat j < BloomFilter.num_slots_ b `div` 2) as Hj' by lia.
    assert (2 * Z.of_nat j + 1 < BloomFilter.num_slots_ b) as Hj2 by (Z.to_euclidean_division_equations; lia).
    assert ((2 * Z.of_nat j) `div` 2 = Z.of_nat j ∧ (2 * Z.of_nat j) `mod` 2 = 0 ∧
            (2 * Z.of_nat j + 1) `div` 2 = Z.of_nat j ∧ (2 * Z.of_nat j + 1) `mod` 2 ≠ 0) as (D0 & M0 & D1 & M1)
      by (Z.to_euclidean_division_equations; lia).
    rewrite Z.add_0_l. split.
    + specialize (Hc (2 * Z.of_nat j) ltac:(lia)). rewrite (BloomFilter.get_counter_byte b _ x) in Hc
        by (by rewrite D0, Nat2Z.id). rewrite decide_True in Hc by done. congruence.
    + specialize (Hc (2 * Z.of_nat j + 1) ltac:(lia)). rewrite (BloomFilter.get_counter_byte b _ x) in Hc
        by (by rewrite D1, Nat2Z.id). rewrite decide_False in Hc by done. congruence.
Qed.

Lemma zeros_range m c : 0 ≤ m → 0 ≤ zeros m c ≤ m.
Proof.
  intros Hm. unfold zeros. pose proof (length_filter (λ s, c s = 0) (seqZ 0 m)) as Hl.
  rewrite length_seqZ in Hl. lia.
Qed.

Lemma filter_all {A} (P : A → Prop) `{∀ x, Decision (P x)} l : length (filter P l) = length l ↔ Forall P l.
Proof.
  induction l as [|x l IH]; [by split; [constructor|]|]. rewrite filter_cons, Forall_cons.
  pose proof (length_filter P l). case_decide; cbn; [|split; [lia|tauto]]. rewrite <- IH. split; [intros; split; [done|lia]|lia].
Qed.

Lemma zeros_all m c : 0 ≤ m → zeros m c = m ↔ ∀ s, 0 ≤ s < m → c s = 0.
Proof.
  intros Hm. unfold zeros.
  assert (Z.of_nat (length (filter (λ s, c s = 0) (seqZ 0 m))) = m ↔
          length (filter (λ s, c s = 0) (seqZ 0 m)) = length (seqZ 0 m)) as -> by (rewrite length_seqZ; lia).
  rewrite filter_all, Forall_forall. by setoid_rewrite elem_of_seqZ.
Qed.

Lemma filter_antitone {A} (P Q : A → Prop) `{∀ x, Decision (P x), ∀ x, Decision (Q x)} l :
  (∀ x, x ∈ l → Q x → P x) → (length (filter Q l) ≤ length (filter P l))%nat.
Proof.
  induction l as [|x l IH]; intros HQP; [done|]. rewrite !filter_cons.
  assert (length (filter Q l) ≤ length (filter P l))%nat by (apply IH; intros y Hy; apply HQP; by right).
  destruct (decide (Q x)) as [Hq|]; [rewrite decide_True by (apply HQP; [left|done]); cbn; lia|]. case_decide; cbn; lia.
Qed.

Lemma zeros_none m c : 0 ≤ m → zeros m c = 0 ↔ ∀ s, 0 ≤ s < m → c s ≠ 0.
Proof.
  intros Hm. unfold zeros. split.
  - intros Hz s Hs E. assert (s ∈ filter (λ s, c s = 0) (seqZ 0 m)) as Hin.
    { apply list_elem_of_filter. split; [done|]. apply elem_of_seqZ. lia. }
    destruct (filter _ _); [by apply elem_of_nil in Hin|cbn in Hz; lia].
  - intros Hc. destruct (filter (λ s, c s = 0) (seqZ 0 m)) as [|s l] eqn:E; [done|].
    assert (s ∈ filter (λ s, c s = 0) (seqZ 0 m)) as Hin by (rewrite E; left).
    apply list_elem_of_filter in Hin as [H0 Hs%elem_of_seqZ]. by destruct (Hc s).
Qed.

(** A counter in use stays in use when others are incremented. *)
Lemma add_keeps_used m ss : ∀ c s, Forall (λ s, 0 ≤ s < m) ss → (∀ s, 0 ≤ s < m → 0 ≤ c s) → 0 ≤ s < m → c s ≠ 0 →
  foldl (λ c s, BloomSpec.update s (saturate_inc (c s)) c) c ss s ≠ 0.
Proof.
  induction ss as [|s0 ss IH]; intros c s Hss Hc Hr Hs; [done|]. apply Forall_cons in Hss as [Hs0 Hss]. cbn [foldl].
  apply IH; try done; unfold BloomSpec.update, saturate_inc, kCounterMax.
  - intros s1 Hs1. pose proof (Hc s0 Hs0). pose proof (Hc s1 Hs1). repeat case_decide; lia.
  - pose proof (Hc s0 Hs0). repeat case_decide; lia.
Qed.

(** The estimate is what its formula promises: it counts the zero counters of the
    packed bytes exactly; it is 0 exactly for the empty filter and infinite exactly
    when every counter is in use; otherwise it is at least the number of counters in
    use divided by the counters of one item; and adding an item never lowers it. *)
Theorem bloom_estimate {T} (hash : T → Z) b c x :
  BloomFilter.repr b c →
  let m := BloomFilter.num_slots_ b in
  (approximate_count b = Count 0 ↔ ∀ s, 0 ≤ s < m → c s = 0) ∧
  (approximate_count b = Infinity ↔ ∀ s, 0 ≤ s < m → c s ≠ 0) ∧
  (∀ n, approximate_count b = Count n → IZR (m - zeros m c) / IZR (BloomFilter.num_hashes_ b) <= n)%R ∧
  ∃ b', BloomFilter.add hash x b = Ret b' ∧ est_le (approximate_count b) (approximate_count b').
Proof.
  intros Hb m. destruct (BloomFilter.repr_wf _ _ Hb) as [_ Hm Hk _ _]. fold m in Hm.
  set (k := BloomFilter.num_hashes_ b) in *.
  assert (approximate_count b = formula m k (zeros m c)) as Hest
    by (unfold approximate_count; by rewrite (zero_nibbles_repr b c Hb)).
  pose proof (zeros_range m c ltac:(lia)) as Hz. rewrite Hest. split_and!.
  - rewrite formula_zero by lia. apply zeros_all. lia.
  - rewrite <- (zeros_none m c) by lia. unfold formula. repeat case_decide; split; try done; lia.
  - intros n. unfold formula. destruct (decide (zeros m c = m)) as [->|Hne].
    + intros [= <-]. rewrite Z.sub_diag. unfold Rdiv. lra.
    + destruct (decide (zeros m c = 0)); [done|]. intros [= <-]. apply formula_below; lia.
  - destruct (BloomFilter.add_loop_ok (BloomFilter.probed hash b x) b c Hb) as (b' & Ha & [Hm' Hk'] & Hb');
      [by apply BloomFilter.probed_range, Hb|].
    exists b'. split; [exact Ha|]. unfold approximate_count. rewrite (zero_nibbles_repr b' _ Hb'), Hm', Hk'.
    apply formula_mono; [lia..| |lia]. split; [apply zeros_range; lia|].
    unfold zeros. apply inj_le, filter_antitone. intros s Hs%elem_of_seqZ H0. apply dec_stable. intros Hne.
    revert H0. apply (add_keeps_used m); [by apply BloomFilter.probed_range, Hb| |lia|done].
    intros s1 Hs1. by apply (BloomFilter.repr_range _ _ Hb).
Qed.

Lemma bloom_estimate_witness :
  approximate_count (BloomFilter.CountingBloomFilter 8 (λ _, 2)) = Count 0.
Proof. apply (bloom_estimate (λ x : Z, x) _ _ 0 (BloomFilter.ctor_ok 8 (λ _, 2))). reflexivity. Defined.
