(* ===== verification/MemoryPool.v ===== *)
(** * [MemoryPool] (src/muses/memory_pool.hpp): data model and operations

    A size-classed allocator.  The model keeps the program's addresses: the
    arena is an address range, a block is a 32-byte header followed by its usable
    region, a free block stores the link of its free-list in the first word of
    the usable region, and blocks that do not come from the arena are obtained
    from [operator new].

    Memory is typed: [headers] holds the [BlockHeader] objects by address, [mem]
    holds bytes and free-list links of usable regions, [news] is the record the
    global allocator keeps of its blocks.  An access to an object that is not
    there is undefined behaviour ([UB]); a failed [MUSES_ASSERT] is [Abort]; an
    exhausted global allocator is [BadAlloc].

    [operator new] is not part of the program: each call of [allocate] receives
    the address it would return ([None]: it throws).  The operations here are
    those of one thread at a time, every one under the lock of its bin. *)

From S2P Require Import Prelude.
Local Open Scope Z_scope.

Definition MAGIC : Z := 0x4D555345.
Definition ESCAPED : Z := 0xFFFF.

(** [sizeof(BlockHeader)]: four 32-bit words and the count, padded to the
    alignment of [std::max_align_t]. *)
Definition sizeof_header : Z := 32.
Definition max_align : Z := 16.

Definition nullptr : Z := 0.

Record BlockHeader : Type := mkHeader {
  magic : Z;
  size_class : Z;
  slot_size : Z;
  refcount : Z
}.

Record Bin : Type := mkBin {
  head : Z;
  free_count : Z
}.

(** An object in a usable region: a byte of user data, or a free-list link. *)
Inductive obj : Type :=
  | Byte (b : Z)
  | Link (p : Z).

#[export] Instance BlockHeader_eq_dec : EqDecision BlockHeader.
Proof. solve_decision. Defined.
#[export] Instance Bin_eq_dec : EqDecision Bin.
Proof. solve_decision. Defined.
#[export] Instance obj_eq_dec : EqDecision obj.
Proof. solve_decision. Defined.

Record pool : Type := mkPool {
  classes_ : list Z;
  bins_ : list Bin;
  arena_base : Z;
  arena_bytes_ : Z;
  bump_ : Z;
  live : Z;
  escaped : Z;
  overflow_dropped : Z;
  headers : gmap Z BlockHeader;
  mem : gmap Z obj;
  news : gmap Z Z
}.

(** ** The monad of the pool's methods *)

Inductive res (A : Type) : Type :=
  | Ok (a : A) (s : pool)
  | BadAlloc (s : pool)
  | Abort
  | UB.
Arguments Ok {A} a s.
Arguments BadAlloc {A} s.
Arguments Abort {A}.
Arguments UB {A}.

Definition M (A : Type) : Type := pool → res A.

#[export] Instance M_ret : MRet M := λ A a s, Ok a s.
#[export] Instance M_bind : MBind M := λ A B f m s,
  match m s with
  | Ok a s' => f a s'
  | BadAlloc s' => BadAlloc s'
  | Abort => Abort
  | UB => UB
  end.

Definition gets {A} (f : pool → A) : M A := λ s, Ok (f s) s.
Definition modify (f : pool → pool) : M () := λ s, Ok () (f s).
Definition throw_bad_alloc {A} : M A := λ s, BadAlloc s.
Definition MUSES_ASSERT (b : bool) : M () := λ s, if b then Ok () s else Abort.
Definition valid {A} (o : option A) : M A := λ s, match o with Some a => Ok a s | None => UB end.

(** ** Field updates *)

Definition set_bins (b : list Bin) (s : pool) : pool :=
  mkPool (classes_ s) b (arena_base s) (arena_bytes_ s) (bump_ s) (live s) (escaped s)
    (overflow_dropped s) (headers s) (mem s) (news s).
Definition set_bump (z : Z) (s : pool) : pool :=
  mkPool (classes_ s) (bins_ s) (arena_base s) (arena_bytes_ s) z (live s) (escaped s)
    (overflow_dropped s) (headers s) (mem s) (news s).
Definition set_live (z : Z) (s : pool) : pool :=
  mkPool (classes_ s) (bins_ s) (arena_base s) (arena_bytes_ s) (bump_ s) z (escaped s)
    (overflow_dropped s) (headers s) (mem s) (news s).
Definition set_escaped (z : Z) (s : pool) : pool :=
  mkPool (classes_ s) (bins_ s) (arena_base s) (arena_bytes_ s) (bump_ s) (live s) z
    (overflow_dropped s) (headers s) (mem s) (news s).
Definition set_headers (h : gmap Z BlockHeader) (s : pool) : pool :=
  mkPool (classes_ s) (bins_ s) (arena_base s) (arena_bytes_ s) (bump_ s) (live s) (escaped s)
    (overflow_dropped s) h (mem s) (news s).
Definition set_mem (m : gmap Z obj) (s : pool) : pool :=
  mkPool (classes_ s) (bins_ s) (arena_base s) (arena_bytes_ s) (bump_ s) (live s) (escaped s)
    (overflow_dropped s) (headers s) m (news s).
Definition set_news (n : gmap Z Z) (s : pool) : pool :=
  mkPool (classes_ s) (bins_ s) (arena_base s) (arena_bytes_ s) (bump_ s) (live s) (escaped s)
    (overflow_dropped s) (headers s) (mem s) n.

(** ** Helpers of the source *)

Definition header_of (user : Z) : Z := user - sizeof_header.

(** [(n + align - 1) & ~(align - 1)] *)
Definition round_up (n align : Z) : Z := Z.land (n +64 (align - 1)) (Z.lnot (align - 1)).

(** Keep the objects of [m] that lie outside [[a, a + n)]. *)
Definition outside (a n : Z) (m : gmap Z obj) : gmap Z obj :=
  filter (λ kv, ¬ (a ≤ kv.1 < a + n)) m.

Definition read_header (h : Z) : M BlockHeader := hs ← gets headers; valid (hs !! h).
Definition write_header (h : Z) (v : BlockHeader) : M () :=
  modify (λ s, set_headers (<[h := v]> (headers s)) s).

Definition init_header (h idx slot_size : Z) : M () :=
  write_header h (mkHeader MAGIC (wrap32 idx) (wrap32 slot_size) 1).

Definition check_magic (h : Z) : M () :=
  hd ← read_header h; MUSES_ASSERT (bool_decide (magic hd = MAGIC)).

(** Writing a link replaces the eight bytes of the word. *)
Definition write_link (slot v : Z) : M () :=
  modify (λ s, set_mem (<[slot := Link v]> (outside slot 8 (mem s))) s).
Definition read_link (slot : Z) : M Z :=
  m ← gets mem;
  valid (match m !! slot with Some (Link p) => Some p | _ => None end).

Definition get_bin (i : Z) : M Bin := bs ← gets bins_; valid (bs !! Z.to_nat i).
Definition put_bin (i : Z) (b : Bin) : M () :=
  modify (λ s, set_bins (<[Z.to_nat i := b]> (bins_ s)) s).

Definition push_free (i slot : Z) : M () :=
  bin ← get_bin i;
  _ ← write_link slot (head bin);
  put_bin i (mkBin slot (free_count bin +64 1)).

Definition pop_free (i : Z) : M Z :=
  bin ← get_bin i;
  if decide (head bin = nullptr) then mret nullptr else
  let slot := head bin in
  next ← read_link slot;
  _ ← put_bin i (mkBin next (wrap64 (free_count bin - 1)));
  mret slot.

(** The first class that is large enough: index and size. *)
Fixpoint pick_class_from (i : Z) (cs : list Z) (user_bytes : Z) : Z :=
  match cs with
  | [] => i
  | c :: cs' => if decide (user_bytes ≤ c) then i else pick_class_from (i + 1) cs' user_bytes
  end.
Definition pick_class (s : pool) (user_bytes : Z) : Z := pick_class_from 0 (classes_ s) user_bytes.

Fixpoint round_up_to_class_from (cs : list Z) (user_bytes : Z) : Z :=
  match cs with
  | [] => 0
  | c :: cs' => if decide (user_bytes ≤ c) then c else round_up_to_class_from cs' user_bytes
  end.
Definition round_up_to_class (s : pool) (user_bytes : Z) : Z :=
  round_up_to_class_from (classes_ s) user_bytes.

(** Bytes a block of a class takes in the arena. *)
Definition block_bytes (slot : Z) : Z := round_up (sizeof_header + slot) max_align.

Definition carve_from_arena (slot_size : Z) : M Z :=
  s ← gets id;
  let need := block_bytes slot_size in
  if decide (arena_bytes_ s < bump_ s +64 need) then mret nullptr else
  let base := arena_base s + bump_ s in
  _ ← modify (set_bump (bump_ s +64 need));
  mret (base + sizeof_header).

(** *** The global allocator *)

Definition operator_new (bytes : Z) (raw : option Z) : M Z :=
  match raw with
  | None => throw_bad_alloc
  | Some r =>
      _ ← modify (λ s, set_news (<[r := bytes]> (news s)) (set_mem (outside r bytes (mem s)) s));
      mret r
  end.

Definition operator_delete (r : Z) : M () :=
  ns ← gets news;
  n ← valid (ns !! r);
  modify (λ s, set_news (delete r (news s))
                 (set_headers (delete r (headers s)) (set_mem (outside r n (mem s)) s))).

Definition allocate_escaped (bytes : Z) (raw : option Z) : M Z :=
  h ← operator_new (sizeof_header +64 bytes) raw;
  _ ← init_header h ESCAPED bytes;
  _ ← modify (λ s, set_live (live s +64 1) s);
  _ ← modify (λ s, set_escaped (escaped s +64 1) s);
  mret (h + sizeof_header).

Definition recycle_to_bin (h : Z) : M () :=
  hd ← read_header h;
  let idx := size_class hd in
  bs ← gets bins_;
  if decide (Z.of_nat (length bs) ≤ idx) then operator_delete h else
  _ ← write_header h (mkHeader 0 (size_class hd) (slot_size hd) (refcount hd));
  push_free idx (h + sizeof_header).

(** ** Public operations *)

Definition allocate (bytes : Z) (raw : option Z) : M Z :=
  s ← gets id;
  let need := round_up_to_class s bytes in
  let idx := pick_class s bytes in
  if decide (Z.of_nat (length (classes_ s)) ≤ idx ∨ need = 0) then allocate_escaped bytes raw else
  cls ← valid (classes_ s !! Z.to_nat idx);
  slot ← pop_free idx;
  slot ← (if decide (slot = nullptr) then carve_from_arena cls else mret slot);
  if decide (slot = nullptr) then allocate_escaped bytes raw else
  _ ← init_header (header_of slot) idx cls;
  _ ← modify (λ s, set_live (live s +64 1) s);
  mret slot.

(** The two's complement reading of a 32-bit word: [std::atomic<int32_t>] wraps. *)
Definition int32 (z : Z) : Z :=
  let w := wrap32 z in if decide (w < 2 ^ 31) then w else w - 2 ^ 32.

Definition set_refcount (v : Z) (hd : BlockHeader) : BlockHeader :=
  mkHeader (magic hd) (size_class hd) (slot_size hd) v.

Definition retain (p : Z) : M () :=
  if decide (p = nullptr) then mret () else
  let h := header_of p in
  _ ← check_magic h;
  hd ← read_header h;
  write_header h (set_refcount (int32 (refcount hd + 1)) hd).

Definition release (p : Z) : M () :=
  if decide (p = nullptr) then mret () else
  let h := header_of p in
  _ ← check_magic h;
  hd ← read_header h;
  _ ← write_header h (set_refcount (int32 (refcount hd - 1)) hd);
  if decide (refcount hd = 1) then
    _ ← modify (λ s, set_live (wrap64 (live s - 1)) s);
    if decide (size_class hd = ESCAPED) then
      _ ← modify (λ s, set_escaped (wrap64 (escaped s - 1)) s);
      operator_delete h
    else recycle_to_bin h
  else mret ().

Definition deallocate (p : Z) : M () := release p.

Record Stats : Type := mkStats {
  stat_live : Z;
  stat_recycled : Z;
  stat_escaped : Z;
  stat_overflow_dropped : Z
}.

Fixpoint sum_free (bs : list Bin) : Z :=
  match bs with [] => 0 | b :: bs' => wrap64 (free_count b + sum_free bs') end.

Definition stats (s : pool) : Stats :=
  mkStats (live s) (sum_free (bins_ s)) (escaped s) (overflow_dropped s).

(** ** Construction *)

Definition DEFAULT_CLASSES : list Z := [16; 32; 64; 128; 256; 512; 1024; 2048; 4096].

(** [std::sort] followed by [std::unique]: insertion into a strictly sorted list. *)
Fixpoint insert_class (c : Z) (cs : list Z) : list Z :=
  match cs with
  | [] => [c]
  | d :: cs' => if decide (c < d) then c :: cs
                else if decide (c = d) then cs else d :: insert_class c cs'
  end.

Definition normalize_classes (classes : list Z) : list Z :=
  match foldr insert_class [] (filter (λ c, 0 < c) classes) with
  | [] => [64]
  | cs => cs
  end.

(** [allocate_arena]: the size of the arena, a multiple of the largest block. *)
Definition allocate_arena (cs : list Z) (arena_bytes : Z) : Z :=
  let unit := round_up (sizeof_header + default 64 (last cs)) max_align in
  let count := arena_bytes `div` unit in
  let count := if decide (count = 0) then 1 else count in
  count *64 unit.

(** [base]: the address of the arena's storage. *)
Definition MemoryPool (base arena_bytes : Z) (classes : list Z) : pool :=
  let cs := normalize_classes classes in
  mkPool cs (replicate (length cs) (mkBin nullptr 0)) base (allocate_arena cs arena_bytes)
    0 0 0 0 ∅ ∅ ∅.
