(* ===== verification/PoolSafety.v ===== *)
(** * The invariant of [MemoryPool] and its preservation

    [Inv s fl] says that the headers describe pairwise disjoint blocks, that the
    list [fl !! i] is what the links of bin [i] spell out and holds exactly the
    recycled blocks of that class, and that the statistics count the blocks. *)

From S2P Require Import Prelude MemoryPool.
Local Open Scope Z_scope.

Definition is_live (hd : BlockHeader) : bool := bool_decide (magic hd = MAGIC).
Definition is_escaped (hd : BlockHeader) : bool := bool_decide (size_class hd = ESCAPED).

(** Bytes from the header on that belong to the block of header [hd] at [a]. *)
Definition extent (s : pool) (a : Z) (hd : BlockHeader) : Z :=
  if is_escaped hd then default 0 (news s !! a) else block_bytes (slot_size hd).

(** The links from [h] on spell out [l]. *)
Fixpoint chain (m : gmap Z obj) (h : Z) (l : list Z) : Prop :=
  match l with
  | [] => h = nullptr
  | x :: l' => h = x ∧ ∃ nx, m !! x = Some (Link nx) ∧ chain m nx l'
  end.

Definition escaped_ok (s : pool) (a : Z) (hd : BlockHeader) : Prop :=
  size_class hd = ESCAPED ∧ magic hd = MAGIC ∧ 0 < a ∧
  ∃ n, news s !! a = Some n ∧ sizeof_header ≤ n ∧
       (a + n ≤ arena_base s ∨ arena_base s + arena_bytes_ s ≤ a).

Definition pooled_ok (s : pool) (a : Z) (hd : BlockHeader) : Prop :=
  ∃ i c, size_class hd = Z.of_nat i ∧ classes_ s !! i = Some c ∧ slot_size hd = c ∧
    arena_base s ≤ a ∧ a + block_bytes c ≤ arena_base s + bump_ s ∧
    (magic hd = MAGIC ∨ magic hd = 0).

Definition free_in (s : pool) (i : nat) (p : Z) : Prop :=
  ∃ hd, headers s !! header_of p = Some hd ∧ magic hd = 0 ∧ size_class hd = Z.of_nat i.

Definition bin_ok (s : pool) (i : nat) (l : list Z) : Prop :=
  ∃ b, bins_ s !! i = Some b ∧ free_count b = wrap64 (Z.of_nat (length l)) ∧
    chain (mem s) (head b) l ∧ NoDup l ∧ ∀ p, p ∈ l ↔ free_in s i p.

(** The geometry of the blocks: what does not involve the free-lists. *)
Record Geo (s : pool) : Prop := mkGeo {
  geo_classes : Forall (λ c, 0 < c < 2 ^ 32) (classes_ s);
  geo_nclasses : Z.of_nat (length (classes_ s)) < ESCAPED;
  geo_arena : 0 < arena_base s ∧ 0 ≤ bump_ s ≤ arena_bytes_ s ∧
              arena_base s + arena_bytes_ s < 2 ^ 62;
  geo_bump : arena_base s `mod` max_align = 0 ∧ bump_ s `mod` max_align = 0;
  geo_align a hd : headers s !! a = Some hd → a `mod` max_align = 0;
  geo_header a hd : headers s !! a = Some hd → escaped_ok s a hd ∨ pooled_ok s a hd;
  geo_refcount a hd : headers s !! a = Some hd → magic hd = MAGIC → 1 ≤ refcount hd < 2 ^ 31;
  geo_disjoint a b ha hb : headers s !! a = Some ha → headers s !! b = Some hb → a ≠ b →
    a + extent s a ha ≤ b ∨ b + extent s b hb ≤ a;
  geo_news a n : news s !! a = Some n → ∃ hd, headers s !! a = Some hd ∧ size_class hd = ESCAPED
}.

Record Inv (s : pool) (fl : list (list Z)) : Prop := mkInv {
  inv_geo : Geo s;
  inv_nbins : length (bins_ s) = length (classes_ s);
  inv_nlists : length fl = length (classes_ s);
  inv_bins i l : fl !! i = Some l → bin_ok s i l;
  inv_live : live s = wrap64 (countm is_live (headers s));
  inv_escaped : escaped s = wrap64 (countm is_escaped (headers s))
}.

(** The address that [operator new] returns for [n] bytes is fresh. *)
Definition fresh (s : pool) (r n : Z) : Prop :=
  0 < r ∧ r `mod` max_align = 0 ∧
  (r + n ≤ arena_base s ∨ arena_base s + arena_bytes_ s ≤ r) ∧
  ∀ a k, news s !! a = Some k → r + n ≤ a ∨ a + k ≤ r.

(** ** Arithmetic *)

Lemma round_up_spec n : 0 ≤ n < 2 ^ 63 → round_up n max_align = 16 * ((n + 15) `div` 16).
Proof.
  intros Hn. unfold round_up, max_align. rewrite wrap64_small by lia.
  change (16 - 1) with (Z.ones 4). rewrite <- Z.ldiff_land, Z.ldiff_ones_r by lia.
  change (Z.ones 4) with 15. rewrite Z.shiftl_mul_pow2, Z.shiftr_div_pow2 by lia.
  change (2 ^ 4) with 16. lia.
Qed.

Lemma block_bytes_spec c :
  0 < c < 2 ^ 32 →
  sizeof_header + c ≤ block_bytes c < sizeof_header + c + 16 ∧ block_bytes c `mod` 16 = 0 ∧
  48 ≤ block_bytes c.
Proof.
  intros Hc. unfold block_bytes, sizeof_header. rewrite round_up_spec by lia.
  Z.to_euclidean_division_equations. lia.
Qed.

Lemma wrap64_pred a : wrap64 (wrap64 a - 1) = wrap64 (a - 1).
Proof. unfold wrap64. by rewrite Zminus_mod_idemp_l. Qed.

(** ** Memory *)

Lemma lookup_outside a n m x :
  outside a n m !! x = if decide (a ≤ x < a + n) then None else m !! x.
Proof.
  unfold outside. destruct (decide (a ≤ x < a + n)) as [Hin|Hout].
  - apply map_lookup_filter_None. right. cbn. intros v _. tauto.
  - destruct (m !! x) as [v|] eqn:Hx.
    + apply map_lookup_filter_Some. by split.
    + apply map_lookup_filter_None. by left.
Qed.

Lemma chain_frame m m' h l :
  chain m h l → (∀ x, x ∈ l → m' !! x = m !! x) → chain m' h l.
Proof.
  revert h. induction l as [|x l IH]; intros h Hc Hm; cbn in *; [done|].
  destruct Hc as (-> & nx & Hx & Hc). split; [done|]. exists nx.
  rewrite Hm by set_solver. split; [done|]. apply IH; [done|]. set_solver.
Qed.

Section facts.
Context (s : pool) (HG : Geo s).

Lemma class_bounds i c : classes_ s !! i = Some c → 0 < c < 2 ^ 32 ∧ Z.of_nat i < ESCAPED.
Proof using HG.
  intros Hc. pose proof (geo_nclasses _ HG). pose proof (lookup_lt_Some _ _ _ Hc).
  split; [|lia]. by eapply Forall_lookup_1 in Hc; [|apply (geo_classes _ HG)].
Qed.

Lemma pooled_extent a hd i c :
  size_class hd = Z.of_nat i → classes_ s !! i = Some c → slot_size hd = c →
  extent s a hd = block_bytes c.
Proof using HG.
  intros Hi Hc Hs. destruct (class_bounds i c Hc). unfold extent, is_escaped.
  rewrite bool_decide_eq_false_2 by lia. by rewrite Hs.
Qed.

(** Every block is at least a header, and a pooled one at least 48 bytes. *)
Lemma extent_bound a hd : headers s !! a = Some hd → sizeof_header ≤ extent s a hd.
Proof using HG.
  intros Ha. destruct (geo_header _ HG a hd Ha) as [(He & _ & _ & n & Hn & ? & _)|(i & c & Hi & Hc & Hs & _)].
  - unfold extent, is_escaped. rewrite bool_decide_eq_true_2 by done. by rewrite Hn.
  - rewrite (pooled_extent a hd i c) by done. destruct (class_bounds i c Hc) as [Hb _].
    pose proof (block_bytes_spec c Hb). lia.
Qed.

Lemma free_pooled i p :
  free_in s i p → ∃ hd c, headers s !! header_of p = Some hd ∧ magic hd = 0 ∧
    size_class hd = Z.of_nat i ∧ classes_ s !! i = Some c ∧ slot_size hd = c ∧
    arena_base s ≤ header_of p ∧ header_of p + block_bytes c ≤ arena_base s + bump_ s.
Proof using HG.
  intros (hd & Hh & Hm & Hi).
  destruct (geo_header _ HG _ _ Hh) as [(_ & Hm' & _)|(i' & c & Hi' & Hc & Hs & Ha & Hb & _)].
  - unfold MAGIC in Hm'. lia.
  - assert (i' = i) as -> by lia. exists hd, c. done.
Qed.

Lemma free_range i p : free_in s i p →
  0 < p ∧ arena_base s + sizeof_header ≤ p ∧ p + 16 ≤ arena_base s + bump_ s.
Proof using HG.
  intros Hf. destruct (free_pooled i p Hf) as (hd & c & _ & _ & _ & Hc & _ & Ha & Hb).
  destruct (class_bounds i c Hc) as [Hcb _]. apply block_bytes_spec in Hcb.
  destruct (geo_arena _ HG). unfold header_of, sizeof_header in *. lia.
Qed.

(** Two different free blocks are at least 48 bytes apart. *)
Lemma free_apart i j p q : free_in s i p → free_in s j q → p ≠ q → p + 48 ≤ q ∨ q + 48 ≤ p.
Proof using HG.
  intros Hp Hq Hne.
  destruct (free_pooled i p Hp) as (hp & c & Hhp & _ & Hi & Hc & Hs & _).
  destruct (free_pooled j q Hq) as (hq & d & Hhq & _ & Hj & Hd & Hs' & _).
  pose proof (geo_disjoint _ HG _ _ _ _ Hhp Hhq) as Hdis.
  rewrite (pooled_extent _ hp i c), (pooled_extent _ hq j d) in Hdis by done.
  destruct (class_bounds i c Hc) as [Hcb _]. destruct (class_bounds j d Hd) as [Hdb _].
  apply block_bytes_spec in Hcb. apply block_bytes_spec in Hdb. unfold header_of in *. lia.
Qed.

(** ** Picking a class *)

Lemma pick_class_spec bytes :
  (∃ i c, pick_class s bytes = Z.of_nat i ∧ round_up_to_class s bytes = c ∧
      classes_ s !! i = Some c ∧ bytes ≤ c ∧ (∀ j d, (j < i)%nat → classes_ s !! j = Some d → d < bytes)) ∨
  (pick_class s bytes = Z.of_nat (length (classes_ s)) ∧ round_up_to_class s bytes = 0 ∧
   ∀ j d, classes_ s !! j = Some d → d < bytes).
Proof using Type.
  unfold pick_class, round_up_to_class. clear HG.
  assert (∀ k cs, (∃ i c, pick_class_from k cs bytes = k + Z.of_nat i ∧
      round_up_to_class_from cs bytes = c ∧ cs !! i = Some c ∧ bytes ≤ c ∧
      (∀ j d, (j < i)%nat → cs !! j = Some d → d < bytes)) ∨
    (pick_class_from k cs bytes = k + Z.of_nat (length cs) ∧ round_up_to_class_from cs bytes = 0 ∧
     ∀ j d, cs !! j = Some d → d < bytes)) as Hgen.
  { intros k cs. revert k. induction cs as [|c cs IH]; intros k; cbn [pick_class_from round_up_to_class_from].
    - right. cbn. split_and!; [lia|done|]. intros j d Hj. by rewrite lookup_nil in Hj.
    - destruct (decide (bytes ≤ c)) as [Hle|Hgt].
      + left. exists 0%nat, c. split_and!; [lia|done|done|done|]. intros j d Hj. lia.
      + destruct (IH (k + 1)) as [(i & d & H1 & H2 & H3 & H4 & H5)|(H1 & H2 & H3)].
        * left. exists (S i), d. split_and!; try done; [lia|].
          intros [|j] e Hj Hl; cbn in Hl; [simplify_eq; lia|]. apply (H5 j); [lia|done].
        * right. cbn [length]. split_and!; [lia|done|].
          intros [|j] e Hl; cbn in Hl; [simplify_eq; lia|]. by apply (H3 j). }
  destruct (Hgen 0 (classes_ s)) as [(i & c & H1 & H2)|[H1 H2]]; [left; exists i, c|right];
    rewrite Z.add_0_l in H1; done.
Qed.
End facts.

(** ** Frame lemmas *)

(** The fields the geometry reads. *)
Definition same_geometry (s s' : pool) : Prop :=
  classes_ s' = classes_ s ∧ arena_base s' = arena_base s ∧ arena_bytes_ s' = arena_bytes_ s ∧
  bump_ s' = bump_ s ∧ news s' = news s.

Lemma extent_same s s' a hd : news s' = news s → extent s' a hd = extent s a hd.
Proof. intros Hn. unfold extent. by rewrite Hn. Qed.

(** A header changes its count or its magic word and keeps its class. *)
Lemma geo_swap s s' a hd hd' :
  Geo s → same_geometry s s' → headers s !! a = Some hd → headers s' = <[a := hd']> (headers s) →
  size_class hd' = size_class hd → slot_size hd' = slot_size hd →
  magic hd' = MAGIC ∨ magic hd' = 0 ∧ size_class hd ≠ ESCAPED →
  (magic hd' = MAGIC → 1 ≤ refcount hd' < 2 ^ 31) → Geo s'.
Proof.
  intros HG (Hcl & Hab & Haby & Hbu & Hne) Ha Hh Hsc Hss Hm Hrc.
  assert (∀ b hb, headers s' !! b = Some hb → ∃ hb0, headers s !! b = Some hb0 ∧
     size_class hb = size_class hb0 ∧ slot_size hb = slot_size hb0 ∧
     extent s' b hb = extent s b hb0) as Hback.
  { intros b hb Hb. rewrite Hh in Hb. destruct (decide (b = a)) as [->|Hne'].
    - rewrite lookup_insert_eq in Hb. simplify_eq. exists hd. split_and!; try done.
      unfold extent, is_escaped. by rewrite Hsc, Hss, Hne.
    - rewrite lookup_insert_ne in Hb by done. exists hb. split_and!; try done. by apply extent_same. }
  constructor; rewrite ?Hcl, ?Hab, ?Haby, ?Hbu; try apply HG.
  - intros b hb Hb. destruct (Hback b hb Hb) as (hb0 & Hb0 & _). by eapply (geo_align _ HG).
  - intros b hb Hb. destruct (Hback b hb Hb) as (hb0 & Hb0 & Hsc0 & Hss0 & _).
    assert (magic hb = MAGIC ∨ magic hb = 0 ∧ size_class hb ≠ ESCAPED) as Hmb.
    { rewrite Hh in Hb. destruct (decide (b = a)) as [->|Hne'].
      - rewrite lookup_insert_eq in Hb. simplify_eq. by rewrite Hsc.
      - rewrite lookup_insert_ne in Hb by done. simplify_eq.
        destruct (geo_header _ HG b hb Hb) as [He|(i & c & Hi & Hc & _ & _ & _ & [?|?])];
          [left; apply He|by left|right]. destruct (class_bounds s HG i c Hc). split; [done|lia]. }
    destruct (geo_header _ HG b hb0 Hb0) as [(He & _ & Hr)|(i & c & Hi & Hc & Hs & Hr1 & Hr2 & _)].
    + left. unfold escaped_ok. rewrite Hsc0, Hne, Hab, Haby. split_and!; try apply Hr; [done|].
      destruct Hmb as [?|[_ Hx]]; [done|]. congruence.
    + right. exists i, c. rewrite Hsc0, Hss0, Hcl, Hab, Hbu. split_and!; try done. tauto.
  - intros b hb Hb Hmb. rewrite Hh in Hb. destruct (decide (b = a)) as [->|Hne'].
    + rewrite lookup_insert_eq in Hb. simplify_eq. auto.
    + rewrite lookup_insert_ne in Hb by done. by eapply (geo_refcount _ HG).
  - intros b1 b2 h1 h2 H1 H2 Hne'. destruct (Hback _ _ H1) as (h1' & H1' & _ & _ & ->).
    destruct (Hback _ _ H2) as (h2' & H2' & _ & _ & ->). by apply (geo_disjoint _ HG).
  - intros b n Hb. rewrite Hne in Hb. destruct (geo_news _ HG b n Hb) as (hb & Hb' & He).
    rewrite Hh. destruct (decide (b = a)) as [->|Hne'].
    + rewrite lookup_insert_eq. simplify_eq. eexists. split; [done|]. congruence.
    + rewrite lookup_insert_ne by done. eauto.
Qed.

(** A new block appears next to the existing ones. *)
Lemma geo_add s s' a hd :
  Geo s → headers s !! a = None → headers s' = <[a := hd]> (headers s) →
  classes_ s' = classes_ s → arena_base s' = arena_base s → arena_bytes_ s' = arena_bytes_ s →
  bump_ s ≤ bump_ s' ≤ arena_bytes_ s → bump_ s' `mod` max_align = 0 → a `mod` max_align = 0 →
  (∀ b, b ≠ a → news s' !! b = news s !! b) →
  (∀ n, news s' !! a = Some n → size_class hd = ESCAPED) →
  escaped_ok s' a hd ∨ pooled_ok s' a hd → 1 ≤ refcount hd < 2 ^ 31 →
  (∀ b hb, headers s !! b = Some hb → a + extent s' a hd ≤ b ∨ b + extent s b hb ≤ a) → Geo s'.
Proof.
  intros HG Hnone Hh Hcl Hab Haby Hbu Hbal Hal Hne Hnew Hok Hrc Hdis.
  assert (∀ b hb, headers s !! b = Some hb → b ≠ a ∧ extent s' b hb = extent s b hb) as Hext.
  { intros b hb Hb. assert (b ≠ a) by congruence. split; [done|]. unfold extent. by rewrite Hne. }
  assert (∀ b hb, headers s' !! b = Some hb → b = a ∧ hb = hd ∨ b ≠ a ∧ headers s !! b = Some hb) as Hcase.
  { intros b hb Hb. rewrite Hh in Hb. destruct (decide (b = a)) as [->|Hn].
    - rewrite lookup_insert_eq in Hb. simplify_eq. by left.
    - rewrite lookup_insert_ne in Hb by done. by right. }
  pose proof (geo_arena _ HG). constructor; rewrite ?Hcl, ?Hab, ?Haby; try apply HG; [lia|split; [apply HG|done]|..].
  - intros b hb Hb. destruct (Hcase b hb Hb) as [[-> ->]|[Hn Hb']]; [done|].
    by eapply (geo_align _ HG).
  - intros b hb Hb. destruct (Hcase b hb Hb) as [[-> ->]|[Hn Hb']]; [done|].
    destruct (geo_header _ HG b hb Hb') as [(H1 & H2 & H3 & n & H4 & H5)|(i & c & H1 & H2 & H3 & H4 & H5 & H6)].
    + left. unfold escaped_ok. rewrite Hab, Haby, Hne by done. split_and!; eauto.
    + right. exists i, c. rewrite Hcl, Hab. split_and!; try done. lia.
  - intros b hb Hb Hm. destruct (Hcase b hb Hb) as [[-> ->]|[Hn Hb']]; [done|].
    by eapply (geo_refcount _ HG).
  - intros b1 b2 h1 h2 H1 H2 Hn.
    destruct (Hcase _ _ H1) as [[-> ->]|[Hn1 H1']]; destruct (Hcase _ _ H2) as [[-> ->]|[Hn2 H2']]; [done|..].
    + destruct (Hext _ _ H2') as [_ ->]. by apply Hdis.
    + destruct (Hext _ _ H1') as [_ ->]. destruct (Hdis _ _ H1'); [by right|by left].
    + destruct (Hext _ _ H1') as [_ ->]. destruct (Hext _ _ H2') as [_ ->]. by apply (geo_disjoint _ HG).
  - intros b n Hb. rewrite Hh. destruct (decide (b = a)) as [->|Hn].
    + rewrite lookup_insert_eq. eexists. split; [done|]. by eapply Hnew.
    + rewrite lookup_insert_ne by done. rewrite Hne in Hb by done. by apply (geo_news _ HG b n).
Qed.

Lemma geo_delete s s' a :
  Geo s → headers s' = delete a (headers s) → news s' = delete a (news s) →
  classes_ s' = classes_ s → arena_base s' = arena_base s → arena_bytes_ s' = arena_bytes_ s →
  bump_ s' = bump_ s → Geo s'.
Proof.
  intros HG Hh Hn Hcl Hab Haby Hbu.
  assert (∀ b hb, headers s' !! b = Some hb → b ≠ a ∧ headers s !! b = Some hb ∧
     extent s' b hb = extent s b hb) as Hback.
  { intros b hb Hb. rewrite Hh in Hb. apply lookup_delete_Some in Hb as [Hne Hb].
    split_and!; [done|done|]. unfold extent. by rewrite Hn, lookup_delete_ne. }
  constructor; rewrite ?Hcl, ?Hab, ?Haby, ?Hbu; try apply HG.
  - intros b hb Hb. destruct (Hback b hb Hb) as (Hne & Hb' & _). by eapply (geo_align _ HG).
  - intros b hb Hb. destruct (Hback b hb Hb) as (Hne & Hb' & _).
    destruct (geo_header _ HG b hb Hb') as [(H1 & H2 & H3 & n & H4 & H5)|(i & c & H1)].
    + left. unfold escaped_ok. rewrite Hab, Haby, Hn, lookup_delete_ne by done. split_and!; eauto.
    + right. exists i, c. by rewrite Hcl, Hab, Hbu.
  - intros b hb Hb. destruct (Hback b hb Hb) as (Hne & Hb' & _). by apply (geo_refcount _ HG b).
  - intros b1 b2 h1 h2 H1 H2 Hne. destruct (Hback _ _ H1) as (_ & H1' & ->).
    destruct (Hback _ _ H2) as (_ & H2' & ->). by apply (geo_disjoint _ HG).
  - intros b n Hb. rewrite Hn in Hb. apply lookup_delete_Some in Hb as [Hne Hb].
    destruct (geo_news _ HG b n Hb) as (hd & Hb' & He). rewrite Hh.
    exists hd. by rewrite lookup_delete_ne.
Qed.

(** ** Free-lists under changes elsewhere *)

Lemma bin_ok_frame s s' i l :
  bin_ok s i l → bins_ s' !! i = bins_ s !! i →
  (∀ p, free_in s i p → mem s' !! p = mem s !! p) →
  (∀ p, free_in s' i p ↔ free_in s i p) → bin_ok s' i l.
Proof.
  intros (b & Hb & Hc & Hch & Hnd & Hin) Hbins Hmem Hfree. exists b. rewrite Hbins.
  split_and!; try done.
  - eapply chain_frame; [done|]. intros x Hx. by apply Hmem, Hin.
  - intros p. by rewrite Hin, Hfree.
Qed.

(** Writing one header: which blocks are free afterwards. *)
Lemma free_in_insert s s' a hd' j p :
  headers s' = <[a := hd']> (headers s) →
  free_in s' j p ↔ (header_of p ≠ a ∧ free_in s j p) ∨
                   (header_of p = a ∧ magic hd' = 0 ∧ size_class hd' = Z.of_nat j).
Proof.
  intros Hh. unfold free_in. rewrite Hh. destruct (decide (header_of p = a)) as [->|Hne].
  - rewrite lookup_insert_eq. split.
    + intros (hd & ? & ? & ?). simplify_eq. by right.
    + intros [[? _]|(_ & ? & ?)]; [done|]. eauto.
  - rewrite lookup_insert_ne by done. split; [intros ?; by left|]. by intros [[_ ?]|[? _]].
Qed.
