(* ===== verification/PoolOps.v ===== *)
(** * What the operations of [MemoryPool] do, on every branch

    Each lemma gives the exact result state of one branch of an operation and
    re-establishes the invariant of PoolSafety.v. *)

From S2P Require Import Prelude MemoryPool PoolSafety.
Local Open Scope Z_scope.

(** Run the monad through the operations of the state. *)
Ltac run_pool := unfold mbind, M_bind, mret, M_ret, gets, modify, valid, throw_bad_alloc in *; cbn beta iota in *.

Lemma int32_small z : - 2 ^ 31 ≤ z < 2 ^ 31 → int32 z = z.
Proof.
  intros Hz. unfold int32, wrap32. destruct (decide (0 ≤ z)).
  - rewrite Z.mod_small by lia. by rewrite decide_True by lia.
  - assert (z `mod` 2 ^ 32 = z + 2 ^ 32) as ->.
    { symmetry. apply Z.mod_unique with (-1); lia. }
    rewrite decide_False by lia. lia.
Qed.

Lemma header_of_add a : header_of (a + sizeof_header) = a.
Proof. unfold header_of. lia. Qed.

Lemma add_header_of p : header_of p + sizeof_header = p.
Proof. unfold header_of. lia. Qed.

Lemma is_live_true hd : magic hd = MAGIC → is_live hd = true.
Proof. apply bool_decide_eq_true_2. Qed.

Lemma is_live_false hd : magic hd ≠ MAGIC → is_live hd = false.
Proof. apply bool_decide_eq_false_2. Qed.

Lemma is_escaped_true hd : size_class hd = ESCAPED → is_escaped hd = true.
Proof. apply bool_decide_eq_true_2. Qed.

Lemma is_escaped_false hd : size_class hd ≠ ESCAPED → is_escaped hd = false.
Proof. apply bool_decide_eq_false_2. Qed.

(** ** Reference counts *)

Definition with_header (a : Z) (hd : BlockHeader) (s : pool) : pool :=
  set_headers (<[a := hd]> (headers s)) s.

Lemma check_magic_live s a hd :
  headers s !! a = Some hd → magic hd = MAGIC → check_magic a s = Ok () s.
Proof.
  intros Ha Hm. unfold check_magic, read_header, MUSES_ASSERT. run_pool. rewrite Ha.
  by rewrite bool_decide_eq_true_2.
Qed.

Lemma check_magic_dead s a hd :
  headers s !! a = Some hd → magic hd ≠ MAGIC → check_magic a s = Abort.
Proof.
  intros Ha Hm. unfold check_magic, read_header, MUSES_ASSERT. run_pool. rewrite Ha.
  by rewrite bool_decide_eq_false_2.
Qed.

Section ops.
Context (s : pool) (fl : list (list Z)) (HI : Inv s fl).

Lemma live_nonnull p hd : headers s !! header_of p = Some hd → p ≠ nullptr.
Proof using HI.
  intros Hp ->. pose proof (inv_geo _ _ HI) as HG. pose proof (geo_arena _ HG).
  destruct (geo_header _ HG _ _ Hp) as [(_ & _ & H0 & _)|(i & c & _ & _ & _ & H0 & _)];
    unfold header_of, nullptr, sizeof_header in *; lia.
Qed.

(** A header of a live block gets another positive count. *)
Lemma inv_recount p hd v :
  headers s !! header_of p = Some hd → magic hd = MAGIC → 1 ≤ v < 2 ^ 31 →
  Inv (with_header (header_of p) (set_refcount v hd) s) fl.
Proof using HI.
  intros Hp Hm Hv. pose proof (inv_geo _ _ HI) as HG.
  set (s' := with_header (header_of p) (set_refcount v hd) s). constructor.
  - eapply (geo_swap s s' (header_of p) hd); try done. by left.
  - apply HI.
  - apply HI.
  - intros i l Hl. eapply (bin_ok_frame s); [by eapply inv_bins|done|done|].
    intros q. rewrite (free_in_insert s s' (header_of p) (set_refcount v hd)) by done. split.
    + intros [[_ ?]|(_ & Hx & _)]; [done|]. cbn in Hx. unfold MAGIC in Hm. lia.
    + intros Hq. left. split; [|done]. intros Heq. destruct Hq as (hq & Hq & Hmq & _).
      rewrite Heq in Hq. simplify_eq. unfold MAGIC in Hm. lia.
  - cbn. rewrite countm_insert, Hp. cbn. rewrite (inv_live _ _ HI). f_equal.
    unfold is_live. cbn. lia.
  - cbn. rewrite countm_insert, Hp. cbn. rewrite (inv_escaped _ _ HI). f_equal.
    unfold is_escaped. cbn. lia.
Qed.

Lemma retain_spec p hd :
  headers s !! header_of p = Some hd → magic hd = MAGIC → refcount hd + 1 < 2 ^ 31 →
  let s' := with_header (header_of p) (set_refcount (refcount hd + 1) hd) s in
  retain p s = Ok () s' ∧ Inv s' fl.
Proof using HI.
  intros Hp Hm Hrc s'. pose proof (geo_refcount _ (inv_geo _ _ HI) _ _ Hp Hm). split.
  - unfold retain. rewrite decide_False by (by eapply live_nonnull). run_pool.
    rewrite (check_magic_live s _ hd) by done. unfold read_header, write_header. run_pool.
    rewrite Hp. by rewrite int32_small by lia.
  - apply inv_recount; [done|done|lia].
Qed.

Lemma release_shared p hd :
  headers s !! header_of p = Some hd → magic hd = MAGIC → refcount hd ≠ 1 →
  let s' := with_header (header_of p) (set_refcount (refcount hd - 1) hd) s in
  release p s = Ok () s' ∧ Inv s' fl.
Proof using HI.
  intros Hp Hm Hrc s'. pose proof (geo_refcount _ (inv_geo _ _ HI) _ _ Hp Hm). split.
  - unfold release. rewrite decide_False by (by eapply live_nonnull). run_pool.
    rewrite (check_magic_live s _ hd) by done. unfold read_header, write_header. run_pool.
    rewrite Hp. rewrite decide_False by done. by rewrite int32_small by lia.
  - apply inv_recount; [done|done|lia].
Qed.

(** ** The last reference *)

Definition after_delete (a n : Z) : pool :=
  mkPool (classes_ s) (bins_ s) (arena_base s) (arena_bytes_ s) (bump_ s)
    (wrap64 (live s - 1)) (wrap64 (escaped s - 1)) (overflow_dropped s)
    (delete a (headers s)) (outside a n (mem s)) (delete a (news s)).

Lemma release_escaped p hd n :
  headers s !! header_of p = Some hd → size_class hd = ESCAPED → refcount hd = 1 →
  news s !! header_of p = Some n →
  release p s = Ok () (after_delete (header_of p) n) ∧ Inv (after_delete (header_of p) n) fl.
Proof using HI.
  intros Hp Hsc Hrc Hn. pose proof (inv_geo _ _ HI) as HG.
  destruct (geo_header _ HG _ _ Hp) as [(_ & Hm & Hpos & n' & Hn' & Hn32 & Hout)|(i & c & Hi & Hc & _)];
    [|destruct (class_bounds s HG i c Hc); lia]. assert (n' = n) as -> by congruence. split.
  - unfold release. rewrite decide_False by (by eapply live_nonnull). run_pool.
    rewrite (check_magic_live s _ hd) by done. unfold read_header, write_header. run_pool.
    rewrite Hp. rewrite decide_True by done. rewrite decide_True by done. unfold operator_delete. run_pool.
    unfold set_live, set_escaped, set_headers, set_mem, set_news. cbn. rewrite Hn. unfold after_delete.
    cbn. by rewrite delete_insert_eq.
  - constructor; try apply HI.
    + by eapply (geo_delete s _ (header_of p)).
    + intros i l Hl. eapply (bin_ok_frame s); [by eapply inv_bins|done|..].
      * intros q Hq. cbn. rewrite lookup_outside. destruct (free_range s HG i q Hq) as (_ & H1 & H2).
        pose proof (geo_arena _ HG). rewrite decide_False; [done|]. unfold sizeof_header in *. lia.
      * intros q. unfold free_in. cbn. split.
        -- intros (hq & Hq & ? & ?). apply lookup_delete_Some in Hq as [_ Hq]. eauto.
        -- intros (hq & Hq & Hm0 & ?). exists hq. split; [|done]. rewrite lookup_delete_ne; [done|].
           intros Heq. rewrite Heq in Hp. simplify_eq. unfold MAGIC in Hm. lia.
    + cbn. rewrite countm_delete, Hp, (inv_live _ _ HI), wrap64_pred. cbn [flag].
      by rewrite is_live_true.
    + cbn. rewrite countm_delete, Hp, (inv_escaped _ _ HI), wrap64_pred. cbn [flag].
      by rewrite is_escaped_true.
Qed.

Definition after_recycle (i : nat) (p : Z) (hd : BlockHeader) (b : Bin) : pool :=
  mkPool (classes_ s) (<[i := mkBin p (free_count b +64 1)]> (bins_ s)) (arena_base s) (arena_bytes_ s)
    (bump_ s) (wrap64 (live s - 1)) (escaped s) (overflow_dropped s)
    (<[header_of p := mkHeader 0 (size_class hd) (slot_size hd) 0]> (headers s))
    (<[p := Link (head b)]> (outside p 8 (mem s))) (news s).

Lemma release_recycle_run p hd i b :
  headers s !! header_of p = Some hd → magic hd = MAGIC → size_class hd = Z.of_nat i →
  Z.of_nat i < ESCAPED → refcount hd = 1 → bins_ s !! i = Some b →
  release p s = Ok () (after_recycle i p hd b).
Proof using HI.
  intros Hp Hm Hi Hlt Hrc Hb. pose proof (lookup_lt_Some _ _ _ Hb) as Hlen.
  unfold release. rewrite decide_False by (by eapply live_nonnull). run_pool.
  rewrite (check_magic_live s _ hd) by done. unfold read_header, write_header. run_pool.
  rewrite Hp. rewrite decide_True by done. rewrite decide_False by lia.
  unfold recycle_to_bin, read_header, write_header. run_pool.
  unfold set_live, set_headers, set_refcount. cbn. rewrite lookup_insert_eq. cbn.
  rewrite decide_False by lia. unfold push_free, get_bin, put_bin, write_link. run_pool. cbn.
  rewrite Hi, Nat2Z.id, Hb. cbn. unfold after_recycle, set_bins, set_mem. cbn.
  rewrite insert_insert_eq, add_header_of, Hrc. by rewrite Hi.
Qed.

Lemma inv_recycle p hd i b l :
  headers s !! header_of p = Some hd → magic hd = MAGIC → size_class hd = Z.of_nat i →
  Z.of_nat i < ESCAPED → fl !! i = Some l → bins_ s !! i = Some b →
  Inv (after_recycle i p hd b) (<[i := p :: l]> fl).
Proof using HI.
  intros Hp Hm Hi Hlt Hl Hb. pose proof (inv_geo _ _ HI) as HG.
  set (hd' := mkHeader 0 (size_class hd) (slot_size hd) 0).
  assert (Geo (after_recycle i p hd b)) as HG'.
  { eapply (geo_swap s _ (header_of p) hd hd'); try done.
    right. cbn. split; [done|lia]. }
  assert (∀ j q, free_in (after_recycle i p hd b) j q ↔ q ≠ p ∧ free_in s j q ∨ q = p ∧ j = i) as Hfree.
  { intros j q. rewrite (free_in_insert s (after_recycle i p hd b) (header_of p) hd') by done.
    unfold header_of. cbn. split.
    - intros [[? ?]|(? & _ & ?)]; [left; split; [congruence|done]|right; lia].
    - intros [[? ?]|[-> ->]]; [left; split; [lia|done]|right; lia]. }
  assert (∀ j q, q ≠ p → free_in s j q → mem (after_recycle i p hd b) !! q = mem s !! q) as Hmem.
  { intros j q Hqp Hq. cbn. rewrite lookup_insert_ne by done. rewrite lookup_outside.
    destruct (free_apart _ HG' j i q p) as [?|?]; [apply Hfree; by left|apply Hfree; by right|done|..];
      rewrite decide_False by lia; done. }
  assert (¬ free_in s i p) as Hnf.
  { intros (hp & Hhp & Hm0 & _). simplify_eq. unfold MAGIC in Hm. lia. }
  constructor; cbn; rewrite ?length_insert; try apply HI; [done|..].
  - intros j lj Hlj. destruct (decide (j = i)) as [->|Hji].
    + rewrite list_lookup_insert_eq in Hlj by (by eapply lookup_lt_Some). simplify_eq.
      destruct (inv_bins _ _ HI i l Hl) as (b' & Hb' & Hfc & Hch & Hnd & Hin). simplify_eq.
      eexists. refine (conj _ (conj _ (conj _ (conj _ _)))).
      * apply list_lookup_insert_eq. by eapply lookup_lt_Some.
      * cbn. rewrite Hfc, wrap64_add_l. f_equal. lia.
      * cbn. split; [done|]. exists (head b). rewrite lookup_insert_eq. split; [done|].
        eapply chain_frame; [exact Hch|]. intros x Hx. apply Hin in Hx.
        apply (Hmem i); [|done]. intros ->. done.
      * constructor; [|done]. by rewrite Hin.
      * intros q. rewrite elem_of_cons, Hin, Hfree. split.
        -- intros [->|Hq]; [by right|]. left. split; [|done]. intros ->. done.
        -- intros [[_ ?]|[-> _]]; [by right|by left].
    + rewrite list_lookup_insert_ne in Hlj by done.
      eapply (bin_ok_frame s); [by eapply inv_bins|cbn; by rewrite list_lookup_insert_ne|..].
      * intros q Hq. apply (Hmem j); [|done]. intros ->. destruct Hq as (hp & Hhp & Hm0 & _).
        simplify_eq. unfold MAGIC in Hm. lia.
      * intros q. rewrite Hfree. split; [intros [[_ ?]|[_ ?]]; done|].
        intros Hq. left. split; [|done]. intros ->. destruct Hq as (hp & Hhp & Hm0 & _).
        simplify_eq. unfold MAGIC in Hm. lia.
  - rewrite countm_insert, Hp, (inv_live _ _ HI), wrap64_pred. cbn [flag].
    rewrite is_live_true by done. rewrite is_live_false by (cbn; unfold MAGIC; lia). f_equal. lia.
  - rewrite countm_insert, Hp, (inv_escaped _ _ HI). cbn [flag].
    rewrite !is_escaped_false by (cbn; lia). f_equal. lia.
Qed.

(** ** Allocation *)

Definition live_header (idx size : Z) : BlockHeader := mkHeader MAGIC idx size 1.

Definition after_pop (i : nat) (x nx c : Z) (b : Bin) : pool :=
  mkPool (classes_ s) (<[i := mkBin nx (wrap64 (free_count b - 1))]> (bins_ s)) (arena_base s)
    (arena_bytes_ s) (bump_ s) (live s +64 1) (escaped s) (overflow_dropped s)
    (<[header_of x := live_header (Z.of_nat i) c]> (headers s)) (mem s) (news s).

Lemma inv_pop i x nx c b l :
  classes_ s !! i = Some c → fl !! i = Some (x :: l) → bins_ s !! i = Some b →
  chain (mem s) nx l → mem s !! x = Some (Link nx) →
  Inv (after_pop i x nx c b) (<[i := l]> fl).
Proof using HI.
  intros Hc Hl Hb Hch Hx. pose proof (inv_geo _ _ HI) as HG.
  destruct (inv_bins _ _ HI i _ Hl) as (b' & Hb' & Hfc & _ & Hnd & Hin). simplify_eq.
  apply NoDup_cons in Hnd as [Hxl Hnd].
  assert (free_in s i x) as Hfx by (apply Hin; by left).
  destruct (free_pooled s HG i x Hfx) as (hd & c' & Hhd & Hm0 & Hi & Hc' & Hs & _). simplify_eq.
  assert (∀ j q, free_in (after_pop i x nx (slot_size hd) b) j q ↔ q ≠ x ∧ free_in s j q) as Hfree.
  { intros j q. rewrite (free_in_insert s (after_pop i x nx (slot_size hd) b) (header_of x)
      (live_header (Z.of_nat i) (slot_size hd))) by done. unfold header_of. cbn. split.
    - intros [[? ?]|(_ & Hmm & _)]; [split; [congruence|done]|]. unfold MAGIC in Hmm. lia.
    - intros [? ?]. left. split; [lia|done]. }
  assert (∀ j, free_in s j x → j = i) as Huniq.
  { intros j (hd' & Hhd' & _ & Hj). simplify_eq. lia. }
  constructor; cbn; rewrite ?length_insert; try apply HI.
  - eapply (geo_swap s _ (header_of x) hd (live_header (Z.of_nat i) (slot_size hd))); try done.
    by left.
  - intros j lj Hlj. destruct (decide (j = i)) as [->|Hji].
    + rewrite list_lookup_insert_eq in Hlj by (by eapply lookup_lt_Some). simplify_eq.
      eexists. refine (conj _ (conj _ (conj _ (conj _ _)))); [apply list_lookup_insert_eq; by eapply lookup_lt_Some|cbn|done|done|].
      * rewrite Hfc, wrap64_pred. f_equal. cbn [length]. lia.
      * intros q. rewrite Hfree, <- Hin, elem_of_cons. split; [intros Hq|intros [? [?|?]]; done].
        split; [|by right]. intros ->. done.
    + rewrite list_lookup_insert_ne in Hlj by done.
      eapply (bin_ok_frame s); [by eapply inv_bins|cbn; by rewrite list_lookup_insert_ne|done|].
      intros q. rewrite Hfree. split; [by intros [_ ?]|]. intros Hq. split; [|done].
      intros ->. by apply Hji, Huniq.
  - rewrite countm_insert, Hhd, (inv_live _ _ HI), wrap64_add_l. cbn [flag].
    rewrite (is_live_false hd) by (unfold MAGIC; lia). rewrite is_live_true by done. f_equal. lia.
  - rewrite countm_insert, Hhd, (inv_escaped _ _ HI). cbn [flag].
    destruct (class_bounds s HG i _ Hc). rewrite !is_escaped_false by (cbn; lia). f_equal. lia.
Qed.

Definition after_carve (i : nat) (c : Z) : pool :=
  mkPool (classes_ s) (bins_ s) (arena_base s) (arena_bytes_ s) (bump_ s + block_bytes c)
    (live s +64 1) (escaped s) (overflow_dropped s)
    (<[arena_base s + bump_ s := live_header (Z.of_nat i) c]> (headers s)) (mem s) (news s).

(** A new live header that is on no free-list leaves the lists alone. *)
Lemma bins_add s' a hd :
  headers s !! a = None → headers s' = <[a := hd]> (headers s) → magic hd = MAGIC →
  bins_ s' = bins_ s → (∀ i p, free_in s i p → mem s' !! p = mem s !! p) →
  ∀ i l, fl !! i = Some l → bin_ok s' i l.
Proof using HI.
  intros Hnone Hh Hm Hb Hmem i l Hl.
  eapply (bin_ok_frame s); [by eapply inv_bins|by rewrite Hb|by apply Hmem|].
  intros q. rewrite (free_in_insert s s' a hd) by done. split.
  - intros [[_ ?]|(_ & Hx & _)]; [done|]. unfold MAGIC in *. lia.
  - intros Hq. left. split; [|done]. intros <-. destruct Hq as (hq & Hq & _). congruence.
Qed.

Lemma carve_free_address a c :
  a = arena_base s + bump_ s → 0 < c < 2 ^ 32 → bump_ s + block_bytes c ≤ arena_bytes_ s →
  headers s !! a = None ∧
  ∀ b hb, headers s !! b = Some hb → a + block_bytes c ≤ b ∨ b + extent s b hb ≤ a.
Proof using HI.
  intros -> Hc Hroom. pose proof (inv_geo _ _ HI) as HG. pose proof (geo_arena _ HG) as Har.
  pose proof (block_bytes_spec c Hc). unfold sizeof_header in *.
  assert (∀ b hb, headers s !! b = Some hb → arena_base s + bump_ s + block_bytes c ≤ b ∨
     b + extent s b hb ≤ arena_base s + bump_ s) as Hdis.
  { intros b hb Hb. destruct (geo_header _ HG b hb Hb) as [(He & _ & _ & n & Hn & ? & Hout)|
      (i & d & Hi & Hd & Hs & ? & ? & _)].
    - unfold extent. rewrite is_escaped_true, Hn by done. cbn. lia.
    - rewrite (pooled_extent s HG b hb i d) by done. lia. }
  split; [|done]. destruct (headers s !! _) as [hb|] eqn:Hb; [|done].
  pose proof (extent_bound s HG _ hb Hb). unfold sizeof_header in *.
  destruct (Hdis _ hb Hb); lia.
Qed.

Lemma inv_carve i c :
  classes_ s !! i = Some c → bump_ s + block_bytes c ≤ arena_bytes_ s → Inv (after_carve i c) fl.
Proof using HI.
  intros Hc Hroom. pose proof (inv_geo _ _ HI) as HG. pose proof (geo_arena _ HG) as Har.
  destruct (class_bounds s HG i c Hc) as [Hcb Hlt]. pose proof (block_bytes_spec c Hcb) as Hbb.
  destruct (carve_free_address _ c eq_refl Hcb Hroom) as [Hnone Hdis].
  pose proof (geo_bump _ HG) as [Hb1 Hb2]. unfold max_align in *.
  set (a := arena_base s + bump_ s) in *.
  constructor; try apply HI.
  - eapply (geo_add s _ a (live_header (Z.of_nat i) c)); try done.
    + cbn. unfold sizeof_header in *. lia.
    + cbn. unfold max_align. Z.to_euclidean_division_equations. lia.
    + unfold a, max_align. Z.to_euclidean_division_equations. lia.
    + cbn. intros n Hn. destruct (geo_news _ HG a n Hn) as (hd & Hhd & _). congruence.
    + right. exists i, c. cbn. unfold a, sizeof_header in *. split_and!; try done; [lia..|by left].
    + intros b hb Hb. unfold extent at 1. rewrite is_escaped_false by (cbn; lia). by apply Hdis.
  - eapply (bins_add _ a (live_header (Z.of_nat i) c)); done.
  - cbn. fold a. rewrite countm_insert, Hnone, (inv_live _ _ HI), wrap64_add_l. cbn [flag].
    rewrite is_live_true by done. f_equal. lia.
  - cbn. fold a. rewrite countm_insert, Hnone, (inv_escaped _ _ HI). cbn [flag].
    rewrite is_escaped_false by (cbn; lia). f_equal. lia.
Qed.

Definition after_escape (r bytes : Z) : pool :=
  mkPool (classes_ s) (bins_ s) (arena_base s) (arena_bytes_ s) (bump_ s)
    (live s +64 1) (escaped s +64 1) (overflow_dropped s)
    (<[r := live_header ESCAPED (wrap32 bytes)]> (headers s))
    (outside r (sizeof_header + bytes) (mem s)) (<[r := sizeof_header + bytes]> (news s)).

Lemma fresh_no_header r n : fresh s r n → sizeof_header ≤ n → headers s !! r = None ∧
  ∀ b hb, headers s !! b = Some hb → r + n ≤ b ∨ b + extent s b hb ≤ r.
Proof using HI.
  intros (Hpos & _ & Hout & Hnew) Hn. pose proof (inv_geo _ _ HI) as HG.
  pose proof (geo_arena _ HG) as Har. unfold sizeof_header in *.
  assert (∀ b hb, headers s !! b = Some hb → r + n ≤ b ∨ b + extent s b hb ≤ r) as Hdis.
  { intros b hb Hb. destruct (geo_header _ HG b hb Hb) as [(He & _ & _ & k & Hk & ? & Hbo)|
      (i & d & Hi & Hd & Hs & ? & ? & _)].
    - unfold extent. rewrite is_escaped_true, Hk by done. cbn. by apply Hnew.
    - rewrite (pooled_extent s HG b hb i d) by done. lia. }
  split; [|done]. destruct (headers s !! r) as [hb|] eqn:Hb; [|done].
  pose proof (extent_bound s HG r hb Hb). unfold sizeof_header in *. destruct (Hdis r hb Hb); lia.
Qed.

Lemma inv_escape r bytes :
  0 ≤ bytes → fresh s r (sizeof_header + bytes) → Inv (after_escape r bytes) fl.
Proof using HI.
  intros Hbytes Hf. pose proof (inv_geo _ _ HI) as HG. pose proof (geo_arena _ HG) as Har.
  destruct (fresh_no_header r (sizeof_header + bytes) Hf) as [Hnone Hdis]; [lia|].
  destruct Hf as (Hpos & Hal & Hout & Hnew). constructor; try apply HI.
  - eapply (geo_add s _ r (live_header ESCAPED (wrap32 bytes))); try done.
    + cbn. lia.
    + apply HG.
    + intros b Hb. cbn. by rewrite lookup_insert_ne.
    + left. split_and!; try done. exists (sizeof_header + bytes). cbn. rewrite lookup_insert_eq.
      split_and!; [done|lia|done].
    + intros b hb Hb. unfold extent at 1. rewrite is_escaped_true by done. cbn.
      rewrite lookup_insert_eq. cbn. by apply Hdis.
  - eapply (bins_add _ r (live_header ESCAPED (wrap32 bytes))); try done.
    intros i p Hp. cbn. rewrite lookup_outside. destruct (free_range s HG i p Hp) as (_ & ? & ?).
    unfold sizeof_header in *. rewrite decide_False by lia. done.
  - cbn. rewrite countm_insert, Hnone, (inv_live _ _ HI), wrap64_add_l. cbn [flag].
    rewrite is_live_true by done. f_equal. lia.
  - cbn. rewrite countm_insert, Hnone, (inv_escaped _ _ HI), wrap64_add_l. cbn [flag].
    rewrite is_escaped_true by done. f_equal. lia.
Qed.

Lemma allocate_escaped_run bytes r :
  0 ≤ bytes → sizeof_header + bytes < 2 ^ 64 →
  allocate_escaped bytes (Some r) s = Ok (r + sizeof_header) (after_escape r bytes) ∧
  allocate_escaped bytes None s = BadAlloc s.
Proof using Type.
  intros Hb Hlt. split; [|done]. unfold allocate_escaped, operator_new, init_header, write_header.
  run_pool. unfold sizeof_header in *. rewrite (wrap64_small (32 + bytes)) by lia. done.
Qed.
End ops.

(** ** [allocate], branch by branch *)

(** Class [i] of size [c] is the one [allocate] picks for [bytes]. *)
Definition picks (s : pool) (bytes : Z) (i : nat) (c : Z) : Prop :=
  classes_ s !! i = Some c ∧ bytes ≤ c ∧
  ∀ j d, (j < i)%nat → classes_ s !! j = Some d → d < bytes.

Inductive allocated (s : pool) (fl : list (list Z)) (bytes : Z) (raw : option Z) :
    res Z → list (list Z) → Prop :=
  | alloc_recycled i c x nx b l :
      picks s bytes i c → fl !! i = Some (x :: l) → bins_ s !! i = Some b →
      allocated s fl bytes raw (Ok x (after_pop s i x nx c b)) (<[i := l]> fl)
  | alloc_carved i c :
      picks s bytes i c → fl !! i = Some [] → bump_ s + block_bytes c ≤ arena_bytes_ s →
      allocated s fl bytes raw
        (Ok (arena_base s + bump_ s + sizeof_header) (after_carve s i c)) fl
  | alloc_escaped r :
      raw = Some r →
      (∀ i c, picks s bytes i c → fl !! i = Some [] ∧ arena_bytes_ s < bump_ s + block_bytes c) →
      allocated s fl bytes raw (Ok (r + sizeof_header) (after_escape s r bytes)) fl
  | alloc_throws :
      raw = None →
      (∀ i c, picks s bytes i c → fl !! i = Some [] ∧ arena_bytes_ s < bump_ s + block_bytes c) →
      allocated s fl bytes raw (BadAlloc s) fl.

Lemma picks_unique s bytes i j c d : picks s bytes i c → picks s bytes j d → i = j ∧ c = d.
Proof.
  intros (Hi & Hbi & Hmi) (Hj & Hbj & Hmj). assert (i = j) as ->.
  { destruct (decide (i < j)%nat) as [Hlt|]; [specialize (Hmj i c Hlt Hi); lia|].
    destruct (decide (j < i)%nat) as [Hlt|]; [specialize (Hmi j d Hlt Hj); lia|lia]. }
  split; [done|congruence].
Qed.

Section allocate.
Context (s : pool) (fl : list (list Z)) (HI : Inv s fl).
Context (bytes : Z) (raw : option Z).
Context (Hbytes : 0 ≤ bytes) (Hmax : sizeof_header + bytes < 2 ^ 64).

Lemma allocate_escaped_branch :
  (∀ i c, picks s bytes i c → fl !! i = Some [] ∧ arena_bytes_ s < bump_ s + block_bytes c) →
  allocated s fl bytes raw (allocate_escaped bytes raw s) fl.
Proof using Hbytes Hmax.
  intros Hfull. destruct raw as [r|].
  - rewrite (proj1 (allocate_escaped_run s bytes r Hbytes Hmax)). by apply alloc_escaped.
  - by apply alloc_throws.
Qed.

Lemma pop_free_run i l : fl !! i = Some l →
  (l = [] ∧ pop_free (Z.of_nat i) s = Ok nullptr s) ∨
  ∃ x l' nx b, l = x :: l' ∧ x ≠ nullptr ∧ bins_ s !! i = Some b ∧ mem s !! x = Some (Link nx) ∧
    chain (mem s) nx l' ∧
    pop_free (Z.of_nat i) s =
      Ok x (set_bins (<[i := mkBin nx (wrap64 (free_count b - 1))]> (bins_ s)) s).
Proof using HI.
  intros Hl. destruct (inv_bins _ _ HI i l Hl) as (b & Hb & Hfc & Hch & Hnd & Hin).
  unfold pop_free, get_bin. run_pool. rewrite Nat2Z.id, Hb.
  destruct l as [|x l']; cbn in Hch.
  - left. split; [done|]. by rewrite decide_True.
  - right. destruct Hch as (Hx & nx & Hlink & Hch). exists x, l', nx, b.
    assert (x ≠ nullptr) as Hne.
    { assert (free_in s i x) as Hf by (apply Hin; by left).
      destruct (free_range s (inv_geo _ _ HI) i x Hf). unfold nullptr. lia. }
    split_and!; try done. rewrite decide_False by congruence. unfold read_link, put_bin. run_pool.
    by rewrite Hx, Hlink, Nat2Z.id.
Qed.

(** A recycled block is used whatever [operator new] would do. *)
Lemma allocate_pop i c x l :
  picks s bytes i c → fl !! i = Some (x :: l) →
  allocate bytes raw s = Ok x (match bins_ s !! i, mem s !! x with
                               | Some b, Some (Link nx) => after_pop s i x nx c b
                               | _, _ => s end).
Proof using HI.
  intros Hpick Hl. pose proof (inv_geo _ _ HI) as HG. destruct (Hpick) as (Hc & Hle & Hmin).
  destruct (class_bounds s HG i c Hc) as [Hcb Hlt]. pose proof (lookup_lt_Some _ _ _ Hc) as Hlen.
  unfold allocate. run_pool. change (id s) with s.
  destruct (pick_class_spec s bytes) as [(j & d & Hp & Hr & Hd)|(_ & _ & Hbig)];
    [|specialize (Hbig i c Hc); lia].
  destruct (picks_unique s bytes i j c d Hpick Hd) as [<- <-].
  rewrite Hp, Hr, decide_False by lia. rewrite Nat2Z.id, Hc.
  destruct (pop_free_run i _ Hl) as [[? _]|(x' & l' & nx & b & Heq & Hx & Hb & Hlink & Hch & ->)]; [done|].
  simplify_eq. rewrite decide_False by done. rewrite decide_False by done.
  unfold init_header, write_header. run_pool. rewrite Hb, Hlink.
  unfold wrap32. rewrite !Z.mod_small by (unfold ESCAPED in *; lia). done.
Qed.

Lemma allocate_spec :
  (∀ r, raw = Some r → fresh s r (sizeof_header + bytes)) →
  ∃ fl', allocated s fl bytes raw (allocate bytes raw s) fl' ∧
    (∀ p s', allocate bytes raw s = Ok p s' → Inv s' fl').
Proof using HI Hbytes Hmax.
  intros Hfresh. pose proof (inv_geo _ _ HI) as HG. pose proof (geo_arena _ HG) as Har.
  assert (∀ p s', allocate_escaped bytes raw s = Ok p s' → Inv s' fl) as Hesc.
  { intros p s' Hrun. destruct raw as [r|]; [|done].
    rewrite (proj1 (allocate_escaped_run s bytes r Hbytes Hmax)) in Hrun. simplify_eq.
    apply inv_escape; auto. }
  unfold allocate. run_pool. change (id s) with s.
  destruct (pick_class_spec s bytes) as [(i & c & Hp & Hr & Hc & Hle & Hmin)|(Hp & Hr & Hbig)].
  2: { exists fl. rewrite decide_True by lia. split; [|done]. apply allocate_escaped_branch.
       intros i c (Hc & Hle & _). specialize (Hbig i c Hc). lia. }
  destruct (class_bounds s HG i c Hc) as [Hcb Hlt]. pose proof (block_bytes_spec c Hcb) as Hbb.
  assert (picks s bytes i c) as Hpick by done.
  pose proof (lookup_lt_Some _ _ _ Hc) as Hlen. rewrite Hp, Hr, decide_False by lia.
  rewrite Nat2Z.id, Hc.
  destruct (lookup_lt_is_Some_2 fl i) as [l Hl]; [rewrite (inv_nlists _ _ HI); lia|].
  destruct (pop_free_run i l Hl) as [[-> ->]|(x & l' & nx & b & -> & Hx & Hb & Hlink & Hch & ->)].
  - rewrite decide_True by done. unfold carve_from_arena. run_pool. change (id s) with s.
    rewrite wrap64_small by (unfold sizeof_header in *; lia).
    destruct (decide (arena_bytes_ s < bump_ s + block_bytes c)) as [Hfull|Hroom].
    + rewrite decide_True by done. exists fl. split; [|done]. apply allocate_escaped_branch.
      intros j d Hj. destruct (picks_unique s bytes i j c d Hpick Hj) as [<- <-]. done.
    + rewrite decide_False by (unfold nullptr, sizeof_header; lia).
      exists fl. unfold init_header, write_header. run_pool. rewrite header_of_add.
      unfold wrap32. rewrite !Z.mod_small by (unfold ESCAPED in *; lia). split.
      * eapply (alloc_carved s fl bytes raw i c); [done|done|lia].
      * intros p s' Heq. simplify_eq. apply (inv_carve s fl HI i (round_up_to_class s bytes)); [done|lia].
  - rewrite decide_False by done. rewrite decide_False by done.
    exists (<[i := l']> fl). unfold init_header, write_header. run_pool.
    unfold wrap32. rewrite !Z.mod_small by (unfold ESCAPED in *; lia). split.
    + eapply (alloc_recycled s fl bytes raw i c x nx b l'); done.
    + intros p s' Heq. simplify_eq. eapply (inv_pop s fl HI i p nx _ b l'); done.
Qed.
End allocate.
