(* ===== verification/PoolPtr.v ===== *)
(** * [PoolPtr<T>] and [make_pool] (src/muses/memory_pool.hpp), and the
      properties of the pool

    A program holds handles in variables (a list indexed by position); its
    steps are the special members of [PoolPtr] and [make_pool].  The theorems say
    that every such program respects the pool's contract: it never releases a
    dead block, counts references exactly, and leaks nothing. *)

From Stdlib Require Import Sorted.
From S2P Require Import Prelude MemoryPool PoolSafety PoolOps.
Local Open Scope Z_scope.

Record PoolPtr : Type := mkPtr {
  ptr_ : Z;
  pool_ : bool
}.

Definition null_ptr : PoolPtr := mkPtr nullptr false.

(** [pool_ && ptr_] *)
Definition owning (h : PoolPtr) : bool := pool_ h && bool_decide (ptr_ h ≠ nullptr).

Definition reset (h : PoolPtr) : M PoolPtr :=
  _ ← (if owning h then release (ptr_ h) else mret ());
  mret null_ptr.

(** [operator=(const PoolPtr&)] for two different objects. *)
Definition copy_assign (self other : PoolPtr) : M PoolPtr :=
  _ ← reset self;
  _ ← (if owning other then retain (ptr_ other) else mret ());
  mret (mkPtr (ptr_ other) (pool_ other)).

(** [operator=(PoolPtr&&)] for two different objects: the new values of both. *)
Definition move_assign (self other : PoolPtr) : M (PoolPtr * PoolPtr) :=
  _ ← reset self;
  mret (mkPtr (ptr_ other) (pool_ other), null_ptr).

(** [make_pool<T>(pool, args...)]: [throws] tells whether the constructor of
    [T] throws; then the memory is released and nothing is returned. *)
Definition make_pool (sizeof_T : Z) (raw : option Z) (throws : bool) : M (option PoolPtr) :=
  mem ← allocate sizeof_T raw;
  if throws then _ ← release mem; mret None
  else mret (Some (mkPtr mem true)).

(** [destroy_pool]: the destructor of [T] runs, then the handle is reset. *)
Definition destroy_pool (p : PoolPtr) : M PoolPtr :=
  if bool_decide (ptr_ p ≠ nullptr) then reset p else mret p.

(** ** Programs over handles *)

Inductive hop : Type :=
  | HMake (d : nat) (sizeof_T : Z) (raw : option Z) (throws : bool)  (* d = make_pool<T>(pool) *)
  | HCopy (d src : nat)                                             (* d = src *)
  | HMove (d src : nat)                                             (* d = std::move(src) *)
  | HReset (d : nat)                                                (* d.reset(), ~PoolPtr *)
  | HDestroy (d : nat).                                             (* destroy_pool(d) *)

Abbreviation handles := (list PoolPtr).

Definition run_hop (op : hop) (hs : handles) : M handles :=
  match op with
  | HMake d n raw throws =>
      self ← valid (hs !! d);
      r ← make_pool n raw throws;
      match r with
      | None => mret hs
      | Some tmp => '(new, _) ← move_assign self tmp; mret (<[d := new]> hs)
      end
  | HCopy d src =>
      self ← valid (hs !! d);
      other ← valid (hs !! src);
      if decide (d = src) then mret hs else
      new ← copy_assign self other; mret (<[d := new]> hs)
  | HMove d src =>
      self ← valid (hs !! d);
      other ← valid (hs !! src);
      if decide (d = src) then mret hs else
      '(new, old) ← move_assign self other; mret (<[src := old]> (<[d := new]> hs))
  | HReset d => self ← valid (hs !! d); new ← reset self; mret (<[d := new]> hs)
  | HDestroy d => self ← valid (hs !! d); new ← destroy_pool self; mret (<[d := new]> hs)
  end.

(** What the environment and the program text must respect: the variables exist,
    the requested size can be represented with its header, and [operator new]
    returns fresh memory. *)
Definition op_ok (s : pool) (hs : handles) (op : hop) : Prop :=
  match op with
  | HMake d n raw _ => (d < length hs)%nat ∧ 0 ≤ n ∧ sizeof_header + n < 2 ^ 64 ∧
      ∀ r, raw = Some r → fresh s r (sizeof_header + n)
  | HCopy d src | HMove d src => (d < length hs)%nat ∧ (src < length hs)%nat
  | HReset d | HDestroy d => (d < length hs)%nat
  end.

Inductive hstep : pool * handles → pool * handles → Prop :=
  | hstep_ok s hs op s' hs' :
      op_ok s hs op → run_hop op hs s = Ok hs' s' → hstep (s, hs) (s', hs')
  | hstep_throw s hs op s' :
      op_ok s hs op → run_hop op hs s = BadAlloc s' → hstep (s, hs) (s', hs).

(** ** The invariant of programs *)

Definition points (p : Z) (h : PoolPtr) : bool := owning h && bool_decide (ptr_ h = p).
Definition refs (p : Z) (hs : handles) : nat := countb (points p) hs.

(** [k p] references are held outside the variables, by the running operation. *)
Record HInv (s : pool) (hs : handles) : Prop := mkHInv {
  hinv_pool : ∃ fl, Inv s fl;
  hinv_points h : h ∈ hs → owning h = true →
    ∃ hd, headers s !! header_of (ptr_ h) = Some hd ∧ magic hd = MAGIC;
  hinv_refs p hd : headers s !! header_of p = Some hd → magic hd = MAGIC →
    refcount hd = Z.of_nat (refs p hs)
}.

Lemma refs_insert p hs d h h' :
  hs !! d = Some h → (refs p (<[d := h']> hs) + b2n (points p h) = refs p hs + b2n (points p h'))%nat.
Proof. apply countb_insert. Qed.

Lemma points_self h : owning h = true → points (ptr_ h) h = true.
Proof. intros Ho. unfold points. rewrite Ho. by rewrite bool_decide_eq_true_2. Qed.

Lemma points_other h p : p ≠ ptr_ h → points p h = false.
Proof. intros Hne. unfold points. rewrite bool_decide_eq_false_2 by congruence. apply andb_false_r. Qed.

Lemma points_null p : points p null_ptr = false.
Proof. done. Qed.

Lemma not_owning_points h p : owning h = false → points p h = false.
Proof. intros Ho. unfold points. by rewrite Ho. Qed.

(** *** The operations of the pool, seen from one pointer *)

Lemma release_effect s fl p hd :
  Inv s fl → headers s !! header_of p = Some hd → magic hd = MAGIC →
  ∃ s' fl', release p s = Ok () s' ∧ Inv s' fl' ∧
    (∀ q, q ≠ p → headers s' !! header_of q = headers s !! header_of q) ∧
    (if decide (refcount hd = 1)
     then ∀ hd', headers s' !! header_of p = Some hd' → magic hd' = 0
     else headers s' !! header_of p = Some (set_refcount (refcount hd - 1) hd)).
Proof.
  intros HI Hp Hm. pose proof (inv_geo _ _ HI) as HG.
  assert (∀ q, q ≠ p → header_of q ≠ header_of p) as Hne by (unfold header_of; intros; lia).
  destruct (decide (refcount hd = 1)) as [Hrc|Hrc].
  - destruct (geo_header _ HG _ _ Hp) as [(He & _ & _ & n & Hn & _)|(i & c & Hi & Hc & _)].
    + destruct (release_escaped s fl HI p hd n) as [Hrun HI']; try done.
      eexists _, fl. split_and!; [exact Hrun|exact HI'|..]; cbn.
      * intros q Hq. rewrite lookup_delete_ne by (symmetry; by apply Hne). done.
      * intros hd'. by rewrite lookup_delete_eq.
    + destruct (class_bounds s HG i c Hc) as [_ Hlt]. pose proof (lookup_lt_Some _ _ _ Hc) as Hlen.
      destruct (lookup_lt_is_Some_2 fl i) as [l Hl]; [rewrite (inv_nlists _ _ HI); lia|].
      destruct (inv_bins _ _ HI i l Hl) as (b & Hb & _).
      eexists _, _. split_and!.
      * by eapply (release_recycle_run s fl HI p hd i b).
      * by eapply (inv_recycle s fl HI p hd i b l).
      * cbn. intros q Hq. rewrite lookup_insert_ne by (symmetry; by apply Hne). done.
      * cbn. intros hd'. rewrite lookup_insert_eq. intros ?. by simplify_eq.
  - destruct (release_shared s fl HI p hd) as [Hrun HI']; try done.
    eexists _, fl. split_and!; [exact Hrun|exact HI'|..]; cbn.
    + intros q Hq. rewrite lookup_insert_ne by (symmetry; by apply Hne). done.
    + by rewrite lookup_insert_eq.
Qed.

(** What a release leaves alone: memory outside the block, other blocks. *)
Lemma release_frame s fl p hd s' :
  Inv s fl → headers s !! header_of p = Some hd → magic hd = MAGIC → release p s = Ok () s' →
  (∀ x, ¬ (header_of p ≤ x < header_of p + extent s (header_of p) hd) → mem s' !! x = mem s !! x) ∧
  (∀ b, b ≠ header_of p → news s' !! b = news s !! b).
Proof.
  intros HI Hp Hm Hrun. pose proof (inv_geo _ _ HI) as HG.
  destruct (decide (refcount hd = 1)) as [Hrc|Hrc].
  - destruct (geo_header _ HG _ _ Hp) as [(He & _ & _ & n & Hn & _)|(i & c & Hi & Hc & Hs & _)].
    + destruct (release_escaped s fl HI p hd n) as [Hrun' _]; try done. rewrite Hrun in Hrun'.
      simplify_eq. cbn. unfold extent. rewrite is_escaped_true, Hn by done. split.
      * intros x Hx. rewrite lookup_outside, decide_False; done.
      * intros b Hb. by rewrite lookup_delete_ne.
    + destruct (class_bounds s HG i c Hc) as [Hcb Hlt]. pose proof (lookup_lt_Some _ _ _ Hc) as Hlen.
      destruct (lookup_lt_is_Some_2 (bins_ s) i) as [b Hb]; [rewrite (inv_nbins _ _ HI); lia|].
      rewrite (release_recycle_run s fl HI p hd i b) in Hrun by done. simplify_eq. cbn.
      rewrite (pooled_extent s HG _ hd i (slot_size hd)) by done. split; [|done].
      pose proof (block_bytes_spec _ Hcb). intros x Hx. unfold header_of, sizeof_header in *.
      rewrite lookup_insert_ne by lia. rewrite lookup_outside, decide_False by lia. done.
  - destruct (release_shared s fl HI p hd) as [Hrun' _]; try done. rewrite Hrun in Hrun'.
    by simplify_eq.
Qed.

Lemma alloc_effect s fl bytes raw p s' fl' :
  Inv s fl → allocated s fl bytes raw (Ok p s') fl' →
  (∀ r, raw = Some r → fresh s r (sizeof_header + bytes)) → 0 ≤ bytes →
  (∀ hd, headers s !! header_of p = Some hd → magic hd = 0) ∧
  ∃ hd, headers s' = <[header_of p := hd]> (headers s) ∧ magic hd = MAGIC ∧ refcount hd = 1.
Proof.
  intros HI Ha Hfresh Hb. pose proof (inv_geo _ _ HI) as HG.
  inversion Ha as [i c x nx b l Hpick Hl Hbin|i c Hpick Hl Hroom|r Hr _|]; simplify_eq.
  - split; [|by eexists]. intros hd Hhd.
    destruct (inv_bins _ _ HI i _ Hl) as (b' & _ & _ & _ & _ & Hin).
    destruct (proj1 (Hin p)) as (hd' & Hhd' & Hm & _); [by left|]. by simplify_eq.
  - rewrite header_of_add. split; [|by eexists]. intros hd Hhd.
    destruct Hpick as (Hc & _). destruct (class_bounds s HG i c Hc) as [Hcb _].
    destruct (carve_free_address s _ HI _ c eq_refl Hcb Hroom). congruence.
  - rewrite header_of_add. split; [|by eexists]. intros hd Hhd.
    destruct (fresh_no_header s _ HI r (sizeof_header + bytes)); [by apply Hfresh|lia|]. congruence.
Qed.

(** *** Preservation *)

Lemma hinv_ext s hs hs' : HInv s hs → (∀ p, refs p hs' = refs p hs) → HInv s hs'.
Proof.
  intros [Hp Hpt Hr] Hrefs. constructor; [done| |].
  - intros h Hh Ho. assert (0 < refs (ptr_ h) hs)%nat as Hpos.
    { rewrite <- Hrefs. apply list_elem_of_lookup_1 in Hh as [i Hi].
      eapply countb_pos; [exact Hi|]. by apply points_self. }
    apply countb_pos_inv in Hpos as (i & h0 & Hi & Hp0). unfold points in Hp0.
    apply andb_true_iff in Hp0 as [Ho0 He]. apply bool_decide_eq_true in He. rewrite <- He.
    apply Hpt; [|done]. by eapply list_elem_of_lookup_2.
  - intros p hd Hh Hm. rewrite Hrefs. by apply Hr.
Qed.

Lemma hinv_pos s hs d h : HInv s hs → hs !! d = Some h → owning h = true →
  ∃ fl hd, Inv s fl ∧ headers s !! header_of (ptr_ h) = Some hd ∧ magic hd = MAGIC ∧
    refcount hd = Z.of_nat (refs (ptr_ h) hs) ∧ (0 < refs (ptr_ h) hs)%nat.
Proof.
  intros [[fl HI] Hpt Hr] Hd Ho. destruct (Hpt h) as (hd & Hh & Hm); [by eapply list_elem_of_lookup_2|done|].
  exists fl, hd. split_and!; auto. eapply countb_pos; [exact Hd|]. by apply points_self.
Qed.

Lemma hinv_release s hs d h :
  HInv s hs → hs !! d = Some h → owning h = true →
  ∃ s', release (ptr_ h) s = Ok () s' ∧ HInv s' (<[d := null_ptr]> hs).
Proof.
  intros HH Hd Ho. destruct (hinv_pos s hs d h HH Hd Ho) as (fl & hd & HI & Hp & Hm & Hrc & Hpos).
  destruct (release_effect s fl (ptr_ h) hd HI Hp Hm) as (s' & fl' & Hrun & HI' & Hother & Hself).
  exists s'. split; [done|].
  assert (∀ p, p ≠ ptr_ h → refs p (<[d := null_ptr]> hs) = refs p hs) as Hsame.
  { intros p Hne. pose proof (refs_insert p hs d h null_ptr Hd) as Hc.
    rewrite points_null, points_other in Hc by done. cbn in Hc. lia. }
  assert (refs (ptr_ h) (<[d := null_ptr]> hs) + 1 = refs (ptr_ h) hs)%nat as Hless.
  { pose proof (refs_insert (ptr_ h) hs d h null_ptr Hd) as Hc.
    rewrite points_null, points_self in Hc by done. cbn in Hc. lia. }
  constructor; [eauto| |].
  - intros h' Hh' Ho'. destruct (decide (ptr_ h' = ptr_ h)) as [Heq|Hne].
    + assert (0 < refs (ptr_ h) (<[d := null_ptr]> hs))%nat.
      { apply list_elem_of_lookup_1 in Hh' as [i Hi]. eapply countb_pos; [exact Hi|].
        rewrite <- Heq. by apply points_self. }
      rewrite decide_False in Hself by lia. rewrite Heq. by eexists.
    + rewrite Hother by done. apply (hinv_points _ _ HH); [|done].
      apply list_elem_of_lookup_1 in Hh' as [i Hi].
      destruct (decide (i = d)) as [->|].
      * rewrite list_lookup_insert_eq in Hi by (by eapply lookup_lt_Some). by simplify_eq.
      * rewrite list_lookup_insert_ne in Hi by done. by eapply list_elem_of_lookup_2.
  - intros p hd' Hp' Hm'. destruct (decide (p = ptr_ h)) as [->|Hne].
    + destruct (decide (refcount hd = 1)).
      * specialize (Hself _ Hp'). unfold MAGIC in *. lia.
      * rewrite Hself in Hp'. simplify_eq. cbn. lia.
    + rewrite Hsame by done. rewrite Hother in Hp' by done. by apply (hinv_refs _ _ HH).
Qed.

Lemma hinv_reset s hs d h :
  HInv s hs → hs !! d = Some h → ∃ s', reset h s = Ok null_ptr s' ∧ HInv s' (<[d := null_ptr]> hs).
Proof.
  intros HH Hd. unfold reset. destruct (owning h) eqn:Ho.
  - destruct (hinv_release s hs d h HH Hd Ho) as (s' & Hrun & HH'). exists s'. run_pool.
    by rewrite Hrun.
  - exists s. split; [done|]. eapply hinv_ext; [exact HH|]. intros p.
    pose proof (refs_insert p hs d h null_ptr Hd) as Hc.
    rewrite points_null, not_owning_points in Hc by done. cbn in Hc. lia.
Qed.

(** A further handle [h] for a block that a variable refers to. *)
Lemma hinv_retain s hs j h :
  HInv s hs → hs !! j = Some h → owning h = true → Z.of_nat (length hs) < 2 ^ 31 - 1 →
  ∃ s', retain (ptr_ h) s = Ok () s' ∧ HInv s' (h :: hs).
Proof.
  intros HH Hj Ho Hlen. destruct (hinv_pos s hs j h HH Hj Ho) as (fl & hd & HI & Hp & Hm & Hrc & Hpos).
  pose proof (countb_le (points (ptr_ h)) hs) as Hle. fold (refs (ptr_ h) hs) in Hle.
  destruct (retain_spec s fl HI (ptr_ h) hd) as [Hrun HI']; [done|done|lia|].
  eexists. split; [exact Hrun|]. constructor; [by eexists| |].
  - intros h' Hh' Ho'. cbn.
    assert (h' ∈ hs) as Hin.
    { apply elem_of_cons in Hh' as [->|?]; [by eapply list_elem_of_lookup_2|done]. }
    destruct (hinv_points _ _ HH h' Hin Ho') as (hd' & Hp' & Hm').
    destruct (decide (header_of (ptr_ h') = header_of (ptr_ h))) as [->|Hne].
    + rewrite lookup_insert_eq. by eexists.
    + rewrite lookup_insert_ne by done. by eexists.
  - intros p hd' Hp' Hm'. cbn in Hp'. unfold refs. cbn [countb].
    destruct (decide (p = ptr_ h)) as [->|Hne].
    + rewrite lookup_insert_eq in Hp'. simplify_eq. rewrite points_self by done.
      fold (refs (ptr_ h) hs). cbn. lia.
    + rewrite lookup_insert_ne in Hp' by (unfold header_of; lia). rewrite points_other by done.
      by apply (hinv_refs _ _ HH).
Qed.

Lemma hinv_allocate s hs n raw :
  HInv s hs → 0 ≤ n → sizeof_header + n < 2 ^ 64 →
  (∀ r, raw = Some r → fresh s r (sizeof_header + n)) →
  (allocate n raw s = BadAlloc s) ∨
  ∃ p s', allocate n raw s = Ok p s' ∧ HInv s' (mkPtr p true :: hs) ∧ p ≠ nullptr.
Proof.
  intros HH Hn Hmax Hfresh. destruct (hinv_pool _ _ HH) as [fl HI].
  destruct (allocate_spec s fl HI n raw Hn Hmax Hfresh) as (fl' & Ha & HI').
  destruct (allocate n raw s) as [p s'|s'| |] eqn:Hrun; [|left; by inversion Ha|inversion Ha|inversion Ha].
  right. specialize (HI' p s' eq_refl).
  destruct (alloc_effect s fl n raw p s' fl' HI Ha Hfresh Hn) as (Hdead & hd & Hh & Hm & Hrc).
  assert (p ≠ nullptr) as Hnn.
  { eapply (live_nonnull s' fl' HI'). rewrite Hh. apply lookup_insert_eq. }
  assert (∀ h, h ∈ hs → owning h = true → ptr_ h ≠ p) as Hnot.
  { intros h Hin Ho Heq. destruct (hinv_points _ _ HH h Hin Ho) as (hd' & Hp' & Hm').
    rewrite Heq in Hp'. specialize (Hdead _ Hp'). unfold MAGIC in *. lia. }
  exists p, s'. split_and!; [done| |done]. constructor; [eauto| |].
  - intros h Hin Ho. rewrite Hh. apply elem_of_cons in Hin as [->|Hin].
    + cbn [ptr_]. rewrite lookup_insert_eq. eauto.
    + rewrite lookup_insert_ne by (specialize (Hnot h Hin Ho); unfold header_of; lia).
      by apply (hinv_points _ _ HH).
  - intros q hd' Hq Hmq. rewrite Hh in Hq. unfold refs. cbn [countb].
    destruct (decide (q = p)) as [->|Hne].
    + rewrite lookup_insert_eq in Hq. simplify_eq. unfold points at 1, owning. cbn [ptr_ pool_ andb].
      rewrite !bool_decide_eq_true_2 by done. cbn.
      destruct (countb (points p) hs) eqn:Hz; [lia|].
      destruct (countb_pos_inv (points p) hs) as (i & h & Hi & Hp); [lia|]. unfold points in Hp.
      apply andb_true_iff in Hp as [Ho He]. apply bool_decide_eq_true in He.
      destruct (Hnot h); [by eapply list_elem_of_lookup_2|done|done].
    + rewrite lookup_insert_ne in Hq by (unfold header_of; lia).
      rewrite points_other by done. by apply (hinv_refs _ _ HH).
Qed.

Lemma refs_place p hs d self h :
  hs !! d = Some self → refs p (<[d := h]> hs) = refs p (h :: <[d := null_ptr]> hs).
Proof.
  intros Hd. pose proof (refs_insert p hs d self h Hd) as H1.
  pose proof (refs_insert p hs d self null_ptr Hd) as H2. rewrite points_null in H2.
  unfold refs in *. cbn [countb b2n] in *. lia.
Qed.

Lemma eta_ptr h : mkPtr (ptr_ h) (pool_ h) = h.
Proof. by destruct h. Qed.

(** The part of an assignment after [reset]: the variable receives [h], which a
    reference outside the variables accounts for. *)
Lemma hinv_place s hs d self h :
  HInv s (h :: <[d := null_ptr]> hs) → hs !! d = Some self → HInv s (<[d := h]> hs).
Proof. intros HH Hd. eapply hinv_ext; [exact HH|]. intros p. by eapply refs_place. Qed.

Lemma run_hop_ok s hs op :
  HInv s hs → op_ok s hs op → Z.of_nat (length hs) < 2 ^ 31 - 2 →
  (∃ hs' s', run_hop op hs s = Ok hs' s' ∧ HInv s' hs' ∧ length hs' = length hs) ∨
  run_hop op hs s = BadAlloc s.
Proof.
  intros HH Hok Hlen. destruct op as [d n raw throws|d src|d src|d|d]; cbn [run_hop op_ok] in *.
  - destruct Hok as (Hd & Hn & Hmax & Hfresh). apply lookup_lt_is_Some_2 in Hd as [self Hd].
    unfold make_pool. run_pool. rewrite Hd.
    destruct (hinv_allocate s hs n raw HH Hn Hmax Hfresh) as [->|(p & s1 & -> & HH1 & Hp)]; [by right|left].
    destruct throws.
    + destruct (hinv_release s1 (mkPtr p true :: hs) 0 (mkPtr p true) HH1 eq_refl) as (s2 & Hrun & HH2).
      { unfold owning. cbn. by rewrite bool_decide_eq_true_2. }
      cbn [ptr_] in Hrun. rewrite Hrun. exists hs, s2. split_and!; [done| |done]. by eapply hinv_ext.
    + unfold move_assign. run_pool.
      destruct (hinv_reset s1 (mkPtr p true :: hs) (S d) self HH1 Hd) as (s2 & -> & HH2).
      eexists _, s2. split_and!; [reflexivity| |by rewrite length_insert].
      by eapply hinv_place.
  - destruct Hok as [Hd Hs]. apply lookup_lt_is_Some_2 in Hd as [self Hd].
    apply lookup_lt_is_Some_2 in Hs as [other Hs]. left. run_pool. rewrite Hd, Hs.
    destruct (decide (d = src)) as [->|Hne]; [by eexists _, _|].
    destruct (hinv_reset s hs d self HH Hd) as (s1 & Hrun & HH1). unfold copy_assign. run_pool.
    rewrite Hrun. assert (<[d := null_ptr]> hs !! src = Some other) as Hs'
      by (by rewrite list_lookup_insert_ne).
    destruct (owning other) eqn:Ho.
    + destruct (hinv_retain s1 _ src other HH1 Hs' Ho) as (s2 & -> & HH2);
        [rewrite length_insert; lia|].
      eexists _, s2. split_and!; [reflexivity| |by rewrite length_insert]. rewrite eta_ptr.
      by eapply hinv_place.
    + eexists _, s1. split_and!; [reflexivity| |by rewrite length_insert]. rewrite eta_ptr.
      eapply hinv_place; [|exact Hd]. eapply hinv_ext; [exact HH1|]. intros p. unfold refs. cbn [countb].
      by rewrite not_owning_points.
  - destruct Hok as [Hd Hs]. apply lookup_lt_is_Some_2 in Hd as [self Hd].
    apply lookup_lt_is_Some_2 in Hs as [other Hs]. left. run_pool. rewrite Hd, Hs.
    destruct (decide (d = src)) as [->|Hne]; [by eexists _, _|].
    destruct (hinv_reset s hs d self HH Hd) as (s1 & Hrun & HH1). unfold move_assign. run_pool.
    rewrite Hrun. eexists _, s1. split_and!; [reflexivity| |by rewrite !length_insert].
    rewrite eta_ptr. eapply hinv_ext; [exact HH1|]. intros p.
    assert (<[d := other]> hs !! src = Some other) as Hs' by (by rewrite list_lookup_insert_ne).
    pose proof (refs_insert p _ src other null_ptr Hs') as H1. rewrite points_null in H1.
    rewrite (refs_place p hs d self other Hd) in H1. unfold refs in *. cbn [countb b2n] in *. lia.
  - apply lookup_lt_is_Some_2 in Hok as [self Hd]. left. run_pool. rewrite Hd.
    destruct (hinv_reset s hs d self HH Hd) as (s1 & -> & HH1).
    eexists _, s1. split_and!; [reflexivity|done|by rewrite length_insert].
  - apply lookup_lt_is_Some_2 in Hok as [self Hd]. left. unfold destroy_pool. run_pool. rewrite Hd.
    case_bool_decide.
    + destruct (hinv_reset s hs d self HH Hd) as (s1 & -> & HH1).
      eexists _, s1. split_and!; [reflexivity|done|by rewrite length_insert].
    + eexists _, s. split_and!; [reflexivity| |by rewrite length_insert].
      by rewrite list_insert_id.
Qed.

(** ** The constructor establishes the invariant *)

Lemma insert_class_sorted c cs :
  StronglySorted Z.lt cs →
  StronglySorted Z.lt (insert_class c cs) ∧ (∀ x, x ∈ insert_class c cs ↔ x = c ∨ x ∈ cs) ∧
  (length (insert_class c cs) ≤ S (length cs))%nat.
Proof.
  intros Hs. induction Hs as [|d cs Hs IH Hd]; cbn.
  - split_and!; [repeat constructor|set_solver|done].
  - destruct IH as (IH1 & IH2 & IH3). destruct (decide (c < d)) as [Hlt|Hge].
    + split_and!; [|set_solver|done]. constructor; [by constructor|]. constructor; [done|].
      eapply Forall_impl; [exact Hd|]. cbn. intros; lia.
    + destruct (decide (c = d)) as [->|Hne]; [split_and!; [by constructor|set_solver|cbn; lia]|].
      split_and!; [|set_solver|cbn; lia]. constructor; [done|]. apply Forall_forall. intros x Hx.
      apply IH2 in Hx as [->|Hx]; [lia|]. rewrite Forall_forall in Hd. by apply Hd.
Qed.

Lemma normalize_spec classes :
  StronglySorted Z.lt (normalize_classes classes) ∧ normalize_classes classes ≠ [] ∧
  (∀ x, x ∈ normalize_classes classes → 0 < x ∧ (x ∈ classes ∨ x = 64)) ∧
  (length (normalize_classes classes) ≤ S (length classes))%nat.
Proof.
  unfold normalize_classes. set (fs := filter (λ c, 0 < c) classes).
  assert (StronglySorted Z.lt (foldr insert_class [] fs) ∧
    (∀ x, x ∈ foldr insert_class [] fs → x ∈ fs) ∧
    (length (foldr insert_class [] fs) ≤ length fs)%nat) as (H1 & H2 & H3).
  { induction fs as [|c fs IH]; cbn; [split_and!; [constructor|set_solver|done]|].
    destruct IH as (IH1 & IH2 & IH3). destruct (insert_class_sorted c _ IH1) as (I1 & I2 & I3).
    split_and!; [done|set_solver|lia]. }
  assert (length fs ≤ length classes)%nat by apply length_filter.
  destruct (foldr insert_class [] fs) as [|c cs] eqn:Hf; cbn.
  - split_and!; [repeat constructor|done|set_solver by lia|lia].
  - split_and!; [done|done| |cbn in H3; lia]. intros x Hx. apply H2 in Hx.
    apply list_elem_of_filter in Hx as [? ?]. auto.
Qed.

(** Requests the constructor serves: sizes are 32-bit, the arena fits the
    address space and starts at an aligned address. *)
Definition ctor_ok (base arena_bytes : Z) (classes : list Z) : Prop :=
  0 < base < 2 ^ 60 ∧ base `mod` max_align = 0 ∧ 0 ≤ arena_bytes ≤ 2 ^ 60 ∧
  Forall (λ c, 0 ≤ c < 2 ^ 32) classes ∧ Z.of_nat (length classes) < ESCAPED - 1.

Lemma inv_ctor base arena_bytes classes :
  ctor_ok base arena_bytes classes →
  let s := MemoryPool base arena_bytes classes in
  Inv s (replicate (length (classes_ s)) []) ∧ headers s = ∅ ∧ bump_ s = 0 ∧
  StronglySorted Z.lt (classes_ s) ∧
  ∃ c, last (classes_ s) = Some c ∧ block_bytes c ≤ arena_bytes_ s.
Proof.
  intros (Hbase & Hal & Har & Hcl & Hlen) s. destruct (normalize_spec classes) as (Hs & Hne & Hin & Hl).
  set (cs := normalize_classes classes) in *.
  assert (Forall (λ c, 0 < c < 2 ^ 32) cs) as Hcs.
  { apply Forall_forall. intros x Hx. destruct (Hin x Hx) as [? [Hx'| ->]]; [|lia].
    rewrite Forall_forall in Hcl. specialize (Hcl x Hx'). lia. }
  destruct (last cs) as [c|] eqn:Hlast; [|by apply last_None in Hlast].
  assert (0 < c < 2 ^ 32) as Hc. { apply last_Some_elem_of in Hlast. by rewrite Forall_forall in Hcs; auto. }
  pose proof (block_bytes_spec c Hc) as Hbb. unfold sizeof_header in Hbb.
  set (count := if decide (arena_bytes `div` block_bytes c = 0) then 1 else arena_bytes `div` block_bytes c).
  assert (arena_bytes_ s = count * block_bytes c ∧ block_bytes c ≤ count * block_bytes c < 2 ^ 61) as [Hab Hrange].
  { assert (1 ≤ count ∧ count * block_bytes c < 2 ^ 61) as [? ?].
    { unfold count. destruct (decide _) as [H0|H0]; [lia|].
      pose proof (Z.div_pos arena_bytes (block_bytes c)). pose proof (Z.mul_div_le arena_bytes (block_bytes c)). lia. }
    assert (count * block_bytes c < 2 ^ 64 ∧ block_bytes c ≤ count * block_bytes c) as [? ?] by nia.
    unfold s, MemoryPool, allocate_arena. cbn. fold cs. rewrite Hlast. cbn. fold (block_bytes c) count.
    rewrite wrap64_small by nia. done. }
  assert (classes_ s = cs) as Hcs_eq by done.
  split_and!; try done; [|exists c; split; [done|rewrite Hab; lia]].
  constructor.
  - constructor; rewrite ?Hab, ?Hcs_eq; try done.
    + unfold ESCAPED in *. lia.
    + change (arena_base s) with base. change (bump_ s) with 0. lia.
  - cbn. by rewrite length_replicate.
  - cbn. by rewrite length_replicate.
  - intros i l Hl'. apply lookup_replicate in Hl' as [-> Hi].
    exists (mkBin nullptr 0). split_and!; try done.
    + cbn. apply lookup_replicate. done.
    + constructor.
    + intros p. split; [set_solver|]. intros (hd & Hhd & _). done.
  - cbn. by rewrite countm_empty.
  - cbn. by rewrite countm_empty.
Qed.

(** ** Properties *)

(** The states a program with [n] handle variables reaches. *)
Definition reachable (base arena_bytes : Z) (classes : list Z) (n : nat) (w : pool * handles) : Prop :=
  rtc hstep (MemoryPool base arena_bytes classes, replicate n null_ptr) w.

Lemma reachable_hinv base arena_bytes classes n s hs :
  ctor_ok base arena_bytes classes → Z.of_nat n < 2 ^ 31 - 2 →
  reachable base arena_bytes classes n (s, hs) → HInv s hs ∧ length hs = n.
Proof.
  intros Hc Hn Hr.
  apply (rtc_invariant hstep (λ w, HInv w.1 w.2 ∧ length w.2 = n) _ _) in Hr; [done|..]; cbn.
  - destruct (inv_ctor _ _ _ Hc) as (HI & Hh & _). split; [|by rewrite length_replicate].
    constructor; [by eexists| |].
    + intros h Hin Ho. apply elem_of_replicate in Hin as [-> _]. done.
    + intros p hd Hp. rewrite Hh, lookup_empty in Hp. done.
  - intros [s0 hs0] [s1 hs1] _ [HH Hlen] Hst. cbn in *.
    assert (∀ op, op_ok s0 hs0 op → (∃ hs' s', run_hop op hs0 s0 = Ok hs' s' ∧ HInv s' hs' ∧
      length hs' = n) ∨ run_hop op hs0 s0 = BadAlloc s0) as Hop.
    { intros op Hok. rewrite <- Hlen. apply run_hop_ok; [done|done|lia]. }
    inversion Hst; subst; match goal with Hok : op_ok _ _ ?op, Hrun : run_hop ?op _ _ = _ |- _ =>
      destruct (Hop op Hok) as [(hs' & s' & Heq & HH' & Hl)|Heq]; rewrite Hrun in Heq;
      simplify_eq; done end.
Qed.

(** C24: Memory safety of handles: whatever a program does with [PoolPtr]
    variables (construction, copies, moves, resets, a throwing constructor), its
    next operation returns or throws [std::bad_alloc]; it never trips the magic
    check and never touches a block that is not there. *)
Theorem pool_raii_safe base arena_bytes classes n s hs op :
  ctor_ok base arena_bytes classes → Z.of_nat n < 2 ^ 31 - 2 →
  reachable base arena_bytes classes n (s, hs) → op_ok s hs op →
  (∃ hs' s', run_hop op hs s = Ok hs' s') ∨ run_hop op hs s = BadAlloc s.
Proof.
  intros Hc Hn Hr Hok. destruct (reachable_hinv _ _ _ _ _ _ Hc Hn Hr) as [HH Hlen].
  destruct (run_hop_ok s hs op HH Hok) as [(hs' & s' & ? & _)|?]; [lia| |by right].
  left. by eexists _, _.
Qed.

(** C26: Exact reference counts: in every reachable state a block is live exactly
    when some handle owns it, its count is the number of those handles, and
    [stats().live] and [stats().escaped] are the numbers of live and of escaped
    blocks; so when no handle owns anything, nothing is leaked. *)
Theorem pool_refcount_exact base arena_bytes classes n s hs :
  ctor_ok base arena_bytes classes → Z.of_nat n < 2 ^ 31 - 2 →
  reachable base arena_bytes classes n (s, hs) →
  (∀ p hd, headers s !! header_of p = Some hd → magic hd = MAGIC →
     refcount hd = Z.of_nat (refs p hs) ∧ (0 < refs p hs)%nat) ∧
  (∀ h, h ∈ hs → owning h = true → ∃ hd, headers s !! header_of (ptr_ h) = Some hd ∧ magic hd = MAGIC) ∧
  stat_live (stats s) = wrap64 (countm is_live (headers s)) ∧
  stat_escaped (stats s) = wrap64 (countm is_escaped (headers s)) ∧
  ((∀ h, h ∈ hs → owning h = false) → stat_live (stats s) = 0).
Proof.
  intros Hc Hn Hr. destruct (reachable_hinv _ _ _ _ _ _ Hc Hn Hr) as [[[fl HI] Hpt Hrefs] _].
  assert (∀ p hd, headers s !! header_of p = Some hd → magic hd = MAGIC →
     refcount hd = Z.of_nat (refs p hs) ∧ (0 < refs p hs)%nat) as Hcount.
  { intros p hd Hp Hm. pose proof (Hrefs p hd Hp Hm).
    pose proof (geo_refcount _ (inv_geo _ _ HI) _ _ Hp Hm). lia. }
  split_and!; [done|done|apply HI|apply HI|].
  intros Hnone. cbn. rewrite (inv_live _ _ HI), countm_zero; [done|]. intros a hd Ha.
  destruct (is_live hd) eqn:Hlive; [|done]. apply bool_decide_eq_true in Hlive.
  rewrite <- (header_of_add a) in Ha. destruct (Hcount _ hd Ha Hlive) as [_ Hpos].
  apply countb_pos_inv in Hpos as (i & h & Hi & Hp). unfold points in Hp.
  by rewrite (Hnone h) in Hp by (by eapply list_elem_of_lookup_2).
Qed.

(** The addresses of the usable region of the block of pointer [p]. *)
Definition usable (s : pool) (p : Z) (x : Z) : Prop :=
  ∃ hd, headers s !! header_of p = Some hd ∧ p ≤ x < header_of p + extent s (header_of p) hd.

Lemma alloc_frame s fl bytes raw p s' fl' :
  Inv s fl → allocated s fl bytes raw (Ok p s') fl' →
  (∀ b, b ≠ header_of p → news s' !! b = news s !! b) ∧
  (∀ x, mem s' !! x ≠ mem s !! x →
     ∃ r, raw = Some r ∧ header_of p = r ∧ r ≤ x < r + (sizeof_header + bytes)) ∧
  ∀ hd, headers s' !! header_of p = Some hd → sizeof_header + bytes ≤ extent s' (header_of p) hd.
Proof.
  intros HI Ha. pose proof (inv_geo _ _ HI) as HG.
  assert (∀ i c, picks s bytes i c → is_escaped (live_header (Z.of_nat i) c) = false ∧
            sizeof_header + bytes ≤ block_bytes c) as Hpick.
  { intros i c (Hc & Hle & _). destruct (class_bounds s HG i c Hc) as [Hcb Hlt].
    pose proof (block_bytes_spec c Hcb). split; [apply is_escaped_false; cbn; lia|lia]. }
  inversion Ha as [i c x nx b l Hp Hl Hbin|i c Hp Hl Hroom|r Hr _|]; simplify_eq;
    try destruct (Hpick _ _ Hp) as [Hesc Hsz]; rewrite ?header_of_add.
  - split_and!; [done|done|]. cbn. intros hd. rewrite lookup_insert_eq. intros ?; simplify_eq.
    unfold extent. by rewrite Hesc.
  - split_and!; [done|done|]. cbn. intros hd. rewrite lookup_insert_eq. intros ?; simplify_eq.
    unfold extent. by rewrite Hesc.
  - cbn. split_and!.
    + intros b Hb. by rewrite lookup_insert_ne.
    + intros x. rewrite lookup_outside. destruct (decide _); [|done]. eauto.
    + intros hd. rewrite lookup_insert_eq. intros ?; simplify_eq. unfold extent. cbn.
      by rewrite lookup_insert_eq.
Qed.

(** [allocate] as a change of the pool: what it adds and what it leaves alone. *)
Lemma pool_allocate_frame s fl bytes raw p s' :
  Inv s fl → 0 ≤ bytes → sizeof_header + bytes < 2 ^ 64 →
  (∀ r, raw = Some r → fresh s r (sizeof_header + bytes)) →
  allocate bytes raw s = Ok p s' →
  ∃ fl', allocated s fl bytes raw (Ok p s') fl' ∧ Inv s' fl' ∧
    (∀ b, b ≠ header_of p → news s' !! b = news s !! b) ∧
    (∀ q hq x, headers s !! header_of q = Some hq → magic hq = MAGIC →
       q ≤ x < header_of q + extent s (header_of q) hq → mem s' !! x = mem s !! x) ∧
    (∀ hd, headers s' !! header_of p = Some hd → sizeof_header + bytes ≤ extent s' (header_of p) hd) ∧
    (∀ hd, headers s !! header_of p = Some hd → magic hd = 0) ∧
    ∃ hd, headers s' = <[header_of p := hd]> (headers s) ∧ magic hd = MAGIC ∧ refcount hd = 1.
Proof.
  intros HI Hb Hmax Hfresh Hrun. destruct (allocate_spec s fl HI bytes raw Hb Hmax Hfresh) as (fl' & Ha & HI').
  rewrite Hrun in Ha. specialize (HI' p s' Hrun). exists fl'.
  destruct (alloc_effect s fl bytes raw p s' fl' HI Ha Hfresh Hb) as (Hdead & Hhd).
  destruct (alloc_frame s fl bytes raw p s' fl' HI Ha) as (Hnews & Hmem & Hext).
  split_and!; try done. intros q hq x Hq Hmq Hx.
  destruct (decide (mem s' !! x = mem s !! x)) as [|Hdiff]; [done|].
  destruct (Hmem x Hdiff) as (r & Hr & Hpr & Hxr).
  destruct (fresh_no_header s fl HI r (sizeof_header + bytes)) as [_ Hd]; [auto|lia|].
  specialize (Hd _ _ Hq). unfold header_of, sizeof_header in *. lia.
Qed.

(** C27: What [allocate] promises, on every branch: the pointer is 16-byte
    aligned, its block was not live and has count 1 now, at least [bytes] bytes
    are usable and none of them is usable through any other live pointer, no
    other header changes, and no byte of another live block changes. *)
Theorem pool_allocate_contract s fl bytes raw p s' :
  Inv s fl → 0 ≤ bytes → sizeof_header + bytes < 2 ^ 64 →
  (∀ r, raw = Some r → fresh s r (sizeof_header + bytes)) →
  allocate bytes raw s = Ok p s' →
  p `mod` max_align = 0 ∧
  (∀ x, p ≤ x < p + bytes → usable s' p x) ∧
  (∃ hd, headers s' = <[header_of p := hd]> (headers s) ∧ magic hd = MAGIC ∧ refcount hd = 1) ∧
  (∀ hd, headers s !! header_of p = Some hd → magic hd = 0) ∧
  (∀ q hq x, headers s !! header_of q = Some hq → magic hq = MAGIC → usable s q x →
     ¬ usable s' p x ∧ mem s' !! x = mem s !! x).
Proof.
  intros HI Hb Hmax Hfresh Hrun.
  destruct (pool_allocate_frame s fl bytes raw p s' HI Hb Hmax Hfresh Hrun)
    as (fl' & Ha & HI' & Hnews & Hmem & Hext & Hdead & hd & Hh & Hm & Hrc).
  pose proof (inv_geo _ _ HI') as HG'.
  assert (headers s' !! header_of p = Some hd) as Hp by (rewrite Hh; apply lookup_insert_eq).
  split_and!; [|intros x Hx; exists hd|by eexists|done|intros q hq x Hq Hmq (hq' & Hq' & Hx)].
  - pose proof (geo_align _ HG' _ _ Hp). unfold header_of, sizeof_header, max_align in *.
    Z.to_euclidean_division_equations. lia.
  - split; [done|]. specialize (Hext hd Hp). unfold header_of in *. lia.
  - simplify_eq. split; [|by eapply Hmem].
    assert (header_of q ≠ header_of p) as Hne.
    { intros Heq. rewrite Heq in Hq. specialize (Hdead _ Hq). unfold MAGIC in *. lia. }
    assert (headers s' !! header_of q = Some hq) as Hq' by (rewrite Hh; by rewrite lookup_insert_ne).
    pose proof (geo_disjoint _ HG' _ _ _ _ Hq' Hp Hne) as Hdis.
    assert (extent s' (header_of q) hq = extent s (header_of q) hq) as Hxt.
    { unfold extent. by rewrite Hnews. }
    rewrite Hxt in Hdis. intros (hd' & Hp' & Hx'). simplify_eq. unfold header_of, sizeof_header in *. lia.
Qed.

(** Recycling is exact and last-in first-out: releasing the last reference
    of a block of the arena makes the next request that picks its class return
    the same pointer without [operator new], and a second release of the freed
    pointer before that is caught by the magic check. *)
Theorem pool_recycle s fl p hd i c bytes raw :
  Inv s fl → headers s !! header_of p = Some hd → magic hd = MAGIC → refcount hd = 1 →
  size_class hd = Z.of_nat i → 0 ≤ bytes → picks s bytes i c →
  ∃ s1, release p s = Ok () s1 ∧ release p s1 = Abort ∧ retain p s1 = Abort ∧
    ∃ s2, allocate bytes raw s1 = Ok p s2.
Proof.
  intros HI Hp Hm Hrc Hi Hb Hpick. pose proof (inv_geo _ _ HI) as HG. destruct (Hpick) as (Hc & Hle & Hmin).
  destruct (class_bounds s HG i c Hc) as [Hcb Hlt]. pose proof (lookup_lt_Some _ _ _ Hc) as Hlen.
  destruct (lookup_lt_is_Some_2 fl i) as [l Hl]; [rewrite (inv_nlists _ _ HI); lia|].
  destruct (inv_bins _ _ HI i l Hl) as (b & Hbin & _).
  pose proof (release_recycle_run s fl HI p hd i b Hp Hm Hi Hlt Hrc Hbin) as Hrun.
  pose proof (inv_recycle s fl HI p hd i b l Hp Hm Hi Hlt Hl Hbin) as HI1.
  pose proof (live_nonnull s fl HI p hd Hp) as Hnn.
  set (s1 := after_recycle s i p hd b) in *. exists s1.
  assert (check_magic (header_of p) s1 = Abort) as Hdead.
  { eapply check_magic_dead; [apply lookup_insert_eq|]. cbn. unfold MAGIC. lia. }
  split_and!; [done|..].
  - unfold release. rewrite decide_False by done. run_pool. by rewrite Hdead.
  - unfold retain. rewrite decide_False by done. run_pool. by rewrite Hdead.
  - eexists. eapply (allocate_pop s1 _ HI1 bytes raw i c p l); [exact Hpick|].
    apply list_lookup_insert_eq. by eapply lookup_lt_Some.
Qed.

(** ** Witnesses: an arena of 4096 bytes at address 4096, [operator new] at 2^20 *)

Definition demo_classes : list Z := [64; 16].

Lemma demo_ctor_ok : ctor_ok 4096 4096 demo_classes.
Proof.
  split_and!; try done. repeat constructor; lia.
Qed.

Definition demo_pool : pool := MemoryPool 4096 4096 demo_classes.

Lemma demo_fresh r n : 2 ^ 20 ≤ r → r `mod` max_align = 0 → fresh demo_pool r n.
Proof.
  intros Hr Hal. assert (arena_bytes_ demo_pool = 4032) as Hab by (vm_compute; reflexivity).
  split_and!; [lia|done|right; rewrite Hab; change (arena_base demo_pool) with 4096; lia|].
  intros a k Ha. done.
Qed.

(** One handle owns a block, a second one shares it. *)
Definition demo_world : pool * handles :=
  match run_hop (HMake 0 20 None false) (replicate 3 null_ptr) demo_pool with
  | Ok hs1 s1 =>
      match run_hop (HCopy 1 0) hs1 s1 with Ok hs2 s2 => (s2, hs2) | _ => (demo_pool, []) end
  | _ => (demo_pool, [])
  end.

Lemma demo_reachable_pool : reachable 4096 4096 demo_classes 3 (demo_world.1, demo_world.2).
Proof.
  eapply rtc_l; [eapply (hstep_ok _ _ (HMake 0 20 None false)); [|vm_compute; reflexivity]|].
  { split_and!; try done; cbn; lia. }
  eapply rtc_l; [eapply (hstep_ok _ _ (HCopy 1 0)); [|vm_compute; reflexivity]|].
  { split; cbn; lia. }
  apply rtc_refl.
Qed.

Lemma pool_raii_safe_witness :
  (∃ hs' s', run_hop (HReset 0) demo_world.2 demo_world.1 = Ok hs' s') ∨
  run_hop (HReset 0) demo_world.2 demo_world.1 = BadAlloc demo_world.1.
Proof.
  apply (pool_raii_safe 4096 4096 demo_classes 3); [exact demo_ctor_ok|lia|exact demo_reachable_pool|].
  vm_compute. lia.
Defined.

Lemma pool_refcount_exact_witness :
  refs 4128 demo_world.2 = 2%nat ∧
  ∃ hd, headers demo_world.1 !! header_of 4128 = Some hd ∧ refcount hd = 2 ∧
        stat_live (stats demo_world.1) = 1.
Proof.
  destruct (pool_refcount_exact 4096 4096 demo_classes 3 demo_world.1 demo_world.2)
    as (Hrefs & _ & Hlive & _); [exact demo_ctor_ok|lia|exact demo_reachable_pool|].
  split; [vm_compute; reflexivity|].
  exists (mkHeader MAGIC 1 64 2). split; [vm_compute; reflexivity|].
  split; [exact (proj1 (Hrefs 4128 (mkHeader MAGIC 1 64 2) eq_refl eq_refl))|].
  rewrite Hlive. vm_compute. reflexivity.
Defined.

Definition alloc_result (r : res Z) : Z * pool := match r with Ok p s => (p, s) | _ => (0, demo_pool) end.

Lemma pool_allocate_contract_witness :
  let r := alloc_result (allocate 100 (Some (2 ^ 20)) demo_pool) in
  r.1 = 2 ^ 20 + 32 ∧ r.1 `mod` max_align = 0 ∧ (∀ x, r.1 ≤ x < r.1 + 100 → usable r.2 r.1 x).
Proof.
  intros r. split; [vm_compute; reflexivity|].
  destruct (inv_ctor _ _ _ demo_ctor_ok) as (HI & _).
  destruct (pool_allocate_contract demo_pool _ 100 (Some (2 ^ 20)) r.1 r.2 HI) as (H1 & H2 & _);
    [lia|vm_compute; reflexivity| |vm_compute; reflexivity|exact (conj H1 H2)].
  intros r' Hr'. apply demo_fresh; [|]; injection Hr' as <-; [lia|reflexivity].
Defined.

Lemma pool_recycle_witness :
  let s := (alloc_result (allocate 10 None demo_pool)).2 in
  ∃ s1, release 4128 s = Ok () s1 ∧ release 4128 s1 = Abort ∧ retain 4128 s1 = Abort ∧
    ∃ s2, allocate 16 None s1 = Ok 4128 s2.
Proof.
  intros s. destruct (inv_ctor _ _ _ demo_ctor_ok) as (HI & _).
  destruct (allocate_spec demo_pool _ HI 10 None) as (fl' & Ha & HI'); [lia|vm_compute; reflexivity|done|].
  apply (pool_recycle s fl' 4128 (mkHeader MAGIC 0 16 1) 0 16);
    [apply (HI' 4128); vm_compute; reflexivity|vm_compute; reflexivity|reflexivity|reflexivity
    |reflexivity|lia|].
  split; [vm_compute; reflexivity|split; [lia|]]. intros j d Hj. lia.
Defined.
