(* ===== verification/PooledBuffer.v ===== *)
(** * [PooledBuffer] (src/muses/memory_pool.hpp)

    A growable byte buffer on a pool block.  The methods run in the monad of
    MemoryPool.v; [memcpy] checks the bounds of the block it writes and the
    initialisation of the bytes it reads. *)

From S2P Require Import Prelude MemoryPool PoolSafety PoolOps PoolPtr.
Local Open Scope Z_scope.

Module PooledBuffer.

Record t : Type := mk {
  pool_ : bool;       (* a pool is attached *)
  data_ : Z;
  cap_ : Z;
  len_ : Z;
  scan_pos_ : Z
}.

Definition empty_buffer : t := mk false nullptr 0 0 0.

(** *** Memory of a block *)

Fixpoint put_bytes (a : Z) (bs : list Z) (m : gmap Z obj) : gmap Z obj :=
  match bs with
  | [] => m
  | b :: bs' => <[a := Byte b]> (put_bytes (a + 1) bs' m)
  end.

Fixpoint take_bytes (a : Z) (n : nat) (m : gmap Z obj) : option (list Z) :=
  match n with
  | O => Some []
  | S n' =>
      match m !! a with
      | Some (Byte b) => bs ← take_bytes (a + 1) n' m; Some (b :: bs)
      | _ => None
      end
  end.

(** [[p + off, p + off + n)] lies in the usable region of the live block [p]. *)
Definition in_block (s : pool) (p off n : Z) : bool :=
  match headers s !! header_of p with
  | Some hd => bool_decide (magic hd = MAGIC ∧ 0 ≤ off ∧ 0 ≤ n ∧
                 p + off + n ≤ header_of p + extent s (header_of p) hd)
  | None => false
  end.

Definition write_block (p off : Z) (bs : list Z) : M () := λ s,
  if in_block s p off (Z.of_nat (length bs))
  then Ok () (set_mem (put_bytes (p + off) bs (mem s)) s) else UB.

Definition read_block (p off n : Z) : M (list Z) := λ s,
  if in_block s p off n then valid (take_bytes (p + off) (Z.to_nat n) (mem s)) s else UB.

(** *** Methods *)

Definition release_pool_block (b : t) : M t :=
  _ ← (if pool_ b && bool_decide (data_ b ≠ nullptr) then release (data_ b) else mret ());
  mret (mk (pool_ b) nullptr 0 (len_ b) (scan_pos_ b)).

(** The copy of the live bytes into the fresh block, when there is something to copy. *)
Definition copy_over (b : t) (fresh : Z) : M () :=
  if bool_decide (data_ b ≠ nullptr) && bool_decide (0 < len_ b) then
    bs ← read_block (data_ b) 0 (len_ b); write_block fresh 0 bs
  else mret ().

Definition reserve (b : t) (need : Z) (raw : option Z) : M t :=
  if decide (need ≤ cap_ b) then mret b else
  _ ← valid (if pool_ b then Some () else None);
  fresh ← allocate need raw;
  if decide (fresh = nullptr) then mret b else
  let saved_len := len_ b in
  _ ← copy_over b fresh;
  b ← release_pool_block b;
  mret (mk (pool_ b) fresh need saved_len (scan_pos_ b)).

(** [while (newcap < need) newcap *= 2] *)
Fixpoint grow (fuel : nat) (newcap need : Z) : option Z :=
  match fuel with
  | O => None
  | S f => if decide (newcap < need) then grow f (newcap *64 2) need else Some newcap
  end.

Definition append (b : t) (src : list Z) (raw : option Z) : M (bool * t) :=
  let n := Z.of_nat (length src) in
  if decide (cap_ b < len_ b +64 n) then
    newcap ← valid (grow 65 (if decide (cap_ b = 0) then 4096 else cap_ b) (len_ b +64 n));
    b ← reserve b newcap raw;
    if decide (cap_ b < len_ b +64 n) then mret (false, b) else
    _ ← write_block (data_ b) (len_ b) src;
    mret (true, mk (pool_ b) (data_ b) (cap_ b) (len_ b +64 n) (scan_pos_ b))
  else
    _ ← write_block (data_ b) (len_ b) src;
    mret (true, mk (pool_ b) (data_ b) (cap_ b) (len_ b +64 n) (scan_pos_ b)).

(** [PooledBuffer(pool, initial_cap)] *)
Definition construct (initial_cap : Z) (raw : option Z) : M t :=
  reserve (mk true nullptr 0 0 0) initial_cap raw.

Definition reset_for_reuse (b : t) : t := mk (pool_ b) (data_ b) (cap_ b) 0 0.
Definition set_size (n : Z) (b : t) : t := mk (pool_ b) (data_ b) (cap_ b) n (scan_pos_ b).
Definition set_scan_pos (p : Z) (b : t) : t := mk (pool_ b) (data_ b) (cap_ b) (len_ b) p.
Definition size (b : t) : Z := len_ b.
Definition capacity (b : t) : Z := cap_ b.

(** The move constructor: the new object and what is left of the source. *)
Definition move_construct (o : t) : t * t := (o, mk false nullptr 0 0 0).

(** Move assignment between two different objects. *)
Definition move_assign (self o : t) : M (t * t) :=
  _ ← release_pool_block self;
  mret (mk (pool_ o) (data_ o) (cap_ o) (len_ o) (scan_pos_ o), mk false nullptr 0 0 0).

Definition destroy (b : t) : M () := _ ← release_pool_block b; mret ().
End PooledBuffer.

(** ** Bytes *)

Section bytes.
Import PooledBuffer.

Lemma put_bytes_outside a bs m x :
  ¬ (a ≤ x < a + Z.of_nat (length bs)) → put_bytes a bs m !! x = m !! x.
Proof.
  revert a. induction bs as [|b bs IH]; intros a Hx; cbn [put_bytes]; [done|].
  cbn [length] in Hx. rewrite lookup_insert_ne by lia. apply IH. lia.
Qed.

Lemma take_bytes_ext a n m m' :
  (∀ x, a ≤ x < a + Z.of_nat n → m' !! x = m !! x) → take_bytes a n m' = take_bytes a n m.
Proof.
  revert a. induction n as [|n IH]; intros a Hx; cbn [take_bytes]; [done|].
  rewrite Hx by lia. destruct (m !! a) as [[b|]|]; [|done..]. rewrite IH; [done|].
  intros x Hr. apply Hx. lia.
Qed.

Lemma take_put a bs m : take_bytes a (length bs) (put_bytes a bs m) = Some bs.
Proof.
  revert a. induction bs as [|b bs IH]; intros a; cbn [take_bytes put_bytes length]; [done|].
  rewrite lookup_insert_eq.
  rewrite (take_bytes_ext (a + 1) _ (put_bytes (a + 1) bs m)).
  - rewrite IH. done.
  - intros x Hx. rewrite lookup_insert_ne by lia. done.
Qed.

Lemma take_app a n1 n2 m l1 l2 :
  take_bytes a n1 m = Some l1 → take_bytes (a + Z.of_nat n1) n2 m = Some l2 →
  take_bytes a (n1 + n2) m = Some (l1 ++ l2).
Proof.
  revert a l1. induction n1 as [|n1 IH]; intros a l1 H1 H2; cbn [take_bytes Nat.add] in *.
  - simplify_eq. by rewrite Z.add_0_r in H2.
  - destruct (m !! a) as [[b|]|]; [|done..].
    destruct (take_bytes (a + 1) n1 m) as [l|] eqn:Ht; [|done]. cbn in H1. simplify_eq.
    rewrite (IH (a + 1) l); [done|done|]. rewrite <- H2. f_equal. lia.
Qed.

Lemma take_bytes_length a n m l : take_bytes a n m = Some l → length l = n.
Proof.
  revert a l. induction n as [|n IH]; intros a l; cbn [take_bytes]; [by intros [= <-]|].
  destruct (m !! a) as [[b|]|]; [|done..].
  destruct (take_bytes (a + 1) n m) as [l'|] eqn:Ht; [|done]. cbn. intros [= <-]. cbn. f_equal. by eapply IH.
Qed.

(** ** Writing into a live block keeps the invariant of the pool *)

Lemma in_block_spec s p off n :
  in_block s p off n = true ↔ ∃ hd, headers s !! header_of p = Some hd ∧ magic hd = MAGIC ∧
    0 ≤ off ∧ 0 ≤ n ∧ p + off + n ≤ header_of p + extent s (header_of p) hd.
Proof.
  unfold in_block. destruct (headers s !! header_of p) as [hd|]; [|naive_solver].
  rewrite bool_decide_eq_true. naive_solver.
Qed.

Lemma inv_write s fl p off bs :
  Inv s fl → in_block s p off (Z.of_nat (length bs)) = true →
  Inv (set_mem (put_bytes (p + off) bs (mem s)) s) fl.
Proof.
  intros HI Hin. apply in_block_spec in Hin as (hd & Hp & Hm & Hoff & _ & Hle).
  pose proof (inv_geo _ _ HI) as HG. constructor; try apply HI.
  - destruct HG. by constructor.
  - intros i l Hl. eapply (bin_ok_frame s); [by eapply inv_bins|done| |done].
    intros q Hq. cbn. apply put_bytes_outside. intros Hx.
    destruct (free_pooled s HG i q Hq) as (hq & c & Hhq & Hm0 & Hi & Hc & Hs & _).
    assert (header_of q ≠ header_of p) as Hne.
    { intros Heq. rewrite Heq in Hhq. simplify_eq. unfold MAGIC in *. lia. }
    pose proof (geo_disjoint _ HG _ _ _ _ Hhq Hp Hne) as Hdis.
    rewrite (pooled_extent s HG _ hq i c) in Hdis by done.
    destruct (class_bounds s HG i c Hc) as [Hcb _]. pose proof (block_bytes_spec c Hcb).
    unfold header_of, sizeof_header in *. lia.
Qed.
End bytes.

(** ** What a buffer holds *)

Section buffer.
Import PooledBuffer.

Record block_holds (s : pool) (b : t) (l : list Z) : Prop := mkHolds {
  bh_header : ∃ hd, headers s !! header_of (data_ b) = Some hd ∧ magic hd = MAGIC ∧
                refcount hd = 1 ∧ sizeof_header + cap_ b ≤ extent s (header_of (data_ b)) hd;
  bh_cap : 0 < cap_ b;
  bh_len : len_ b = Z.of_nat (length l) ∧ len_ b ≤ cap_ b;
  bh_bytes : take_bytes (data_ b) (length l) (mem s) = Some l
}.

Definition holds (s : pool) (b : t) (l : list Z) : Prop :=
  pool_ b = true ∧
  (data_ b = nullptr ∧ cap_ b = 0 ∧ len_ b = 0 ∧ l = [] ∨ block_holds s b l).

(** The live block [q] keeps its header and its bytes. *)
Definition kept (q : Z) (hq : BlockHeader) (s s' : pool) : Prop :=
  headers s !! header_of q = Some hq → magic hq = MAGIC →
    headers s' !! header_of q = Some hq ∧
    extent s' (header_of q) hq = extent s (header_of q) hq ∧
    ∀ x, q ≤ x < header_of q + extent s (header_of q) hq → mem s' !! x = mem s !! x.

(** Live blocks other than [p] are kept. *)
Definition others_kept (p : Z) (s s' : pool) : Prop := ∀ q hq, q ≠ p → kept q hq s s'.

Lemma kept_trans q hq s1 s2 s3 : kept q hq s1 s2 → kept q hq s2 s3 → kept q hq s1 s3.
Proof.
  intros H12 H23 Hq Hm. destruct (H12 Hq Hm) as (Hq2 & He2 & Hm2).
  destruct (H23 Hq2 Hm) as (Hq3 & He3 & Hm3). split_and!; [done|congruence|].
  intros x Hx. rewrite Hm3 by (by rewrite He2). by apply Hm2.
Qed.

(** Writing into [p] does not touch other blocks. *)
Lemma write_others s fl p off bs :
  Inv s fl → in_block s p off (Z.of_nat (length bs)) = true →
  others_kept p s (set_mem (put_bytes (p + off) bs (mem s)) s).
Proof.
  intros HI Hin q hq Hne Hq Hm. split_and!; [done|done|]. intros x Hx.
  apply in_block_spec in Hin as (hd & Hp & Hmp & Hoff & _ & Hle). cbn. apply put_bytes_outside.
  assert (header_of q ≠ header_of p) as Hneh by (unfold header_of; lia).
  pose proof (geo_disjoint _ (inv_geo _ _ HI) _ _ _ _ Hq Hp Hneh).
  unfold header_of, sizeof_header in *. lia.
Qed.

Lemma alloc_others s fl bytes raw p s' :
  Inv s fl → 0 ≤ bytes → sizeof_header + bytes < 2 ^ 64 →
  (∀ r, raw = Some r → fresh s r (sizeof_header + bytes)) → allocate bytes raw s = Ok p s' →
  (∀ q hq, kept q hq s s') ∧ ∃ fl' hd, Inv s' fl' ∧ headers s' !! header_of p = Some hd ∧
    magic hd = MAGIC ∧ refcount hd = 1 ∧ sizeof_header + bytes ≤ extent s' (header_of p) hd ∧
    p ≠ nullptr ∧ ∀ hd0, headers s !! header_of p = Some hd0 → magic hd0 = 0.
Proof.
  intros HI Hb Hmax Hfresh Hrun.
  destruct (pool_allocate_frame s fl bytes raw p s' HI Hb Hmax Hfresh Hrun)
    as (fl' & Ha & HI' & Hnews & Hmem & Hext & Hdead & hd & Hh & Hm & Hrc).
  assert (headers s' !! header_of p = Some hd) as Hp by (rewrite Hh; apply lookup_insert_eq).
  split.
  - intros q hq Hq Hmq.
    assert (header_of q ≠ header_of p) as Hneh.
    { intros Heq. rewrite Heq in Hq. specialize (Hdead _ Hq). unfold MAGIC in *. lia. }
    split_and!; [rewrite Hh; by rewrite lookup_insert_ne|unfold extent; by rewrite Hnews|].
    intros x Hx. by eapply Hmem.
  - exists fl', hd. split_and!; try done; [by apply Hext|].
    by eapply (live_nonnull s' fl' HI').
Qed.

Lemma release_others s fl p hd :
  Inv s fl → headers s !! header_of p = Some hd → magic hd = MAGIC →
  ∃ s' fl', release p s = Ok () s' ∧ Inv s' fl' ∧ others_kept p s s'.
Proof.
  intros HI Hp Hm. destruct (release_effect s fl p hd HI Hp Hm) as (s' & fl' & Hrun & HI' & Hh & _).
  destruct (release_frame s fl p hd s' HI Hp Hm Hrun) as [Hmem Hnews].
  exists s', fl'. split_and!; [done|done|]. intros q hq Hne Hq Hmq.
  assert (header_of q ≠ header_of p) as Hneh by (unfold header_of; lia).
  split_and!; [by rewrite Hh|unfold extent; by rewrite Hnews|].
  intros x Hx. apply Hmem. pose proof (geo_disjoint _ (inv_geo _ _ HI) _ _ _ _ Hq Hp Hneh).
  unfold header_of, sizeof_header in *. lia.
Qed.

(** A kept block still holds what it held. *)
Lemma block_holds_kept s s' b l :
  block_holds s b l → (∀ hq, kept (data_ b) hq s s') → block_holds s' b l.
Proof.
  intros [(hd & Hh & Hm & Hrc & Hext) Hcap [Hlen Hle] Hbytes] Hk.
  destruct (Hk hd Hh Hm) as (Hh' & He' & Hm'). constructor; [|done|done|].
  - exists hd. by rewrite He'.
  - rewrite <- Hbytes. apply take_bytes_ext. intros x Hx. apply Hm'. unfold header_of in *. lia.
Qed.

Lemma allocate_total s fl bytes raw :
  Inv s fl → 0 ≤ bytes → sizeof_header + bytes < 2 ^ 64 →
  (∀ r, raw = Some r → fresh s r (sizeof_header + bytes)) →
  allocate bytes raw s = BadAlloc s ∨ ∃ p s', allocate bytes raw s = Ok p s'.
Proof.
  intros HI Hb Hmax Hfresh. destruct (allocate_spec s fl HI bytes raw Hb Hmax Hfresh) as (fl' & Ha & _).
  destruct (allocate bytes raw s) as [p s'|s'| |]; [right; eauto|left; by inversion Ha|inversion Ha..].
Qed.

Lemma copy_over_ok s fl b l p hp :
  Inv s fl → block_holds s b l → headers s !! header_of p = Some hp → magic hp = MAGIC →
  sizeof_header + cap_ b ≤ extent s (header_of p) hp →
  ∃ s', copy_over b p s = Ok () s' ∧ Inv s' fl ∧ headers s' = headers s ∧ news s' = news s ∧
    others_kept p s s' ∧ take_bytes p (length l) (mem s') = Some l.
Proof.
  intros HI Hb Hp Hm Hext. pose proof Hb as [(hd & Hh & Hmd & Hrc & Hxd) Hcap [Hlen Hle] Hbytes].
  unfold copy_over. rewrite (bool_decide_eq_true_2 (data_ b ≠ nullptr)) by (by eapply (live_nonnull s fl HI)).
  destruct l as [|x l].
  - cbn in Hlen. rewrite bool_decide_eq_false_2 by lia. exists s. by split_and!.
  - rewrite bool_decide_eq_true_2 by (cbn in Hlen; lia). cbn [andb]. unfold read_block. run_pool.
    assert (in_block s (data_ b) 0 (len_ b) = true) as ->.
    { apply in_block_spec. exists hd. unfold header_of in *. split_and!; try done; lia. }
    rewrite Z.add_0_r, Hlen, Nat2Z.id, Hbytes. unfold write_block.
    assert (in_block s p 0 (Z.of_nat (length (x :: l))) = true) as Hin.
    { apply in_block_spec. exists hp. unfold header_of in *. split_and!; try done; lia. }
    rewrite Hin. eexists. split; [reflexivity|].
    split_and!; [by apply inv_write|done|done|by eapply write_others|].
    cbn [mem set_mem]. rewrite Z.add_0_r. apply take_put.
Qed.

Lemma reserve_ok s fl b l need raw :
  Inv s fl → holds s b l → cap_ b < need → sizeof_header + need < 2 ^ 64 →
  (∀ r, raw = Some r → fresh s r (sizeof_header + need)) →
  reserve b need raw s = BadAlloc s ∨
  ∃ b' s' fl', reserve b need raw s = Ok b' s' ∧ Inv s' fl' ∧ block_holds s' b' l ∧
    pool_ b' = true ∧ cap_ b' = need ∧ scan_pos_ b' = scan_pos_ b ∧ others_kept (data_ b) s s' ∧
    ∀ hd0, headers s !! header_of (data_ b') = Some hd0 → magic hd0 = 0.
Proof.
  intros HI [Hpool Hcase] Hneed Hmax Hfresh.
  assert (0 ≤ cap_ b) as Hc0 by (destruct Hcase as [(_ & -> & _)|[]]; lia).
  unfold reserve. rewrite decide_False by lia. rewrite Hpool. run_pool.
  destruct (allocate_total s fl need raw HI) as [->|(p & s1 & Hrun)]; [lia|done|done|by left|right].
  rewrite Hrun.
  destruct (alloc_others s fl need raw p s1 HI) as (Hk & fl1 & hp & HI1 & Hp & Hmp & Hrcp & Hxp & Hnn & Hdead);
    [lia|done|done|done|]. rewrite decide_False by done.
  destruct Hcase as [(Hd & Hcap & Hlen & ->)|Hb].
  - unfold copy_over, release_pool_block. run_pool. rewrite Hd, Hlen.
    rewrite (bool_decide_eq_false_2 (nullptr ≠ nullptr)) by tauto. rewrite Hpool. cbn [andb].
    eexists _, s1, fl1. split; [reflexivity|]. split_and!; try done; [|by intros q hq _].
    constructor; cbn; [by exists hp|lia|lia|done].
  - assert (p ≠ data_ b) as Hpd.
    { intros ->. destruct (bh_header _ _ _ Hb) as (hd & Hh & Hm & _). specialize (Hdead _ Hh).
      unfold MAGIC in *. lia. }
    pose proof (block_holds_kept s s1 b l Hb (Hk (data_ b))) as Hb1.
    destruct (copy_over_ok s1 fl1 b l p hp HI1 Hb1 Hp Hmp) as (s2 & Hcopy & HI2 & Hh2 & Hn2 & Ho2 & Ht2); [lia|].
    rewrite Hcopy.
    destruct (bh_header _ _ _ Hb1) as (hd & Hh & Hm & Hrc & _).
    destruct (release_others s2 fl1 (data_ b) hd HI2) as (s3 & fl3 & Hrel & HI3 & Ho3);
      [by rewrite Hh2|done|].
    unfold release_pool_block. run_pool. rewrite Hpool.
    rewrite (bool_decide_eq_true_2 (data_ b ≠ nullptr)) by (by eapply (live_nonnull s1 fl1 HI1)).
    cbn [andb]. rewrite Hrel. eexists _, s3, fl3. split; [reflexivity|].
    split_and!; try done.
    + eapply (block_holds_kept s2).
      * destruct Hb as [_ Hcap [Hlen Hle] _]. constructor; cbn [data_ cap_ len_]; [|lia|split; lia|done].
        exists hp. unfold extent in *. rewrite Hh2, Hn2. done.
      * cbn [data_]. intros hq. by apply Ho3.
    + intros q hq Hq Hhq Hmq. assert (q ≠ p) as Hqp.
      { intros ->. specialize (Hdead _ Hhq). unfold MAGIC in *. lia. }
      revert Hhq Hmq. eapply kept_trans; [apply Hk|]. eapply kept_trans; [by apply Ho2|by apply Ho3].
Qed.

Lemma grow_spec fuel c need :
  0 < c → need ≤ 2 ^ 62 → need ≤ c * 2 ^ Z.of_nat fuel →
  ∃ v, grow (S fuel) c need = Some v ∧ need ≤ v ∧ c ≤ v ∧ (v = c ∨ v < 2 * need).
Proof.
  revert c. induction fuel as [|fuel IH]; intros c Hc Hneed Hpow; cbn [grow].
  - rewrite decide_False by (cbn in Hpow; lia). exists c. split_and!; [done|cbn in Hpow; lia|lia|by left].
  - destruct (decide (c < need)) as [Hlt|Hge]; [|exists c; split_and!; [done|lia|lia|by left]].
    rewrite wrap64_small by lia. destruct (IH (c * 2)) as (v & Hv & H1 & H2 & H3); [lia|done| |].
    + rewrite Nat2Z.inj_succ, Z.pow_succ_r in Hpow by lia. lia.
    + exists v. split_and!; [done|lia|lia|right]. lia.
Qed.

Definition first_cap (b : t) : Z := if decide (cap_ b = 0) then 4096 else cap_ b.

(** Writing behind the live bytes of a block with room. *)
Lemma write_tail s fl b l src :
  Inv s fl → block_holds s b l → len_ b + Z.of_nat (length src) ≤ cap_ b → cap_ b < 2 ^ 64 →
  ∃ s', write_block (data_ b) (len_ b) src s = Ok () s' ∧ Inv s' fl ∧ others_kept (data_ b) s s' ∧
    block_holds s' (mk (pool_ b) (data_ b) (cap_ b) (len_ b +64 Z.of_nat (length src)) (scan_pos_ b)) (l ++ src).
Proof.
  intros HI Hb Hroom Hc64. pose proof Hb as [(hd & Hh & Hm & Hrc & Hext) Hcap [Hlen Hle] Hbytes].
  assert (in_block s (data_ b) (len_ b) (Z.of_nat (length src)) = true) as Hin.
  { apply in_block_spec. exists hd. unfold header_of in *. split_and!; try done; lia. }
  unfold write_block. rewrite Hin. eexists. split; [reflexivity|].
  split_and!; [by apply inv_write|by eapply write_others|].
  rewrite wrap64_small by lia. constructor; cbn [data_ cap_ len_ mem set_mem].
  - exists hd. done.
  - done.
  - rewrite length_app. lia.
  - rewrite length_app. apply take_app.
    + rewrite <- Hbytes. apply take_bytes_ext. intros x Hx. apply put_bytes_outside. lia.
    + rewrite Hlen. apply take_put.
Qed.

(** C30: [append] is append: if the buffer holds [l], then after appending
    [src] it holds [l ++ src], whether the block had room, was grown from
    another block (whose bytes are copied and which is released) or is the
    first one; every other live block of the pool keeps its header and its
    bytes.  If the pool cannot serve the growth the exception leaves the pool
    and the buffer as they were; the result is never [false]. *)
Theorem buffer_append s fl b l src raw :
  Inv s fl → holds s b l → src ≠ [] → cap_ b < 2 ^ 63 →
  Z.of_nat (length l) + Z.of_nat (length src) ≤ 2 ^ 62 →
  (∀ r newcap, raw = Some r → grow 65 (first_cap b) (len_ b +64 Z.of_nat (length src)) = Some newcap →
     fresh s r (sizeof_header + newcap)) →
  append b src raw s = BadAlloc s ∨
  ∃ b' s' fl', append b src raw s = Ok (true, b') s' ∧ Inv s' fl' ∧ holds s' b' (l ++ src) ∧
    scan_pos_ b' = scan_pos_ b ∧ others_kept (data_ b) s s'.
Proof.
  intros HI Hb Hne Hc63 Hmax Hfresh. pose proof Hb as [Hpool Hcase].
  assert (len_ b = Z.of_nat (length l) ∧ 0 ≤ cap_ b) as [Hlen Hc0].
  { destruct Hcase as [(_ & -> & -> & ->)|[_ ? [? ?] _]]; [done|]. lia. }
  assert (0 < Z.of_nat (length src)) as Hpos by (destruct src; [done|cbn; lia]).
  unfold append. rewrite (wrap64_small (len_ b + _)) by lia.
  rewrite (wrap64_small (len_ b + _)) in Hfresh by lia.
  destruct (decide (cap_ b < len_ b + Z.of_nat (length src))) as [Hgrow|Hroom].
  - destruct (grow_spec 64 (first_cap b) (len_ b + Z.of_nat (length src))) as (v & Hv & Hv1 & Hv2 & Hv3).
    { unfold first_cap. case_decide; lia. }
    { lia. }
    { assert (1 ≤ first_cap b) by (unfold first_cap; case_decide; lia). lia. }
    fold (first_cap b). rewrite Hv. run_pool.
    assert (v < 2 ^ 63 ∧ cap_ b < v) as [Hv4 Hv5] by (unfold first_cap in *; case_decide; lia).
    destruct (reserve_ok s fl b l v raw HI Hb) as [->|(b1 & s1 & fl1 & Hrun & HI1 & Hb1 & Hp1 & Hc1 & Hs1 & Ho1 & Hd1)];
      [lia|unfold sizeof_header; lia|by intros; eapply Hfresh|by left|right].
    rewrite Hrun. destruct (bh_len _ _ _ Hb1) as [Hl1 _].
    rewrite decide_False by (rewrite wrap64_small by lia; lia).
    destruct (write_tail s1 fl1 b1 l src HI1 Hb1) as (s2 & Hw & HI2 & Ho2 & Hb2); [lia|lia|].
    rewrite Hw. eexists _, s2, fl1. split; [reflexivity|].
    split_and!; try done; [split; [done|by right]|].
    intros q hq Hq. destruct (decide (q = data_ b1)) as [->|Hq1]; [|eapply kept_trans; [by apply Ho1|by apply Ho2]].
    intros Hhq Hmq. specialize (Hd1 _ Hhq). unfold MAGIC in *. lia.
  - right. destruct Hcase as [(_ & Hcap & Hl0 & _)|Hblock]; [lia|].
    destruct (write_tail s fl b l src HI Hblock) as (s1 & Hw & HI1 & Ho1 & Hb1); [lia|lia|].
    rewrite wrap64_small in Hb1 by lia. run_pool. rewrite Hw. eexists _, s1, fl. split; [reflexivity|].
    split_and!; try done. split; [done|by right].
Qed.

(** Reuse costs no allocation: after [reset_for_reuse] a request that fits
    the block is stored in the same block, for every answer of [operator new];
    nothing of the pool but the bytes of that block changes. *)
Theorem buffer_reuse s fl b l src raw :
  Inv s fl → holds s b l → src ≠ [] → cap_ b < 2 ^ 63 → Z.of_nat (length src) ≤ cap_ b →
  ∃ m b', append (reset_for_reuse b) src raw s = Ok (true, b') (set_mem m s) ∧
    data_ b' = data_ b ∧ cap_ b' = cap_ b ∧ scan_pos_ b' = 0 ∧ holds (set_mem m s) b' src ∧
    others_kept (data_ b) s (set_mem m s).
Proof.
  intros HI [Hpool Hcase] Hne Hc63 Hfit.
  assert (0 < Z.of_nat (length src)) as Hpos by (destruct src; [done|cbn; lia]).
  destruct Hcase as [(_ & Hcap & _)|Hblock]; [lia|].
  assert (block_holds s (reset_for_reuse b) []) as Hb0.
  { destruct Hblock as [Hh Hcap [_ _] _]. constructor; cbn; [exact Hh|lia|lia|done]. }
  destruct (write_tail s fl (reset_for_reuse b) [] src HI Hb0) as (s1 & Hw & HI1 & Ho1 & Hb1);
    [cbn; lia|cbn; lia|].
  unfold append. cbn [len_ cap_ data_ reset_for_reuse pool_ scan_pos_] in *.
  rewrite decide_False by (rewrite wrap64_small by lia; lia). run_pool. rewrite Hw.
  unfold write_block in Hw. destruct (in_block _ _ _ _); [|done]. injection Hw as Hs1. subst s1.
  eexists _, _. split; [reflexivity|]. split_and!; try done. split; [done|by right].
Qed.

Lemma holds_initial s : holds s (mk true nullptr 0 0 0) [].
Proof. split; [done|]. by left. Qed.
End buffer.

(** ** Witnesses *)

Lemma grown_fresh r newcap :
  Some (2 ^ 20) = Some r → PooledBuffer.grow 65 4096 3 = Some newcap →
  fresh demo_pool r (sizeof_header + newcap).
Proof. intros [= <-] _. by apply demo_fresh. Qed.

Lemma buffer_append_witness :
  PooledBuffer.append (PooledBuffer.mk true nullptr 0 0 0) [1; 2; 3] (Some (2 ^ 20)) demo_pool =
    BadAlloc demo_pool ∨
  ∃ b' s' fl', PooledBuffer.append (PooledBuffer.mk true nullptr 0 0 0) [1; 2; 3] (Some (2 ^ 20)) demo_pool =
      Ok (true, b') s' ∧ Inv s' fl' ∧ holds s' b' [1; 2; 3] ∧ PooledBuffer.scan_pos_ b' = 0 ∧
    others_kept nullptr demo_pool s'.
Proof.
  destruct (inv_ctor _ _ _ demo_ctor_ok) as (HI & _).
  apply (buffer_append demo_pool _ (PooledBuffer.mk true nullptr 0 0 0) [] [1; 2; 3] (Some (2 ^ 20)) HI);
    [apply holds_initial|discriminate|reflexivity|vm_compute; discriminate|].
  intros r newcap Hr Hg. by apply grown_fresh.
Defined.

Definition demo_buffer : PooledBuffer.t * pool :=
  match PooledBuffer.append (PooledBuffer.mk true nullptr 0 0 0) [1; 2; 3] (Some (2 ^ 20)) demo_pool with
  | Ok (_, b) s => (b, s)
  | _ => (PooledBuffer.empty_buffer, demo_pool)
  end.

Lemma demo_buffer_holds : ∃ fl, Inv demo_buffer.2 fl ∧ holds demo_buffer.2 demo_buffer.1 [1; 2; 3].
Proof.
  destruct (inv_ctor _ _ _ demo_ctor_ok) as (HI & _).
  destruct (reserve_ok demo_pool _ (PooledBuffer.mk true nullptr 0 0 0) [] 4096 (Some (2 ^ 20)) HI)
    as [Hrun|(b1 & s1 & fl1 & Hrun & HI1 & Hb1 & Hp1 & _)];
    [apply holds_initial|done|done|intros r Hr; injection Hr as <-; by apply demo_fresh|
     vm_compute in Hrun; discriminate|].
  destruct (write_tail s1 fl1 b1 [] [1; 2; 3] HI1 Hb1) as (s2 & Hw & HI2 & _ & Hb2);
    [vm_compute in Hrun; injection Hrun as <- <-; vm_compute; discriminate
    |vm_compute in Hrun; injection Hrun as <- <-; reflexivity|].
  exists fl1. vm_compute in Hrun. injection Hrun as <- <-. vm_compute in Hw. injection Hw as <-.
  split; [exact HI2|]. split; [reflexivity|]. right. exact Hb2.
Qed.

Lemma buffer_reuse_witness :
  ∃ m b', PooledBuffer.append (PooledBuffer.reset_for_reuse demo_buffer.1) [7; 8] None demo_buffer.2 =
      Ok (true, b') (set_mem m demo_buffer.2) ∧
    PooledBuffer.data_ b' = PooledBuffer.data_ demo_buffer.1.
Proof.
  destruct demo_buffer_holds as (fl & HI & Hb).
  destruct (buffer_reuse demo_buffer.2 fl demo_buffer.1 [1; 2; 3] [7; 8] None HI Hb)
    as (m & b' & Hrun & Hd & _); [discriminate|vm_compute; reflexivity|vm_compute; discriminate|].
  exists m, b'. exact (conj Hrun Hd).
Defined.
