(* ===== verification/Http.v ===== *)
(** * HTTP text: [HttpContext::parse_request] and [build_response]
      (src/muses/net_components/http_handler.hpp)

    Strings are lists of characters.  [std::istringstream] is the unread rest of
    the text and the two error bits, with the behaviour of [std::getline],
    [get] and [tellg] that the parser relies on (a [getline] that reaches the end
    of the text sets [eofbit], and any later read fails). *)

From Stdlib Require Import Ascii.
From S2P Require Import Prelude.

Abbreviation str := (list ascii).
Definition lit (s : string) : str := String.list_ascii_of_string s.

Definition CR : ascii := "013"%char.
Definition LF : ascii := "010"%char.
Definition CRLF : str := [CR; LF].
Definition SP : ascii := " "%char.
Definition COLON : ascii := ":"%char.

(** ** [std::string] *)

(** [s.find(pat)]: the first position where [pat] occurs. *)
Fixpoint find_sub (pat l : str) : option nat :=
  if decide (take (length pat) l = pat) then Some 0
  else match l with [] => None | _ :: l' => S <$> find_sub pat l' end.

(** The text up to the first [c] and the text after it. *)
Fixpoint break_at (c : ascii) (l : str) : option (str * str) :=
  match l with
  | [] => None
  | x :: l' =>
      if decide (x = c) then Some ([], l')
      else '(p, q) ← break_at c l'; Some (x :: p, q)
  end.

(** Decimal notation of a number, as [std::format] writes it. *)
Definition digit (n : nat) : ascii := ascii_of_nat (48 + n `mod` 10).

Fixpoint decimal_rev (fuel n : nat) : str :=
  match fuel with
  | O => []
  | S f => digit n :: (if decide (n < 10) then [] else decimal_rev f (n `div` 10))
  end.
Definition decimal (n : nat) : str := reverse (decimal_rev (S n) n).

(** The number a string of digits denotes. *)
Definition decimal_value (l : str) : nat :=
  foldl (λ acc c, acc * 10 + (nat_of_ascii c - 48)) 0 l.

(** ** [std::istringstream] *)

Record stream : Type := mkStream {
  rest : str;
  eofbit : bool;
  failbit : bool
}.

Definition open_stream (s : str) : stream := mkStream s false false.
Definition good (st : stream) : bool := negb (eofbit st) && negb (failbit st).

(** [std::getline(st, s, delim)]: the success of the call, the new value of
    [s] and the stream. *)
Definition getline (delim : ascii) (s : str) (st : stream) : bool * str * stream :=
  if good st then
    match break_at delim (rest st) with
    | Some (line, r) => (true, line, mkStream r false false)
    | None =>
        match rest st with
        | [] => (false, [], mkStream [] true true)
        | l => (true, l, mkStream [] true false)
        end
    end
  else (false, s, mkStream (rest st) (eofbit st) true).

(** [st.get()], the character being ignored. *)
Definition get_char (st : stream) : stream :=
  if good st then
    match rest st with
    | [] => mkStream [] true true
    | _ :: r => mkStream r false false
    end
  else mkStream (rest st) (eofbit st) true.

(** [st.tellg()]: [None] is the position -1. *)
Definition tellg (total : nat) (st : stream) : option nat :=
  if good st then Some (total - length (rest st)) else None.

(** ** Requests *)

Record HttpInfo : Type := mkInfo {
  method : str;
  url : str;
  version : str;
  headers : gmap str str;
  body : str
}.

Definition empty_info : HttpInfo := mkInfo [] [] [] ∅ [].

Definition wants_keep_alive (i : HttpInfo) : bool :=
  match headers i !! lit "Connection" with
  | Some v => bool_decide (find_sub (lit "close") v = None)
  | None => bool_decide (version i = lit "HTTP/1.1")
  end.

(** [line.pop_back()] when the line ends in a carriage return. *)
Definition strip_cr (line : str) : str :=
  match last line with
  | Some c => if decide (c = CR) then take (length line - 1) line else line
  | None => line
  end.

(** One header line added to the map. *)
Definition add_header (line : str) (hs : gmap str str) : gmap str str :=
  let line := strip_cr line in
  let pos := match find_sub (lit ": ") line with
             | Some p => Some p
             | None => find_sub [COLON] line
             end in
  match pos with
  | None => hs
  | Some p =>
      let key := take p line in
      let val := drop (if decide (line !! (p + 1) = Some SP) then p + 2 else p + 1) line in
      <[key := val]> hs
  end.

(** The header loop; every iteration consumes at least one character, so the
    length of the text is enough fuel. *)
Fixpoint header_loop (fuel : nat) (hs : gmap str str) (st : stream) : option (gmap str str * stream) :=
  match fuel with
  | O => None
  | S f =>
      let '(ok, line, st) := getline LF [] st in
      if negb ok then Some (hs, st)
      else if decide (line = [CR] ∨ line = []) then Some (hs, st)
      else header_loop f (add_header line hs) st
  end.

Definition parse_request (request : str) : HttpInfo :=
  let st := open_stream request in
  let '(ok, m, st) := getline SP [] st in
  if negb ok then mkInfo m [] [] ∅ [] else
  let '(ok, u, st) := getline SP [] st in
  if negb ok then mkInfo m u [] ∅ [] else
  let '(ok, ver, st) := getline CR [] st in
  if negb ok then mkInfo m u [] ∅ [] else
  let st := get_char st in
  match header_loop (S (length request)) ∅ st with
  | None => empty_info
  | Some (hs, st) =>
      let b := match tellg (length request) st with
               | Some pos => if decide (pos < length request) then drop pos request else []
               | None => []
               end in
      mkInfo m u ver hs b
  end.

(** ** Responses *)

Definition build_response (status : nat) (status_text content_type body : str) (keep_alive : bool) : str :=
  lit "HTTP/1.1 " ++ decimal status ++ lit " " ++ status_text ++ CRLF ++
  lit "Content-Type: " ++ content_type ++ CRLF ++
  lit "Content-Length: " ++ decimal (length body) ++ CRLF ++
  lit "Connection: " ++ (if keep_alive then lit "keep-alive" else lit "close") ++ CRLF ++
  CRLF ++ body.

(** ** Lemmas on strings *)

Lemma break_at_app c pre post : c ∉ pre → break_at c (pre ++ c :: post) = Some (pre, post).
Proof.
  induction pre as [|x pre IH]; intros Hc; cbn.
  - by rewrite decide_True.
  - rewrite decide_False by set_solver. rewrite IH by set_solver. done.
Qed.

Lemma break_at_Some c l p q : break_at c l = Some (p, q) → l = p ++ c :: q ∧ c ∉ p.
Proof.
  revert p q. induction l as [|x l IH]; intros p q Hb; cbn in Hb; [done|].
  destruct (decide (x = c)) as [->|Hne]; [simplify_eq; set_solver|].
  destruct (break_at c l) as [[p' q']|] eqn:Hb'; [|done]. cbn in Hb. simplify_eq.
  destruct (IH _ _ eq_refl) as [-> ?]. split; [done|set_solver].
Qed.

Lemma find_sub_skip x pat k l : x ∉ k → find_sub (x :: pat) (k ++ x :: pat ++ l) = Some (length k).
Proof.
  induction k as [|y k IH]; intros Hx; cbn [app].
  - cbn [find_sub]. rewrite decide_True; [done|]. cbn. f_equal. by rewrite take_app_length.
  - cbn [find_sub]. rewrite decide_False by (cbn; intros [= ? ?]; set_solver).
    rewrite IH by set_solver. done.
Qed.

Lemma strip_cr_snoc l : strip_cr (l ++ [CR]) = l.
Proof.
  unfold strip_cr. rewrite last_snoc, decide_True by done.
  rewrite length_app. cbn. replace (length l + 1 - 1) with (length l) by lia.
  by rewrite take_app_length.
Qed.

Lemma add_header_line k v hs :
  COLON ∉ k → add_header (k ++ lit ": " ++ v ++ [CR]) hs = <[k := v]> hs.
Proof.
  intros Hk. unfold add_header. rewrite !app_assoc, strip_cr_snoc, <- !app_assoc.
  change (lit ": ") with (COLON :: [SP]). change ((COLON :: [SP]) ++ v) with (COLON :: [SP] ++ v).
  rewrite find_sub_skip by done.
  assert ((k ++ COLON :: [SP] ++ v) !! (length k + 1) = Some SP) as ->.
  { rewrite lookup_app_r by lia. replace (length k + 1 - length k) with 1 by lia. done. }
  rewrite decide_True by done. rewrite take_app_length. f_equal.
  rewrite drop_app_ge by lia. replace (length k + 2 - length k) with 2 by lia. done.
Qed.

(** ** Occurrences of a pattern *)

Definition occurs (pat l : str) (j : nat) : Prop := take (length pat) (drop j l) = pat.

#[export] Instance occurs_dec pat l j : Decision (occurs pat l j).
Proof. unfold occurs. apply _. Defined.

Lemma occurs_bound pat l j : pat ≠ [] → occurs pat l j → j + length pat ≤ length l.
Proof.
  intros Hp Ho. apply (f_equal length) in Ho. rewrite length_take, length_drop in Ho.
  assert (0 < length pat) by (destruct pat; [done|cbn; lia]). lia.
Qed.

Lemma find_sub_spec pat l :
  match find_sub pat l with
  | Some i => occurs pat l i ∧ ∀ j, j < i → ¬ occurs pat l j
  | None => ∀ j, j ≤ length l → ¬ occurs pat l j
  end.
Proof.
  induction l as [|x l IH]; cbn [find_sub].
  - destruct (decide (take (length pat) [] = pat)) as [Ho|Ho].
    + split; [done|lia].
    + intros j Hj. assert (j = 0) as -> by (cbn in Hj; lia). done.
  - destruct (decide (take (length pat) (x :: l) = pat)) as [Ho|Ho]; [split; [done|lia]|].
    destruct (find_sub pat l) as [i|]; cbn.
    + destruct IH as [Hi Hmin]. split; [done|]. intros [|j] Hj; [done|]. apply Hmin. lia.
    + intros [|j] Hj; [done|]. apply IH. cbn in Hj. lia.
Qed.

Lemma find_sub_unique pat l i : pat ≠ [] →
  occurs pat l i → (∀ j, j < i → ¬ occurs pat l j) → find_sub pat l = Some i.
Proof.
  intros Hp Hi Hmin. pose proof (find_sub_spec pat l) as Hs. destruct (find_sub pat l) as [k|].
  - destruct Hs as [Hk Hkmin]. f_equal. destruct (decide (k < i)) as [Hlt|]; [by destruct (Hmin k)|].
    destruct (decide (i < k)) as [Hlt|]; [by destruct (Hkmin i)|lia].
  - destruct (Hs i); [|done]. pose proof (occurs_bound pat l i Hp Hi). lia.
Qed.

Lemma find_sub_None_iff pat l : pat ≠ [] → find_sub pat l = None ↔ ∀ j, ¬ occurs pat l j.
Proof.
  intros Hp. pose proof (find_sub_spec pat l) as Hs. destruct (find_sub pat l) as [i|]; split; try done.
  - intros Hn. destruct (Hn i). apply Hs.
  - intros _ j Hj. pose proof (occurs_bound pat l j Hp Hj). destruct (Hs j); [lia|done].
Qed.

Lemma occurs_drop pat l k j : occurs pat (drop k l) j ↔ occurs pat l (k + j).
Proof. unfold occurs. by rewrite drop_drop. Qed.

Lemma occurs_app_l pat l1 l2 j :
  j + length pat ≤ length l1 → occurs pat (l1 ++ l2) j ↔ occurs pat l1 j.
Proof.
  intros Hj. unfold occurs. rewrite drop_app_le by lia. rewrite take_app_le; [done|].
  rewrite length_drop. lia.
Qed.

(** Searching from [k] on finds the first occurrence when none starts earlier. *)
Lemma find_sub_from pat l k : pat ≠ [] →
  (∀ j, j < k → ¬ occurs pat l j) → (Nat.add k) <$> find_sub pat (drop k l) = find_sub pat l.
Proof.
  intros Hp Hk. pose proof (find_sub_spec pat (drop k l)) as Hs.
  destruct (find_sub pat (drop k l)) as [i|] eqn:Hf; cbn.
  - destruct Hs as [Hi Hmin]. symmetry. apply find_sub_unique; [done|by apply occurs_drop|].
    intros j Hj Ho. destruct (decide (j < k)) as [|Hge]; [by eapply Hk|].
    apply (Hmin (j - k)); [lia|]. apply occurs_drop. by replace (k + (j - k)) with j by lia.
  - symmetry. apply find_sub_None_iff; [done|]. intros j Ho.
    destruct (decide (j < k)) as [|Hge]; [by eapply Hk|].
    rewrite find_sub_None_iff in Hf by done. apply (Hf (j - k)). apply occurs_drop.
    by replace (k + (j - k)) with j by lia.
Qed.

Lemma find_sub_app pat l1 l2 i : find_sub pat l1 = Some i → find_sub pat (l1 ++ l2) = Some i.
Proof.
  destruct (decide (pat = [])) as [->|Hp].
  { intros Hf. destruct l1; cbn in Hf; simplify_eq; by destruct l2. }
  intros Hf. pose proof (find_sub_spec pat l1) as Hs. rewrite Hf in Hs. destruct Hs as [Hi Hmin].
  pose proof (occurs_bound _ _ _ Hp Hi) as Hb. apply find_sub_unique; [done|by apply occurs_app_l|].
  intros j Hj Ho. apply (Hmin j Hj). eapply occurs_app_l; [|exact Ho]. lia.
Qed.

(** ** Printing, the inverse of parsing *)

Definition print_header (kv : str * str) : str := kv.1 ++ lit ": " ++ kv.2 ++ CRLF.
Definition print_request (m u ver : str) (hs : list (str * str)) (b : str) : str :=
  m ++ [SP] ++ u ++ [SP] ++ ver ++ CRLF ++ (hs ≫= print_header) ++ CRLF ++ b.

Definition insert_all (hs : list (str * str)) (m : gmap str str) : gmap str str :=
  foldl (λ m kv, <[kv.1 := kv.2]> m) m hs.

Definition header_ok (kv : str * str) : Prop := COLON ∉ kv.1 ∧ LF ∉ kv.1 ∧ LF ∉ kv.2.

Lemma header_loop_print hs m b fuel :
  Forall header_ok hs → length hs < fuel →
  header_loop fuel m (mkStream ((hs ≫= print_header) ++ CRLF ++ b) false false) =
    Some (insert_all hs m, mkStream b false false).
Proof.
  intros Hok. revert m fuel. induction Hok as [|[k v] hs [Hk [Hk2 Hv]] Hok IH]; intros m fuel Hf;
    (destruct fuel as [|fuel]; [cbn in Hf; lia|]); cbn [header_loop]; unfold getline; cbn [good eofbit failbit negb andb rest].
  - change (([] ≫= print_header) ++ CRLF ++ b) with ([CR] ++ LF :: b). rewrite break_at_app by set_solver.
    cbn. by rewrite decide_True by (by left).
  - cbn [mbind list_bind]. unfold print_header at 1. cbn [fst snd].
    replace ((k ++ lit ": " ++ v ++ CRLF) ++ (hs ≫= print_header)) with
      ((k ++ lit ": " ++ v ++ [CR]) ++ LF :: (hs ≫= print_header))
      by (unfold CRLF; rewrite <- !app_assoc; done).
    rewrite <- app_assoc. cbn [app]. rewrite break_at_app.
    2: { cbn in Hk2, Hv. rewrite !not_elem_of_app. split_and!; [done|apply (bool_decide_unpack _); vm_compute; exact I|done|
           apply (bool_decide_unpack _); vm_compute; exact I]. }
    cbn [negb]. rewrite decide_False.
    2: { intros [H|H]; apply (f_equal length) in H; rewrite !length_app in H; cbn in H; lia. }
    rewrite add_header_line by done. rewrite IH by (cbn in Hf; lia). done.
Qed.

(** ** Decimal numbers *)

Lemma digit_value n : nat_of_ascii (digit n) - 48 = n `mod` 10.
Proof.
  unfold digit. pose proof (Nat.mod_upper_bound n 10). rewrite nat_ascii_embedding by lia. lia.
Qed.

Lemma decimal_rev_value fuel n :
  n < fuel → foldr (λ c acc, acc * 10 + (nat_of_ascii c - 48)) 0 (decimal_rev fuel n) = n.
Proof.
  revert n. induction fuel as [|fuel IH]; intros n Hn; [lia|]. cbn [decimal_rev foldr].
  rewrite digit_value. pose proof (Nat.div_mod n 10). case_decide.
  - cbn [foldr]. rewrite Nat.mod_small by lia. lia.
  - rewrite IH by (pose proof (Nat.div_lt n 10); lia). lia.
Qed.

Lemma decimal_value_reverse l :
  decimal_value (reverse l) = foldr (λ c acc, acc * 10 + (nat_of_ascii c - 48)) 0 l.
Proof.
  unfold decimal_value. induction l as [|c l IH]; [done|].
  rewrite reverse_cons, foldl_app, IH. done.
Qed.

Lemma decimal_roundtrip n : decimal_value (decimal n) = n.
Proof.
  unfold decimal. rewrite decimal_value_reverse. apply (decimal_rev_value (S n) n). lia.
Qed.

Lemma decimal_digits n c : c ∈ decimal n → ∃ k, k < 10 ∧ c = ascii_of_nat (48 + k).
Proof.
  unfold decimal. rewrite elem_of_reverse. generalize (S n) as fuel. intros fuel. revert n.
  induction fuel as [|fuel IH]; intros n Hc; cbn [decimal_rev] in Hc; [set_solver|].
  apply elem_of_cons in Hc as [->|Hc].
  - exists (n `mod` 10). split; [apply Nat.mod_upper_bound; lia|done].
  - case_decide; [set_solver|]. by apply (IH (n `div` 10)).
Qed.

Lemma not_in_decimal n c : (∀ k, k < 10 → c ≠ ascii_of_nat (48 + k)) → c ∉ decimal n.
Proof. intros Hc Hin. apply decimal_digits in Hin as (k & Hk & ->). by apply (Hc k). Qed.

Ltac no_digit := apply not_in_decimal; intros k Hk; do 10 (destruct k as [|k]; [discriminate|]); lia.

Ltac not_in_literal := apply (bool_decide_unpack _); vm_compute; exact I.

(** ** Properties *)

(** The loop bound of the parser is enough for every text. *)
Lemma header_loop_total fuel m st :
  length (rest st) < fuel → ∃ r, header_loop fuel m st = Some r.
Proof.
  revert m st. induction fuel as [|fuel IH]; intros m st Hf; [lia|]. cbn [header_loop]. unfold getline.
  destruct (good st) eqn:Hg; [|by eexists].
  destruct (break_at LF (rest st)) as [[line r]|] eqn:Hb.
  - apply break_at_Some in Hb as [Hr _]. cbn [negb]. case_decide; [by eexists|]. apply IH. cbn.
    rewrite Hr, length_app in Hf. cbn in Hf. lia.
  - destruct (rest st) as [|x l] eqn:Hr; [by eexists|]. cbn [negb]. case_decide; [by eexists|].
    apply IH. cbn in *. lia.
Qed.

Lemma length_headers hs : length hs ≤ length (hs ≫= print_header).
Proof.
  induction hs as [|[k v] hs IH]; [done|]. change (((k, v) :: hs) ≫= print_header) with
    (print_header (k, v) ++ (hs ≫= print_header)). unfold print_header at 1. rewrite !length_app.
  cbn [length fst snd] in *. change (length (lit ": ")) with 2. lia.
Qed.

Lemma parse_print m u ver hs b :
  SP ∉ m → SP ∉ u → CR ∉ ver → Forall header_ok hs →
  parse_request (print_request m u ver hs b) = mkInfo m u ver (insert_all hs ∅) b.
Proof.
  intros Hm Hu Hver Hhs. unfold parse_request, open_stream, getline at 1.
  cbn [good eofbit failbit negb andb rest].
  set (r1 := u ++ [SP] ++ ver ++ CRLF ++ (hs ≫= print_header) ++ CRLF ++ b).
  set (r2 := (hs ≫= print_header) ++ CRLF ++ b).
  change (print_request m u ver hs b) with (m ++ SP :: r1).
  rewrite (break_at_app SP m r1) by done. cbn [negb]. unfold getline at 1. cbn [good eofbit failbit negb andb rest].
  unfold r1 at 1. change (u ++ [SP] ++ ver ++ CRLF ++ (hs ≫= print_header) ++ CRLF ++ b)
    with (u ++ SP :: (ver ++ CR :: LF :: r2)).
  rewrite break_at_app by done. cbn [negb]. unfold getline at 1. cbn [good eofbit failbit negb andb rest].
  rewrite break_at_app by done. cbn [negb get_char good eofbit failbit andb rest].
  assert (length hs ≤ length r2) as Hlen.
  { unfold r2. rewrite length_app. pose proof (length_headers hs). lia. }
  assert (length r1 = length u + 1 + length ver + 2 + length r2) as Hr1.
  { unfold r1, r2, CRLF. rewrite !length_app. cbn [length]. lia. }
  rewrite (header_loop_print hs ∅ b) by (try done; rewrite length_app; cbn [length]; lia).
  unfold tellg. cbn [good eofbit failbit negb andb rest]. f_equal.
  set (req := m ++ SP :: r1).
  assert (∃ pre, req = pre ++ b) as [pre Hreq].
  { exists (m ++ [SP] ++ u ++ [SP] ++ ver ++ CRLF ++ (hs ≫= print_header) ++ CRLF).
    unfold req, r1. rewrite <- !app_assoc. done. }
  rewrite Hreq, length_app. replace (length pre + length b - length b) with (length pre) by lia.
  rewrite drop_app_length. case_decide; [done|]. destruct b; [done|]. cbn in *. lia.
Qed.

(** C31: Parsing inverts printing: a request whose method and target hold no
    space, whose version holds no carriage return and whose header lines are
    well formed is parsed into exactly those parts; a repeated header keeps its
    last value, and the body is every byte after the empty line, whatever it is. *)
Theorem parse_print_request m u ver hs b :
  SP ∉ m → SP ∉ u → CR ∉ ver → Forall header_ok hs →
  parse_request (print_request m u ver hs b) = mkInfo m u ver (insert_all hs ∅) b.
Proof. apply parse_print. Qed.

(** C36: Responses are framed correctly: a response, read back as a message,
    has the status line given, exactly three headers, a [Content-Length] whose
    value is the length of the body, and the body itself byte for byte. *)
Theorem build_response_framing status text ctype b ka :
  CR ∉ text → LF ∉ ctype →
  let i := parse_request (build_response status text ctype b ka) in
  method i = lit "HTTP/1.1" ∧ decimal_value (url i) = status ∧ version i = text ∧
  body i = b ∧
  headers i = <[lit "Connection" := if ka then lit "keep-alive" else lit "close"]>
              (<[lit "Content-Length" := decimal (length b)]> {[lit "Content-Type" := ctype]}) ∧
  (decimal_value <$> headers i !! lit "Content-Length") = Some (length b) ∧
  wants_keep_alive i = ka.
Proof.
  intros Htext Hctype i.
  set (hs := [(lit "Content-Type", ctype); (lit "Content-Length", decimal (length b));
              (lit "Connection", if ka then lit "keep-alive" else lit "close")]).
  assert (build_response status text ctype b ka =
          print_request (lit "HTTP/1.1") (decimal status) text hs b) as Heq.
  { unfold build_response, print_request, hs. cbn [mbind list_bind]. unfold print_header. cbn [fst snd].
    rewrite app_nil_r, <- !app_assoc. destruct ka; reflexivity. }
  assert (i = mkInfo (lit "HTTP/1.1") (decimal status) text (insert_all hs ∅) b) as ->.
  { unfold i. rewrite Heq. apply parse_print; [not_in_literal|no_digit|exact Htext|].
    unfold hs. apply Forall_cons. split; [split_and!; [not_in_literal|not_in_literal|exact Hctype]|].
    apply Forall_cons. split; [split_and!; [not_in_literal|not_in_literal|no_digit]|].
    apply Forall_cons. split; [|by apply Forall_nil]. destruct ka; split_and!; not_in_literal. }
  assert (insert_all hs ∅ = <[lit "Connection" := if ka then lit "keep-alive" else lit "close"]>
    (<[lit "Content-Length" := decimal (length b)]> {[lit "Content-Type" := ctype]})) as Hins
    by reflexivity.
  cbn [method url version body headers]. rewrite Hins, decimal_roundtrip.
  split_and!; [reflexivity|reflexivity|reflexivity|reflexivity|reflexivity| |].
  - rewrite lookup_insert_ne by discriminate. rewrite lookup_insert_eq.
    change (Some (decimal_value (decimal (length b))) = Some (length b)). by rewrite decimal_roundtrip.
  - unfold wants_keep_alive. cbn [headers]. rewrite lookup_insert_eq. by destruct ka.
Qed.

(** A malformed request is not reported as an empty one: text without the
    two spaces of a request line ends up in the method, and a request line with
    two adjacent spaces gives an empty target together with a valid method. *)
Theorem parse_malformed :
  parse_request (lit "GET" ++ CRLF ++ CRLF) = mkInfo (lit "GET" ++ CRLF ++ CRLF) [] [] ∅ [] ∧
  parse_request (lit "GET  HTTP/1.1" ++ CRLF ++ CRLF) = mkInfo (lit "GET") [] (lit "HTTP/1.1") ∅ [].
Proof. split; vm_compute; reflexivity. Qed.

(** ** Witnesses *)

Lemma parse_print_request_witness :
  parse_request (print_request (lit "GET") (lit "/a") (lit "HTTP/1.1") [(lit "Host", lit "h")] (lit "x")) =
  mkInfo (lit "GET") (lit "/a") (lit "HTTP/1.1") (insert_all [(lit "Host", lit "h")] ∅) (lit "x").
Proof.
  apply parse_print_request; [not_in_literal|not_in_literal|not_in_literal|].
  repeat constructor; cbn [fst snd]; not_in_literal.
Defined.

Lemma build_response_framing_witness :
  body (parse_request (build_response 200 (lit "OK") (lit "text/plain") (lit "hello") true)) = lit "hello" ∧
  wants_keep_alive (parse_request (build_response 200 (lit "OK") (lit "text/plain") (lit "hello") true)) = true.
Proof.
  destruct (build_response_framing 200 (lit "OK") (lit "text/plain") (lit "hello") true)
    as (_ & _ & _ & Hb & _ & _ & Hk); [not_in_literal|not_in_literal|]. exact (conj Hb Hk).
Defined.
