(* ===== verification/Messages.v ===== *)
(** * Heads of HTTP messages

    Where the head of a printed message ends: the reactor and the proxy both look
    for the first empty line. *)

From Stdlib Require Import Ascii.
From S2P Require Import Prelude Http.

(** The end of a line and an empty line. *)
Definition head_mark : str := CRLF ++ CRLF.

Lemma occurs_lookup pat l j i c : occurs pat l j → pat !! i = Some c → l !! (j + i) = Some c.
Proof.
  unfold occurs. intros Ho Hi. rewrite <- Ho in Hi.
  rewrite lookup_take_Some, lookup_drop in Hi. by destruct Hi.
Qed.

Lemma not_in_lookup {A} (x : A) (l : list A) i : x ∉ l → l !! i ≠ Some x.
Proof. intros Hn Hi. apply Hn. by eapply list_elem_of_lookup_2. Qed.

(** A line that is followed by another line of at least two characters. *)
Lemma mark_skip line line2 more :
  LF ∉ line → LF ∉ line2 → 2 ≤ length line2 →
  find_sub head_mark (line ++ LF :: line2 ++ more) =
    Nat.add (S (length line)) <$> find_sub head_mark (line2 ++ more).
Proof.
  intros H1 H2 Hlen.
  assert (drop (S (length line)) (line ++ LF :: line2 ++ more) = line2 ++ more) as Hd.
  { replace (line ++ LF :: line2 ++ more) with ((line ++ [LF]) ++ line2 ++ more) by (by rewrite <- app_assoc).
    replace (S (length line)) with (length (line ++ [LF])) by (rewrite length_app; cbn; lia).
    apply drop_app_length. }
  rewrite <- Hd at 2. symmetry. apply find_sub_from; [done|].
  intros j Hj Ho.
  pose proof (occurs_lookup _ _ _ 0 CR Ho eq_refl) as H0. pose proof (occurs_lookup _ _ _ 1 LF Ho eq_refl) as Hl1.
  pose proof (occurs_lookup _ _ _ 3 LF Ho eq_refl) as Hl3.
  destruct (decide (j + 1 < length line)) as [Hin|Hout].
  - rewrite lookup_app_l in Hl1 by lia. exact (not_in_lookup _ _ _ H1 Hl1).
  - destruct (decide (j = length line)) as [->|Hne].
    + rewrite Nat.add_0_r, lookup_app_r, Nat.sub_diag in H0 by lia. done.
    + assert (j + 1 = length line) by lia. rewrite lookup_app_r in Hl3 by lia.
      replace (j + 3 - length line) with 2 in Hl3 by lia.
      change ((line2 ++ more) !! 1 = Some LF) in Hl3.
      rewrite lookup_app_l in Hl3 by lia. exact (not_in_lookup _ _ _ H2 Hl3).
Qed.

Lemma mark_here line more :
  LF ∉ line → find_sub head_mark (line ++ CRLF ++ CRLF ++ more) = Some (length line).
Proof.
  intros Hl. apply find_sub_unique; [done| |].
  - unfold occurs. rewrite drop_app_length. done.
  - intros j Hj Ho. pose proof (occurs_lookup _ _ _ 1 LF Ho eq_refl) as Hl1.
    destruct (decide (j + 1 < length line)).
    + rewrite lookup_app_l in Hl1 by lia. exact (not_in_lookup _ _ _ Hl Hl1).
    + rewrite lookup_app_r in Hl1 by lia. by replace (j + 1 - length line) with 0 in Hl1 by lia.
Qed.

Lemma end_of_lines line hs b :
  LF ∉ line → Forall header_ok hs →
  find_sub head_mark (line ++ CRLF ++ (hs ≫= print_header) ++ CRLF ++ b) =
    Some (length line + length (hs ≫= print_header)).
Proof.
  intros Hl Hok. revert line Hl. induction Hok as [|[k v] hs [Hk [Hk2 Hv]] Hok IH]; intros line Hl.
  - change (([] ≫= print_header) ++ CRLF ++ b) with (CRLF ++ b). rewrite mark_here by done.
    cbn. f_equal. lia.
  - set (line2 := k ++ lit ": " ++ v).
    assert (LF ∉ line2) as Hl2.
    { unfold line2. cbn in Hk2, Hv. rewrite !not_elem_of_app. split_and!; [done|not_in_literal|done]. }
    assert (2 ≤ length line2) as Hlen by (unfold line2; rewrite !length_app; change (length (lit ": ")) with 2; lia).
    assert (print_header (k, v) = line2 ++ CRLF) as Hp.
    { unfold print_header, line2. cbn [fst snd]. by rewrite <- !app_assoc. }
    change (((k, v) :: hs) ≫= print_header) with (print_header (k, v) ++ (hs ≫= print_header)). rewrite Hp.
    replace (line ++ CRLF ++ ((line2 ++ CRLF) ++ (hs ≫= print_header)) ++ CRLF ++ b) with
      ((line ++ [CR]) ++ LF :: line2 ++ CRLF ++ (hs ≫= print_header) ++ CRLF ++ b)
      by (rewrite <- !app_assoc; done).
    rewrite mark_skip; [|rewrite not_elem_of_app; split; [done|not_in_literal]|done|done].
    rewrite IH by done. cbn [fmap option_fmap option_map]. f_equal.
    rewrite !length_app. change (length CRLF) with 2. cbn [length]. lia.
Qed.

Record line_ok (m u ver : str) : Prop := mkLineOk {
  line_m : SP ∉ m ∧ LF ∉ m;
  line_u : SP ∉ u ∧ LF ∉ u;
  line_v : CR ∉ ver ∧ LF ∉ ver
}.

(** The head of a message, with its empty line. *)
Definition print_head (m u ver : str) (hs : list (str * str)) : str := print_request m u ver hs [].

Lemma print_request_app m u ver hs b b' :
  print_request m u ver hs (b ++ b') = print_request m u ver hs b ++ b'.
Proof. unfold print_request. by rewrite <- !app_assoc. Qed.

Lemma print_request_head m u ver hs b : print_request m u ver hs b = print_head m u ver hs ++ b.
Proof. apply (print_request_app m u ver hs []). Qed.

Lemma head_ends m u ver hs b :
  line_ok m u ver → Forall header_ok hs →
  find_sub head_mark (print_request m u ver hs b) = Some (length (print_head m u ver hs) - 4).
Proof.
  intros [[_ Hm] [_ Hu] [_ Hv]] Hok.
  set (line := m ++ [SP] ++ u ++ [SP] ++ ver).
  assert (∀ b, print_request m u ver hs b = line ++ CRLF ++ (hs ≫= print_header) ++ CRLF ++ b) as Hp.
  { intros b0. unfold print_request, line. by rewrite <- !app_assoc. }
  unfold print_head. rewrite !Hp, end_of_lines; [|unfold line|done].
  - rewrite !length_app. change (length CRLF) with 2. f_equal. cbn [length]. lia.
  - rewrite !not_elem_of_app. split_and!; [done|not_in_literal|done|not_in_literal|done].
Qed.

(** A head contains the mark once, at its end. *)
Lemma head_only_at_end m u ver hs pre rest :
  line_ok m u ver → Forall header_ok hs →
  print_head m u ver hs = pre ++ rest → rest ≠ [] → ∀ j, ¬ occurs head_mark pre j.
Proof.
  intros Hl Hok Heq Hne j Ho. pose proof (head_ends m u ver hs [] Hl Hok) as Hend.
  change (print_request m u ver hs []) with (print_head m u ver hs) in Hend. rewrite Heq in Hend.
  pose proof (find_sub_spec head_mark pre) as Hs. destruct (find_sub head_mark pre) as [i|] eqn:Hf.
  - rewrite (find_sub_app _ _ _ _ Hf) in Hend. injection Hend as Hi. destruct Hs as [Hi' _].
    apply occurs_bound in Hi'; [|done]. change (length head_mark) with 4 in Hi'.
    rewrite length_app in Hi. destruct rest; [done|]. cbn [length] in Hi. lia.
  - rewrite find_sub_None_iff in Hf by done. by eapply Hf.
Qed.
