(* ===== verification/Cstdlib.v ===== *)
(** * Numbers in text, as the C library reads them

    [atoi], [strtoull] and [std::stoull]: white space, a sign, digits. *)

From Stdlib Require Import Ascii.
From S2P Require Import Prelude Http.

Definition isspace (c : ascii) : bool :=
  let n := nat_of_ascii c in bool_decide (n = 32 ∨ (9 ≤ n ∧ n ≤ 13)).
Definition isdigit (c : ascii) : bool :=
  let n := nat_of_ascii c in bool_decide (48 ≤ n ∧ n ≤ 57).

Fixpoint drop_while (f : ascii → bool) (l : str) : str :=
  match l with x :: l' => if f x then drop_while f l' else l | [] => [] end.
Fixpoint take_while (f : ascii → bool) (l : str) : str :=
  match l with x :: l' => if f x then x :: take_while f l' else [] | [] => [] end.

(** The sign, and the digits that follow it. *)
Definition scan_number (l : str) : bool * str :=
  let l := drop_while isspace l in
  let '(neg, l) := match l with
                   | c :: l' => if decide (c = "-"%char) then (true, l')
                                else if decide (c = "+"%char) then (false, l') else (false, l)
                   | [] => (false, [])
                   end in
  (neg, take_while isdigit l).

Definition digits_value (ds : str) : Z :=
  foldl (λ acc c, acc * 10 + Z.of_nat (nat_of_ascii c - 48))%Z 0%Z ds.

(** [std::atoi]: undefined when the value is not an [int]. *)
Definition atoi (l : str) : outcome Z :=
  let '(neg, ds) := scan_number l in
  let v := if neg then (- digits_value ds)%Z else digits_value ds in
  if decide (- 2 ^ 31 ≤ v < 2 ^ 31)%Z then Ret v else Undef.

(** [std::strtoull]: the largest value when it is too large; a minus sign negates
    in the unsigned type. *)
Definition strtoull (l : str) : Z :=
  let '(neg, ds) := scan_number l in
  let v := digits_value ds in
  if decide (2 ^ 64 ≤ v)%Z then (2 ^ 64 - 1)%Z else if neg then wrap64 (- v) else v.

(** [std::stoull]: [None] when it throws. *)
Definition stoull (l : str) : option Z :=
  let '(neg, ds) := scan_number l in
  match ds with
  | [] => None
  | _ =>
      let v := digits_value ds in
      if decide (2 ^ 64 ≤ v)%Z then None else Some (if neg then wrap64 (- v) else v)
  end.

(** ** Reading back what was printed *)

Lemma digits_fold_nat ds : ∀ a : nat,
  foldl (λ acc c, acc * 10 + Z.of_nat (nat_of_ascii c - 48))%Z (Z.of_nat a) ds =
  Z.of_nat (foldl (λ acc c, acc * 10 + (nat_of_ascii c - 48)) a ds).
Proof.
  induction ds as [|c ds IH]; intros a; cbn [foldl]; [done|]. rewrite <- IH. f_equal. lia.
Qed.

Lemma digits_value_nat ds : digits_value ds = Z.of_nat (decimal_value ds).
Proof. apply (digits_fold_nat ds 0). Qed.

Lemma decimal_isdigit n c : c ∈ decimal n → isdigit c = true.
Proof.
  intros (k & Hk & ->)%decimal_digits. unfold isdigit. apply bool_decide_eq_true_2.
  rewrite nat_ascii_embedding by lia. lia.
Qed.

Lemma take_while_all f l : (∀ c, c ∈ l → f c = true) → take_while f l = l.
Proof.
  induction l as [|x l IH]; intros Hf; cbn; [done|]. rewrite Hf by set_solver. f_equal. apply IH. set_solver.
Qed.

Lemma isdigit_plain c : isdigit c = true → isspace c = false ∧ c ≠ "-"%char ∧ c ≠ "+"%char.
Proof.
  unfold isdigit, isspace. intros Hd%bool_decide_eq_true. split_and!.
  - apply bool_decide_eq_false_2. lia.
  - intros ->. vm_compute in Hd. lia.
  - intros ->. vm_compute in Hd. lia.
Qed.

Lemma scan_decimal n : scan_number (decimal n) = (false, decimal n).
Proof.
  assert (∀ c, c ∈ decimal n → isdigit c = true) as Hd by apply decimal_isdigit.
  unfold scan_number. destruct (decimal n) as [|c l] eqn:E; [done|].
  destruct (isdigit_plain c) as (Hs & Hm & Hp); [apply Hd; left|].
  cbn [drop_while]. rewrite Hs. rewrite !decide_False by done. f_equal. by apply take_while_all.
Qed.

Lemma atoi_decimal n : (Z.of_nat n < 2 ^ 31)%Z → atoi (decimal n) = Ret (Z.of_nat n).
Proof.
  intros Hn. unfold atoi. rewrite scan_decimal, digits_value_nat, decimal_roundtrip. cbn [negb].
  rewrite decide_True by lia. done.
Qed.

Lemma strtoull_decimal n : (Z.of_nat n < 2 ^ 64)%Z → strtoull (decimal n) = Z.of_nat n.
Proof.
  intros Hn. unfold strtoull. rewrite scan_decimal, digits_value_nat, decimal_roundtrip.
  by rewrite decide_False by lia.
Qed.
