(* ===== verification/HttpHandler.v ===== *)
(** * The static-file handler: [HttpContext::handle_request]
      (src/muses/net_components/http_handler.hpp)

    The file system is a parameter: what [std::filesystem] and [std::ifstream]
    answer.  The process-wide file cache is an instance of the interface
    [Cache], whose laws are what the handler needs; LruCache.v provides the
    instance the program uses. *)

From Stdlib Require Import Ascii.
From S2P Require Import Prelude LruCache Http.

(** ** What the handler needs from a cache *)

Class Cache (K V C : Type) : Type := {
  cget : K → C → outcome (option V * C);
  cput : K → V → C → outcome C;
  cwf : C → Prop;
  (** the pairs a lookup may return *)
  centry : C → K → V → Prop
}.

Class CacheLaws (K V C : Type) `{!Cache K V C} : Prop := {
  cget_ok k c : cwf c → ∃ r c', cget k c = Ret (r, c') ∧ cwf c' ∧
    (∀ v, r = Some v → centry c k v) ∧ (∀ k' v', centry c' k' v' → centry c k' v');
  cput_ok k v c : cwf c → ∃ c', cput k v c = Ret c' ∧ cwf c' ∧
    (∀ k' v', centry c' k' v' → (k' = k ∧ v' = v) ∨ centry c k' v')
}.

(** ** [LruCache] is such a cache *)

#[export] Instance lru_is_cache {K V} `{Countable K} : Cache K V (LruCache.t K V) := {
  cget := LruCache.get;
  cput := LruCache.put;
  cwf := LruCache.wf;
  centry c k v := (k, v) ∈ LruCache.abs c
}.

Section lru_laws.
Context {K V : Type} `{Countable K}.

Lemma lookup_key_elem (k : K) (v : V) l : LruSpec.lookup_key k l = Some v → (k, v) ∈ l.
Proof.
  induction l as [|[k' v'] l IH]; cbn; [done|]. case_decide; [|set_solver]. intros [= ->]. subst. set_solver.
Qed.

Lemma remove_key_subset (k : K) (l : list (K * V)) e : e ∈ LruSpec.remove_key k l → e ∈ l.
Proof. induction l as [|[k' v'] l IH]; cbn; [done|]. case_decide; set_solver. Qed.

#[export] Instance lru_cache_laws : CacheLaws K V (LruCache.t K V).
Proof.
  constructor; cbn.
  - intros k c Hwf. destruct (LruCache.get_refines k c Hwf) as (c' & Hrun & Habs & Hwf' & _).
    eexists _, c'. split; [exact Hrun|]. split; [done|]. rewrite Habs. unfold LruSpec.spec_get.
    destruct (LruSpec.lookup_key k (LruCache.abs c)) as [v|] eqn:Hl; cbn; [|done].
    apply lookup_key_elem in Hl. split; [by intros ? [= <-]|].
    intros k' v' [Heq|Hin]%elem_of_cons; [by simplify_eq|by eapply remove_key_subset].
  - intros k v c Hwf. destruct (LruCache.put_refines k v c Hwf) as (c' & Hrun & Habs & Hwf' & _).
    exists c'. split_and!; [done|done|]. rewrite Habs. intros k' v'. unfold LruSpec.spec_put.
    destruct (LruCache.max_entries_ c) as [|cap]; [by right|].
    destruct (LruSpec.lookup_key k (LruCache.abs c));
      intros [Heq|Hin]%elem_of_cons; [left; by simplify_eq|right|left; by simplify_eq|right].
    + by eapply remove_key_subset.
    + by eapply subseteq_take.
Qed.
End lru_laws.

(** ** The file system, as far as the handler asks it *)

Record FileSystem : Type := mkFs {
  path : Type;
  canonical_statics : option path;              (* canonical("./statics", ec) *)
  path_append : path → str → path;              (* root / rel *)
  weakly_canonical : path → option path;
  components : path → list str;                 (* begin() .. end() *)
  path_exists : path → option bool;             (* [None]: throws filesystem_error *)
  path_string : path → str;
  open_file : str → option (Z * str)            (* size reported by tellg(), bytes *)
}.

(** How a call ends: a value, a C++ exception, undefined behaviour. *)
Inductive hres (A : Type) : Type :=
  | HOk (a : A)
  | HThrow
  | HUB.
Arguments HOk {A} a.
Arguments HThrow {A}.
Arguments HUB {A}.

#[export] Instance hres_ret : MRet hres := λ A a, HOk a.
#[export] Instance hres_bind : MBind hres := λ A B f m,
  match m with HOk a => f a | HThrow => HThrow | HUB => HUB end.

Definition from_outcome {A} (o : outcome A) : hres A :=
  match o with Ret a => HOk a | Undef => HUB end.

Inductive ResolveError : Type :=
  | NoStaticsRoot
  | InvalidPath
  | TraversalBlocked
  | NotFound.

Record HttpResponse : Type := mkResponse {
  response : str;
  keep_alive : bool
}.

(** [std::mismatch(b1, e1, b2)], the rest of the first range; [None] when the
    second range ends first and its end iterator is dereferenced. *)
Fixpoint mismatch (l1 l2 : list str) : option (list str) :=
  match l1, l2 with
  | [], _ => Some []
  | x :: l1', [] => None
  | x :: l1', y :: l2' => if decide (x = y) then mismatch l1' l2' else Some l1
  end.

Section handler.
Context (fs : FileSystem).

Definition resolve_safe_path (u : str) : hres (ResolveError + str) :=
  match canonical_statics fs with
  | None => HOk (inl NoStaticsRoot)
  | Some root =>
      let rel := if decide (u = lit "/") then lit "/index.html" else u in
      (* rel.substr(1) *)
      if decide (rel = []) then HThrow else
      match weakly_canonical fs (path_append fs root (drop 1 rel)) with
      | None => HOk (inl InvalidPath)
      | Some target =>
          match mismatch (components fs root) (components fs target) with
          | None => HUB
          | Some (_ :: _) => HOk (inl TraversalBlocked)
          | Some [] =>
              match path_exists fs target with
              | None => HThrow
              | Some false => HOk (inl NotFound)
              | Some true => HOk (inr (path_string fs target))
              end
          end
      end
  end.

(** [std::string::max_size()] of libstdc++. *)
Definition max_string_size : Z := 2 ^ 62 - 1.

(** [read_file]: whether the file opened, and its content: [size] characters,
    the bytes of the file padded with NUL when it is shorter. *)
Definition read_file (p : str) : hres (bool * str) :=
  match open_file fs p with
  | None => HOk (false, [])
  | Some (size, bytes) =>
      if decide (size ≤ 0)%Z then HOk (true, []) else
      if decide (max_string_size < size)%Z then HThrow else
      HOk (true, take (Z.to_nat size) (bytes ++ replicate (Z.to_nat size) "000"%char))
  end.

(** The text from the last ['.'] on. *)
Fixpoint from_last_dot (l : str) : option str :=
  match l with
  | [] => None
  | c :: l' =>
      match from_last_dot l' with
      | Some e => Some e
      | None => if decide (c = "."%char) then Some l else None
      end
  end.

Definition get_content_type (p : str) : str :=
  match from_last_dot p with
  | None => lit "application/octet-stream"
  | Some ext =>
      if decide (ext = lit ".html" ∨ ext = lit ".htm") then lit "text/html; charset=utf-8"
      else if decide (ext = lit ".css") then lit "text/css; charset=utf-8"
      else if decide (ext = lit ".js") then lit "application/javascript; charset=utf-8"
      else if decide (ext = lit ".jpg" ∨ ext = lit ".jpeg") then lit "image/jpeg"
      else if decide (ext = lit ".png") then lit "image/png"
      else if decide (ext = lit ".gif") then lit "image/gif"
      else if decide (ext = lit ".svg") then lit "image/svg+xml"
      else if decide (ext = lit ".json") then lit "application/json"
      else if decide (ext = lit ".txt") then lit "text/plain; charset=utf-8"
      else lit "application/octet-stream"
  end.

Definition send_page (status : nat) (text page fallback : str) (ka : bool) : hres str :=
  '(found, content) ← read_file page;
  let content := if found : bool then content else fallback in
  HOk (build_response status text (lit "text/html; charset=utf-8") content ka).

Definition send_404 (ka : bool) : hres str :=
  send_page 404 (lit "Not Found") (lit "./statics/404.html") (lit "404 Not Found") ka.
Definition send_405 (ka : bool) : hres str :=
  send_page 405 (lit "Method Not Allowed") (lit "./statics/405.html") (lit "405 Method Not Allowed") ka.

Section cached.
Context {C : Type} `{!Cache str str C}.

Definition send_response (p : str) (ka : bool) (c : C) : hres (str * bool * C) :=
  '(cached, c) ← from_outcome (cget p c);
  match cached with
  | Some content => HOk (build_response 200 (lit "OK") (get_content_type p) content ka, true, c)
  | None =>
      '(found, content) ← read_file p;
      if found : bool then
        c ← from_outcome (cput p content c);
        HOk (build_response 200 (lit "OK") (get_content_type p) content ka, true, c)
      else
        HOk (build_response 500 (lit "Internal Server Error") (lit "text/plain") (lit "500 Error") false,
             false, c)
  end.

Definition handle_request (request : str) (c : C) : hres (HttpResponse * C) :=
  let info := parse_request request in
  let ka := wants_keep_alive info in
  if decide (method info = []) then
    HOk (mkResponse (build_response 400 (lit "Bad Request") (lit "text/plain") (lit "400 Bad Request") false)
           false, c)
  else if decide (method info ≠ lit "GET") then
    r ← send_405 ka; HOk (mkResponse r ka, c)
  else
    resolved ← resolve_safe_path (url info);
    match resolved with
    | inl _ => r ← send_404 ka; HOk (mkResponse r ka, c)
    | inr p =>
        '(r, ok, c) ← send_response p ka c;
        HOk (mkResponse r (if ok : bool then ka else false), c)
    end.
End cached.

(** ** The handler without a cache: the specification *)

Definition serve_file (p : str) (ka : bool) : hres HttpResponse :=
  '(found, content) ← read_file p;
  HOk (if found : bool
       then mkResponse (build_response 200 (lit "OK") (get_content_type p) content ka) ka
       else mkResponse (build_response 500 (lit "Internal Server Error") (lit "text/plain")
                          (lit "500 Error") false) false).

Definition spec_request (request : str) : hres HttpResponse :=
  let info := parse_request request in
  let ka := wants_keep_alive info in
  if decide (method info = []) then
    HOk (mkResponse (build_response 400 (lit "Bad Request") (lit "text/plain") (lit "400 Bad Request") false) false)
  else if decide (method info ≠ lit "GET") then r ← send_405 ka; HOk (mkResponse r ka)
  else
    resolved ← resolve_safe_path (url info);
    match resolved with
    | inl _ => r ← send_404 ka; HOk (mkResponse r ka)
    | inr p => serve_file p ka
    end.

#[local] Arguments build_response : simpl never.
#[local] Arguments get_content_type : simpl never.
#[local] Arguments send_404 : simpl never.
#[local] Arguments send_405 : simpl never.
#[local] Opaque build_response get_content_type.

Section transparent.
Context {C : Type} `{!Cache str str C, !CacheLaws str str C}.

(** Every cached text is the content of its file. *)
Definition cache_fresh (c : C) : Prop :=
  cwf c ∧ ∀ p content, centry c p content → read_file p = HOk (true, content).

Lemma send_response_fresh p ka c :
  cache_fresh c →
  match send_response p ka c, serve_file p ka with
  | HOk (r, ok, c'), HOk resp => cache_fresh c' ∧ resp = mkResponse r (if ok : bool then ka else false)
  | HThrow, HThrow => True
  | _, _ => False
  end.
Proof.
  intros [Hwf Hfresh]. unfold send_response, serve_file.
  destruct (cget_ok p c Hwf) as (r & c1 & -> & Hwf1 & Hhit & Hsub). cbn.
  assert (∀ k v, centry c1 k v → read_file k = HOk (true, v)) as Hfresh1 by auto.
  destruct r as [content|]; cbn.
  - rewrite (Hfresh p content) by auto. cbn. done.
  - destruct (read_file p) as [[[|] content]| |] eqn:Hread; cbn; [|done|done|].
    + destruct (cput_ok p content c1 Hwf1) as (c2 & -> & Hwf2 & Hput). cbn. split; [|done].
      split; [done|]. intros k v Hkv. destruct (Hput k v Hkv) as [[-> ->]|Hkv1]; auto.
    + unfold read_file in Hread. repeat (case_match; try done).
Qed.

Lemma handle_request_fresh request c :
  cache_fresh c →
  match handle_request request c, spec_request request with
  | HOk (r, c'), HOk r' => cache_fresh c' ∧ r = r'
  | HThrow, HThrow | HUB, HUB => True
  | _, _ => False
  end.
Proof.
  intros Hc. unfold handle_request, spec_request.
  destruct (decide (method (parse_request request) = [])); [done|].
  set (ka := wants_keep_alive _).
  destruct (decide (method (parse_request request) ≠ lit "GET")).
  { destruct (send_405 ka); cbn; done. }
  destruct (resolve_safe_path _) as [[e|p]| |]; cbn; [|..|done|done].
  { destruct (send_404 ka); cbn; done. }
  pose proof (send_response_fresh p ka c Hc) as Hs.
  destruct (send_response p ka c) as [[[r ok] c']| |]; destruct (serve_file p ka); cbn; try done.
  destruct Hs as [? ->]. done.
Qed.
End transparent.
End handler.
#[local] Transparent build_response get_content_type.

(** ** A worker serving one request after the other *)

Section serving.
Context (fs : FileSystem) {C : Type} `{!Cache str str C}.

(** A request that throws leaves the cache as it is; nothing is said after
    undefined behaviour. *)
Fixpoint serve_all (requests : list str) (c : C) : list (hres HttpResponse) :=
  match requests with
  | [] => []
  | r :: rs =>
      match handle_request fs r c with
      | HOk (resp, c') => HOk resp :: serve_all rs c'
      | HThrow => HThrow :: serve_all rs c
      | HUB => [HUB]
      end
  end.

Fixpoint spec_all (requests : list str) : list (hres HttpResponse) :=
  match requests with
  | [] => []
  | r :: rs => match spec_request fs r with HUB => [HUB] | x => x :: spec_all rs end
  end.
End serving.

Lemma serve_all_fresh fs {C} `{!Cache str str C, !CacheLaws str str C} rs (c : C) :
  cache_fresh fs c → serve_all fs rs c = spec_all fs rs.
Proof.
  revert c. induction rs as [|r rs IH]; intros c Hc; cbn; [done|].
  pose proof (handle_request_fresh fs r c Hc) as Hr.
  destruct (handle_request fs r c) as [[resp c']| |]; destruct (spec_request fs r) as [resp'| |]; try done.
  - destruct Hr as [Hc' ->]. by rewrite IH.
  - by rewrite IH.
Qed.

(** The file cache is invisible: as long as the files do not change, every
    sequence of requests served through the 256-entry [LruCache] gets exactly
    the responses of a handler that reads each file from disk. *)
Theorem http_cache_transparent fs (requests : list str) :
  serve_all fs requests (LruCache.init (K:=str) (V:=str) 256) = spec_all fs requests.
Proof.
  apply serve_all_fresh; [exact lru_cache_laws|]. split; [exact (LruCache.wf_init 256)|].
  intros p content Hin. cbn in Hin. set_solver.
Qed.

Lemma mismatch_spec l1 l2 :
  match mismatch l1 l2 with
  | Some [] => l1 `prefix_of` l2
  | Some (x :: _) => ∃ pre y r1 r2, l1 = pre ++ x :: r1 ∧ l2 = pre ++ y :: r2 ∧ x ≠ y
  | None => ∃ x r, l1 = l2 ++ x :: r
  end.
Proof.
  revert l2. induction l1 as [|x l1 IH]; intros l2; cbn; [apply prefix_nil|].
  destruct l2 as [|y l2]; cbn; [by exists x, l1|].
  destruct (decide (x = y)) as [->|Hne]; [|by exists [], y, l1, l2].
  specialize (IH l2). destruct (mismatch l1 l2) as [[|z m]|].
  - by apply prefix_cons.
  - destruct IH as (pre & w & r1 & r2 & -> & -> & ?). by exists (y :: pre), w, r1, r2.
  - destruct IH as (z & r & ->). by exists z, r.
Qed.

(** C33: No path traversal: when a target is resolved to a file, that file lies
    under the statics root (the components of the root are a prefix of its own)
    and exists; a target that leaves the root at some component is refused; and
    the comparison runs off the end of the resolved path exactly when the path
    is a proper ancestor of the root. *)
Theorem http_resolve_confined fs u root target :
  canonical_statics fs = Some root → u ≠ [] →
  weakly_canonical fs (path_append fs root
    (drop 1 (if decide (u = lit "/") then lit "/index.html" else u))) = Some target →
  (∀ p, resolve_safe_path fs u = HOk (inr p) →
     components fs root `prefix_of` components fs target ∧
     path_exists fs target = Some true ∧ p = path_string fs target) ∧
  (resolve_safe_path fs u = HOk (inl TraversalBlocked) ↔
     ∃ pre x y r1 r2, components fs root = pre ++ x :: r1 ∧
       components fs target = pre ++ y :: r2 ∧ x ≠ y) ∧
  (resolve_safe_path fs u = HUB ↔
     ∃ x r, components fs root = components fs target ++ x :: r).
Proof.
  intros Hroot Hu Ht. unfold resolve_safe_path. rewrite Hroot.
  rewrite (decide_False (P := (if decide (u = lit "/") then lit "/index.html" else u) = []))
    by (case_decide; done).
  rewrite Ht. pose proof (mismatch_spec (components fs root) (components fs target)) as Hm.
  destruct (mismatch _ _) as [[|z m]|].
  - destruct Hm as [k Hk]. split_and!.
    + intros p Hp. destruct (path_exists fs target) as [[|]|]; simplify_eq. split; [by exists k|done].
    + split; [by destruct (path_exists fs target) as [[|]|]|].
      intros (pre & x & y & r1 & r2 & H1 & H2 & Hne). exfalso. rewrite H1, H2 in Hk.
      rewrite <- app_assoc in Hk. by simplify_list_eq.
    + split; [by destruct (path_exists fs target) as [[|]|]|].
      intros (x & r & Hx). exfalso. pose proof (f_equal length Hx) as E1.
      pose proof (f_equal length Hk) as E2. rewrite !length_app in *. cbn in E1. lia.
  - destruct Hm as (pre & y & r1 & r2 & H1 & H2 & Hne). split_and!; [done| |].
    + split; [|done]. intros _. by exists pre, z, y, r1, r2.
    + split; [done|]. intros (x & r & Hx). exfalso. rewrite H1, H2, <- app_assoc in Hx. by simplify_list_eq.
  - destruct Hm as (x & r & Hx). split_and!; [done| |].
    + split; [done|]. intros (pre & a & b & r1 & r2 & H1 & H2 & Hne). exfalso.
      rewrite H1, H2, <- app_assoc in Hx. by simplify_list_eq.
    + split; [|done]. intros _. by exists x, r.
Qed.

(** A request line with an empty target, which the parser accepts as a
    [GET], makes the handler throw [std::out_of_range] instead of answering,
    whatever the files and the cache are. *)
Theorem http_empty_target_throws fs {C} `{!Cache str str C} (c : C) root :
  canonical_statics fs = Some root →
  handle_request fs (lit "GET  HTTP/1.1" ++ CRLF ++ CRLF) c = HThrow.
Proof.
  intros Hroot. unfold handle_request.
  assert (parse_request (lit "GET  HTTP/1.1" ++ CRLF ++ CRLF) =
          mkInfo (lit "GET") [] (lit "HTTP/1.1") ∅ []) as -> by (vm_compute; reflexivity).
  cbn [method url]. rewrite decide_False by discriminate. rewrite decide_False by (intros Hn; by apply Hn).
  unfold resolve_safe_path. rewrite Hroot. reflexivity.
Qed.

(** ** A concrete file system: lexical paths under /srv/statics *)

Fixpoint split_slash (cur : str) (l : str) : list str :=
  match l with
  | [] => [reverse cur]
  | c :: l' => if decide (c = "/"%char) then reverse cur :: split_slash [] l' else split_slash (c :: cur) l'
  end.

Definition lexical (p : list str) : list str :=
  reverse (foldl (λ acc c, if decide (c = lit "..") then tail acc
                           else if decide (c = [] ∨ c = lit ".") then acc else c :: acc) [] p).

Definition demo_fs : FileSystem := mkFs (list str) (Some [lit "srv"; lit "statics"])
  (λ root rel, root ++ split_slash [] rel) (λ p, Some (lexical p)) (λ p, p) (λ _, Some true)
  (λ p, p ≫= (λ c, "/"%char :: c)) (λ p, Some (2, lit "hi")%Z).

(** [GET /..] is undefined behaviour: on a plain directory tree the target
    resolves to the parent of the statics root, and [std::mismatch] then
    dereferences the end iterator of the shorter path. *)
Theorem http_parent_target_undefined :
  handle_request demo_fs (lit "GET /.. HTTP/1.1" ++ CRLF ++ CRLF)
    (LruCache.init (K:=str) (V:=str) 256) = HUB.
Proof. vm_compute. reflexivity. Qed.

Lemma http_resolve_confined_witness :
  resolve_safe_path demo_fs (lit "/a.txt") = HOk (inr (lit "/srv/statics/a.txt")) ∧
  [lit "srv"; lit "statics"] `prefix_of` [lit "srv"; lit "statics"; lit "a.txt"].
Proof.
  split; [vm_compute; reflexivity|].
  destruct (http_resolve_confined demo_fs (lit "/a.txt") [lit "srv"; lit "statics"]
              [lit "srv"; lit "statics"; lit "a.txt"]) as (Hin & _ & _);
    [reflexivity|discriminate|vm_compute; reflexivity|].
  destruct (Hin (lit "/srv/statics/a.txt")) as (Hp & _ & _); [vm_compute; reflexivity|]. exact Hp.
Defined.

Lemma http_empty_target_throws_witness :
  handle_request demo_fs (lit "GET  HTTP/1.1" ++ CRLF ++ CRLF)
    (LruCache.init (K:=str) (V:=str) 256) = HThrow.
Proof. apply (http_empty_target_throws demo_fs _ [lit "srv"; lit "statics"]). reflexivity. Defined.
