(* ===== verification/Logger.v ===== *)
(** * The asynchronous logger (src/muses/logging.hpp)

    Producers push entries into the bounded queue; a writer thread moves them
    through an in-memory buffer to the file; [flush] does the same on the caller's
    thread, and the destructor stops the writer and drains what is left.  The
    machine below has one step per critical section or queue operation.  The queue
    is the abstract FIFO of RingSeq.v under [DropOldest].  The buffer is kept as
    the lines appended to it (its characters are their concatenation), and [lost]
    collects the lines of a file that could not be opened. *)

From Stdlib Require Import Ascii.
From S2P Require Import Prelude Http RingQueue RingSeq.

Inductive LogLevel : Type := Debug | Info | Warning | Error | Fatal.
#[export] Instance LogLevel_eq_dec : EqDecision LogLevel.
Proof. solve_decision. Defined.

Definition level_rank (l : LogLevel) : nat :=
  match l with Debug => 0 | Info => 1 | Warning => 2 | Error => 3 | Fatal => 4 end.

Definition level_string (l : LogLevel) : str :=
  match l with
  | Debug => lit "Debug"
  | Info => lit "Info"
  | Warning => lit "Warning"
  | Error => lit "Error"
  | Fatal => lit "Fatal"
  end.

Record Entry : Type := mkEntry {
  e_level : LogLevel;
  e_func : str;
  e_message : str;
  e_time : Z
}.

#[export] Instance Entry_eq_dec : EqDecision Entry.
Proof. solve_decision. Defined.

Module Logger.
Section machine.
(** [localtime_r] and [strftime], which depend on the time zone, and the capacity. *)
Context (strftime_local : Z → str) (cap : Z).

Definition format (e : Entry) : str :=
  lit "[" ++ level_string (e_level e) ++ lit "] " ++ strftime_local (e_time e) ++ lit " " ++
  e_func e ++ lit ": " ++ e_message e ++ [LF].

Record shared : Type := mkShared {
  level_ : LogLevel;
  queue_ : fifo Entry;
  running_ : bool;
  buffer_ : list str;
  line_mu_ : option nat;       (* the thread that holds the lock *)
  file : list str;
  lost : list str
}.

Definition set_queue (q : fifo Entry) (s : shared) : shared :=
  mkShared (level_ s) q (running_ s) (buffer_ s) (line_mu_ s) (file s) (lost s).
Definition set_running (b : bool) (s : shared) : shared :=
  mkShared (level_ s) (queue_ s) b (buffer_ s) (line_mu_ s) (file s) (lost s).
Definition set_buffer (b : list str) (s : shared) : shared :=
  mkShared (level_ s) (queue_ s) (running_ s) b (line_mu_ s) (file s) (lost s).
Definition set_lock (o : option nat) (s : shared) : shared :=
  mkShared (level_ s) (queue_ s) (running_ s) (buffer_ s) o (file s) (lost s).
Definition append_file (ok : bool) (ls : list str) (s : shared) : shared :=
  if ok then mkShared (level_ s) (queue_ s) (running_ s) (buffer_ s) (line_mu_ s) (file s ++ ls) (lost s)
  else mkShared (level_ s) (queue_ s) (running_ s) (buffer_ s) (line_mu_ s) (file s) (lost s ++ ls).

(** What follows a [flush_buffer_if_needed] or a write. *)
Inductive cont : Type :=
  | KWait        (* the writer, after [write_all] *)
  | KLoop        (* the writer, at the end of a round *)
  | KExit        (* the writer, after its loop *)
  | KDtor        (* the destructor *)
  | KFlush.      (* [flush] *)

Inductive pc : Type :=
  | Idle
  | WTest                          (* the condition of the writer's loop *)
  | AllLock (k : cont)             (* [write_all] takes the lock *)
  | AllPop (k : cont)              (* ... and pops while it holds it *)
  | FlushTest (k : cont)           (* [flush_buffer_if_needed] *)
  | FileWrite (ls : list str) (k : cont)
  | WaitPop                        (* [wait_pop] of the writer *)
  | HandWriter (e : Entry)         (* the writer popped an entry *)
  | MorePop                        (* ... and batches what else is there *)
  | Exited
  | FlPop                          (* [flush] *)
  | HandFlush (e : Entry)
  | FlSwap
  | DStart                         (* the destructor *)
  | DStop
  | DJoin
  | Done.

#[export] Instance cont_eq_dec : EqDecision cont.
Proof. solve_decision. Defined.
#[export] Instance pc_eq_dec : EqDecision pc.
Proof. solve_decision. Defined.

Definition return_to (k : cont) : pc :=
  match k with KWait => WaitPop | KLoop => WTest | KExit => Exited | KDtor | KFlush => Done end.

Definition kFlushThreshold : nat := 128.

Definition locked (s : shared) : bool := bool_decide (is_Some (line_mu_ s)).

(** [queue_.try_pop]. *)
Definition pop (s : shared) : option Entry * shared :=
  let r := fifo_pop (items (queue_ s)) in
  (r.1, set_queue (mkFifo r.2 (fifo_dropped (queue_ s)) (fifo_stopped (queue_ s))) s).

Definition append_line (e : Entry) (s : shared) : shared := set_buffer (buffer_ s ++ [format e]) s.

(** One step of thread [t]; [None] when it waits for the lock.  [ok] is whether
    the file could be opened. *)
Definition thread_step (t : nat) (ok : bool) (p : pc) (s : shared) : option (pc * shared) :=
  match p with
  | WTest =>
      if running_ s || bool_decide (items (queue_ s) ≠ []) then Some (AllLock KWait, s)
      else Some (FlushTest KExit, s)
  | AllLock k => if locked s then None else Some (AllPop k, set_lock (Some t) s)
  | AllPop k =>
      match pop s with
      | (Some e, s') => Some (AllPop k, append_line e s')
      | (None, s') => Some (FlushTest k, set_lock None s')
      end
  | FlushTest k =>
      if locked s then None
      else if decide (concat (buffer_ s) = []) then Some (return_to k, s)
      else if bool_decide (length (concat (buffer_ s)) < kFlushThreshold) && running_ s then
        Some (return_to k, s)
      else Some (FileWrite (buffer_ s) k, set_buffer [] s)
  | FileWrite ls k => Some (return_to k, append_file ok ls s)
  | WaitPop =>
      match pop s with
      | (Some e, s') => Some (HandWriter e, s')
      | (None, s') => Some (FlushTest KLoop, s')
      end
  | HandWriter e =>
      if locked s then None else Some (MorePop, append_line e (set_lock (Some t) s))
  | MorePop =>
      match pop s with
      | (Some e, s') => Some (MorePop, append_line e s')
      | (None, s') => Some (FlushTest KLoop, set_lock None s')
      end
  | FlPop =>
      match pop s with
      | (Some e, s') => Some (HandFlush e, s')
      | (None, s') => Some (FlSwap, s')
      end
  | HandFlush e => if locked s then None else Some (FlPop, append_line e s)
  | FlSwap =>
      if locked s then None
      else if decide (concat (buffer_ s) = []) then Some (Done, s)
      else Some (FileWrite (buffer_ s) KFlush, set_buffer [] s)
  | DStart => Some (DStop, set_running false s)
  | DStop => Some (DJoin, set_queue (fifo_call DropOldest cap QStop (queue_ s)).2 s)
  | DJoin => Some (AllLock KDtor, s)
  | Idle | Exited | Done => None
  end.

(** [log]: filter by level, then push; whether the entry was accepted. *)
Definition log (e : Entry) (s : shared) : bool * shared :=
  if decide (level_rank (e_level e) < level_rank (level_ s)) then (false, s)
  else match fifo_call DropOldest cap (QPush e) (queue_ s) with
       | (QBool b, q) => (b, set_queue q s)
       | (_, q) => (false, set_queue q s)
       end.

Definition dropped (s : shared) : Z := fifo_dropped (queue_ s).

(** ** Configurations: thread 0 is the writer, thread 1 destroys the logger, the
    others call [flush].  [logged] are the entries accepted so far, [taken] the
    entries popped so far. *)
Record config : Type := Config {
  sh : shared;
  threads : list pc;
  logged : list Entry;
  taken : list Entry
}.

Definition popped (p : pc) (s : shared) : list Entry :=
  match p with
  | AllPop _ | WaitPop | MorePop | FlPop => match items (queue_ s) with e :: _ => [e] | [] => [] end
  | _ => []
  end.

(** [flushing]: other threads call [flush]; [failing]: the file may not open. *)
Context (flushing failing : bool).

Inductive step : config → config → Prop :=
  | step_thread c t p ok p' s' :
      threads c !! t = Some p → (failing = false → ok = true) →
      (p = DJoin → threads c !! 0 = Some Exited) →
      thread_step t ok p (sh c) = Some (p', s') →
      step c (Config s' (<[t := p']> (threads c)) (logged c) (taken c ++ popped p (sh c)))
  | step_log c e b s' :
      log e (sh c) = (b, s') →
      step c (Config s' (threads c) (if b then logged c ++ [e] else logged c) (taken c))
  | step_flush c t :
      flushing = true → 2 ≤ t → (threads c !! t = Some Idle ∨ threads c !! t = Some Done) →
      step c (Config (sh c) (<[t := FlPop]> (threads c)) (logged c) (taken c))
  | step_destroy c :
      threads c !! 1 = Some Idle → step c (Config (sh c) (<[1 := DStart]> (threads c)) (logged c) (taken c)).

(** The constructor starts the writer; [n] threads may call [flush]. *)
Definition initial (level : LogLevel) (n : nat) : config :=
  Config (mkShared level (mkFifo [] 0 false) true [] None [] [])
    (WTest :: Idle :: replicate n Idle) [] [].
End machine.
Arguments Config : clear implicits.
End Logger.
