(* ===== verification/LoggerProps.v ===== *)
(** * Properties of the logger

    Where every accepted line is at any time, the order of the file, what the
    destructor guarantees, and what [flush] does not. *)

From Stdlib Require Import Ascii.
From S2P Require Import Prelude Http RingQueue RingSeq Logger.
Import Logger.

(** ** Conservation *)

Section conservation.
Context (strf : Z → str) (cap : Z) (flushing failing : bool).
Implicit Types (c : config) (s : shared) (p : pc).

Definition str_eq_dec (x y : str) : {x = y} + {x ≠ y} := decide (x = y).

(** How often a line occurs. *)
Definition occ (x : str) (l : list str) : nat := count_occ str_eq_dec l x.

#[local] Arguments occ : simpl never.
#[local] Arguments format : simpl never.

Lemma occ_app x l1 l2 : occ x (l1 ++ l2) = occ x l1 + occ x l2.
Proof. apply count_occ_app. Qed.

Lemma occ_nil x : occ x [] = 0.
Proof. done. Qed.

(** The lines a thread holds. *)
Definition held (p : pc) : list str :=
  match p with
  | FileWrite ls _ => ls
  | HandWriter e | HandFlush e => [format strf e]
  | _ => []
  end.

Lemma held_return k : held (return_to k) = [].
Proof. by destruct k. Qed.

Lemma occ_held_insert x (ts : list pc) t p p' :
  ts !! t = Some p →
  occ x (<[t := p']> ts ≫= held) + occ x (held p) = occ x (ts ≫= held) + occ x (held p').
Proof.
  intros Ht. rewrite <- (take_drop_middle ts t p Ht) at 2.
  rewrite insert_take_drop by (by eapply lookup_lt_Some). rewrite !bind_app. cbn [mbind list_bind].
  rewrite !occ_app. cbn [mbind list_bind]. rewrite ?occ_app. lia.
Qed.

(** Everything accepted and not dropped, wherever it is. *)
Definition everywhere (c : config) : list str :=
  file (sh c) ++ lost (sh c) ++ (threads c ≫= held) ++ buffer_ (sh c).

Record conserved (c : config) : Prop := mkConserved {
  cv_lines x : occ x (everywhere c) = occ x (format strf <$> taken c);
  cv_order : (taken c ++ items (queue_ (sh c))) `sublist_of` logged c;
  cv_count : dropped (sh c) =
    wrap64 (Z.of_nat (length (logged c)) - Z.of_nat (length (taken c ++ items (queue_ (sh c)))))
}.

(** What a step of a thread moves where. *)
Lemma thread_step_moves t ok p s p' s' :
  thread_step strf cap t ok p s = Some (p', s') →
  (∀ x, occ x (file s') + occ x (lost s') + occ x (buffer_ s') + occ x (held p') =
        occ x (file s) + occ x (lost s) + occ x (buffer_ s) + occ x (held p) +
        occ x (format strf <$> popped p s)) ∧
  popped p s ++ items (queue_ s') = items (queue_ s) ∧
  dropped s' = dropped s.
Proof.
  unfold thread_step, dropped, append_line, pop, append_file, locked.
  destruct p; try done; repeat (case_match; try done); intros [= <- <-]; cbn in *; simplify_eq;
    (destruct (items (queue_ s)) as [|e0 l] eqn:Hi; cbn in *; simplify_eq);
    (split; [intros x; rewrite ?held_return, ?occ_app; cbn; rewrite ?occ_nil; lia|by split]).
Qed.

Lemma log_accounts e s b s' :
  (1 ≤ cap)%Z → log cap e s = (b, s') →
  s' = set_queue (queue_ s') s ∧ fifo_stopped (queue_ s') = fifo_stopped (queue_ s) ∧
  (fifo_stopped (queue_ s) = true → s' = s ∧ b = false) ∧
  ∃ evicted, (if b then items (queue_ s) ++ [e] else items (queue_ s)) = evicted ++ items (queue_ s') ∧
    length evicted ≤ 1 ∧ dropped s' = count_drop (dropped s) (bool_decide (evicted ≠ [])).
Proof.
  intros Hcap. unfold log. destruct (decide _).
  { intros [= <- <-]. split; [by destruct s|]. split; [done|]. split; [done|]. exists []. split_and!; [done|cbn; lia|done]. }
  cbn [fifo_call]. destruct (fifo_stopped (queue_ s)) eqn:Hst.
  { intros [= <- <-]. assert (set_queue (queue_ s) s = s) as -> by (by destruct s).
    split_and!; try done; [by destruct s|]. exists []. split_and!; [done|cbn; lia|done]. }
  unfold fifo_push. destruct (decide _) as [Hlt|Hge]; intros [= <- <-]; (split; [done|]); (split; [done|]); (split; [done|]).
  - exists []. split_and!; [done|cbn; lia|done].
  - destruct (items (queue_ s)) as [|x l] eqn:Hi; [cbn in Hge; lia|]. exists [x]. split_and!; [done|cbn; lia|done].
Qed.

(** *** Every step conserves *)

Lemma conserved_thread c t p ok p' s' :
  conserved c → threads c !! t = Some p → thread_step strf cap t ok p (sh c) = Some (p', s') →
  conserved (Config s' (<[t := p']> (threads c)) (logged c) (taken c ++ popped p (sh c))).
Proof.
  intros [Hl Ho Hc] Ht Hs. apply thread_step_moves in Hs as (Hm & Hi & Hd).
  constructor; cbn [sh threads logged taken].
  - intros x. specialize (Hl x). specialize (Hm x). pose proof (occ_held_insert x (threads c) t p p' Ht).
    unfold everywhere in *. cbn [sh threads]. rewrite fmap_app, !occ_app in *. lia.
  - by rewrite <- app_assoc, Hi.
  - by rewrite Hd, Hc, <- app_assoc, Hi.
Qed.

Lemma conserved_log c e b s' :
  (1 ≤ cap)%Z → conserved c → log cap e (sh c) = (b, s') →
  conserved (Config s' (threads c) (if b then logged c ++ [e] else logged c) (taken c)).
Proof.
  intros Hcap [Hl Ho Hc] Hlog. apply log_accounts in Hlog as (Hs & _ & _ & ev & Hev & Hlen & Hd); [|done].
  constructor; cbn [sh threads logged taken].
  - intros x. unfold everywhere in *. rewrite Hs. apply Hl.
  - assert ((taken c ++ items (queue_ s')) `sublist_of` (taken c ++ (if b then items (queue_ (sh c)) ++ [e] else items (queue_ (sh c)))))
      as Hsub by (rewrite Hev; apply sublist_app; [done|by apply sublist_inserts_l]).
    etrans; [exact Hsub|]. destruct b; [|done]. rewrite app_assoc. by apply sublist_app.
  - rewrite Hd, Hc. apply (f_equal length) in Hev. rewrite !length_app in *.
    assert (length (if b then logged c ++ [e] else logged c) + length (items (queue_ (sh c))) =
            length (logged c) + length ev + length (items (queue_ s'))) as Hn.
    { destruct b; rewrite ?length_app in *; cbn in *; lia. }
    destruct ev as [|x [|]]; [| |cbn in Hlen; lia]; cbn [length] in Hn; unfold count_drop.
    + rewrite bool_decide_eq_false_2 by (by intros []). f_equal. lia.
    + rewrite bool_decide_eq_true_2 by done. rewrite wrap64_add_l. f_equal. lia.
Qed.

Lemma conserved_swap_pc c t p p' :
  conserved c → threads c !! t = Some p → held p = [] → held p' = [] →
  conserved (Config (sh c) (<[t := p']> (threads c)) (logged c) (taken c)).
Proof.
  intros [Hl Ho Hc] Ht Hp Hp'. constructor; cbn [sh threads logged taken]; [|done|done].
  intros x. specialize (Hl x). pose proof (occ_held_insert x (threads c) t p p' Ht) as Hi.
  rewrite Hp, Hp' in Hi. unfold everywhere in *. cbn [sh threads]. rewrite !occ_app in *. lia.
Qed.

Lemma conserved_step c c' :
  (1 ≤ cap)%Z → conserved c → step strf cap flushing failing c c' → conserved c'.
Proof.
  intros Hcap Hc Hs. inversion Hs; subst.
  - by eapply conserved_thread.
  - by eapply conserved_log.
  - match goal with H : _ ∨ _ |- _ => destruct H end; by eapply conserved_swap_pc.
  - by eapply conserved_swap_pc.
Qed.

Lemma conserved_initial level n : conserved (initial level n).
Proof.
  constructor; [|done|done]. intros x. unfold everywhere, initial. cbn. rewrite app_nil_r.
  assert (replicate n Idle ≫= held = []) as ->; [|done]. induction n as [|n IH]; [done|]. cbn. exact IH.
Qed.
End conservation.


(** ** Order and shutdown, when nobody calls [flush] *)

Section order.
Context (strf : Z → str) (cap : Z).
Implicit Types (c : config) (s : shared) (p w d : pc).
#[local] Arguments format : simpl never.

Definition writer_cont (k : cont) : bool := match k with KWait | KLoop | KExit => true | _ => false end.

Definition writer_pc (p : pc) : bool :=
  match p with
  | WTest | WaitPop | HandWriter _ | MorePop | Exited => true
  | AllLock k | AllPop k => match k with KWait => true | _ => false end
  | FlushTest k | FileWrite _ k => writer_cont k
  | _ => false
  end.

(** How far the destructor is. *)
Definition dtor_stage (p : pc) : option nat :=
  match p with
  | Idle => Some 0 | DStart => Some 1 | DStop => Some 2 | DJoin => Some 3
  | AllLock KDtor => Some 4 | AllPop KDtor => Some 5 | FlushTest KDtor => Some 6
  | FileWrite _ KDtor => Some 7 | Done => Some 8
  | _ => None
  end.

Definition out (p : pc) : list str := match p with FileWrite ls _ => ls | _ => [] end.
Definition hand (p : pc) : list str := match p with HandWriter e => [format strf e] | _ => [] end.
Definition nonempty_lines (ls : list str) : Prop := Forall (λ l, l ≠ []) ls.

Lemma format_nonempty e : format strf e ≠ [].
Proof. by unfold format. Qed.

Lemma concat_nonempty ls : nonempty_lines ls → concat ls = [] → ls = [].
Proof. destruct 1 as [|l ls Hl _]; [done|]. cbn. by intros [-> _]%app_eq_nil. Qed.

Lemma nonempty_snoc ls e : nonempty_lines ls → nonempty_lines (ls ++ [format strf e]).
Proof. intros H. apply Forall_app. split; [done|]. apply Forall_singleton, format_nonempty. Qed.

Lemma out_return k : out (return_to k) = [].
Proof. by destruct k. Qed.
Lemma hand_return k : hand (return_to k) = [].
Proof. by destruct k. Qed.

(** The lines on their way, in the order in which they will reach the file. *)
Definition in_transit (p : pc) (s : shared) : list str := file s ++ out p ++ buffer_ s ++ hand p.

Lemma active_step t p s p' s' :
  writer_pc p = true ∨ is_Some (dtor_stage p) →
  thread_step strf cap t true p s = Some (p', s') → nonempty_lines (buffer_ s) →
  in_transit p' s' = in_transit p s ++ (format strf <$> popped p s) ∧ lost s' = lost s ∧
  nonempty_lines (buffer_ s') ∧ popped p s ++ items (queue_ s') = items (queue_ s).
Proof.
  intros Hrole Hs Hne. unfold in_transit, popped.
  destruct p as [| |k|k|k|ls k| |e| | | |e| | | | |]; try (by destruct Hrole as [?|[? ?]]; done); cbn [thread_step] in Hs.
  all: try (match type of Hs with context [pop _] => idtac end; unfold pop in Hs;
            destruct (items (queue_ s)) as [|e0 l] eqn:Hi; cbn [fifo_pop fst snd] in Hs).
  all: try (destruct (locked s); [done|]).
  all: try (by injection Hs as <- <-; cbn; rewrite ?app_nil_r, <- ?app_assoc; split_and!; try done; apply nonempty_snoc).
  - destruct (_ || _); injection Hs as <- <-; by cbn; rewrite ?app_nil_r.
  - destruct (decide _); [|destruct (_ && _)]; injection Hs as <- <-; cbn; rewrite ?out_return, ?hand_return; cbn;
      rewrite ?app_nil_r; split_and!; try done. by apply Forall_nil.
  - injection Hs as <- <-. rewrite out_return, hand_return. cbn. rewrite ?app_nil_r, <- ?app_assoc. by split_and!.
Qed.

Lemma writer_keeps t ok p s p' s' :
  writer_pc p = true → thread_step strf cap t ok p s = Some (p', s') →
  writer_pc p' = true ∧ running_ s' = running_ s ∧ fifo_stopped (queue_ s') = fifo_stopped (queue_ s).
Proof.
  intros Hw Hs. unfold thread_step, append_line, pop, append_file in Hs.
  destruct p as [| |k|k|k|ls k| |e| | | |e| | | | |]; try done;
    repeat (case_match; try done); simplify_eq; cbn in *; simplify_eq; split_and!; try done; by destruct k.
Qed.

(** What the destructor has achieved at each stage. *)
Definition dtor_ok (n : nat) (w : pc) (s : shared) : Prop :=
  (2 ≤ n → running_ s = false) ∧ (3 < n → fifo_stopped (queue_ s) = true ∧ w = Exited) ∧
  (n = 3 → fifo_stopped (queue_ s) = true) ∧
  (6 ≤ n → items (queue_ s) = []) ∧ (7 ≤ n → buffer_ s = []) ∧ n ≤ 8.

Lemma dtor_advances t p s p' s' n w :
  dtor_stage p = Some n → (n = 3 → w = Exited) → nonempty_lines (buffer_ s) → dtor_ok n w s →
  thread_step strf cap t true p s = Some (p', s') → ∃ n', dtor_stage p' = Some n' ∧ dtor_ok n' w s'.
Proof.
  intros Hn Hj Hne (H2 & H4 & H3 & H6 & H7 & _) Hs.
  destruct p as [| |k|k|k|ls k| |e| | | |e| | | | |]; try done; cbn in Hn; try (destruct k; try done);
    injection Hn as <-; cbn [thread_step] in Hs.
  - destruct (locked s); [done|]. injection Hs as <- <-. exists 5. split; [done|].
    destruct H4 as [Hst ->]; [lia|]. specialize (H2 ltac:(lia)). unfold dtor_ok. cbn. split_and!; intros; done || lia.
  - destruct H4 as [Hst ->]; [lia|]. specialize (H2 ltac:(lia)). unfold pop in Hs.
    destruct (items (queue_ s)) as [|e0 l] eqn:Hi; cbn [fifo_pop fst snd] in Hs; injection Hs as <- <-.
    + exists 6. split; [done|]. unfold dtor_ok. cbn. split_and!; intros; done || lia.
    + exists 5. split; [done|]. unfold dtor_ok. cbn. split_and!; intros; done || lia.
  - destruct (locked s); [done|]. destruct H4 as [Hst ->]; [lia|]. specialize (H2 ltac:(lia)). specialize (H6 ltac:(lia)).
    destruct (decide (concat (buffer_ s) = [])) as [Hc|Hc].
    + injection Hs as <- <-. apply concat_nonempty in Hc; [|done]. exists 8. split; [done|].
      unfold dtor_ok. split_and!; intros; done || lia.
    + rewrite H2, andb_false_r in Hs. injection Hs as <- <-. exists 7. split; [done|].
      unfold dtor_ok. cbn. split_and!; intros; done || lia.
  - injection Hs as <- <-. destruct H4 as [Hst ->]; [lia|]. specialize (H2 ltac:(lia)). specialize (H6 ltac:(lia)).
    specialize (H7 ltac:(lia)). exists 8. split; [done|]. unfold dtor_ok. cbn. split_and!; intros; done || lia.
  - injection Hs as <- <-. exists 2. split; [done|]. unfold dtor_ok. cbn. split_and!; intros; done || lia.
  - injection Hs as <- <-. exists 3. specialize (H2 ltac:(lia)). split; [done|]. unfold dtor_ok. cbn.
    split_and!; intros; done || lia.
  - injection Hs as <- <-. exists 4. specialize (H2 ltac:(lia)). specialize (H3 eq_refl). specialize (Hj eq_refl).
    split; [done|]. unfold dtor_ok. split_and!; intros; done || lia.
Qed.

(** The lock is held by the thread that pops under it. *)
Definition lock_of (t : nat) (p : pc) : option nat :=
  match p with AllPop _ | MorePop => Some t | _ => None end.

Lemma lock_of_return t k : lock_of t (return_to k) = None.
Proof. by destruct k. Qed.

Lemma lock_step t ok p s p' s' :
  thread_step strf cap t ok p s = Some (p', s') → line_mu_ s = lock_of t p → line_mu_ s' = lock_of t p'.
Proof.
  intros Hs Hl. destruct p as [| |k|k|k|ls k| |e| | | |e| | | | |]; try done; cbn [thread_step lock_of] in Hs, Hl.
  all: try (match type of Hs with context [pop _] => idtac end; unfold pop in Hs;
            destruct (items (queue_ s)) as [|e0 l]; cbn [fifo_pop fst snd] in Hs).
  all: try (destruct (locked s); [done|]).
  all: try (by injection Hs as <- <-).
  - destruct (_ || _); by injection Hs as <- <-.
  - destruct (decide _); [|destruct (_ && _)]; injection Hs as <- <-; cbn; by rewrite ?lock_of_return.
  - injection Hs as <- <-. rewrite lock_of_return. by destruct ok.
  - destruct (decide _); by injection Hs as <- <-.
Qed.

(** *** The invariant *)

Record ordered (c : config) : Prop := mkOrdered {
  od_lines : ∃ w d n rest, threads c = w :: d :: rest ∧ Forall (λ p, p = Idle) rest ∧
    writer_pc w = true ∧ dtor_stage d = Some n ∧ dtor_ok n w (sh c) ∧
    in_transit (if decide (n ≤ 3) then w else d) (sh c) = format strf <$> taken c ∧
    line_mu_ (sh c) = (if decide (n ≤ 3) then lock_of 0 w else lock_of 1 d);
  od_lost : lost (sh c) = [];
  od_buffer : nonempty_lines (buffer_ (sh c))
}.

Lemma ordered_writer c w d n rest p' s' :
  ordered c → threads c = w :: d :: rest → dtor_stage d = Some n →
  thread_step strf cap 0 true w (sh c) = Some (p', s') →
  ordered (Config s' (p' :: d :: rest) (logged c) (taken c ++ popped w (sh c))).
Proof.
  intros [(w0 & d0 & n0 & rest0 & Hth & Hidle & Hw & Hd & (H2 & H4 & H3 & H6 & H7 & H8) & Hlines & Hlk) Hlost Hbuf] Hth' Hn Hs.
  rewrite Hth in Hth'. injection Hth' as -> -> ->. rewrite Hd in Hn. injection Hn as ->. rename Hd into Hn.
  destruct (decide (n ≤ 3)) as [Hle|Hgt]; [|destruct H4 as [_ ->]; [lia|]; done].
  destruct (active_step 0 w (sh c) p' s') as (Htr & Hlost' & Hbuf' & _); [by left|done|done|].
  destruct (writer_keeps 0 true w (sh c) p' s' Hw Hs) as (Hw' & Hr & Hst).
  constructor; cbn [sh threads taken]; [|congruence|done].
  exists p', d, n, rest. split_and!; try done; [| |].
  - unfold dtor_ok. rewrite Hr, Hst. split_and!; intros; try lia; auto.
  - rewrite decide_True by lia. by rewrite Htr, Hlines, fmap_app.
  - rewrite decide_True by lia. by eapply lock_step.
Qed.

Lemma early_dtor_step d n s p' s' w :
  dtor_stage d = Some n → n ≤ 3 → thread_step strf cap 1 true d s = Some (p', s') →
  in_transit w s' = in_transit w s ∧ lost s' = lost s ∧ buffer_ s' = buffer_ s ∧ popped d s = [] ∧
  out p' = [] ∧ hand p' = [] ∧ line_mu_ s' = line_mu_ s ∧ lock_of 1 p' = None.
Proof.
  intros Hn Hle Hs. destruct d as [| |k|k|k|ls k| |e| | | |e| | | | |]; cbn in Hn;
    try (destruct k); simplify_eq; try lia; cbn [thread_step] in Hs; try done; injection Hs as <- <-; done.
Qed.

Lemma ordered_dtor c w d n rest p' s' :
  ordered c → threads c = w :: d :: rest → dtor_stage d = Some n → (d = DJoin → w = Exited) →
  thread_step strf cap 1 true d (sh c) = Some (p', s') →
  ordered (Config s' (w :: p' :: rest) (logged c) (taken c ++ popped d (sh c))).
Proof.
  intros [(w0 & d0 & n0 & rest0 & Hth & Hidle & Hw & Hd & Hok & Hlines & Hlk) Hlost Hbuf] Hth' Hn Hj Hs.
  rewrite Hth in Hth'. injection Hth' as -> -> ->. rewrite Hd in Hn. injection Hn as ->. rename Hd into Hn.
  assert (n = 3 → w = Exited) as Hj'.
  { intros ->. apply Hj. destruct d as [| |[]|[]|[]|? []| | | | | | | | | | |]; cbn in Hn; by simplify_eq. }
  destruct (dtor_advances 1 d (sh c) p' s' n w) as (n' & Hn' & Hok'); [done..|].
  destruct (decide (n ≤ 3)) as [Hle|Hgt].
  - destruct (early_dtor_step d n (sh c) p' s' w Hn Hle Hs) as (Htr & Hl & Hb & Hp & Hout & Hhand & Hmu & Hlk').
    constructor; cbn [sh threads taken]; [|congruence|by rewrite Hb].
    exists w, p', n', rest. split_and!; try done; [rewrite Hp, app_nil_r, <- Hlines, <- Htr|rewrite Hmu, Hlk, ?Hlk'];
      (case_decide as Hn3; [done|]); destruct Hok' as (_ & H4 & _); (destruct H4 as [_ ->]; [lia|]); [|done].
    unfold in_transit. by rewrite Hout, Hhand.
  - destruct (active_step 1 d (sh c) p' s') as (Htr & Hl & Hb & _); [right; eauto|done|done|].
    constructor; cbn [sh threads taken]; [|congruence|done].
    assert (¬ n' ≤ 3) as Hgt'; [|exists w, p', n', rest; split_and!; try done; rewrite decide_False by done;
      [by rewrite fmap_app, <- Hlines, <- Htr|by eapply lock_step]].
    destruct d as [| |[]|[]|[]|? []| | | | | | | | | | |]; cbn in Hn; simplify_eq; try lia;
      cbn [thread_step] in Hs; repeat (case_match; try done); simplify_eq; cbn in Hn'; simplify_eq; lia.
Qed.

Lemma ordered_log c e b s' :
  (1 ≤ cap)%Z → ordered c → log cap e (sh c) = (b, s') →
  ordered (Config s' (threads c) (if b then logged c ++ [e] else logged c) (taken c)).
Proof.
  intros Hcap [(w & d & n & rest & Hth & Hidle & Hw & Hd & (H2 & H4 & H3 & H6 & H7 & H8) & Hlines & Hlk) Hlost Hbuf] Hlog.
  apply (log_accounts cap) in Hlog as (Hs & Hst & Hstop & _); [|done].
  assert (running_ s' = running_ (sh c) ∧ buffer_ s' = buffer_ (sh c) ∧ lost s' = lost (sh c) ∧
          (∀ p, in_transit p s' = in_transit p (sh c))) as (Hr & Hb & Hl & Htr) by (by rewrite Hs).
  constructor; cbn [sh threads taken]; [|congruence|by rewrite Hb].
  assert (line_mu_ s' = line_mu_ (sh c)) as Hmu by (by rewrite Hs).
  exists w, d, n, rest. split_and!; try done; [|by rewrite Htr|by rewrite Hmu].
  unfold dtor_ok. rewrite Hr, Hst, Hb. split_and!; try done. intros Hn6.
  destruct H4 as [Hx _]; [lia|]. destruct (Hstop Hx) as [-> _]. auto.
Qed.

Lemma ordered_step c c' : (1 ≤ cap)%Z → ordered c → step strf cap false false c c' → ordered c'.
Proof.
  intros Hcap Hc Hs. pose proof Hc as [(w & d & n & rest & Hth & Hidle & Hw & Hd & Hok & Hlines & Hlk) _ _].
  inversion Hs as [c0 t p ok p' s' Ht Hf Hj Hstep|c0 e b s' Hlog|c0 t Hfl|c0 Hid]; subst.
  - rewrite (Hf eq_refl) in Hstep. rewrite Hth in *. destruct t as [|[|t]]; cbn in Ht.
    + injection Ht as <-. by eapply ordered_writer.
    + injection Ht as <-. eapply ordered_dtor; try done. intros ->. specialize (Hj eq_refl). by cbn in Hj; simplify_eq.
    + apply list_elem_of_lookup_2 in Ht. rewrite Forall_forall in Hidle. by rewrite (Hidle p Ht) in Hstep.
  - by eapply ordered_log.
  - done.
  - rewrite Hth in Hid |- *. cbn in Hid. injection Hid as ->. cbn in Hd. injection Hd as <-.
    destruct Hc as [_ Hlost Hbuf]. constructor; cbn [sh threads taken]; [|done|done].
    exists w, DStart, 1, rest. split_and!; try done. unfold dtor_ok. split_and!; intros; lia.
Qed.

Lemma ordered_initial level n : ordered (initial level n).
Proof.
  constructor; [|done|by apply Forall_nil].
  exists WTest, Idle, 0, (replicate n Idle). split_and!; try done; [by apply Forall_replicate|].
  unfold dtor_ok. split_and!; intros; lia.
Qed.
End order.


(** ** The join of the destructor ends *)

Section join.
Context (strf : Z → str) (cap : Z).
Implicit Types (s : shared) (p : pc).

(** The position of the writer in its loop, later positions being smaller; the
    end of a round comes before the next one when entries are left. *)
Definition writer_rank (more : bool) (p : pc) : nat :=
  match p with
  | FileWrite _ KExit => 1 | FlushTest KExit => 2
  | WTest => if more then 13 else 3
  | FileWrite _ KLoop => if more then 14 else 4
  | FlushTest KLoop => if more then 15 else 5
  | MorePop => 6 | HandWriter _ => 7 | WaitPop => 8
  | FileWrite _ KWait => 9 | FlushTest KWait => 10
  | AllPop _ => 11 | AllLock _ => 12
  | _ => 0
  end.

Definition join_measure (p : pc) (s : shared) : nat :=
  20 * length (items (queue_ s)) + writer_rank (bool_decide (items (queue_ s) ≠ [])) p.

Lemma writer_decreases t ok p s p' s' :
  writer_pc p = true → running_ s = false →
  thread_step strf cap t ok p s = Some (p', s') → join_measure p' s' < join_measure p s.
Proof.
  intros Hw Hr Hs. unfold join_measure.
  destruct p as [| |k|k|k|ls k| |e| | | |e| | | | |]; try done; cbn [thread_step] in Hs.
  all: try (match type of Hs with context [pop _] => idtac end; unfold pop in Hs).
  all: try (destruct (locked s); [done|]).
  all: destruct (items (queue_ s)) as [|e0 l] eqn:Hi; cbn [fifo_pop fst snd] in Hs.
  all: try (destruct k; try done).
  all: try rewrite Hr in Hs; cbn [orb andb] in Hs; rewrite ?andb_false_r in Hs.
  all: try (destruct (decide (concat (buffer_ s) = []))).
  all: injection Hs as <- <-; try destruct ok; cbn; rewrite ?Hi; try (destruct l); cbn; lia.
Qed.

(** A writer that waits for nobody else can always go on. *)
Lemma writer_can_step p s :
  writer_pc p = true → p ≠ Exited → line_mu_ s = lock_of 0 p →
  ∃ p' s', thread_step strf cap 0 true p s = Some (p', s').
Proof.
  intros Hw Hne Hl.
  assert (lock_of 0 p = None → locked s = false) as Hfree
    by (intros Hn; unfold locked; rewrite Hl, Hn; by apply bool_decide_eq_false_2; intros []%is_Some_None).
  destruct p as [| |k|k|k|ls k| |e| | | |e| | | | |]; try done; cbn [thread_step]; rewrite ?Hfree by done.
  - destruct (_ || _); eauto.
  - eauto.
  - destruct (pop s) as [[]]; eauto.
  - destruct (decide _); [|destruct (_ && _)]; eauto.
  - eauto.
  - destruct (pop s) as [[]]; eauto.
  - eauto.
  - destruct (pop s) as [[]]; eauto.
Qed.

(** Running the writer to its end. *)
Lemma writer_runs_out w d rest s lg tk m :
  writer_pc w = true → running_ s = false → line_mu_ s = lock_of 0 w → join_measure w s ≤ m →
  ∃ k c', k ≤ m ∧ nsteps (step strf cap false false) k (Config s (w :: d :: rest) lg tk) c' ∧
    threads c' !! 0 = Some Exited.
Proof.
  revert w s tk. induction m as [|m IH]; intros w s tk Hw Hr Hl Hm.
  all: destruct (decide (w = Exited)) as [->|Hne]; [eexists 0, _; split; [lia|]; by split; [constructor|]|].
  all: destruct (writer_can_step w s Hw Hne Hl) as (w' & s' & Hs).
  all: pose proof (writer_decreases 0 true w s w' s' Hw Hr Hs) as Hdec.
  { lia. }
  destruct (writer_keeps strf cap 0 true w s w' s' Hw Hs) as (Hw' & Hr' & _).
  pose proof (lock_step strf cap 0 true w s w' s' Hs Hl) as Hl'.
  destruct (IH w' s' (tk ++ popped w s)) as (k & c' & Hk & Hsteps & Hex); [done|congruence|done|lia|].
  exists (S k), c'. split; [lia|]. split; [|done]. econstructor; [|exact Hsteps].
  apply (step_thread strf cap false false (Config s (w :: d :: rest) lg tk) 0 w true w' s'); try done.
  by intros ->.
Qed.
End join.


(** ** Concrete runs *)

Definition demo_entry : Entry := mkEntry Info (lit "f") (lit "m") 0.
Definition demo_time (t : Z) : str := lit "T".
Definition demo_line : str := lit "[Info] T f: m" ++ [LF].

(** A deterministic run: an entry is logged, a thread makes a step, [flush] is
    called on thread 2, or the destruction begins. *)
Inductive logger_act : Type := ALog (e : Entry) | AStep (t : nat) | AFlush | ADestroy.
#[export] Instance logger_act_eq_dec : EqDecision logger_act.
Proof. solve_decision. Defined.

Definition logger_exec (a : logger_act) (c : config) : option config :=
  match a with
  | ALog e => let '(b, s') := log 4 e (sh c) in
              Some (Config s' (threads c) (if b then logged c ++ [e] else logged c) (taken c))
  | AStep t =>
      p ← threads c !! t;
      if decide (p = DJoin ∧ threads c !! 0 ≠ Some Exited) then None else
      '(p', s') ← thread_step demo_time 4 t true p (sh c);
      Some (Config s' (<[t := p']> (threads c)) (logged c) (taken c ++ popped p (sh c)))
  | AFlush => if decide (threads c !! 2 = Some Idle) then
                Some (Config (sh c) (<[2 := FlPop]> (threads c)) (logged c) (taken c)) else None
  | ADestroy => if decide (threads c !! 1 = Some Idle) then
                Some (Config (sh c) (<[1 := DStart]> (threads c)) (logged c) (taken c)) else None
  end.

Fixpoint logger_run (l : list logger_act) (c : config) : option config :=
  match l with [] => Some c | a :: l' => c' ← logger_exec a c; logger_run l' c' end.

Lemma logger_exec_sound flushing a c c' :
  logger_exec a c = Some c' → (a = AFlush → flushing = true) → step demo_time 4 flushing false c c'.
Proof.
  intros Hx Hf. destruct a as [e|t| |]; cbn [logger_exec] in Hx.
  - destruct (log 4 e (sh c)) as [b s'] eqn:Hl. injection Hx as <-. by eapply step_log.
  - destruct (threads c !! t) as [p|] eqn:Ht; [|done]. cbn [mbind option_bind] in Hx.
    destruct (decide _) as [|Hj]; [done|]. destruct (thread_step _ _ _ _ _ _) as [[p' s']|] eqn:Hs; [|done].
    injection Hx as <-. eapply step_thread; try done. intros ->.
    destruct (decide (threads c !! 0 = Some Exited)); [done|]. by destruct Hj.
  - destruct (decide _) as [Hi|]; [|done]. injection Hx as <-. eapply step_flush; [by apply Hf|lia|by left].
  - destruct (decide _) as [Hi|]; [|done]. injection Hx as <-. by apply step_destroy.
Qed.

Lemma logger_run_sound flushing l c c' :
  logger_run l c = Some c' → (AFlush ∈ l → flushing = true) → rtc (step demo_time 4 flushing false) c c'.
Proof.
  revert c. induction l as [|a l IH]; intros c Hr Hf; cbn [logger_run] in Hr; [by injection Hr as <-|].
  destruct (logger_exec a c) as [c1|] eqn:Ha; [|done]. cbn [mbind option_bind] in Hr.
  eapply rtc_l; [eapply logger_exec_sound; [exact Ha|intros ->; apply Hf; set_solver]|].
  apply IH; [exact Hr|]. intros Hin. apply Hf. set_solver.
Qed.

(** [flush] does not wait for what the writer is holding: an entry can be logged
    before [flush] is called and still not be in the file when [flush] returns,
    because the writer has taken it out of the queue and has not yet put it into
    the buffer. *)
Theorem logger_flush_races :
  ∃ c, rtc (step demo_time 4 true false) (initial Debug 1) c ∧ logged c = [demo_entry] ∧
    threads c !! 2 = Some Done ∧ file (sh c) = [] ∧ threads c !! 0 = Some (HandWriter demo_entry).
Proof.
  eexists. split; [|split_and!].
  - eapply (logger_run_sound true ([AStep 0; AStep 0; AStep 0; AStep 0; ALog demo_entry; AStep 0; AFlush; AStep 2; AStep 2]));
      [vm_compute; reflexivity|done].
  - reflexivity.
  - reflexivity.
  - reflexivity.
  - reflexivity.
Qed.

Definition demo_shutdown : list logger_act :=
  [ALog demo_entry; AStep 0; AStep 0; AStep 0; ADestroy; AStep 1; AStep 1].



