(* ===== verification/Profiler.v ===== *)
(** * Scope timers (src/muses/profiler.hpp)

    A [Profiler] object measures the time until it is destroyed and reports it at
    Debug level; it can be moved, which leaves the source inert. *)

From S2P Require Import Prelude Http.

Module Profiler.
Local Open Scope Z_scope.

(** A time point is in nanoseconds. *)
Record profiler : Type := mkProfiler {
  func_name : str;
  start_time : Z;
  active : bool
}.

(** Named objects and the messages handed to the logger. *)
Record world : Type := mkWorld {
  objects : gmap nat profiler;
  reported : list (str * Z)
}.

(** The text of a report. *)
Definition signed (z : Z) : str :=
  if decide (z < 0) then lit "-" ++ decimal (Z.to_nat (- z)) else decimal (Z.to_nat z).
Definition message (m : str * Z) : str :=
  lit "[Profiler] func: " ++ m.1 ++ lit ", duration: " ++ signed m.2 ++ lit " us.".

(** [duration_cast<microseconds>] truncates towards zero. *)
Definition report (now : Z) (p : profiler) (w : list (str * Z)) : profiler * list (str * Z) :=
  if negb (active p) then (p, w) else
  (mkProfiler (func_name p) (start_time p) false, w ++ [(func_name p, Z.quot (now - start_time p) 1000)]).

Inductive op : Type :=
  | New (x : nat) (name : str)
  | MoveNew (x y : nat)
  | MoveAssign (x y : nat)
  | Destruct (x : nat).

(** A moved-from string is left empty here; nothing reads it. *)
Definition moved (p : profiler) : profiler := mkProfiler [] (start_time p) false.

(** [now] is what the clock says during the operation. *)
Definition exec (now : Z) (o : op) (w : world) : world :=
  match o with
  | New x name =>
      match objects w !! x with
      | Some _ => w
      | None => mkWorld (<[x := mkProfiler name now true]> (objects w)) (reported w)
      end
  | MoveNew x y =>
      match objects w !! x, objects w !! y with
      | None, Some p => mkWorld (<[x := p]> (<[y := moved p]> (objects w))) (reported w)
      | _, _ => w
      end
  | MoveAssign x y =>
      match objects w !! x, objects w !! y with
      | Some px, Some py =>
          if decide (x = y) then w else
          let '(_, log) := report now px (reported w) in
          mkWorld (<[y := moved py]> (<[x := py]> (objects w))) log
      | _, _ => w
      end
  | Destruct x =>
      match objects w !! x with
      | Some p => let '(_, log) := report now p (reported w) in mkWorld (delete x (objects w)) log
      | None => w
      end
  end.

Fixpoint exec_all (os : list (Z * op)) (w : world) : world :=
  match os with [] => w | (now, o) :: os' => exec_all os' (exec now o w) end.

Definition empty : world := mkWorld ∅ [].

(** The measurements that were started: name and time. *)
Fixpoint begun (os : list (Z * op)) (w : world) : list (str * Z) :=
  match os with
  | [] => []
  | (now, o) :: os' =>
      match o with
      | New x name => if decide (objects w !! x = None) then [(name, now)] else []
      | _ => []
      end ++ begun os' (exec now o w)
  end.

(** ** Every measurement is reported once *)

(** The measurements that run. *)
Definition running (m : gmap nat profiler) : list (str * Z) :=
  omap (λ kp, if active kp.2 then Some (func_name kp.2, start_time kp.2) else None) (map_to_list m).

Definition runs (p : profiler) : list (str * Z) := if active p then [(func_name p, start_time p)] else [].

Lemma running_insert m x p : m !! x = None → running (<[x := p]> m) ≡ₚ runs p ++ running m.
Proof.
  intros Hx. unfold running. rewrite map_to_list_insert by done. unfold runs. csimpl.
  by destruct (active p).
Qed.

Lemma running_delete m x p : m !! x = Some p → running m ≡ₚ runs p ++ running (delete x m).
Proof.
  intros Hx. rewrite <- (insert_delete_id m x p) at 1 by done. apply running_insert, lookup_delete_eq.
Qed.

Lemma running_update m x p q : m !! x = Some p → runs p ++ running (<[x := q]> m) ≡ₚ runs q ++ running m.
Proof.
  intros Hx. rewrite (running_delete m x p Hx), <- insert_delete_eq, running_insert by (by rewrite lookup_delete_eq).
  by rewrite !app_assoc, (Permutation_app_comm (runs p)).
Qed.

(** The reports added by an operation, as (name, start) pairs. *)
Definition closed (now : Z) (log log' : list (str * Z)) (ms : list (str * Z)) : Prop :=
  log' = log ++ ((λ m, (m.1, Z.quot (now - m.2) 1000)) <$> ms).

Lemma report_closed now p log : closed now log (report now p log).2 (runs p).
Proof. unfold closed, report, runs. destruct (active p); cbn; [done|]. by rewrite app_nil_r. Qed.

Lemma exec_running now o w :
  ∃ ms, closed now (reported w) (reported (exec now o w)) ms ∧
    ms ++ running (objects (exec now o w)) ≡ₚ begun [(now, o)] w ++ running (objects w).
Proof.
  assert (closed now (reported w) (reported w) []) as Hnil by (unfold closed; by rewrite app_nil_r).
  destruct o as [x name|x y|x y|x]; cbn; rewrite ?app_nil_r.
  - destruct (objects w !! x) eqn:Hx; [by exists []|]. exists []. split; [done|]. cbn. by rewrite running_insert.
  - destruct (objects w !! x) eqn:Hx; [by exists []|]. destruct (objects w !! y) as [p|] eqn:Hy; [|by exists []].
    exists []. split; [done|]. cbn. assert (x ≠ y) by congruence.
    rewrite running_insert by (by rewrite lookup_insert_ne).
    by rewrite (running_update _ y p (moved p) Hy).
  - destruct (objects w !! x) as [px|] eqn:Hx; [|by exists []]. destruct (objects w !! y) as [py|] eqn:Hy; [|by exists []].
    destruct (decide (x = y)) as [|Hne]; [by exists []|].
    pose proof (report_closed now px (reported w)) as Hr. destruct (report now px (reported w)) as [p' log].
    exists (runs px). split; [done|]. cbn.
    pose proof (running_update (<[x := py]> (objects w)) y py (moved py)) as Hu.
    rewrite lookup_insert_ne in Hu by done. specialize (Hu Hy).
    pose proof (running_update (objects w) x px py Hx) as Hv. cbn in Hu.
    apply (Permutation_app_inv_l (runs py)). rewrite <- Hv, <- Hu. solve_Permutation.
  - destruct (objects w !! x) as [p|] eqn:Hx; [|by exists []].
    pose proof (report_closed now p (reported w)) as Hr. destruct (report now p (reported w)) as [p' log].
    exists (runs p). split; [done|]. cbn. by rewrite <- running_delete.
Qed.

(** A report [r] of measurement [m], taken at one of the times. *)
Definition reports (times : list Z) (m r : str * Z) : Prop :=
  ∃ now, now ∈ times ∧ r = (m.1, Z.quot (now - m.2) 1000).

Lemma exec_all_running os : ∀ w, ∃ ms rs,
  reported (exec_all os w) = reported w ++ rs ∧ Forall2 (reports os.*1) ms rs ∧
  ms ++ running (objects (exec_all os w)) ≡ₚ begun os w ++ running (objects w).
Proof.
  induction os as [|[now o] os IH]; intros w; [by exists [], []; cbn; rewrite app_nil_r|].
  destruct (exec_running now o w) as (ms1 & Hc & Hp1). destruct (IH (exec now o w)) as (ms2 & rs2 & Hr & Hf & Hp2).
  exists (ms1 ++ ms2), (((λ m, (m.1, Z.quot (now - m.2) 1000)) <$> ms1) ++ rs2). split_and!.
  - cbn. by rewrite Hr, Hc, app_assoc.
  - apply Forall2_app.
    + apply Forall2_fmap_r, Forall_Forall2_diag, Forall_forall. intros m _. exists now. split; [left|done].
    + eapply Forall2_impl; [exact Hf|]. intros m r (t & Ht & ->). exists t. split; [by right|done].
  - cbn [exec_all begun]. cbn [begun] in Hp1. rewrite app_nil_r in Hp1.
    rewrite <- app_assoc, Hp2, app_assoc, (Permutation_app_comm ms1), <- app_assoc, Hp1. solve_Permutation.
Qed.

(** A measurement is reported at most once, and exactly once when all objects
    are gone: after any sequence of constructions, moves, move assignments
    (self-moves included) and destructions, the reports so far and the measurements
    still running are together exactly the measurements begun; each report carries
    its name and the microseconds from its start to the operation that ended it. *)
Theorem profiler_reports_once os :
  let w := exec_all os empty in
  ∃ ms, Forall2 (reports os.*1) ms (reported w) ∧ ms ++ running (objects w) ≡ₚ begun os empty ∧
    (objects w = ∅ → ms ≡ₚ begun os empty).
Proof.
  destruct (exec_all_running os empty) as (ms & rs & Hr & Hf & Hp). cbn in Hr. rewrite app_nil_r in Hp.
  exists ms. rewrite Hr. split_and!; [done..|]. intros He. rewrite He in Hp. by rewrite app_nil_r in Hp.
Qed.

End Profiler.
