(* ===== verification/Poller.v ===== *)
(** * The I/O multiplexers (src/muses/net/poller.hpp, epoll_poller.hpp,
      kqueue_poller.hpp)

    [Poller] is the interface the reactor uses: which events each descriptor is
    watched for.  [EpollPoller] tells the kernel at once; [KQueuePoller] buffers
    changes and submits them in one batch at the next [wait].  Both keep a mirror
    of the userdata of each descriptor.  The kernel's record of what it watches is
    part of each state; a system call may fail ([ok = false]) and then changes
    nothing, and what a blocking call answers is an input of [wait]. *)

From S2P Require Import Prelude.
Local Open Scope Z_scope.

(** ** Event masks: [enum class EventMask : uint16_t] *)

Definition Empty : Z := 0.
Definition Readable : Z := 1.
Definition Writable : Z := 2.
Definition Closed : Z := 4.

Definition mask_or (a b : Z) : Z := Z.lor a b.
Definition mask_and (a b : Z) : Z := Z.land a b.
Definition has (a b : Z) : bool := bool_decide (Z.land a b ≠ 0).

Record PollEvent : Type := mkEvent {
  ev_fd : Z;
  ev_mask : Z;
  userdata : Z                 (* an address *)
}.

Definition nullptr : Z := 0.

(** The answer of the system call that waits for events. *)
Inductive wait_answer (A : Type) : Type :=
  | Interrupted                (* EINTR *)
  | Failed
  | Events (evs : list A).
Arguments Interrupted {A}.
Arguments Failed {A}.
Arguments Events {A} evs.

(** ** What a poller promises: the interest set *)

(** Descriptor -> mask and userdata. *)
Abbreviation interest := (gmap Z (Z * Z)).

Definition watch_add (fd mask ud : Z) (i : interest) : interest := <[fd := (mask, ud)]> i.
Definition watch_mod (fd mask ud : Z) (i : interest) : interest :=
  if decide (is_Some (i !! fd)) then <[fd := (mask, ud)]> i else i.
Definition watch_del (fd : Z) (i : interest) : interest := delete fd i.

(** ** epoll *)

Definition EPOLLIN : Z := 0x001.
Definition EPOLLOUT : Z := 0x004.
Definition EPOLLERR : Z := 0x008.
Definition EPOLLHUP : Z := 0x010.
Definition EPOLLRDHUP : Z := 0x2000.
Definition EPOLLET : Z := 2 ^ 31.

Module Epoll.

Record t : Type := mk {
  epfd_ok : bool;              (* epfd_ != -1 *)
  wakefd_ok : bool;            (* wakefd_ != -1 *)
  fds_ : gmap Z Z;             (* descriptor -> userdata *)
  kernel : gmap Z Z;           (* descriptor -> epoll events *)
  counter : Z;                 (* of the eventfd *)
  wake_watched : bool          (* the eventfd is in the epoll set *)
}.

(** The constructor; the arguments say which system calls succeed. *)
Definition EpollPoller (create event ctl : bool) : t :=
  if negb create then mk false event ∅ ∅ 0 false
  else if negb event then mk true false ∅ ∅ 0 false
  else mk true true ∅ ∅ 0 ctl.

Definition update (fds : gmap Z Z) (k : gmap Z Z) (p : t) : t :=
  mk (epfd_ok p) (wakefd_ok p) fds k (counter p) (wake_watched p).

Definition to_epoll (m : Z) : Z :=
  let e := 0 in
  let e := if has m Readable then Z.lor e EPOLLIN else e in
  let e := if has m Writable then Z.lor e EPOLLOUT else e in
  Z.lor e EPOLLET.

(** [epoll_ctl]: an ADD of a watched descriptor and a MOD or DEL of one that is
    not watched fail; other failures come from outside ([ok]). *)
Definition ctl_add (ok : bool) (fd ev : Z) (k : gmap Z Z) : bool * gmap Z Z :=
  match k !! fd with
  | Some _ => (false, k)
  | None => if ok then (true, <[fd := ev]> k) else (false, k)
  end.
Definition ctl_mod (ok : bool) (fd ev : Z) (k : gmap Z Z) : bool * gmap Z Z :=
  match k !! fd with
  | Some _ => if ok then (true, <[fd := ev]> k) else (false, k)
  | None => (false, k)
  end.
Definition ctl_del (fd : Z) (k : gmap Z Z) : bool * gmap Z Z :=
  match k !! fd with Some _ => (true, delete fd k) | None => (false, k) end.

Definition add (ok : bool) (fd mask ud : Z) (p : t) : bool * t :=
  if negb (epfd_ok p) then (false, p) else
  let '(r, k) := ctl_add ok fd (to_epoll mask) (kernel p) in
  if r then (true, update (<[fd := ud]> (fds_ p)) k p) else (false, update (fds_ p) k p).

Definition mod_ (ok : bool) (fd mask ud : Z) (p : t) : bool * t :=
  if negb (epfd_ok p) then (false, p) else
  let '(r, k) := ctl_mod ok fd (to_epoll mask) (kernel p) in
  if negb r then (false, update (fds_ p) k p) else
  (true, update (if decide (is_Some (fds_ p !! fd)) then <[fd := ud]> (fds_ p) else fds_ p) k p).

Definition del (fd : Z) (p : t) : bool * t :=
  if negb (epfd_ok p) then (false, p) else
  let '(r, k) := ctl_del fd (kernel p) in
  (r, update (delete fd (fds_ p)) k p).

(** The translation of a returned event in [wait]. *)
Definition event_mask (events : Z) : Z :=
  let m := Empty in
  let m := if decide (Z.land events (Z.lor EPOLLIN EPOLLHUP) ≠ 0) then mask_or m Readable else m in
  let m := if decide (Z.land events (Z.lor EPOLLOUT EPOLLHUP) ≠ 0) then mask_or m Writable else m in
  if decide (Z.land events (Z.lor (Z.lor EPOLLERR EPOLLHUP) EPOLLRDHUP) ≠ 0) then mask_or m Closed else m.

Definition kWakeFdSentinel : Z := -1.

(** The loop of [wait] over the returned events; the wakeup marker is swallowed
    and the eventfd is drained. *)
Fixpoint wait_events (evs : list (Z * Z)) (p : t) : list PollEvent * t :=
  match evs with
  | [] => ([], p)
  | (fd, events) :: evs' =>
      if decide (fd = kWakeFdSentinel) then
        wait_events evs' (mk (epfd_ok p) (wakefd_ok p) (fds_ p) (kernel p) 0 (wake_watched p))
      else
        let ud := default nullptr (fds_ p !! fd) in
        let '(out, p') := wait_events evs' p in
        (mkEvent fd (event_mask events) ud :: out, p')
  end.

Definition wait (size : nat) (a : wait_answer (Z * Z)) (p : t) : Z * list PollEvent * t :=
  if negb (epfd_ok p) then (-1, [], p) else
  if decide (size = O) then (0, [], p) else
  match a with
  | Interrupted => (0, [], p)
  | Failed => (-1, [], p)
  | Events evs => let '(out, p') := wait_events evs p in (Z.of_nat (length out), out, p')
  end.

Definition wakeup (p : t) : t :=
  if negb (wakefd_ok p) then p
  else mk (epfd_ok p) (wakefd_ok p) (fds_ p) (kernel p) (counter p + 1) (wake_watched p).
End Epoll.

(** ** kqueue *)

Module KQueue.

Inductive filter_kind : Type := EVFILT_READ | EVFILT_WRITE.
#[export] Instance filter_kind_eq_dec : EqDecision filter_kind.
Proof. solve_decision. Defined.
#[export] Instance filter_kind_countable : Countable filter_kind.
Proof.
  refine (inj_countable' (λ k, match k with EVFILT_READ => true | EVFILT_WRITE => false end)
                         (λ b, if b : bool then EVFILT_READ else EVFILT_WRITE) _).
  by intros [].
Defined.

(** A buffered [struct kevent]: EV_ADD|EV_CLEAR or EV_DELETE. *)
Record kchange : Type := mkChange {
  ident : Z;
  kfilter : filter_kind;
  kadd : bool
}.

Record t : Type := mk {
  kq_ok : bool;
  fds_ : gmap Z Z;             (* descriptor -> userdata *)
  pending_ : list kchange;
  kernel : gset (Z * filter_kind);
  user_filter : bool;          (* EVFILT_USER of kWakeIdent is registered *)
  triggered : bool             (* NOTE_TRIGGER since it was last reported *)
}.

(** The constructor; the arguments say which system calls succeed. *)
Definition KQueuePoller (create user : bool) : t :=
  if negb create then mk false ∅ [] ∅ false false else mk true ∅ [] ∅ user false.

Definition update (fds : gmap Z Z) (cs : list kchange) (k : gset (Z * filter_kind)) (p : t) : t :=
  mk (kq_ok p) fds cs k (user_filter p) (triggered p).

Definition buffer_change (fd : Z) (f : filter_kind) (a : bool) (p : t) : t :=
  update (fds_ p) (pending_ p ++ [mkChange fd f a]) (kernel p) p.

Definition apply_mask (fd mask : Z) (p : t) : t :=
  let p := buffer_change fd EVFILT_READ (has mask Readable) p in
  buffer_change fd EVFILT_WRITE (has mask Writable) p.

Definition add (fd mask ud : Z) (p : t) : bool * t :=
  if negb (kq_ok p) then (false, p) else
  (true, apply_mask fd mask (update (<[fd := ud]> (fds_ p)) (pending_ p) (kernel p) p)).

Definition mod_ (fd mask ud : Z) (p : t) : bool * t :=
  if negb (kq_ok p) then (false, p) else
  match fds_ p !! fd with
  | None => (false, p)
  | Some _ => (true, apply_mask fd mask (update (<[fd := ud]> (fds_ p)) (pending_ p) (kernel p) p))
  end.

Definition del (fd : Z) (p : t) : bool * t :=
  if negb (kq_ok p) then (false, p) else
  match fds_ p !! fd with
  | None => (false, p)
  | Some _ =>
      let p := update (delete fd (fds_ p)) (pending_ p) (kernel p) p in
      (true, buffer_change fd EVFILT_WRITE false (buffer_change fd EVFILT_READ false p))
  end.

(** One change in the kernel; deleting a filter that is absent is an error that
    is reported for that change alone. *)
Definition kapply (k : gset (Z * filter_kind)) (c : kchange) : gset (Z * filter_kind) :=
  if kadd c then {[(ident c, kfilter c)]} ∪ k else k ∖ {[(ident c, kfilter c)]}.

Definition flush_pending (p : t) : t :=
  match pending_ p with
  | [] => p
  | cs => update (fds_ p) [] (foldl kapply (kernel p) cs) p
  end.

(** The translation of a returned event in [wait]. *)
Definition event_mask (f : filter_kind) (eof_or_error : bool) : Z :=
  let m := Empty in
  let m := match f with EVFILT_READ => mask_or m Readable | _ => m end in
  let m := match f with EVFILT_WRITE => mask_or m Writable | _ => m end in
  if eof_or_error then mask_or m Closed else m.

(** A returned [struct kevent]. *)
Inductive kevent : Type :=
  | KUser
  | KFilter (fd : Z) (f : filter_kind) (eof_or_error : bool).

(** The loop of [wait] over the returned events; EV_CLEAR resets the trigger. *)
Fixpoint wait_events (evs : list kevent) (p : t) : list PollEvent * t :=
  match evs with
  | [] => ([], p)
  | KUser :: evs' => wait_events evs' (mk (kq_ok p) (fds_ p) (pending_ p) (kernel p) (user_filter p) false)
  | KFilter fd f e :: evs' =>
      let ud := default nullptr (fds_ p !! fd) in
      let '(out, p') := wait_events evs' p in
      (mkEvent fd (event_mask f e) ud :: out, p')
  end.

Definition wait (size : nat) (a : wait_answer kevent) (p : t) : Z * list PollEvent * t :=
  if negb (kq_ok p) then (-1, [], p) else
  if decide (size = O) then (0, [], p) else
  let p := flush_pending p in
  match a with
  | Interrupted => (0, [], p)
  | Failed => (-1, [], p)
  | Events evs => let '(out, p') := wait_events evs p in (Z.of_nat (length out), out, p')
  end.

Definition wakeup (p : t) : t :=
  if negb (kq_ok p) then p
  else mk (kq_ok p) (fds_ p) (pending_ p) (kernel p) (user_filter p) (user_filter p || triggered p).
End KQueue.

(** ** The two pollers under the same sequence of requests *)

(** What the system reports in one [wait]: a wakeup, or that a descriptor is
    readable or writable, perhaps with a hangup or an error. *)
Record report : Type := mkReport {
  r_fd : Z;
  r_write : bool;
  r_closed : bool
}.
Abbreviation notice := (option report).

Definition epoll_notice (n : notice) : Z * Z :=
  match n with
  | None => (Epoll.kWakeFdSentinel, EPOLLIN)
  | Some r => (r_fd r, Z.lor (if r_write r then EPOLLOUT else EPOLLIN) (if r_closed r then EPOLLERR else 0))
  end.
Definition kqueue_notice (n : notice) : KQueue.kevent :=
  match n with
  | None => KQueue.KUser
  | Some r => KQueue.KFilter (r_fd r) (if r_write r then KQueue.EVFILT_WRITE else KQueue.EVFILT_READ) (r_closed r)
  end.

Inductive watch_op : Type :=
  | WAdd (fd mask ud : Z)
  | WMod (fd mask ud : Z)
  | WDel (fd : Z)
  | WWait (size : nat) (ns : list notice)
  | WWakeup.

Inductive reply : Type :=
  | RBool (b : bool)
  | REvents (count : Z) (out : list PollEvent)
  | RNone.

(** The reference: [wait] reports each descriptor with its userdata. *)
Definition spec_event (i : interest) (r : report) : PollEvent :=
  mkEvent (r_fd r) (mask_or (if r_write r then Writable else Readable) (if r_closed r then Closed else Empty))
    (default nullptr (snd <$> i !! r_fd r)).
Definition spec_out (i : interest) (ns : list notice) : list PollEvent :=
  spec_event i <$> omap id ns.

Definition spec_op (o : watch_op) (i : interest) : reply * interest :=
  match o with
  | WAdd fd mask ud => (RBool true, watch_add fd mask ud i)
  | WMod fd mask ud => (RBool (bool_decide (is_Some (i !! fd))), watch_mod fd mask ud i)
  | WDel fd => (RBool (bool_decide (is_Some (i !! fd))), watch_del fd i)
  | WWait size ns => (REvents (Z.of_nat (length (spec_out i ns))) (spec_out i ns), i)
  | WWakeup => (RNone, i)
  end.

Definition epoll_op (o : watch_op) (p : Epoll.t) : reply * Epoll.t :=
  match o with
  | WAdd fd mask ud => let '(b, p') := Epoll.add true fd mask ud p in (RBool b, p')
  | WMod fd mask ud => let '(b, p') := Epoll.mod_ true fd mask ud p in (RBool b, p')
  | WDel fd => let '(b, p') := Epoll.del fd p in (RBool b, p')
  | WWait size ns => let '(n, out, p') := Epoll.wait size (Events (epoll_notice <$> ns)) p in (REvents n out, p')
  | WWakeup => (RNone, Epoll.wakeup p)
  end.

Definition kqueue_op (o : watch_op) (p : KQueue.t) : reply * KQueue.t :=
  match o with
  | WAdd fd mask ud => let '(b, p') := KQueue.add fd mask ud p in (RBool b, p')
  | WMod fd mask ud => let '(b, p') := KQueue.mod_ fd mask ud p in (RBool b, p')
  | WDel fd => let '(b, p') := KQueue.del fd p in (RBool b, p')
  | WWait size ns => let '(n, out, p') := KQueue.wait size (Events (kqueue_notice <$> ns)) p in (REvents n out, p')
  | WWakeup => (RNone, KQueue.wakeup p)
  end.

Fixpoint run {S : Type} (op : watch_op → S → reply * S) (os : list watch_op) (s : S) : list reply * S :=
  match os with
  | [] => ([], s)
  | o :: os' => let '(r, s') := op o s in let '(rs, s'') := run op os' s' in (r :: rs, s'')
  end.

(** The protocol: a watched descriptor is not added again; the system reports
    descriptors (not negative) and no more events than the caller has room for. *)
Definition op_ok (o : watch_op) (i : interest) : Prop :=
  match o with
  | WAdd fd _ _ => i !! fd = None
  | WWait size ns => (length ns ≤ size)%nat ∧ ∀ r, Some r ∈ ns → 0 ≤ r_fd r
  | _ => True
  end.

Fixpoint ops_ok (os : list watch_op) (i : interest) : Prop :=
  match os with [] => True | o :: os' => op_ok o i ∧ ops_ok os' (spec_op o i).2 end.

(** *** Refinement *)

Definition epoll_repr (p : Epoll.t) (i : interest) : Prop :=
  Epoll.epfd_ok p = true ∧ Epoll.fds_ p = snd <$> i ∧ Epoll.kernel p = (Epoll.to_epoll ∘ fst) <$> i.

(** The filters a kqueue has once the pending changes are applied. *)
Definition kqueue_repr (p : KQueue.t) (i : interest) : Prop :=
  KQueue.kq_ok p = true ∧ KQueue.fds_ p = snd <$> i ∧
  ∀ fd f, (fd, f) ∈ foldl KQueue.kapply (KQueue.kernel p) (KQueue.pending_ p) ↔
    ∃ mu, i !! fd = Some mu ∧
      has mu.1 (match f with KQueue.EVFILT_READ => Readable | KQueue.EVFILT_WRITE => Writable end) = true.

Lemma epoll_mask_agrees (w c : bool) :
  Epoll.event_mask (Z.lor (if w then EPOLLOUT else EPOLLIN) (if c then EPOLLERR else 0)) =
  mask_or (if w then Writable else Readable) (if c then Closed else Empty).
Proof. by destruct w, c. Qed.

Lemma kqueue_mask_agrees (w c : bool) :
  KQueue.event_mask (if w then KQueue.EVFILT_WRITE else KQueue.EVFILT_READ) c =
  mask_or (if w then Writable else Readable) (if c then Closed else Empty).
Proof. by destruct w, c. Qed.

Lemma epoll_wait_events ns p i :
  epoll_repr p i → (∀ r, Some r ∈ ns → 0 ≤ r_fd r) →
  ∃ p', Epoll.wait_events (epoll_notice <$> ns) p = (spec_out i ns, p') ∧ epoll_repr p' i.
Proof.
  revert p. induction ns as [|[r|] ns IH]; intros p Hp Hpos; [by exists p| |]; cbn.
  - destruct (IH p Hp) as (p' & -> & Hp'); [intros r' Hr'; apply Hpos; by right|].
    rewrite decide_False by (assert (0 ≤ r_fd r) by (apply Hpos; left); unfold Epoll.kWakeFdSentinel; lia).
    exists p'. split; [|done]. unfold spec_out, spec_event at 2. cbn. destruct Hp as (_ & -> & _).
    by rewrite epoll_mask_agrees, lookup_fmap.
  - apply IH; [|intros r' Hr'; apply Hpos; by right]. by destruct Hp.
Qed.

Lemma kqueue_wait_events ns p i :
  kqueue_repr p i →
  ∃ p', KQueue.wait_events (kqueue_notice <$> ns) p = (spec_out i ns, p') ∧ kqueue_repr p' i.
Proof.
  revert p. induction ns as [|[r|] ns IH]; intros p Hp; [by exists p| |]; cbn.
  - destruct (IH p Hp) as (p' & -> & Hp'). exists p'. split; [|done].
    unfold spec_out, spec_event at 2. cbn. destruct Hp as (_ & -> & _).
    by rewrite kqueue_mask_agrees, lookup_fmap.
  - apply IH. by destruct Hp.
Qed.

Lemma epoll_op_refines o p i : epoll_repr p i → op_ok o i →
  (epoll_op o p).1 = (spec_op o i).1 ∧ epoll_repr (epoll_op o p).2 (spec_op o i).2.
Proof.
  intros (Hok & Hf & Hk) Ho. destruct o as [fd mask ud|fd mask ud|fd|size ns|]; cbn in *.
  - unfold Epoll.add, Epoll.ctl_add, watch_add. rewrite Hok, Hk. cbn [negb].
    rewrite lookup_fmap, Ho. cbn. rewrite Hf. split; [done|]. split_and!; cbn; by rewrite ?fmap_insert.
  - unfold Epoll.mod_, Epoll.ctl_mod, watch_mod. rewrite Hok, Hk. cbn [negb]. rewrite lookup_fmap.
    destruct (i !! fd) as [m|] eqn:Hi; cbn.
    + rewrite Hf, lookup_fmap, Hi, !decide_True by eauto. split; [done|]. split_and!; cbn; by rewrite ?fmap_insert.
    + rewrite decide_False by (by intros [? ?]). done.
  - unfold Epoll.del, Epoll.ctl_del, watch_del. rewrite Hok, Hk. cbn [negb]. rewrite lookup_fmap.
    destruct (i !! fd) as [m|] eqn:Hi; cbn; (split; [done|]); split_and!; cbn; rewrite ?Hf, <- ?fmap_delete; try done.
    by rewrite delete_id.
  - destruct Ho as [Hlen Hpos]. unfold Epoll.wait. rewrite Hok. cbn [negb]. destruct (decide (size = 0%nat)) as [->|].
    + assert (ns = []) as -> by (destruct ns; cbn in Hlen; [done|lia]). done.
    + destruct (epoll_wait_events ns p i) as (p' & -> & Hp'); done.
  - unfold Epoll.wakeup. by destruct (Epoll.wakefd_ok p).
Qed.

Lemma kapply_two k cs fd (a b : bool) fd' f :
  (fd', f) ∈ foldl KQueue.kapply k (cs ++ [KQueue.mkChange fd KQueue.EVFILT_READ a] ++
               [KQueue.mkChange fd KQueue.EVFILT_WRITE b]) ↔
  if decide (fd' = fd) then match f with KQueue.EVFILT_READ => a = true | _ => b = true end
  else (fd', f) ∈ foldl KQueue.kapply k cs.
Proof.
  rewrite foldl_app. cbn. generalize (foldl KQueue.kapply k cs) as k0. intros k0.
  unfold KQueue.kapply. cbn. destruct (decide (fd' = fd)) as [->|Hne].
  - destruct f, a, b; set_solver.
  - destruct a, b; set_solver.
Qed.

Lemma flush_repr p i : kqueue_repr p i → kqueue_repr (KQueue.flush_pending p) i.
Proof.
  intros (Hok & Hf & Hk). unfold KQueue.flush_pending, kqueue_repr.
  destruct (KQueue.pending_ p) eqn:E; [by rewrite E|]. by split_and!.
Qed.

(** The two changes of [apply] make the watched filters those of the mask. *)
Lemma apply_mask_repr p i fd mask ud :
  kqueue_repr p i →
  kqueue_repr (KQueue.apply_mask fd mask (KQueue.update (<[fd := ud]> (KQueue.fds_ p)) (KQueue.pending_ p) (KQueue.kernel p) p))
    (<[fd := (mask, ud)]> i).
Proof.
  intros (Hok & Hf & Hk). split_and!; cbn; [done|by rewrite Hf, fmap_insert|].
  intros fd' f. rewrite <- app_assoc, kapply_two. destruct (decide (fd' = fd)) as [->|Hne].
  - rewrite lookup_insert_eq. destruct f; naive_solver.
  - rewrite lookup_insert_ne by done. apply Hk.
Qed.

Lemma kqueue_op_refines o p i : kqueue_repr p i → op_ok o i →
  (kqueue_op o p).1 = (spec_op o i).1 ∧ kqueue_repr (kqueue_op o p).2 (spec_op o i).2.
Proof.
  intros Hrep Ho. destruct (Hrep) as (Hok & Hf & Hk).
  destruct o as [fd mask ud|fd mask ud|fd|size ns|]; cbn in *.
  - unfold KQueue.add. rewrite Hok. split; [done|]. by apply apply_mask_repr.
  - unfold KQueue.mod_, watch_mod. rewrite Hok, Hf, lookup_fmap. cbn [negb].
    destruct (i !! fd) as [m|] eqn:Hi; cbn.
    + rewrite decide_True by eauto. split; [done|]. rewrite <- Hf. by apply apply_mask_repr.
    + by rewrite decide_False by (by intros [? ?]).
  - unfold KQueue.del, watch_del, KQueue.buffer_change. rewrite Hok, Hf, lookup_fmap. cbn [negb].
    destruct (i !! fd) as [m|] eqn:Hi; cbn; [|by rewrite delete_id].
    split; [done|]. split_and!; cbn; [done|by rewrite fmap_delete|]. intros fd' f. rewrite <- app_assoc.
    rewrite kapply_two. destruct (decide (fd' = fd)) as [->|Hne].
    + rewrite lookup_delete_eq. destruct f; naive_solver.
    + rewrite lookup_delete_ne by done. apply Hk.
  - unfold KQueue.wait. rewrite Hok. cbn [negb]. destruct (decide (size = 0%nat)) as [->|].
    + assert (ns = []) as -> by (destruct ns; cbn in Ho; [done|lia]). done.
    + destruct (kqueue_wait_events ns (KQueue.flush_pending p) i) as (p' & -> & Hp'); [by apply flush_repr|done].
  - unfold KQueue.wakeup. by rewrite Hok.
Qed.

Lemma has_to_epoll m :
  (Z.land (Epoll.to_epoll m) EPOLLIN ≠ 0 ↔ has m Readable = true) ∧
  (Z.land (Epoll.to_epoll m) EPOLLOUT ≠ 0 ↔ has m Writable = true).
Proof. unfold Epoll.to_epoll. destruct (has m Readable), (has m Writable); vm_compute; split; split; congruence. Qed.

(** An implementation whose every operation refines the reference does so in runs. *)
Lemma poller_run_refines {S} (op : watch_op → S → reply * S) (repr : S → interest → Prop) :
  (∀ o p i, repr p i → op_ok o i → (op o p).1 = (spec_op o i).1 ∧ repr (op o p).2 (spec_op o i).2) →
  ∀ os p i, repr p i → ops_ok os i →
    (run op os p).1 = (run spec_op os i).1 ∧ repr (run op os p).2 (run spec_op os i).2.
Proof.
  intros Hop os. induction os as [|o os IH]; intros p i Hp Hos; cbn; [done|]. destruct Hos as [Ho Hos].
  destruct (Hop o p i Hp Ho) as [Hr Hp']. destruct (op o p) as [r p'], (spec_op o i) as [r' i']; cbn in *. subst r'.
  destruct (IH p' i' Hp' Hos) as [Hrs Hp'']. destruct (run op os p'), (run spec_op os i'); cbn in *. by subst.
Qed.


