(* ===== verification/PollerFactory.v ===== *)
(** * The poller interface, platform selection and the factory
      (src/muses/config.hpp, src/muses/net/poller_factory.hpp)

    [Watcher]: what a [Poller] promises its client, as a class with an instance for
    each implementation and one for a pointer to the base class.  [platform] is the
    preprocessor's choice, [make_poller] the factory that the choice selects, and
    [destroy] the virtual destructor. *)

From S2P Require Import Prelude Poller.
Local Open Scope Z_scope.

(** ** The interface *)

Class Watcher (S : Type) := {
  poll : watch_op → S → reply * S;
  shows_interest : S → interest → Prop;
  poll_refines o p i : shows_interest p i → op_ok o i →
    (poll o p).1 = (spec_op o i).1 ∧ shows_interest (poll o p).2 (spec_op o i).2
}.

#[export] Instance epoll_watcher : Watcher Epoll.t :=
  {| poll := epoll_op; shows_interest := epoll_repr; poll_refines := epoll_op_refines |}.
#[export] Instance kqueue_watcher : Watcher KQueue.t :=
  {| poll := kqueue_op; shows_interest := kqueue_repr; poll_refines := kqueue_op_refines |}.

(** [std::unique_ptr<Poller>]: calls go to the implementation. *)
Inductive poller : Type :=
  | KQueueP (p : KQueue.t)
  | EpollP (p : Epoll.t).

Definition virtual_poll (o : watch_op) (p : poller) : reply * poller :=
  match p with
  | KQueueP q => let '(r, q) := poll o q in (r, KQueueP q)
  | EpollP e => let '(r, e) := poll o e in (r, EpollP e)
  end.

Definition virtual_shows (p : poller) (i : interest) : Prop :=
  match p with KQueueP q => shows_interest q i | EpollP e => shows_interest e i end.

Lemma virtual_refines o p i : virtual_shows p i → op_ok o i →
  (virtual_poll o p).1 = (spec_op o i).1 ∧ virtual_shows (virtual_poll o p).2 (spec_op o i).2.
Proof.
  destruct p as [q|e]; cbn [virtual_shows virtual_poll]; intros Hs Ho.
  - pose proof (poll_refines o q i Hs Ho) as H. by destruct (poll o q).
  - pose proof (poll_refines o e i Hs Ho) as H. by destruct (poll o e).
Qed.

#[export] Instance virtual_watcher : Watcher poller :=
  {| poll := virtual_poll; shows_interest := virtual_shows; poll_refines := virtual_refines |}.

(** ** The choice of the platform *)

(** The compiler's predefined macros. *)
Record macros : Type := mkMacros {
  def_APPLE : bool;
  def_MACH : bool;
  def_linux : bool
}.

Inductive backend : Type := MUSES_PLATFORM_KQUEUE | MUSES_PLATFORM_EPOLL.

(** [None] is the [#error]. *)
Definition platform (d : macros) : option backend :=
  if def_APPLE d && def_MACH d then Some MUSES_PLATFORM_KQUEUE
  else if def_linux d then Some MUSES_PLATFORM_EPOLL
  else None.

(** Which of the constructor's system calls succeed. *)
Record setup : Type := mkSetup {
  created : bool;              (* kqueue, epoll_create1 *)
  wake_made : bool;            (* eventfd *)
  wake_added : bool            (* kevent, epoll_ctl *)
}.

Definition make_poller (b : backend) (a : setup) : poller :=
  match b with
  | MUSES_PLATFORM_KQUEUE => KQueueP (KQueue.KQueuePoller (created a) (wake_added a))
  | MUSES_PLATFORM_EPOLL => EpollP (Epoll.EpollPoller (created a) (wake_made a) (wake_added a))
  end.

(** The descriptors of its own that a poller has open, and its destructor. *)
Definition own_fds (p : poller) : nat :=
  match p with
  | KQueueP q => if KQueue.kq_ok q then 1 else 0
  | EpollP e => (if Epoll.wakefd_ok e then 1 else 0) + (if Epoll.epfd_ok e then 1 else 0)
  end.

(** The calls of [close] that the destructors make; [~Poller] is virtual. *)
Definition kqueue_destroy (q : KQueue.t) : nat := (if negb (KQueue.kq_ok q) then 0 else 1)%nat.
Definition epoll_destroy (e : Epoll.t) : nat :=
  (let n := if negb (Epoll.wakefd_ok e) then 0 else 1 in
   if negb (Epoll.epfd_ok e) then n else S n)%nat.
Definition destroy (p : poller) : nat :=
  match p with KQueueP q => kqueue_destroy q | EpollP e => epoll_destroy e end.

(** What the constructor opened: a call that fails opens nothing. *)
Definition opened (b : backend) (a : setup) : nat :=
  match b with
  | MUSES_PLATFORM_KQUEUE => Nat.b2n (created a)
  | MUSES_PLATFORM_EPOLL => Nat.b2n (created a) + Nat.b2n (wake_made a)
  end.

Lemma kqueue_op_kq o q : KQueue.kq_ok (kqueue_op o q).2 = KQueue.kq_ok q.
Proof.
  assert (∀ evs p, KQueue.kq_ok (KQueue.wait_events evs p).2 = KQueue.kq_ok p) as Hw.
  { induction evs as [|[|fd f x] evs IH]; intros p; cbn; [done|by rewrite IH|].
    specialize (IH p). by destruct (KQueue.wait_events evs p). }
  destruct o as [fd mask ud|fd mask ud|fd|size ns|]; cbn.
  - unfold KQueue.add. by destruct (KQueue.kq_ok q) eqn:E.
  - unfold KQueue.mod_. destruct (KQueue.kq_ok q) eqn:E; cbn; [|done]. by destruct (KQueue.fds_ q !! fd).
  - unfold KQueue.del. destruct (KQueue.kq_ok q) eqn:E; cbn; [|done]. by destruct (KQueue.fds_ q !! fd).
  - unfold KQueue.wait. destruct (KQueue.kq_ok q) eqn:E; cbn [negb]; [|done]. case_decide; [done|].
    specialize (Hw (kqueue_notice <$> ns) (KQueue.flush_pending q)).
    destruct (KQueue.wait_events _ _) as [out p']. cbn in Hw |- *. rewrite Hw.
    unfold KQueue.flush_pending. by destruct (KQueue.pending_ q).
  - unfold KQueue.wakeup. by destruct (KQueue.kq_ok q) eqn:E.
Qed.

Lemma epoll_op_fds o e : Epoll.epfd_ok (epoll_op o e).2 = Epoll.epfd_ok e ∧ Epoll.wakefd_ok (epoll_op o e).2 = Epoll.wakefd_ok e.
Proof.
  assert (∀ evs p, Epoll.epfd_ok (Epoll.wait_events evs p).2 = Epoll.epfd_ok p ∧
            Epoll.wakefd_ok (Epoll.wait_events evs p).2 = Epoll.wakefd_ok p) as Hw.
  { induction evs as [|[fd x] evs IH]; intros p; cbn; [done|].
    case_decide; [match goal with |- context [Epoll.wait_events _ ?p1] => by destruct (IH p1) end|].
    specialize (IH p). by destruct (Epoll.wait_events evs p). }
  destruct o as [fd mask ud|fd mask ud|fd|size ns|]; cbn.
  - unfold Epoll.add. destruct (Epoll.epfd_ok e) eqn:E; cbn; [|done]. by destruct (Epoll.ctl_add _ _ _ _) as [[] ?].
  - unfold Epoll.mod_. destruct (Epoll.epfd_ok e) eqn:E; cbn; [|done]. by destruct (Epoll.ctl_mod _ _ _ _) as [[] ?].
  - unfold Epoll.del. destruct (Epoll.epfd_ok e) eqn:E; cbn; [|done]. by destruct (Epoll.ctl_del _ _) as [[] ?].
  - unfold Epoll.wait. destruct (Epoll.epfd_ok e) eqn:E; cbn [negb]; [|done]. case_decide; [done|].
    specialize (Hw (epoll_notice <$> ns) e). destruct (Epoll.wait_events _ _) as [out p']. cbn in Hw |- *.
    by rewrite <- E.
  - unfold Epoll.wakeup. by destruct (Epoll.wakefd_ok e) eqn:E.
Qed.

Lemma poll_own_fds o (p : poller) : own_fds (poll o p).2 = own_fds p.
Proof.
  destruct p as [q|e]; cbn [poll virtual_watcher virtual_poll].
  - pose proof (kqueue_op_kq o q) as E. cbn. destruct (kqueue_op o q). cbn in *. by rewrite E.
  - pose proof (epoll_op_fds o e) as [E1 E2]. cbn. destruct (epoll_op o e). cbn in *. by rewrite E1, E2.
Qed.

Lemma run_own_fds os : ∀ p : poller, own_fds (run poll os p).2 = own_fds p.
Proof.
  induction os as [|o os IH]; intros p; cbn [run]; [done|]. pose proof (poll_own_fds o p) as E.
  destruct (poll o p) as [r p']. specialize (IH p'). destruct (run poll os p') as [rs p'']. cbn in *. congruence.
Qed.

(** A poller from the factory keeps the interface's promise on every platform the
    library compiles for, whatever its client asks for: it answers as the reference
    does; and whichever system calls of its constructor failed, its destructor closes
    exactly the descriptors that the constructor opened. *)
Theorem make_poller_promise d b a os :
  platform d = Some b →
  let p := make_poller b a in
  destroy (run poll os p).2 = opened b a ∧
  (created a = true → ops_ok os ∅ →
   (run poll os p).1 = (run spec_op os ∅).1 ∧ shows_interest (run poll os p).2 (run spec_op os ∅).2).
Proof.
  intros _ p. split.
  - assert (∀ q, destroy q = own_fds q) as Hd.
    { intros [q|e]; cbn; unfold kqueue_destroy, epoll_destroy; [by destruct (KQueue.kq_ok q)|]. by destruct (Epoll.wakefd_ok e), (Epoll.epfd_ok e). }
    rewrite Hd, run_own_fds. unfold p, make_poller, opened. destruct b, a as [[] [] []]; done.
  - intros Hc Hos. apply poller_run_refines; [apply poll_refines| |done]. unfold p, make_poller. destruct b; cbn.
    + rewrite Hc. split_and!; [done|by rewrite fmap_empty|]. cbn. intros fd f.
      split; [set_solver|]. intros (m & Hm & _). by rewrite lookup_empty in Hm.
    + rewrite Hc. by destruct (wake_made a); split_and!; rewrite ?fmap_empty.
Qed.

Lemma make_poller_promise_witness :
  destroy (run poll [WAdd 5 Readable 500; WDel 5] (make_poller MUSES_PLATFORM_EPOLL (mkSetup true false true))).2 = 1%nat.
Proof. apply (make_poller_promise (mkMacros false false true)). reflexivity. Defined.
