(* ===== verification/ThreadPool.v ===== *)
(** * [ThreadPool] (src/muses/thread_pool.hpp)

    Worker threads drain a FIFO queue of tasks under one mutex with two
    condition variables ([condition] for workers, [drained_condition] for
    [wait_empty]).  Critical sections are steps; unlike the queues of
    BlockingQueue.v the notifications of this class happen after the mutex is
    released, so they are steps of their own.  A task is opaque: running it is
    one step (the packaged task stores any exception in its future).

    Workers and clients share one thread table.  [enqueued], [started] and
    [finished] are history variables. *)

From S2P Require Import Prelude.

Module ThreadPool.
Section machine.
Context {T : Type}.

Record pool : Type := mkPool {
  tasks : list T;
  outstanding : nat;
  stop : bool
}.

Definition init : pool := mkPool [] 0 false.

Inductive pc : Type :=
  (* workers *)
  | WLock
  | WSleep (notified : bool)
  | WRun (task : T)
  | WDec
  | WNotify
  | WExit
  (* clients *)
  | Idle
  | EnqCall (task : T)
  | EnqNotify
  | EnqRet (ok : bool)
  | DrainCall
  | DrainSleep (notified : bool)
  | DrainRet
  | StopCall
  | StopNotifyWorkers
  | StopNotifyDrained.

Inductive signal : Type :=
  | SigNone
  | SigWorker            (* condition.notify_one() *)
  | SigWorkers           (* condition.notify_all() *)
  | SigDrained.          (* drained_condition.notify_all() *)

(** The worker loop from the test of its wait predicate to the release of the
    mutex. *)
Definition worker_section (s : pool) : pc * pool :=
  if stop s || negb (bool_decide (tasks s = [])) then
    match tasks s with
    | [] => (WExit, s)
    | t :: ts => (WRun t, mkPool ts (outstanding s) (stop s))
    end
  else (WSleep false, s).

Definition finish_section (s : pool) : pc * pool :=
  (WNotify, mkPool (tasks s) (outstanding s - 1) (stop s)).

Definition enqueue (t : T) (s : pool) : pc * pool :=
  if stop s then (EnqRet false, s)
  else (EnqNotify, mkPool (tasks s ++ [t]) (S (outstanding s)) (stop s)).

Definition wait_empty (s : pool) : pc * pool :=
  if decide (outstanding s = 0) then (DrainRet, s) else (DrainSleep false, s).

Definition stop_pool (s : pool) : pc * pool :=
  (StopNotifyWorkers, mkPool (tasks s) (outstanding s) true).

Definition silent (r : pc * pool) : option (pc * pool * signal) := Some (r, SigNone).

(** The next step of a thread; [None] when it has none of its own. *)
Definition run (p : pc) (s : pool) : option (pc * pool * signal) :=
  match p with
  | WLock | WSleep true => silent (worker_section s)
  | WRun t => silent (WDec, s)
  | WDec => silent (finish_section s)
  | WNotify => Some (WLock, s, SigDrained)
  | EnqCall t => silent (enqueue t s)
  | EnqNotify => Some (EnqRet true, s, SigWorker)
  | DrainCall | DrainSleep true => silent (wait_empty s)
  | StopCall => silent (stop_pool s)
  | StopNotifyWorkers => Some (StopNotifyDrained, s, SigWorkers)
  | StopNotifyDrained => Some (Idle, s, SigDrained)
  | _ => None
  end.

(** *** Condition variables *)

Definition sleepW (p : pc) : bool := match p with WSleep false => true | _ => false end.
Definition wokenW (p : pc) : bool := match p with WSleep true => true | _ => false end.
Definition sleepD (p : pc) : bool := match p with DrainSleep false => true | _ => false end.
Definition wakeW (p : pc) : pc := match p with WSleep _ => WSleep true | _ => p end.
Definition wakeD (p : pc) : pc := match p with DrainSleep _ => DrainSleep true | _ => p end.

Inductive notified : signal → list pc → list pc → Prop :=
  | notify_none ts : notified SigNone ts ts
  | notify_nobody ts : countb sleepW ts = 0 → notified SigWorker ts ts
  | notify_one ts t : ts !! t = Some (WSleep false) → notified SigWorker ts (<[t := WSleep true]> ts)
  | notify_workers ts : notified SigWorkers ts (wakeW <$> ts)
  | notify_drained ts : notified SigDrained ts (wakeD <$> ts).

(** *** Configurations *)

Record config : Type := Config {
  p : pool;
  threads : list pc;
  enqueued : list T;
  started : list T;
  finished : list T
}.

Definition enq_event (b a : pc) (l : list T) : list T :=
  match b, a with EnqCall t, EnqNotify => l ++ [t] | _, _ => l end.
Definition start_event (a : pc) (l : list T) : list T := match a with WRun t => l ++ [t] | _ => l end.
Definition finish_event (b : pc) (l : list T) : list T := match b with WRun t => l ++ [t] | _ => l end.

Inductive starts : pc → pc → Prop :=
  | starts_enqueue t : starts Idle (EnqCall t)
  | starts_drain : starts Idle DrainCall
  | starts_stop : starts Idle StopCall
  | returns_enqueue ok : starts (EnqRet ok) Idle
  | returns_drain : starts DrainRet Idle.

(** Steps of the pool's own code. *)
Inductive program : config → config → Prop :=
  | program_run c t b a s' sig ts' :
      threads c !! t = Some b → run b (p c) = Some (a, s', sig) →
      notified sig (<[t := a]> (threads c)) ts' →
      program c (Config s' ts' (enq_event b a (enqueued c)) (start_event a (started c))
                        (finish_event b (finished c))).

(** Together with the calls of clients and spurious wakeups. *)
Inductive step : config → config → Prop :=
  | step_program c c' : program c c' → step c c'
  | step_client c t b a :
      threads c !! t = Some b → starts b a →
      step c (Config (p c) (<[t := a]> (threads c)) (enqueued c) (started c) (finished c))
  | step_spurious c t b :
      threads c !! t = Some b → sleepW b || sleepD b = true →
      step c (Config (p c) (<[t := wakeW (wakeD b)]> (threads c)) (enqueued c) (started c) (finished c)).

(** [workers] worker threads and [clients] client threads. *)
Definition initial (workers clients : nat) : config :=
  Config init (replicate workers WLock ++ replicate clients Idle) [] [] [].
End machine.
Arguments pool T : clear implicits.
Arguments pc T : clear implicits.
Arguments config T : clear implicits.

(** *** The invariant *)

Section invariant.
Context {T : Type}.
Implicit Types (c : config T) (ts : list (pc T)) (b a : pc T).

Definition running b : bool := match b with WRun _ | WDec => true | _ => false end.
Definition pendE b : bool := match b with EnqNotify => true | _ => false end.
Definition pendS b : bool := match b with StopNotifyWorkers => true | _ => false end.
Definition pendD b : bool := match b with WNotify => true | _ => false end.
Definition exited b : bool := match b with WExit => true | _ => false end.
Definition worker b : bool :=
  match b with WLock | WSleep _ | WRun _ | WDec | WNotify | WExit => true | _ => false end.

Definition current b : list T := match b with WRun t => [t] | _ => [] end.
Definition in_progress ts : list T := ts ≫= current.

Record Inv (workers : nat) (c : config T) : Prop := mkInv {
  inv_workers : countb worker (threads c) = workers;
  inv_queue : enqueued c = started c ++ tasks (p c);
  inv_done : started c ≡ₚ finished c ++ in_progress (threads c);
  inv_outstanding : outstanding (p c) = length (tasks (p c)) + countb running (threads c);
  inv_wakeup : 0 < countb sleepW (threads c) →
    length (tasks (p c)) ≤ countb wokenW (threads c) + countb pendE (threads c);
  inv_stop : stop (p c) = true → 0 < countb sleepW (threads c) → 0 < countb pendS (threads c);
  inv_exit : 0 < countb exited (threads c) → stop (p c) = true ∧ tasks (p c) = [];
  inv_drained : 0 < countb sleepD (threads c) → outstanding (p c) = 0 → 0 < countb pendD (threads c)
}.

(** The counts the invariant is about. *)
Definition counts ts : list nat :=
  [countb worker ts; countb running ts; countb sleepW ts; countb wokenW ts; countb pendE ts;
   countb pendS ts; countb exited ts; countb sleepD ts; countb pendD ts].

Lemma counts_set ts t b a :
  ts !! t = Some b →
  zip_with Nat.add (counts (<[t := a]> ts)) (counts [b]) = zip_with Nat.add (counts ts) (counts [a]).
Proof.
  intros Ht. unfold counts. cbn [zip_with countb]. rewrite !Nat.add_0_r.
  by rewrite !(countb_insert _ ts t b a Ht).
Qed.

Lemma in_progress_set ts t b a :
  ts !! t = Some b → in_progress (<[t := a]> ts) ++ current b ≡ₚ in_progress ts ++ current a.
Proof.
  intros Ht. rewrite <- (take_drop_middle ts t b Ht) at 2.
  rewrite insert_take_drop by (by eapply lookup_lt_Some).
  unfold in_progress. rewrite !bind_app. cbn. rewrite <- !app_assoc.
  apply Permutation_app_head. generalize (current a) (current b) (drop (S t) ts ≫= current).
  intros la lb l. rewrite (Permutation_app_comm l lb), (Permutation_app_comm l la), !app_assoc.
  apply Permutation_app_tail, Permutation_app_comm.
Qed.

Lemma in_progress_wake (f : pc T → pc T) ts :
  (∀ b, current (f b) = current b) → in_progress (f <$> ts) = in_progress ts.
Proof. intros Hf. unfold in_progress. induction ts as [|b ts IH]; cbn; [done|]. by rewrite Hf, IH. Qed.

(** What a notification does to the counts. *)
Definition notified_effect (sig : signal) ts ts' : Prop :=
  in_progress ts' ≡ₚ in_progress ts ∧
  countb worker ts' = countb worker ts ∧ countb running ts' = countb running ts ∧
  countb pendE ts' = countb pendE ts ∧ countb pendS ts' = countb pendS ts ∧
  countb exited ts' = countb exited ts ∧ countb pendD ts' = countb pendD ts ∧
  match sig with
  | SigNone => countb sleepW ts' = countb sleepW ts ∧ countb wokenW ts' = countb wokenW ts ∧
               countb sleepD ts' = countb sleepD ts
  | SigWorker => countb sleepW ts' = countb sleepW ts - 1 ∧
      countb sleepW ts' + countb wokenW ts' = countb sleepW ts + countb wokenW ts ∧
      countb sleepD ts' = countb sleepD ts
  | SigWorkers => countb sleepW ts' = 0 ∧ countb sleepD ts' = countb sleepD ts
  | SigDrained => countb sleepW ts' = countb sleepW ts ∧ countb wokenW ts' = countb wokenW ts ∧
                  countb sleepD ts' = 0
  end.

Lemma countb_none {A} (l : list A) : countb (λ _, false) l = 0.
Proof. by induction l. Qed.

Lemma notified_effect_ok sig ts ts' : notified sig ts ts' → notified_effect sig ts ts'.
Proof.
  intros Hn. destruct Hn as [ts|ts Hz|ts t Ht|ts|ts]; unfold notified_effect.
  - done.
  - rewrite Hz. split_and!; done || lia.
  - pose proof (counts_set ts t (WSleep false) (WSleep true) Ht) as Hc. unfold counts in Hc. cbn in Hc.
    pose proof (in_progress_set ts t (WSleep false) (WSleep true) Ht) as Hp. rewrite !app_nil_r in Hp.
    revert Hc Hp. generalize (<[t := WSleep true]> ts) as ts'. intros ts' Hc Hp.
    simplify_eq. split_and!; done || lia.
  - rewrite in_progress_wake by (by intros []).
    assert (∀ f : pc T → bool, (∀ b, f (wakeW b) = f b) → countb f (wakeW <$> ts) = countb f ts) as Hsame
      by (intros f Hf; by apply countb_map).
    split_and!; try done; try (apply Hsame; by intros []).
    rewrite (countb_map _ (λ _, false)); [apply countb_none|by intros []].
  - rewrite in_progress_wake by (by intros []).
    assert (∀ f : pc T → bool, (∀ b, f (wakeD b) = f b) → countb f (wakeD <$> ts) = countb f ts) as Hsame
      by (intros f Hf; by apply countb_map).
    split_and!; try done; try (apply Hsame; by intros []).
    rewrite (countb_map _ (λ _, false)); [apply countb_none|by intros []].
Qed.

Lemma replicate_count {A} (f : A → bool) n x : f x = false → countb f (replicate n x) = 0.
Proof. intros Hf. induction n as [|n IH]; cbn [replicate countb]; [done|]. by rewrite Hf, IH. Qed.

Lemma inv_initial_threadpool workers clients : Inv workers (initial (T:=T) workers clients).
Proof.
  assert (∀ f : pc T → bool, f WLock = false → f Idle = false →
    countb f (replicate workers WLock ++ replicate clients Idle) = 0) as Hz.
  { intros f H1 H2. by rewrite countb_app, !replicate_count. }
  assert (in_progress (replicate workers WLock ++ replicate clients Idle) = []) as Hp.
  { unfold in_progress. rewrite bind_app. generalize clients. intros k. clear.
    assert (∀ n (x : pc T), current x = [] → replicate n x ≫= current = []) as Hr.
    { intros n x Hx. induction n as [|n IH]; cbn; [done|]. by rewrite Hx, IH. }
    by rewrite !Hr. }
  constructor; cbn [initial threads p enqueued started finished init tasks outstanding stop length app].
  - rewrite countb_app, (replicate_count worker clients) by done.
    clear. induction workers as [|n IH]; cbn; lia.
  - done.
  - by rewrite Hp.
  - by rewrite Hz.
  - lia.
  - done.
  - rewrite Hz by done. lia.
  - rewrite (Hz sleepD) by done. lia.
Qed.

(** The queue's part of a step, for every program counter. *)
Lemma inv_program workers c c' : Inv workers c → program c c' → Inv workers c'.
Proof.
  intros [Hw Hq Hd Ho Hwk Hs Hx Hdr] Hst. destruct Hst as [c t b a s' sig ts' Ht Hrun Hn].
  apply notified_effect_ok in Hn.
  pose proof (counts_set (threads c) t b a Ht) as Hc. unfold counts in Hc.
  pose proof (in_progress_set (threads c) t b a Ht) as Hp.
  revert Hn Hc Hp. unfold notified_effect. generalize (<[t := a]> (threads c)) as ts1. intros ts1 Hn Hc Hp.
  cbn [zip_with] in Hc. injection Hc as C1 C2 C3 C4 C5 C6 C7 C8 C9.
  destruct (p c) as [tk out st] eqn:Hpc. cbn [tasks outstanding stop] in *.
  destruct Hn as (N0 & N1 & N2 & N3 & N4 & N5 & N6 & Nsig).
  assert (started c ++ current a ≡ₚ (finished c ++ current b) ++ in_progress ts') as Hd'.
  { rewrite N0, Hd, <- !app_assoc, <- Hp. apply Permutation_app_head, Permutation_app_comm. }
  unfold run, silent, worker_section, finish_section, enqueue, wait_empty, stop_pool in Hrun.
  cbn [tasks outstanding stop] in Hrun.
  destruct b as [|[|]|task| | | | |task| |ok| |[|]| | | |]; try discriminate Hrun;
    try match type of Hrun with
        | context [st || _] => destruct st, tk as [|x tk]; cbn in Hrun
        | context [if st then _ else _] => destruct st; cbn in Hrun
        | context [decide] => case_decide; cbn in Hrun
        end;
    simplify_eq Hrun; intros; subst a s' sig; cbn in C1, C2, C3, C4, C5, C6, C7, C8, C9, Nsig, Hd';
    constructor; cbn [p threads enqueued started finished tasks outstanding stop enq_event start_event
                      finish_event length app] in *;
    rewrite ?length_app, ?app_nil_r in *; cbn [length] in *;
    clear Hrun Ht N0 Hp Hpc;
    lazymatch goal with
    | |- _ ≡ₚ _ => by rewrite ?Hd', ?app_nil_r
    | |- _ = _ ++ _ => by rewrite Hq, <- ?app_assoc
    | |- enqueued c = started c => exact Hq
    | |- _ = true → _ → _ => intros E ?; first [lia|specialize (Hs E); lia]
    | |- 0 < countb exited _ → _ => intros ?; first [done|lia|destruct Hx as [? ?]; [lia|done..]]
    | |- _ => clear Hs Hx Hd' Hd Hq; intros; lia
    end.
Qed.

Lemma inv_step_threadpool workers c c' : Inv workers c → step c c' → Inv workers c'.
Proof.
  intros HI Hst. destruct Hst as [c c' Hp|c t b a Ht Hs|c t b Ht Hs]; [by eapply inv_program|..].
  all: destruct HI as [Hw Hq Hd Ho Hwk Hsp Hx Hdr].
  - pose proof (counts_set (threads c) t b a Ht) as Hc. unfold counts in Hc.
    pose proof (in_progress_set (threads c) t b a Ht) as Hp.
    revert Hc Hp. generalize (<[t := a]> (threads c)) as ts1. intros ts1 Hc Hp.
    destruct Hs; cbn in Hc, Hp; rewrite !app_nil_r in Hp; injection Hc as C1 C2 C3 C4 C5 C6 C7 C8 C9;
      (constructor; cbn [p threads enqueued started finished]; [lia|done|by rewrite Hp|lia|lia| |intros; apply Hx; lia|lia]);
      intros E ?; specialize (Hsp E); lia.
  - pose proof (counts_set (threads c) t b (wakeW (wakeD b)) Ht) as Hc. unfold counts in Hc.
    pose proof (in_progress_set (threads c) t b (wakeW (wakeD b)) Ht) as Hp.
    revert Hc Hp. generalize (<[t := wakeW (wakeD b)]> (threads c)) as ts1. intros ts1 Hc Hp.
    destruct b as [|[|]|task| | | | |task| |ok| |[|]| | | |]; try discriminate Hs;
      cbn in Hc, Hp; rewrite !app_nil_r in Hp; injection Hc as C1 C2 C3 C4 C5 C6 C7 C8 C9;
      (constructor; cbn [p threads enqueued started finished]; [lia|done|by rewrite Hp|lia|lia| |intros; apply Hx; lia|lia]);
      intros E ?; specialize (Hsp E); lia.
Qed.

Lemma reachable_inv_threadpool workers clients c :
  rtc step (initial workers clients) c → Inv workers c.
Proof.
  apply rtc_invariant; [apply inv_initial_threadpool|]. intros x y _. apply inv_step_threadpool.
Qed.
End invariant.
End ThreadPool.

(** ** Properties *)

Section properties.
Context {T : Type}.
Import ThreadPool.
Implicit Types (c : config T).

(** C38: In every reachable state tasks have been started in the order they
    were accepted, each exactly once; those started and not finished are the
    ones workers are running, and [outstanding] counts the queued and the
    unfinished ones. *)
Theorem threadpool_exactly_once workers clients c :
  rtc step (initial workers clients) c →
  enqueued c = started c ++ tasks (p c) ∧
  started c ≡ₚ finished c ++ in_progress (threads c) ∧
  outstanding (p c) = length (tasks (p c)) + countb running (threads c).
Proof. intros Hr. by destruct (reachable_inv_threadpool _ _ _ Hr). Qed.

(** A thread that has a step of its own makes the pool move. *)
Lemma runnable_steps c t b r :
  threads c !! t = Some b → run b (p c) = Some r → ∃ c', program c c'.
Proof.
  intros Ht Hrun. destruct r as [[a s'] sig].
  assert (∃ ts', notified sig (<[t := a]> (threads c)) ts') as [ts' Hn].
  { destruct sig; [eexists; constructor| |eexists; constructor|eexists; constructor].
    destruct (countb sleepW (<[t := a]> (threads c))) as [|n] eqn:Hz; [eexists; by constructor|].
    destruct (countb_pos_inv sleepW (<[t := a]> (threads c))) as (i & x & Hi & Hx); [lia|].
    destruct x as [|[|]|task| | | | |task| |ok| |[|]| | | |]; try discriminate Hx.
    eexists. by apply (notify_one _ i). }
  eexists. by eapply program_run.
Qed.

Lemma stuck_thread c t b :
  (∀ c', ¬ program c c') → threads c !! t = Some b → run b (p c) = None.
Proof.
  intros Hstuck Ht. destruct (run b (p c)) as [r|] eqn:Hrun; [|done].
  destruct (runnable_steps c t b r Ht Hrun) as [c' Hp]. by destruct (Hstuck c').
Qed.

(** A state in which no thread of the pool can move. *)
Lemma pool_at_rest workers clients c :
  0 < workers → rtc step (initial workers clients) c → (∀ c', ¬ program c c') →
  tasks (p c) = [] ∧ outstanding (p c) = 0 ∧ enqueued c ≡ₚ finished c ∧
  countb sleepD (threads c) = 0 ∧
  (stop (p c) = true → countb exited (threads c) = workers).
Proof.
  intros Hw Hr Hstuck. destruct (reachable_inv_threadpool _ _ _ Hr) as [Hn Hq Hd Ho Hwk Hsp Hx Hdr].
  assert (∀ f : pc T → bool, (∀ b, f b = true → run b (p c) ≠ None) → countb f (threads c) = 0) as Hzero.
  { intros f Hf. destruct (countb f (threads c)) as [|n] eqn:Hz; [done|].
    destruct (countb_pos_inv f (threads c)) as (i & b & Hi & Hb); [lia|].
    by destruct (Hf b Hb); eapply stuck_thread. }
  assert (countb running (threads c) = 0) as Hrun by (apply Hzero; by intros []).
  assert (countb wokenW (threads c) = 0) as Hwo by (apply Hzero; by intros [|[|]| | | | | | | | | | | | | |]).
  assert (countb pendE (threads c) = 0) as HpE by (apply Hzero; by intros []).
  assert (countb pendS (threads c) = 0) as HpS by (apply Hzero; by intros []).
  assert (countb pendD (threads c) = 0) as HpD by (apply Hzero; by intros []).
  assert (countb sleepW (threads c) + countb exited (threads c) = workers) as Hall.
  { rewrite <- Hn. symmetry. clear -Hstuck.
    assert (∀ ts : list (pc T), (∀ b, b ∈ ts → run b (p c) = None) →
      countb worker ts = countb sleepW ts + countb exited ts) as Hgen.
    { induction ts as [|b ts IH]; intros Hb; cbn [countb]; [done|].
      rewrite IH by (intros; apply Hb; by right). assert (run b (p c) = None) as Hrb by (apply Hb; by left).
      destruct b as [|[|]|task| | | | |task| |ok| |[|]| | | |]; try discriminate Hrb; cbn; lia. }
    apply Hgen. intros b [i Hi]%list_elem_of_lookup_1. by eapply stuck_thread. }
  assert (tasks (p c) = []) as Htasks.
  { destruct (countb sleepW (threads c)) as [|n] eqn:Hsl; [apply Hx; lia|].
    apply nil_length_inv. lia. }
  assert (outstanding (p c) = 0) as Hout by (rewrite Ho, Htasks, Hrun; done).
  assert (in_progress (threads c) = []) as Hip.
  { unfold in_progress. clear -Hrun. induction (threads c) as [|b ts IH]; cbn in *; [done|].
    rewrite IH by lia. destruct b; cbn in *; done || lia. }
  split_and!; try done.
  - rewrite Hq, Htasks, app_nil_r, Hd, Hip, app_nil_r. done.
  - destruct (countb sleepD (threads c)); [done|]. lia.
  - intros E. specialize (Hsp E). lia.
Qed.

(** The pool never stalls: with at least one worker, a state in which no
    thread of the pool can move has an empty queue, no unfinished task (every
    accepted task has been executed), no client asleep in [wait_empty], and, once
    the pool is stopped, no worker left. *)
Theorem threadpool_no_stall workers clients c :
  0 < workers → rtc step (initial workers clients) c → (∀ c', ¬ program c c') →
  tasks (p c) = [] ∧ outstanding (p c) = 0 ∧ enqueued c ≡ₚ finished c ∧
  countb sleepD (threads c) = 0 ∧
  (stop (p c) = true → countb exited (threads c) = workers).
Proof. apply pool_at_rest. Qed.
End properties.

(** ** Witnesses: one worker, one client *)

Module ThreadPoolRuns.
Section schedules.
Context {T : Type}.
Import ThreadPool.

(** A schedule without notifications that have a choice: who moves, and the
    call a client makes. *)
Inductive action : Type := ARun | ACall (a : pc T).

Definition may_start (b a : pc T) : bool :=
  match b, a with
  | Idle, (EnqCall _ | DrainCall | StopCall) | EnqRet _, Idle | DrainRet, Idle => true
  | _, _ => false
  end.

Definition notify (sig : signal) (ts : list (pc T)) : option (list (pc T)) :=
  match sig with
  | SigNone => Some ts
  | SigWorker => if decide (countb sleepW ts = 0) then Some ts else
      i ← list_find (λ b, sleepW b = true) ts; Some (<[i.1 := WSleep true]> ts)
  | SigWorkers => Some (wakeW <$> ts)
  | SigDrained => Some (wakeD <$> ts)
  end.

Definition act (t : nat) (a : action) (c : config T) : option (config T) :=
  b ← threads c !! t;
  match a with
  | ACall n => if may_start b n
      then Some (Config (p c) (<[t := n]> (threads c)) (enqueued c) (started c) (finished c)) else None
  | ARun =>
      '(n, s', sig) ← run b (p c);
      ts' ← notify sig (<[t := n]> (threads c));
      Some (Config s' ts' (enq_event b n (enqueued c)) (start_event n (started c)) (finish_event b (finished c)))
  end.

Fixpoint schedule (es : list (nat * action)) (c : config T) : option (config T) :=
  match es with [] => Some c | (t, a) :: es' => c' ← act t a c; schedule es' c' end.

Lemma threadpool_schedule_sound es c c' : schedule es c = Some c' → rtc step c c'.
Proof.
  revert c. induction es as [|[t a] es IH]; intros c; cbn; [intros [= <-]; apply rtc_refl|].
  destruct (act t a c) as [c1|] eqn:Ha; [|done]. intros Hs. eapply rtc_l; [|by apply IH].
  unfold act in Ha. destruct (threads c !! t) as [b|] eqn:Ht; [|done]. cbn in Ha. destruct a as [|n].
  - destruct (run b (p c)) as [[[n s'] sig]|] eqn:Hr; [|done]. cbn in Ha.
    destruct (notify sig _) as [ts'|] eqn:Hn; [|done]. cbn in Ha. injection Ha as <-.
    apply step_program. eapply program_run; [done|done|].
    destruct sig; cbn in Hn; [injection Hn as <-; constructor| |injection Hn as <-; constructor..].
    case_decide; [injection Hn as <-; by constructor|].
    destruct (list_find _ _) as [[i b']|] eqn:Hf; [|done]. cbn in Hn. injection Hn as <-.
    apply list_find_Some in Hf as (Hi & Hb & _).
    destruct b' as [|[|]|task| | | | |task| |ok| |[|]| | | |]; try discriminate Hb. by constructor.
  - destruct (may_start b n) eqn:Hm; [|done]. injection Ha as <-. eapply step_client; [done|].
    destruct b, n; try discriminate Hm; constructor.
Qed.
End schedules.
End ThreadPoolRuns.

(** The worker sleeps, the client enqueues two tasks, both run, and the worker
    sleeps again. *)
Definition threadpool_demo_schedule : list (nat * ThreadPoolRuns.action (T:=nat)) :=
  [(0, ThreadPoolRuns.ARun); (1, ThreadPoolRuns.ACall (ThreadPool.EnqCall 7)); (1, ThreadPoolRuns.ARun);
   (1, ThreadPoolRuns.ARun); (1, ThreadPoolRuns.ACall ThreadPool.Idle);
   (1, ThreadPoolRuns.ACall (ThreadPool.EnqCall 8)); (1, ThreadPoolRuns.ARun); (1, ThreadPoolRuns.ARun);
   (1, ThreadPoolRuns.ACall ThreadPool.Idle)] ++ replicate 9 (0, ThreadPoolRuns.ARun).

Definition threadpool_demo : ThreadPool.config nat :=
  ThreadPool.Config ThreadPool.init [ThreadPool.WSleep false; ThreadPool.Idle] [7; 8] [7; 8] [7; 8].

Lemma threadpool_demo_reachable : rtc ThreadPool.step (ThreadPool.initial 1 1) threadpool_demo.
Proof. apply (ThreadPoolRuns.threadpool_schedule_sound threadpool_demo_schedule). reflexivity. Qed.

Lemma threadpool_exactly_once_witness :
  ThreadPool.enqueued threadpool_demo =
    ThreadPool.started threadpool_demo ++ ThreadPool.tasks (ThreadPool.p threadpool_demo).
Proof. exact (proj1 (threadpool_exactly_once 1 1 threadpool_demo threadpool_demo_reachable)). Defined.

Lemma threadpool_no_stall_witness :
  ThreadPool.tasks (ThreadPool.p threadpool_demo) = [] ∧
  ThreadPool.outstanding (ThreadPool.p threadpool_demo) = 0.
Proof.
  destruct (threadpool_no_stall 1 1 threadpool_demo) as (H1 & H2 & _);
    [lia|exact threadpool_demo_reachable| |exact (conj H1 H2)].
  intros c' Hp. inversion Hp as [c t b a s' sig ts' Ht Hrun Hn]; subst.
  destruct t as [|[|t]]; cbn in Ht; simplify_eq; discriminate Hrun.
Defined.
