(* ===== verification/ThreadPoolShutdown.v ===== *)
(** * Shutting down the thread pool

    What the threads of the pool do on their own comes to an end, whatever the
    clients have asked for; with the no-stall invariant of ThreadPool.v this is the
    termination of the destructor, which stops the pool and joins the workers. *)

From S2P Require Import Prelude ThreadPool.
From stdpp Require Import list_numbers.
Import ThreadPool.

Section shutdown.
Context {T : Type}.
Implicit Types (c : config T).

(** ** Termination: what the pool does on its own comes to an end *)

(** The steps a thread may still take by itself, counting the sleepers it may
    wake; [n] bounds the number of threads. *)
Definition pc_weight (n : nat) (b : pc T) : nat :=
  match b with
  | WLock | WSleep true | DrainCall | DrainSleep true => 1
  | WRun _ => 4 + n
  | WDec => 3 + n
  | WNotify => 2 + n
  | EnqCall _ => 8 + n
  | EnqNotify => 2
  | StopCall => 3 + 2 * n
  | StopNotifyWorkers => 2 + 2 * n
  | StopNotifyDrained => 1 + n
  | _ => 0
  end.

Definition threads_weight (n : nat) (ts : list (pc T)) : nat := sum_list_with (pc_weight n) ts.

Definition measure (c : config T) : nat :=
  let n := length (threads c) in (5 + n) * length (tasks (p c)) + threads_weight n (threads c).

Lemma weight_insert n ts t b a : ts !! t = Some b →
  threads_weight n (<[t := a]> ts) + pc_weight n b = threads_weight n ts + pc_weight n a.
Proof.
  intros Ht. unfold threads_weight. rewrite <- (take_drop_middle ts t b Ht) at 2.
  rewrite insert_take_drop by (by eapply lookup_lt_Some).
  rewrite !sum_list_with_app. cbn. lia.
Qed.

Lemma weight_wake n (f : pc T → pc T) ts :
  (∀ b, pc_weight n (f b) ≤ S (pc_weight n b)) → threads_weight n (f <$> ts) ≤ threads_weight n ts + length ts.
Proof.
  intros Hf. unfold threads_weight. induction ts as [|b ts IH]; cbn; [lia|]. specialize (Hf b). lia.
Qed.

Lemma notified_weight n sig ts ts' : notified sig ts ts' →
  length ts' = length ts ∧
  threads_weight n ts' ≤ threads_weight n ts +
    match sig with SigNone => 0 | SigWorker => 1 | SigWorkers | SigDrained => length ts end.
Proof.
  intros []; rewrite ?length_insert, ?length_fmap; (split; [done|]); try lia.
  - pose proof (weight_insert n ts0 t (WSleep false) (WSleep true) H). cbn in *. lia.
  - apply weight_wake. intros [|[]| | | | | | | | | |[]| | | |]; cbn; lia.
  - apply weight_wake. intros [|[]| | | | | | | | | |[]| | | |]; cbn; lia.
Qed.

Lemma program_decreases c c' : program c c' → measure c' < measure c.
Proof.
  intros [c0 t b a s' sig ts' Ht Hrun Hn]. unfold measure. cbn [threads p].
  set (n := length (threads c0)) in *.
  destruct (notified_weight n sig _ _ Hn) as [Hlen Hw]. rewrite length_insert in Hlen, Hw.
  rewrite Hlen. fold n in Hw |- *.
  pose proof (weight_insert n (threads c0) t b a Ht) as Hwi.
  revert Hw Hwi. generalize (threads_weight n (<[t := a]> (threads c0))) (threads_weight n (threads c0))
    (threads_weight n ts'). intros w1 w0 w' Hw Hwi.
  destruct (p c0) as [tk out st]. unfold run, silent, worker_section, finish_section, enqueue, wait_empty, stop_pool in Hrun.
  cbn [tasks outstanding stop] in Hrun |- *.
  destruct b as [|[|]|task| | | | |task| |ok| |[|]| | | |]; try discriminate Hrun;
    try match type of Hrun with
        | context [st || _] => destruct st, tk as [|x tk]; cbn in Hrun
        | context [if st then _ else _] => destruct st; cbn in Hrun
        | context [decide] => case_decide; cbn in Hrun
        end;
    simplify_eq Hrun; intros; subst a s' sig; cbn [tasks pc_weight] in *;
    rewrite ?length_app; cbn [length]; nia.
Qed.

(** Whether some thread can move. *)
Definition can_run (c : config T) : Prop := Exists (λ b, is_Some (run b (p c))) (threads c).
#[export] Instance can_run_dec c : Decision (can_run c).
Proof. unfold can_run. apply _. Defined.

Lemma can_run_steps c : can_run c → ∃ c', program c c'.
Proof.
  intros (b & [t Ht]%list_elem_of_lookup_1 & r & Hr)%Exists_exists. by eapply runnable_steps.
Qed.

Lemma cannot_run_stuck c : ¬ can_run c → ∀ c', ¬ program c c'.
Proof.
  intros Hn c' Hp. destruct Hp as [c t b a s' sig ts' Ht Hrun _]. apply Hn, Exists_exists.
  exists b. split; [by eapply list_elem_of_lookup_2|by eexists].
Qed.

(** The pool comes to rest. *)
Lemma program_settles c : ∃ c', rtc program c c' ∧ ∀ c'', ¬ program c' c''.
Proof.
  remember (measure c) as m eqn:Hm. revert c Hm. induction (lt_wf m) as [m _ IH]. intros c ->.
  destruct (decide (can_run c)) as [Hr|Hr].
  - destruct (can_run_steps c Hr) as [c1 Hp].
    destruct (IH (measure c1) (program_decreases c c1 Hp) c1 eq_refl) as (c' & Hrtc & Hstop).
    exists c'. split; [by eapply rtc_l|done].
  - exists c. split; [done|]. by apply cannot_run_stuck.
Qed.

Lemma program_bounded n c c' : nsteps program n c c' → n + measure c' ≤ measure c.
Proof. induction 1 as [|n x y z Hp _ IH]; [lia|]. pose proof (program_decreases _ _ Hp). lia. Qed.

Lemma program_keeps_stop c c' : rtc program c c' → stop (p c) = true → stop (p c') = true.
Proof.
  induction 1 as [|c c1 c' Hp _ IH]; [done|]. intros Hs. apply IH. destruct Hp as [c t b a s' sig ts' Ht Hrun _]. cbn.
  revert Hrun. unfold run, silent, worker_section, finish_section, enqueue, wait_empty, stop_pool. rewrite Hs.
  destruct b as [|[]| | | | | | | | | |[]| | | |]; cbn; try done; repeat case_match; intros; by simplify_eq/=.
Qed.

(** The loop of the destructor has joined every worker: all have left their loop. *)
Definition workers_joined (workers : nat) (c : config T) : Prop := countb exited (threads c) = workers.

(** C29: The destructor of the pool ends and loses no task: once the pool is stopped,
    the threads of the pool can take only a bounded number of steps without new
    calls, they do come to rest, and whenever they have come to rest every worker
    has left its loop, so the joins return, every accepted task has been executed
    exactly once, and nobody sleeps in [wait_empty]. *)
Theorem threadpool_shutdown workers clients c :
  0 < workers → rtc step (initial workers clients) c → stop (p c) = true →
  (∀ n c', nsteps program n c c' → n ≤ measure c) ∧
  (∃ c', rtc program c c' ∧ ∀ c'', ¬ program c' c'') ∧
  (∀ c', rtc program c c' → (∀ c'', ¬ program c' c'') →
     workers_joined workers c' ∧ tasks (p c') = [] ∧ enqueued c' ≡ₚ finished c' ∧
     countb sleepD (threads c') = 0).
Proof.
  intros Hw Hr Hs. split_and!.
  - intros n c' Hn. pose proof (program_bounded n c c' Hn). lia.
  - apply program_settles.
  - intros c' Hrtc Hstuck.
    assert (rtc step (initial workers clients) c') as Hr'.
    { etrans; [exact Hr|]. eapply rtc_subrel; [|exact Hrtc]. intros. by apply step_program. }
    destruct (pool_at_rest workers clients c' Hw Hr' Hstuck) as (Ht & _ & Hf & Hd & He).
    split_and!; [|done..]. apply He. by eapply program_keeps_stop.
Qed.
End shutdown.

(** One worker, one client: a task is enqueued and the pool is stopped. *)
Definition threadpool_stop_schedule : list (nat * ThreadPoolRuns.action (T:=nat)) :=
  [(1, ThreadPoolRuns.ACall (EnqCall 7)); (1, ThreadPoolRuns.ARun); (1, ThreadPoolRuns.ARun);
   (1, ThreadPoolRuns.ACall Idle); (1, ThreadPoolRuns.ACall StopCall); (1, ThreadPoolRuns.ARun)].
Definition threadpool_stopped : config nat :=
  Config (mkPool [7] 1 true) [WLock; StopNotifyWorkers] [7] [] [].

Lemma threadpool_shutdown_witness :
  ∃ c', rtc program threadpool_stopped c' ∧ countb exited (threads c') = 1 ∧ enqueued c' ≡ₚ finished c'.
Proof.
  destruct (threadpool_shutdown 1 1 threadpool_stopped) as (_ & (c' & Hr & Hs) & Hend).
  - lia.
  - apply (ThreadPoolRuns.threadpool_schedule_sound threadpool_stop_schedule). reflexivity.
  - reflexivity.
  - destruct (Hend c' Hr Hs) as (He & _ & Hf & _). exists c'. exact (conj Hr (conj He Hf)).
Defined.
