(* ===== verification/Task.v ===== *)
(** * Coroutine tasks (src/muses/task.hpp)

    [Tasks]: the coroutine frames, the continuation that [co_await task] stores in
    the awaited coroutine, the symmetric transfer at its end, and the registration
    of a suspended coroutine with the poller ([IoAwaiter]).  A coroutine's body is
    a tree: it returns, throws, awaits a descriptor, awaits another task, or reads and
    changes the state that the coroutines share.
    [Owners]: the [Task] objects as owning handles of frames. *)

From S2P Require Import Prelude.

Module Tasks.
Section machine.
Context {V St : Type} (unit_value : V).
(** Descriptors the system accepts to watch; [add] fails for the others. *)
Context (accepts : Z → bool).

(** What a promise stores: a value or an exception. *)
Inductive result : Type :=
  | Value (v : V)
  | Exception.

(** [Call void child k]: [co_await] of a task; [void] for [Task<void>], whose
    [await_resume] ignores a stored exception, while [Task<T>] throws when it finds
    no value.  [Do f k]: code between two suspensions, which goes on with what it found
    in the shared state. *)
Inductive body : Type :=
  | Return (v : V)
  | Throw
  | Await (fd mask : Z) (k : body)
  | Call (void : bool) (child : body) (k : V → body)
  | Do (f : St → St) (k : St → body).

(** Where a coroutine is suspended. *)
Inductive fstate : Type :=
  | Ready (b : body)                          (* resume goes on with [b] *)
  | OnChild (child : nat) (void : bool) (k : V → body)
  | Final (r : result).

Record frame : Type := mkFrame {
  state : fstate;
  continuation_ : option nat
}.

Record machine : Type := mkMachine {
  frames : gmap nat frame;
  fresh_id : nat;
  registered : gmap Z (Z * nat);              (* descriptor -> mask, handle *)
  control : option nat;                       (* the running coroutine *)
  store : St                                   (* the shared state *)
}.

Definition set_frame (h : nat) (f : frame) (m : machine) : machine :=
  mkMachine (<[h := f]> (frames m)) (fresh_id m) (registered m) (control m) (store m).
Definition set_control (o : option nat) (m : machine) : machine :=
  mkMachine (frames m) (fresh_id m) (registered m) o (store m).
Definition set_store (s : St) (m : machine) : machine :=
  mkMachine (frames m) (fresh_id m) (registered m) (control m) s.
Definition destroy_frame (h : nat) (m : machine) : machine :=
  mkMachine (delete h (frames m)) (fresh_id m) (registered m) (control m) (store m).

(** The end of a coroutine: [return_value] or [unhandled_exception], then
    [final_suspend] transfers to the continuation, or back to the resumer. *)
Definition finish (h : nat) (r : result) (c : option nat) (m : machine) : machine :=
  set_control c (set_frame h (mkFrame (Final r) c) m).

(** [Poller::add] of epoll: it fails when the system refuses the descriptor and
    when the descriptor is watched already. *)
Definition add (fd mask : Z) (h : nat) (reg : gmap Z (Z * nat)) : gmap Z (Z * nat) :=
  if accepts fd && bool_decide (reg !! fd = None) then <[fd := (mask, h)]> reg else reg.

(** [IoAwaiter::await_suspend]: the coroutine is suspended whatever [add] says. *)
Definition await_io (h : nat) (fd mask : Z) (k : body) (c : option nat) (m : machine) : machine :=
  let m := set_frame h (mkFrame (Ready k) c) m in
  mkMachine (frames m) (fresh_id m) (add fd mask h (registered m)) None (store m).

(** [co_await task]: the callee's frame exists ([initial_suspend]); the caller
    becomes its continuation and control is transferred to it. *)
Definition await_task (h : nat) (void : bool) (child : body) (k : V → body) (c : option nat) (m : machine) : machine :=
  let i := fresh_id m in
  mkMachine (<[i := mkFrame (Ready child) (Some h)]> (<[h := mkFrame (OnChild i void k) c]> (frames m)))
    (S i) (registered m) (Some i) (store m).

(** One step of the running coroutine; [None] when nothing runs or when the code
    would be undefined (a destroyed or finished coroutine is resumed). *)
Definition step (m : machine) : option machine :=
  h ← control m; f ← frames m !! h;
  match state f with
  | Ready (Return v) => Some (finish h (Value v) (continuation_ f) m)
  | Ready Throw => Some (finish h Exception (continuation_ f) m)
  | Ready (Await fd mask k) => Some (await_io h fd mask k (continuation_ f) m)
  | Ready (Call void child k) => Some (await_task h void child k (continuation_ f) m)
  | Ready (Do g k) => Some (set_store (g (store m)) (set_frame h (mkFrame (Ready (k (store m))) (continuation_ f)) m))
  | OnChild i void k =>
      (* [await_resume], then the temporary task is destroyed *)
      g ← frames m !! i;
      match state g with
      | Final (Value v) => Some (destroy_frame i (set_frame h (mkFrame (Ready (k v)) (continuation_ f)) m))
      | Final Exception =>
          Some (destroy_frame i (set_frame h
                  (mkFrame (Ready (if void then k unit_value else Throw)) (continuation_ f)) m))
      | _ => None
      end
  | Final _ => None
  end.

(** Run until control is back at the event loop. *)
Fixpoint run (fuel : nat) (m : machine) : option machine :=
  match control m with
  | None => Some m
  | Some _ => match fuel with O => None | S f => m' ← step m; run f m' end
  end.

(** [task.resume()] on a handle. *)
Definition resume (fuel h : nat) (m : machine) : option machine := run fuel (set_control (Some h) m).

(** An event of the poller ([resume_handle]): a descriptor without userdata is
    skipped; otherwise the registration is removed, then the coroutine whose
    handle was stored is resumed. *)
Definition on_event (fuel : nat) (fd : Z) (m : machine) : option machine :=
  match registered m !! fd with
  | None => Some m
  | Some (_, h) => resume fuel h (mkMachine (frames m) (fresh_id m) (delete fd (registered m)) None (store m))
  end.

(** A coroutine with body [b] is called: its frame is suspended at its start and
    nobody awaits it; then its task is resumed. *)
Definition create (b : body) (m : machine) : machine :=
  mkMachine (<[fresh_id m := mkFrame (Ready b) None]> (frames m)) (S (fresh_id m)) (registered m) (control m) (store m).
Definition spawn (fuel : nat) (b : body) (m : machine) : option machine :=
  resume fuel (fresh_id m) (create b m).

(** [~Task]: the frame is destroyed with its locals, so with the task it awaits. *)
Fixpoint destroy_task (fuel h : nat) (m : machine) : option (machine) :=
  match fuel with
  | O => None
  | S n =>
      f ← frames m !! h;
      let m := destroy_frame h m in
      match state f with OnChild i _ _ => destroy_task n i m | _ => Some m end
  end.

(** As many steps as there are frames are enough. *)
Definition drop_task (h : nat) (m : machine) : option (machine) :=
  destroy_task (S (size (frames m))) h m.

Fixpoint drop_tasks (hs : list nat) (m : machine) : option (machine) :=
  match hs with [] => Some m | h :: hs' => m ← drop_task h m; drop_tasks hs' m end.

(** [Task::done]. *)
Definition task_done (h : nat) (m : machine) : option bool :=
  f ← frames m !! h; Some (match state f with Final _ => true | _ => false end).

Definition idle (s : St) : machine := mkMachine ∅ 0 ∅ None s.

Inductive loop_event : Type :=
  | Spawn (b : body)
  | Event (fd : Z).

Definition handle_event (fuel : nat) (e : loop_event) (m : machine) : option machine :=
  match e with Spawn b => spawn fuel b m | Event fd => on_event fuel fd m end.

Fixpoint event_loop (fuel : nat) (es : list loop_event) (m : machine) : option machine :=
  match es with [] => Some m | e :: es' => m' ← handle_event fuel e m; event_loop fuel es' m' end.

(** ** What the coroutines mean: awaits in sequence, then a result *)

Inductive flat : Type :=
  | Fin (r : result)
  | FAwait (fd mask : Z) (k : flat)
  | FDo (f : St → St) (k : St → flat).

Fixpoint inline (b : body) (kont : result → flat) : flat :=
  match b with
  | Return v => kont (Value v)
  | Throw => kont Exception
  | Await fd mask k => FAwait fd mask (inline k kont)
  | Do f k => FDo f (λ s, inline (k s) kont)
  | Call void child k =>
      inline child (λ r, match r with
                         | Value v => inline (k v) kont
                         | Exception => if void then inline (k unit_value) kont else kont Exception
                         end)
  end.

Definition meaning (b : body) : flat := inline b Fin.

(** A group of independent sequential processes: each waits for its descriptor,
    is lost (its wait was refused), or is done. *)
Inductive status : Type :=
  | Waits (fd mask : Z) (k : flat)
  | Lost
  | Done (r : result).

Definition waited (P : list status) : list Z :=
  omap (λ s, match s with Waits fd _ _ => Some fd | _ => None end) P.

(** A process runs to its next wait or to its end. *)
Fixpoint spin (f : flat) (s : St) : flat * St :=
  match f with FDo g k => spin (k s) (g s) | _ => (f, s) end.

Definition settle (P : list status) (f : flat) (s : St) : status * St :=
  match spin f s with
  | (FAwait fd mask k, s') => (if accepts fd && bool_decide (fd ∉ waited P) then Waits fd mask k else Lost, s')
  | (Fin r, s') => (Done r, s')
  | (FDo _ _, s') => (Lost, s')           (* [spin] does not stop there *)
  end.

(** The process that waits for [fd] goes on; the others are not touched. *)
Fixpoint advance (before : list status) (fd : Z) (P : list status) (s : St) : list status * St :=
  match P with
  | [] => (before, s)
  | Waits fd' mask k :: P' =>
      if decide (fd' = fd) then
        let '(st, s') := settle (before ++ P') k s in (before ++ st :: P', s')
      else advance (before ++ [Waits fd' mask k]) fd P' s
  | st :: P' => advance (before ++ [st]) fd P' s
  end.

Definition spec_event (e : loop_event) (Ps : list status * St) : list status * St :=
  match e with
  | Spawn b => let '(st, s') := settle Ps.1 (meaning b) Ps.2 in (Ps.1 ++ [st], s')
  | Event fd => advance [] fd Ps.1 Ps.2
  end.
End machine.
Arguments machine : clear implicits.
Arguments body : clear implicits.
Arguments result : clear implicits.
Arguments frame : clear implicits.
Arguments flat : clear implicits.
Arguments status : clear implicits.
Arguments fstate : clear implicits.
Arguments loop_event : clear implicits.
End Tasks.

Module Owners.
(** [Task] objects by name; each owns a frame or is inert. *)
Record store : Type := mkStore {
  tasks : gmap nat (option nat);
  live : gset nat;
  raw : list nat;                             (* handles given away by [take] *)
  next : nat
}.

(** [handle_.destroy()]: undefined on a frame that is gone. *)
Definition destroy (h : nat) (s : store) : outcome store :=
  if decide (h ∈ live s) then Ret (mkStore (tasks s) (live s ∖ {[h]}) (raw s) (next s)) else Undef.

Definition destroy_opt (o : option nat) (s : store) : outcome store :=
  match o with Some h => destroy h s | None => Ret s end.

Definition set_task (x : nat) (o : option nat) (s : store) : store :=
  mkStore (<[x := o]> (tasks s)) (live s) (raw s) (next s).

Inductive op : Type :=
  | New (x : nat)                 (* a coroutine is called *)
  | MoveNew (x y : nat)           (* Task x(std::move(y)) *)
  | MoveAssign (x y : nat)        (* x = std::move(y) *)
  | Destruct (x : nat)
  | Take (x : nat).

(** Names are used as C++ objects are: constructed once, then alive. *)
Definition exec (o : op) (s : store) : outcome store :=
  match o with
  | New x =>
      match tasks s !! x with
      | Some _ => Ret s
      | None => Ret (mkStore (<[x := Some (next s)]> (tasks s)) ({[next s]} ∪ live s) (raw s) (S (next s)))
      end
  | MoveNew x y =>
      match tasks s !! x, tasks s !! y with
      | None, Some h => Ret (set_task x h (set_task y None s))
      | _, _ => Ret s
      end
  | MoveAssign x y =>
      match tasks s !! x, tasks s !! y with
      | Some hx, Some hy =>
          if decide (x = y) then Ret s
          else s ← destroy_opt hx s; Ret (set_task y None (set_task x hy s))
      | _, _ => Ret s
      end
  | Destruct x =>
      match tasks s !! x with
      | Some h => s ← destroy_opt h s; Ret (mkStore (delete x (tasks s)) (live s) (raw s) (next s))
      | None => Ret s
      end
  | Take x =>
      match tasks s !! x with
      | Some (Some h) => Ret (mkStore (<[x := None]> (tasks s)) (live s) (h :: raw s) (next s))
      | _ => Ret s
      end
  end.

Fixpoint exec_all (os : list op) (s : store) : outcome store :=
  match os with [] => Ret s | o :: os' => s' ← exec o s; exec_all os' s' end.

Definition empty_store : store := mkStore ∅ ∅ [] 0.
End Owners.
