(* ===== verification/TaskProps.v ===== *)
(** * Coroutine tasks: what they guarantee

    [Tasks] refine independent sequential processes: whatever the order in which
    coroutines are spawned and descriptors become ready, every coroutine (with the
    tasks it awaits) behaves as its body read as one sequential program, and its
    inner frames are destroyed when they are done.  [Owners] never destroy a frame
    twice and never lose one. *)

From S2P Require Import Prelude Task.

Module TaskRuns.
Import Tasks.
Section refinement.
Context {V St : Type} (unit_value : V) (accepts : Z → bool).

Implicit Types m : machine V St.

(** The callers of a running coroutine, innermost first. *)
Abbreviation stack := (list (nat * bool * (V → body V St))).

Definition cont (st : stack) : option nat :=
  match st with [] => None | (h, _, _) :: _ => Some h end.

Fixpoint stack_entries (child : nat) (st : stack) : list (nat * frame V St) :=
  match st with
  | [] => []
  | (h, void, k) :: st' => (h, mkFrame (OnChild child void k) (cont st')) :: stack_entries h st'
  end.

(** What is left to do once the running coroutine is done. *)
Fixpoint kont (st : stack) : result V → flat V St :=
  match st with
  | [] => Fin
  | (_, void, k) :: st' => λ r,
      match r with
      | Value v => inline unit_value (k v) (kont st')
      | Exception => if void : bool then inline unit_value (k unit_value) (kont st') else kont st' Exception
      end
  end.

(** The handle the owner of the outermost task holds. *)
Fixpoint root (leaf : nat) (st : stack) : nat :=
  match st with [] => leaf | (h, _, _) :: st' => root h st' end.

Definition chain (leaf : nat) (s : fstate V St) (st : stack) : list (nat * frame V St) :=
  (leaf, mkFrame s (cont st)) :: stack_entries leaf st.

(** A machine with one chain in front, the other frames in [rest]. *)
Definition config (leaf : nat) (s : fstate V St) (st : stack) (rest : list (nat * frame V St))
    (n : nat) (reg : gmap Z (Z * nat)) (ctl : option nat) (sh : St) : machine V St :=
  mkMachine (list_to_map (chain leaf s st ++ rest)) n reg ctl sh.

Definition keys_ok (ks : list nat) (n : nat) : Prop := NoDup ks ∧ Forall (λ x, x < n) ks.

Abbreviation steps := (rtc (λ m m', step unit_value accepts m = Some m')).

Lemma stack_entries_keys child st : (stack_entries child st).*1 = st.*1.*1.
Proof. revert child. induction st as [|[[h void] k] st IH]; intros child; csimpl; [done|]. by rewrite IH. Qed.

Lemma chain_keys leaf s st : (chain leaf s st).*1 = leaf :: st.*1.*1.
Proof. unfold chain. csimpl. by rewrite stack_entries_keys. Qed.

Lemma keys_perm ks ks' n : ks ≡ₚ ks' → keys_ok ks n → keys_ok ks' n.
Proof. intros Hp [? ?]. split; by rewrite <- Hp. Qed.

(** ** One coroutine *)

Lemma step_finish leaf b r st rest n reg sh :
  (b = Throw ∧ r = Exception ∨ ∃ v, b = Return v ∧ r = Value v) →
  steps (config leaf (Ready b) st rest n reg (Some leaf) sh) (config leaf (Final r) st rest n reg (cont st) sh).
Proof.
  intros Hb. apply rtc_once. unfold step, config, chain; cbn.
  rewrite lookup_insert_eq. destruct Hb as [[-> ->] | (v & -> & ->)]; cbn;
    unfold finish, set_control, set_frame; cbn; by rewrite insert_insert_eq.
Qed.

Lemma step_await leaf fd mask k st rest n reg sh :
  steps (config leaf (Ready (Await fd mask k)) st rest n reg (Some leaf) sh)
        (config leaf (Ready k) st rest n (add accepts fd mask leaf reg) None sh).
Proof.
  apply rtc_once. unfold step, config, chain; cbn. rewrite lookup_insert_eq; cbn.
  unfold await_io, set_frame; cbn. by rewrite insert_insert_eq.
Qed.

Lemma step_call leaf void child k st rest n reg sh :
  steps (config leaf (Ready (Call void child k)) st rest n reg (Some leaf) sh)
        (config n (Ready child) ((leaf, void, k) :: st) rest (S n) reg (Some n) sh).
Proof.
  apply rtc_once. unfold step, config, chain; cbn. rewrite lookup_insert_eq; cbn.
  unfold await_task; cbn. by rewrite insert_insert_eq.
Qed.

Lemma step_do leaf g k st rest n reg sh :
  steps (config leaf (Ready (Do g k)) st rest n reg (Some leaf) sh)
        (config leaf (Ready (k sh)) st rest n reg (Some leaf) (g sh)).
Proof.
  apply rtc_once. unfold step, config, chain; cbn. rewrite lookup_insert_eq; cbn.
  unfold set_store, set_frame; cbn. by rewrite insert_insert_eq.
Qed.

(** The body a caller goes on with. *)
Definition resumed (void : bool) (k : V → body V St) (r : result V) : body V St :=
  match r with Value v => k v | Exception => if void then k unit_value else Throw end.

Lemma step_return i leaf void k r st rest n reg sh :
  NoDup (i :: leaf :: st.*1.*1 ++ rest.*1) →
  steps (config i (Final r) ((leaf, void, k) :: st) rest n reg (Some leaf) sh)
        (config leaf (Ready (resumed void k r)) st rest n reg (Some leaf) sh).
Proof.
  intros Hnd. apply rtc_once. apply NoDup_cons in Hnd as [Hi _].
  apply not_elem_of_cons in Hi as [Hne Hi].
  unfold step, config, chain; cbn. rewrite lookup_insert_ne, lookup_insert_eq by done. cbn.
  rewrite lookup_insert_eq. cbn.
  assert (Hnone : (list_to_map (stack_entries leaf st ++ rest) : gmap nat (frame V St)) !! i = None).
  { apply not_elem_of_list_to_map_1. by rewrite fmap_app, stack_entries_keys. }
  destruct r as [v|]; cbn; unfold destroy_frame, set_frame; cbn;
    rewrite (insert_insert_ne _ leaf i), delete_insert_id, insert_insert_eq by (by rewrite ?lookup_insert_ne); done.
Qed.

Lemma keys_push n ks : keys_ok ks n → keys_ok (n :: ks) (S n).
Proof.
  intros [Hnd Hlt]. split.
  - constructor; [|done]. intros Hin. rewrite Forall_forall in Hlt. specialize (Hlt _ Hin). lia.
  - constructor; [lia|]. eapply Forall_impl; [exact Hlt|]. cbn. lia.
Qed.

(** A suspension of the chain, with what it means. *)
Definition suspends (b : body V St) leaf (st : stack) rest n reg sh : Prop :=
  ∃ leaf' st' n' b' fd mask sh',
    steps (config leaf (Ready b) st rest n reg (Some leaf) sh)
          (config leaf' (Ready b') st' rest n' (add accepts fd mask leaf' reg) None sh') ∧
    keys_ok (leaf' :: st'.*1.*1 ++ rest.*1) n' ∧ root leaf' st' = root leaf st ∧
    spin (inline unit_value b (kont st)) sh = (FAwait fd mask (inline unit_value b' (kont st')), sh').

Definition finishes (b : body V St) leaf (st : stack) rest n reg sh : Prop :=
  ∃ r n' sh', steps (config leaf (Ready b) st rest n reg (Some leaf) sh)
                    (config leaf (Final r) st rest n' reg (cont st) sh') ∧
    keys_ok (leaf :: st.*1.*1 ++ rest.*1) n' ∧
    (∀ K : result V → flat V St, spin (inline unit_value b K) sh = spin (K r) sh').

Lemma inline_resumed void k r (K : result V → flat V St) :
  inline unit_value (resumed void k r) K =
  match r with
  | Value v => inline unit_value (k v) K
  | Exception => if void : bool then inline unit_value (k unit_value) K else K Exception
  end.
Proof. by destruct r, void. Qed.

Lemma body_runs b leaf st rest n reg sh :
  keys_ok (leaf :: st.*1.*1 ++ rest.*1) n → suspends b leaf st rest n reg sh ∨ finishes b leaf st rest n reg sh.
Proof.
  revert leaf st n sh. induction b as [v| |fd mask k _|void child IHc k IHk|g k IHk]; intros leaf st n sh Hok.
  - right. exists (Value v), n, sh. split_and!; [apply step_finish; eauto|done|done].
  - right. exists Exception, n, sh. split_and!; [apply step_finish; eauto|done|done].
  - left. exists leaf, st, n, k, fd, mask, sh. split_and!; [apply step_await|done..].
  - pose proof (keys_push _ _ Hok) as Hok'.
    destruct (IHc n ((leaf, void, k) :: st) (S n) sh) as
      [(leaf' & st' & n' & b' & fd & mask & sh' & Hs & Hk & Hr & Hi) | (r & n' & sh' & Hs & Hk & Hi)]; [done|left|].
    { exists leaf', st', n', b', fd, mask, sh'. split_and!; [|done..].
      etrans; [apply step_call|exact Hs]. }
    assert (Hk' : keys_ok (leaf :: st.*1.*1 ++ rest.*1) n').
    { destruct Hk as [Hnd Hlt]. inversion Hnd; inversion Hlt; by subst. }
    assert (Hpre : steps (config leaf (Ready (Call void child k)) st rest n reg (Some leaf) sh)
                         (config leaf (Ready (resumed void k r)) st rest n' reg (Some leaf) sh')).
    { etrans; [apply step_call|]. etrans; [exact Hs|]. apply step_return, Hk. }
    assert (Hrun : suspends (resumed void k r) leaf st rest n' reg sh' ∨ finishes (resumed void k r) leaf st rest n' reg sh').
    { destruct r as [v|], void; cbn; auto.
      right. exists Exception, n', sh'. split_and!; [apply step_finish; eauto|done|done]. }
    assert (Hin : ∀ K, spin (inline unit_value (Call void child k) K) sh = spin (inline unit_value (resumed void k r) K) sh').
    { intros K. rewrite inline_resumed. cbn. by rewrite Hi. }
    destruct Hrun as [(leaf' & st' & n'' & b' & fd & mask & sh'' & Hs' & Hok'' & Hr & Hi') | (r' & n'' & sh'' & Hs' & Hok'' & Hi')].
    + left. exists leaf', st', n'', b', fd, mask, sh''. rewrite Hin. split_and!; [by etrans|done..].
    + right. exists r', n'', sh''. split_and!; [by etrans|done|]. intros K. by rewrite Hin.
  - destruct (IHk sh leaf st n (g sh) Hok) as
      [(leaf' & st' & n' & b' & fd & mask & sh' & Hs & Hrest) | (r & n' & sh' & Hs & Hrest)].
    + left. exists leaf', st', n', b', fd, mask, sh'. split; [etrans; [apply step_do|exact Hs]|exact Hrest].
    + right. exists r, n', sh'. split; [etrans; [apply step_do|exact Hs]|exact Hrest].
Qed.

(** ** A whole chain: to its next suspension, or to the end of its outermost task *)

Inductive chain_run (leaf : nat) (b : body V St) (st : stack) rest n reg sh : Prop :=
  | runs_await leaf' st' n' b' fd mask sh' :
      steps (config leaf (Ready b) st rest n reg (Some leaf) sh)
            (config leaf' (Ready b') st' rest n' (add accepts fd mask leaf' reg) None sh') →
      keys_ok (leaf' :: st'.*1.*1 ++ rest.*1) n' → root leaf' st' = root leaf st →
      spin (inline unit_value b (kont st)) sh = (FAwait fd mask (inline unit_value b' (kont st')), sh') →
      chain_run leaf b st rest n reg sh
  | runs_done r n' sh' :
      steps (config leaf (Ready b) st rest n reg (Some leaf) sh)
            (config (root leaf st) (Final r) [] rest n' reg None sh') →
      keys_ok (root leaf st :: rest.*1) n' → spin (inline unit_value b (kont st)) sh = (Fin r, sh') →
      chain_run leaf b st rest n reg sh.

Lemma chain_runs st : ∀ leaf b rest n reg sh,
  keys_ok (leaf :: st.*1.*1 ++ rest.*1) n → chain_run leaf b st rest n reg sh.
Proof.
  induction st as [|[[h void] k] st IH]; intros leaf b rest n reg sh Hok;
    (destruct (body_runs b leaf _ rest n reg sh Hok) as
      [(leaf' & st' & n' & b' & fd & mask & sh' & ? & ? & ? & ?) | (r & n' & sh' & Hs & Hk & Hi)]; [by econstructor 1|]).
  - eapply runs_done; [exact Hs|done|]. by rewrite Hi.
  - assert (Hk' : keys_ok (h :: st.*1.*1 ++ rest.*1) n').
    { destruct Hk as [Hnd Hlt]. inversion Hnd; inversion Hlt; by subst. }
    assert (Hpre : steps (config leaf (Ready b) ((h, void, k) :: st) rest n reg (Some leaf) sh)
                         (config h (Ready (resumed void k r)) st rest n' reg (Some h) sh')).
    { etrans; [exact Hs|]. apply step_return, Hk. }
    destruct (IH h (resumed void k r) rest n' reg sh' Hk') as
      [leaf' st' n'' b' fd mask sh'' Hs' Hok' Hr Hi' | r' n'' sh'' Hs' Hok' Hi']; rewrite inline_resumed in Hi'.
    + eapply runs_await; [by etrans|done|done|]. rewrite Hi. exact Hi'.
    + eapply runs_done; [by etrans|done|]. rewrite Hi. exact Hi'.
Qed.

(** ** Runs *)

Lemma steps_run m m' : steps m m' → control m' = None → ∃ fuel, run unit_value accepts fuel m = Some m'.
Proof.
  intros Hs Hc. induction Hs as [m|m m1 m' Hs _ IH].
  - exists 0. cbn. by rewrite Hc.
  - destruct (IH Hc) as [fuel Hf]. exists (S fuel). cbn.
    destruct (control m) eqn:E; [|by unfold step in Hs; rewrite E in Hs]. by rewrite Hs.
Qed.

Lemma run_mono f f' m m' : run unit_value accepts f m = Some m' → f ≤ f' → run unit_value accepts f' m = Some m'.
Proof.
  revert f' m. induction f as [|f IH]; intros f' m Hr Hle; cbn in Hr.
  - destruct (control m) eqn:E; [done|]. destruct f'; cbn; by rewrite E.
  - destruct f' as [|f']; [lia|]. cbn. destruct (control m); [|done].
    destruct (step unit_value accepts m) as [m1|]; [cbn in *|done]. apply IH; [done|lia].
Qed.

Lemma handle_event_mono f f' e m m' :
  handle_event unit_value accepts f e m = Some m' → f ≤ f' → handle_event unit_value accepts f' e m = Some m'.
Proof.
  destruct e as [b|fd]; cbn; [apply run_mono|]. unfold on_event.
  destruct (registered m !! fd) as [[mask h]|]; [apply run_mono|done].
Qed.

Lemma event_loop_mono f f' es m m' :
  event_loop unit_value accepts f es m = Some m' → f ≤ f' → event_loop unit_value accepts f' es m = Some m'.
Proof.
  revert m. induction es as [|e es IH]; intros m Hl Hle; [done|]. cbn in *.
  apply bind_Some in Hl as (m1 & H1 & H2).
  rewrite (handle_event_mono _ _ _ _ _ H1 Hle). cbn. by apply IH.
Qed.

(** ** The group of coroutines *)

Record proc : Type := mkProc {
  pleaf : nat;
  pstate : fstate V St;
  pstack : stack;
  pwait : option (Z * Z)
}.

Definition entries (ps : list proc) : list (nat * frame V St) :=
  ps ≫= λ p, chain (pleaf p) (pstate p) (pstack p).
Definition regs (ps : list proc) : list (Z * (Z * nat)) :=
  omap (λ p, w ← pwait p; Some (w.1, (w.2, pleaf p))) ps.
Definition proot (p : proc) : nat := root (pleaf p) (pstack p).

Definition shows (p : proc) (s : status V St) : Prop :=
  match s with
  | Waits fd mask f => pwait p = Some (fd, mask) ∧
      ∃ b, pstate p = Ready b ∧ f = inline unit_value b (kont (pstack p))
  | Lost => pwait p = None ∧ ∃ b, pstate p = Ready b
  | Done r => pwait p = None ∧ pstate p = Final r ∧ pstack p = []
  end.

Record represents (ps : list proc) (P : list (status V St)) (m : machine V St) : Prop := mkRepresents {
  rep_frames : frames m = list_to_map (entries ps);
  rep_regs : registered m = list_to_map (regs ps);
  rep_control : control m = None;
  rep_keys : keys_ok (entries ps).*1 (fresh_id m);
  rep_fds : NoDup (waited P);
  rep_shows : Forall2 shows ps P
}.

Lemma regs_waited ps P : Forall2 shows ps P → (regs ps).*1 = waited P.
Proof.
  induction 1 as [|p s ps P Hps _ IH]; [done|]. unfold regs, waited in *. csimpl.
  destruct s; cbn in Hps; destruct Hps as [-> _]; csimpl; by rewrite ?IH.
Qed.

Lemma entries_mid ps1 p ps2 :
  entries (ps1 ++ p :: ps2) ≡ₚ chain (pleaf p) (pstate p) (pstack p) ++ entries (ps1 ++ ps2).
Proof. unfold entries. rewrite !bind_app. csimpl. solve_Permutation. Qed.

Lemma entries_map ps1 p ps2 n : keys_ok (entries (ps1 ++ p :: ps2)).*1 n →
  list_to_map (M := gmap nat (frame V St)) (entries (ps1 ++ p :: ps2)) =
  list_to_map (chain (pleaf p) (pstate p) (pstack p) ++ entries (ps1 ++ ps2)).
Proof. intros [Hnd _]. apply list_to_map_proper; [done|apply entries_mid]. Qed.

Lemma entries_keys ps1 p ps2 n :
  keys_ok (entries (ps1 ++ p :: ps2)).*1 n ↔
  keys_ok (pleaf p :: (pstack p).*1.*1 ++ (entries (ps1 ++ ps2)).*1) n.
Proof.
  assert (Hp : (entries (ps1 ++ p :: ps2)).*1 ≡ₚ pleaf p :: (pstack p).*1.*1 ++ (entries (ps1 ++ ps2)).*1).
  { rewrite entries_mid, fmap_app. by rewrite chain_keys. }
  split; apply keys_perm; by rewrite Hp.
Qed.

Lemma waited_mid (B A : list (status V St)) s : waited (B ++ s :: A) ≡ₚ waited [s] ++ waited (B ++ A).
Proof. unfold waited. rewrite !omap_app. destruct s; csimpl; by rewrite ?Permutation_middle. Qed.

Lemma regs_mid ps1 p ps2 : regs (ps1 ++ p :: ps2) ≡ₚ regs [p] ++ regs (ps1 ++ ps2).
Proof. unfold regs. rewrite !omap_app. csimpl. destruct (pwait p); csimpl; by rewrite ?Permutation_middle. Qed.

(** The chain that ran is put back among the others. *)
Lemma chain_settles ps1 ps2 B A leaf b st n sh :
  Forall2 shows ps1 B → Forall2 shows ps2 A → NoDup (waited (B ++ A)) →
  keys_ok (leaf :: st.*1.*1 ++ (entries (ps1 ++ ps2)).*1) n →
  ∃ fuel m' p, run unit_value accepts fuel
      (config leaf (Ready b) st (entries (ps1 ++ ps2)) n (list_to_map (regs (ps1 ++ ps2))) (Some leaf) sh) = Some m' ∧
    proot p = root leaf st ∧ (settle accepts (B ++ A) (inline unit_value b (kont st)) sh).2 = store m' ∧
    represents (ps1 ++ p :: ps2) (B ++ (settle accepts (B ++ A) (inline unit_value b (kont st)) sh).1 :: A) m'.
Proof.
  intros HB HA Hnd Hok.
  assert (Hw : (regs (ps1 ++ ps2)).*1 = waited (B ++ A)) by (by apply regs_waited, Forall2_app).
  destruct (chain_runs st leaf b (entries (ps1 ++ ps2)) n (list_to_map (regs (ps1 ++ ps2))) sh Hok)
    as [leaf' st' n' b' fd mask sh' Hs Hok' Hr Hi | r n' sh' Hs Hok' Hi];
    destruct (steps_run _ _ Hs eq_refl) as [fuel Hf]; unfold settle; rewrite Hi; cbn [fst snd].
  - unfold add in Hf.
    assert (Hin : bool_decide ((list_to_map (regs (ps1 ++ ps2)) : gmap Z (Z * nat)) !! fd = None)
                  = bool_decide (fd ∉ waited (B ++ A))).
    { apply bool_decide_ext. by rewrite <- not_elem_of_list_to_map, Hw. }
    rewrite Hin in Hf. destruct (accepts fd && bool_decide (fd ∉ waited (B ++ A))) eqn:E.
    + apply andb_true_iff in E as [_ E%bool_decide_eq_true].
      set (p := mkProc leaf' (Ready b') st' (Some (fd, mask))).
      assert (Hrep : keys_ok (entries (ps1 ++ p :: ps2)).*1 n') by (by apply entries_keys).
      eexists fuel, _, p. split; [exact Hf|]. split; [done|]. split; [done|]. split; cbn.
      * by erewrite entries_map.
      * rewrite (list_to_map_proper (regs (ps1 ++ p :: ps2)) ((fd, (mask, leaf')) :: regs (ps1 ++ ps2))); [done| |].
        -- rewrite regs_mid. csimpl. constructor; [by rewrite Hw|]. by rewrite Hw.
        -- apply regs_mid.
      * done.
      * done.
      * rewrite waited_mid. by constructor.
      * apply Forall2_app; [done|]. constructor; [|done]. cbn. split; [done|]. by exists b'.
    + set (p := mkProc leaf' (Ready b') st' None).
      assert (Hrep : keys_ok (entries (ps1 ++ p :: ps2)).*1 n') by (by apply entries_keys).
      eexists fuel, _, p. split; [exact Hf|]. split; [done|]. split; [done|]. split; cbn.
      * by erewrite entries_map.
      * unfold regs. by rewrite !omap_app.
      * done.
      * done.
      * by rewrite waited_mid.
      * apply Forall2_app; [done|]. constructor; [|done]. cbn. split; [done|]. by exists b'.
  - set (p := mkProc (root leaf st) (Final r) [] None).
    assert (Hrep : keys_ok (entries (ps1 ++ p :: ps2)).*1 n') by (by apply entries_keys).
    eexists fuel, _, p. split; [exact Hf|]. split; [done|]. split; [done|]. split; cbn.
    + by erewrite entries_map.
    + unfold regs. by rewrite !omap_app.
    + done.
    + done.
    + by rewrite waited_mid.
    + apply Forall2_app; [done|]. by constructor.
Qed.

Lemma machine_eta (m : machine V St) fs rg : frames m = fs → registered m = rg → control m = None →
  m = mkMachine fs (fresh_id m) rg None (store m).
Proof. destruct m; cbn. by intros -> -> ->. Qed.

(** An event of the descriptor that the process in the middle waits for. *)
Lemma event_resumes ps1 p ps2 B A fd mask k m :
  Forall2 shows ps1 B → Forall2 shows ps2 A → shows p (Waits fd mask k) →
  represents (ps1 ++ p :: ps2) (B ++ Waits fd mask k :: A) m →
  ∃ fuel m' p', on_event unit_value accepts fuel fd m = Some m' ∧ proot p' = proot p ∧
    (settle accepts (B ++ A) k (store m)).2 = store m' ∧
    represents (ps1 ++ p' :: ps2) (B ++ (settle accepts (B ++ A) k (store m)).1 :: A) m'.
Proof.
  intros HB HA [Hw (b & Hb & ->)] [Hfr Hrg Hc Hk Hn _].
  assert (Hnd : NoDup (waited (B ++ A)) ∧ fd ∉ waited (B ++ A)).
  { rewrite waited_mid in Hn. cbn in Hn. by inversion Hn. }
  assert (Hwa : (regs (ps1 ++ ps2)).*1 = waited (B ++ A)) by (by apply regs_waited, Forall2_app).
  assert (Hrm : registered m = <[fd := (mask, pleaf p)]> (list_to_map (regs (ps1 ++ ps2)))).
  { rewrite Hrg. rewrite (list_to_map_proper _ ((fd, (mask, pleaf p)) :: regs (ps1 ++ ps2))); [done| |].
    - rewrite regs_mid, fmap_app. unfold regs at 1. cbn. rewrite Hw. cbn.
      constructor; rewrite Hwa; apply Hnd.
    - rewrite regs_mid. unfold regs at 1. cbn. by rewrite Hw. }
  destruct (chain_settles ps1 ps2 B A (pleaf p) b (pstack p) (fresh_id m) (store m) HB HA (proj1 Hnd))
    as (fuel & m' & p' & Hrun & Hroot & Hst & Hrep).
  { by apply entries_keys. }
  exists fuel, m', p'. split_and!; [|done..].
  unfold on_event. rewrite Hrm, lookup_insert_eq. unfold resume, set_control. cbn.
  rewrite delete_insert_id by (apply not_elem_of_list_to_map_1; rewrite Hwa; apply Hnd).
  rewrite <- Hrun. unfold config. by rewrite Hfr, (entries_map _ _ _ _ Hk), Hb.
Qed.

Lemma event_advances P : ∀ ps1 ps2 B fd m,
  Forall2 shows ps1 B → Forall2 shows ps2 P → fd ∉ waited B →
  represents (ps1 ++ ps2) (B ++ P) m →
  ∃ fuel m' ps', on_event unit_value accepts fuel fd m = Some m' ∧
    proot <$> ps' = proot <$> (ps1 ++ ps2) ∧ (advance accepts B fd P (store m)).2 = store m' ∧
    represents ps' (advance accepts B fd P (store m)).1 m'.
Proof.
  induction P as [|s P IH]; intros ps1 ps2 B fd m HB HP Hfd Hrep.
  - apply Forall2_nil_inv_r in HP as ->. rewrite !app_nil_r in *. exists 0, m, ps1. split_and!; [|done..].
    unfold on_event. rewrite (rep_regs _ _ _ Hrep).
    rewrite (not_elem_of_list_to_map_1 (regs ps1) fd); [done|]. by rewrite (regs_waited _ _ HB).
  - apply Forall2_cons_inv_r in HP as (p & ps & Hp & HP & ->).
    assert (Hskip : fd ∉ waited (B ++ [s]) →
      ∃ fuel m' ps', on_event unit_value accepts fuel fd m = Some m' ∧
        proot <$> ps' = proot <$> (ps1 ++ p :: ps) ∧ (advance accepts (B ++ [s]) fd P (store m)).2 = store m' ∧
        represents ps' (advance accepts (B ++ [s]) fd P (store m)).1 m').
    { intros Hs. rewrite (cons_middle p ps1 ps), app_assoc. apply IH; [|done|done|].
      - apply Forall2_app; [done|]. by constructor.
      - by rewrite <- !app_assoc. }
    assert (Hnot : (∀ mask k, s ≠ Waits fd mask k) → fd ∉ waited (B ++ [s])).
    { intros Hs. rewrite waited_mid, app_nil_r, elem_of_app. intros [Hin | Hin]; [|done].
      destruct s as [fd' mask k| |]; cbn in Hin; [|by apply elem_of_nil in Hin..].
      apply list_elem_of_singleton in Hin as ->. by eapply Hs. }
    destruct s as [fd' mask k| |r]; cbn [advance]; [|apply Hskip, Hnot; congruence..].
    destruct (decide (fd' = fd)) as [->|Hne]; [|apply Hskip, Hnot; congruence].
    destruct (event_resumes ps1 p ps B P fd mask k m HB HP Hp Hrep) as (fuel & m' & p' & ? & Hr & Hst & ?).
    exists fuel, m', (ps1 ++ p' :: ps). destruct (settle accepts (B ++ P) k (store m)) as [st' sh']. cbn in *.
    split_and!; [done| |done..]. rewrite !fmap_app. cbn. by rewrite Hr.
Qed.

Lemma spawn_settles ps P b m : represents ps P m →
  ∃ fuel m' p, spawn unit_value accepts fuel b m = Some m' ∧ proot p = fresh_id m ∧
    (settle accepts P (meaning unit_value b) (store m)).2 = store m' ∧
    represents (ps ++ [p]) (P ++ [(settle accepts P (meaning unit_value b) (store m)).1]) m'.
Proof.
  intros [Hfr Hrg Hc Hk Hn Hs].
  destruct (chain_settles ps [] P [] (fresh_id m) b [] (S (fresh_id m)) (store m) Hs)
    as (fuel & m' & p & Hrun & Hroot & Hst & Hrep).
  - constructor.
  - by rewrite app_nil_r.
  - rewrite app_nil_r. by apply keys_push.
  - rewrite !app_nil_r in *. exists fuel, m', p. split_and!; [|done..].
    rewrite <- Hrun. unfold spawn, resume, set_control, create, config. cbn. by rewrite Hfr, Hrg.
Qed.

Lemma handle_event_settles ps P e m : represents ps P m →
  ∃ fuel m' ps', handle_event unit_value accepts fuel e m = Some m' ∧
    (proot <$> ps) `prefix_of` (proot <$> ps') ∧ (spec_event unit_value accepts e (P, store m)).2 = store m' ∧
    represents ps' (spec_event unit_value accepts e (P, store m)).1 m'.
Proof.
  intros Hrep. destruct e as [b|fd]; cbn.
  - destruct (spawn_settles ps P b m Hrep) as (fuel & m' & p & ? & ? & ? & ?).
    exists fuel, m', (ps ++ [p]). destruct (settle accepts P (meaning unit_value b) (store m)) as [st' sh']. cbn in *.
    split_and!; [done| |done..]. rewrite fmap_app. by eexists.
  - destruct (event_advances P [] ps [] fd m) as (fuel & m' & ps' & ? & Hr & ? & ?);
      [constructor|apply Hrep|apply not_elem_of_nil|done|].
    exists fuel, m', ps'. split_and!; [done| |done..]. by rewrite Hr.
Qed.

Lemma loop_settles es : ∀ ps P m, represents ps P m →
  ∃ fuel m' ps', event_loop unit_value accepts fuel es m = Some m' ∧
    (proot <$> ps) `prefix_of` (proot <$> ps') ∧
    (foldl (λ Ps e, spec_event unit_value accepts e Ps) (P, store m) es).2 = store m' ∧
    represents ps' (foldl (λ Ps e, spec_event unit_value accepts e Ps) (P, store m) es).1 m'.
Proof.
  induction es as [|e es IH]; intros ps P m Hrep.
  - by exists 0, m, ps.
  - destruct (handle_event_settles ps P e m Hrep) as (f1 & m1 & ps1 & H1 & Hp1 & Hs1 & Hrep1).
    destruct (IH _ _ _ Hrep1) as (f2 & m2 & ps2 & H2 & Hp2 & Hs2 & Hrep2).
    exists (f1 `max` f2), m2, ps2. cbn [foldl]. rewrite <- Hs1 in Hs2, Hrep2. rewrite <- surjective_pairing in Hs2, Hrep2.
    split_and!; [|by etrans|done..]. cbn.
    erewrite handle_event_mono by (done || lia). cbn. eapply event_loop_mono; [done|lia].
Qed.

Lemma idle_represents sh : represents [] [] (idle sh).
Proof. split; try done; cbn; [split|]; constructor. Qed.

(** What the owner of a task sees of a process. *)
Definition seen (m : machine V St) (h : nat) (s : status V St) : Prop :=
  match s with
  | Done r => frames m !! h = Some (mkFrame (Final r) None)
  | _ => ∃ f, frames m !! h = Some f ∧ ∀ r, state f ≠ Final r
  end.

Lemma root_frame leaf s st : ∃ f,
  (root leaf st, f) ∈ chain leaf s st ∧ continuation_ f = None ∧ (st = [] → f = mkFrame s None) ∧
  (st ≠ [] → ∃ c v k, state f = OnChild c v k).
Proof.
  revert leaf s. induction st as [|[[h void] k] st IH]; intros leaf s.
  - exists (mkFrame s None). by split_and!; [left|..].
  - destruct (IH h (OnChild leaf void k)) as (f & Hin & Hc & Hnil & Hcons). exists f. split_and!; [by right|done|done|].
    intros _. destruct st as [|e st]; [|by apply Hcons]. rewrite Hnil by done. by eexists _, _, _.
Qed.

Lemma represents_seen ps P m : represents ps P m → Forall2 (seen m) (proot <$> ps) P.
Proof.
  intros [Hfr _ _ [Hk _] _ Hs]. apply Forall2_fmap_l. apply Forall2_same_length_lookup.
  split; [by eapply Forall2_length|]. intros i p s Hp Hps.
  pose proof (Forall2_lookup_lr _ _ _ _ _ _ Hs Hp Hps) as Hsh.
  destruct (root_frame (pleaf p) (pstate p) (pstack p)) as (f & Hin & _ & Hnil & Hcons).
  assert (Hf : frames m !! proot p = Some f).
  { rewrite Hfr. apply elem_of_list_to_map_1; [done|]. apply list_elem_of_bind.
    exists p. split; [exact Hin|by eapply list_elem_of_lookup_2]. }
  unfold seen, compose. destruct s as [fd mask k| |r]; cbn in Hsh.
  - exists f. split; [done|]. intros r Hr. destruct Hsh as [_ (b & Hb & _)].
    destruct (pstack p) eqn:E; [rewrite (Hnil eq_refl) in Hr; cbn in Hr; congruence|].
    destruct Hcons as (? & ? & ? & ?); [done|congruence].
  - exists f. split; [done|]. intros r Hr. destruct Hsh as [_ (b & Hb)].
    destruct (pstack p) eqn:E; [rewrite (Hnil eq_refl) in Hr; cbn in Hr; congruence|].
    destruct Hcons as (? & ? & ? & ?); [done|congruence].
  - destruct Hsh as (_ & Hb & Hst). by rewrite Hf, (Hnil Hst), Hb.
Qed.

Lemma represents_roots ps P m : represents ps P m → NoDup (proot <$> ps).
Proof.
  intros [_ _ _ [Hk _] _ _]. induction ps as [|p ps IH]; [constructor|].
  change (p :: ps) with ([p] ++ ps) in Hk. unfold entries in Hk. rewrite bind_app, fmap_app in Hk.
  apply NoDup_app in Hk as (_ & Hdisj & Hk).
  csimpl. constructor; [|by apply IH]. intros Hin.
  apply list_elem_of_fmap in Hin as (q & Heq & Hq).
  destruct (root_frame (pleaf p) (pstate p) (pstack p)) as (f & Hf & _).
  destruct (root_frame (pleaf q) (pstate q) (pstack q)) as (g & Hg & _).
  apply (Hdisj (proot p)).
  - apply list_elem_of_fmap. exists (proot p, f). split; [done|]. apply list_elem_of_bind.
    exists p. split; [exact Hf|left].
  - rewrite Heq. apply list_elem_of_fmap. exists (proot q, g). split; [done|].
    apply list_elem_of_bind. by exists q.
Qed.

Lemma represents_registered ps P m : represents ps P m → dom (registered m) = list_to_set (waited P).
Proof. intros [_ Hrg _ _ _ Hs]. by rewrite Hrg, dom_list_to_map_L, (regs_waited _ _ Hs). Qed.

(** When all processes are done, only the frames of the outermost tasks are left. *)
Lemma represents_frames ps P m : represents ps P m →
  (∀ s, s ∈ P → ∃ r, s = Done r) → dom (frames m) = list_to_set (proot <$> ps).
Proof.
  intros [Hfr _ _ _ _ Hs] Hdone. rewrite Hfr, dom_list_to_map_L. f_equal.
  clear Hfr. induction Hs as [|p s ps P Hp _ IH]; [done|].
  destruct (Hdone s) as [r ->]; [left|]. destruct Hp as (_ & _ & Hst).
  change (entries (p :: ps)) with (chain (pleaf p) (pstate p) (pstack p) ++ entries ps).
  rewrite fmap_app, chain_keys, Hst, IH by (intros s Hin; apply Hdone; by right).
  csimpl. unfold proot at 2. by rewrite Hst.
Qed.

(** C5: the event loop and the coroutine machinery refine a group of independent
    sequential processes.  For every sequence of spawned coroutines and readiness
    events the loop comes back (with enough fuel), and the tasks behave as their
    bodies read sequentially, each run from one wait to the next in one go on the shared
    state: the shared state is the processes' one, the descriptors that are registered
    are exactly those the processes wait for, an owner finds its task done exactly when the process is
    done, with its result, and when all are done every inner frame has been
    destroyed. *)
Theorem task_refines_processes (sh : St) (es : list (loop_event V St)) :
  let '(P, sh') := foldl (λ Ps e, spec_event unit_value accepts e Ps) ([], sh) es in
  ∃ fuel m roots, event_loop unit_value accepts fuel es (idle sh) = Some m ∧ control m = None ∧ store m = sh' ∧
    NoDup roots ∧ Forall2 (seen m) roots P ∧ dom (registered m) = list_to_set (waited P) ∧
    ((∀ s, s ∈ P → ∃ r, s = Done r) → dom (frames m) = list_to_set roots).
Proof.
  destruct (loop_settles es [] [] (idle sh) (idle_represents sh)) as (fuel & m & ps & Hl & _ & Hst & Hrep).
  change (store (idle sh)) with sh in *.
  destruct (foldl (λ Ps e, spec_event unit_value accepts e Ps) ([], sh) es) as [P sh']. cbn [fst snd] in Hst, Hrep.
  exists fuel, m, (proot <$> ps). split_and!; [done|apply Hrep|done| | | |].
  - by eapply represents_roots.
  - by apply represents_seen.
  - by eapply represents_registered.
  - by eapply represents_frames.
Qed.

End refinement.
End TaskRuns.

Module Examples.
Import Tasks.
(** [Task<void>::await_resume] does not look at the stored exception: the awaiting
    coroutine goes on as if the task had returned; [Task<T>] makes it throw. *)
Example task_void_drops_exception :
  (m ← event_loop 0 (λ _, true) 10 [Spawn (Call true Throw (λ _, Return 7))] (idle ()); frames m !! 0)
    = Some (mkFrame (Final (Value 7)) None) ∧
  (m ← event_loop 0 (λ _, true) 10 [Spawn (Call false Throw (λ _, Return 7))] (idle ()); frames m !! 0)
    = Some (mkFrame (Final Exception) None).
Proof. by vm_compute. Qed.
End Examples.

Module TaskOwners.
Import Owners.

(** Every live frame has exactly one owner: one [Task] object or one raw handle. *)
Record sound (s : store) : Prop := mkSound {
  own_inj : ∀ x y h, tasks s !! x = Some (Some h) → tasks s !! y = Some (Some h) → x = y;
  own_raw : ∀ x h, tasks s !! x = Some (Some h) → h ∉ raw s;
  raw_nodup : NoDup (raw s);
  live_owned : ∀ h, h ∈ live s ↔ (∃ x, tasks s !! x = Some (Some h)) ∨ h ∈ raw s;
  live_next : ∀ h, h ∈ live s → h < next s
}.

Lemma empty_sound : sound empty_store.
Proof. split; cbn; try constructor; set_solver. Qed.

(** Ownership only depends on who owns what. *)
Lemma sound_ext s s' : sound s → live s' = live s → raw s' = raw s → next s' = next s →
  (∀ x h, tasks s' !! x = Some (Some h) ↔ tasks s !! x = Some (Some h)) → sound s'.
Proof.
  intros [Hi Hr Hn Hl Hx] El Er En Et. split; rewrite ?El, ?Er, ?En; [|..|done].
  - intros x y h. rewrite !Et. apply Hi.
  - intros x h. rewrite Et. apply Hr.
  - done.
  - intros h. rewrite Hl. by setoid_rewrite Et.
Qed.

(** The frame of a task is destroyed and the task is inert. *)
Lemma drop_sound s x o : sound s → tasks s !! x = Some o →
  ∃ s', destroy_opt o s = Ret s' ∧ tasks s' = tasks s ∧ sound (set_task x None s').
Proof.
  intros Hs Hx. destruct o as [h|]; cbn.
  2:{ exists s. split_and!; [done..|]. eapply sound_ext; [exact Hs|done..|]. intros y h. cbn.
      rewrite lookup_insert_Some. naive_solver. }
  destruct Hs as [Hi Hr Hn Hl Hb]. unfold destroy.
  assert (Hin : h ∈ live s) by (apply Hl; eauto). rewrite decide_True by done.
  eexists. split_and!; [done..|].
  assert (Hset : ∀ y g, <[x := None]> (tasks s) !! y = Some (Some g) ↔ y ≠ x ∧ tasks s !! y = Some (Some g)).
  { intros y g. rewrite lookup_insert_Some. naive_solver. }
  split; cbn.
  - intros y z g. rewrite !Hset. naive_solver.
  - intros y g. rewrite Hset. naive_solver.
  - done.
  - intros g. setoid_rewrite Hset. rewrite elem_of_difference, elem_of_singleton, Hl. split.
    + intros [[[y Hy]|Hg] Hne]; [left; exists y|by right]. split; [|done]. naive_solver.
    + intros [(y & Hyx & Hy) | Hg]; (split; [by eauto|]); intros ->; [by apply Hyx, (Hi _ _ h)|by eapply Hr].
  - set_solver.
Qed.

(** A task object that owns nothing takes over the frame of another. *)
Lemma move_sound s x y o : sound s → x ≠ y → (∀ h, tasks s !! x ≠ Some (Some h)) → tasks s !! y = Some o →
  sound (set_task x o (set_task y None s)).
Proof.
  intros [Hi Hr Hn Hl Hb] Hne Hx Hy.
  assert (Hset : ∀ z g, <[x := o]> (<[y := None]> (tasks s)) !! z = Some (Some g) ↔
    (z = x ∧ o = Some g) ∨ (z ≠ x ∧ z ≠ y ∧ tasks s !! z = Some (Some g))).
  { intros z g. rewrite lookup_insert_Some, lookup_insert_Some. naive_solver. }
  split; cbn.
  - intros z w g. rewrite !Hset. naive_solver.
  - intros z g. rewrite Hset. naive_solver.
  - done.
  - intros g. setoid_rewrite Hset. rewrite Hl. split.
    + intros [[z Hz]|Hg]; [left|by right]. destruct (decide (z = y)) as [->|]; [exists x|exists z]; naive_solver.
    + naive_solver.
  - done.
Qed.

Lemma new_sound s x : sound s → tasks s !! x = None →
  sound (mkStore (<[x := Some (next s)]> (tasks s)) ({[next s]} ∪ live s) (raw s) (S (next s))).
Proof.
  intros [Hi Hr Hn Hl Hb] Hx.
  assert (Hset : ∀ z g, <[x := Some (next s)]> (tasks s) !! z = Some (Some g) ↔
    (z = x ∧ g = next s) ∨ (z ≠ x ∧ tasks s !! z = Some (Some g))).
  { intros z g. rewrite lookup_insert_Some. naive_solver. }
  assert (Hfresh : next s ∉ live s) by (intros Hin; specialize (Hb _ Hin); lia).
  rewrite Hl in Hfresh. split; cbn.
  - intros z w g. rewrite !Hset. naive_solver.
  - intros z g. rewrite Hset. naive_solver.
  - done.
  - intros g. setoid_rewrite Hset. rewrite elem_of_union, elem_of_singleton, Hl. split.
    + intros [->|[[z Hz]|Hg]]; [left; exists x; by left|left; exists z|by right]. right. split; [congruence|done].
    + naive_solver.
  - intros h. rewrite elem_of_union, elem_of_singleton. intros [->|Hh]; [lia|]. specialize (Hb _ Hh). lia.
Qed.

Lemma take_sound s x h : sound s → tasks s !! x = Some (Some h) →
  sound (mkStore (<[x := None]> (tasks s)) (live s) (h :: raw s) (next s)).
Proof.
  intros [Hi Hr Hn Hl Hb] Hx.
  assert (Hset : ∀ y g, <[x := None]> (tasks s) !! y = Some (Some g) ↔ y ≠ x ∧ tasks s !! y = Some (Some g)).
  { intros y g. rewrite lookup_insert_Some. naive_solver. }
  split; cbn.
  - intros y z g. rewrite !Hset. naive_solver.
  - intros y g. rewrite Hset, not_elem_of_cons. naive_solver.
  - constructor; [by eapply Hr|done].
  - intros g. setoid_rewrite Hset. rewrite elem_of_cons, Hl. split.
    + intros [[y Hy]|Hg]; [|by auto]. destruct (decide (y = x)); naive_solver.
    + naive_solver.
  - done.
Qed.

Lemma exec_sound o s : sound s → ∃ s', exec o s = Ret s' ∧ sound s'.
Proof.
  intros Hs. destruct o as [x|x y|x y|x|x]; cbn.
  - destruct (tasks s !! x) eqn:Hx; [by eauto|]. eexists. split; [done|]. by apply new_sound.
  - destruct (tasks s !! x) eqn:Hx; [by eauto|]. destruct (tasks s !! y) as [h|] eqn:Hy; [|by eauto].
    eexists. split; [done|]. apply move_sound; [done|congruence|congruence|done].
  - destruct (tasks s !! x) as [hx|] eqn:Hx; [|by eauto]. destruct (tasks s !! y) as [hy|] eqn:Hy; [|by eauto].
    destruct (decide (x = y)) as [->|Hne]; [by eauto|].
    destruct (drop_sound s x hx Hs Hx) as (s1 & -> & Ht & Hs1). cbn. eexists. split; [done|].
    eapply sound_ext; [apply (move_sound _ x y hy Hs1)|done..|]; cbn; [done| | |].
    + intros h. rewrite lookup_insert_eq. congruence.
    + by rewrite lookup_insert_ne, Ht by done.
    + intros z g. rewrite !lookup_insert_Some. naive_solver.
  - destruct (tasks s !! x) as [h|] eqn:Hx; [|by eauto].
    destruct (drop_sound s x h Hs Hx) as (s1 & -> & Ht & Hs1). cbn. eexists. split; [done|].
    eapply sound_ext; [exact Hs1|done..|]. intros z g. cbn. rewrite lookup_delete_Some, lookup_insert_Some. naive_solver.
  - destruct (tasks s !! x) as [[h|]|] eqn:Hx; [|by eauto..]. eexists. split; [done|]. by apply take_sound.
Qed.

(** C28: [Task] objects own their frames uniquely: whatever sequence of coroutine
    calls, moves, move assignments (self-moves included), destructions and [take]s
    is executed, no frame is destroyed twice or used after its destruction, and a
    frame is live exactly when one task object or one taken handle owns it, so none
    is leaked. *)
Theorem task_unique_ownership (os : list op) :
  ∃ s, exec_all os empty_store = Ret s ∧ sound s.
Proof.
  assert (∀ s, sound s → ∃ s', exec_all os s = Ret s' ∧ sound s') as H; [|apply H, empty_sound].
  induction os as [|o os IH]; intros s Hs; [by exists s|].
  destruct (exec_sound o s Hs) as (s1 & E & Hs1). cbn. rewrite E. by apply IH.
Qed.

End TaskOwners.
