(* ===== verification/TaskDestroy.v ===== *)
(** * Destroying tasks

    A [Task] owns its frame and, through the frame's locals, the frames of the tasks
    it awaits: [drop_task] destroys exactly that chain, and leaves the other
    coroutines as they were. *)

From S2P Require Import Prelude Task TaskProps.
Import Tasks TaskRuns.

Section destroy.
Context {V St : Type} (unit_value : V).
Implicit Types m : machine V St.

(** The frames from [h] down to the innermost task it awaits. *)
Fixpoint awaits (fs : gmap nat (frame V St)) (h : nat) (l : list nat) : Prop :=
  match l with
  | [] => False
  | x :: l' => x = h ∧ ∃ f, fs !! h = Some f ∧
      match state f with OnChild i _ _ => awaits fs i l' | _ => l' = [] end
  end.

Lemma awaits_delete fs x l : ∀ h, awaits fs h l → x ∉ l → awaits (delete x fs) h l.
Proof.
  induction l as [|y l IH]; intros h Ha Hx; [done|]. destruct Ha as [-> (f & Hf & Hs)].
  apply not_elem_of_cons in Hx as [Hne Hx]. split; [done|]. exists f.
  rewrite lookup_delete_ne by done. split; [done|]. destruct (state f); auto.
Qed.

Lemma awaits_live fs l : ∀ h, awaits fs h l → ∀ x, x ∈ l → x ∈ dom fs.
Proof.
  induction l as [|y l IH]; intros h Ha x Hx; [done|]. destruct Ha as [-> (f & Hf & Hs)].
  apply elem_of_cons in Hx as [->|Hx]; [by apply elem_of_dom_2 in Hf|].
  destruct (state f); [by subst l; set_solver|eauto|by subst l; set_solver].
Qed.

Lemma awaits_length fs h l : awaits fs h l → NoDup l → length l ≤ size fs.
Proof.
  intros Ha Hnd. rewrite <- size_dom, <- (size_list_to_set (C := gset nat) l) by done.
  apply subseteq_size. intros x Hx%elem_of_list_to_set. by eapply awaits_live.
Qed.

Lemma destroy_awaits l : ∀ h m fuel, awaits (frames m) h l → NoDup l → length l ≤ fuel →
  ∃ m', destroy_task fuel h m = Some m' ∧ (∀ x, frames m' !! x = if decide (x ∈ l) then None else frames m !! x) ∧
    fresh_id m' = fresh_id m ∧ registered m' = registered m ∧ control m' = control m ∧ store m' = store m.
Proof.
  induction l as [|y l IH]; intros h m fuel Ha Hnd Hle; [done|]. destruct Ha as [-> (f & Hf & Hs)].
  apply NoDup_cons in Hnd as [Hh Hnd]. destruct fuel as [|n]; [cbn in Hle; lia|].
  assert (∀ x, (if decide (x ∈ l) then None else delete h (frames m) !! x) =
               (if decide (x ∈ h :: l) then None else frames m !! x)) as Hlook.
  { intros x. destruct (decide (x = h)) as [->|Hne].
    - rewrite lookup_delete_eq. rewrite (decide_True (P := h ∈ h :: l)) by left. by case_decide.
    - rewrite lookup_delete_ne by done. repeat case_decide; try done; set_solver. }
  cbn. rewrite Hf. cbn. destruct (state f) as [b|i void k|r].
  - subst l. eexists. by split_and!.
  - destruct (IH i (destroy_frame h m) n) as (m' & Hd & Hl' & Hr); [by apply awaits_delete|done|cbn in Hle; lia|].
    exists m'. split_and!; [done| |apply Hr..]. intros x. rewrite Hl'. apply Hlook.
  - subst l. eexists. by split_and!.
Qed.

(** ** The chains of the coroutines *)

Definition suspended (s : fstate V St) : Prop := match s with OnChild _ _ _ => False | _ => True end.

(** From the outermost task to the innermost one. *)
Definition handles (p : proc (V := V) (St := St)) : list nat := reverse ((pstack p).*1.*1) ++ [pleaf p].

Lemma stack_awaits fs st : ∀ leaf tl,
  awaits fs leaf tl → (∀ h f, (h, f) ∈ stack_entries leaf st → fs !! h = Some f) →
  awaits fs (root leaf st) (reverse st.*1.*1 ++ tl).
Proof.
  induction st as [|[[h void] k] st IH]; intros leaf tl Ha Hfs; [done|]. cbn [root fmap list_fmap fst].
  rewrite reverse_cons, <- app_assoc. apply IH.
  - split; [done|]. eexists. split; [apply Hfs; left|]. done.
  - intros h' f Hin. apply Hfs. by right.
Qed.

Lemma chain_awaits fs leaf s st :
  suspended s → (∀ h f, (h, f) ∈ chain leaf s st → fs !! h = Some f) →
  awaits fs (root leaf st) (reverse st.*1.*1 ++ [leaf]).
Proof.
  intros Hs Hfs. apply stack_awaits.
  - split; [done|]. eexists. split; [apply Hfs; left|]. by destruct s.
  - intros h f Hin. apply Hfs. by right.
Qed.

(** The frames of a group of coroutines, whatever the poller knows of them. *)
Record owned (ps : list (proc (V := V) (St := St))) m : Prop := mkOwned {
  ow_frames : frames m = list_to_map (entries ps);
  ow_keys : NoDup (entries ps).*1;
  ow_suspended : Forall (λ p, suspended (pstate p)) ps
}.

Lemma owned_entry ps m p h f :
  owned ps m → p ∈ ps → (h, f) ∈ chain (pleaf p) (pstate p) (pstack p) → frames m !! h = Some f.
Proof.
  intros [-> Hk _] Hp Hin. apply elem_of_list_to_map_1; [done|]. apply list_elem_of_bind. by exists p.
Qed.

Lemma owned_awaits ps m p : owned ps m → p ∈ ps → awaits (frames m) (proot p) (handles p).
Proof.
  intros Ho Hp. apply chain_awaits with (pstate p).
  - destruct Ho as [_ _ Hs]. rewrite Forall_forall in Hs. by apply Hs.
  - intros h f. by eapply owned_entry.
Qed.

Lemma handles_chain p : handles p ≡ₚ (chain (pleaf p) (pstate p) (pstack p)).*1.
Proof. unfold handles. rewrite chain_keys, reverse_Permutation. apply Permutation_app_comm. Qed.

Lemma entries_keys_mid ps1 p ps2 :
  (entries (ps1 ++ p :: ps2)).*1 ≡ₚ handles p ++ (entries (V := V) (St := St) (ps1 ++ ps2)).*1.
Proof. by rewrite entries_mid, fmap_app, handles_chain. Qed.

(** Every frame belongs to the chain of one of the tasks. *)
Lemma owned_covers ps m h : owned ps m → h ∈ dom (frames m) → ∃ p, p ∈ ps ∧ h ∈ handles p.
Proof.
  intros [-> _ _]. rewrite dom_list_to_map_L, elem_of_list_to_set, list_elem_of_fmap.
  intros ([h' f] & -> & (p & Hin & Hp)%list_elem_of_bind). exists p. split; [done|].
  rewrite handles_chain, list_elem_of_fmap. by exists (h', f).
Qed.

Lemma owned_drop ps1 p ps2 m : owned (ps1 ++ p :: ps2) m →
  ∃ m', drop_task (proot p) m = Some m' ∧ owned (ps1 ++ ps2) m' ∧
    fresh_id m' = fresh_id m ∧ registered m' = registered m ∧ control m' = control m ∧ store m' = store m.
Proof.
  intros Ho. assert (Ha : awaits (frames m) (proot p) (handles p)) by (eapply owned_awaits; [done|set_solver]).
  destruct Ho as [Hf Hk Hs]. pose proof Hk as Hk'. rewrite entries_keys_mid in Hk'.
  apply NoDup_app in Hk' as (Hh & Hdisj & Hrest).
  destruct (destroy_awaits (handles p) (proot p) m (S (size (frames m))) Ha Hh) as (m' & Hd & Hl & Hsame).
  { pose proof (awaits_length _ _ _ Ha Hh). lia. }
  exists m'. split_and!; [done| |apply Hsame..]. constructor.
  - apply map_eq. intros x. rewrite Hl, Hf.
    rewrite (list_to_map_proper (M := gmap nat) _ _ Hk (entries_mid ps1 p ps2)), list_to_map_app.
    case_decide as Hx.
    + symmetry. apply not_elem_of_list_to_map_1. auto.
    + rewrite lookup_union_r; [done|]. apply not_elem_of_list_to_map_1. by rewrite <- handles_chain.
  - done.
  - rewrite Forall_app, Forall_cons in Hs. apply Forall_app. tauto.
Qed.

Lemma owned_drop_all hs : ∀ ps m, owned ps m → hs ≡ₚ proot <$> ps →
  ∃ m', drop_tasks hs m = Some m' ∧ frames m' = ∅ ∧ control m' = control m ∧ store m' = store m.
Proof.
  induction hs as [|h hs IH]; intros ps m Ho Hp.
  - apply Permutation_nil_l in Hp. symmetry in Hp. apply fmap_nil_inv in Hp as ->. exists m. split_and!; [done|apply Ho|done..].
  - assert (h ∈ proot <$> ps) as (p & -> & Hin)%list_elem_of_fmap by (rewrite <- Hp; left).
    apply list_elem_of_split in Hin as (ps1 & ps2 & ->).
    destruct (owned_drop ps1 p ps2 m Ho) as (m1 & E & Ho1 & _ & _ & Hc & Hn).
    destruct (IH (ps1 ++ ps2) m1 Ho1) as (m' & E' & Hm & Hc' & Hn').
    { rewrite fmap_app, fmap_cons in Hp. apply (Permutation_app_inv [] _ (proot <$> ps1)) in Hp. by rewrite fmap_app. }
    exists m'. cbn [drop_tasks]. rewrite E. cbn [mbind option_bind]. split_and!; congruence.
Qed.

(** ** Groups with their registrations *)

Lemma represents_owned ps P m : represents unit_value ps P m → owned ps m.
Proof.
  intros [Hf _ _ [Hk _] _ Hs]. constructor; [done..|].
  clear Hf Hk. induction Hs as [|p st ps P Hp _ IH]; constructor; [|done].
  destruct st; cbn in Hp; [destruct Hp as (_ & b & -> & _)|destruct Hp as (_ & b & ->)|destruct Hp as (_ & -> & _)]; done.
Qed.

(** A finished task is dropped: the others go on. *)
Lemma represents_drop ps1 p ps2 B r A m :
  length ps1 = length B → represents unit_value (ps1 ++ p :: ps2) (B ++ Done r :: A) m →
  ∃ m', drop_task (proot p) m = Some m' ∧ represents unit_value (ps1 ++ ps2) (B ++ A) m' ∧ registered m' = registered m ∧ store m' = store m.
Proof.
  intros Hlen Hr. destruct (owned_drop ps1 p ps2 m (represents_owned _ _ _ Hr)) as (m' & Hd & Ho & Hn & Hrg & Hc & Hst).
  exists m'. split_and!; [done| |done..]. destruct Hr as [_ Hreg Hctl [_ Hlt] Hw Hs].
  apply Forall2_app_inv in Hs as [HB Hs]; [|done]. apply Forall2_cons in Hs as [Hp HA].
  constructor.
  - apply Ho.
  - rewrite Hrg, Hreg. unfold regs. rewrite !omap_app. cbn. destruct Hp as (-> & _). done.
  - congruence.
  - split; [apply Ho|]. rewrite Hn. rewrite entries_keys_mid, Forall_app in Hlt. apply Hlt.
  - unfold waited in *. rewrite !omap_app in *. done.
  - by apply Forall2_app.
Qed.

(** A task is found done exactly when its process is. *)
Lemma seen_done h st m : seen m h st → task_done h m = Some (match st with Done _ => true | _ => false end).
Proof.
  unfold seen, task_done. destruct st as [fd mask k| |r]; [intros (f & -> & Hf)..|intros ->]; cbn; [..|done];
    destruct (state f) eqn:E; try done; by destruct (Hf r).
Qed.
End destroy.
