(* ===== verification/TaskGroup.v ===== *)
(** * The coroutines of an event loop

    [group live m]: the tasks of [live] own the coroutines of the machine [m], every
    frame is in the chain of one of them, and the poller's registrations are those of
    the innermost frames.  The operations of the loop on such a group are defined and
    give such a group. *)

From S2P Require Import Prelude Task TaskProps TaskDestroy.
Import Tasks TaskRuns.

Section group.
Context {V St : Type} (unit_value : V) (accepts : Z → bool).
Implicit Types m : machine V St.

Definition set_registered (r : gmap Z (Z * nat)) m : machine V St :=
  mkMachine (frames m) (fresh_id m) r (control m) (store m).

(** ** Registrations *)

Lemma step_registers m m' : step unit_value accepts m = Some m' →
  registered m' = registered m ∨ ∃ fd mask h, registered m' = add accepts fd mask h (registered m).
Proof.
  unfold step. destruct (control m) as [h|]; cbn; [|done]. destruct (frames m !! h) as [f|]; cbn; [|done].
  destruct (state f) as [[v| |fd mask k|void child k|g k]|i void k|r]; [intros [= <-]; cbn; by eauto..| |done].
  destruct (frames m !! i) as [g|]; cbn; [|done].
  destruct (state g) as [| |[v|]]; [done..|intros [= <-]; by left|intros [= <-]; by left].
Qed.

Lemma run_ind_registers (Q : gmap Z (Z * nat) → Prop) fuel : ∀ m m',
  (∀ fd mask h reg, Q reg → Q (add accepts fd mask h reg)) →
  run unit_value accepts fuel m = Some m' → Q (registered m) → Q (registered m').
Proof.
  induction fuel as [|fuel IH]; intros m m' Hadd Hr HQ; cbn in Hr; destruct (control m); simplify_eq; [done| |done].
  destruct (step unit_value accepts m) as [m1|] eqn:E; cbn in Hr; [|done]. eapply IH; [done..|].
  destruct (step_registers m m1 E) as [->|(fd & mask & h & ->)]; auto.
Qed.

(** A coroutine that runs leaves the other registrations alone. *)
Lemma run_keeps fuel m m' fd x : run unit_value accepts fuel m = Some m' →
  registered m !! fd = Some x → registered m' !! fd = Some x.
Proof.
  intros Hr. apply (run_ind_registers (λ reg, reg !! fd = Some x) fuel); [|done].
  intros fd' mask h reg Hx. unfold add. destruct (accepts fd'); cbn; [|done].
  case_bool_decide; [|done]. rewrite lookup_insert_ne; [done|congruence].
Qed.

(** A descriptor that cannot be watched is not watched. *)
Lemma run_refuses fuel m m' fd : run unit_value accepts fuel m = Some m' → accepts fd = false →
  registered m !! fd = None → registered m' !! fd = None.
Proof.
  intros Hr Hf. apply (run_ind_registers (λ reg, reg !! fd = None) fuel); [|done].
  intros fd' mask h reg Hx. unfold add. destruct (accepts fd') eqn:E; cbn; [|done].
  case_bool_decide; [|done]. rewrite lookup_insert_ne; [done|congruence].
Qed.

Lemma run_det f f' m a b : run unit_value accepts f m = Some a → run unit_value accepts f' m = Some b → a = b.
Proof.
  intros Ha Hb. destruct (Nat.le_ge_cases f f') as [Hle|Hle].
  - pose proof (run_mono unit_value accepts _ _ _ _ Ha Hle). congruence.
  - pose proof (run_mono unit_value accepts _ _ _ _ Hb Hle). congruence.
Qed.

(** ** The group *)

Definition group (live : gmap Z nat) m : Prop :=
  ∃ ps P, represents unit_value ps P m ∧ (map_to_list live).*2 ≡ₚ proot <$> ps.

Lemma group_idle m : frames m = ∅ → control m = None → group ∅ (set_registered ∅ m).
Proof.
  intros Hf Hc. exists [], []. split; [|by rewrite map_to_list_empty].
  constructor; cbn; try done; [split; constructor|constructor].
Qed.

Lemma group_empty m : group ∅ m → frames m = ∅ ∧ registered m = ∅ ∧ control m = None.
Proof.
  intros (ps & P & Hr & Hp). rewrite map_to_list_empty in Hp. cbn in Hp.
  apply Permutation_nil_l in Hp. symmetry in Hp. apply fmap_nil_inv in Hp as ->.
  destruct Hr as [Hf Hreg Hc _ _ _]. by rewrite Hf, Hreg.
Qed.

(** What the coroutines share does not matter to the group. *)
Lemma group_store live sh m : group live m → group live (set_store sh m).
Proof. intros (ps & P & [Hf Hr Hc Hk Hw Hs] & Hp). exists ps, P. split; [by constructor|done]. Qed.

Lemma group_task live m fd h : group live m → live !! fd = Some h →
  ∃ ps1 p ps2 B st A, represents unit_value (ps1 ++ p :: ps2) (B ++ st :: A) m ∧ length ps1 = length B ∧
    proot p = h ∧ (map_to_list (delete fd live)).*2 ≡ₚ proot <$> (ps1 ++ ps2).
Proof.
  intros (ps & P & Hr & Hp) Hfd.
  assert (h :: (map_to_list (delete fd live)).*2 ≡ₚ proot <$> ps) as Hp'.
  { rewrite <- Hp. change (h :: (map_to_list (delete fd live)).*2) with (((fd, h) :: map_to_list (delete fd live)).*2).
    by rewrite map_to_list_delete. }
  assert (h ∈ proot <$> ps) as (p & -> & Hin)%list_elem_of_fmap by (rewrite <- Hp'; left).
  apply list_elem_of_split in Hin as (ps1 & ps2 & ->).
  pose proof (rep_shows _ _ _ _ Hr) as Hs. apply Forall2_app_inv_l in Hs as (B & A' & HB & HA & ->).
  apply Forall2_cons_inv_l in HA as (st & A & _ & _ & ->).
  exists ps1, p, ps2, B, st, A. split_and!; [done|by eapply Forall2_length|done|].
  rewrite fmap_app, fmap_cons in Hp'. apply (Permutation_app_inv [] _ (proot <$> ps1)) in Hp'. by rewrite fmap_app.
Qed.

Lemma represents_done ps1 p ps2 B st A m :
  length ps1 = length B → represents unit_value (ps1 ++ p :: ps2) (B ++ st :: A) m →
  task_done (proot p) m = Some (match st with Done _ => true | _ => false end).
Proof.
  intros Hlen Hr. apply represents_seen in Hr. rewrite fmap_app, fmap_cons in Hr.
  apply Forall2_app_inv in Hr as [_ Hr]; [|by rewrite length_fmap]. apply Forall2_cons in Hr as [Hs _].
  by apply seen_done.
Qed.

(** [done], and the destruction of a finished task. *)
Lemma group_done live m fd h : group live m → live !! fd = Some h →
  ∃ fin, task_done h m = Some fin ∧
    (fin = true → ∃ m', drop_task h m = Some m' ∧ group (delete fd live) m' ∧
      registered m' = registered m ∧ store m' = store m).
Proof.
  intros Hg Hfd. destruct (group_task live m fd h Hg Hfd) as (ps1 & p & ps2 & B & st & A & Hr & Hlen & <- & Hp).
  eexists. split; [by eapply represents_done|]. destruct st as [fd' mask k| |r]; [done..|]. intros _.
  destruct (represents_drop unit_value ps1 p ps2 B r A m Hlen Hr) as (m' & Hd & Hr' & Hreg & Hst).
  exists m'. split_and!; [done| |done..]. by exists (ps1 ++ ps2), (B ++ A).
Qed.

Lemma destroy_subset fuel : ∀ h m m', destroy_task fuel h m = Some m' → frames m' ⊆ frames m.
Proof.
  induction fuel as [|n IH]; intros h m m' Hd; cbn in Hd; [done|].
  destruct (frames m !! h) as [f|]; cbn in Hd; [|done].
  destruct (state f); simplify_eq; [|etrans; [by eapply IH|]|]; apply delete_subseteq.
Qed.

Lemma task_done_mono h m m' fin : frames m' ⊆ frames m → task_done h m' = Some fin → task_done h m = Some fin.
Proof.
  unfold task_done. intros Hsub. destruct (frames m' !! h) as [f|] eqn:E; cbn; [|done].
  by rewrite (lookup_weaken _ _ _ _ E Hsub).
Qed.

(** [resume_handle] on the handle of a registration. *)
Lemma group_resume live m fd mask h : group live m → registered m !! fd = Some (mask, h) →
  ∃ fuel m', resume unit_value accepts fuel h (set_registered (delete fd (registered m)) m) = Some m' ∧ group live m'.
Proof.
  intros (ps & P & Hr & Hp) Hreg.
  destruct (event_advances unit_value accepts P [] ps [] fd m) as (fuel & m' & ps' & He & Hroots & _ & Hr');
    [constructor|apply Hr|apply not_elem_of_nil|done|].
  exists fuel, m'. split; [|exists ps', (advance accepts [] fd P (store m)).1; by rewrite Hroots].
  unfold on_event in He. by rewrite Hreg in He.
Qed.

(** A new coroutine, resumed for the first time. *)
Lemma group_spawn live m b : group live m →
  ∃ fuel m' fin, spawn unit_value accepts fuel b m = Some m' ∧ task_done (fresh_id m) m' = Some fin ∧
    if fin : bool then ∃ m'', drop_task (fresh_id m) m' = Some m'' ∧ group live m'' ∧
      registered m'' = registered m' ∧ store m'' = store m'
    else ∀ fd, live !! fd = None → group (<[fd := fresh_id m]> live) m'.
Proof.
  intros (ps & P & Hr & Hp).
  destruct (spawn_settles unit_value accepts ps P b m Hr) as (fuel & m' & p & Hs & Hroot & _ & Hr').
  assert (Hlen : length ps = length P) by (eapply Forall2_length, Hr).
  exists fuel, m'. eexists. split; [done|]. rewrite <- Hroot. split; [by eapply represents_done|].
  destruct (settle accepts P (meaning unit_value b) (store m)).1 as [fd' mask k| |r] eqn:E.
  3:{ destruct (represents_drop unit_value ps p [] P r [] m' Hlen Hr') as (m'' & Hd & Hr'' & Hreg & Hst).
      rewrite !app_nil_r in Hr''. exists m''. split_and!; [done| |done..]. by exists ps, P. }
  all: intros fd Hfd; eexists _, _; split; [exact Hr'|];
    rewrite map_to_list_insert by done; rewrite fmap_app; cbn; rewrite Hp; apply Permutation_cons_append.
Qed.

(** [live_tasks_.clear()]. *)
Lemma group_clear live m : group live m →
  ∃ m', drop_tasks (map_to_list live).*2 m = Some m' ∧ group ∅ (set_registered ∅ m') ∧ store m' = store m.
Proof.
  intros (ps & P & Hr & Hp).
  destruct (owned_drop_all _ ps m (represents_owned _ _ _ _ Hr) Hp) as (m' & Hd & Hf & Hc & Hst).
  exists m'. split_and!; [done| |done]. apply group_idle; [done|]. by rewrite Hc, (rep_control _ _ _ _ Hr).
Qed.

(** Nothing dangles and nothing is lost. *)
Lemma group_sound live m : group live m →
  (∀ fd h, live !! fd = Some h → ∃ l, awaits (frames m) h l) ∧
  (∀ h, h ∈ dom (frames m) → ∃ fd r l, live !! fd = Some r ∧ awaits (frames m) r l ∧ h ∈ l) ∧
  (∀ fd mask h, registered m !! fd = Some (mask, h) → ∃ b c, frames m !! h = Some (mkFrame (Ready b) c)).
Proof.
  intros (ps & P & Hr & Hp). pose proof (represents_owned _ _ _ _ Hr) as Ho.
  assert (∀ p, p ∈ ps → ∃ fd, live !! fd = Some (proot p)) as Hown.
  { intros p Hin. assert (proot p ∈ (map_to_list live).*2) as ([fd h] & Eh & Hin')%list_elem_of_fmap.
    { rewrite Hp. apply list_elem_of_fmap. by exists p. }
    exists fd. rewrite Eh. by apply elem_of_map_to_list. }
  split_and!.
  - intros fd h Hfd. assert (h ∈ proot <$> ps) as (p & -> & Hin)%list_elem_of_fmap.
    { rewrite <- Hp. apply list_elem_of_fmap. exists (fd, h). split; [done|]. by apply elem_of_map_to_list. }
    exists (handles p). by eapply owned_awaits.
  - intros h Hh. destruct (owned_covers ps m h Ho Hh) as (p & Hin & Hhp). destruct (Hown p Hin) as [fd Hfd].
    exists fd, (proot p), (handles p). split_and!; [done|by eapply owned_awaits|done].
  - intros fd mask h Hreg. rewrite (rep_regs _ _ _ _ Hr) in Hreg. apply elem_of_list_to_map_2 in Hreg.
    unfold regs in Hreg. apply list_elem_of_omap in Hreg as (p & Hin & Hw).
    destruct (pwait p) as [w|] eqn:Ew; cbn in Hw; [|done]. simplify_eq.
    apply list_elem_of_lookup_1 in Hin as [i Hi].
    destruct (Forall2_lookup_l _ _ _ _ _ (rep_shows _ _ _ _ Hr) Hi) as (st & _ & Hst).
    assert (∃ b, pstate p = Ready b) as [b Hb].
    { destruct st as [? ? ?| |]; cbn in Hst; [by destruct Hst as (_ & b & ? & _); eauto|destruct Hst; congruence..]. }
    exists b, (cont (pstack p)). eapply owned_entry; [done|by eapply list_elem_of_lookup_2|].
    rewrite Hb. left.
Qed.
End group.
