(* ===== verification/Reactor.v ===== *)
(** * The reactor (src/muses/net/reactor.hpp): data model and operations

    One reactor thread owns the connections; workers compute responses and hand
    them back through the outbox.  The operations are functions on the reactor's
    state.  What the kernel answers is an argument: the results of the successive
    [read], [write] and [accept] calls, and the clock.  A script that is
    exhausted answers EAGAIN.

    The read buffer is its contents and its scan position: PooledBuffer.v shows
    that [PooledBuffer::append] is list append and that it never returns
    [false].  The poller is the interest set of Poller.v, the blacklist the
    filter of BloomFilter.v.  [jobs] are the tasks in the worker pool, [sent] is
    the history of the bytes written to each descriptor, [open_fds] the
    descriptors the kernel has open. *)

From S2P Require Import Prelude Http Poller BloomFilter.

Record Connection : Type := mkConn {
  read_buf : str;
  scan_pos : nat;
  dispatched : bool;
  write_buf : str;
  write_off : nat;
  keep_alive_after_write : bool;
  writing : bool;
  last_active : Z;
  client_ip : Z
}.

Record WorkerHandback : Type := mkHandback {
  hb_fd : Z;
  hb_keep_alive : bool;
  hb_response : str
}.

Record RateWindow : Type := mkWindow {
  window_start : Z;
  count : nat
}.

Record config : Type := mkConfig {
  idle_timeout_ : Z;           (* nanoseconds; 0 disables *)
  max_connections_ : nat;      (* 0 disables *)
  ip_rate_per_sec_ : nat;      (* 0 disables *)
  outbox_slots : nat;
  handler_ : str → option (str * bool);   (* [None]: throws *)
  hash_ip : Z → Z                         (* std::hash<uint32_t> *)
}.

Record reactor : Type := mkReactor {
  connections_ : gmap Z Connection;
  watched : interest;
  outbox_ : list WorkerHandback;
  jobs : list (Z * str);
  sent : list (Z * str);
  ip_blacklist_ : BloomFilter.t;
  ip_connect_windows_ : gmap Z RateWindow;
  last_ip_decay_ : Z;
  open_fds : gset Z
}.

Definition seconds (n : Z) : Z := (n * 1000000000)%Z.

(** ** What the kernel answers *)

Inductive read_result : Type :=
  | RData (now : Z) (bytes : str)
  | REof
  | RAgain
  | RIntr
  | RFail.

Inductive write_result : Type :=
  | WWrote (n : nat)
  | WAgain
  | WIntr
  | WFail.

Inductive accept_result : Type :=
  | AConn (fd ip : Z) (add_ok : bool)
  | AAgain
  | AIntr
  | AFail.

(** ** Field updates *)

Definition set_connections (cs : gmap Z Connection) (r : reactor) : reactor :=
  mkReactor cs (watched r) (outbox_ r) (jobs r) (sent r) (ip_blacklist_ r) (ip_connect_windows_ r)
    (last_ip_decay_ r) (open_fds r).
Definition set_watched (w : interest) (r : reactor) : reactor :=
  mkReactor (connections_ r) w (outbox_ r) (jobs r) (sent r) (ip_blacklist_ r) (ip_connect_windows_ r)
    (last_ip_decay_ r) (open_fds r).
Definition set_outbox (o : list WorkerHandback) (r : reactor) : reactor :=
  mkReactor (connections_ r) (watched r) o (jobs r) (sent r) (ip_blacklist_ r) (ip_connect_windows_ r)
    (last_ip_decay_ r) (open_fds r).
Definition set_jobs (j : list (Z * str)) (r : reactor) : reactor :=
  mkReactor (connections_ r) (watched r) (outbox_ r) j (sent r) (ip_blacklist_ r) (ip_connect_windows_ r)
    (last_ip_decay_ r) (open_fds r).
Definition log_sent (fd : Z) (bs : str) (r : reactor) : reactor :=
  mkReactor (connections_ r) (watched r) (outbox_ r) (jobs r) (sent r ++ [(fd, bs)]) (ip_blacklist_ r)
    (ip_connect_windows_ r) (last_ip_decay_ r) (open_fds r).
Definition set_blacklist (b : BloomFilter.t) (r : reactor) : reactor :=
  mkReactor (connections_ r) (watched r) (outbox_ r) (jobs r) (sent r) b (ip_connect_windows_ r)
    (last_ip_decay_ r) (open_fds r).
Definition set_windows (w : gmap Z RateWindow) (r : reactor) : reactor :=
  mkReactor (connections_ r) (watched r) (outbox_ r) (jobs r) (sent r) (ip_blacklist_ r) w
    (last_ip_decay_ r) (open_fds r).
Definition set_last_decay (t : Z) (r : reactor) : reactor :=
  mkReactor (connections_ r) (watched r) (outbox_ r) (jobs r) (sent r) (ip_blacklist_ r)
    (ip_connect_windows_ r) t (open_fds r).
Definition set_open (o : gset Z) (r : reactor) : reactor :=
  mkReactor (connections_ r) (watched r) (outbox_ r) (jobs r) (sent r) (ip_blacklist_ r)
    (ip_connect_windows_ r) (last_ip_decay_ r) o.

Definition put_conn (fd : Z) (c : Connection) (r : reactor) : reactor :=
  set_connections (<[fd := c]> (connections_ r)) r.

(** ** Closing *)

Definition kernel_close (fd : Z) (r : reactor) : reactor := set_open (open_fds r ∖ {[fd]}) r.

Definition close_connection (fd : Z) (r : reactor) : reactor :=
  match connections_ r !! fd with
  | None => r
  | Some _ =>
      let r := set_watched (watch_del fd (watched r)) r in
      let r := kernel_close fd r in
      set_connections (delete fd (connections_ r)) r
  end.

Definition Connection_max_request : nat := Z.to_nat (64 * 1024).

(** ** Dispatch to the workers *)

Definition dispatch_to_worker (fd : Z) (conn : Connection) (r : reactor) : reactor :=
  let req_len := if decide (scan_pos conn = 0) then length (read_buf conn) else scan_pos conn in
  let request := take req_len (read_buf conn) in
  let conn' := mkConn (drop req_len (read_buf conn)) 0 true (write_buf conn) (write_off conn)
                 (keep_alive_after_write conn) (writing conn) (last_active conn) (client_ip conn) in
  set_jobs (jobs r ++ [(fd, request)]) (put_conn fd conn' r).

(** The worker's task for one job: run the handler, hand the result back; when
    the outbox is full the descriptor is closed behind the reactor's back (and
    the kernel drops its registration). *)
Definition worker_task (cfg : config) (fd : Z) (request : str) (r : reactor) : reactor :=
  let hb := match handler_ cfg request with
            | Some (resp, ka) => mkHandback fd ka resp
            | None => mkHandback fd false []
            end in
  if decide (length (outbox_ r) < outbox_slots cfg) then set_outbox (outbox_ r ++ [hb]) r
  else set_watched (watch_del fd (watched r)) (kernel_close fd r).

(** ** Reading *)

Definition terminator : str := CRLF ++ CRLF.

(** One chunk added to the buffer and scanned. *)
Definition scan_chunk (conn : Connection) (now : Z) (bytes : str) : Connection * bool :=
  let prev_len := length (read_buf conn) in
  let buf := read_buf conn ++ bytes in
  let scan_from := if decide (3 ≤ prev_len) then prev_len - 3 else 0 in
  let scan_from := if decide (scan_from < scan_pos conn) then scan_pos conn else scan_from in
  let '(pos, found) :=
    match find_sub terminator (drop scan_from buf) with
    | Some i => (scan_from + i + 4, true)
    | None => (if decide (3 ≤ length buf) then length buf - 3 else 0, false)
    end in
  (mkConn buf pos (dispatched conn) (write_buf conn) (write_off conn) (keep_alive_after_write conn)
     (writing conn) now (client_ip conn), found).

(** The read loop of [on_client_event]: [None] when the connection is dropped. *)
Fixpoint read_loop (rs : list read_result) (got_complete : bool) (conn : Connection) :
    option (Connection * bool) :=
  match rs with
  | [] | RAgain :: _ => Some (conn, got_complete)
  | RIntr :: rs' => read_loop rs' got_complete conn
  | REof :: _ | RFail :: _ => None
  | RData now bytes :: rs' =>
      if decide (Connection_max_request < length (read_buf conn ++ bytes)) then None else
      let '(conn', found) := scan_chunk conn now bytes in
      read_loop rs' (got_complete || found) conn'
  end.

(** [drain_into_buffer]: no scan, no dispatch. *)
Fixpoint drain_into_buffer (rs : list read_result) (conn : Connection) : option Connection :=
  match rs with
  | [] | RAgain :: _ => Some conn
  | RIntr :: rs' => drain_into_buffer rs' conn
  | REof :: _ | RFail :: _ => None
  | RData _ bytes :: rs' =>
      let buf := read_buf conn ++ bytes in
      if decide (Connection_max_request < length buf) then None else
      drain_into_buffer rs' (mkConn buf (scan_pos conn) (dispatched conn) (write_buf conn)
        (write_off conn) (keep_alive_after_write conn) (writing conn) (last_active conn) (client_ip conn))
  end.

Definition set_scan (p : nat) (c : Connection) : Connection :=
  mkConn (read_buf c) p (dispatched c) (write_buf c) (write_off c) (keep_alive_after_write c)
    (writing c) (last_active c) (client_ip c).

Definition check_buffered_request (fd : Z) (conn : Connection) (r : reactor) : reactor :=
  if dispatched conn then r else
  if decide (length (read_buf conn) < 4) then r else
  match find_sub terminator (read_buf conn) with
  | Some i => dispatch_to_worker fd (set_scan (i + 4) conn) r
  | None => r
  end.

(** ** Writing *)

(** [try_write]: the new offset, or [None] on a hard error. *)
Fixpoint try_write (ws : list write_result) (data : str) (total : nat) : option nat :=
  if decide (length data ≤ total) then Some total else
  match ws with
  | [] | WAgain :: _ => Some total
  | WIntr :: ws' => try_write ws' data total
  | WFail :: _ | WWrote 0 :: _ => None
  | WWrote n :: ws' => try_write ws' data (total + Nat.min n (length data - total))
  end.

Definition finish_response (fd : Z) (conn : Connection) (rs : list read_result) (now : Z) (r : reactor) : reactor :=
  if keep_alive_after_write conn then
    let conn := mkConn (read_buf conn) (scan_pos conn) false (write_buf conn) (write_off conn)
                  (keep_alive_after_write conn) (writing conn) now (client_ip conn) in
    let r := put_conn fd conn r in
    let r := set_watched (watch_mod fd Readable nullptr (watched r)) r in
    match drain_into_buffer rs conn with
    | None => close_connection fd r
    | Some conn => check_buffered_request fd conn (put_conn fd conn r)
    end
  else close_connection fd r.

Definition continue_write (fd : Z) (conn : Connection) (ws : list write_result) (rs : list read_result)
    (now : Z) (r : reactor) : reactor :=
  let step :=
    if decide (write_off conn < length (write_buf conn)) then
      match try_write ws (write_buf conn) (write_off conn) with
      | None => None
      | Some wrote =>
          Some (mkConn (read_buf conn) (scan_pos conn) (dispatched conn) (write_buf conn) wrote
                  (keep_alive_after_write conn) (writing conn) now (client_ip conn),
                log_sent fd (take (wrote - write_off conn) (drop (write_off conn) (write_buf conn))) r)
      end
    else Some (conn, r) in
  match step with
  | None => close_connection fd r
  | Some (conn, r) =>
      if decide (length (write_buf conn) ≤ write_off conn) then
        let conn := mkConn (read_buf conn) (scan_pos conn) (dispatched conn) [] 0
                      (keep_alive_after_write conn) false (last_active conn) (client_ip conn) in
        finish_response fd conn rs now (put_conn fd conn r)
      else
        let conn := mkConn (read_buf conn) (scan_pos conn) (dispatched conn) (write_buf conn) (write_off conn)
                      (keep_alive_after_write conn) true (last_active conn) (client_ip conn) in
        let r := put_conn fd conn r in
        set_watched (watch_mod fd Writable nullptr (watched r)) r
  end.

Definition begin_write (fd : Z) (conn : Connection) (response : str) (keep_alive : bool)
    (ws : list write_result) (rs : list read_result) (now : Z) (r : reactor) : reactor :=
  let conn := mkConn (read_buf conn) (scan_pos conn) (dispatched conn) response 0 keep_alive
                (writing conn) (last_active conn) (client_ip conn) in
  continue_write fd conn ws rs now (put_conn fd conn r).

(** One handback; the loop of [drain_outbox] with the kernel's answers for each. *)
Definition handle_handback (hb : WorkerHandback) (ws : list write_result) (rs : list read_result)
    (now : Z) (r : reactor) : reactor :=
  match connections_ r !! hb_fd hb with
  | None => r
  | Some conn =>
      if bool_decide (hb_response hb = []) && negb (hb_keep_alive hb) then close_connection (hb_fd hb) r
      else begin_write (hb_fd hb) conn (hb_response hb) (hb_keep_alive hb) ws rs now r
  end.

Fixpoint drain_loop (hbs : list WorkerHandback) (ios : list (list write_result * list read_result))
    (now : Z) (r : reactor) : reactor :=
  match hbs with
  | [] => r
  | hb :: hbs' =>
      let '(ws, rs) := default ([], []) (head ios) in
      drain_loop hbs' (tail ios) now (handle_handback hb ws rs now (set_outbox hbs' r))
  end.

Definition drain_outbox (ios : list (list write_result * list read_result)) (now : Z) (r : reactor) : reactor :=
  drain_loop (outbox_ r) ios now r.

(** ** Events of clients *)

Definition on_client_event (fd mask : Z) (ws : list write_result) (rs : list read_result) (now : Z)
    (r : reactor) : reactor :=
  if has mask Closed then close_connection fd r
  else if has mask Writable then
    match connections_ r !! fd with
    | Some conn => if writing conn then continue_write fd conn ws rs now r else r
    | None => r
    end
  else if negb (has mask Readable) then r
  else
    match connections_ r !! fd with
    | None => r
    | Some conn =>
        if dispatched conn then r else
        match read_loop rs false conn with
        | None => close_connection fd r
        | Some (conn', got_complete) =>
            let r := put_conn fd conn' r in
            if got_complete : bool then dispatch_to_worker fd conn' r else r
        end
    end.

(** ** Accepting *)

(** The counter of the current window, and whether it exceeds the rate. *)
Definition ip_rate_exceeded (cfg : config) (ip now : Z) (r : reactor) : bool * reactor :=
  let win := default (mkWindow 0 0) (ip_connect_windows_ r !! ip) in
  let win := if decide (seconds 1 ≤ now - window_start win)%Z then mkWindow now 0 else win in
  let win := mkWindow (window_start win) (S (count win)) in
  (bool_decide (ip_rate_per_sec_ cfg < count win),
   set_windows (<[ip := win]> (ip_connect_windows_ r)) r).

Definition new_connection (ip now : Z) : Connection := mkConn [] 0 false [] 0 false false now ip.

(** Register an accepted descriptor; [emplace] keeps an existing entry. *)
Definition register (fd ip : Z) (add_ok : bool) (now : Z) (r : reactor) : reactor :=
  let r := match connections_ r !! fd with
           | Some _ => r
           | None => put_conn fd (new_connection ip now) r
           end in
  if add_ok then set_watched (watch_add fd Readable nullptr (watched r)) r
  else set_connections (delete fd (connections_ r)) (kernel_close fd r).

Definition accept_one (cfg : config) (fd ip : Z) (add_ok : bool) (now : Z) (r : reactor) : outcome reactor :=
  let r := set_open ({[fd]} ∪ open_fds r) r in
  if decide (ip_rate_per_sec_ cfg ≠ 0 ∧ ip ≠ 0%Z) then
    banned ← BloomFilter.contains (hash_ip cfg) ip (ip_blacklist_ r);
    if banned : bool then Ret (kernel_close fd r) else
    let '(exceeded, r) := ip_rate_exceeded cfg ip now r in
    if exceeded : bool then
      b ← BloomFilter.add (hash_ip cfg) ip (ip_blacklist_ r);
      Ret (kernel_close fd (set_blacklist b r))
    else Ret (register fd ip add_ok now r)
  else Ret (register fd ip add_ok now r).

(** The accept loop: at most [batch] iterations. *)
Fixpoint accept_loop (cfg : config) (batch : nat) (rs : list accept_result) (now : Z) (r : reactor) : outcome reactor :=
  match batch with
  | O => Ret r
  | S batch' =>
      if decide (max_connections_ cfg ≠ 0 ∧ max_connections_ cfg ≤ size (connections_ r)) then Ret r else
      match rs with
      | [] | AAgain :: _ | AFail :: _ => Ret r
      | AIntr :: rs' => accept_loop cfg batch' rs' now r
      | AConn fd ip add_ok :: rs' =>
          r' ← accept_one cfg fd ip add_ok now r; accept_loop cfg batch' rs' now r'
      end
  end.

Definition kAcceptBatch : nat := 128.
Definition accept_all (cfg : config) (rs : list accept_result) (now : Z) (r : reactor) : outcome reactor :=
  accept_loop cfg kAcceptBatch rs now r.

(** ** Housekeeping *)

Definition idle (cfg : config) (now : Z) (c : Connection) : Prop :=
  (idle_timeout_ cfg < now - last_active c)%Z.

Definition sweep_idle_connections (cfg : config) (now : Z) (r : reactor) : reactor :=
  if decide (idle_timeout_ cfg = 0)%Z then r else
  let to_close := (map_to_list (filter (λ kv, (idle_timeout_ cfg < now - last_active kv.2)%Z) (connections_ r))).*1 in
  foldl (λ r fd, close_connection fd r) r to_close.

Definition sweep_ip_rate (cfg : config) (now : Z) (r : reactor) : reactor :=
  if decide (ip_rate_per_sec_ cfg = 0) then r else
  if decide (now - last_ip_decay_ r < seconds 10)%Z then r else
  let r := set_last_decay now r in
  let r := set_blacklist (BloomFilter.decay 1 (ip_blacklist_ r)) r in
  set_windows (filter (λ kv, ¬ (seconds 2 < now - window_start kv.2)%Z) (ip_connect_windows_ r)) r.

(** The state after construction. *)
Definition init (b : BloomFilter.t) : reactor := mkReactor ∅ ∅ [] [] [] b ∅ 0 ∅.

(** [stop], after the join: every remaining descriptor is closed, and the poller
    goes away with what it watches. *)
Definition stop (r : reactor) : reactor :=
  let fds := (map_to_list (connections_ r)).*1 in
  set_watched ∅ (set_connections ∅ (set_open (open_fds r ∖ list_to_set fds) r)).

(** ** The event loop *)

(** One event of [poller_->wait] with the kernel's answers while it is handled. *)
Inductive loop_event : Type :=
  | OnListen (rs : list accept_result)
  | OnClient (fd mask : Z) (ws : list write_result) (rs : list read_result).

Definition handle_event (cfg : config) (now : Z) (ev : loop_event) (r : reactor) : outcome reactor :=
  match ev with
  | OnListen rs => accept_all cfg rs now r
  | OnClient fd mask ws rs => Ret (on_client_event fd mask ws rs now r)
  end.

Fixpoint handle_events (cfg : config) (now : Z) (evs : list loop_event) (r : reactor) : outcome reactor :=
  match evs with
  | [] => Ret r
  | ev :: evs' => r' ← handle_event cfg now ev r; handle_events cfg now evs' r'
  end.

(** One turn of [loop]: the events, the outbox, the housekeeping. *)
Definition loop_turn (cfg : config) (now : Z) (evs : list loop_event)
    (ios : list (list write_result * list read_result)) (r : reactor) : outcome reactor :=
  r ← handle_events cfg now evs r;
  Ret (sweep_ip_rate cfg now (sweep_idle_connections cfg now (drain_outbox ios now r))).
