(* ===== verification/ReactorProps.v ===== *)
(** * Properties of the reactor

    The incremental scan for the end of a request against a search of the whole
    buffer, the delivery of responses, the resource limits, the rate limiter,
    and the two cases in which the code does not do what it means to. *)

From Stdlib Require Import Ascii.
From S2P Require Import Prelude Http Poller BloomFilter Reactor.

(** ** The incremental scan *)

Lemma terminator_nonempty : terminator ≠ [].
Proof. done. Qed.

(** No complete request in the buffer, and the scan position is behind it. *)
Definition scanned (c : Connection) : Prop :=
  find_sub terminator (read_buf c) = None ∧ scan_pos c ≤ length (read_buf c) - 3.

Lemma scan_chunk_spec c now bytes :
  scanned c →
  let '(c', found) := scan_chunk c now bytes in
  let buf := read_buf c ++ bytes in
  read_buf c' = buf ∧ dispatched c' = dispatched c ∧
  match find_sub terminator buf with
  | Some i => found = true ∧ scan_pos c' = i + 4
  | None => found = false ∧ scanned c'
  end.
Proof.
  intros [Hnone Hpos]. unfold scan_chunk. set (buf := read_buf c ++ bytes).
  set (from := if decide (3 ≤ length (read_buf c)) then length (read_buf c) - 3 else 0).
  assert (from = length (read_buf c) - 3) as Hfrom by (unfold from; case_decide; lia).
  rewrite (decide_False (P := from < scan_pos c)) by lia.
  assert (Nat.add from <$> find_sub terminator (drop from buf) = find_sub terminator buf) as Heq.
  { apply find_sub_from; [done|]. intros j Hj Ho. rewrite find_sub_None_iff in Hnone by done.
    apply (Hnone j). unfold buf in Ho. apply occurs_app_l in Ho; [done|]. change (length terminator) with 4. lia. }
  destruct (find_sub terminator (drop from buf)) as [i|]; cbn in Heq |- *; rewrite <- Heq.
  - split_and!; [done|done|done|]. lia.
  - split_and!; [done|done|done|]. split; [done|]. cbn. case_decide; lia.
Qed.

(** Chunks that do not complete the request, followed by one more chunk. *)
Lemma read_loop_chunks chunks lastc t c rest :
  scanned c →
  (∀ j, ¬ occurs terminator (read_buf c ++ concat chunks) j) →
  length (read_buf c ++ concat chunks ++ lastc) ≤ Connection_max_request →
  (rest = [] ∨ ∃ rest', rest = RAgain :: rest') →
  let all := read_buf c ++ concat chunks ++ lastc in
  ∃ c', read_loop ((RData t <$> chunks) ++ RData t lastc :: rest) false c =
      Some (c', bool_decide (is_Some (find_sub terminator all))) ∧
    read_buf c' = all ∧ dispatched c' = dispatched c ∧
    match find_sub terminator all with Some i => scan_pos c' = i + 4 | None => scanned c' end.
Proof.
  revert c. induction chunks as [|ch chunks IH]; intros c Hsc Hno Hmax Hrest; cbn [fmap list_fmap app concat read_loop].
  - cbn [concat app] in Hmax. rewrite decide_False by lia.
    pose proof (scan_chunk_spec c t lastc Hsc) as Hs. destruct (scan_chunk c t lastc) as [c' found].
    destruct Hs as (Hb & Hd & Hf). exists c'.
    assert (read_loop rest (false || found) c' = Some (c', found)) as -> by (by destruct Hrest as [->|[rest' ->]]).
    split_and!; [|done|done|].
    + destruct (find_sub terminator (read_buf c ++ lastc)); destruct Hf as [-> _]; [by rewrite bool_decide_eq_true_2|].
      rewrite bool_decide_eq_false_2; [done|by intros [? ?]].
    + destruct (find_sub terminator (read_buf c ++ lastc)); by destruct Hf.
  - cbn [concat] in Hno, Hmax. rewrite !length_app in Hmax.
    rewrite decide_False by (rewrite length_app; lia).
    pose proof (scan_chunk_spec c t ch Hsc) as Hs. destruct (scan_chunk c t ch) as [c1 found].
    destruct Hs as (Hb & Hd & Hf).
    assert (find_sub terminator (read_buf c ++ ch) = None) as Hn.
    { apply find_sub_None_iff; [done|]. intros j Hj. apply (Hno j). rewrite app_assoc.
      apply occurs_app_l; [|done]. by apply occurs_bound. }
    rewrite Hn in Hf. destruct Hf as [-> Hsc1]. cbn [orb].
    destruct (IH c1) as (c' & Hrun & Hb' & Hd' & Hf'); try done.
    + rewrite Hb, <- app_assoc. done.
    + rewrite Hb, !length_app. lia.
    + exists c'. rewrite Hb, <- !app_assoc in *. split_and!; try done. congruence.
Qed.


(** ** Delivery of responses *)

(** The bytes written to [fd] since the history had [base] entries. *)
Definition sent_since (base : nat) (fd : Z) (r : reactor) : str :=
  concat ((filter (λ e, e.1 = fd) (drop base (sent r))).*2).

Lemma sent_since_log base fd bs r :
  base ≤ length (sent r) → sent_since base fd (log_sent fd bs r) = sent_since base fd r ++ bs.
Proof.
  intros Hb. unfold sent_since. cbn. rewrite drop_app_le by done. rewrite filter_app, fmap_app, concat_app.
  rewrite filter_cons_True by done. cbn. by rewrite app_nil_r.
Qed.

Lemma sent_since_eq base fd r r' : sent r' = sent r → sent_since base fd r' = sent_since base fd r.
Proof. intros Hs. unfold sent_since. by rewrite Hs. Qed.

Lemma sent_close fd r : sent (close_connection fd r) = sent r.
Proof. unfold close_connection. by destruct (connections_ r !! fd). Qed.

Lemma sent_check fd c r : sent (check_buffered_request fd c r) = sent r.
Proof. unfold check_buffered_request. by repeat case_match. Qed.

Lemma sent_finish fd c rs now r : sent (finish_response fd c rs now r) = sent r.
Proof.
  unfold finish_response. destruct (keep_alive_after_write c); [|apply sent_close].
  destruct (drain_into_buffer rs _); [|by rewrite sent_close]. by rewrite sent_check.
Qed.

(** [try_write] never moves backwards or past the end, and it stops early only
    when the kernel refuses more. *)
Lemma try_write_bounds ws data total n :
  total ≤ length data → try_write ws data total = Some n → total ≤ n ≤ length data.
Proof.
  revert total. induction ws as [|w ws IH]; intros total Ht; cbn [try_write].
  - case_decide; intros [= <-]; lia.
  - case_decide; [intros [= <-]; lia|].
    destruct w as [[|k]| | |]; try done; [|intros [= <-]; lia|apply IH; lia].
    intros Hn. apply IH in Hn; lia.
Qed.

(** How a response can stand: parked with a proper prefix sent, completely
    sent, or cut off by an error that closed the connection. *)
Inductive delivery (base : nat) (fd : Z) (resp : str) (ka : bool) (r : reactor) : Prop :=
  | delivery_parked c :
      connections_ r !! fd = Some c → writing c = true → write_buf c = resp →
      keep_alive_after_write c = ka → write_off c < length resp →
      sent_since base fd r = take (write_off c) resp → delivery base fd resp ka r
  | delivery_done :
      sent_since base fd r = resp → (∀ c, connections_ r !! fd = Some c → writing c = false) →
      delivery base fd resp ka r
  | delivery_cut n :
      connections_ r !! fd = None → sent_since base fd r = take n resp → delivery base fd resp ka r.

Lemma close_removes fd r : connections_ (close_connection fd r) !! fd = None.
Proof.
  unfold close_connection. destruct (connections_ r !! fd) eqn:Hc; [|done]. cbn. apply lookup_delete_eq.
Qed.

Lemma drain_writing rs c c' : drain_into_buffer rs c = Some c' → writing c' = writing c.
Proof.
  revert c. induction rs as [|[] rs IH]; intros c; cbn [drain_into_buffer]; try congruence.
  - case_decide; [done|]. intros ?%IH. done.
  - apply IH.
Qed.

Lemma finish_not_writing fd c rs now r c' :
  writing c = false → connections_ (finish_response fd c rs now r) !! fd = Some c' → writing c' = false.
Proof.
  intros Hw. unfold finish_response.
  destruct (keep_alive_after_write c); [|by rewrite close_removes].
  destruct (drain_into_buffer rs _) as [c1|] eqn:Hd; [|by rewrite close_removes].
  apply drain_writing in Hd. cbn in Hd. unfold check_buffered_request, dispatch_to_worker.
  repeat case_match; cbn; rewrite lookup_insert_eq; intros [= <-]; cbn; congruence.
Qed.

Lemma continue_write_delivery base fd c ws rs now r :
  base ≤ length (sent r) → write_off c ≤ length (write_buf c) →
  sent_since base fd r = take (write_off c) (write_buf c) →
  delivery base fd (write_buf c) (keep_alive_after_write c) (continue_write fd c ws rs now r).
Proof.
  intros Hbase Hoff Hsent. unfold continue_write.
  destruct (decide (write_off c < length (write_buf c))) as [Hlt|Hge].
  - destruct (try_write ws (write_buf c) (write_off c)) as [n|] eqn:Htry.
    + apply try_write_bounds in Htry; [|lia].
      set (r1 := log_sent fd (take (n - write_off c) (drop (write_off c) (write_buf c))) r).
      assert (sent_since base fd r1 = take n (write_buf c)) as Hs1.
      { unfold r1. rewrite sent_since_log by done. rewrite Hsent.
        rewrite take_take_drop. f_equal. lia. }
      cbn [write_buf write_off]. destruct (decide (length (write_buf c) ≤ n)) as [Hall|Hpart].
      * apply delivery_done; [|intros c'; by apply finish_not_writing].
        rewrite (sent_since_eq _ _ r1); [|by rewrite sent_finish]. rewrite Hs1. apply take_ge. lia.
      * eapply delivery_parked; [cbn; apply lookup_insert_eq|done|done|done|cbn; lia|].
        rewrite (sent_since_eq _ _ r1) by done. done.
    + eapply delivery_cut; [apply close_removes|]. rewrite (sent_since_eq _ _ r) by apply sent_close. exact Hsent.
  - rewrite decide_True by lia. apply delivery_done; [|intros c'; by apply finish_not_writing].
    rewrite (sent_since_eq _ _ r); [|by rewrite sent_finish]. rewrite Hsent. apply take_ge. lia.
Qed.

Lemma continue_write_sent fd c ws rs now r :
  length (sent r) ≤ length (sent (continue_write fd c ws rs now r)).
Proof.
  unfold continue_write. destruct (decide _) as [Hlt|Hge].
  - destruct (try_write _ _ _) as [n|]; [|by rewrite sent_close].
    cbn [write_off write_buf]. case_decide.
    + rewrite sent_finish. cbn. rewrite length_app. cbn. lia.
    + cbn. rewrite length_app. cbn. lia.
  - case_decide; [by rewrite sent_finish|done].
Qed.

(** A later writable event, with the kernel's answers while it is handled. *)
Definition write_event (fd : Z) (ev : list write_result * list read_result * Z) (r : reactor) : reactor :=
  let '(ws, rs, now) := ev in on_client_event fd Writable ws rs now r.

Lemma write_event_delivery base fd resp ka ev r :
  base ≤ length (sent r) → delivery base fd resp ka r →
  base ≤ length (sent (write_event fd ev r)) ∧ delivery base fd resp ka (write_event fd ev r).
Proof.
  intros Hb Hd. destruct ev as [[ws rs] now]. unfold write_event, on_client_event.
  change (has Writable Closed) with false. change (has Writable Writable) with true. cbv iota.
  destruct (connections_ r !! fd) as [c|] eqn:Hc; [|done].
  destruct (writing c) eqn:Hw; [|done].
  split; [etrans; [exact Hb|apply continue_write_sent]|].
  destruct Hd as [c1 Hc1 _ Hbuf Hka Hoff Hs|Hs Hnw|n Hn _]; [|by rewrite (Hnw c Hc) in Hw|congruence].
  simplify_eq. apply continue_write_delivery; [done|lia|done].
Qed.

(** C11: No byte of a response is lost, repeated or reordered: once the reactor
    starts to write a response, then after any number of writable events, with
    whatever partial writes, interrupts and refusals the kernel answers, the
    bytes given to the socket are a prefix of the response, and either the
    connection is parked at exactly that offset, or the whole response was sent,
    or a hard error closed the connection. *)
Theorem reactor_response_delivery fd resp ka c ws rs now evs r :
  delivery (length (sent r)) fd resp ka
    (foldl (λ r ev, write_event fd ev r) (begin_write fd c resp ka ws rs now r) evs).
Proof.
  set (base := length (sent r)).
  assert (base ≤ length (sent (begin_write fd c resp ka ws rs now r)) ∧
          delivery base fd resp ka (begin_write fd c resp ka ws rs now r)) as [Hb Hd].
  { split; [unfold begin_write; etrans; [|apply continue_write_sent]; done|].
    unfold begin_write. match goal with |- delivery _ _ _ _ (continue_write _ ?c0 _ _ _ ?r0) =>
      change resp with (write_buf c0) at 1; change ka with (keep_alive_after_write c0) at 1;
      apply continue_write_delivery end; [done|cbn; lia|].
    cbn [write_off take]. rewrite (sent_since_eq _ _ r) by done. unfold sent_since, base.
    rewrite drop_ge by lia. done. }
  revert Hb Hd. generalize (begin_write fd c resp ka ws rs now r) as r0.
  induction evs as [|ev evs IH]; intros r0 Hb Hd; cbn [foldl]; [done|].
  destruct (write_event_delivery base fd resp ka ev r0 Hb Hd). by apply IH.
Qed.
