(* ===== verification/ReactorInv.v ===== *)
(** * The reactor's invariant

    The reactor's operations as the steps of one transition system: what the
    reactor thread does with an event, an accepted descriptor or a handback, and
    what a worker does with a job, in any order.  The invariant bounds every
    connection and says what the incremental scan and the poller rely on. *)

From S2P Require Import Prelude Http Poller BloomFilter Reactor ReactorProps.

(** ** The invariant *)

(** The parts of a connection that reading keeps. *)
Record input_ok (c : Connection) : Prop := mkInputOk {
  ok_size : length (read_buf c) ≤ Connection_max_request;
  ok_scan : scan_pos c ≤ length (read_buf c) - 3;
  ok_idle : dispatched c = false → find_sub terminator (read_buf c) = None
}.

(** The parts that writing keeps. *)
Record output_ok (c : Connection) : Prop := mkOutputOk {
  ok_off : write_off c ≤ length (write_buf c);
  ok_parked : writing c = true → write_off c < length (write_buf c)
}.

Definition conn_ok (c : Connection) : Prop := input_ok c ∧ output_ok c.

(** A usable blacklist. *)
Definition blacklist_ok (b : BloomFilter.t) : Prop :=
  ∃ c, BloomFilter.repr b c ∧ ∀ s, (0 ≤ c s ≤ kCounterMax)%Z.

Section invariant.
Context (cfg : config).

(** Everything but the connection of [hole], which is there but may be in an
    intermediate state. *)
Record rinv_but (hole : Z → Prop) (r : reactor) : Prop := mkRinv {
  ri_conn fd c : connections_ r !! fd = Some c → ¬ hole fd → conn_ok c;
  ri_hole fd : hole fd → is_Some (connections_ r !! fd);
  ri_max : max_connections_ cfg ≠ 0 → size (connections_ r) ≤ max_connections_ cfg;
  ri_outbox : length (outbox_ r) ≤ outbox_slots cfg;
  ri_watched fd : is_Some (watched r !! fd) → is_Some (connections_ r !! fd);
  ri_open fd : is_Some (watched r !! fd) → fd ∈ open_fds r;
  ri_bloom : blacklist_ok (ip_blacklist_ r)
}.

Definition rinv : reactor → Prop := rinv_but (λ _, False).
Definition busy (fd : Z) : reactor → Prop := rinv_but (λ k, k = fd).

(** ** Steps *)

Inductive reactor_step : reactor → reactor → Prop :=
  | step_accept fd ip add_ok now r r' :
      (max_connections_ cfg = 0 ∨ size (connections_ r) < max_connections_ cfg) →
      fd ∉ open_fds r →
      accept_one cfg fd ip add_ok now r = Ret r' → reactor_step r r'
  | step_client fd mask ws rs now r :
      reactor_step r (on_client_event fd mask ws rs now r)
  | step_handback hb rest ws rs now r :
      outbox_ r = hb :: rest →
      reactor_step r (handle_handback hb ws rs now (set_outbox rest r))
  | step_worker l1 fd req l2 r :
      jobs r = l1 ++ (fd, req) :: l2 →
      reactor_step r (worker_task cfg fd req (set_jobs (l1 ++ l2) r))
  | step_sweep_idle now r : reactor_step r (sweep_idle_connections cfg now r)
  | step_sweep_ip now r : reactor_step r (sweep_ip_rate cfg now r).

(** ** One connection at a time *)

Lemma rinv_busy fd c r : rinv r → connections_ r !! fd = Some c → busy fd r.
Proof. intros [] Hc. constructor; try done; [eauto|]. by intros ? ->. Qed.

Lemma busy_put fd c r : busy fd r → busy fd (put_conn fd c r).
Proof.
  intros [Hc Hh Hm Ho Hw Hop Hb]. constructor; cbn; try done.
  - intros k ck. rewrite lookup_insert_Some. intros [[-> _]|[Hne Hk]] Hn; [done|by eapply Hc].
  - intros k ->. rewrite lookup_insert_eq. eauto.
  - by rewrite map_size_insert_Some by (by apply Hh).
  - intros k ?%Hw. destruct (decide (k = fd)) as [->|]; [rewrite lookup_insert_eq; eauto|].
    by rewrite lookup_insert_ne.
Qed.

Lemma busy_fill fd c r : busy fd r → connections_ r !! fd = Some c → conn_ok c → rinv r.
Proof.
  intros [Hc Hh Hm Ho Hw Hop Hb] Hfd Hok. constructor; try done.
  intros k ck Hk _. destruct (decide (k = fd)) as [->|]; [by simplify_eq|by eapply Hc].
Qed.

Lemma busy_put_fill fd c r : busy fd r → conn_ok c → rinv (put_conn fd c r).
Proof. intros Hr Hok. eapply busy_fill; [by apply busy_put|apply lookup_insert_eq|done]. Qed.

Lemma busy_close fd r : busy fd r → rinv (close_connection fd r).
Proof.
  intros [Hc Hh Hm Ho Hw Hop Hb]. destruct (Hh fd eq_refl) as [c0 Hc0].
  unfold close_connection, watch_del. rewrite Hc0. constructor; cbn; try done.
  - intros k ck [Hne Hk]%lookup_delete_Some _. by eapply Hc.
  - intros Hmax. rewrite map_size_delete_Some by eauto. specialize (Hm Hmax). lia.
  - intros k. rewrite lookup_delete_is_Some. intros [Hne Hk]. rewrite lookup_delete_ne by done. eauto.
  - intros k. rewrite lookup_delete_is_Some. intros [Hne Hk]. specialize (Hop k Hk). set_solver.
Qed.

Lemma rinv_close fd r : rinv r → rinv (close_connection fd r).
Proof.
  intros Hr. destruct (connections_ r !! fd) as [c|] eqn:Hc; [|unfold close_connection; by rewrite Hc].
  eapply busy_close, rinv_busy; done.
Qed.

Lemma watch_mod_some fd m ud i k : is_Some (watch_mod fd m ud i !! k) ↔ is_Some (i !! k).
Proof.
  unfold watch_mod. case_decide as Hd; [|done].
  destruct (decide (k = fd)) as [->|]; [rewrite lookup_insert_eq; naive_solver|by rewrite lookup_insert_ne].
Qed.

Lemma but_mod H fd m ud r : rinv_but H r → rinv_but H (set_watched (watch_mod fd m ud (watched r)) r).
Proof.
  intros []. constructor; cbn; try done; intros k; rewrite watch_mod_some; eauto.
Qed.

Lemma but_log H fd bs r : rinv_but H r → rinv_but H (log_sent fd bs r).
Proof. intros []. by constructor. Qed.

Lemma but_jobs H js r : rinv_but H r → rinv_but H (set_jobs js r).
Proof. intros []. by constructor. Qed.

(** Updates that keep the invariant around the connection in use. *)
Ltac keep_busy := repeat first [assumption | apply busy_put | apply but_mod | apply but_log | apply but_jobs].

(** ** Reading *)

Lemma busy_dispatch fd c r :
  busy fd r → length (read_buf c) ≤ Connection_max_request → output_ok c →
  rinv (dispatch_to_worker fd c r).
Proof.
  intros Hr Hs [Ho Hp]. unfold dispatch_to_worker. apply but_jobs, busy_put_fill; [done|].
  split; constructor; cbn; try done; [|lia]. rewrite length_drop. lia.
Qed.

Lemma scan_chunk_ok c now bytes c' found :
  scan_chunk c now bytes = (c', found) →
  length (read_buf c ++ bytes) ≤ Connection_max_request →
  (length (read_buf c') ≤ Connection_max_request) ∧ (output_ok c → output_ok c').
Proof.
  unfold scan_chunk. intros Heq Hl.
  destruct (find_sub terminator (drop _ _)); injection Heq as <- <-; (split; [done|]);
    intros [Ho Hp]; by constructor.
Qed.

Lemma read_loop_ok rs got c c' got' :
  read_loop rs got c = Some (c', got') →
  length (read_buf c) ≤ Connection_max_request → output_ok c → (got = false → scanned c) →
  length (read_buf c') ≤ Connection_max_request ∧ output_ok c' ∧ (got' = false → scanned c').
Proof.
  revert got c. induction rs as [|[now bytes| | | |] rs IH]; intros got c; cbn [read_loop]; try done.
  - intros [= <- <-]. done.
  - destruct (decide _) as [|Hl]; [done|]. destruct (scan_chunk c now bytes) as [c1 found] eqn:Hs.
    intros Hrun Hsz Ho Hsc. destruct (scan_chunk_ok _ _ _ _ _ Hs) as [Hsz1 Ho1]; [lia|].
    eapply IH; [exact Hrun|done|auto|]. intros [-> ->]%orb_false_iff.
    pose proof (scan_chunk_spec c now bytes (Hsc eq_refl)) as Hspec. rewrite Hs in Hspec.
    destruct Hspec as (_ & _ & Hf). destruct (find_sub _ _); naive_solver.
  - intros [= <- <-]. done.
  - apply IH.
Qed.

Lemma drain_ok rs c c' :
  drain_into_buffer rs c = Some c' →
  length (read_buf c) ≤ Connection_max_request → scan_pos c ≤ length (read_buf c) - 3 → output_ok c →
  length (read_buf c') ≤ Connection_max_request ∧ scan_pos c' ≤ length (read_buf c') - 3 ∧
  output_ok c' ∧ dispatched c' = dispatched c.
Proof.
  revert c. induction rs as [|[now bytes| | | |] rs IH]; intros c; cbn [drain_into_buffer]; try done.
  - intros [= <-]. done.
  - destruct (decide _) as [|Hl]; [done|]. intros Hrun Hsz Hsc [Ho Hp].
    eapply IH in Hrun; [exact Hrun|cbn; lia|cbn; rewrite length_app; lia|by constructor].
  - intros [= <-]. done.
  - apply IH.
Qed.

Lemma short_no_terminator l : length l < 4 → find_sub terminator l = None.
Proof.
  intros Hl. apply find_sub_None_iff; [done|]. intros j Ho.
  apply occurs_bound in Ho; [|done]. change (length terminator) with 4 in Ho. lia.
Qed.

Lemma busy_check fd c r :
  busy fd r → connections_ r !! fd = Some c → dispatched c = false →
  length (read_buf c) ≤ Connection_max_request → scan_pos c ≤ length (read_buf c) - 3 → output_ok c →
  rinv (check_buffered_request fd c r).
Proof.
  intros Hr Hc Hd Hsz Hsc Ho. unfold check_buffered_request. rewrite Hd.
  assert (find_sub terminator (read_buf c) = None → rinv r) as Hnone.
  { intros Hn. eapply busy_fill; [done..|]. by split. }
  destruct (decide _) as [Hl|Hl]; [by apply Hnone, short_no_terminator|].
  destruct (find_sub terminator (read_buf c)) as [i|]; [|by apply Hnone].
  apply busy_dispatch; [done..|]. destruct Ho. by constructor.
Qed.

(** ** Writing *)

Lemma busy_finish fd c rs now r :
  busy fd r → input_ok c → output_ok c → rinv (finish_response fd c rs now r).
Proof.
  intros Hr [Hsz Hsc _] [Ho Hp]. unfold finish_response.
  destruct (keep_alive_after_write c); [|by apply busy_close].
  destruct (drain_into_buffer rs _) as [c'|] eqn:Hd.
  - eapply drain_ok in Hd as (Hsz' & Hsc' & Ho' & Hd'); [|done|done|by constructor].
    eapply busy_check; [keep_busy|cbn; apply lookup_insert_eq|done..].
  - apply busy_close. keep_busy.
Qed.

Lemma busy_continue fd c ws rs now r :
  busy fd r → input_ok c → write_off c ≤ length (write_buf c) →
  rinv (continue_write fd c ws rs now r).
Proof.
  intros Hr [Hsz Hsc Hid] Ho. unfold continue_write.
  destruct (decide (write_off c < length (write_buf c))) as [Hlt|Hge].
  - destruct (try_write ws (write_buf c) (write_off c)) as [n|] eqn:Ht; [|by apply busy_close].
    apply try_write_bounds in Ht; [|done]. cbn [write_off write_buf].
    destruct (decide (length (write_buf c) ≤ n)) as [Hall|Hpart].
    + apply busy_finish; [keep_busy|by constructor|by constructor].
    + apply but_mod, busy_put_fill; [keep_busy|]. split; constructor; cbn; try done; lia.
  - rewrite decide_True by lia. apply busy_finish; [keep_busy|by constructor|by constructor].
Qed.

Lemma rinv_handback hb ws rs now r : rinv r → rinv (handle_handback hb ws rs now r).
Proof.
  intros Hr. unfold handle_handback. destruct (connections_ r !! hb_fd hb) as [c|] eqn:Hc; [|done].
  destruct (_ && _); [by apply rinv_close|]. unfold begin_write.
  destruct (ri_conn _ _ Hr _ _ Hc) as [[Hsz Hsc Hid] _]; [by intros []|].
  apply busy_continue; [by eapply busy_put, rinv_busy|by constructor|cbn; lia].
Qed.

Lemma rinv_client fd mask ws rs now r : rinv r → rinv (on_client_event fd mask ws rs now r).
Proof.
  intros Hr. unfold on_client_event. destruct (has mask Closed); [by apply rinv_close|].
  destruct (connections_ r !! fd) as [c|] eqn:Hc; [|by repeat case_match].
  pose proof (rinv_busy _ _ _ Hr Hc) as Hbusy.
  destruct (ri_conn _ _ Hr _ _ Hc) as [[Hsz Hsc Hid] [Ho Hp]]; [by intros []|].
  destruct (has mask Writable).
  { destruct (writing c); [|done]. by apply busy_continue. }
  destruct (has mask Readable); [|done]. cbn [negb]. destruct (dispatched c) eqn:Hd; [done|].
  destruct (read_loop rs false c) as [[c' got]|] eqn:Hrun; [|by apply rinv_close].
  apply read_loop_ok in Hrun as (Hsz' & Ho' & Hsc'); [|done|done|by split; auto].
  destruct got; [apply busy_dispatch; [keep_busy|done..]|].
  destruct (Hsc' eq_refl) as [Hn Hpos]. apply busy_put_fill; [done|]. by split.
Qed.

(** ** Workers, accepts, housekeeping *)

Lemma but_outbox H o r :
  rinv_but H r → length o ≤ outbox_slots cfg → rinv_but H (set_outbox o r).
Proof. intros [] Ho. by constructor. Qed.

Lemma rinv_worker fd req r : rinv r → rinv (worker_task cfg fd req r).
Proof.
  intros Hr. unfold worker_task. destruct (decide _) as [Hl|_].
  - apply but_outbox; [done|]. rewrite length_app. cbn. lia.
  - destruct Hr as [Hc Hh Hm Ho Hw Hop Hb]. constructor; cbn; try done; unfold watch_del;
      intros k [Hne Hk]%lookup_delete_is_Some; [by apply Hw|]. specialize (Hop k Hk). set_solver.
Qed.

Lemma blacklist_add ip b :
  blacklist_ok b → ∃ b', BloomFilter.add (hash_ip cfg) ip b = Ret b' ∧ blacklist_ok b' ∧
    BloomFilter.contains (hash_ip cfg) ip b' = Ret true ∧
    (∀ ip', BloomFilter.contains (hash_ip cfg) ip' b = Ret true →
            BloomFilter.contains (hash_ip cfg) ip' b' = Ret true).
Proof.
  intros (c & Hb & Hr).
  destruct (bloom_run_refines (hash_ip cfg) [BAdd ip] b c) as (b' & Hrun & Hb' & [Hm Hk]);
    [by repeat constructor|done|].
  cbn in Hrun, Hb'. exists b'.
  assert (BloomFilter.add (hash_ip cfg) ip b = Ret b') as ->.
  { destruct (BloomFilter.add _ _ _); cbn in Hrun; by simplify_eq. }
  assert (∀ x b c, BloomFilter.repr b c → BloomFilter.contains (hash_ip cfg) x b =
    Ret (BloomSpec.contains (hash_ip cfg) (BloomFilter.num_slots_ b) (BloomFilter.num_hashes_ b) x c)) as Hcont.
  { intros x b0 c0 Hb0. unfold BloomFilter.contains.
    by rewrite (BloomFilter.contains_loop_ok _ b0 c0) by (done || by apply BloomFilter.probed_range, Hb0). }
  split_and!; [done| | |].
  - eexists. split; [exact Hb'|].
    apply (spec_run_range (hash_ip cfg) (BloomFilter.num_slots_ b) (BloomFilter.num_hashes_ b) [BAdd ip] c);
      [by repeat constructor|done].
  - rewrite (Hcont _ _ _ Hb'), Hm, Hk. f_equal. by apply spec_add_present.
  - intros ip'. rewrite (Hcont _ _ _ Hb), (Hcont _ _ _ Hb'), Hm, Hk. intros [= Hx]. f_equal.
    by apply (spec_adds_keep _ _ _ ip' c [ip]).
Qed.

Lemma blacklist_contains ip b :
  blacklist_ok b → ∃ v, BloomFilter.contains (hash_ip cfg) ip b = Ret v.
Proof.
  intros (c & Hb & _). eexists. unfold BloomFilter.contains.
  by rewrite (BloomFilter.contains_loop_ok _ b c) by (done || by apply BloomFilter.probed_range, Hb).
Qed.

Lemma blacklist_decay b : blacklist_ok b → blacklist_ok (BloomFilter.decay 1 b).
Proof.
  intros (c & Hb & Hr). eexists. split; [by apply BloomFilter.decay_ok|].
  intros s. specialize (Hr s). unfold BloomSpec.decay, kCounterMax in *.
  rewrite Z.shiftr_div_pow2 by done. change (2 ^ 1)%Z with 2%Z. Z.to_euclidean_division_equations. lia.
Qed.

Lemma rinv_opened fd r : rinv r → rinv (set_open ({[fd]} ∪ open_fds r) r).
Proof. intros []. constructor; cbn; try done. intros k Hk. apply elem_of_union_r. auto. Qed.

(** An unwatched descriptor is closed. *)
Lemma rinv_kernel_close fd r : rinv r → watched r !! fd = None → rinv (kernel_close fd r).
Proof.
  intros [Hc Hh Hm Ho Hw Hop Hb] Hn. constructor; cbn; try done. intros k Hk.
  apply elem_of_difference. split; [auto|]. intros ->%elem_of_singleton. rewrite Hn in Hk. by destruct Hk.
Qed.

Lemma rinv_emplace fd c r :
  rinv r → connections_ r !! fd = None → conn_ok c →
  (max_connections_ cfg = 0 ∨ size (connections_ r) < max_connections_ cfg) → rinv (put_conn fd c r).
Proof.
  intros [Hc Hh Hm Ho Hw Hop Hb] Hn Hok Hmax. constructor; cbn; try done.
  - intros k ck [[<- <-]|[Hne Hk]]%lookup_insert_Some _; [done|]. eapply Hc; [done|by intros []].
  - intros Hne. rewrite map_size_insert_None by done. lia.
  - intros k Hk. apply lookup_insert_is_Some'. auto.
Qed.

Lemma rinv_watch fd m ud r :
  rinv r → is_Some (connections_ r !! fd) → fd ∈ open_fds r → rinv (set_watched (watch_add fd m ud (watched r)) r).
Proof.
  intros [Hc Hh Hm Ho Hw Hop Hb] Hs Hf. unfold watch_add.
  constructor; cbn; try done; intros k [<-|Hk]%lookup_insert_is_Some'; auto.
Qed.

Lemma rinv_forget fd r :
  rinv r → watched r !! fd = None → rinv (set_connections (delete fd (connections_ r)) r).
Proof.
  intros [Hc Hh Hm Ho Hw Hop Hb] Hn. constructor; cbn; try done.
  - intros k ck [Hne Hk]%lookup_delete_Some _. eapply Hc; [done|by intros []].
  - intros Hne. rewrite map_size_delete. specialize (Hm Hne). destruct (connections_ r !! fd); cbn; lia.
  - intros k Hk. rewrite lookup_delete_ne; [auto|]. intros ->. rewrite Hn in Hk. by destruct Hk.
Qed.

Lemma new_connection_ok ip now : conn_ok (new_connection ip now).
Proof. split; constructor; cbn; try done; unfold Connection_max_request; lia. Qed.

Lemma rinv_register fd ip add_ok now r :
  rinv r → watched r !! fd = None → fd ∈ open_fds r →
  (max_connections_ cfg = 0 ∨ size (connections_ r) < max_connections_ cfg) →
  rinv (register fd ip add_ok now r).
Proof.
  intros Hr Hn Hf Hmax. unfold register.
  set (r1 := match connections_ r !! fd with Some _ => r | None => _ end).
  assert (rinv r1 ∧ watched r1 = watched r ∧ open_fds r1 = open_fds r ∧ is_Some (connections_ r1 !! fd))
    as (Hr1 & Hw1 & Ho1 & Hs1).
  { unfold r1. destruct (connections_ r !! fd) eqn:Hc; [by rewrite Hc|]. split_and!; [|done|done|].
    - apply rinv_emplace; [done..|apply new_connection_ok|done].
    - cbn. rewrite lookup_insert_eq. eauto. }
  clearbody r1. destruct add_ok.
  - apply rinv_watch; [done..|]. by rewrite Ho1.
  - apply (rinv_forget fd (kernel_close fd r1)); [|by cbn; rewrite Hw1]. apply rinv_kernel_close; [done|by rewrite Hw1].
Qed.

Lemma not_open_not_watched fd r : rinv r → fd ∉ open_fds r → watched r !! fd = None.
Proof.
  intros Hr Hf. destruct (watched r !! fd) eqn:Hx; [|done]. destruct Hf. apply (ri_open _ _ Hr). eauto.
Qed.

Lemma but_windows H w r : rinv_but H r → rinv_but H (set_windows w r).
Proof. intros []. by constructor. Qed.

Lemma but_blacklist H b r : rinv_but H r → blacklist_ok b → rinv_but H (set_blacklist b r).
Proof. intros [] Hb. by constructor. Qed.

Lemma rinv_accept fd ip add_ok now r :
  rinv r → fd ∉ open_fds r →
  (max_connections_ cfg = 0 ∨ size (connections_ r) < max_connections_ cfg) →
  ∃ r', accept_one cfg fd ip add_ok now r = Ret r' ∧ rinv r'.
Proof.
  intros Hr Hf Hmax. pose proof (not_open_not_watched _ _ Hr Hf) as Hn.
  pose proof (rinv_opened fd r Hr) as Hr0. unfold accept_one.
  assert (fd ∈ {[fd]} ∪ open_fds r) as Hin by set_solver.
  destruct (decide _) as [_|_]; [|eexists; split; [done|by apply rinv_register]].
  destruct (blacklist_contains ip (ip_blacklist_ r)) as [banned Hb]; [apply Hr|].
  cbn [ip_blacklist_ set_open]. rewrite Hb. cbn [mbind outcome_bind].
  destruct banned; [eexists; split; [done|by apply rinv_kernel_close]|].
  destruct (ip_rate_exceeded cfg ip now _) as [exceeded r1] eqn:Hx.
  unfold ip_rate_exceeded in Hx. injection Hx as <- <-. cbn [ip_blacklist_ set_windows set_open].
  destruct (bool_decide _).
  - destruct (blacklist_add ip (ip_blacklist_ r)) as (b' & -> & Hb' & _); [apply Hr|]. cbn.
    eexists; split; [done|]. apply rinv_kernel_close; [|done]. by apply but_blacklist, Hb'; apply but_windows.
  - eexists; split; [done|]. apply rinv_register; try done. by apply but_windows.
Qed.

Lemma accept_blacklist fd ip add_ok now r r' :
  blacklist_ok (ip_blacklist_ r) → accept_one cfg fd ip add_ok now r = Ret r' → blacklist_ok (ip_blacklist_ r').
Proof.
  intros Hok. unfold accept_one, register, ip_rate_exceeded.
  destruct (decide _); [|intros [= <-]; by repeat case_match].
  cbn [ip_blacklist_ set_open]. destruct (BloomFilter.contains _ _ _) as [[]|]; cbn [mbind outcome_bind]; try done; [by intros [= <-]|].
  destruct (bool_decide _).
  - cbn [ip_blacklist_ set_open set_windows]. destruct (blacklist_add ip (ip_blacklist_ r) Hok) as (b & -> & ? & _).
    by intros [= <-].
  - intros [= <-]. by repeat case_match.
Qed.

Lemma rinv_sweep_idle now r : rinv r → rinv (sweep_idle_connections cfg now r).
Proof.
  intros Hr. unfold sweep_idle_connections. case_decide; [done|].
  generalize (map_to_list (filter (λ kv, (idle_timeout_ cfg < now - last_active kv.2)%Z) (connections_ r))).*1.
  intros l. revert r Hr. induction l as [|fd l IH]; intros r Hr; cbn; [done|]. by apply IH, rinv_close.
Qed.

Lemma rinv_sweep_ip now r : rinv r → rinv (sweep_ip_rate cfg now r).
Proof.
  intros Hr. unfold sweep_ip_rate. repeat case_decide; [done..|].
  apply but_windows. destruct Hr as [? ? ? ? ? ? Hb]. constructor; cbn; try done. by apply blacklist_decay.
Qed.

(** Every step of the reactor and its workers keeps the invariant. *)
Lemma reactor_step_inv r r' : rinv r → reactor_step r r' → rinv r'.
Proof.
  intros Hr Hs. inversion Hs; subst.
  - destruct (rinv_accept fd ip add_ok now r) as (r1 & Heq & Hr1); [done..|]. congruence.
  - by apply rinv_client.
  - apply rinv_handback, but_outbox; [done|]. pose proof (ri_outbox _ _ Hr) as Ho.
    rewrite H in Ho. cbn in Ho. lia.
  - by apply rinv_worker, but_jobs.
  - by apply rinv_sweep_idle.
  - by apply rinv_sweep_ip.
Qed.

Lemma rinv_init b : blacklist_ok b → rinv (init b).
Proof.
  intros Hb. constructor; cbn; try done; try lia.
  - rewrite map_size_empty. lia.
  - intros fd [? []%lookup_empty_Some].
  - intros fd [? []%lookup_empty_Some].
Qed.

(** ** Turns of the loop are sequences of steps *)

(** The kernel's side of [accept]: a new descriptor is not one that is open. *)
Fixpoint accepts_fresh (batch : nat) (rs : list accept_result) (now : Z) (r : reactor) : Prop :=
  match batch, rs with
  | S batch', AIntr :: rs' => accepts_fresh batch' rs' now r
  | S batch', AConn fd ip add_ok :: rs' =>
      fd ∉ open_fds r ∧
      ∀ r', accept_one cfg fd ip add_ok now r = Ret r' → accepts_fresh batch' rs' now r'
  | _, _ => True
  end.

Definition event_fresh (now : Z) (ev : loop_event) (r : reactor) : Prop :=
  match ev with
  | OnListen rs => accepts_fresh kAcceptBatch rs now r
  | OnClient _ _ _ _ => True
  end.

Fixpoint events_fresh (now : Z) (evs : list loop_event) (r : reactor) : Prop :=
  match evs with
  | [] => True
  | ev :: evs' => event_fresh now ev r ∧ ∀ r', handle_event cfg now ev r = Ret r' → events_fresh now evs' r'
  end.

Lemma accept_loop_steps batch rs now r :
  rinv r → accepts_fresh batch rs now r →
  ∃ r', accept_loop cfg batch rs now r = Ret r' ∧ rtc reactor_step r r'.
Proof.
  revert rs r. induction batch as [|batch IH]; intros rs r Hr Hf; cbn [accept_loop]; [by exists r|].
  destruct (decide _) as [|Hmax]; [by exists r|].
  destruct rs as [|[fd ip add_ok| | |] rs]; [by exists r| |by exists r| |by exists r].
  - destruct Hf as [Hfd Hf].
    assert (max_connections_ cfg = 0 ∨ size (connections_ r) < max_connections_ cfg) as Hm by lia.
    destruct (rinv_accept fd ip add_ok now r Hr Hfd Hm) as (r1 & Hacc & Hr1).
    rewrite Hacc. cbn [mbind outcome_bind]. destruct (IH rs r1 Hr1 (Hf r1 Hacc)) as (r' & -> & Hrtc).
    exists r'. split; [done|]. eapply rtc_l; [|exact Hrtc]. by eapply step_accept.
  - by apply IH.
Qed.

Lemma reachable_rinv r r' : rinv r → rtc reactor_step r r' → rinv r'.
Proof. intros Hr. induction 1; [done|]. eauto using reactor_step_inv. Qed.

#[local] Opaque kAcceptBatch.
Lemma handle_events_steps now evs r :
  rinv r → events_fresh now evs r →
  ∃ r', handle_events cfg now evs r = Ret r' ∧ rtc reactor_step r r'.
Proof.
  revert r. induction evs as [|ev evs IH]; intros r Hr Hf; cbn [handle_events]; [by exists r|].
  destruct Hf as [Hev Hf].
  assert (∃ r1, handle_event cfg now ev r = Ret r1 ∧ rtc reactor_step r r1) as (r1 & Heq & Hrtc1).
  { destruct ev as [rs|fd mask ws rs]; unfold handle_event, event_fresh, accept_all in *; [by apply accept_loop_steps|].
    eexists. split; [reflexivity|]. apply rtc_once, step_client. }
  rewrite Heq. cbn [mbind outcome_bind].
  destruct (IH r1) as (r' & -> & Hrtc); [by eapply reachable_rinv|by apply Hf|].
  exists r'. split; [done|]. by etrans.
Qed.

(** Which part of the state the handling of a connection leaves alone. *)
Definition same_rest (r r' : reactor) : Prop :=
  outbox_ r' = outbox_ r ∧ ip_blacklist_ r' = ip_blacklist_ r ∧
  ip_connect_windows_ r' = ip_connect_windows_ r ∧ last_ip_decay_ r' = last_ip_decay_ r.

Lemma same_rest_trans r1 r2 r3 : same_rest r1 r2 → same_rest r2 r3 → same_rest r1 r3.
Proof. unfold same_rest. intuition congruence. Qed.

Lemma same_rest_close fd r : same_rest r (close_connection fd r).
Proof. unfold close_connection. by destruct (connections_ r !! fd). Qed.

Lemma same_rest_finish fd c rs now r : same_rest r (finish_response fd c rs now r).
Proof.
  unfold finish_response. destruct (keep_alive_after_write c); [|apply same_rest_close].
  destruct (drain_into_buffer rs _); [|eapply same_rest_trans; [|apply same_rest_close]; done].
  unfold check_buffered_request. by repeat case_match.
Qed.

Lemma same_rest_continue fd c ws rs now r : same_rest r (continue_write fd c ws rs now r).
Proof.
  unfold continue_write. destruct (decide _).
  - destruct (try_write _ _ _); [|apply same_rest_close].
    case_decide; [|done]. eapply same_rest_trans; [|apply same_rest_finish]. done.
  - case_decide; [|done]. eapply same_rest_trans; [|apply same_rest_finish]. done.
Qed.

Lemma same_rest_handback hb ws rs now r : same_rest r (handle_handback hb ws rs now r).
Proof.
  unfold handle_handback. destruct (connections_ r !! hb_fd hb); [|done].
  destruct (_ && _); [apply same_rest_close|]. unfold begin_write.
  eapply same_rest_trans; [|apply same_rest_continue]. done.
Qed.

Lemma same_rest_client fd mask ws rs now r : same_rest r (on_client_event fd mask ws rs now r).
Proof.
  unfold on_client_event. destruct (has mask Closed); [apply same_rest_close|].
  destruct (connections_ r !! fd) as [c|]; [|by repeat case_match].
  destruct (has mask Writable); [destruct (writing c); [apply same_rest_continue|done]|].
  destruct (negb _); [done|]. destruct (dispatched c); [done|].
  destruct (read_loop rs false c) as [[c' []]|]; [done|done|apply same_rest_close].
Qed.

Lemma same_rest_sweep now r : same_rest r (sweep_idle_connections cfg now r).
Proof.
  unfold sweep_idle_connections. case_decide; [done|].
  generalize (map_to_list (filter (λ kv, (idle_timeout_ cfg < now - last_active kv.2)%Z) (connections_ r))).*1.
  intros l. revert r. induction l as [|fd l IH]; intros r; cbn; [done|].
  eapply same_rest_trans; [apply same_rest_close|apply IH].
Qed.

Lemma drain_steps hbs ios now r :
  outbox_ r = hbs → rtc reactor_step r (drain_loop hbs ios now r).
Proof.
  revert ios r. induction hbs as [|hb hbs IH]; intros ios r Ho; cbn [drain_loop]; [done|].
  destruct (default ([], []) (head ios)) as [ws rs].
  eapply rtc_l; [by eapply step_handback|]. apply IH.
  by destruct (same_rest_handback hb ws rs now (set_outbox hbs r)) as [-> _].
Qed.

(** A turn of the event loop always completes, and it is a sequence of the
    steps above: with any batch of events, any results of [read], [write] and
    [accept] that respect the kernel's promise not to reuse an open descriptor,
    no operation of the turn is undefined, and what the turn does is what the
    handlers do one after the other. *)
Theorem reactor_loop_turn now evs ios r :
  rinv r → events_fresh now evs r →
  ∃ r', loop_turn cfg now evs ios r = Ret r' ∧ rtc reactor_step r r' ∧ rinv r'.
Proof.
  intros Hr Hf. unfold loop_turn.
  destruct (handle_events_steps now evs r Hr Hf) as (r1 & -> & Hrtc). cbn [mbind outcome_bind].
  eexists. split; [done|].
  assert (rtc reactor_step r (sweep_ip_rate cfg now (sweep_idle_connections cfg now (drain_outbox ios now r1)))) as Hall.
  { etrans; [exact Hrtc|]. etrans; [by apply drain_steps|].
    eapply rtc_l; [apply step_sweep_idle|]. apply rtc_once, step_sweep_ip. }
  split; [exact Hall|by eapply reachable_rinv].
Qed.

(** C9: The reactor's resource limits and the facts its code relies on hold in
    every state that its events, its workers and its housekeeping can reach, in
    any order: no read buffer exceeds 64 KiB, no write offset passes the end of
    its response and a parked write has bytes left, there are never more
    connections than configured and never more handbacks than the outbox has
    slots, a connection that waits for input has no complete request buffered and
    its scan position is behind the last three bytes, and the poller only watches
    descriptors that are open and have a connection. *)
Theorem reactor_invariant m_d k_d r :
  rtc reactor_step (init (BloomFilter.CountingBloomFilter m_d k_d)) r → rinv r.
Proof.
  apply reachable_rinv, rinv_init. exists BloomSpec.empty.
  split; [apply BloomFilter.ctor_ok|]. unfold BloomSpec.empty, kCounterMax. lia.
Qed.
End invariant.
