(* ===== verification/ReactorLimits.v ===== *)
(** * The reactor's defences, and what goes wrong when descriptors are reused

    The idle sweep, the per-address rate limit and its blacklist, and three
    concrete runs in which the reactor does not do what it means to. *)

From Stdlib Require Import Ascii.
From S2P Require Import Prelude Http Poller BloomFilter Reactor ReactorProps ReactorInv.

(** ** The idle sweep *)

Lemma close_lookup fd r k :
  connections_ (close_connection fd r) !! k = if decide (k = fd) then None else connections_ r !! k.
Proof.
  unfold close_connection. destruct (connections_ r !! fd) as [c|] eqn:Hc; cbn.
  - case_decide as Hk; [subst; apply lookup_delete_eq|]. by apply lookup_delete_ne.
  - case_decide; [by subst|done].
Qed.

(** Closing a list of descriptors. *)
Definition close_all (l : list Z) (r : reactor) : reactor := foldl (λ r fd, close_connection fd r) r l.

Lemma close_all_lookup l r k :
  connections_ (close_all l r) !! k = if decide (k ∈ l) then None else connections_ r !! k.
Proof.
  revert r. induction l as [|fd l IH]; intros r; [done|]. change (close_all (fd :: l) r) with (close_all l (close_connection fd r)).
  rewrite IH, close_lookup. destruct (decide (k ∈ l)), (decide (k = fd)), (decide (k ∈ fd :: l)); set_solver.
Qed.

Definition released (k : Z) (r : reactor) : Prop := watched r !! k = None ∧ k ∉ open_fds r.

Lemma close_released fd k r : released k r → released k (close_connection fd r).
Proof.
  intros [Hw Ho]. unfold close_connection, released, watch_del. destruct (connections_ r !! fd); [|done]. cbn.
  split; [by apply lookup_delete_None; right|set_solver].
Qed.

Lemma close_all_released l r k :
  released k r ∨ (k ∈ l ∧ is_Some (connections_ r !! k)) → released k (close_all l r).
Proof.
  revert r. induction l as [|fd l IH]; intros r Hk; [destruct Hk as [?|[?%not_elem_of_nil ?]]; done|].
  change (close_all (fd :: l) r) with (close_all l (close_connection fd r)). apply IH.
  destruct Hk as [Hk|[Hk [c Hc]]]; [left; by apply close_released|].
  destruct (decide (k = fd)) as [->|Hne].
  - left. unfold close_connection, released, watch_del. rewrite Hc. cbn.
    split; [apply lookup_delete_eq|set_solver].
  - right. rewrite close_lookup, decide_False by done. split; [set_solver|eauto].
Qed.

(** The idle sweep closes exactly the connections that were inactive for
    longer than the timeout: afterwards the table holds the others, unchanged,
    and every connection that was dropped is neither watched nor open. *)
Theorem reactor_idle_sweep cfg now r :
  idle_timeout_ cfg ≠ 0%Z →
  let r' := sweep_idle_connections cfg now r in
  (∀ fd c, connections_ r' !! fd = Some c ↔
     connections_ r !! fd = Some c ∧ (now - last_active c ≤ idle_timeout_ cfg)%Z) ∧
  (∀ fd c, connections_ r !! fd = Some c → idle cfg now c → released fd r').
Proof.
  intros Hne r'. unfold r', sweep_idle_connections. rewrite decide_False by done.
  set (l := (map_to_list _).*1).
  assert (∀ fd, fd ∈ l ↔ ∃ c, connections_ r !! fd = Some c ∧ idle cfg now c) as Hl.
  { intros fd. unfold l. rewrite list_elem_of_fmap. split.
    - intros ([k c] & -> & [Hk Hi]%elem_of_map_to_list%map_lookup_filter_Some). by exists c.
    - intros (c & Hc & Hi). exists (fd, c). split; [done|].
      apply elem_of_map_to_list, map_lookup_filter_Some. done. }
  split.
  - intros fd c. change (foldl _ r l) with (close_all l r). rewrite close_all_lookup.
    destruct (decide (fd ∈ l)) as [Hin|Hout].
    + split; [done|]. intros [Hc Hi]. apply Hl in Hin as (c' & Hc' & Hi'). unfold idle in Hi'. simplify_eq. lia.
    + split; [|by intros []]. intros Hc. split; [done|].
      destruct (decide (now - last_active c ≤ idle_timeout_ cfg)%Z); [done|].
      destruct Hout. apply Hl. exists c. split; [done|]. unfold idle. lia.
  - intros fd c Hc Hi. apply close_all_released. right. split; [|eauto]. apply Hl. eauto.
Qed.

(** ** The rate limit *)

Section rate.
Context (cfg : config) (ip now : Z).

Definition window_of (r : reactor) : RateWindow := default (mkWindow 0 0) (ip_connect_windows_ r !! ip).

(** The number of connections that count against the current window. *)
Definition window_count (r : reactor) : nat :=
  if decide (seconds 1 ≤ now - window_start (window_of r))%Z then 0 else count (window_of r).

Definition banned (r : reactor) : Prop := BloomFilter.contains (hash_ip cfg) ip (ip_blacklist_ r) = Ret true.
Definition allowed (r : reactor) : Prop := BloomFilter.contains (hash_ip cfg) ip (ip_blacklist_ r) = Ret false.

Lemma window_of_set w r : window_of (set_windows (<[ip := w]> (ip_connect_windows_ r)) r) = w.
Proof. unfold window_of. cbn. by rewrite lookup_insert_eq. Qed.

Lemma rate_counts r :
  ∃ r', ip_rate_exceeded cfg ip now r = (bool_decide (ip_rate_per_sec_ cfg < S (window_count r)), r') ∧
    r' = set_windows (ip_connect_windows_ r') r ∧ window_count r' = S (window_count r).
Proof.
  eexists. split; [|split].
  - unfold ip_rate_exceeded, window_count, window_of. f_equal. by destruct (decide _).
  - done.
  - unfold window_count at 1. rewrite window_of_set. unfold window_count, window_of.
    destruct (decide (seconds 1 ≤ _ - window_start (default _ _))%Z) as [Hd|Hd]; cbn [window_start count].
    + rewrite decide_False; [done|]. unfold seconds. lia.
    + by rewrite decide_False.
Qed.

(** The connections accepted below the limit, and the first one above it. *)
Lemma accept_below fd r :
  ip_rate_per_sec_ cfg ≠ 0 → ip ≠ 0%Z → allowed r → window_count r < ip_rate_per_sec_ cfg →
  ∃ r', accept_one cfg fd ip true now r = Ret r' ∧ allowed r' ∧ window_count r' = S (window_count r) ∧
    dom (connections_ r') = {[fd]} ∪ dom (connections_ r).
Proof.
  intros Hrate Hip Hal Hlt. unfold accept_one. rewrite decide_True by done.
  unfold allowed in Hal. cbn [ip_blacklist_ set_open]. rewrite Hal. cbn [mbind outcome_bind].
  destruct (rate_counts (set_open ({[fd]} ∪ open_fds r) r)) as (r1 & -> & Hr1 & Hc1).
  change (window_count (set_open ({[fd]} ∪ open_fds r) r)) with (window_count r) in *.
  rewrite bool_decide_eq_false_2 by lia. eexists. split; [done|].
  unfold register. rewrite Hr1 in *. cbn [connections_ set_windows set_open].
  destruct (connections_ r !! fd) as [c|] eqn:Hc; (split_and!; [done|exact Hc1|]).
  - cbn. apply elem_of_dom_2 in Hc. set_solver.
  - cbn. apply dom_insert_L.
Qed.

Lemma accept_above fd r :
  blacklist_ok (ip_blacklist_ r) →
  ip_rate_per_sec_ cfg ≠ 0 → ip ≠ 0%Z → allowed r → ip_rate_per_sec_ cfg ≤ window_count r →
  ∃ r', accept_one cfg fd ip true now r = Ret r' ∧ banned r' ∧ connections_ r' = connections_ r.
Proof.
  intros Hok Hrate Hip Hal Hge. unfold accept_one. rewrite decide_True by done.
  unfold allowed in Hal. cbn [ip_blacklist_ set_open]. rewrite Hal. cbn [mbind outcome_bind].
  destruct (rate_counts (set_open ({[fd]} ∪ open_fds r) r)) as (r1 & -> & Hr1 & Hc1).
  change (window_count (set_open ({[fd]} ∪ open_fds r) r)) with (window_count r) in *.
  rewrite bool_decide_eq_true_2 by lia. rewrite Hr1. cbn [ip_blacklist_ set_windows set_open].
  destruct (blacklist_add cfg ip (ip_blacklist_ r) Hok) as (b' & -> & _ & Hb & _). cbn.
  eexists. split; [done|]. done.
Qed.

Lemma accept_banned fd add_ok r :
  ip_rate_per_sec_ cfg ≠ 0 → ip ≠ 0%Z → banned r →
  accept_one cfg fd ip add_ok now r = Ret (kernel_close fd (set_open ({[fd]} ∪ open_fds r) r)).
Proof.
  intros Hrate Hip Hb. unfold accept_one. rewrite decide_True by done.
  unfold banned in Hb. cbn [ip_blacklist_ set_open]. by rewrite Hb.
Qed.

(** A storm of connections from one address. *)
Definition storm (fds : list Z) : list accept_result := (λ fd, AConn fd ip true) <$> fds.

Lemma storm_banned batch fds r :
  ip_rate_per_sec_ cfg ≠ 0 → ip ≠ 0%Z → max_connections_ cfg = 0 → banned r →
  ∃ r', accept_loop cfg batch (storm fds) now r = Ret r' ∧ connections_ r' = connections_ r ∧ banned r'.
Proof.
  intros Hrate Hip Hmax. revert fds r. induction batch as [|batch IH]; intros fds r Hb; cbn [accept_loop]; [eauto|].
  rewrite decide_False by (intros [? _]; done). destruct fds as [|fd fds]; cbn [storm fmap list_fmap]; [eauto|].
  rewrite accept_banned by done. cbn [mbind outcome_bind]. fold (storm fds).
  destruct (IH fds (kernel_close fd (set_open ({[fd]} ∪ open_fds r) r))) as (r' & -> & Hc & Hb'); [done|].
  by exists r'.
Qed.

Lemma storm_counts batch fds r :
  ip_rate_per_sec_ cfg ≠ 0 → ip ≠ 0%Z → max_connections_ cfg = 0 →
  blacklist_ok (ip_blacklist_ r) → allowed r → window_count r ≤ ip_rate_per_sec_ cfg → length fds ≤ batch →
  let quota := ip_rate_per_sec_ cfg - window_count r in
  ∃ r', accept_loop cfg batch (storm fds) now r = Ret r' ∧
    dom (connections_ r') = list_to_set (take quota fds) ∪ dom (connections_ r) ∧
    (quota < length fds → banned r').
Proof.
  intros Hrate Hip Hmax. revert fds r.
  induction batch as [|batch IH]; intros fds r Hok Hal Hc Hlen quota; cbn [accept_loop].
  { destruct fds; [|cbn in Hlen; lia]. exists r. rewrite take_nil. split_and!; [done|set_solver|cbn; lia]. }
  rewrite decide_False by (intros [? _]; done).
  destruct fds as [|fd fds]; cbn [storm fmap list_fmap].
  { exists r. rewrite take_nil. split_and!; [done|set_solver|cbn; lia]. }
  cbn in Hlen. destruct (decide (window_count r < ip_rate_per_sec_ cfg)) as [Hlt|Hge].
  - destruct (accept_below fd r) as (r1 & Heq & Hal1 & Hc1 & Hd1); [done..|]. rewrite Heq. cbn [mbind outcome_bind]. fold (storm fds).
    assert (blacklist_ok (ip_blacklist_ r1)) as Hok1 by (by eapply accept_blacklist; eauto).
    destruct (IH fds r1) as (r' & -> & Hd & Hb); [done|done|lia|lia|]. exists r'. split; [done|].
    assert (quota = S (ip_rate_per_sec_ cfg - window_count r1)) as -> by (unfold quota; lia).
    cbn [take list_to_set length]. split; [rewrite Hd, Hd1; set_solver|]. intros ?. apply Hb. lia.
  - destruct (accept_above fd r) as (r1 & -> & Hb1 & Hc1); [done..|lia|]. cbn [mbind outcome_bind]. fold (storm fds).
    destruct (storm_banned batch fds r1) as (r' & -> & Hcs & Hb); [done..|]. exists r'. split; [done|].
    assert (quota = 0) as -> by (unfold quota; lia). cbn [take list_to_set]. rewrite Hcs, Hc1. set_solver.
Qed.


(** ** The blacklist *)

(** A step during which the blacklist is not aged. *)
Definition step_without_decay (r r' : reactor) : Prop :=
  reactor_step cfg r r' ∧ last_ip_decay_ r' = last_ip_decay_ r.

Lemma banned_same b r : banned r → ip_blacklist_ b = ip_blacklist_ r → banned b.
Proof. unfold banned. by intros ? ->. Qed.

Lemma accept_keeps_ban fd ip' add_ok now' r r' :
  blacklist_ok (ip_blacklist_ r) → banned r → accept_one cfg fd ip' add_ok now' r = Ret r' → banned r'.
Proof.
  intros Hok Hb. unfold accept_one, register, ip_rate_exceeded.
  destruct (decide _); [|intros [= <-]; eapply banned_same; [done|]; by repeat case_match].
  cbn [ip_blacklist_ set_open]. destruct (BloomFilter.contains _ ip' _) as [[]|]; cbn [mbind outcome_bind]; try done;
    [by intros [= <-]|].
  destruct (bool_decide _); [|intros [= <-]; eapply banned_same; [done|]; by repeat case_match].
  cbn [ip_blacklist_ set_open set_windows].
  destruct (blacklist_add cfg ip' (ip_blacklist_ r) Hok) as (b & -> & _ & _ & Hkeep).
  intros [= <-]. by apply Hkeep.
Qed.

Lemma step_keeps_ban r r' : rinv cfg r → banned r → step_without_decay r r' → banned r'.
Proof.
  intros Hr Hb [Hs Hl]. inversion Hs; subst.
  - eapply accept_keeps_ban; [apply Hr|done..].
  - eapply banned_same; [done|]. apply same_rest_client.
  - eapply banned_same; [done|]. by destruct (same_rest_handback hb ws rs now0 (set_outbox rest r)) as (_ & -> & _).
  - eapply banned_same; [done|]. unfold worker_task. by repeat case_match.
  - eapply banned_same; [done|]. apply same_rest_sweep.
  - unfold sweep_ip_rate in *. destruct (decide _); [done|]. destruct (decide (_ < seconds 10)%Z) as [|Hge]; [done|].
    cbn in Hl. exfalso. apply Hge. rewrite Hl. unfold seconds. lia.
Qed.

(** The blacklist has no loophole between two agings: once an address is
    blacklisted, then whatever events, handbacks, worker results, sweeps and
    further accepts happen before the filter is next decayed, a new connection
    from it is closed at once and the reactor's state is otherwise untouched. *)
Theorem reactor_ban_holds r r' fd add_ok :
  rinv cfg r → ip_rate_per_sec_ cfg ≠ 0 → ip ≠ 0%Z → banned r → rtc step_without_decay r r' →
  accept_one cfg fd ip add_ok now r' = Ret (kernel_close fd (set_open ({[fd]} ∪ open_fds r') r')).
Proof.
  intros Hr Hrate Hip Hb Hrtc. apply accept_banned; [done..|].
  assert (rinv cfg r' ∧ banned r') as [_ ?]; [|done].
  induction Hrtc as [r|r r1 r' Hs Hrtc IH]; [done|].
  apply IH; [by eapply reactor_step_inv, Hs|by eapply step_keeps_ban].
Qed.
End rate.

(** ** Concrete runs *)

Local Open Scope Z_scope.

(** An echo server with one outbox slot and no rate limit. *)
Definition echo_cfg (rate : nat) : config :=
  mkConfig (seconds 30) 0 rate 1 (λ req, Some (req, true)) (λ ip, ip).

Definition demo_blacklist : BloomFilter.t := BloomFilter.CountingBloomFilter 8 (λ _, 2).

Definition run_accept (cfg : config) (fd ip now : Z) (r : reactor) : reactor :=
  match accept_one cfg fd ip true now r with Ret r' => r' | Undef => r end.

Definition request_a : str := lit "GET /a HTTP/1.1" ++ CRLF ++ CRLF.
Definition request_b : str := lit "GET /b HTTP/1.1" ++ CRLF ++ CRLF.

Definition demo0 : reactor := init demo_blacklist.
(** Client 10 connects as descriptor 5 and sends a request, which is dispatched. *)
Definition demo1 : reactor := run_accept (echo_cfg 0) 5 10 (seconds 1) demo0.
Definition demo2 : reactor := on_client_event 5 Readable [] [RData (seconds 1) request_a] (seconds 1) demo1.
(** It hangs up, and client 20 gets the same descriptor. *)
Definition demo3 : reactor := on_client_event 5 Closed [] [] (seconds 2) demo2.
Definition demo4 : reactor := run_accept (echo_cfg 0) 5 20 (seconds 2) demo3.
(** The worker finishes, and the reactor takes its handback. *)
Definition demo5 : reactor := worker_task (echo_cfg 0) 5 request_a (set_jobs [] demo4).
Definition demo6 : reactor :=
  handle_handback (mkHandback 5 true request_a) [WWrote 100] [] (seconds 2) (set_outbox [] demo5).

Lemma demo_client fd mask ws rs now r r' :
  on_client_event fd mask ws rs now r = r' → rtc (reactor_step (echo_cfg 0)) r r'.
Proof. intros <-. apply rtc_once, step_client. Qed.

Lemma demo_accepted fd ip now r :
  bool_decide (fd ∈ open_fds r) = false →
  accept_one (echo_cfg 0) fd ip true now r = Ret (run_accept (echo_cfg 0) fd ip now r) →
  rtc (reactor_step (echo_cfg 0)) r (run_accept (echo_cfg 0) fd ip now r).
Proof.
  intros Hf%bool_decide_eq_false Hacc. apply rtc_once. eapply step_accept; [by left|exact Hf|exact Hacc].
Qed.

Lemma demo4_reachable : rtc (reactor_step (echo_cfg 0)) demo0 demo4.
Proof.
  etrans; [apply (demo_accepted 5 10 (seconds 1)); vm_compute; reflexivity|].
  etrans; [apply (demo_client 5 Readable [] [RData (seconds 1) request_a] (seconds 1)); reflexivity|].
  etrans; [apply (demo_client 5 Closed [] [] (seconds 2)); reflexivity|].
  apply (demo_accepted 5 20 (seconds 2)); vm_compute; reflexivity.
Qed.

(** A response can go to the wrong client: when the client hangs up while a
    worker computes its response and the kernel gives the descriptor to the next
    client, the handback, which names only the descriptor, is written to that
    client, which has not sent anything. *)
Theorem reactor_fd_reuse_misdelivers :
  ∃ r c, rtc (reactor_step (echo_cfg 0)) demo0 r ∧ connections_ r !! 5 = Some c ∧
    client_ip c = 20 ∧ read_buf c = [] ∧ sent r = [(5, request_a)].
Proof.
  exists demo6. eexists. split; [|vm_compute; split_and!; reflexivity].
  etrans; [apply demo4_reachable|].
  eapply rtc_l; [apply (step_worker _ [] 5 request_a []); vm_compute; reflexivity|].
  apply rtc_once, (step_handback _ _ []). vm_compute; reflexivity.
Qed.

(** Bytes of a pipelined request can be torn off: when a complete request is
    read first and the beginning of the next one in a later [read] of the same
    event, the scan position is overwritten, and the worker gets the first
    request with all but three bytes of the second one's beginning. *)
Theorem reactor_pipelining_tears :
  let r := on_client_event 5 Readable [] [RData (seconds 1) request_a; RData (seconds 1) (lit "GET /b")]
             (seconds 1) demo1 in
  jobs r = [(5, request_a ++ lit "GET")] ∧
  ∃ c, connections_ r !! 5 = Some c ∧ read_buf c = lit " /b".
Proof. split; [vm_compute; reflexivity|]. eexists. split; vm_compute; reflexivity. Qed.

(** A full outbox can wedge a later client: the worker closes the descriptor
    behind the reactor, whose entry stays marked as dispatched; when the kernel
    reuses the descriptor, [emplace] keeps the stale entry, and whatever the new
    client sends is ignored. *)
Theorem reactor_full_outbox_wedges :
  ∃ r c, rtc (reactor_step (echo_cfg 0)) demo0 r ∧ connections_ r !! 5 = Some c ∧
    5 ∈ open_fds r ∧ client_ip c = 10 ∧ dispatched c = true ∧ jobs r = [] ∧
    (∀ rs now, on_client_event 5 Readable [] rs now r = r).
Proof.
  set (r2 := on_client_event 6 Readable [] [RData (seconds 1) request_b] (seconds 1)
               (run_accept (echo_cfg 0) 6 11 (seconds 1) demo2)).
  set (r3 := worker_task (echo_cfg 0) 6 request_b (set_jobs [(5, request_a)] r2)).
  set (r4 := worker_task (echo_cfg 0) 5 request_a (set_jobs [] r3)).
  exists (run_accept (echo_cfg 0) 5 20 (seconds 2) r4). eexists. split_and!.
  - etrans; [apply (demo_accepted 5 10 (seconds 1)); vm_compute; reflexivity|].
    etrans; [apply (demo_client 5 Readable [] [RData (seconds 1) request_a] (seconds 1)); reflexivity|].
    etrans; [apply (demo_accepted 6 11 (seconds 1)); vm_compute; reflexivity|].
    etrans; [apply (demo_client 6 Readable [] [RData (seconds 1) request_b] (seconds 1)); reflexivity|].
    eapply rtc_l; [apply (step_worker _ [(5, request_a)] 6 request_b []); vm_compute; reflexivity|].
    eapply rtc_l; [apply (step_worker _ [] 5 request_a []); vm_compute; reflexivity|].
    apply (demo_accepted 5 20 (seconds 2)); vm_compute; reflexivity.
  - vm_compute; reflexivity.
  - apply (bool_decide_unpack _). vm_compute. exact I.
  - reflexivity.
  - reflexivity.
  - vm_compute; reflexivity.
  - intros rs now. reflexivity.
Qed.

(** ** The theorems on concrete states *)

Lemma demo0_rinv rate : rinv (echo_cfg rate) demo0.
Proof.
  apply rinv_init. exists BloomSpec.empty. split; [apply BloomFilter.ctor_ok|].
  unfold BloomSpec.empty, kCounterMax. lia.
Defined.


Lemma reactor_loop_turn_witness :
  ∃ r, loop_turn (echo_cfg 0) (seconds 1)
         [OnListen [AConn 5 10 true]; OnClient 5 Readable [] [RData (seconds 1) request_a]] [] demo0 = Ret r ∧
    rtc (reactor_step (echo_cfg 0)) demo0 r ∧ rinv (echo_cfg 0) r.
Proof.
  apply reactor_loop_turn; [apply demo0_rinv|]. split.
  - split; [apply not_elem_of_empty|]. intros r' _. exact I.
  - intros r' _. split; [exact I|]. intros r'' _. exact I.
Defined.

Lemma reactor_invariant_witness : rinv (echo_cfg 0) demo4.
Proof. apply (reactor_invariant (echo_cfg 0) 8 (λ _, 2)), demo4_reachable. Defined.

Lemma reactor_idle_sweep_witness : released 5 (sweep_idle_connections (echo_cfg 0) (seconds 40) demo1).
Proof.
  destruct (reactor_idle_sweep (echo_cfg 0) (seconds 40) demo1) as [_ Hrel]; [discriminate|].
  apply (Hrel 5 (new_connection 10 (seconds 1))); [vm_compute; reflexivity|].
  unfold idle. vm_compute. reflexivity.
Defined.


Definition flooded : reactor :=
  run_accept (echo_cfg 1) 6 7 (seconds 1) (run_accept (echo_cfg 1) 5 7 (seconds 1) demo0).

Lemma flooded_rinv : rinv (echo_cfg 1) flooded.
Proof.
  apply (reactor_step_inv _ (run_accept (echo_cfg 1) 5 7 (seconds 1) demo0)).
  - apply (reactor_step_inv _ demo0); [apply demo0_rinv|].
    apply (step_accept _ 5 7 true (seconds 1)); [left; reflexivity|apply not_elem_of_empty|vm_compute; reflexivity].
  - apply (step_accept _ 6 7 true (seconds 1)); [left; reflexivity| |vm_compute; reflexivity].
    apply (bool_decide_unpack _). vm_compute. exact I.
Qed.

Lemma reactor_ban_holds_witness :
  let r := on_client_event 5 Closed [] [] (seconds 1) flooded in
  accept_one (echo_cfg 1) 5 7 true (seconds 1) r = Ret (kernel_close 5 (set_open ({[5]} ∪ open_fds r) r)).
Proof.
  apply (reactor_ban_holds (echo_cfg 1) 7 (seconds 1) flooded);
    [apply flooded_rinv|discriminate|discriminate|vm_compute; reflexivity|].
  apply rtc_once. split; [apply step_client|vm_compute; reflexivity].
Defined.
