(* ===== verification/HttpServer.v ===== *)
(** * The static-file server (src/examples/http_server.cpp)

    The program that puts the components together: the reactor of Reactor.v runs the
    handler of HttpHandler.v, whose file cache is shared by the workers.  [exchange]
    is one request on a connection from its first byte to the last byte of the
    response: the reads of one event, the worker's job, and the handback; a session
    is a sequence of exchanges. *)

From Stdlib Require Import Ascii.
From S2P Require Import Prelude LruCache Http Messages HttpHandler Poller BloomFilter Reactor ReactorProps ReactorLimits.

Lemma build_response_nonempty status text ctype b ka : build_response status text ctype b ka ≠ [].
Proof. unfold build_response. discriminate. Qed.

#[local] Arguments build_response : simpl never.
#[local] Opaque Connection_max_request build_response.

Section server.
Context (fs : FileSystem) {C : Type} `{!Cache str str C}.

Record server : Type := mkServer {
  react : reactor;
  cache : C
}.

(** The handler passed to the pool: [HttpContext::handle_request] on the process-wide
    cache; the reactor catches what it throws ([None]). *)
Definition http_handler (request : str) (c : C) : outcome (option (str * bool) * C) :=
  match handle_request fs request c with
  | HOk (r, c') => Ret (Some (response r, keep_alive r), c')
  | HThrow => Ret (None, c)
  | HUB => Undef
  end.

Definition with_handler (h : str → option (str * bool)) (cfg : config) : config :=
  mkConfig (idle_timeout_ cfg) (max_connections_ cfg) (ip_rate_per_sec_ cfg) (outbox_slots cfg) h (hash_ip cfg).

(** A worker's job with this handler. *)
Definition serve_job (cfg : config) (fd : Z) (request : str) (s : server) : outcome server :=
  '(answer, c) ← http_handler request (cache s);
  Ret (mkServer (worker_task (with_handler (λ _, answer) cfg) fd request (react s)) c).

(** What one exchange meets: the reads of its event and the writes of its response. *)
Record item : Type := mkItem {
  chunks : list str;
  lastc : str;
  ws : list write_result;
  at_time : Z
}.

Definition item_reads (i : item) : list read_result :=
  (RData (at_time i) <$> chunks i) ++ [RData (at_time i) (lastc i); RAgain].

Definition exchange (cfg : config) (fd : Z) (i : item) (s : server) : outcome server :=
  let r := on_client_event fd Readable [] (item_reads i) (at_time i) (react s) in
  match jobs r with
  | [] => Ret (mkServer r (cache s))
  | (fd', request) :: js =>
      s ← serve_job cfg fd' request (mkServer (set_jobs js r) (cache s));
      Ret (mkServer (drain_outbox [(ws i, [RAgain])] (at_time i) (react s)) (cache s))
  end.

Fixpoint session (cfg : config) (fd : Z) (its : list item) (s : server) : outcome server :=
  match its with [] => Ret s | i :: its' => s' ← exchange cfg fd i s; session cfg fd its' s' end.

(** ** One exchange *)

(** Nothing is under way: the connection waits for a request. *)
Record idle (fd : Z) (r : reactor) : Prop := mkIdle {
  idle_conn : ∃ c, connections_ r !! fd = Some c ∧ dispatched c = false ∧ read_buf c = [] ∧ scan_pos c = 0;
  idle_jobs : jobs r = [];
  idle_outbox : outbox_ r = []
}.

(** The connection is gone and nothing is under way. *)
Record gone (fd : Z) (r : reactor) : Prop := mkGone {
  gone_conn : connections_ r !! fd = None;
  gone_jobs : jobs r = [];
  gone_outbox : outbox_ r = []
}.

(** A request cut in any way, with the response the handler without a cache gives,
    which the socket takes completely. *)
Record item_ok (i : item) (request : str) (hr : HttpResponse) : Prop := mkItemOk {
  io_head : ∃ m u ver hs, line_ok m u ver ∧ Forall header_ok hs ∧ request = print_head m u ver hs;
  io_bytes : concat (chunks i) ++ lastc i = request;
  io_last : lastc i ≠ [];
  io_size : length request ≤ Connection_max_request;
  io_answer : spec_request fs request = HOk hr;
  io_written : try_write (ws i) (response hr) 0 = Some (length (response hr))
}.

(** The event hands the request to the workers. *)
Lemma event_dispatches fd i request hr c r :
  item_ok i request hr → connections_ r !! fd = Some c → dispatched c = false → read_buf c = [] → scan_pos c = 0 →
  jobs r = [] → ∃ c' r', on_client_event fd Readable [] (item_reads i) (at_time i) r = set_jobs [(fd, request)] r' ∧
    connections_ r' !! fd = Some c' ∧ read_buf c' = [] ∧ scan_pos c' = 0 ∧ outbox_ r' = outbox_ r ∧ sent r' = sent r.
Proof.
  intros [(m & u & ver & hs & Hl & Hok & Hq) Hb Hne Hsz _ _] Hc Hd Hbuf Hsp Hj.
  pose proof (head_ends m u ver hs [] Hl Hok) as Hend.
  change (print_request m u ver hs []) with (print_head m u ver hs) in Hend. rewrite <- Hq in Hend.
  change head_mark with terminator in Hend.
  assert (Hno : ∀ j, ¬ occurs terminator (read_buf c ++ concat (chunks i)) j).
  { rewrite Hbuf. eapply head_only_at_end; [exact Hl|exact Hok|by rewrite <- Hq, <- Hb|done]. }
  assert (4 ≤ length request) as H4.
  { rewrite Hq. unfold print_head, print_request. rewrite !length_app. change (length CRLF) with 2. lia. }
  unfold item_reads, on_client_event. change (has Readable Closed) with false. change (has Readable Writable) with false.
  change (has Readable Readable) with true. cbn [negb]. rewrite Hc, Hd.
  assert (Hscan : scanned c) by (split; [by rewrite Hbuf|lia]).
  destruct (read_loop_chunks (chunks i) (lastc i) (at_time i) c [RAgain] Hscan Hno) as (c' & Hrl & Hb' & _ & Hf).
  { rewrite Hbuf. cbn [app]. by rewrite Hb. }
  { eauto. }
  rewrite Hrl. rewrite Hbuf in Hb', Hf. cbn [app] in Hb', Hf. rewrite Hb in Hb', Hf.
  rewrite Hbuf. cbn [app]. rewrite Hb, Hend in *. rewrite bool_decide_eq_true_2 by eauto.
  unfold dispatch_to_worker. rewrite Hf, Hb', decide_False by lia.
  replace (length request - 4 + 4) with (length request) by lia. rewrite take_ge, drop_ge by lia.
  eexists _, (put_conn fd _ (put_conn fd c' r)). split; [unfold put_conn; cbn; by rewrite Hj|].
  cbn. split; [apply lookup_insert_eq|]. done.
Qed.

(** A response that the socket takes at once. *)
Lemma handback_completes fd resp ka wr now c r :
  connections_ r !! fd = Some c → resp ≠ [] → try_write wr resp 0 = Some (length resp) →
  read_buf c = [] → scan_pos c = 0 → jobs r = [] → outbox_ r = [] →
  let r' := handle_handback (mkHandback fd ka resp) wr [RAgain] now r in
  sent r' = sent r ++ [(fd, resp)] ∧ if ka then idle fd r' else gone fd r'.
Proof.
  intros Hc Hne Hw Hbuf Hsp Hj Hout r'. unfold r', handle_handback. cbn [hb_fd hb_response hb_keep_alive].
  rewrite Hc, bool_decide_eq_false_2 by done. cbn [andb]. unfold begin_write, continue_write. cbn [write_buf write_off].
  rewrite decide_True by (destruct resp; [done|cbn; lia]). rewrite Hw. cbn [write_buf write_off].
  rewrite decide_True by lia. cbn [write_buf write_off]. rewrite drop_0, Nat.sub_0_r, firstn_all.
  unfold finish_response. cbn [keep_alive_after_write]. destruct ka.
  - cbn [drain_into_buffer]. unfold check_buffered_request. cbn [dispatched read_buf]. rewrite Hbuf. cbn [length].
    rewrite decide_True by lia. cbn. split; [done|]. constructor; cbn; [|done|done].
    eexists. rewrite lookup_insert_eq. split_and!; done.
  - split; [by rewrite sent_close|].
    constructor; [apply close_removes|unfold close_connection; cbn; rewrite lookup_insert_eq; cbn; done..].
Qed.

Lemma spec_request_nonempty request hr : spec_request fs request = HOk hr → response hr ≠ [].
Proof.
  unfold spec_request, serve_file, send_405, send_404, send_page, mbind, hres_bind.
  repeat case_match; intros; simplify_eq/=; try apply build_response_nonempty.
Qed.

Context `{!CacheLaws str str C}.

(** What the worker pushes is the answer of the handler without a cache. *)
Lemma serve_job_pushes cfg fd request hr r c :
  spec_request fs request = HOk hr → cache_fresh fs c → outbox_ r = [] → 0 < outbox_slots cfg →
  ∃ c', serve_job cfg fd request (mkServer r c) =
      Ret (mkServer (set_outbox [mkHandback fd (keep_alive hr) (response hr)] r) c') ∧ cache_fresh fs c'.
Proof.
  intros Hs Hc Hout Hslots. pose proof (handle_request_fresh fs request c Hc) as Hh. rewrite Hs in Hh.
  unfold serve_job, http_handler. cbn [cache react].
  destruct (handle_request fs request c) as [[hr' c']| |]; [|done..]. destruct Hh as [Hc' ->].
  exists c'. split; [|done]. cbn. unfold worker_task. cbn. rewrite Hout. rewrite decide_True by (cbn; lia). done.
Qed.

Lemma exchange_serves cfg fd i request hr s :
  idle fd (react s) → 0 < outbox_slots cfg → cache_fresh fs (cache s) → item_ok i request hr →
  ∃ s', exchange cfg fd i s = Ret s' ∧ cache_fresh fs (cache s') ∧
    sent (react s') = sent (react s) ++ [(fd, response hr)] ∧
    if keep_alive hr then idle fd (react s') else gone fd (react s').
Proof.
  intros [(c & Hc & Hd & Hbuf & Hsp) Hj Hout] Hslots Hf Hi.
  destruct (event_dispatches fd i request hr c (react s)) as (c1 & r1 & Hr1 & Hc1 & Hb1 & Hsp1 & Hout1 & Hs1); [done..|].
  unfold exchange. rewrite Hr1. cbn [jobs set_jobs].
  destruct (serve_job_pushes cfg fd request hr (set_jobs [] (set_jobs [(fd, request)] r1)) (cache s))
    as (c' & -> & Hf'); [apply Hi|done|cbn; congruence|done|].
  cbn [mbind outcome_bind react cache]. eexists. split; [done|]. split; [done|]. cbn [react].
  destruct (handback_completes fd (response hr) (keep_alive hr) (ws i) (at_time i) c1
    (set_outbox [] (set_outbox [mkHandback fd (keep_alive hr) (response hr)] (set_jobs [] (set_jobs [(fd, request)] r1)))))
    as [Hsent Hend]; try done; [by eapply spec_request_nonempty, Hi|apply Hi|].
  split; [|exact Hend]. etrans; [exact Hsent|]. cbn. by rewrite Hs1.
Qed.

(** Events on a connection that is gone do nothing. *)
Lemma exchange_gone cfg fd i s : gone fd (react s) → exchange cfg fd i s = Ret s.
Proof.
  intros [Hc Hj _]. unfold exchange, on_client_event. change (has Readable Closed) with false.
  change (has Readable Writable) with false. change (has Readable Readable) with true. cbn [negb].
  rewrite Hc, Hj. by destruct s.
Qed.

Lemma session_gone cfg fd its s : gone fd (react s) → session cfg fd its s = Ret s.
Proof.
  intros Hg. induction its as [|i its IH]; [done|]. cbn [session]. by rewrite exchange_gone.
Qed.

(** The responses up to the first that ends the connection. *)
Fixpoint served (hrs : list HttpResponse) : list str :=
  match hrs with
  | [] => []
  | hr :: hrs' => response hr :: (if keep_alive hr then served hrs' else [])
  end.


End server.

(** ** A run *)

(** Two requests for a file on the connection of [demo1]; the first arrives in two
    reads, its response leaves in two writes, and the second ends the connection. *)
Definition head_one : str := print_head (lit "GET") (lit "/a.txt") (lit "HTTP/1.1") [].
Definition head_two : str := print_head (lit "GET") (lit "/a.txt") (lit "HTTP/1.1") [(lit "Connection", lit "close")].
Definition answer_of (request : str) : HttpResponse :=
  match spec_request demo_fs request with HOk hr => hr | _ => mkResponse [] false end.
Definition run_items : list item :=
  [mkItem [take 9 head_one] (drop 9 head_one) [WWrote 7; WWrote 1000] (seconds 2);
   mkItem [] head_two [WWrote 1000] (seconds 3)].
Definition run_state : server := mkServer demo1 (LruCache.init (K:=str) (V:=str) 256).

Lemma get_line_ok : line_ok (lit "GET") (lit "/a.txt") (lit "HTTP/1.1").
Proof. constructor; apply (bool_decide_unpack _); vm_compute; exact I. Qed.

Lemma run_item_ok hs i request :
  Forall header_ok hs → request = print_head (lit "GET") (lit "/a.txt") (lit "HTTP/1.1") hs →
  lastc i ≠ [] → concat (chunks i) ++ lastc i = request → (Nat.leb (length request) 100 = true) →
  spec_request demo_fs request = HOk (answer_of request) →
  try_write (ws i) (response (answer_of request)) 0 = Some (length (response (answer_of request))) →
  item_ok demo_fs i request (answer_of request).
Proof.
  intros Hok Hq Hl Hb Hsz%Nat.leb_le Ha Hw. constructor; try done.
  - eexists _, _, _, _. split_and!; [apply get_line_ok|exact Hok|exact Hq].
  - etrans; [exact Hsz|]. apply Nat.leb_le. vm_compute. reflexivity.
Qed.

