(* ===== verification/Server.v ===== *)
(** * Starting and stopping (src/muses/net/reactor.hpp)

    [Shard]: the life cycle of a [Reactor] around its event loop: the running
    flag, the loop thread, the poller and the outbox, and the workers that outlive
    the loop.  [Pool]: [ReactorPool], a group of shards.  [Listener]: [TCPListener]. *)

From S2P Require Import Prelude Http Poller BloomFilter Reactor ReactorProps ReactorInv ReactorLimits.
Local Open Scope Z_scope.

Module Shard.

Record shard : Type := mkShard {
  running_ : bool;
  poller_ : bool;              (* not null *)
  listening : bool;            (* the listen descriptor is registered *)
  thread_ : bool;              (* [reactor_thread_] is joinable *)
  outbox_stopped : bool;
  core : reactor;              (* connections, outbox, jobs, limits *)
  pushed : nat                 (* workers between their push and their wakeup *)
}.

Definition set_core (r : reactor) (s : shard) : shard :=
  mkShard (running_ s) (poller_ s) (listening s) (thread_ s) (outbox_stopped s) r (pushed s).

(** The constructor. *)
Definition make (b : BloomFilter.t) : shard := mkShard false false false false false (init b) 0.

(** [start]; [made] and [added] are the results of [make_poller] and [add].  The
    new poller replaces the old one and watches nothing else.  Assigning to a
    thread that is joinable terminates the program. *)
Definition start (made added : bool) (s : shard) : outcome shard :=
  if running_ s then Ret s else
  let r := set_watched ∅ (core s) in
  if negb (made && added) then Ret (mkShard false made false (thread_ s) (outbox_stopped s) r (pushed s))
  else if thread_ s then Undef
  else Ret (mkShard true true true true (outbox_stopped s) r (pushed s)).

(** The steps of [stop]: the flag; the join, after which the loop is over; the
    outbox; the connections and the poller. *)
Definition stop_flag (s : shard) : shard :=
  mkShard false (poller_ s) (listening s) (thread_ s) (outbox_stopped s) (core s) (pushed s).
Definition stop_join (s : shard) : shard :=
  mkShard (running_ s) (poller_ s) (listening s) false (outbox_stopped s) (core s) (pushed s).
Definition stop_outbox (s : shard) : shard :=
  mkShard (running_ s) (poller_ s) (listening s) (thread_ s) true (core s) (pushed s).
Definition stop_close (s : shard) : shard :=
  mkShard (running_ s) false false (thread_ s) (outbox_stopped s) (Reactor.stop (core s)) (pushed s).

Definition stop (s : shard) : shard :=
  if negb (running_ s) then s else stop_close (stop_outbox (stop_join (stop_flag s))).

(** A worker's job up to the result of [push]; the outbox refuses when it is
    stopped, as when it is full, and the worker closes the descriptor. *)
Definition work (cfg : config) (fd : Z) (request : str) (s : shard) : shard :=
  if outbox_stopped s then
    set_core (set_watched (watch_del fd (watched (core s))) (kernel_close fd (core s))) s
  else
    let pushes := bool_decide (length (outbox_ (core s)) < outbox_slots cfg)%nat in
    mkShard (running_ s) (poller_ s) (listening s) (thread_ s) (outbox_stopped s)
      (worker_task cfg fd request (core s)) (if pushes then S (pushed s) else pushed s).

(** The wakeup after the push; it uses [poller_]. *)
Definition wake (s : shard) : outcome shard :=
  if poller_ s then
    Ret (mkShard (running_ s) (poller_ s) (listening s) (thread_ s) (outbox_stopped s) (core s) (pred (pushed s)))
  else Undef.

(** Where the owner is: outside, or inside [stop]. *)
Inductive owner : Type := Out | Stopping | Joined | Drained.

(** What the loop thread, the workers and the rest of the program do. *)
Inductive activity (cfg : config) : shard → shard → Prop :=
  | act_turn now evs ios s r' :
      thread_ s = true → events_fresh cfg now evs (core s) →
      loop_turn cfg now evs ios (core s) = Ret r' → activity cfg s (set_core r' s)
  | act_work l1 fd req l2 s :
      jobs (core s) = l1 ++ (fd, req) :: l2 →
      activity cfg s (work cfg fd req (set_core (set_jobs (l1 ++ l2) (core s)) s))
  | act_wake s s' : (0 < pushed s)%nat → wake s = Ret s' → activity cfg s s'
  | act_open fd s : fd ∉ open_fds (core s) →
      activity cfg s (set_core (set_open ({[fd]} ∪ open_fds (core s)) (core s)) s).

Inductive step (cfg : config) : owner * shard → owner * shard → Prop :=
  | step_act o s s' : activity cfg s s' → step cfg (o, s) (o, s')
  | step_start made added s s' : start made added s = Ret s' → step cfg (Out, s) (Out, s')
  | step_flag s : running_ s = true → step cfg (Out, s) (Stopping, stop_flag s)
  | step_join s : step cfg (Stopping, s) (Joined, stop_join s)
  | step_outbox s : step cfg (Joined, s) (Drained, stop_outbox s)
  | step_close s : step cfg (Drained, s) (Out, stop_close s).

(** ** The invariant *)

Record lives (o : owner) (s : shard) : Prop := mkLives {
  li_thread : thread_ s = true → poller_ s = true ∧ listening s = true;
  li_out : o = Out → running_ s = thread_ s;
  li_in : o ≠ Out → running_ s = false ∧ poller_ s = true;
  li_joined : o = Joined ∨ o = Drained → thread_ s = false;
  li_idle : o = Out → running_ s = false → connections_ (core s) = ∅ ∧ watched (core s) = ∅
}.

Section lifecycle.
Context (cfg : config).

Lemma rinv_unwatched r : rinv cfg r → rinv cfg (set_watched ∅ r).
Proof. intros [Hc Hh Hm Ho Hw Hop Hb]. constructor; cbn; try done; intros k [x Hx]; by rewrite lookup_empty in Hx. Qed.

Lemma rinv_stop r : rinv cfg r → rinv cfg (Reactor.stop r).
Proof.
  intros [Hc Hh Hm Ho Hw Hop Hb]. constructor; cbn; try done.
  - rewrite map_size_empty. lia.
  - intros k [x Hx]. by rewrite lookup_empty in Hx.
  - intros k [x Hx]. by rewrite lookup_empty in Hx.
Qed.

Lemma rinv_refused fd r : rinv cfg r → rinv cfg (set_watched (watch_del fd (watched r)) (kernel_close fd r)).
Proof.
  intros [Hc Hh Hm Ho Hw Hop Hb]. constructor; cbn; try done; unfold watch_del; intros k [Hne Hk]%lookup_delete_is_Some.
  - auto.
  - apply elem_of_difference. split; [auto|]. by rewrite elem_of_singleton.
Qed.

Lemma rinv_open fd r : rinv cfg r → rinv cfg (set_open ({[fd]} ∪ open_fds r) r).
Proof. intros [Hc Hh Hm Ho Hw Hop Hb]. constructor; cbn; try done. intros k Hk. set_solver. Qed.

Lemma worker_task_quiet fd req r : connections_ r = ∅ → watched r = ∅ →
  connections_ (worker_task cfg fd req r) = ∅ ∧ watched (worker_task cfg fd req r) = ∅.
Proof. intros Hc Hw. unfold worker_task. destruct (decide _); cbn; [done|]. by rewrite Hw. Qed.

Lemma work_ok o fd req s js : lives o s → rinv cfg (core s) →
  lives o (work cfg fd req (set_core (set_jobs js (core s)) s)) ∧
  rinv cfg (core (work cfg fd req (set_core (set_jobs js (core s)) s))).
Proof.
  intros [H1 H2 H3 H4 H5] Hr. unfold work. cbn [outbox_stopped set_core].
  destruct (outbox_stopped s); split.
  - constructor; cbn; try done. intros Ho Hrun. destruct (H5 Ho Hrun) as [-> ->]. done.
  - apply rinv_refused. by apply but_jobs.
  - constructor; cbn [running_ poller_ listening thread_ core]; try done. intros Ho Hrun.
    destruct (H5 Ho Hrun) as [Hc Hw]. by apply worker_task_quiet.
  - by apply rinv_worker, but_jobs.
Qed.

Lemma activity_ok o s s' : lives o s → rinv cfg (core s) → activity cfg s s' → lives o s' ∧ rinv cfg (core s').
Proof.
  intros Hl Hr Ha. destruct Ha as [now evs ios s r' Ht Hf Hturn|l1 fd req l2 s Hj|s s' Hp Hw|fd s Hfd].
  - destruct (reactor_loop_turn cfg now evs ios (core s) Hr Hf) as (r1 & Hr1 & _ & Hinv).
    assert (r1 = r') as -> by congruence. split; [|done]. destruct Hl as [H1 H2 H3 H4 H5].
    constructor; cbn; try done. intros Ho Hrun. rewrite H2 in Hrun by done. congruence.
  - by apply work_ok.
  - unfold wake in Hw. destruct (poller_ s) eqn:Hpo; [|done]. injection Hw as <-. split; [|done].
    destruct Hl as [H1 H2 H3 H4 H5]. constructor; cbn; try done; naive_solver.
  - split; [|by apply rinv_open]. destruct Hl as [H1 H2 H3 H4 H5]. by constructor.
Qed.

Lemma start_ok made added s : lives Out s → rinv cfg (core s) →
  ∃ s', start made added s = Ret s' ∧ lives Out s' ∧ rinv cfg (core s').
Proof.
  intros Hl Hr. destruct (Hl) as [H1 H2 H3 H4 H5]. unfold start.
  destruct (running_ s) eqn:Hrun; [by exists s|].
  rewrite <- (H2 eq_refl). destruct (H5 eq_refl eq_refl) as [Hc Hw].
  destruct (made && added); cbn; eexists; (split; [done|]); split; try (by apply rinv_unwatched);
    constructor; cbn; try done; naive_solver.
Qed.

Lemma step_ok o s o' s' : lives o s → rinv cfg (core s) → step cfg (o, s) (o', s') → lives o' s' ∧ rinv cfg (core s').
Proof.
  intros Hl Hr Hs. inversion Hs; subst.
  - by eapply activity_ok.
  - match goal with H : start ?made ?added s = _ |- _ => destruct (start_ok made added s Hl Hr) as (s1 & E & ?) end.
    congruence.
  - split; [|done]. destruct Hl as [H1' H2 H3 H4 H5]. constructor; cbn; try done; [|naive_solver].
    intros _. split; [done|]. apply H1'. rewrite <- H2 by done. done.
  - split; [|done]. destruct Hl as [H1' H2 H3 H4 H5]. constructor; cbn; try done. intros _. by apply H3.
  - split; [|done]. destruct Hl as [H1' H2 H3 H4 H5]. constructor; cbn; try done; auto.
  - split; [|by apply rinv_stop]. destruct Hl as [H1' H2 H3 H4 H5].
    assert (thread_ s = false) as Ht by auto. destruct (H3 ltac:(done)) as [Hrun _].
    constructor; cbn; try done; congruence.
Qed.

Lemma make_ok b : blacklist_ok b → lives Out (make b) ∧ rinv cfg (core (make b)).
Proof. intros Hb. split; [by constructor|by apply rinv_init]. Qed.

Lemma stop_ok s : lives Out s → rinv cfg (core s) →
  lives Out (stop s) ∧ rinv cfg (core (stop s)) ∧ running_ (stop s) = false.
Proof.
  intros Hl Hr. unfold stop. destruct (running_ s) eqn:Hrun; [|done]. cbn [negb].
  assert (rtc (step cfg) (Out, s) (Out, stop_close (stop_outbox (stop_join (stop_flag s))))) as Hsteps.
  { eapply rtc_l; [by apply step_flag|]. eapply rtc_l; [apply step_join|].
    eapply rtc_l; [apply step_outbox|]. apply rtc_once, step_close. }
  destruct (step_ok _ _ _ _ Hl Hr (step_flag _ _ Hrun)) as [L1 R1].
  destruct (step_ok _ _ _ _ L1 R1 (step_join _ _)) as [L2 R2].
  destruct (step_ok _ _ _ _ L2 R2 (step_outbox _ _)) as [L3 R3].
  destruct (step_ok _ _ _ _ L3 R3 (step_close _ _)) as [L4 R4]. done.
Qed.

Lemma reachable_lives b o s : blacklist_ok b → rtc (step cfg) (Out, make b) (o, s) → lives o s ∧ rinv cfg (core s).
Proof.
  intros Hb Hrtc. remember (o, s) as os eqn:E.
  assert (lives os.1 os.2 ∧ rinv cfg (core os.2)) as H; [|by subst].
  clear E o s. refine (rtc_ind_r (λ os, lives os.1 os.2 ∧ rinv cfg (core os.2)) _ _ _ os Hrtc).
  - by apply make_ok.
  - intros [o s] [o' s'] _ Hs [Hl Hr]. by eapply step_ok.
Qed.

(** C19: The life cycle of a reactor is safe for its loop: whatever the order of
    [start], [stop] and the activity of the loop thread and the workers, a loop
    thread has its poller with the listen descriptor registered, [stop] touches the
    connections and the poller only after the loop is over, a reactor that is not
    running has no thread, no connection and nothing watched, starting it never
    assigns to a thread that is running, and the reactor's invariant holds
    throughout. *)
Theorem shard_lifecycle b o s :
  blacklist_ok b → rtc (step cfg) (Out, make b) (o, s) →
  rinv cfg (core s) ∧
  (thread_ s = true → poller_ s = true ∧ listening s = true) ∧
  (o = Joined ∨ o = Drained → thread_ s = false) ∧
  (o = Out → running_ s = false → thread_ s = false ∧ connections_ (core s) = ∅ ∧ watched (core s) = ∅) ∧
  (o = Out → ∀ made added, ∃ s', start made added s = Ret s').
Proof.
  intros Hb Hrtc. destruct (reachable_lives b o s Hb Hrtc) as [[H1 H2 H3 H4 H5] Hr]. split_and!; [done..| |].
  - intros Ho Hrun. destruct (H5 Ho Hrun). split_and!; [|done..]. by rewrite <- H2.
  - intros -> made added. destruct (start_ok made added s) as (s' & ? & _); [by constructor|done|eauto].
Qed.

End lifecycle.

(** A run: a client sends a request in the first turn; its worker is at work when
    the owner stops the reactor. *)
Definition first_turn : list loop_event :=
  [OnListen [AConn 5 10 true; AAgain]; OnClient 5 Readable [] [RData (seconds 1) request_a; RAgain]].
Definition run_turn (s : shard) : shard :=
  match loop_turn (echo_cfg 0) (seconds 1) first_turn [] (core s) with Ret r => set_core r s | Undef => s end.
Definition run_start (s : shard) : shard := match start true true s with Ret s' => s' | Undef => s end.

Definition busy_shard : shard := run_turn (run_start (make demo_blacklist)).

Lemma first_turn_fresh : events_fresh (echo_cfg 0) (seconds 1) first_turn (core (run_start (make demo_blacklist))).
Proof.
  split; [|split; [exact I|by intros]]. cbn [event_fresh]. unfold kAcceptBatch.
  split; [by apply (bool_decide_unpack _); vm_compute|]. intros r' _. exact I.
Qed.

Lemma busy_reachable : rtc (step (echo_cfg 0)) (Out, make demo_blacklist) (Out, busy_shard).
Proof.
  eapply rtc_l; [apply (step_start _ true true _ (run_start (make demo_blacklist))); reflexivity|].
  apply rtc_once, step_act. apply (act_turn _ (seconds 1) first_turn []); [reflexivity|apply first_turn_fresh|].
  vm_compute. reflexivity.
Qed.

Lemma stop_reachable cfg s : running_ s = true → rtc (step cfg) (Out, s) (Out, stop s).
Proof.
  intros Hr. unfold stop. rewrite Hr. cbn [negb]. eapply rtc_l; [by apply step_flag|].
  eapply rtc_l; [apply step_join|]. eapply rtc_l; [apply step_outbox|]. apply rtc_once, step_close.
Qed.

(** [stop] does not wait for the workers.  A worker that has pushed its
    handback can be about to wake the poller when [stop] has already destroyed it,
    which is undefined; and a worker that finishes after [stop] closes a descriptor
    that the rest of the program may have opened in the meantime. *)
Theorem shard_stop_races_worker :
  (∃ s, rtc (step (echo_cfg 0)) (Out, make demo_blacklist) (Out, s) ∧ (0 < pushed s)%nat ∧ wake s = Undef) ∧
  (∃ s s', rtc (step (echo_cfg 0)) (Out, make demo_blacklist) (Out, s) ∧ connections_ (core s) = ∅ ∧
     5 ∈ open_fds (core s) ∧ activity (echo_cfg 0) s s' ∧ 5 ∉ open_fds (core s')).
Proof.
  split.
  - exists (stop (work (echo_cfg 0) 5 request_a (set_core (set_jobs [] (core busy_shard)) busy_shard))).
    split_and!; [|vm_compute; lia|reflexivity].
    etrans; [apply busy_reachable|].
    eapply rtc_l; [apply step_act, (act_work _ [] 5 request_a [] busy_shard); vm_compute; reflexivity|].
    apply stop_reachable. vm_compute. reflexivity.
  - set (s1 := stop busy_shard).
    exists (set_core (set_open ({[5]} ∪ open_fds (core s1)) (core s1)) s1). eexists. split_and!.
    + etrans; [apply busy_reachable|]. etrans; [apply stop_reachable; vm_compute; reflexivity|].
      apply rtc_once, step_act, act_open. apply (bool_decide_unpack _). vm_compute. exact I.
    + reflexivity.
    + cbn. set_solver.
    + apply (act_work _ [] 5 request_a []). vm_compute. reflexivity.
    + apply (bool_decide_unpack _). vm_compute. exact I.
Qed.

Lemma demo_blacklist_ok : blacklist_ok demo_blacklist.
Proof.
  exists BloomSpec.empty. split; [apply BloomFilter.ctor_ok|]. unfold BloomSpec.empty, kCounterMax. lia.
Qed.

Lemma shard_lifecycle_witness :
  thread_ busy_shard = true ∧ poller_ busy_shard = true.
Proof.
  destruct (shard_lifecycle (echo_cfg 0) demo_blacklist Out busy_shard demo_blacklist_ok busy_reachable)
    as (_ & Ht & _). split; [reflexivity|]. apply Ht. reflexivity.
Defined.
End Shard.

Module Pool.
Import Shard.

Record pool : Type := mkPool {
  started_ : bool;
  shards_ : list shard;
  workers_per_shard_ : nat
}.

Definition ReactorPool (b : BloomFilter.t) (shard_count workers_per_shard : nat) : pool :=
  let shard_count := if decide (shard_count = 0%nat) then 1%nat else shard_count in
  mkPool false (replicate shard_count (make b)) (if decide (workers_per_shard = 0%nat) then 1%nat else workers_per_shard).

(** The shards are started in order; the results of their system calls are given. *)
Fixpoint start_shards (res : list (bool * bool)) (ss : list shard) : outcome (list shard) :=
  match ss with
  | [] => Ret []
  | s :: ss' =>
      let '(made, added) := default (true, true) (head res) in
      s' ← Shard.start made added s; rest ← start_shards (tail res) ss'; Ret (s' :: rest)
  end.

Definition start (res : list (bool * bool)) (p : pool) : outcome pool :=
  if started_ p then Ret p else
  ss ← start_shards res (shards_ p); Ret (mkPool true ss (workers_per_shard_ p)).

(** In reverse order. *)
Definition stop (p : pool) : pool :=
  if negb (started_ p) then p
  else mkPool false (reverse (Shard.stop <$> reverse (shards_ p))) (workers_per_shard_ p).

Definition shard_count (p : pool) : nat := length (shards_ p).

(** Calls of the owner, and the activity of a shard between them. *)
Inductive step (cfg : config) : pool → pool → Prop :=
  | pool_start res p p' : start res p = Ret p' → step cfg p p'
  | pool_stop p : step cfg p (stop p)
  | pool_act i s s' p :
      shards_ p !! i = Some s → activity cfg s s' →
      step cfg p (mkPool (started_ p) (<[i := s']> (shards_ p)) (workers_per_shard_ p)).

Section pool.
Context (cfg : config).

Definition shard_ok (s : shard) : Prop := lives Out s ∧ rinv cfg (core s).

Definition pool_ok (p : pool) : Prop :=
  Forall shard_ok (shards_ p) ∧ (started_ p = false → Forall (λ s, running_ s = false) (shards_ p)).

Lemma start_shards_ok res ss : Forall shard_ok ss →
  ∃ ss', start_shards res ss = Ret ss' ∧ Forall shard_ok ss' ∧ length ss' = length ss.
Proof.
  revert res. induction ss as [|s ss IH]; intros res Hok; [by exists []|].
  apply Forall_cons in Hok as [[Hl Hr] Hok]. cbn [start_shards].
  destruct (default (true, true) (head res)) as [made added].
  destruct (start_ok cfg made added s Hl Hr) as (s' & -> & Hl' & Hr').
  destruct (IH (tail res) Hok) as (ss' & E & Hok' & Hlen). cbn. rewrite E. cbn.
  eexists. split_and!; [done| |cbn; by rewrite Hlen]. by constructor.
Qed.

Lemma start_pool_ok res p : pool_ok p →
  ∃ p', start res p = Ret p' ∧ pool_ok p' ∧ shard_count p' = shard_count p.
Proof.
  intros [Hok Hst]. unfold start. destruct (started_ p) eqn:E; [exists p; by split_and!; [|split|]; rewrite ?E|].
  destruct (start_shards_ok res (shards_ p) Hok) as (ss' & -> & Hok' & Hlen). cbn.
  eexists. split_and!; [done| |done]. by split.
Qed.

Lemma stop_pool_ok p : pool_ok p → pool_ok (stop p) ∧ started_ (stop p) = false.
Proof.
  intros [Hok Hst]. unfold stop. destruct (started_ p) eqn:E; cbn [negb]; [|by split; [split; rewrite ?E|]].
  split; [|done]. rewrite Forall_forall in Hok.
  assert (∀ s, s ∈ reverse (Shard.stop <$> reverse (shards_ p)) → shard_ok s ∧ running_ s = false) as H.
  { intros s. rewrite elem_of_reverse, list_elem_of_fmap. intros (s0 & -> & Hs0). rewrite elem_of_reverse in Hs0.
    destruct (Hok s0 Hs0) as [Hl Hr]. destruct (stop_ok cfg s0 Hl Hr) as (? & ? & ?). done. }
  split; cbn; [|intros _]; apply Forall_forall; intros s Hs; by apply H.
Qed.

Lemma activity_running s s' : activity cfg s s' → running_ s' = running_ s.
Proof.
  intros []; try done.
  - unfold work. cbn. by destruct (outbox_stopped s0).
  - unfold wake in *. destruct (poller_ s0); [by simplify_eq|done].
Qed.

Lemma pool_step_ok p p' : pool_ok p → step cfg p p' → pool_ok p' ∧ shard_count p' = shard_count p.
Proof.
  intros Hp Hs. destruct Hs as [res p p' Hs|p|i s s' p Hi Ha].
  - destruct (start_pool_ok res p Hp) as (p1 & E & ? & ?). assert (p1 = p') as -> by congruence. done.
  - split; [by apply stop_pool_ok|]. unfold shard_count, stop. destruct (started_ p); [|done]. cbn.
    by rewrite length_reverse, length_fmap, length_reverse.
  - destruct Hp as [Hok Hst]. split; [|unfold shard_count; cbn; by rewrite length_insert].
    destruct (Forall_lookup_1 _ _ _ _ Hok Hi) as [Hl Hr].
    destruct (activity_ok cfg Out s s' Hl Hr Ha) as [Hl' Hr']. split; cbn.
    + by apply Forall_insert.
    + intros E. apply Forall_insert; [by apply Hst|]. rewrite (activity_running s s' Ha).
      by apply (Forall_lookup_1 _ _ _ _ (Hst E) Hi).
Qed.

(** C18: A pool of reactors has at least one shard and never more or fewer than at
    its construction.  Whatever is started (with any shard failing to start),
    stopped and done by the shards in between, every shard keeps the reactor's
    invariant and is either running with its thread and poller or has no thread, no
    connection and nothing watched; when the pool is stopped all shards are in the
    second case; and [start] never terminates the program. *)
Theorem pool_lifecycle b n w p :
  blacklist_ok b → rtc (step cfg) (ReactorPool b n w) p →
  (1 ≤ shard_count p)%nat ∧ shard_count p = shard_count (ReactorPool b n w) ∧
  (∀ s, s ∈ shards_ p → rinv cfg (core s) ∧
     if running_ s then thread_ s = true ∧ poller_ s = true ∧ listening s = true
     else thread_ s = false ∧ connections_ (core s) = ∅ ∧ watched (core s) = ∅) ∧
  (started_ p = false → ∀ s, s ∈ shards_ p → running_ s = false) ∧
  (∀ res, ∃ p', start res p = Ret p').
Proof.
  intros Hb Hrtc.
  assert (pool_ok p ∧ shard_count p = shard_count (ReactorPool b n w)) as [Hp Hn].
  { refine (rtc_ind_r (λ p, pool_ok p ∧ shard_count p = shard_count (ReactorPool b n w)) _ _ _ p Hrtc).
    - split; [|done]. destruct (make_ok cfg b Hb). split; cbn; [|intros _]; by apply Forall_replicate.
    - intros p1 p2 _ Hs [H1 H2]. destruct (pool_step_ok p1 p2 H1 Hs) as [? ->]. done. }
  destruct Hp as [Hok Hst]. split_and!; [|done| | |].
  - rewrite Hn. unfold shard_count, ReactorPool. cbn. rewrite length_replicate. case_decide; lia.
  - intros s Hs. rewrite Forall_forall in Hok. destruct (Hok s Hs) as [[H1 H2 H3 H4 H5] Hr]. split; [done|].
    specialize (H2 eq_refl). destruct (running_ s) eqn:E; [|by rewrite <- H2; auto]. by rewrite <- H2; auto.
  - intros E s Hs. specialize (Hst E). rewrite Forall_forall in Hst. by apply Hst.
  - intros res. destruct (start_pool_ok res p) as (p' & ? & _); [done|eauto].
Qed.
End pool.

Lemma pool_lifecycle_witness :
  Forall (λ s, running_ s = false) (shards_ (stop (mkPool true [run_start (make demo_blacklist)] 1))).
Proof.
  set (p := stop _). destruct (pool_lifecycle (echo_cfg 0) demo_blacklist 0 1 p demo_blacklist_ok) as (_ & _ & _ & H & _).
  - eapply rtc_l; [apply (pool_start _ [(true, true)]); reflexivity|]. apply rtc_once, pool_stop.
  - apply Forall_forall, H. reflexivity.
Defined.
End Pool.

(** ** [TCPListener] *)

Module Listener.

Record listener : Type := mkListener {
  ip_ : str;
  port_ : nat;
  listen_fd_ : Z
}.

Definition TCPListener (ip : str) (port : nat) : listener := mkListener ip port (-1).

(** [get_listener]: the answers of [socket], [bind] and [listen] and the text of
    the error are given; the open descriptors are part of the state.  The socket
    options are not modelled: a failure to set them is not an error. *)
Definition get_listener (socket : option Z) (bind_ok listen_ok : bool) (error : str)
    (l : listener) (opened : gset Z) : (Z + str) * listener * gset Z :=
  if decide (listen_fd_ l ≠ -1) then (inl (listen_fd_ l), l, opened) else
  match socket with
  | None => (inr (lit "TCPListener: socket() failed: " ++ error), mkListener (ip_ l) (port_ l) (-1), opened)
  | Some fd =>
      let opened := {[fd]} ∪ opened in
      if negb bind_ok then
        (inr (lit "TCPListener: bind(" ++ ip_ l ++ lit ", " ++ decimal (port_ l) ++ lit ") failed: " ++ error),
         mkListener (ip_ l) (port_ l) (-1), opened ∖ {[fd]})
      else if negb listen_ok then
        (inr (lit "TCPListener: listen() failed: " ++ error),
         mkListener (ip_ l) (port_ l) (-1), opened ∖ {[fd]})
      else (inl fd, mkListener (ip_ l) (port_ l) fd, opened)
  end.

(** The destructor. *)
Definition destroy (l : listener) (opened : gset Z) : gset Z :=
  if decide (listen_fd_ l ≠ -1) then opened ∖ {[listen_fd_ l]} else opened.

(** The answers of one call. *)
Record answers : Type := mkAnswers {
  a_socket : option Z;
  a_bind : bool;
  a_listen : bool;
  a_error : str
}.

(** Calls one after the other. *)
Fixpoint calls (l : listener) (opened : gset Z) (an : list answers) : list (Z + str) * listener * gset Z :=
  match an with
  | [] => ([], l, opened)
  | a :: an' =>
      let '(r, l', opened') := get_listener (a_socket a) (a_bind a) (a_listen a) (a_error a) l opened in
      let '(rs, l'', opened'') := calls l' opened' an' in (r :: rs, l'', opened'')
  end.

(** The kernel gives out descriptors that are not negative and not open. *)
Definition answer_ok (opened : gset Z) (a : answers) : Prop :=
  match a_socket a with Some fd => 0 ≤ fd ∧ fd ∉ opened | None => True end.

Definition holds (others : gset Z) (l : listener) (opened : gset Z) : Prop :=
  listen_fd_ l = -1 ∧ opened = others ∨
  0 ≤ listen_fd_ l ∧ listen_fd_ l ∉ others ∧ opened = {[listen_fd_ l]} ∪ others.

Lemma get_listener_holds others a l opened r l' opened' :
  holds others l opened → answer_ok others a →
  get_listener (a_socket a) (a_bind a) (a_listen a) (a_error a) l opened = (r, l', opened') →
  holds others l' opened' ∧
  match r with inl fd => listen_fd_ l' = fd ∧ 0 ≤ fd | inr _ => listen_fd_ l' = -1 end ∧
  (0 ≤ listen_fd_ l → l' = l ∧ opened' = opened).
Proof.
  intros Hl Ha. unfold get_listener, answer_ok in *. destruct (decide _) as [Hfd|Hfd].
  { intros [= <- <- <-]. split; [done|]. destruct Hl as [[? _]|(? & _)]; [done|]. done. }
  assert (listen_fd_ l = -1) as E by (by apply dec_stable).
  destruct Hl as [[_ ->]|(? & _)]; [|lia]. destruct (a_socket a) as [fd|].
  2:{ intros [= <- <- <-]. split; [by left|]. split; [done|lia]. }
  destruct Ha as [Hpos Hnin]. assert (({[fd]} ∪ others) ∖ {[fd]} = others) as Hset by set_solver.
  destruct (a_bind a), (a_listen a); cbn [negb]; rewrite ?Hset; intros [= <- <- <-];
    (split; [|split; [done|lia]]); [by right|by left..].
Qed.

Lemma calls_holds others an l opened :
  holds others l opened → Forall (answer_ok others) an →
  let '(rs, l', opened') := calls l opened an in
  holds others l' opened' ∧
  (0 ≤ listen_fd_ l → Forall (λ r, r = inl (listen_fd_ l)) rs ∧ l' = l ∧ opened' = opened).
Proof.
  revert l opened. induction an as [|a an IH]; intros l opened Hl Ha; cbn; [done|].
  apply Forall_cons in Ha as [Ha Han].
  destruct (get_listener _ _ _ _ l opened) as [[r l1] o1] eqn:E.
  destruct (get_listener_holds others a l opened r l1 o1 Hl Ha E) as (H1 & Hr & Hk).
  specialize (IH l1 o1 H1 Han). destruct (calls l1 o1 an) as [[rs l2] o2]. destruct IH as [H2 Hrest].
  split; [done|]. intros Hpos. destruct (Hk Hpos) as [-> ->]. destruct (Hrest Hpos) as (Hall & -> & ->).
  split_and!; [|done..]. constructor; [|done].
  destruct r as [fd|e]; [by destruct Hr as [-> _]|]. lia.
Qed.

(** [TCPListener] owns at most one descriptor and leaks none: after any
    sequence of calls, with any of the system calls failing, the open descriptors
    are those of the rest of the program plus the listener's own if it has one; once
    a call has succeeded, all later calls return the same descriptor; and the
    destructor leaves only the others open. *)
Theorem listener_no_leak ip port others an1 an2 :
  Forall (answer_ok others) (an1 ++ an2) →
  let '(_, l, opened) := calls (TCPListener ip port) others an1 in
  let '(rs, l', opened') := calls l opened an2 in
  (listen_fd_ l ≠ -1 → Forall (λ r, r = inl (listen_fd_ l)) rs) ∧
  (opened' = others ∨ opened' = {[listen_fd_ l']} ∪ others) ∧
  destroy l' opened' = others.
Proof.
  intros [H1 H2]%Forall_app.
  assert (holds others (TCPListener ip port) others) as H0 by (by left).
  pose proof (calls_holds others an1 _ _ H0 H1) as Hc.
  destruct (calls (TCPListener ip port) others an1) as [[r1 l] opened]. destruct Hc as [Hl _].
  pose proof (calls_holds others an2 _ _ Hl H2) as Hc.
  destruct (calls l opened an2) as [[rs l'] opened']. destruct Hc as [Hl' Hsame]. split_and!.
  - intros Hne. destruct Hl as [[? _]|(Hpos & _)]; [done|]. by apply Hsame.
  - destruct Hl' as [[_ ->]|(_ & _ & ->)]; auto.
  - unfold destroy. destruct Hl' as [[-> ->]|(Hpos & Hn & ->)]; [by rewrite decide_False by auto|].
    rewrite decide_True by lia. set_solver.
Qed.

Lemma listener_no_leak_witness :
  let '(_, l, opened) := calls (TCPListener (lit "127.0.0.1") 80) {[0; 1; 2]}
    [mkAnswers (Some 3) false true (lit "Address in use"); mkAnswers (Some 3) true true []] in
  destroy l opened = {[0; 1; 2]}.
Proof.
  pose proof (listener_no_leak (lit "127.0.0.1") 80 {[0; 1; 2]}
    [mkAnswers (Some 3) false true (lit "Address in use"); mkAnswers (Some 3) true true []] []) as H.
  destruct (calls _ _ _) as [[r l] opened]. apply H.
  repeat constructor; try lia; apply (bool_decide_unpack _); vm_compute; exact I.
Defined.
End Listener.
