(* ===== verification/Proxy.v ===== *)
(** * The reverse proxy (src/muses/net_components/proxy.hpp): data model and operations

    A client's coroutine as a computation on the proxy's shared state and on what
    the kernel will answer: each descriptor has the script of what its successive
    [read] and [write] calls find, [connects] what the next [connect_upstream]
    meets and [clock] the successive readings of the clock.  [co_await] of an
    [IoAwaiter] suspends until the poller resumes the coroutine, which then tries
    the call again: [RAgain] and [WAgain] are such a round.  The end of the file
    is met by every later read as well.  A computation that yields [None] never
    returns: its script ends while it is suspended, or it runs out of fuel. *)

From Stdlib Require Import Ascii.
From stdpp Require Import sorting.
From S2P Require Import Prelude Http Cstdlib.

Record ProxyRoute : Type := mkRoute {
  prefix : str;
  host : str;
  port : nat
}.

Record UpstreamHealth : Type := mkHealth {
  healthy : bool;
  unhealthy_since : Z
}.

(** ** Scripts of the kernel *)

Inductive rd : Type :=
  | Data (b : ascii) (bs : str)      (* a read of at least one byte *)
  | Eof
  | RAgain
  | RIntr
  | RErr.

Inductive wr : Type :=
  | Wrote (n : nat)
  | WAgain
  | WIntr
  | WErr.

Inductive connect_result : Type :=
  | NoSocket
  | Immediate (fd : Z)
  | Refused (fd : Z)
  | InProgress (fd : Z) (so_error : bool).

Inductive got : Type :=
  | GBytes (bs : str)
  | GEof
  | GRetry              (* EAGAIN and EINTR: the loop goes round again *)
  | GErr.

(** [::read(fd, chunk, n)]: what was left of a longer arrival stays. *)
Definition sys_read (n : nat) (s : list rd) : option (got * list rd) :=
  match s with
  | [] => None
  | Data b bs :: s' =>
      Some (GBytes (take n (b :: bs)),
            match drop n (b :: bs) with [] => s' | c :: cs => Data c cs :: s' end)
  | Eof :: _ => Some (GEof, s)
  | RAgain :: s' | RIntr :: s' => Some (GRetry, s')
  | RErr :: s' => Some (GErr, s')
  end.

Definition script_size (s : list rd) : nat :=
  foldr (λ e acc, match e with Data _ bs => S (length bs) | _ => 1 end + acc) 0 s.

Definition chunk_size : nat := Z.to_nat 4096.

(** ** Coroutine I/O *)

Fixpoint read_until_loop (fuel : nat) (delimiter buf : str) (s : list rd) : option (str * list rd) :=
  match fuel with
  | O => None
  | S f =>
      match sys_read chunk_size s with
      | None => None
      | Some (GBytes bs, s') =>
          let buf := buf ++ bs in
          if decide (find_sub delimiter buf ≠ None) then Some (buf, s')
          else read_until_loop f delimiter buf s'
      | Some (GEof, s') | Some (GErr, s') => Some (buf, s')
      | Some (GRetry, s') => read_until_loop f delimiter buf s'
      end
  end.

Definition read_until_script (delimiter : str) (s : list rd) : option (str * list rd) :=
  read_until_loop (S (script_size s)) delimiter [] s.

Fixpoint read_n_loop (fuel n : nat) (buf : str) (s : list rd) : option (str * list rd) :=
  if decide (n ≤ length buf) then Some (buf, s) else
  match fuel with
  | O => None
  | S f =>
      match sys_read (Nat.min (n - length buf) chunk_size) s with
      | None => None
      | Some (GBytes bs, s') => read_n_loop f n (buf ++ bs) s'
      | Some (GEof, s') | Some (GErr, s') => Some (buf, s')
      | Some (GRetry, s') => read_n_loop f n buf s'
      end
  end.

Definition read_n_script (n : nat) (s : list rd) : option (str * list rd) :=
  read_n_loop (S (script_size s)) n [] s.

(** [write_all_async]: the result, the bytes accepted and the rest of the script. *)
Fixpoint write_all_loop (ws : list wr) (data : str) (off : nat) : option (bool * nat * list wr) :=
  if decide (length data ≤ off) then Some (true, off, ws) else
  match ws with
  | [] => None
  | Wrote 0 :: ws' | WErr :: ws' => Some (false, off, ws')
  | Wrote n :: ws' => write_all_loop ws' data (off + Nat.min n (length data - off))
  | WAgain :: ws' | WIntr :: ws' => write_all_loop ws' data off
  end.

(** ** The state *)

Record world : Type := mkWorld {
  pools_ : gmap str (list Z);
  health_ : gmap str UpstreamHealth;
  reads : gmap Z (list rd);
  writes : gmap Z (list wr);
  connects : list connect_result;
  clock : list Z;
  sent : list (Z * str);
  closed : list Z
}.

Definition io (A : Type) : Type := world → option (A * world).

#[export] Instance io_ret : MRet io := λ A a w, Some (a, w).
#[export] Instance io_bind : MBind io := λ A B f m w,
  match m w with Some (a, w') => f a w' | None => None end.

Definition modify (f : world → world) : io () := λ w, Some ((), f w).
Definition gets {A} (f : world → A) : io A := λ w, Some (f w, w).

Definition set_pools (p : gmap str (list Z)) (w : world) : world :=
  mkWorld p (health_ w) (reads w) (writes w) (connects w) (clock w) (sent w) (closed w).
Definition set_health (h : gmap str UpstreamHealth) (w : world) : world :=
  mkWorld (pools_ w) h (reads w) (writes w) (connects w) (clock w) (sent w) (closed w).
Definition set_reads (r : gmap Z (list rd)) (w : world) : world :=
  mkWorld (pools_ w) (health_ w) r (writes w) (connects w) (clock w) (sent w) (closed w).
Definition set_writes (ws : gmap Z (list wr)) (w : world) : world :=
  mkWorld (pools_ w) (health_ w) (reads w) ws (connects w) (clock w) (sent w) (closed w).
Definition set_connects (c : list connect_result) (w : world) : world :=
  mkWorld (pools_ w) (health_ w) (reads w) (writes w) c (clock w) (sent w) (closed w).
Definition set_clock (c : list Z) (w : world) : world :=
  mkWorld (pools_ w) (health_ w) (reads w) (writes w) (connects w) c (sent w) (closed w).
Definition log_sent (fd : Z) (bs : str) (w : world) : world :=
  mkWorld (pools_ w) (health_ w) (reads w) (writes w) (connects w) (clock w) (sent w ++ [(fd, bs)]) (closed w).
Definition log_close (fd : Z) (w : world) : world :=
  mkWorld (pools_ w) (health_ w) (reads w) (writes w) (connects w) (clock w) (sent w) (closed w ++ [fd]).

(** [steady_clock::now()]. *)
Definition now : io Z := λ w,
  match clock w with [] => None | t :: ts => Some (t, set_clock ts w) end.

Definition close_fd (fd : Z) : io () := modify (log_close fd).

(** A reading operation on the script of [fd]. *)
Definition on_reads {A} (fd : Z) (f : list rd → option (A * list rd)) : io A := λ w,
  '(a, s) ← f (default [] (reads w !! fd)); Some (a, set_reads (<[fd := s]> (reads w)) w).

Definition read_until (fd : Z) (delimiter : str) : io str := on_reads fd (read_until_script delimiter).
Definition read_n (fd : Z) (n : nat) : io str := on_reads fd (read_n_script n).

Definition write_all_async (fd : Z) (data : str) : io bool := λ w,
  '(ok, off, ws) ← write_all_loop (default [] (writes w !! fd)) data 0;
  Some (ok, log_sent fd (take off data) (set_writes (<[fd := ws]> (writes w)) w)).

Definition connect_upstream : io (option Z) := λ w,
  match connects w with
  | [] => None
  | c :: cs =>
      let w := set_connects cs w in
      match c with
      | NoSocket => Some (None, w)
      | Immediate fd => Some (Some fd, w)
      | Refused fd => Some (None, log_close fd w)
      | InProgress fd true => Some (None, log_close fd w)
      | InProgress fd false => Some (Some fd, w)
      end
  end.

(** ** Upstream connections and their health *)

Definition upstream_key (host : str) (port : nat) : str := host ++ [COLON] ++ decimal port.

Definition acquire_upstream (host : str) (port : nat) : io (option Z) :=
  pools ← gets pools_;
  match pools !! upstream_key host port with
  | Some (fd :: rest) =>
      modify (λ w, set_pools (<[upstream_key host port := rest]> (pools_ w)) w);; mret (Some fd)
  | _ => connect_upstream
  end.

Definition pool_cap : nat := 64.

Definition release_upstream (host : str) (port : nat) (fd : Z) (reusable : bool) : io () :=
  if decide (fd < 0)%Z then mret () else
  if negb reusable then close_fd fd else
  pools ← gets pools_;
  let key := upstream_key host port in
  let pool := default [] (pools !! key) in
  if decide (pool_cap ≤ length pool) then
    modify (λ w, set_pools (<[key := pool]> (pools_ w)) w);; close_fd fd
  else modify (λ w, set_pools (<[key := pool ++ [fd]]> (pools_ w)) w).

(** The table after the test of an upstream, and the answer. *)
Definition health_test (cooldown t : Z) (key : str) (hs : gmap str UpstreamHealth) :
    bool * gmap str UpstreamHealth :=
  match hs !! key with
  | None => (true, hs)
  | Some h =>
      if healthy h then (true, hs)
      else if decide (cooldown < t - unhealthy_since h)%Z then
        (true, <[key := mkHealth true (unhealthy_since h)]> hs)
      else (false, hs)
  end.

Definition is_healthy (cooldown : Z) (host : str) (port : nat) : io bool :=
  hs ← gets health_;
  match hs !! upstream_key host port with
  | None => mret true
  | Some h =>
      if healthy h then mret true else
      t ← now;
      let '(ok, hs') := health_test cooldown t (upstream_key host port) hs in
      modify (set_health hs');; mret ok
  end.

Definition mark_unhealthy (host : str) (port : nat) : io () :=
  t ← now;
  modify (λ w, set_health (<[upstream_key host port := mkHealth false t]> (health_ w)) w).

(** ** Headers *)

Definition tolower (c : ascii) : ascii :=
  let n := nat_of_ascii c in if decide (65 ≤ n ∧ n ≤ 90) then ascii_of_nat (n + 32) else c.

Definition iequals (a b : str) : bool :=
  bool_decide (length a = length b) && forallb (λ p, bool_decide (tolower p.1 = tolower p.2)) (zip a b).

Definition hop : list str :=
  [lit "connection"; lit "keep-alive"; lit "proxy-authenticate"; lit "proxy-authorization";
   lit "te"; lit "trailer"; lit "transfer-encoding"; lit "upgrade"].

Definition is_hop_by_hop (name : str) : bool := existsb (iequals name) hop.

(** The order of [std::map<std::string, ...>]. *)
Fixpoint str_le (a b : str) : bool :=
  match a, b with
  | [], _ => true
  | _ :: _, [] => false
  | x :: a', y :: b' =>
      if decide (nat_of_ascii x < nat_of_ascii y) then true
      else if decide (nat_of_ascii y < nat_of_ascii x) then false
      else str_le a' b'
  end.

Definition key_le (p q : str * str) : Prop := str_le p.1 q.1 = true.
#[export] Instance key_le_dec : RelDecision key_le.
Proof. intros p q. unfold key_le. apply _. Defined.

Definition in_order (hs : gmap str str) : list (str * str) := merge_sort key_le (map_to_list hs).

Definition header_get (hs : gmap str str) (name : str) : str :=
  default [] (snd <$> List.find (λ kv, iequals kv.1 name) (in_order hs)).

Definition content_length (l : str) : nat := Z.to_nat (default 0%Z (stoull l)).

(** ** Routing and rewriting *)

Definition is_prefix (p l : str) : bool := bool_decide (take (length p) l = p).

Definition find_route (routes : list ProxyRoute) (u : str) : option ProxyRoute :=
  match List.find (λ r, is_prefix (prefix r) u) routes with
  | Some r => Some r
  | None => last routes
  end.

Definition rewrite_request (info : HttpInfo) (b : str) : str :=
  method info ++ lit " " ++ url info ++ lit " " ++ version info ++ CRLF ++
  (in_order (headers info) ≫= λ kv, if is_hop_by_hop kv.1 then [] else kv.1 ++ lit ": " ++ kv.2 ++ CRLF) ++
  lit "X-Forwarded-Proto: http" ++ CRLF ++ CRLF ++ b.

Definition bad_gateway (why : str) : str := build_response 502 (lit "Bad Gateway") (lit "text/plain") why false.

(** ** Reading the upstream's response *)

Definition safety_cap : nat := Z.to_nat (16 * 1024 * 1024).
Definition end_of_head : str := CRLF ++ CRLF.
Definition last_chunk : str := lit "0" ++ CRLF ++ CRLF.

Fixpoint chunk_loop (fuel : nat) (chunkbuf : str) (s : list rd) : option (str * list rd) :=
  match fuel with
  | O => None
  | S f =>
      if decide (find_sub last_chunk chunkbuf ≠ None) then Some (chunkbuf, s)
      else if decide (find_sub CRLF chunkbuf = None) then
        '(more, s) ← read_until_script CRLF s; chunk_loop f (chunkbuf ++ more) s
      else
        '(more, s) ← read_n_script chunk_size s;
        if decide (more = []) then Some (chunkbuf, s)
        else if decide (safety_cap < length (chunkbuf ++ more)) then Some (chunkbuf ++ more, s)
        else chunk_loop f (chunkbuf ++ more) s
  end.

Fixpoint eof_loop (fuel : nat) (buf : str) (s : list rd) : option (str * list rd) :=
  match fuel with
  | O => None
  | S f =>
      '(more, s) ← read_n_script chunk_size s;
      if decide (more = []) then Some (buf, s)
      else if decide (safety_cap < length (buf ++ more)) then Some (buf ++ more, s)
      else eof_loop f (buf ++ more) s
  end.

(** The body that follows a response head; [in_head] was read with the head. *)
Definition read_response_body (fd : Z) (hs : gmap str str) (in_head : str) : io str :=
  let te := header_get hs (lit "Transfer-Encoding") in
  let cl := header_get hs (lit "Content-Length") in
  if decide (find_sub (lit "chunked") te ≠ None) then
    on_reads fd (λ s, chunk_loop (2 + script_size s) in_head s)
  else if decide (cl ≠ []) then
    if decide (length in_head < content_length cl) then
      rest ← read_n fd (content_length cl - length in_head); mret (in_head ++ rest)
    else mret in_head
  else on_reads fd (λ s, eof_loop (2 + script_size s) in_head s).

(** ** Forwarding *)

(** One attempt: the response, or [None] for a retry. *)
Definition attempt (r : ProxyRoute) (request : str) : io (option str) :=
  up ← acquire_upstream (host r) (port r);
  match up with
  | None => mark_unhealthy (host r) (port r);; mret None
  | Some fd =>
      wrote ← write_all_async fd request;
      if negb wrote then close_fd fd;; mark_unhealthy (host r) (port r);; mret None else
      up_head ← read_until fd end_of_head;
      match find_sub end_of_head up_head with
      | None => close_fd fd;; mark_unhealthy (host r) (port r);; mret None
      | Some i =>
          let info := parse_request up_head in
          b ← read_response_body fd (headers info) (drop (i + 4) up_head);
          release_upstream (host r) (port r) fd true;;
          mret (Some (take (i + 4) up_head ++ b))
      end
  end.

(** The retry loop: at most [attempts] attempts, [max_retries_ + 1] of them. *)
Fixpoint forward (attempts : nat) (r : ProxyRoute) (request : str) : io (option str) :=
  match attempts with
  | O => mret None
  | S n =>
      resp ← attempt r request;
      match resp with Some x => mret (Some x) | None => forward n r request end
  end.

Record proxy_config : Type := mkProxy {
  routes_ : list ProxyRoute;
  max_retries_ : nat;
  upstream_cooldown_ : Z
}.

(** ** One request of a client: whether the connection goes on *)

(** Routing, health gate, forwarding and the answer, once the request is read. *)
Definition answer (cfg : proxy_config) (client : Z) (info : HttpInfo) (b : str) : io bool :=
  match find_route (routes_ cfg) (url info) with
  | None => write_all_async client (bad_gateway (lit "no route"));; mret false
  | Some r =>
      ok ← is_healthy (upstream_cooldown_ cfg) (host r) (port r);
      if negb ok then write_all_async client (bad_gateway (lit "upstream unavailable"));; mret false else
      resp ← forward (S (max_retries_ cfg)) r (rewrite_request info b);
      match resp with
      | None => write_all_async client (bad_gateway (lit "upstream failed"));; mret false
      | Some x =>
          client_ok ← write_all_async client x;
          mret (client_ok && wants_keep_alive info)
      end
  end.

Definition serve_once (cfg : proxy_config) (client : Z) : io bool :=
  head ← read_until client end_of_head;
  match find_sub end_of_head head with
  | None => mret false
  | Some i =>
      let info := parse_request head in
      let body_len := content_length (header_get (headers info) (lit "Content-Length")) in
      let in_head := drop (i + 4) head in
      b ← (if decide (length in_head < body_len) then
             rest ← read_n client (body_len - length in_head); mret (in_head ++ rest)
           else mret in_head);
      answer cfg client info b
  end.

(** The keep-alive loop, for at most [fuel] requests. *)
Fixpoint serve_client (fuel : nat) (cfg : proxy_config) (client : Z) : io () :=
  match fuel with
  | O => λ _, None
  | S f => again ← serve_once cfg client; if again : bool then serve_client f cfg client else mret ()
  end.

(** The state the constructor leaves: every upstream of a route is healthy. *)
Definition initial_health (routes : list ProxyRoute) : gmap str UpstreamHealth :=
  foldl (λ hs r, match hs !! upstream_key (host r) (port r) with
                 | Some _ => hs
                 | None => <[upstream_key (host r) (port r) := mkHealth true 0]> hs
                 end) ∅ routes.

(** ** The end *)

(** [stop]: the pooled connections are closed. *)
Definition stop_pools (w : world) : world :=
  set_pools ∅ (foldl (λ w fd, log_close fd w) w (concat (map_to_list (pools_ w)).*2)).
