(* ===== verification/ProxyIO.v ===== *)
(** * The proxy's coroutine I/O

    What [read_until], [read_n] and [write_all_async] deliver does not depend on
    how the kernel cuts the stream, on interrupted calls or on suspensions. *)

From Stdlib Require Import Ascii.
From S2P Require Import Prelude Http Proxy.

#[local] Opaque chunk_size.

Lemma chunk_size_pos : 0 < chunk_size.
Proof. with_strategy transparent [chunk_size] unfold chunk_size. lia. Qed.

(** The bytes a script will deliver before its end of file or error. *)
Fixpoint stream (s : list rd) : str :=
  match s with
  | Data b bs :: s' => b :: bs ++ stream s'
  | RAgain :: s' | RIntr :: s' => stream s'
  | _ => []
  end.

(** The stream is closed or broken at its end, not only quiet. *)
Fixpoint ended (s : list rd) : bool :=
  match s with
  | Data _ _ :: s' | RAgain :: s' | RIntr :: s' => ended s'
  | Eof :: _ | RErr :: _ => true
  | [] => false
  end.

Lemma script_size_data b bs s : script_size (Data b bs :: s) = S (length bs) + script_size s.
Proof. done. Qed.

Lemma sys_read_bytes n b bs s : 0 < n →
  ∃ s', sys_read n (Data b bs :: s) = Some (GBytes (take n (b :: bs)), s') ∧
    stream (Data b bs :: s) = take n (b :: bs) ++ stream s' ∧ ended s' = ended s ∧
    script_size s' < script_size (Data b bs :: s).
Proof.
  intros Hn. cbn [sys_read]. eexists. split; [done|].
  destruct (drop n (b :: bs)) as [|c cs] eqn:Hd.
  - split_and!; [|done|rewrite script_size_data; lia]. rewrite take_ge; [done|]. apply (f_equal length) in Hd.
    rewrite length_drop in Hd. cbn in *. lia.
  - split_and!; [|done|].
    + change (stream (Data b bs :: s)) with ((b :: bs) ++ stream s).
      rewrite <- (take_drop n (b :: bs)) at 1. by rewrite Hd, <- app_assoc.
    + apply (f_equal length) in Hd. rewrite length_drop in Hd. rewrite !script_size_data. cbn in Hd. lia.
Qed.

(** ** Reading a given number of bytes *)

Lemma read_n_loop_spec fuel n buf s :
  script_size s < fuel → length buf ≤ n →
  let k := n - length buf in
  (k ≤ length (stream s) →
     ∃ s', read_n_loop fuel n buf s = Some (buf ++ take k (stream s), s') ∧
       stream s' = drop k (stream s) ∧ ended s' = ended s) ∧
  (length (stream s) < k → ended s = true →
     ∃ s', read_n_loop fuel n buf s = Some (buf ++ stream s, s')).
Proof.
  revert buf s. induction fuel as [|fuel IH]; intros buf s Hf Hb k; [lia|].
  cbn [read_n_loop]. destruct (decide (n ≤ length buf)) as [Hge|Hlt].
  { assert (k = 0) as -> by (unfold k; lia). split; [|lia]. intros _. exists s.
    rewrite take_0, app_nil_r. done. }
  destruct s as [|[b bs| | | |] s].
  - split; [cbn; intros; unfold k in *; lia|done].
  - set (m := Nat.min (n - length buf) chunk_size).
    assert (0 < m) by (unfold m; pose proof chunk_size_pos; lia).
    destruct (sys_read_bytes m b bs s) as (s' & -> & Hst & He & Hsz); [done|].
    set (got := take m (b :: bs)) in *.
    assert (length got ≤ k) as Hg by (unfold got; rewrite length_take; unfold m, k; lia).
    assert (n - length (buf ++ got) = k - length got) as Hk by (rewrite length_app; unfold k; lia).
    destruct (IH (buf ++ got) s') as [IH1 IH2]; [lia|rewrite length_app; unfold k in *; lia|].
    rewrite Hk in IH1, IH2. rewrite Hst, length_app. split.
    + intros Hle. destruct IH1 as (s2 & -> & Hs2 & He2); [lia|]. exists s2.
      rewrite take_app_ge, drop_app_ge by lia. rewrite app_assoc. split_and!; [done|done|]. cbn [ended]. congruence.
    + intros Hlt2 Hen. destruct IH2 as (s2 & ->); [lia|by rewrite He|]. exists s2. by rewrite app_assoc.
  - split; [cbn; intros; unfold k in *; lia|]. intros _ _. eexists. cbn. by rewrite app_nil_r.
  - cbn [sys_read stream ended]. apply IH; [unfold script_size in *; cbn in Hf; lia|done].
  - cbn [sys_read stream ended]. apply IH; [unfold script_size in *; cbn in Hf; lia|done].
  - split; [cbn; intros; unfold k in *; lia|]. intros _ _. eexists. cbn. by rewrite app_nil_r.
Qed.

Lemma read_n_script_spec n s :
  (n ≤ length (stream s) →
     ∃ s', read_n_script n s = Some (take n (stream s), s') ∧
       stream s' = drop n (stream s) ∧ ended s' = ended s) ∧
  (length (stream s) < n → ended s = true → ∃ s', read_n_script n s = Some (stream s, s')).
Proof.
  destruct (read_n_loop_spec (S (script_size s)) n [] s) as [H1 H2]; [lia|cbn; lia|].
  cbn [length app] in H1, H2. rewrite Nat.sub_0_r in H1, H2. by split.
Qed.

(** [read_n] is exact and independent of the kernel's chunking: whatever
    sizes the reads return and however often the coroutine is interrupted or
    suspended, it returns precisely the next [n] bytes of the stream and consumes
    no more; when the stream ends earlier it returns all that is left. *)
Theorem proxy_read_n fd n w :
  let s := default [] (reads w !! fd) in
  (n ≤ length (stream s) →
     ∃ w', read_n fd n w = Some (take n (stream s), w') ∧
       stream (default [] (reads w' !! fd)) = drop n (stream s)) ∧
  (length (stream s) < n → ended s = true →
     ∃ w', read_n fd n w = Some (stream s, w')).
Proof.
  intros s. unfold read_n, on_reads. fold s. destruct (read_n_script_spec n s) as [H1 H2]. split.
  - intros Hn. destruct (H1 Hn) as (s' & -> & Hs' & _). eexists. split; [done|].
    cbn [reads set_reads]. by rewrite lookup_insert_eq.
  - intros Hn He. destruct (H2 Hn He) as (s' & ->). by eexists.
Qed.

(** ** Reading up to a delimiter *)

Lemma read_until_loop_spec fuel delim buf s :
  script_size s < fuel → find_sub delim (buf ++ stream s) ≠ None → find_sub delim buf = None →
  ∃ pre got s', read_until_loop fuel delim buf s = Some (pre ++ got, s') ∧
    buf ++ stream s = (pre ++ got) ++ stream s' ∧ ended s' = ended s ∧
    find_sub delim (pre ++ got) ≠ None ∧ find_sub delim pre = None ∧ length got ≤ chunk_size.
Proof.
  revert buf s. induction fuel as [|fuel IH]; intros buf s Hf Hin Hno; [lia|]. cbn [read_until_loop].
  destruct s as [|[b bs| | | |] s]; cbn [stream] in Hin; rewrite ?app_nil_r in Hin; try done.
  - destruct (sys_read_bytes chunk_size b bs s chunk_size_pos) as (s' & -> & Hst & He & Hsz).
    set (got := take chunk_size (b :: bs)) in *. cbn [stream] in Hst |- *. rewrite Hst in Hin |- *.
    cbn [ended]. destruct (decide (find_sub delim (buf ++ got) ≠ None)) as [Hfound|Hnone].
    + exists buf, got, s'. rewrite <- app_assoc. split_and!; try done. unfold got. rewrite length_take. lia.
    + destruct (IH (buf ++ got) s') as (pre & g & s2 & -> & Hall & He2 & ?); [lia|by rewrite <- app_assoc| |].
      { by destruct (find_sub delim (buf ++ got)); [destruct Hnone|]. }
      exists pre, g, s2. rewrite <- app_assoc in Hall. split_and!; try done; [congruence|naive_solver..].
  - cbn [sys_read ended stream]. apply IH; [unfold script_size in *; cbn in Hf; lia|done|done].
  - cbn [sys_read ended stream]. apply IH; [unfold script_size in *; cbn in Hf; lia|done|done].
Qed.

Lemma read_until_script_spec delim s :
  delim ≠ [] → find_sub delim (stream s) ≠ None →
  ∃ buf s', read_until_script delim s = Some (buf, s') ∧ stream s = buf ++ stream s' ∧
    ended s' = ended s ∧ find_sub delim buf ≠ None ∧ find_sub delim buf = find_sub delim (stream s).
Proof.
  intros Hd Hin. destruct (read_until_loop_spec (S (script_size s)) delim [] s)
    as (pre & got & s' & Heq & Hall & He & Hfound & _); [lia|done|by destruct delim|].
  exists (pre ++ got), s'. split_and!; try done. cbn in Hall.
  destruct (find_sub delim (pre ++ got)) as [i|] eqn:Hi; [|done].
  symmetry. rewrite Hall. by apply find_sub_app.
Qed.

(** ** Writing *)

Lemma write_all_loop_spec ws data off ok n ws' :
  off ≤ length data → write_all_loop ws data off = Some (ok, n, ws') →
  off ≤ n ≤ length data ∧ (ok = true ↔ n = length data).
Proof.
  revert off. induction ws as [|x ws IH]; intros off Hoff; cbn [write_all_loop].
  - destruct (decide _); [|done]. intros [= <- <- <-]. split; [lia|]. split; [lia|done].
  - destruct (decide _) as [|Hlt]; [intros [= <- <- <-]; split; [lia|]; split; [lia|done]|].
    destruct x as [[|k]| | |].
    + intros [= <- <- <-]. split; [lia|]. split; [done|lia].
    + intros Hr. apply IH in Hr; [|lia]. split; [lia|apply Hr].
    + by apply IH.
    + by apply IH.
    + intros [= <- <- <-]. split; [lia|]. split; [done|lia].
Qed.

(** [write_all_async] is all or nothing in its answer and never garbles: the
    bytes given to the socket are a prefix of the data, and the answer is [true]
    exactly when they are all of it, whatever partial writes, interrupts and
    suspensions there were. *)
Theorem proxy_write_all fd data w ok w' :
  write_all_async fd data w = Some (ok, w') →
  ∃ n, n ≤ length data ∧ sent w' = sent w ++ [(fd, take n data)] ∧
    (ok = true ↔ take n data = data) ∧
    pools_ w' = pools_ w ∧ health_ w' = health_ w ∧ closed w' = closed w ∧ reads w' = reads w.
Proof.
  unfold write_all_async. destruct (write_all_loop _ data 0) as [[[ok' n] ws]|] eqn:Hl; [|done].
  apply write_all_loop_spec in Hl; [|lia]. intros [= <- <-]. exists n. cbn.
  split_and!; try done; [lia|]. destruct Hl as [Hn ->]. split.
  - intros ->. by rewrite firstn_all.
  - intros Heq. apply (f_equal length) in Heq. rewrite length_take in Heq. lia.
Qed.
