(* ===== verification/ProxyProps.v ===== *)
(** * Properties of the reverse proxy

    Reading a message off a connection, rewriting a request, and relaying a
    request and its response end to end. *)

From Stdlib Require Import Ascii.
From stdpp Require Import sorting.
From S2P Require Import Prelude Http Messages Proxy ProxyIO.

#[local] Opaque chunk_size safety_cap.

(** Reading up to the empty line returns the head and a first part of the body. *)
Lemma read_head s m u ver hs b :
  stream s = print_request m u ver hs b → line_ok m u ver → Forall header_ok hs →
  ∃ b1 s' i, read_until_script end_of_head s = Some (print_request m u ver hs b1, s') ∧
    b = b1 ++ stream s' ∧ ended s' = ended s ∧
    find_sub end_of_head (print_request m u ver hs b1) = Some i ∧
    take (i + 4) (print_request m u ver hs b1) = print_head m u ver hs ∧
    drop (i + 4) (print_request m u ver hs b1) = b1 ∧
    parse_request (print_request m u ver hs b1) = mkInfo m u ver (insert_all hs ∅) b1.
Proof.
  intros Hs Hline Hok. pose proof (head_ends m u ver hs b Hline Hok) as Hend. change head_mark with end_of_head in Hend.
  destruct (read_until_script_spec end_of_head s) as (buf & s' & Heq & Hst & He & Hin & Hsame);
    [done|by rewrite Hs, Hend|].
  set (h := print_head m u ver hs) in *.
  assert (4 ≤ length h) as Hh.
  { unfold h, print_head, print_request. rewrite !length_app. change (length CRLF) with 2. lia. }
  rewrite Hs, Hend in Hsame.
  assert (length h ≤ length buf) as Hlen.
  { pose proof (find_sub_spec end_of_head buf) as Hsp. rewrite Hsame in Hsp. destruct Hsp as [Ho _].
    apply occurs_bound in Ho; [|done]. change (length end_of_head) with 4 in Ho. lia. }
  assert (buf = h ++ drop (length h) buf) as Hbuf.
  { rewrite Hs, print_request_head in Hst. apply (f_equal (take (length h))) in Hst.
    fold h in Hst. rewrite take_app_length, take_app_le in Hst by done. rewrite Hst at 1. by rewrite take_drop. }
  set (b1 := drop (length h) buf) in *. clearbody b1. subst buf.
  rewrite Hs, print_request_head, <- app_assoc in Hst. fold h in Hst. apply app_inv_head in Hst.
  exists b1, s', (length h - 4). rewrite print_request_head. fold h.
  replace (length h - 4 + 4) with (length h) by lia. rewrite take_app_length, drop_app_length.
  split_and!; try done. unfold h. rewrite <- print_request_head.
  apply parse_print; [apply Hline..|done].
Qed.

(** ** Reading the rest of a body of known length *)

Lemma set_reads_id w : set_reads (reads w) w = w.
Proof. by destruct w. Qed.

Lemma read_rest fd n b1 b w :
  b = b1 ++ stream (default [] (reads w !! fd)) → n = length b →
  ∃ rs, (if decide (length b1 < n) then rest ← read_n fd (n - length b1); mret (b1 ++ rest) else mret b1) w
      = Some (b, set_reads rs w) ∧
    stream (default [] (rs !! fd)) = [] ∧ ∀ k, k ≠ fd → rs !! k = reads w !! k.
Proof.
  intros Hb ->. set (st := stream (default [] (reads w !! fd))) in *.
  assert (length b = length b1 + length st) as Hlen by (by rewrite Hb, length_app).
  destruct (decide (length b1 < length b)) as [Hlt|Hge].
  - unfold mbind, io_bind, read_n, on_reads.
    destruct (read_n_script_spec (length b - length b1) (default [] (reads w !! fd))) as [Hr _].
    fold st in Hr. destruct Hr as (s' & -> & Hs' & _); [lia|]. cbn [mbind option_bind].
    eexists. split; [unfold mret, io_ret; rewrite take_ge by lia; by rewrite <- Hb|].
    rewrite lookup_insert_eq. cbn [default]. split.
    + cbn. rewrite Hs'. apply drop_ge. lia.
    + intros k Hk. by rewrite lookup_insert_ne.
  - assert (st = []) as Hst by (destruct st; [done|cbn in *; lia]).
    exists (reads w). rewrite set_reads_id. split_and!; try done. by rewrite Hb, Hst, app_nil_r.
Qed.

(** ** Rewriting *)

Definition XFP : str := lit "X-Forwarded-Proto".

(** The headers that are forwarded. *)
Definition kept (hs : gmap str str) : gmap str str := filter (λ kv, is_hop_by_hop kv.1 = false) hs.

Lemma in_order_perm hs : in_order hs ≡ₚ map_to_list hs.
Proof. apply merge_sort_Permutation. Qed.

Lemma insert_all_union l m : NoDup l.*1 → insert_all l m = list_to_map l ∪ m.
Proof.
  revert m. induction l as [|[k v] l IH]; intros m Hnd; cbn; [by rewrite (left_id_L ∅ (∪))|].
  apply NoDup_cons in Hnd as [Hk Hnd]. unfold insert_all in IH. rewrite IH by done.
  rewrite <- insert_union_l. apply not_elem_of_list_to_map_1 in Hk.
  by rewrite <- insert_union_r.
Qed.

Lemma insert_all_filtered (P : str * str → Prop) `{∀ x, Decision (P x)} hs :
  insert_all (filter P (in_order hs)) ∅ = filter P hs.
Proof.
  assert (NoDup (filter P (in_order hs)).*1) as Hnd.
  { apply (sublist_NoDup _ (in_order hs).*1); [|apply fmap_sublist, sublist_filter].
    rewrite in_order_perm. apply NoDup_fst_map_to_list. }
  rewrite insert_all_union, (right_id_L ∅ (∪)) by done.
  apply map_eq. intros k. apply option_eq. intros v.
  rewrite map_lookup_filter_Some, <- elem_of_list_to_map by done.
  rewrite list_elem_of_filter, in_order_perm, elem_of_map_to_list. naive_solver.
Qed.

Lemma bind_filter (P : str * str → bool) (f : str * str → str) l :
  (l ≫= λ kv, if P kv then [] else f kv) = filter (λ kv, P kv = false) l ≫= f.
Proof.
  induction l as [|kv l IH]; [done|].
  change ((if P kv then [] else f kv) ++ (l ≫= λ kv, if P kv then [] else f kv) = filter (λ kv, P kv = false) (kv :: l) ≫= f).
  rewrite IH. destruct (P kv) eqn:Hp.
  - by rewrite filter_cons_False by congruence.
  - by rewrite filter_cons_True.
Qed.

Lemma rewrite_prints info b :
  rewrite_request info b = print_request (method info) (url info) (version info)
    (filter (λ kv, is_hop_by_hop kv.1 = false) (in_order (headers info)) ++ [(XFP, lit "http")]) b.
Proof.
  unfold rewrite_request, print_request.
  rewrite (bind_filter (λ kv, is_hop_by_hop kv.1) (λ kv, kv.1 ++ lit ": " ++ kv.2 ++ CRLF)).
  change (λ kv : str * str, kv.1 ++ lit ": " ++ kv.2 ++ CRLF) with print_header.
  rewrite bind_app. change ([(XFP, lit "http")] ≫= print_header) with (lit "X-Forwarded-Proto: http" ++ CRLF).
  change (lit " ") with [SP]. by rewrite <- !app_assoc.
Qed.

(** C32: What the proxy forwards is what the client asked: the rewritten request,
    parsed by the upstream, has the same method, target, version and body, and
    its headers are exactly the client's end-to-end headers with their values,
    without the hop-by-hop ones, plus [X-Forwarded-Proto: http]. *)
Theorem proxy_rewrite_roundtrip info b :
  SP ∉ method info → SP ∉ url info → CR ∉ version info →
  (∀ k v, headers info !! k = Some v → header_ok (k, v)) →
  parse_request (rewrite_request info b) =
    mkInfo (method info) (url info) (version info) (<[XFP := lit "http"]> (kept (headers info))) b.
Proof.
  intros Hm Hu Hv Hhs. rewrite rewrite_prints. rewrite parse_print; try done.
  - f_equal. unfold insert_all. rewrite foldl_app. cbn [foldl fst snd]. f_equal. apply insert_all_filtered.
  - apply Forall_app. split.
    + apply Forall_forall. intros [k v] [_ Hkv]%list_elem_of_filter.
      rewrite in_order_perm, elem_of_map_to_list in Hkv. by apply Hhs.
    + apply Forall_singleton. split_and!; not_in_literal.
Qed.

(** ** Upstream connections *)

Definition pool_of (key : str) (w : world) : list Z := default [] (pools_ w !! key).

(** The next connection for [key] is [fd]: an idle one, or a new one. *)
Definition available (key : str) (fd : Z) (w : world) : Prop :=
  head (pool_of key w) = Some fd ∨
  (pool_of key w = [] ∧ ∃ cs, connects w = Immediate fd :: cs ∨ connects w = InProgress fd false :: cs).

Lemma acquire_ok h p fd w :
  available (upstream_key h p) fd w →
  ∃ ps cs, acquire_upstream h p w = Some (Some fd, set_pools ps (set_connects cs w)) ∧
    default [] (ps !! upstream_key h p) = tail (pool_of (upstream_key h p) w).
Proof.
  unfold available, acquire_upstream, pool_of. unfold mbind at 1, io_bind at 1, gets. cbn [mbind].
  intros [Hh|[He (cs & Hc)]].
  - destruct (pools_ w !! upstream_key h p) as [[|fd' rest]|] eqn:Hp; cbn in Hh; simplify_eq.
    exists (<[upstream_key h p := rest]> (pools_ w)), (connects w). split; [by destruct w|].
    by rewrite lookup_insert_eq.
  - exists (pools_ w), cs. rewrite He. split; [|done].
    destruct (pools_ w !! upstream_key h p) as [[|fd' rest]|] eqn:Hp; cbn in He; simplify_eq;
      unfold connect_upstream; destruct Hc as [-> | ->]; by destruct w.
Qed.

Lemma release_ok h p fd w :
  (0 ≤ fd)%Z → length (pool_of (upstream_key h p) w) < pool_cap →
  release_upstream h p fd true w =
    Some ((), set_pools (<[upstream_key h p := pool_of (upstream_key h p) w ++ [fd]]> (pools_ w)) w).
Proof.
  intros Hfd Hlen. unfold release_upstream. rewrite decide_False by lia. cbn [negb].
  unfold mbind, io_bind, gets. unfold pool_of in *. rewrite decide_False by lia. done.
Qed.

(** The script of [fd] takes all of [data]. *)
Definition accepts (fd : Z) (data : str) (w : world) : Prop :=
  ∃ ws, write_all_loop (default [] (writes w !! fd)) data 0 = Some (true, length data, ws).

Lemma write_ok fd data w :
  accepts fd data w →
  ∃ ws, write_all_async fd data w =
    Some (true, log_sent fd data (set_writes (<[fd := ws]> (writes w)) w)).
Proof.
  intros [ws Hw]. exists ws. unfold write_all_async. rewrite Hw. cbn [mbind option_bind].
  by rewrite firstn_all.
Qed.

(** ** Relaying *)

(** A message on a connection: its head and a body of the announced length. *)
Record message : Type := mkMessage {
  msg_line : str * str * str;
  msg_headers : list (str * str);
  msg_body : str
}.

Definition bytes (x : message) : str :=
  let '(m, u, ver) := msg_line x in print_request m u ver (msg_headers x) (msg_body x).
Definition msg_info (x : message) (b : str) : HttpInfo :=
  let '(m, u, ver) := msg_line x in mkInfo m u ver (insert_all (msg_headers x) ∅) b.
Definition msg_length (x : message) : str := header_get (insert_all (msg_headers x) ∅) (lit "Content-Length").

Record message_ok (x : message) : Prop := mkMessageOk {
  mok_line : let '(m, u, ver) := msg_line x in line_ok m u ver;
  mok_headers : Forall header_ok (msg_headers x);
  mok_length : content_length (msg_length x) = length (msg_body x)
}.

(** What waits on a connection. *)
Definition incoming (fd : Z) (w : world) : str := stream (default [] (reads w !! fd)).

(** Reading the head of a message, in a world. *)
Lemma read_message fd x w :
  incoming fd w = bytes x → message_ok x →
  ∃ buf i b1 s, read_until fd end_of_head w = Some (buf, set_reads (<[fd := s]> (reads w)) w) ∧
    find_sub end_of_head buf = Some i ∧ drop (i + 4) buf = b1 ∧ parse_request buf = msg_info x b1 ∧
    take (i + 4) buf ++ msg_body x = bytes x ∧ msg_body x = b1 ++ stream s.
Proof.
  intros Hin [Hline Hok _]. unfold incoming, bytes in *. destruct (msg_line x) as [[m u] ver] eqn:Hx.
  destruct (read_head _ m u ver (msg_headers x) (msg_body x) Hin Hline Hok)
    as (b1 & s & i & Hr & Hb & _ & Hf & Ht & Hd & Hp).
  exists (print_request m u ver (msg_headers x) b1), i, b1, s. split_and!; try done.
  - unfold read_until, on_reads. by rewrite Hr.
  - unfold msg_info. by rewrite Hx.
  - by rewrite Ht, <- print_request_head.
Qed.

(** What an attempt may change: only the given connection's scripts. *)
Definition frame (fd : Z) (w w' : world) : Prop :=
  ∀ k, k ≠ fd → reads w' !! k = reads w !! k ∧ writes w' !! k = writes w !! k.

Lemma attempt_relays r request fd x w :
  available (upstream_key (host r) (port r)) fd w → (0 ≤ fd)%Z →
  length (tail (pool_of (upstream_key (host r) (port r)) w)) < pool_cap →
  accepts fd request w → incoming fd w = bytes x → message_ok x → msg_length x ≠ [] →
  find_sub (lit "chunked") (header_get (insert_all (msg_headers x) ∅) (lit "Transfer-Encoding")) = None →
  ∃ w', attempt r request w = Some (Some (bytes x), w') ∧
    sent w' = sent w ++ [(fd, request)] ∧ closed w' = closed w ∧ health_ w' = health_ w ∧
    pool_of (upstream_key (host r) (port r)) w' = tail (pool_of (upstream_key (host r) (port r)) w) ++ [fd] ∧
    frame fd w w' ∧ incoming fd w' = [].
Proof.
  intros Hav Hfd Hcap [ws Hacc] Hin Hx Hcl Hte. set (key := upstream_key (host r) (port r)) in *.
  destruct (acquire_ok (host r) (port r) fd w Hav) as (ps & cs & Hacq & Hps). fold key in Hps.
  set (w1 := set_pools ps (set_connects cs w)) in *.
  destruct (write_ok fd request w1) as (ws' & Hw); [by exists ws|].
  set (w2 := log_sent fd request (set_writes (<[fd := ws']> (writes w1)) w1)) in *.
  destruct (read_message fd x w2) as (buf & i & b1 & s & Hr & Hf & Hd & Hp & Ht & Hb); [done|done|].
  set (w3 := set_reads (<[fd := s]> (reads w2)) w2) in *.
  destruct (read_rest fd (content_length (msg_length x)) b1 (msg_body x) w3) as (rs & Hrest & Hs & Hrs).
  { rewrite Hb. f_equal. unfold w3. cbn [reads set_reads]. by rewrite lookup_insert_eq. }
  { apply Hx. }
  set (w4 := set_reads rs w3) in *.
  assert (pool_of key w4 = tail (pool_of key w)) as Hpool by exact Hps.
  exists (set_pools (<[key := pool_of key w4 ++ [fd]]> (pools_ w4)) w4). split.
  - unfold attempt, mbind at 1, io_bind at 1. rewrite Hacq. unfold mbind at 1, io_bind at 1. rewrite Hw. cbn [negb].
    unfold mbind at 1, io_bind at 1. rewrite Hr, Hf, Hp, Hd. unfold mbind at 1, io_bind at 1.
    assert (headers (msg_info x b1) = insert_all (msg_headers x) ∅) as ->
      by (unfold msg_info; by destruct (msg_line x) as [[? ?] ?]).
    unfold read_response_body. rewrite Hte. fold (msg_length x). rewrite decide_False by (by intros []).
    rewrite decide_True by done. rewrite Hrest. unfold mbind, io_bind.
    rewrite release_ok by (done || by fold key; rewrite Hpool). fold key. unfold mret, io_ret. by rewrite Ht.
  - split_and!; try done.
    + unfold pool_of at 1. cbn [pools_ set_pools]. rewrite lookup_insert_eq. by rewrite Hpool.
    + intros k Hk. cbn. rewrite Hrs by done. cbn. by rewrite !lookup_insert_ne by done.
Qed.

(** What the code uses of a parsed message does not depend on how much of the
    body was read with the head. *)
Lemma msg_info_stable x b :
  headers (msg_info x b) = insert_all (msg_headers x) ∅ ∧ url (msg_info x b) = url (msg_info x []) ∧
  (∀ b', rewrite_request (msg_info x b) b' = rewrite_request (msg_info x []) b') ∧
  wants_keep_alive (msg_info x b) = wants_keep_alive (msg_info x []).
Proof. unfold msg_info. by destruct (msg_line x) as [[? ?] ?]. Qed.

Lemma answer_stable cfg client x b b' w :
  answer cfg client (msg_info x b) b' w = answer cfg client (msg_info x []) b' w.
Proof.
  destruct (msg_info_stable x b) as (_ & Hu & Hrw & Hka). unfold answer. rewrite Hu, Hrw, Hka. done.
Qed.

(** A request that is there is read whole, and only the client's script moves. *)
Lemma serve_reads cfg client x w :
  incoming client w = bytes x → message_ok x →
  ∃ rs, serve_once cfg client w = answer cfg client (msg_info x []) (msg_body x) (set_reads rs w) ∧
    stream (default [] (rs !! client)) = [] ∧ ∀ k, k ≠ client → rs !! k = reads w !! k.
Proof.
  intros Hin Hx.
  destruct (read_message client x w Hin Hx) as (buf & i & b1 & s & Hr & Hf & Hd & Hp & _ & Hb).
  set (w1 := set_reads (<[client := s]> (reads w)) w) in *.
  destruct (read_rest client (content_length (msg_length x)) b1 (msg_body x) w1) as (rs & Hrest & Hs & Hrs).
  { rewrite Hb. f_equal. unfold w1. cbn [reads set_reads]. by rewrite lookup_insert_eq. }
  { apply Hx. }
  exists rs. split_and!; [|done|].
  - destruct (msg_info_stable x b1) as (Hh & _). unfold serve_once. unfold mbind at 1, io_bind at 1.
    rewrite Hr, Hf, Hp, Hd, Hh. fold (msg_length x). unfold mbind at 1, io_bind at 1. rewrite Hrest.
    rewrite answer_stable. done.
  - intros k Hk. rewrite Hrs by done. unfold w1. cbn [reads set_reads]. by rewrite lookup_insert_ne.
Qed.

Lemma healthy_passes cooldown h p w :
  (∀ x, health_ w !! upstream_key h p = Some x → healthy x = true) → is_healthy cooldown h p w = Some (true, w).
Proof.
  intros Hh. unfold is_healthy, mbind, io_bind, gets.
  destruct (health_ w !! upstream_key h p) as [x|] eqn:Hk; [|done]. by rewrite (Hh x eq_refl).
Qed.

