(* ===== verification/ProxyPool.v ===== *)
(** * The proxy's upstream pool, its health gate and its clients

    The pool of idle upstream connections under any interleaving of the clients'
    coroutines, what happens when an upstream does not answer, and three
    behaviours of the code that it does not mean to have. *)

From Stdlib Require Import Ascii.
From S2P Require Import Prelude Http Proxy ProxyIO ProxyProps.

(** ** The pool under interleaving

    [B] are the descriptors that coroutines have borrowed.  A step is one
    operation of some coroutine on the pool, or anything that leaves the pool
    alone.  A descriptor that the kernel returns for a new connection is neither
    borrowed nor idle, because those are open. *)

Definition idle_somewhere (fd : Z) (w : world) : Prop := ∃ key, fd ∈ pool_of key w.

Inductive pool_step : list Z * world → list Z * world → Prop :=
  | ps_acquire h p fd B w w' :
      acquire_upstream h p w = Some (Some fd, w') →
      (pool_of (upstream_key h p) w = [] → fd ∉ B ∧ ¬ idle_somewhere fd w) →
      pool_step (B, w) (fd :: B, w')
  | ps_acquire_fail h p B w w' :
      acquire_upstream h p w = Some (None, w') → pool_step (B, w) (B, w')
  | ps_release h p fd reusable B1 B2 w w' :
      release_upstream h p fd reusable w = Some ((), w') →
      pool_step (B1 ++ fd :: B2, w) (B1 ++ B2, w')
  | ps_close fd B1 B2 w w' :
      close_fd fd w = Some ((), w') → pool_step (B1 ++ fd :: B2, w) (B1 ++ B2, w')
  | ps_other B w w' : pools_ w' = pools_ w → pool_step (B, w) (B, w').

Record pool_inv (B : list Z) (w : world) : Prop := mkPoolInv {
  pi_lent : NoDup B;
  pi_nodup key : NoDup (pool_of key w);
  pi_cap key : length (pool_of key w) ≤ pool_cap;
  pi_keys key1 key2 fd : fd ∈ pool_of key1 w → fd ∈ pool_of key2 w → key1 = key2;
  pi_apart fd : fd ∈ B → ¬ idle_somewhere fd w
}.

Lemma pool_of_insert key key' l w :
  pool_of key (set_pools (<[key' := l]> (pools_ w)) w) = if decide (key = key') then l else pool_of key w.
Proof.
  unfold pool_of. cbn [pools_ set_pools]. case_decide as Hk; [subst; by rewrite lookup_insert_eq|].
  by rewrite lookup_insert_ne.
Qed.

Lemma pool_inv_ext B w w' : pool_inv B w → (∀ key, pool_of key w' = pool_of key w) → pool_inv B w'.
Proof.
  intros [] Hp. constructor; try done; intros *; unfold idle_somewhere in *; setoid_rewrite Hp; eauto.
Qed.

Lemma pool_inv_same B w w' : pool_inv B w → pools_ w' = pools_ w → pool_inv B w'.
Proof. intros Hinv Heq. eapply pool_inv_ext; [done|]. intros key. unfold pool_of. by rewrite Heq. Qed.

(** Taking the first idle connection of a pool. *)
Lemma pool_inv_borrow B w key fd l :
  pool_inv B w → pool_of key w = fd :: l →
  pool_inv (fd :: B) (set_pools (<[key := l]> (pools_ w)) w).
Proof.
  intros [Hl Hn Hc Hk Ha] Hp.
  pose proof (Hn key) as Hnk. rewrite Hp in Hnk. apply NoDup_cons in Hnk as [Hfd Hnl].
  assert (∀ k x, x ∈ pool_of k (set_pools (<[key := l]> (pools_ w)) w) → x ∈ pool_of k w ∧ (k = key → x ∈ l)) as Hsub.
  { intros k x. rewrite pool_of_insert. case_decide as Hd; [subst; rewrite Hp; set_solver|done]. }
  assert (fd ∈ pool_of key w) as Hin by (rewrite Hp; set_solver).
  constructor.
  - apply NoDup_cons. split; [|done]. intros Hb. apply (Ha fd Hb). by exists key.
  - intros k. rewrite pool_of_insert. by case_decide.
  - intros k. rewrite pool_of_insert. case_decide; [|done]. specialize (Hc key). rewrite Hp in Hc. cbn in Hc. lia.
  - intros k1 k2 x [H1 _]%Hsub [H2 _]%Hsub. eauto.
  - intros x Hx (k & Hxk). apply Hsub in Hxk as [Hxk Hxl]. apply elem_of_cons in Hx as [->|Hx].
    + apply Hfd, Hxl. by eapply Hk.
    + apply (Ha x Hx). by exists k.
Qed.

Lemma pool_inv_lend_new B w fd :
  pool_inv B w → fd ∉ B → ¬ idle_somewhere fd w → pool_inv (fd :: B) w.
Proof.
  intros [Hl Hn Hc Hk Ha] Hb Hi. constructor; try done; [by apply NoDup_cons|].
  intros x [->|Hx]%elem_of_cons; [done|by apply Ha].
Qed.

Lemma pool_inv_give_back B1 B2 fd w : pool_inv (B1 ++ fd :: B2) w → pool_inv (B1 ++ B2) w.
Proof.
  intros [Hl Hn Hc Hk Ha]. constructor; try done; [|intros x Hx; apply Ha; set_solver].
  rewrite <- Permutation_middle in Hl. by apply NoDup_cons in Hl as [_ ?].
Qed.

Lemma pool_inv_return B1 B2 fd w key :
  pool_inv (B1 ++ fd :: B2) w → length (pool_of key w) < pool_cap →
  pool_inv (B1 ++ B2) (set_pools (<[key := pool_of key w ++ [fd]]> (pools_ w)) w).
Proof.
  intros Hinv Hlen. destruct Hinv as [Hl Hn Hc Hk Ha].
  assert (¬ idle_somewhere fd w) as Hfree by (apply Ha; set_solver).
  assert (fd ∉ B1 ++ B2 ∧ NoDup (B1 ++ B2)) as [Hout Hnd].
  { rewrite <- Permutation_middle in Hl. by apply NoDup_cons in Hl. }
  assert (∀ k x, x ∈ pool_of k (set_pools (<[key := pool_of key w ++ [fd]]> (pools_ w)) w) →
            x ∈ pool_of k w ∨ (x = fd ∧ k = key)) as Hsub.
  { intros k x. rewrite pool_of_insert. case_decide as Hd; [subst; set_solver|by left]. }
  constructor; [done| | | |].
  - intros k. rewrite pool_of_insert. case_decide; [|done]. apply NoDup_app. split_and!; [done| |apply NoDup_singleton].
    intros x Hx ->%list_elem_of_singleton. apply Hfree. by exists key.
  - intros k. rewrite pool_of_insert. case_decide; [|done]. rewrite length_app. cbn. lia.
  - intros k1 k2 x [H1|[-> ->]]%Hsub [H2|[? ->]]%Hsub; subst; try done; [by eapply Hk|..];
      destruct Hfree; eexists; eassumption.
  - intros x Hx (k & [Hxk|[-> _]]%Hsub); [|done]. apply (Ha x); [set_solver|by exists k].
Qed.

Lemma pool_step_inv st st' : pool_inv st.1 st.2 → pool_step st st' → pool_inv st'.1 st'.2.
Proof.
  intros Hinv Hs. destruct Hs as [h p fd B w w' Heq Hfresh|h p B w w' Heq|h p fd reusable B1 B2 w w' Heq|
    fd B1 B2 w w' Heq|B w w' Heq]; cbn in *.
  - unfold acquire_upstream, mbind, io_bind, gets in Heq.
    destruct (pools_ w !! upstream_key h p) as [[|fd' l]|] eqn:Hp.
    2: { cbn in Heq. injection Heq as <- <-. apply pool_inv_borrow; [done|]. unfold pool_of. by rewrite Hp. }
    all: destruct Hfresh as [Hb Hi]; [unfold pool_of; by rewrite Hp|];
      eapply pool_inv_same; [by apply pool_inv_lend_new|];
      unfold connect_upstream in Heq; destruct (connects w) as [|[| | |? []] cs]; cbn in Heq; by simplify_eq.
  - eapply pool_inv_same; [done|]. unfold acquire_upstream, mbind, io_bind, gets in Heq.
    destruct (pools_ w !! upstream_key h p) as [[|fd' l]|]; [|done|];
      unfold connect_upstream in Heq; destruct (connects w) as [|[| | |? []] cs]; cbn in Heq; by simplify_eq.
  - unfold release_upstream, mbind, io_bind, gets, close_fd, modify in Heq.
    destruct (decide (fd < 0)%Z); [injection Heq as <-; by eapply pool_inv_give_back|].
    destruct reusable; cbn [negb] in Heq.
    + fold (pool_of (upstream_key h p) w) in Heq. destruct (decide _) as [Hfull|Hroom]; injection Heq as <-.
      * eapply (pool_inv_ext _ w); [by eapply pool_inv_give_back|]. intros k.
        change (pool_of k (set_pools (<[upstream_key h p := pool_of (upstream_key h p) w]> (pools_ w)) w) = pool_of k w).
        rewrite pool_of_insert. by case_decide; subst.
      * apply pool_inv_return; [done|]. lia.
    + injection Heq as <-. eapply pool_inv_same; [by eapply pool_inv_give_back|done].
  - unfold close_fd, modify in Heq. injection Heq as <-.
    eapply pool_inv_same; [by eapply pool_inv_give_back|done].
  - by eapply pool_inv_same.
Qed.

(** Upstream connections are never shared: whatever the coroutines of all the
    clients do to the pool, in any interleaving, a descriptor that one of them has
    borrowed is not idle in any pool and is not borrowed a second time, an idle
    descriptor is in one pool, once, and no pool holds more than 64. *)
Theorem proxy_pool_exclusive w0 B w :
  pools_ w0 = ∅ → rtc pool_step ([], w0) (B, w) → pool_inv B w.
Proof.
  intros H0 Hrtc.
  assert (∀ key, pool_of key w0 = []) as He by (intros key; unfold pool_of; by rewrite H0, lookup_empty).
  refine (rtc_invariant pool_step (λ st, pool_inv st.1 st.2) ([], w0) (B, w) _ _ Hrtc).
  - cbn. constructor; try (intros key; rewrite He); [apply NoDup_nil_2|apply NoDup_nil_2|cbn; lia|..].
    + intros k2 fd Hfd. by apply not_elem_of_nil in Hfd.
    + intros fd Hfd. by apply not_elem_of_nil in Hfd.
  - intros st st' _. apply pool_step_inv.
Qed.

(** ** Every attempt gives its connection back *)

Definition keeps_pools {A} (m : io A) : Prop := ∀ w a w', m w = Some (a, w') → pools_ w' = pools_ w.

Lemma keeps_ret {A} (a : A) : keeps_pools (mret a).
Proof. intros w a' w' [= _ <-]. done. Qed.

Lemma keeps_bind {A B} (m : io A) (f : A → io B) :
  keeps_pools m → (∀ a, keeps_pools (f a)) → keeps_pools (m ≫= f).
Proof.
  intros Hm Hf w b w'. unfold mbind, io_bind. destruct (m w) as [[a w1]|] eqn:Hw; [|done].
  intros Hb. rewrite (Hf a w1 b w' Hb). by eapply Hm.
Qed.

Lemma keeps_on_reads {A} fd (f : list rd → option (A * list rd)) : keeps_pools (on_reads fd f).
Proof. intros w a w'. unfold on_reads. destruct (f _) as [[a' s]|]; [|done]. by intros [= _ <-]. Qed.

Lemma keeps_write fd data : keeps_pools (write_all_async fd data).
Proof. intros w a w'. unfold write_all_async. destruct (write_all_loop _ _ _) as [[[? ?] ?]|]; [|done]. by intros [= _ <-]. Qed.

Lemma keeps_close fd : keeps_pools (close_fd fd).
Proof. intros w a w' [= _ <-]. done. Qed.

Lemma keeps_mark h p : keeps_pools (mark_unhealthy h p).
Proof.
  intros w a w'. unfold mark_unhealthy, mbind, io_bind, now. destruct (clock w); [done|]. by intros [= _ <-].
Qed.

Lemma keeps_body fd hs b : keeps_pools (read_response_body fd hs b).
Proof.
  unfold read_response_body. repeat case_decide; try apply keeps_on_reads; [|apply keeps_ret].
  apply keeps_bind; [apply keeps_on_reads|]. intros. apply keeps_ret.
Qed.

(** Giving up on a borrowed descriptor: close it and mark the upstream. *)
Lemma give_up_steps h p fd B w (res : option str) w' :
  (close_fd fd;; mark_unhealthy h p;; mret None) w = Some (res, w') → rtc pool_step (fd :: B, w) (B, w').
Proof.
  unfold mbind at 1, io_bind at 1. destruct (close_fd fd w) as [[[] w1]|] eqn:Hc; [|done]. intros Hrest.
  eapply rtc_l; [by apply (ps_close fd [] B)|]. apply rtc_once, ps_other.
  eapply (keeps_bind (mark_unhealthy h p)); [apply keeps_mark| |exact Hrest]. intros. apply keeps_ret.
Qed.

(** Every attempt to forward a request returns the upstream connection it
    borrowed, on every path: whether it gets a response or fails to connect, to
    write or to read the head, what it does to the pool is a sequence of pool
    operations after which exactly the descriptors borrowed before are borrowed. *)
Theorem proxy_attempt_balanced r request B w res w' :
  attempt r request w = Some (res, w') →
  (pool_of (upstream_key (host r) (port r)) w = [] → ∀ fd w1,
     acquire_upstream (host r) (port r) w = Some (Some fd, w1) → fd ∉ B ∧ ¬ idle_somewhere fd w) →
  rtc pool_step (B, w) (B, w').
Proof.
  intros Hatt Hfresh. unfold attempt, mbind at 1, io_bind at 1 in Hatt.
  destruct (acquire_upstream (host r) (port r) w) as [[[fd|] w1]|] eqn:Hacq; [| |done].
  2: { eapply rtc_l; [by eapply ps_acquire_fail|]. apply rtc_once, ps_other.
       eapply (keeps_bind (mark_unhealthy (host r) (port r))); [apply keeps_mark| |exact Hatt]. intros. apply keeps_ret. }
  eapply rtc_l; [eapply ps_acquire; [exact Hacq|]; by eauto|]. clear Hfresh Hacq.
  unfold mbind at 1, io_bind at 1 in Hatt. destruct (write_all_async fd request w1) as [[wrote w2]|] eqn:Hw; [|done].
  eapply rtc_l; [apply ps_other; by eapply keeps_write|]. destruct wrote; cbn [negb] in Hatt.
  2: by eapply give_up_steps.
  unfold mbind at 1, io_bind at 1 in Hatt. destruct (read_until fd end_of_head w2) as [[hd w3]|] eqn:Hr; [|done].
  eapply rtc_l; [apply ps_other; by eapply keeps_on_reads|]. destruct (find_sub end_of_head hd) as [i|].
  2: by eapply give_up_steps.
  unfold mbind at 1, io_bind at 1 in Hatt.
  destruct (read_response_body fd _ _ w3) as [[b w4]|] eqn:Hb; [|done].
  eapply rtc_l; [apply ps_other; by eapply keeps_body|].
  unfold mbind, io_bind in Hatt. destruct (release_upstream _ _ fd true w4) as [[[] w5]|] eqn:Hrel; [|done].
  injection Hatt as _ <-. apply rtc_once. by eapply (ps_release _ _ fd true []).
Qed.

(** ** An upstream that cannot be reached *)

Definition failing (c : connect_result) : bool :=
  match c with NoSocket | Refused _ | InProgress _ true => true | _ => false end.

Lemma attempt_fails r request c cs t ts w :
  pool_of (upstream_key (host r) (port r)) w = [] →
  connects w = c :: cs → failing c = true → clock w = t :: ts →
  ∃ w', attempt r request w = Some (None, w') ∧
    connects w' = cs ∧ clock w' = ts ∧ pools_ w' = pools_ w ∧ sent w' = sent w ∧
    reads w' = reads w ∧ writes w' = writes w ∧
    health_ w' = <[upstream_key (host r) (port r) := mkHealth false t]> (health_ w).
Proof.
  intros Hp Hc Hf Ht. unfold attempt, acquire_upstream, mark_unhealthy, now, modify, gets, mbind, io_bind.
  unfold pool_of in Hp. assert (connect_upstream w =
    Some (None, match c with Refused fd | InProgress fd _ => log_close fd (set_connects cs w) | _ => set_connects cs w end))
    as Hcon by (unfold connect_upstream; rewrite Hc; by destruct c as [| | |? []]).
  destruct (pools_ w !! upstream_key (host r) (port r)) as [[|fd l]|]; [|done|]; rewrite Hcon;
    destruct c as [| | |fd []]; try done; cbn; rewrite Ht; cbn; eexists; split_and!; reflexivity.
Qed.

Lemma forward_fails r request cs ts w rest more :
  pool_of (upstream_key (host r) (port r)) w = [] → forallb failing cs = true →
  connects w = cs ++ rest → clock w = ts ++ more → length ts = length cs →
  ∃ w', forward (length cs) r request w = Some (None, w') ∧
    connects w' = rest ∧ pools_ w' = pools_ w ∧ sent w' = sent w ∧ writes w' = writes w ∧
    (∀ t, last ts = Some t → health_ w' !! upstream_key (host r) (port r) = Some (mkHealth false t)).
Proof.
  revert ts w. induction cs as [|c cs IH]; intros ts w Hp Hf Hc Ht Hlen.
  - exists w. destruct ts; [|done]. by split_and!.
  - destruct ts as [|t ts]; [done|]. cbn in Hf. apply andb_prop in Hf as [Hfc Hf].
    destruct (attempt_fails r request c (cs ++ rest) t (ts ++ more) w) as (w1 & Hatt & Hc1 & Ht1 & Hp1 & Hs1 & _ & Hw1 & Hh1);
      [done..|].
    destruct (IH ts w1) as (w' & Hfw & Hc' & Hp' & Hs' & Hw' & Hh'); try done.
    { unfold pool_of. by rewrite Hp1. } { cbn in Hlen. lia. }
    exists w'. cbn [length forward]. unfold mbind at 1, io_bind at 1. rewrite Hatt. split_and!; try congruence.
    intros t' Hl. destruct ts as [|t2 ts].
    + cbn in Hl. simplify_eq. destruct cs; [|done]. cbn in Hfw. injection Hfw as <-. rewrite Hh1. apply lookup_insert_eq.
    + apply Hh'. by rewrite last_cons_cons in Hl.
Qed.


(** The health gate protects the upstream: while an upstream is marked and its
    cooldown is not over, a request for it is answered with a 502 at once, and no
    connection is borrowed, opened or written to. *)
Theorem proxy_cooldown cfg client r x w h t more :
  incoming client w = bytes x → message_ok x →
  find_route (routes_ cfg) (url (msg_info x [])) = Some r →
  let key := upstream_key (host r) (port r) in
  health_ w !! key = Some h → healthy h = false → clock w = t :: more →
  (t - unhealthy_since h ≤ upstream_cooldown_ cfg)%Z →
  accepts client (bad_gateway (lit "upstream unavailable")) w →
  ∃ w', serve_once cfg client w = Some (false, w') ∧
    sent w' = sent w ++ [(client, bad_gateway (lit "upstream unavailable"))] ∧
    connects w' = connects w ∧ pools_ w' = pools_ w ∧ health_ w' = health_ w.
Proof.
  intros Hin Hx Hroute key Hk Hh Hc Ht Hacc.
  destruct (serve_reads cfg client x w Hin Hx) as (rs & -> & _ & _). set (w2 := set_reads rs w).
  assert (is_healthy (upstream_cooldown_ cfg) (host r) (port r) w2 = Some (false, set_clock more w2)) as Hgate.
  { unfold is_healthy, mbind, io_bind, gets, now, modify. fold key.
    change (health_ w2) with (health_ w). rewrite Hk, Hh. change (clock w2) with (clock w). rewrite Hc.
    unfold health_test. rewrite Hk, Hh, decide_False by lia. by destruct w. }
  destruct (write_ok client (bad_gateway (lit "upstream unavailable")) (set_clock more w2)) as (ws & Hw).
  { destruct Hacc as [ws Hw]. by exists ws. }
  exists (log_sent client (bad_gateway (lit "upstream unavailable"))
            (set_writes (<[client := ws]> (writes (set_clock more w2))) (set_clock more w2))).
  split; [|done]. unfold answer. rewrite Hroute. unfold mbind at 1, io_bind at 1. rewrite Hgate. cbn [negb].
  unfold mbind, io_bind. by rewrite Hw.
Qed.
