(* ===== verification/ProxyRuns.v ===== *)
(** * Concrete runs of the proxy

    Two behaviours the code does not mean to have, and the theorems of the
    proxy applied to a client, a route and an upstream. *)

From Stdlib Require Import Ascii.
From S2P Require Import Prelude Http Proxy ProxyIO ProxyProps ProxyPool.

(** ** Chunked responses *)

(** A chunked response that ends too early makes the coroutine spin: when the
    upstream closes before the first line break of the body has arrived, the loop
    that collects the chunks never ends, whatever bound is given for it, and since
    it never suspends it stops the whole event loop. *)
Theorem proxy_chunk_loop_spins chunkbuf s fuel :
  find_sub last_chunk chunkbuf = None → find_sub CRLF chunkbuf = None →
  chunk_loop fuel chunkbuf (Eof :: s) = None.
Proof.
  intros H1 H2. induction fuel as [|fuel IH]; [done|]. cbn [chunk_loop].
  rewrite decide_False by (by rewrite H1; intros []). rewrite decide_True by done.
  assert (read_until_script CRLF (Eof :: s) = Some ([], Eof :: s)) as -> by done.
  cbn [mbind option_bind]. by rewrite app_nil_r.
Qed.

(** ** A client, a route and an upstream *)

Definition demo_route : ProxyRoute := mkRoute (lit "/") (lit "127.0.0.1") 80.
Definition demo_proxy : proxy_config := mkProxy [demo_route] 1 10.

Definition demo_request : message :=
  mkMessage (lit "POST", lit "/x", lit "HTTP/1.1")
    [(lit "Host", lit "h"); (lit "Content-Length", lit "2"); (lit "TE", lit "gzip")] (lit "ab").
Definition demo_response : message :=
  mkMessage (lit "HTTP/1.1", lit "200", lit "OK") [(lit "Content-Length", lit "3")] (lit "xyz").

(** The bytes in two reads, with a suspension between them. *)
Definition cut (n : nat) (l : str) : list rd :=
  match take n l, drop n l with
  | a :: l1, b :: l2 => [Data a l1; RAgain; Data b l2]
  | _, _ => []
  end.

Definition demo_world (connect : list connect_result) : world :=
  mkWorld ∅ (initial_health [demo_route])
    {[4 := cut 20 (bytes demo_request); 9 := cut 10 (bytes demo_response)]}%Z
    {[4 := [Wrote 10; WAgain; Wrote 1000]; 9 := [Wrote 7; WIntr; Wrote 1000]]}%Z
    connect [100; 101; 102]%Z [] [].

Lemma demo_message_ok : message_ok demo_request ∧ message_ok demo_response.
Proof.
  split; (split; [split; split; not_in_literal|repeat constructor; cbn [fst snd]; not_in_literal|vm_compute; reflexivity]).
Qed.

(** A pipelined request is smuggled into the body of the one before it: the
    bytes that arrive with the head are forwarded as its body even beyond the
    announced length, so the upstream receives the second request after the first
    one, and the proxy never sees it. *)
Theorem proxy_swallows_pipelined :
  let first := print_request (lit "GET") (lit "/a") (lit "HTTP/1.1") [] [] in
  let second := print_request (lit "GET") (lit "/b") (lit "HTTP/1.1") [] [] in
  let w := mkWorld ∅ ∅ {[4 := match first ++ second with a :: l => [Data a l; Eof] | [] => [] end;
                         9 := cut 10 (bytes demo_response)]}%Z
             {[4 := [Wrote 1000]; 9 := [Wrote 1000]]}%Z [Immediate 9] [] [] [] in
  ∃ w', serve_client 2 demo_proxy 4 w = Some ((), w') ∧
    sent w' = [(9, print_request (lit "GET") (lit "/a") (lit "HTTP/1.1") [(XFP, lit "http")] second);
               (4, bytes demo_response)]%Z.
Proof. eexists. split; vm_compute; reflexivity. Qed.

(** ** The theorems applied *)

Lemma proxy_read_n_witness :
  ∃ w', read_n 4 6 (demo_world []) = Some (lit "POST /", w') ∧
    stream (default [] (reads w' !! 4%Z)) = drop 6 (bytes demo_request).
Proof.
  destruct (proxy_read_n 4 6 (demo_world [])) as [H _]. apply H. apply Nat.leb_le. vm_compute. reflexivity.
Defined.

Lemma proxy_write_all_witness :
  let w := mkWorld ∅ ∅ ∅ {[4%Z := [Wrote 2; WAgain; WErr]]} [] [] [] [] in
  ∃ w', write_all_async 4 (lit "hello") w = Some (false, w') ∧
    ∃ n, n ≤ 5 ∧ sent w' = [(4%Z, take n (lit "hello"))] ∧ take n (lit "hello") ≠ lit "hello".
Proof.
  intros w. eexists. split; [reflexivity|].
  destruct (proxy_write_all 4 (lit "hello") w false _ eq_refl) as (n & Hn & Hs & Hok & _).
  exists n. split; [exact Hn|]. split; [exact Hs|]. intros Heq. by apply Hok in Heq.
Defined.

Lemma proxy_rewrite_roundtrip_witness :
  parse_request (rewrite_request (msg_info demo_request []) (lit "ab")) =
    mkInfo (lit "POST") (lit "/x") (lit "HTTP/1.1")
      (<[XFP := lit "http"]> (kept (insert_all (msg_headers demo_request) ∅))) (lit "ab").
Proof.
  apply (proxy_rewrite_roundtrip (msg_info demo_request [])); [not_in_literal|not_in_literal|not_in_literal|].
  intros k v Hkv. cbn in Hkv. unfold insert_all in Hkv. cbn in Hkv.
  repeat (apply lookup_insert_Some in Hkv as [[<- <-]|[_ Hkv]]; [split_and!; not_in_literal|]).
  rewrite lookup_empty in Hkv. discriminate.
Defined.

Lemma demo_key : upstream_key (host demo_route) (port demo_route) = lit "127.0.0.1:80".
Proof. vm_compute. reflexivity. Qed.

Lemma demo_healthy connect h :
  health_ (demo_world connect) !! upstream_key (host demo_route) (port demo_route) = Some h → healthy h = true.
Proof. intros Hh. vm_compute in Hh. injection Hh as <-. reflexivity. Qed.


Lemma proxy_pool_exclusive_witness :
  let w0 := mkWorld ∅ ∅ ∅ ∅ [Immediate 9] [] [] [] in
  ∃ w1 w2, acquire_upstream (lit "h") 80 w0 = Some (Some 9%Z, w1) ∧
    release_upstream (lit "h") 80 9 true w1 = Some ((), w2) ∧ pool_inv [] w2.
Proof.
  intros w0. set (w1 := set_connects [] w0).
  pose proof (release_ok (lit "h") 80 9 w1) as Hrel. eexists w1, _.
  split; [reflexivity|]. split; [apply Hrel; [lia|apply Nat.ltb_lt; reflexivity]|].
  apply (proxy_pool_exclusive w0); [reflexivity|].
  eapply rtc_l; [eapply (ps_acquire (lit "h") 80 9 [] w0); [reflexivity|]|].
  - intros _. split; [apply not_elem_of_nil|]. intros (key & Hk). unfold pool_of in Hk. cbn in Hk.
    rewrite lookup_empty in Hk. by apply not_elem_of_nil in Hk.
  - apply rtc_once. apply (ps_release (lit "h") 80 9 true [] []). apply Hrel; [lia|apply Nat.ltb_lt; reflexivity].
Defined.

Lemma proxy_attempt_balanced_witness :
  let w := mkWorld ∅ ∅ ∅ {[9%Z := [WErr]]} [Immediate 9] [7%Z] [] [] in
  ∃ w', attempt demo_route (lit "hi") w = Some (None, w') ∧ closed w' = [9%Z] ∧ rtc pool_step ([], w) ([], w').
Proof.
  intros w. eexists. split; [reflexivity|]. split; [reflexivity|].
  eapply (proxy_attempt_balanced demo_route (lit "hi")); [reflexivity|]. intros _ fd w1 _. split; [apply not_elem_of_nil|].
  intros (key & Hk). unfold pool_of in Hk. cbn in Hk. rewrite lookup_empty in Hk. by apply not_elem_of_nil in Hk.
Defined.


Lemma proxy_cooldown_witness :
  let w := set_health {[lit "127.0.0.1:80" := mkHealth false 95]} (demo_world [Immediate 9]) in
  ∃ w', serve_once demo_proxy 4 w = Some (false, w') ∧
    sent w' = [(4%Z, bad_gateway (lit "upstream unavailable"))] ∧
    connects w' = [Immediate 9] ∧ pools_ w' = ∅ ∧ health_ w' = health_ w.
Proof.
  destruct demo_message_ok as [Hx _]. intros w.
  destruct (proxy_cooldown demo_proxy 4 demo_route demo_request w (mkHealth false 95) 100 [101; 102]%Z)
    as (w' & H1 & H2 & H3);
    [vm_compute; reflexivity|exact Hx|vm_compute; reflexivity|vm_compute; reflexivity|reflexivity|reflexivity|
     vm_compute; discriminate|eexists; vm_compute; reflexivity|].
  exists w'. split; [exact H1|]. split; [exact H2|exact H3].
Defined.

Lemma proxy_chunk_loop_spins_witness : chunk_loop 1000 (lit "5") [Eof] = None.
Proof. apply proxy_chunk_loop_spins; vm_compute; reflexivity. Defined.
