(* ===== verification/ProxyCoro.v ===== *)
(** * The proxy's coroutines as they are written

    Proxy.v computes what a client's coroutine does as one computation in which a
    suspension is only a round of a loop.  Here the coroutines of
    src/muses/net_components/proxy.hpp are trees for the machine of Task.v: [read_until],
    [read_n], [write_all_async], [connect_upstream] and [acquire_upstream] are tasks that
    [serve_client] awaits, each suspends on its descriptor, and code between two
    suspensions runs on the shared state.  The loops of the source have no bound; the
    trees are cut after [fuel] rounds, and enough fuel is enough for every run that
    ends.  [proxy_coroutine_runs]: the machine, driven by the events the coroutine waits
    for, computes exactly what Proxy.v says. *)

From Stdlib Require Import Ascii.
From S2P Require Import Prelude Http Proxy ProxyProps ProxyRuns Poller Task TaskProps.
Import Tasks TaskRuns.

(** What the tasks of the proxy return. *)
Inductive val : Type :=
  | VUnit
  | VStr (x : str)
  | VBool (b : bool)
  | VFd (o : option Z).

Definition to_str (v : val) : str := match v with VStr x => x | _ => [] end.
Definition to_bool (v : val) : bool := match v with VBool b => b | _ => false end.
Definition to_fd (v : val) : option Z := match v with VFd o => o | _ => None end.

Abbreviation co := (body val world).

(** Code that does not suspend. *)
Definition sync {A} (m : io A) (dflt : A) (k : A → co) : co :=
  Do (λ w, default w (snd <$> m w)) (λ w, k (default dflt (fst <$> m w))).

Definition co_await (b : co) (k : val → co) : co := Call false b k.

(** ** Reading *)

Inductive answer_r : Type :=
  | ABytes (bs : str)
  | AEof
  | AAgain
  | AIntr
  | AErr.

(** [::read] and [errno]; a descriptor with no more script is never readable again. *)
Definition sys_answer (n : nat) (s : list rd) : answer_r * list rd :=
  match s with
  | [] => (AAgain, [])
  | Data b bs :: s' =>
      (ABytes (take n (b :: bs)), match drop n (b :: bs) with [] => s' | c :: cs => Data c cs :: s' end)
  | Eof :: _ => (AEof, s)
  | RAgain :: s' => (AAgain, s')
  | RIntr :: s' => (AIntr, s')
  | RErr :: s' => (AErr, s')
  end.

Definition reading (fd : Z) (w : world) : list rd := default [] (reads w !! fd).
Definition put_reads (fd : Z) (s : list rd) (w : world) : world := set_reads (<[fd := s]> (reads w)) w.

Definition co_read (fd : Z) (n : nat) (k : answer_r → co) : co :=
  Do (λ w, put_reads fd (sys_answer n (reading fd w)).2 w) (λ w, k (sys_answer n (reading fd w)).1).

(** A descriptor without a script has the empty one. *)
Definition touch_reads (fd : Z) (k : co) : co := Do (λ w, put_reads fd (reading fd w) w) (λ _, k).

Fixpoint read_until_rounds (fuel : nat) (fd : Z) (delimiter buf : str) : co :=
  match fuel with
  | O => Throw
  | S f =>
      co_read fd chunk_size (λ r,
        match r with
        | ABytes bs =>
            if decide (find_sub delimiter (buf ++ bs) ≠ None) then Return (VStr (buf ++ bs))
            else read_until_rounds f fd delimiter (buf ++ bs)
        | AEof => Return (VStr buf)
        | AAgain => Await fd Readable (read_until_rounds f fd delimiter buf)
        | AIntr => read_until_rounds f fd delimiter buf
        | AErr => Return (VStr buf)
        end)
  end.
Definition read_until_co (fuel : nat) (fd : Z) (delimiter : str) : co :=
  touch_reads fd (read_until_rounds fuel fd delimiter []).

Fixpoint read_n_rounds (fuel : nat) (fd : Z) (n : nat) (buf : str) : co :=
  if decide (n ≤ length buf) then Return (VStr buf) else
  match fuel with
  | O => Throw
  | S f =>
      co_read fd (Nat.min (n - length buf) chunk_size) (λ r,
        match r with
        | ABytes bs => read_n_rounds f fd n (buf ++ bs)
        | AEof => Return (VStr buf)
        | AAgain => Await fd Readable (read_n_rounds f fd n buf)
        | AIntr => read_n_rounds f fd n buf
        | AErr => Return (VStr buf)
        end)
  end.
Definition read_n_co (fuel : nat) (fd : Z) (n : nat) : co := touch_reads fd (read_n_rounds fuel fd n []).

(** ** Writing *)

Definition writing (fd : Z) (w : world) : list wr := default [] (writes w !! fd).
Definition put_writes (fd : Z) (s : list wr) (w : world) : world := set_writes (<[fd := s]> (writes w)) w.

(** [::write]: a descriptor with no more script is never writable again. *)
Definition co_write (fd : Z) (k : wr → co) : co :=
  Do (λ w, put_writes fd (tail (writing fd w)) w) (λ w, k (default WAgain (head (writing fd w)))).

(** The bytes are logged when the call is over, as in Proxy.v. *)
Definition wrote (fd : Z) (data : str) (off : nat) (ok : bool) : co :=
  Do (log_sent fd (take off data)) (λ _, Return (VBool ok)).

Fixpoint write_rounds (fuel : nat) (fd : Z) (data : str) (off : nat) : co :=
  if decide (length data ≤ off) then wrote fd data off true else
  match fuel with
  | O => Throw
  | S f =>
      co_write fd (λ r,
        match r with
        | Wrote 0 | WErr => wrote fd data off false
        | Wrote n => write_rounds f fd data (off + Nat.min n (length data - off))
        | WAgain => Await fd Writable (write_rounds f fd data off)
        | WIntr => write_rounds f fd data off
        end)
  end.
Definition write_all_co (fuel : nat) (fd : Z) (data : str) : co :=
  Do (λ w, put_writes fd (writing fd w) w) (λ _, write_rounds fuel fd data 0).

(** ** Connecting *)

Definition connect_co : co :=
  Do (λ w, set_connects (tail (connects w)) w) (λ w,
    match connects w with
    | [] => Throw
    | NoSocket :: _ => Return (VFd None)
    | Immediate fd :: _ => Return (VFd (Some fd))
    | Refused fd :: _ => sync (close_fd fd) () (λ _, Return (VFd None))
    | InProgress fd so_error :: _ =>
        Await fd Writable
          (if so_error then sync (close_fd fd) () (λ _, Return (VFd None)) else Return (VFd (Some fd)))
    end).

Definition acquire_co (host : str) (port : nat) : co :=
  sync (gets pools_) ∅ (λ pools,
    match pools !! upstream_key host port with
    | Some (fd :: rest) =>
        sync (modify (λ w, set_pools (<[upstream_key host port := rest]> (pools_ w)) w)) () (λ _, Return (VFd (Some fd)))
    | _ => co_await connect_co Return
    end).

(** ** The client's coroutine *)

Section client.
Context (fuel : nat).

Fixpoint chunk_rounds (n : nat) (fd : Z) (chunkbuf : str) (k : str → co) : co :=
  match n with
  | O => Throw
  | S n' =>
      if decide (find_sub last_chunk chunkbuf ≠ None) then k chunkbuf
      else if decide (find_sub CRLF chunkbuf = None) then
        co_await (read_until_co fuel fd CRLF) (λ more, chunk_rounds n' fd (chunkbuf ++ to_str more) k)
      else
        co_await (read_n_co fuel fd chunk_size) (λ more,
          if decide (to_str more = []) then k chunkbuf
          else if decide (safety_cap < length (chunkbuf ++ to_str more)) then k (chunkbuf ++ to_str more)
          else chunk_rounds n' fd (chunkbuf ++ to_str more) k)
  end.

Fixpoint eof_rounds (n : nat) (fd : Z) (buf : str) (k : str → co) : co :=
  match n with
  | O => Throw
  | S n' =>
      co_await (read_n_co fuel fd chunk_size) (λ more,
        if decide (to_str more = []) then k buf
        else if decide (safety_cap < length (buf ++ to_str more)) then k (buf ++ to_str more)
        else eof_rounds n' fd (buf ++ to_str more) k)
  end.

Definition response_body_co (fd : Z) (hs : gmap str str) (in_head : str) (k : str → co) : co :=
  let te := header_get hs (lit "Transfer-Encoding") in
  let cl := header_get hs (lit "Content-Length") in
  if decide (find_sub (lit "chunked") te ≠ None) then touch_reads fd (chunk_rounds fuel fd in_head k)
  else if decide (cl ≠ []) then
    if decide (length in_head < content_length cl) then
      co_await (read_n_co fuel fd (content_length cl - length in_head)) (λ rest, k (in_head ++ to_str rest))
    else k in_head
  else touch_reads fd (eof_rounds fuel fd in_head k).

Definition abandon (r : ProxyRoute) (fd : Z) (k : option str → co) : co :=
  sync (close_fd fd) () (λ _, sync (mark_unhealthy (host r) (port r)) () (λ _, k None)).

Definition attempt_co (r : ProxyRoute) (request : str) (k : option str → co) : co :=
  co_await (acquire_co (host r) (port r)) (λ up,
    match to_fd up with
    | None => sync (mark_unhealthy (host r) (port r)) () (λ _, k None)
    | Some fd =>
        co_await (write_all_co fuel fd request) (λ ok,
          if negb (to_bool ok) then abandon r fd k else
          co_await (read_until_co fuel fd end_of_head) (λ v,
            match find_sub end_of_head (to_str v) with
            | None => abandon r fd k
            | Some i =>
                response_body_co fd (headers (parse_request (to_str v))) (drop (i + 4) (to_str v)) (λ b,
                  sync (release_upstream (host r) (port r) fd true) () (λ _,
                    k (Some (take (i + 4) (to_str v) ++ b))))
            end))
    end).

Fixpoint forward_co (attempts : nat) (r : ProxyRoute) (request : str) (k : option str → co) : co :=
  match attempts with
  | O => k None
  | S n =>
      attempt_co r request (λ resp, match resp with Some x => k (Some x) | None => forward_co n r request k end)
  end.

(** A 502, after which the coroutine returns. *)
Definition refuse_co (client : Z) (why : str) (k : bool → co) : co :=
  co_await (write_all_co fuel client (bad_gateway why)) (λ _, k false).

Definition answer_co (cfg : proxy_config) (client : Z) (info : HttpInfo) (b : str) (k : bool → co) : co :=
  match find_route (routes_ cfg) (url info) with
  | None => refuse_co client (lit "no route") k
  | Some r =>
      sync (is_healthy (upstream_cooldown_ cfg) (host r) (port r)) false (λ ok,
        if negb ok then refuse_co client (lit "upstream unavailable") k else
        forward_co (S (max_retries_ cfg)) r (rewrite_request info b) (λ resp,
          match resp with
          | None => refuse_co client (lit "upstream failed") k
          | Some x =>
              co_await (write_all_co fuel client x) (λ client_ok, k (to_bool client_ok && wants_keep_alive info))
          end))
  end.

Definition serve_once_co (cfg : proxy_config) (client : Z) (k : bool → co) : co :=
  co_await (read_until_co fuel client end_of_head) (λ v,
    let head := to_str v in
    match find_sub end_of_head head with
    | None => k false
    | Some i =>
        let info := parse_request head in
        let body_len := content_length (header_get (headers info) (lit "Content-Length")) in
        let in_head := drop (i + 4) head in
        if decide (length in_head < body_len) then
          co_await (read_n_co fuel client (body_len - length in_head)) (λ rest,
            answer_co cfg client info (in_head ++ to_str rest) k)
        else answer_co cfg client info in_head k
    end).

Fixpoint client_rounds (n : nat) (cfg : proxy_config) (client : Z) : co :=
  match n with
  | O => Throw
  | S n' =>
      serve_once_co cfg client (λ again, if again then client_rounds n' cfg client else Return VUnit)
  end.
End client.

Definition serve_client_co (fuel : nat) (cfg : proxy_config) (client : Z) : co := client_rounds fuel fuel cfg client.

(** ** Running a coroutine alone *)

(** Every wait is followed by its event. *)
Fixpoint eval (f : flat val world) (w : world) : result val * world :=
  match f with
  | Fin r => (r, w)
  | FAwait _ _ k => eval k w
  | FDo g k => eval (k w) (g w)
  end.

(** The descriptors it waits for. *)
Fixpoint waits (f : flat val world) (w : world) : list Z :=
  match f with
  | Fin _ => []
  | FAwait fd _ k => fd :: waits k w
  | FDo g k => waits (k w) (g w)
  end.

Abbreviation runs b K := (eval (inline VUnit b K)).

(** A piece of a coroutine with what follows it computes [m]. *)
Definition leads {A} (b : nat → (A → co) → co) (m : io A) : Prop :=
  ∀ w a w', m w = Some (a, w') → ∃ f0, ∀ f, f0 ≤ f → ∀ k K, runs (b f k) K w = runs (k a) K w'.

(** A task computes [m]. *)
Definition computes {A} (b : nat → co) (m : io A) (inj : A → val) : Prop :=
  ∀ w a w', m w = Some (a, w') → ∃ f0, ∀ f, f0 ≤ f → ∀ K, runs (b f) K w = eval (K (Value (inj a))) w'.

Lemma io_bind_inv {A B} (m : io A) (g : A → io B) w x w' :
  (m ≫= g) w = Some (x, w') → ∃ a w1, m w = Some (a, w1) ∧ g a w1 = Some (x, w').
Proof. unfold mbind, io_bind. destruct (m w) as [[a w1]|]; [eauto|done]. Qed.

Lemma sync_leads {A} (m : io A) d : leads (λ _, sync m d) m.
Proof. intros w a w' Hm. exists 0. intros f _ k K. cbn. by rewrite Hm. Qed.

Lemma ret_leads {A} (a : A) : leads (λ _ k, k a) (mret a).
Proof. intros w a' w' [= <- <-]. exists 0. done. Qed.

Lemma bind_leads {A B} b (m : io A) (c : nat → A → (B → co) → co) (g : A → io B) :
  leads b m → (∀ a, leads (λ f, c f a) (g a)) → leads (λ f k, b f (λ a, c f a k)) (a ← m; g a).
Proof.
  intros Hb Hc w x w' Hm. apply io_bind_inv in Hm as (a & w1 & E & Hm).
  destruct (Hb w a w1 E) as [f1 H1]. destruct (Hc a w1 x w' Hm) as [f2 H2].
  exists (f1 `max` f2). intros f Hle k K. rewrite H1 by lia. apply H2. lia.
Qed.

(** ** The tasks *)

#[local] Opaque chunk_size safety_cap.

Lemma put_reads_twice fd s s' w : put_reads fd s' (put_reads fd s w) = put_reads fd s' w.
Proof. unfold put_reads, set_reads. cbn. by rewrite insert_insert_eq. Qed.

Lemma put_reads_lookup fd s w : reads (put_reads fd s w) !! fd = Some s.
Proof. cbn. apply lookup_insert_eq. Qed.

Lemma co_read_runs fd n k K s w : reads w !! fd = Some s →
  runs (co_read fd n k) K w = runs (k (sys_answer n s).1) K (put_reads fd (sys_answer n s).2 w).
Proof. intros Hs. cbn. unfold reading. by rewrite Hs. Qed.

Lemma read_until_rounds_run fd delim fuel0 : ∀ buf s res s',
  read_until_loop fuel0 delim buf s = Some (res, s') → ∀ w f K, reads w !! fd = Some s → fuel0 ≤ f →
  runs (read_until_rounds f fd delim buf) K w = eval (K (Value (VStr res))) (put_reads fd s' w).
Proof.
  induction fuel0 as [|fuel0 IH]; intros buf s res s' Hl w f K Hs Hf; [done|].
  destruct f as [|f]; [lia|]. cbn [read_until_rounds]. rewrite (co_read_runs fd _ _ K s w Hs).
  assert (Hnext : ∀ s1 buf1, read_until_loop fuel0 delim buf1 s1 = Some (res, s') →
    runs (read_until_rounds f fd delim buf1) K (put_reads fd s1 w) = eval (K (Value (VStr res))) (put_reads fd s' w)).
  { intros s1 buf1 H1. rewrite (IH _ _ _ _ H1 _ f K (put_reads_lookup fd s1 w)) by lia. by rewrite put_reads_twice. }
  cbn [read_until_loop] in Hl. destruct s as [|[b bs| | | |] s]; cbn [sys_read sys_answer fst snd] in Hl |- *; [done|..].
  - destruct (decide (find_sub delim _ ≠ None)); [by simplify_eq|by apply Hnext].
  - by simplify_eq.
  - by apply Hnext.
  - by apply Hnext.
  - by simplify_eq.
Qed.

Lemma read_n_rounds_run fd n fuel0 : ∀ buf s res s',
  read_n_loop fuel0 n buf s = Some (res, s') → ∀ w f K, reads w !! fd = Some s → fuel0 ≤ f →
  runs (read_n_rounds f fd n buf) K w = eval (K (Value (VStr res))) (put_reads fd s' w).
Proof.
  induction fuel0 as [|fuel0 IH]; intros buf s res s' Hl w f K Hs Hf.
  - cbn in Hl. destruct (decide (n ≤ length buf)) as [Hd|]; [|done]. simplify_eq.
    assert (put_reads fd s' w = w) as -> by (unfold put_reads; rewrite insert_id by done; by destruct w).
    destruct f; cbn [read_n_rounds]; by rewrite decide_True by done.
  - destruct f as [|f]; [lia|]. cbn [read_n_rounds read_n_loop] in *.
    destruct (decide (n ≤ length buf)) as [Hd|Hd].
    { simplify_eq. assert (put_reads fd s' w = w) as -> by (unfold put_reads; rewrite insert_id by done; by destruct w).
      done. }
    rewrite (co_read_runs fd _ _ K s w Hs).
    assert (Hnext : ∀ s1 buf1, read_n_loop fuel0 n buf1 s1 = Some (res, s') →
      runs (read_n_rounds f fd n buf1) K (put_reads fd s1 w) = eval (K (Value (VStr res))) (put_reads fd s' w)).
    { intros s1 buf1 H1. rewrite (IH _ _ _ _ H1 _ f K (put_reads_lookup fd s1 w)) by lia. by rewrite put_reads_twice. }
    destruct s as [|[b bs| | | |] s]; cbn [sys_read sys_answer fst snd] in Hl |- *; [done|..].
    + by apply Hnext.
    + by simplify_eq.
    + by apply Hnext.
    + by apply Hnext.
    + by simplify_eq.
Qed.

(** A reading operation on the script, as a task. *)
Lemma on_reads_computes {A} fd (g : list rd → option (A * list rd)) (b : nat → co) inj :
  (∀ s a s', g s = Some (a, s') → ∃ f0, ∀ w f K, reads w !! fd = Some s → f0 ≤ f →
     runs (b f) K w = eval (K (Value (inj a))) (put_reads fd s' w)) →
  computes (λ f, touch_reads fd (b f)) (on_reads fd g) inj.
Proof.
  intros Hg w a w' Hm. unfold on_reads in Hm. destruct (g (default [] (reads w !! fd))) as [[a1 s']|] eqn:E; cbn in Hm; [|done].
  injection Hm as <- <-. destruct (Hg _ _ _ E) as [f0 Hf]. exists f0. intros f Hle K.
  change (runs (touch_reads fd (b f)) K w) with (runs (b f) K (put_reads fd (reading fd w) w)).
  rewrite Hf by (done || apply put_reads_lookup). by rewrite put_reads_twice.
Qed.

Lemma read_until_computes fd delim : computes (λ f, read_until_co f fd delim) (read_until fd delim) VStr.
Proof.
  apply (on_reads_computes fd (read_until_script delim) (λ f, read_until_rounds f fd delim [])).
  intros s a s' Hs. eexists. intros w f K Hw Hf. by eapply read_until_rounds_run.
Qed.

Lemma read_n_computes fd n : computes (λ f, read_n_co f fd n) (read_n fd n) VStr.
Proof.
  apply (on_reads_computes fd (read_n_script n) (λ f, read_n_rounds f fd n [])).
  intros s a s' Hs. eexists. intros w f K Hw Hf. by eapply read_n_rounds_run.
Qed.

(** *** Writing *)

Lemma put_writes_twice fd s s' w : put_writes fd s' (put_writes fd s w) = put_writes fd s' w.
Proof. unfold put_writes, set_writes. cbn. by rewrite insert_insert_eq. Qed.

Lemma write_rounds_run fd data ws : ∀ off ok off' ws',
  write_all_loop ws data off = Some (ok, off', ws') → ∀ w f K, writes w !! fd = Some ws → length ws ≤ f →
  runs (write_rounds f fd data off) K w =
    eval (K (Value (VBool ok))) (log_sent fd (take off' data) (put_writes fd ws' w)).
Proof.
  induction ws as [|r ws IH]; intros off ok off' ws' Hl w f K Hs Hf; cbn [write_all_loop] in Hl.
  - destruct (decide (length data ≤ off)) as [Hd|]; [|done]. simplify_eq.
    assert (put_writes fd [] w = w) as -> by (unfold put_writes; rewrite insert_id by done; by destruct w).
    destruct f; cbn [write_rounds]; by rewrite decide_True by done.
  - destruct (decide (length data ≤ off)) as [Hd|Hd].
    { simplify_eq. assert (put_writes fd (r :: ws) w = w) as -> by (unfold put_writes; rewrite insert_id by done; by destruct w).
      destruct f; cbn [write_rounds]; by rewrite decide_True by done. }
    destruct f as [|f]; [cbn in Hf; lia|]. cbn [write_rounds length] in *. rewrite decide_False by done.
    assert (Hstep : ∀ k, runs (co_write fd k) K w = runs (k r) K (put_writes fd ws w)).
    { intros k. cbn. unfold writing. by rewrite Hs. }
    rewrite Hstep.
    assert (Hnext : ∀ off1, write_all_loop ws data off1 = Some (ok, off', ws') →
      runs (write_rounds f fd data off1) K (put_writes fd ws w) =
      eval (K (Value (VBool ok))) (log_sent fd (take off' data) (put_writes fd ws' w))).
    { intros off1 H1. rewrite (IH _ _ _ _ H1 _ f K) by (cbn; rewrite ?lookup_insert_eq; done || lia).
      by rewrite put_writes_twice. }
    destruct r as [[|n]| | |]; [by simplify_eq|by apply Hnext|by apply Hnext|by apply Hnext|by simplify_eq].
Qed.

Lemma write_all_computes fd data : computes (λ f, write_all_co f fd data) (write_all_async fd data) VBool.
Proof.
  intros w ok w' Hm. unfold write_all_async in Hm.
  destruct (write_all_loop (default [] (writes w !! fd)) data 0) as [[[ok1 off] ws]|] eqn:E; cbn in Hm; [|done].
  injection Hm as <- <-. eexists. intros f Hle K.
  change (runs (write_all_co f fd data) K w) with (runs (write_rounds f fd data 0) K (put_writes fd (writing fd w) w)).
  rewrite (write_rounds_run fd data _ _ _ _ _ E) by (cbn; rewrite ?lookup_insert_eq; done).
  by rewrite put_writes_twice.
Qed.

(** *** Connecting *)

Lemma connect_computes : computes (λ _, connect_co) connect_upstream VFd.
Proof.
  intros w o w' Hm. exists 0. intros f _ K. unfold connect_upstream in Hm. cbn.
  destruct (connects w) as [|[|fd|fd|fd []] cs]; simplify_eq/=; done.
Qed.

#[local] Opaque connect_co.
Lemma acquire_computes h p : computes (λ _, acquire_co h p) (acquire_upstream h p) VFd.
Proof.
  intros w o w' Hm. exists 0. intros f _ K. unfold acquire_upstream in Hm.
  apply io_bind_inv in Hm as (pools & w1 & [= <- <-] & Hm). cbn.
  destruct (pools_ w !! upstream_key h p) as [[|fd rest]|].
  - destruct (connect_computes w o w' Hm) as [f0 Hf]. cbn. by rewrite (Hf f0).
  - apply io_bind_inv in Hm as ([] & w1 & [= <-] & [= <- <-]). done.
  - destruct (connect_computes w o w' Hm) as [f0 Hf]. cbn. by rewrite (Hf f0).
Qed.

(** ** The client's coroutine computes what Proxy.v says *)

(** [co_await] of a task, with what its caller makes of the value. *)
Lemma await_bind {A B} b (m : io A) inj (c : nat → val → (B → co) → co) (g : A → io B) :
  computes b m inj → (∀ a, leads (λ f, c f (inj a)) (g a)) →
  leads (λ f k, co_await (b f) (λ v, c f v k)) (a ← m; g a).
Proof.
  intros Hb Hc w x w' Hm. apply io_bind_inv in Hm as (a & w1 & E & Hm).
  destruct (Hb w a w1 E) as [f1 H1]. destruct (Hc a w1 x w' Hm) as [f2 H2].
  exists (f1 `max` f2). intros f Hle k K.
  change (runs (co_await (b f) (λ v, c f v k)) K w) with
    (runs (b f) (λ r, match r with Value v => inline VUnit (c f v k) K | Exception => K Exception end) w).
  rewrite H1 by lia. apply H2. lia.
Qed.

Lemma sync_bind {A B} (m : io A) d (c : nat → A → (B → co) → co) (g : A → io B) :
  (∀ a, leads (λ f, c f a) (g a)) → leads (λ f k, sync m d (λ a, c f a k)) (a ← m; g a).
Proof. intros Hc. apply (bind_leads (λ _, sync m d) m c g); [apply sync_leads|done]. Qed.

#[local] Opaque read_until_co read_n_co write_all_co acquire_co.

(** The loops that collect a response read the script of the upstream. *)
Lemma on_reads_leads fd (g : list rd → option (str * list rd)) (b : nat → (str → co) → co) :
  (∀ s a s' w, g s = Some (a, s') → reads w !! fd = Some s → ∃ f0, ∀ f k K, f0 ≤ f →
     runs (b f k) K w = runs (k a) K (put_reads fd s' w)) →
  leads (λ f k, touch_reads fd (b f k)) (on_reads fd g).
Proof.
  intros Hg w a w' Hm. unfold on_reads in Hm. destruct (g (default [] (reads w !! fd))) as [[a1 s']|] eqn:E; cbn in Hm; [|done].
  injection Hm as <- <-. destruct (Hg _ _ _ (put_reads fd (reading fd w) w) E) as [f0 Hf]; [apply put_reads_lookup|].
  exists f0. intros f Hle k K.
  change (runs (touch_reads fd (b f k)) K w) with (runs (b f k) K (put_reads fd (reading fd w) w)).
  rewrite Hf by done. by rewrite put_reads_twice.
Qed.

Lemma await_read fd (g : list rd → option (str * list rd)) (b : nat → co) s more s1 w :
  computes b (on_reads fd g) VStr → g s = Some (more, s1) → reads w !! fd = Some s →
  ∃ f0, ∀ f c K, f0 ≤ f → runs (co_await (b f) c) K w = runs (c (VStr more)) K (put_reads fd s1 w).
Proof.
  intros Hb Hg Hs. destruct (Hb w more (put_reads fd s1 w)) as [f0 Hf].
  { unfold on_reads. rewrite Hs. cbn. by rewrite Hg. }
  exists f0. intros f c K Hle. change (runs (co_await (b f) c) K w) with
    (runs (b f) (λ r, match r with Value v => inline VUnit (c v) K | Exception => K Exception end) w).
  by rewrite Hf.
Qed.

Lemma chunk_rounds_run fd n0 : ∀ buf s res s' w,
  chunk_loop n0 buf s = Some (res, s') → reads w !! fd = Some s →
  ∃ f0, ∀ f n k K, f0 ≤ f → f0 ≤ n → runs (chunk_rounds f n fd buf k) K w = runs (k res) K (put_reads fd s' w).
Proof.
  induction n0 as [|n0 IH]; intros buf s res s' w Hl Hs; [done|]. cbn [chunk_loop] in Hl.
  assert (put_reads fd s w = w) as Hid by (unfold put_reads; rewrite insert_id by done; by destruct w).
  assert (Hgo : ∀ buf1 s1, chunk_loop n0 buf1 s1 = Some (res, s') →
    ∃ f0, ∀ f n k K, f0 ≤ f → f0 ≤ n → runs (chunk_rounds f n fd buf1 k) K (put_reads fd s1 w) = runs (k res) K (put_reads fd s' w)).
  { intros buf1 s1 H1. destruct (IH _ _ _ _ (put_reads fd s1 w) H1) as [f0 Hf]; [apply put_reads_lookup|].
    exists f0. intros f n k K Hle Hn. rewrite Hf by done. by rewrite put_reads_twice. }
  destruct (decide (find_sub last_chunk buf ≠ None)) as [Hd|Hd].
  { simplify_eq. exists 1. intros f n k K _ Hn. destruct n as [|n]; [lia|]. cbn [chunk_rounds]. by rewrite decide_True, Hid by done. }
  destruct (decide (find_sub CRLF buf = None)) as [Hc|Hc].
  - destruct (read_until_script CRLF s) as [[more s1]|] eqn:E; cbn in Hl; [|done].
    destruct (await_read fd _ _ s more s1 w (read_until_computes fd CRLF) E Hs) as [f1 H1].
    destruct (Hgo _ _ Hl) as [f2 H2]. exists (S (f1 `max` f2)). intros f n k K Hle Hn. destruct n as [|n]; [lia|].
    cbn [chunk_rounds]. rewrite decide_False, decide_True, H1 by (done || lia). apply H2; lia.
  - destruct (read_n_script chunk_size s) as [[more s1]|] eqn:E; cbn in Hl; [|done].
    destruct (await_read fd _ _ s more s1 w (read_n_computes fd chunk_size) E Hs) as [f1 H1].
    assert (∀ f n k K, f1 ≤ f → runs (chunk_rounds f (S n) fd buf k) K w =
      runs (if decide (more = []) then k buf else if decide (safety_cap < length (buf ++ more)) then k (buf ++ more)
            else chunk_rounds f n fd (buf ++ more) k) K (put_reads fd s1 w)) as Hstep.
    { intros f n k K Hle. cbn [chunk_rounds]. rewrite decide_False, decide_False, H1 by done. done. }
    destruct (decide (more = [])) as [Hm|Hm]; [|destruct (decide (safety_cap < length (buf ++ more))) as [Hcap|Hcap]].
    + simplify_eq. exists (S f1). intros f [|n] k K Hle Hn; [lia|]. by rewrite Hstep by lia.
    + simplify_eq. exists (S f1). intros f [|n] k K Hle Hn; [lia|]. by rewrite Hstep by lia.
    + destruct (Hgo _ _ Hl) as [f2 H2]. exists (S (f1 `max` f2)). intros f [|n] k K Hle Hn; [lia|].
      rewrite Hstep by lia. apply H2; lia.
Qed.

Lemma eof_rounds_run fd n0 : ∀ buf s res s' w,
  eof_loop n0 buf s = Some (res, s') → reads w !! fd = Some s →
  ∃ f0, ∀ f n k K, f0 ≤ f → f0 ≤ n → runs (eof_rounds f n fd buf k) K w = runs (k res) K (put_reads fd s' w).
Proof.
  induction n0 as [|n0 IH]; intros buf s res s' w Hl Hs; [done|]. cbn [eof_loop] in Hl.
  destruct (read_n_script chunk_size s) as [[more s1]|] eqn:E; cbn in Hl; [|done].
  destruct (await_read fd _ _ s more s1 w (read_n_computes fd chunk_size) E Hs) as [f1 H1].
  assert (∀ f n k K, f1 ≤ f → runs (eof_rounds f (S n) fd buf k) K w =
    runs (if decide (more = []) then k buf else if decide (safety_cap < length (buf ++ more)) then k (buf ++ more)
          else eof_rounds f n fd (buf ++ more) k) K (put_reads fd s1 w)) as Hstep.
  { intros f n k K Hle. cbn [eof_rounds]. rewrite H1 by done. done. }
  destruct (decide (more = [])) as [Hm|Hm]; [|destruct (decide (safety_cap < length (buf ++ more))) as [Hcap|Hcap]].
  - simplify_eq. exists (S f1). intros f [|n] k K Hle Hn; [lia|]. by rewrite Hstep by lia.
  - simplify_eq. exists (S f1). intros f [|n] k K Hle Hn; [lia|]. by rewrite Hstep by lia.
  - destruct (IH _ _ _ _ (put_reads fd s1 w) Hl) as [f2 H2]; [apply put_reads_lookup|].
    exists (S (f1 `max` f2)). intros f [|n] k K Hle Hn; [lia|].
    rewrite Hstep, H2 by lia. by rewrite put_reads_twice.
Qed.

Lemma response_body_leads fd hs in_head :
  leads (λ f k, response_body_co f fd hs in_head k) (read_response_body fd hs in_head).
Proof.
  unfold response_body_co, read_response_body. case_decide; [|case_decide; [case_decide|]].
  - apply (on_reads_leads fd _ (λ f k, chunk_rounds f f fd in_head k)). intros s a s' w Hl Hs.
    destruct (chunk_rounds_run fd _ _ _ _ _ w Hl Hs) as [f0 Hf]. exists f0. intros f k K Hle. by apply Hf.
  - apply (await_bind _ _ VStr _ _ (read_n_computes fd _)). intros rest. apply (ret_leads (in_head ++ rest)).
  - apply ret_leads.
  - apply (on_reads_leads fd _ (λ f k, eof_rounds f f fd in_head k)). intros s a s' w Hl Hs.
    destruct (eof_rounds_run fd _ _ _ _ _ w Hl Hs) as [f0 Hf]. exists f0. intros f k K Hle. by apply Hf.
Qed.

Lemma abandon_leads r fd :
  leads (λ f k, abandon r fd k) (close_fd fd;; mark_unhealthy (host r) (port r);; mret None).
Proof. apply sync_bind. intros []. apply sync_bind. intros []. apply ret_leads. Qed.

Lemma attempt_leads r request : leads (λ f k, attempt_co f r request k) (attempt r request).
Proof.
  unfold attempt_co, attempt. apply (await_bind _ _ VFd _ _ (acquire_computes (host r) (port r))).
  intros [fd|]; cbn [to_fd].
  - apply (await_bind _ _ VBool _ _ (write_all_computes fd request)). intros [|]; cbn [to_bool negb]; [|apply abandon_leads].
    apply (await_bind _ _ VStr _ _ (read_until_computes fd end_of_head)). intros x. cbn [to_str].
    destruct (find_sub end_of_head x) as [i|]; [|apply abandon_leads].
    apply (bind_leads _ _ (λ _ b k, sync (release_upstream (host r) (port r) fd true) () (λ _, k (Some (take (i + 4) x ++ b))))
      _ (response_body_leads fd _ _)).
    intros b. apply sync_bind. intros []. apply ret_leads.
  - apply sync_bind. intros []. apply ret_leads.
Qed.

Lemma forward_leads r request n : leads (λ f k, forward_co f n r request k) (forward n r request).
Proof.
  induction n as [|n IH]; [apply ret_leads|]. cbn [forward_co forward].
  apply (bind_leads _ _ (λ f resp k, match resp with Some x => k (Some x) | None => forward_co f n r request k end)
    _ (attempt_leads r request)).
  intros [x|]; [apply ret_leads|exact IH].
Qed.

Lemma refuse_leads client why :
  leads (λ f k, refuse_co f client why k) (write_all_async client (bad_gateway why);; mret false).
Proof. apply (await_bind _ _ VBool _ _ (write_all_computes client _)). intros ok. apply ret_leads. Qed.

Lemma answer_leads cfg client info b : leads (λ f k, answer_co f cfg client info b k) (answer cfg client info b).
Proof.
  unfold answer_co, answer. destruct (find_route (routes_ cfg) (url info)) as [r|]; [|apply refuse_leads].
  apply sync_bind. intros [|]; cbn [negb]; [|apply refuse_leads].
  apply (bind_leads _ _ (λ f resp k, match resp with
    | None => refuse_co f client (lit "upstream failed") k
    | Some x => co_await (write_all_co f client x) (λ client_ok, k (to_bool client_ok && wants_keep_alive info)) end)
    _ (forward_leads r _ (S (max_retries_ cfg)))).
  intros [x|]; [|apply refuse_leads].
  apply (await_bind _ _ VBool _ _ (write_all_computes client x)). intros ok. apply ret_leads.
Qed.

Lemma serve_once_leads cfg client : leads (λ f k, serve_once_co f cfg client k) (serve_once cfg client).
Proof.
  unfold serve_once_co, serve_once. apply (await_bind _ _ VStr _ _ (read_until_computes client end_of_head)).
  intros x. cbn [to_str]. destruct (find_sub end_of_head x) as [i|]; [|apply ret_leads].
  cbv zeta. case_decide.
  - (* the rest of the body is read, then the request is answered *)
    intros w a w' Hm. apply io_bind_inv in Hm as (b & w1 & Hb & Hm).
    apply io_bind_inv in Hb as (rest & w2 & Hr & [= <- <-]).
    destruct (read_n_computes client _ w rest w2 Hr) as [f1 H1]. destruct (answer_leads _ _ _ _ w2 a w' Hm) as [f2 H2].
    exists (f1 `max` f2). intros f Hle k K.
    change (eval (inline VUnit (co_await ?b ?c) K) w) with
      (runs b (λ r, match r with Value v => inline VUnit (c v) K | Exception => K Exception end) w).
    rewrite H1 by lia. apply H2. lia.
  - intros w a w' Hm. apply io_bind_inv in Hm as (b & w1 & [= <- <-] & Hm). by apply answer_leads.
Qed.

Lemma client_rounds_run cfg client n0 : ∀ w w',
  serve_client n0 cfg client w = Some ((), w') →
  ∃ f0, ∀ f n K, f0 ≤ f → f0 ≤ n → runs (client_rounds f n cfg client) K w = eval (K (Value VUnit)) w'.
Proof.
  induction n0 as [|n0 IH]; intros w w' Hm; [done|]. cbn [serve_client] in Hm.
  apply io_bind_inv in Hm as (again & w1 & Hs & Hm). destruct (serve_once_leads cfg client w again w1 Hs) as [f1 H1].
  destruct again.
  - destruct (IH w1 w' Hm) as [f2 H2]. exists (S (f1 `max` f2)). intros f [|n] K Hle Hn; [lia|].
    cbn [client_rounds]. rewrite H1 by lia. apply H2; lia.
  - injection Hm as <-. exists (S f1). intros f [|n] K Hle Hn; [lia|]. cbn [client_rounds]. by rewrite H1 by lia.
Qed.

(** ** The machine, driven by the events the coroutine waits for *)

Section drive.
Context (accepts : Z → bool).

Definition driven (b : co) (w : world) : list (loop_event val world) :=
  Spawn b :: (Event <$> waits (meaning VUnit b) w).

Lemma drive_process f : ∀ w, Forall (λ fd, accepts fd = true) (waits f w) →
  foldl (λ Ps e, spec_event VUnit accepts e Ps)
    ([(settle accepts [] f w).1], (settle accepts [] f w).2) (Event <$> waits f w) = ([Done (eval f w).1], (eval f w).2).
Proof.
  induction f as [r|fd mask k IH|g k IH]; intros w Hw; cbn [waits] in Hw.
  - done.
  - apply Forall_cons in Hw as [Ha Hw]. specialize (IH w Hw).
    change (settle accepts [] (FAwait fd mask k) w) with
      (if accepts fd && bool_decide (fd ∉ waited ([] : list (status val world))) then Waits fd mask k else Lost, w).
    rewrite Ha, bool_decide_eq_true_2 by apply not_elem_of_nil. cbn [andb fst snd waits].
    rewrite fmap_cons. cbn [foldl]. etrans; [|exact IH]. f_equal.
    cbn [spec_event fst snd advance]. rewrite decide_True by done. cbn [app].
    by destruct (settle accepts [] k w).
  - apply (IH w (g w) Hw).
Qed.

Lemma drive_machine b w r w' :
  eval (meaning VUnit b) w = (r, w') → Forall (λ fd, accepts fd = true) (waits (meaning VUnit b) w) →
  ∃ fuel m h, event_loop VUnit accepts fuel (driven b w) (idle w) = Some m ∧ store m = w' ∧
    frames m = {[h := mkFrame (Final r) None]} ∧ registered m = ∅ ∧ control m = None.
Proof.
  intros He Ha.
  destruct (loop_settles VUnit accepts (driven b w) [] [] (idle w) (idle_represents VUnit w))
    as (fuel & m & ps & Hl & _ & Hst & Hrep).
  change (store (idle w)) with w in Hst, Hrep.
  assert (foldl (λ Ps e, spec_event VUnit accepts e Ps) ([], w) (driven b w) = ([Done r], w')) as E.
  { etrans; [|etrans; [exact (drive_process (meaning VUnit b) w Ha)|by rewrite He]].
    unfold driven. cbn [foldl]. f_equal. cbn [spec_event fst snd store idle app].
    by destruct (settle accepts [] (meaning VUnit b) w). }
  rewrite E in Hst, Hrep. cbn [fst snd] in Hst, Hrep.
  pose proof (rep_shows _ _ _ _ Hrep) as Hs. apply Forall2_cons_inv_r in Hs as (p & ps' & Hp & Hnil & ->).
  apply Forall2_nil_inv_r in Hnil as ->. destruct Hp as (_ & Hf & Hstk).
  exists fuel, m, (pleaf p). split_and!; [done..| | |apply Hrep].
  - rewrite (rep_frames _ _ _ _ Hrep). cbn. rewrite Hf, Hstk. done.
  - apply dom_empty_inv_L. rewrite (represents_registered _ _ _ _ Hrep). done.
Qed.
End drive.


(** A client that sends one request in two pieces and then closes; the connection to
    the upstream takes a moment. *)
Definition coro_world : world :=
  put_reads 4 (cut 20 (bytes demo_request) ++ [RAgain; Eof]) (demo_world [InProgress 9 false]).
Definition coro_end : world :=
  match serve_client 2 demo_proxy 4 coro_world with Some (_, w) => w | None => coro_world end.


(** It waits for the rest of the request, for the connection, for the rest of the
    response, for room to answer, and for the next request. *)
Example coroutine_waits :
  waits (meaning VUnit (serve_client_co 100 demo_proxy 4)) coro_world = [4; 9; 9; 4; 4]%Z.
Proof. vm_compute. reflexivity. Qed.
