(* ===== verification/ProxyServer.v ===== *)
(** * The proxy's event loop and life cycle (src/muses/net_components/proxy.hpp)

    [ProxyServer] around the coroutines of Task.v: [start], [stop], the loop thread
    with its batches of events, [accept_clients], [resume_handle] and the reaping of
    finished tasks.  A batch holds the handles the poller reported at [wait]; the
    coroutines resumed before an event is reached may have ended, created tasks or
    registered other descriptors.  A client's body is any tree of awaits, calls, results
    and accesses to the shared state (the pools, the health table and what the kernel
    will answer); ProxyCoro.v has the tree of [serve_client].
    [None] is undefined behaviour (a destroyed coroutine is resumed, inspected or
    destroyed again) or a lack of fuel. *)

From S2P Require Import Prelude Task TaskProps TaskDestroy TaskGroup Proxy.
Import Tasks TaskRuns.

Section server.
Context {V : Type} (unit_value : V) (accepts : Z → bool) (listen_fd_ : Z).
(** The coroutines that clients may have, by the client's descriptor. *)
Context (client_body : Z → body V world → Prop).

(** The listen descriptor is watched already: [add] refuses it. *)
Definition watchable (fd : Z) : bool := accepts fd && negb (bool_decide (fd = listen_fd_)).

Record event : Type := mkEvent {
  ev_fd : Z;
  userdata : option nat                (* the coroutine handle, or null *)
}.

(** Where the loop thread is: not running, before the test of [running_], or with the
    rest of a batch; [Some n] inside [accept_clients] with [n] rounds left. *)
Inductive loop_pc : Type :=
  | NoLoop
  | Top
  | Batch (evs : list event) (accepting : option nat).

Record proxy : Type := mkServer {
  running_ : bool;
  poller_ : bool;                      (* not null *)
  loop_thread_ : bool;                 (* joinable *)
  pc : loop_pc;
  live_tasks_ : gmap Z nat;            (* the handle the task owns *)
  coros : machine V world;
  client_fds : gset Z                  (* client descriptors the kernel has open *)
}.

Definition set_coros (m : machine V world) (s : proxy) : proxy :=
  mkServer (running_ s) (poller_ s) (loop_thread_ s) (pc s) (live_tasks_ s) m (client_fds s).
Definition set_pc (p : loop_pc) (s : proxy) : proxy :=
  mkServer (running_ s) (poller_ s) (loop_thread_ s) p (live_tasks_ s) (coros s) (client_fds s).
Definition set_live (l : gmap Z nat) (s : proxy) : proxy :=
  mkServer (running_ s) (poller_ s) (loop_thread_ s) (pc s) l (coros s) (client_fds s).
Definition set_clients (c : gset Z) (s : proxy) : proxy :=
  mkServer (running_ s) (poller_ s) (loop_thread_ s) (pc s) (live_tasks_ s) (coros s) c.

(** The constructor: no connection is pooled and every upstream is healthy; the rest
    of the shared state is what the kernel will answer. *)
Definition initial_world (routes : list ProxyRoute) (rs : gmap Z (list rd)) (ws : gmap Z (list wr))
    (cs : list connect_result) (ts : list Z) : world :=
  mkWorld ∅ (initial_health routes) rs ws cs ts [] [].

Definition make (w : world) : proxy :=
  mkServer false false false NoLoop ∅ (idle w) ∅.

(** [start]; [made] and [added] are the results of [make_poller] and [add].  The new
    poller watches nothing else.  Assigning to a joinable thread ends the program. *)
Definition start (made added : bool) (s : proxy) : option proxy :=
  if running_ s then Some s else
  let m := set_registered ∅ (coros s) in
  if negb (made && added) then
    Some (mkServer false made (loop_thread_ s) (pc s) (live_tasks_ s) m (client_fds s))
  else if loop_thread_ s then None
  else Some (mkServer true true true Top (live_tasks_ s) m (client_fds s)).

(** ** Events *)

(** The handle that [await_suspend] stored; null for the listen descriptor. *)
Definition handle_from_event (ev : event) : option nat := userdata ev.

(** [resume_handle]. *)
Definition resume_handle (fuel : nat) (h : nat) (fd : Z) (s : proxy) : option proxy :=
  let reg := registered (coros s) in
  let reg := if decide (fd = listen_fd_) then reg else delete fd reg in
  m ← resume unit_value watchable fuel h (set_registered reg (coros s));
  Some (set_coros m s).

(** One connection in [accept_clients]: the coroutine is created and resumed; when it
    has finished the descriptor is closed and the task destroyed, otherwise the task
    is moved into [live_tasks_]. *)
Definition accept_client (fuel : nat) (fd : Z) (b : body V world) (s : proxy) : option proxy :=
  let h := fresh_id (coros s) in
  m ← spawn unit_value watchable fuel b (coros s);
  fin ← task_done h m;
  if fin : bool then m ← drop_task h m; Some (set_coros m s)
  else
    m ← match live_tasks_ s !! fd with Some old => drop_task old m | None => Some m end;
    Some (set_clients ({[fd]} ∪ client_fds s) (set_live (<[fd := h]> (live_tasks_ s)) (set_coros m s))).

(** What [accept] answers. *)
Inductive accepted : Type :=
  | AConn (fd : Z) (b : body V world)
  | AAgain
  | AIntr
  | AFail.

(** One round of the loop in [accept_clients], with [n] rounds left: the rounds left
    after it, or [None] when the loop is over. *)
Definition accept_round (fuel : nat) (a : accepted) (n : nat) (s : proxy) : option (proxy * option nat) :=
  match a with
  | AConn fd b => s ← accept_client fuel fd b s; Some (s, Some (pred n))
  | AIntr => Some (s, Some (pred n))
  | AAgain | AFail => Some (s, None)
  end.

Definition kAcceptBatch : nat := 128.
Definition kMaxEvents : nat := 128.

Fixpoint reap_list (l : list (Z * nat)) (s : proxy) : option proxy :=
  match l with
  | [] => Some s
  | (fd, h) :: l' =>
      fin ← task_done h (coros s);
      if fin : bool then
        m ← drop_task h (coros s);
        reap_list l' (set_live (delete fd (live_tasks_ s)) (set_coros m s))
      else reap_list l' s
  end.

Definition reap_finished_tasks (s : proxy) : option proxy := reap_list (map_to_list (live_tasks_ s)) s.

(** ** [stop] *)

Definition stop_flag (s : proxy) : proxy :=
  mkServer false (poller_ s) (loop_thread_ s) (pc s) (live_tasks_ s) (coros s) (client_fds s).
Definition stop_join (s : proxy) : proxy :=
  mkServer (running_ s) (poller_ s) false (pc s) (live_tasks_ s) (coros s) (client_fds s).

(** After the join: [live_tasks_.clear()], the pools, and the poller. *)
Definition stop_clear (s : proxy) : option proxy :=
  m ← drop_tasks (map_to_list (live_tasks_ s)).*2 (coros s);
  Some (mkServer (running_ s) false (loop_thread_ s) (pc s) ∅
          (set_store (stop_pools (store m)) (set_registered ∅ m)) (client_fds s)).

(** ** Steps *)

Inductive owner : Type := Out | Stopping | Joined.

(** What [wait] returns: the listen descriptor, and registered descriptors with their
    handles, each descriptor once. *)
Definition reported (s : proxy) (ev : event) : Prop :=
  match userdata ev with
  | None => ev_fd ev = listen_fd_
  | Some h => ∃ mask, registered (coros s) !! ev_fd ev = Some (mask, h)
  end.
Definition batch_ok (evs : list event) (s : proxy) : Prop :=
  Forall (reported s) evs ∧ NoDup (ev_fd <$> evs) ∧ length evs ≤ kMaxEvents.

(** The kernel gives out descriptors that are not open; the coroutine is the client's. *)
Definition accepted_ok (a : accepted) (s : proxy) : Prop :=
  match a with AConn fd b => fd ∉ client_fds s ∧ fd ≠ listen_fd_ ∧ client_body fd b | _ => True end.

Inductive step : owner * proxy → owner * proxy → Prop :=
  | step_start made added s s' :
      start made added s = Some s' → step (Out, s) (Out, s')
  | step_flag s : running_ s = true → step (Out, s) (Stopping, stop_flag s)
  | step_join s : pc s = NoLoop → step (Stopping, s) (Joined, stop_join s)
  | step_clear s s' : stop_clear s = Some s' → step (Joined, s) (Out, s')
  (* the loop thread *)
  | step_exit o s : pc s = Top → running_ s = false → step (o, s) (o, set_pc NoLoop s)
  | step_wait o evs s :
      pc s = Top → running_ s = true → batch_ok evs s → step (o, s) (o, set_pc (Batch evs None) s)
  | step_wait_failed o s : pc s = Top → running_ s = true → step (o, s) (o, s)
  | step_listen o ev evs s :
      pc s = Batch (ev :: evs) None → ev_fd ev = listen_fd_ → userdata ev = None →
      step (o, s) (o, set_pc (Batch evs (Some kAcceptBatch)) s)
  | step_accept o fuel a n evs s s' more :
      pc s = Batch evs (Some (S n)) → accepted_ok a s → accept_round fuel a (S n) s = Some (s', more) →
      step (o, s) (o, set_pc (Batch evs more) s')
  | step_accepted o evs s :
      pc s = Batch evs (Some 0) → step (o, s) (o, set_pc (Batch evs None) s)
  | step_resume o fuel ev h evs s s' :
      pc s = Batch (ev :: evs) None → handle_from_event ev = Some h → resume_handle fuel h (ev_fd ev) s = Some s' →
      step (o, s) (o, set_pc (Batch evs None) s')
  | step_reap o s s' :
      pc s = Batch [] None → reap_finished_tasks s = Some s' → step (o, s) (o, set_pc Top s').

(** ** The invariant *)

Record serves (o : owner) (s : proxy) : Prop := mkServes {
  sv_group : group unit_value (live_tasks_ s) (coros s);
  sv_clients : dom (live_tasks_ s) ⊆ client_fds s;
  sv_listen : registered (coros s) !! listen_fd_ = None;
  sv_batch : ∀ evs n, pc s = Batch evs n → Forall (reported s) evs ∧ NoDup (ev_fd <$> evs);
  sv_out : o = Out → running_ s = loop_thread_ s ∧ (running_ s = false → pc s = NoLoop ∧ live_tasks_ s = ∅);
  sv_in : o ≠ Out → running_ s = false;
  sv_joined : o = Joined → pc s = NoLoop ∧ loop_thread_ s = false
}.

(** The parts of the state that the loop's control does not touch. *)
Lemma serves_loop o s s' :
  serves o s → live_tasks_ s' = live_tasks_ s → coros s' = coros s → client_fds s' = client_fds s →
  running_ s' = running_ s → loop_thread_ s' = loop_thread_ s → (pc s = NoLoop → pc s' = NoLoop) →
  (∀ evs n, pc s' = Batch evs n → Forall (reported s) evs ∧ NoDup (ev_fd <$> evs)) → serves o s'.
Proof.
  intros [Hg Hc Hl Hb Ho Hi Hj] El Em Ec Er Et Ep Hb'. constructor; rewrite ?El, ?Em, ?Ec, ?Er, ?Et; try done.
  - intros evs n Hpc. destruct (Hb' evs n Hpc) as [H1 H2]. split; [|done].
    eapply Forall_impl; [exact H1|]. unfold reported. by rewrite Em.
  - intros E. destruct (Ho E) as [? Hf]. split; [done|]. intros E'. destruct (Hf E') as [? ?]. auto.
  - intros E. destruct (Hj E). auto.
Qed.

(** Reports stay true when no registration is lost. *)
Lemma reported_mono s s' evs :
  (∀ ev, ev ∈ evs → registered (coros s') !! ev_fd ev = registered (coros s) !! ev_fd ev ∨
    ∃ x, registered (coros s) !! ev_fd ev = Some x ∧ registered (coros s') !! ev_fd ev = Some x) →
  Forall (reported s) evs → Forall (reported s') evs.
Proof.
  intros Hr Hev. rewrite Forall_forall in Hev |- *. intros ev Hin. specialize (Hev ev Hin). unfold reported in *.
  destruct (userdata ev) as [h|]; [|done]. destruct Hev as [mask Hm].
  destruct (Hr ev Hin) as [->|(x & Hx & ->)]; [eauto|]. exists mask. congruence.
Qed.

Lemma watchable_listen : watchable listen_fd_ = false.
Proof. unfold watchable. rewrite bool_decide_eq_true_2 by done. by rewrite andb_false_r. Qed.

(** ** One connection *)

Lemma accept_client_ok o evs n fd b s :
  serves o s → pc s = Batch evs n → fd ∉ client_fds s →
  ∃ fuel s', accept_client fuel fd b s = Some s' ∧ serves o s' ∧ pc s' = pc s ∧ client_fds s ⊆ client_fds s' ∧
    (live_tasks_ s' = live_tasks_ s ∨ fd ∈ client_fds s').
Proof.
  intros Hs Hpc Hfd. destruct (Hs) as [Hg Hc Hl Hb Ho Hi Hj].
  assert (Hnone : live_tasks_ s !! fd = None) by (apply not_elem_of_dom; set_solver).
  destruct (group_spawn unit_value watchable (live_tasks_ s) (coros s) b Hg) as (fuel & m & fin & Hsp & Hd & Hend).
  assert (Hkeep : ∀ k x, registered (coros s) !! k = Some x → registered m !! k = Some x).
  { intros k x Hx. eapply run_keeps; [exact Hsp|done]. }
  assert (Hlm : registered m !! listen_fd_ = None).
  { eapply run_refuses; [exact Hsp|apply watchable_listen|done]. }
  assert (Hrep : ∀ s' evs n, registered (coros s') = registered m → pc s' = pc s → pc s' = Batch evs n →
    Forall (reported s') evs ∧ NoDup (ev_fd <$> evs)).
  { intros s' evs' n' Hreg Hp Hp'. destruct (Hb evs' n') as [H1 H2]; [congruence|]. split; [|done].
    eapply reported_mono; [|exact H1]. intros ev Hin. rewrite Hreg.
    destruct (registered (coros s) !! ev_fd ev) as [x|] eqn:E; [right; eauto|].
    left. rewrite Forall_forall in H1. specialize (H1 ev Hin). unfold reported in H1.
    destruct (userdata ev); [destruct H1; congruence|]. rewrite H1. congruence. }
  exists fuel. unfold accept_client. rewrite Hsp. cbn [mbind option_bind]. rewrite Hd. cbn [mbind option_bind].
  destruct fin.
  - destruct Hend as (m' & -> & Hg' & Hreg & _). cbn [mbind option_bind]. eexists. split; [done|].
    split; [|by split_and!; [..|left]]. constructor; cbn; try done; [congruence|].
    intros evs' n' Hp. by apply (Hrep (set_coros m' s)) with n'.
  - rewrite Hnone. cbn [mbind option_bind]. eexists. split; [done|]. split; [|cbn; set_solver].
    constructor; cbn; try done.
    + by apply Hend.
    + rewrite dom_insert_L. set_solver.
    + intros evs' n' Hp. by apply (Hrep (set_coros m s)) with n'.
    + intros E. destruct (Ho E) as [? Hf]. split; [done|]. intros E'. destruct (Hf E'). congruence.
Qed.

(** ** One event *)

Lemma resume_handle_ok o ev h evs s :
  serves o s → pc s = Batch (ev :: evs) None → userdata ev = Some h →
  ∃ fuel s', resume_handle fuel h (ev_fd ev) s = Some s' ∧ serves o (set_pc (Batch evs None) s') ∧
    client_fds s' = client_fds s.
Proof.
  intros Hs Hpc Hu. destruct (Hs) as [Hg Hc Hl Hb Ho Hi Hj]. destruct (Hb _ _ Hpc) as [Hrep Hnd].
  apply Forall_cons in Hrep as [Hev Hrep]. unfold reported in Hev. rewrite Hu in Hev. destruct Hev as [mask Hm].
  apply NoDup_cons in Hnd as [Hnin Hnd].
  assert (ev_fd ev ≠ listen_fd_) as Hne by congruence.
  destruct (group_resume unit_value watchable (live_tasks_ s) (coros s) (ev_fd ev) mask h Hg Hm) as (fuel & m & Hr & Hg').
  exists fuel. unfold resume_handle. rewrite decide_False by done. rewrite Hr. cbn [mbind option_bind].
  eexists. split; [done|]. split; [|done]. constructor; cbn; try done.
  - eapply run_refuses; [exact Hr|apply watchable_listen|]. cbn. by rewrite lookup_delete_ne.
  - intros evs' n [= <- <-]. split; [|done]. eapply reported_mono; [|exact Hrep]. intros ev' Hin. cbn.
    assert (ev_fd ev' ≠ ev_fd ev) by (intros E; apply Hnin; rewrite <- E; apply list_elem_of_fmap; eauto).
    destruct (registered (coros s) !! ev_fd ev') as [x|] eqn:E.
    + right. exists x. split; [done|]. eapply run_keeps; [exact Hr|]. cbn. by rewrite lookup_delete_ne.
    + left. rewrite Forall_forall in Hrep. specialize (Hrep ev' Hin). unfold reported in Hrep.
      destruct (userdata ev'); [destruct Hrep; congruence|]. rewrite Hrep.
      eapply run_refuses; [exact Hr|apply watchable_listen|]. cbn. by rewrite lookup_delete_ne.
  - intros E. destruct (Ho E) as [? Hf]. split; [done|]. intros E'. destruct (Hf E'). congruence.
  - intros E. destruct (Hj E). congruence.
Qed.

(** ** Reaping *)

Definition unfinished (m : machine V world) (h : nat) : Prop := task_done h m = Some false.

Lemma reap_list_ok o l : ∀ s,
  serves o s → pc s = Batch [] None → NoDup l.*1 → (∀ fd h, (fd, h) ∈ l → live_tasks_ s !! fd = Some h) →
  ∃ s', reap_list l s = Some s' ∧ serves o s' ∧ pc s' = pc s ∧ client_fds s' = client_fds s ∧
    frames (coros s') ⊆ frames (coros s) ∧
    (∀ fd h, live_tasks_ s' !! fd = Some h →
       live_tasks_ s !! fd = Some h ∧ ((fd, h) ∈ l → unfinished (coros s) h)).
Proof.
  induction l as [|[fd h] l IH]; intros s Hs Hpc Hnd Hl.
  - exists s. split_and!; [done..|]. intros fd h Hfd. split; [done|]. by intros ?%elem_of_nil.
  - apply NoDup_cons in Hnd as [Hfd Hnd]. cbn [fst fmap list_fmap] in Hfd.
    assert (Hlive : live_tasks_ s !! fd = Some h) by (apply Hl; left).
    assert (Hother : ∀ k g, (k, g) ∈ l → k ≠ fd).
    { intros k g Hin ->. apply Hfd. apply list_elem_of_fmap. by exists (fd, g). }
    destruct (Hs) as [Hg Hc Hls Hb Ho Hi Hj].
    destruct (group_done unit_value (live_tasks_ s) (coros s) fd h Hg Hlive) as (fin & Hd & Hdrop).
    cbn [reap_list]. rewrite Hd. cbn [mbind option_bind]. destruct fin.
    + destruct (Hdrop eq_refl) as (m & Hm & Hg' & Hreg & _). rewrite Hm. cbn [mbind option_bind].
      set (s1 := set_live _ _).
      assert (serves o s1) as Hs1.
      { constructor; cbn; try done.
        - rewrite dom_delete_L. set_solver.
        - congruence.
        - intros evs n Hp. assert (evs = []) as -> by congruence. split; constructor.
        - intros E. destruct (Ho E) as [? Hf]. split; [done|]. intros E'. destruct (Hf E'). congruence. }
      destruct (IH s1 Hs1) as (s' & -> & Hs' & Hp' & Hc' & Hf' & Hrest); [done|done| |].
      { intros k g Hin. cbn. rewrite lookup_delete_ne by (symmetry; by eapply Hother). apply Hl. by right. }
      assert (frames m ⊆ frames (coros s)) as Hsub by (by eapply destroy_subset).
      exists s'. split_and!; [done..|by etrans|]. intros k g Hk. destruct (Hrest k g Hk) as [Hk1 Hu]. cbn in Hk1.
      apply lookup_delete_Some in Hk1 as [Hne Hk1]. split; [done|].
      intros [Heq|Hin]%elem_of_cons; [congruence|].
      eapply task_done_mono; [exact Hsub|by apply Hu].
    + destruct (IH s Hs Hpc Hnd) as (s' & -> & Hs' & Hp' & Hc' & Hf' & Hrest); [intros k g Hin; apply Hl; by right|].
      exists s'. split_and!; [done..|]. intros k g Hk. destruct (Hrest k g Hk) as [Hk1 Hu]. split; [done|].
      intros [[= -> ->]|Hin]%elem_of_cons; [done|auto].
Qed.

Lemma reap_ok o s : serves o s → pc s = Batch [] None →
  ∃ s', reap_finished_tasks s = Some s' ∧ serves o (set_pc Top s') ∧ client_fds s' = client_fds s ∧
    ∀ fd h, live_tasks_ s' !! fd = Some h → unfinished (coros s') h.
Proof.
  intros Hs Hpc.
  destruct (reap_list_ok o (map_to_list (live_tasks_ s)) s Hs Hpc) as (s' & Hr & Hs' & Hp' & Hc' & Hf & Hl).
  - apply NoDup_fst_map_to_list.
  - intros fd h. by rewrite elem_of_map_to_list.
  - exists s'. split_and!; [done| |done|].
    + eapply serves_loop; [exact Hs'|try done..]; cbn; congruence.
    + intros fd h Hfd. destruct (Hl fd h Hfd) as [Hin Hu].
      destruct (group_done unit_value _ _ fd h (sv_group _ _ Hs') Hfd) as (fin & Hd & _).
      apply elem_of_map_to_list in Hin. specialize (Hu Hin). unfold unfinished in *.
      pose proof (task_done_mono h _ _ fin Hf Hd). congruence.
Qed.

(** ** Steps *)

Lemma stop_clear_ok s : serves Joined s →
  ∃ s', stop_clear s = Some s' ∧ serves Out s' ∧ client_fds s' = client_fds s ∧
    pools_ (store (coros s')) = ∅.
Proof.
  intros [Hg Hc Hl Hb Ho Hi Hj]. destruct (group_clear unit_value _ _ Hg) as (m & Hd & Hg' & _).
  destruct (Hj eq_refl) as [Hpc Ht]. assert (running_ s = false) as Hr by (by apply Hi).
  unfold stop_clear. rewrite Hd. cbn [mbind option_bind]. eexists. split; [done|]. split; [|done].
  constructor; cbn [live_tasks_ coros client_fds running_ loop_thread_ pc].
  - by apply group_store.
  - rewrite dom_empty_L. apply empty_subseteq.
  - apply lookup_empty.
  - congruence.
  - intros _. split; [congruence|]. by intros _.
  - done.
  - done.
Qed.

Lemma proxy_start_ok made added s : serves Out s → ∃ s', start made added s = Some s' ∧ serves Out s' ∧
  client_fds s' = client_fds s.
Proof.
  intros Hs. destruct (Hs) as [Hg Hc Hl Hb Ho Hi Hj]. destruct (Ho eq_refl) as [Hrt Hf]. unfold start.
  destruct (running_ s) eqn:Hr; [by exists s|]. destruct (Hf eq_refl) as [Hpc Hlive].
  rewrite <- Hrt. rewrite Hlive in Hg.
  assert (group unit_value ∅ (set_registered ∅ (coros s))) as Hg'.
  { destruct (group_empty _ _ Hg) as (? & _ & ?). by apply group_idle. }
  destruct (made && added); cbn; eexists; (split; [done|]); (split; [|done]); constructor; cbn; try done;
    rewrite ?Hlive; try done; intros; congruence.
Qed.

(** Fuel does not change a result. *)
Lemma accept_client_det f f' fd b s a c :
  accept_client f fd b s = Some a → accept_client f' fd b s = Some c → a = c.
Proof.
  unfold accept_client, spawn, resume. intros Ha Hc.
  apply bind_Some in Ha as (m & Hm & Ha). apply bind_Some in Hc as (m' & Hm' & Hc).
  rewrite (run_det unit_value watchable _ _ _ _ _ Hm Hm') in Ha. congruence.
Qed.

Lemma resume_handle_det f f' h fd s a c :
  resume_handle f h fd s = Some a → resume_handle f' h fd s = Some c → a = c.
Proof.
  unfold resume_handle, resume. intros Ha Hc.
  apply bind_Some in Ha as (m & Hm & Ha). apply bind_Some in Hc as (m' & Hm' & Hc).
  rewrite (run_det unit_value watchable _ _ _ _ _ Hm Hm') in Ha. congruence.
Qed.

Lemma accept_round_ok o evs n a s :
  serves o s → pc s = Batch evs (Some (S n)) → accepted_ok a s →
  ∃ fuel s' more, accept_round fuel a (S n) s = Some (s', more) ∧ (more = None ∨ more = Some n) ∧
    serves o (set_pc (Batch evs more) s') ∧ client_fds s ⊆ client_fds s'.
Proof.
  intros Hs Hpc Ha. destruct (sv_batch _ _ Hs _ _ Hpc) as [H1 H2].
  assert (∀ more, serves o (set_pc (Batch evs more) s)) as Hsame.
  { intros more. eapply serves_loop; [exact Hs|try done..]; cbn; [congruence|]. by intros ? ? [= <- <-]. }
  destruct a as [fd b| | |]; cbn.
  - destruct (accept_client_ok o evs _ fd b s Hs Hpc (proj1 Ha)) as (fuel & s' & E & Hs' & Hp & Hsub & _).
    exists fuel, s', (Some n). rewrite E. cbn. split_and!; [done|by right| |done].
    rewrite Hpc in Hp. destruct (sv_batch _ _ Hs' _ _ Hp) as [H1' H2'].
    eapply serves_loop; [exact Hs'|try done..]; cbn; [congruence|]. by intros ? ? [= <- <-].
  - exists 0, s, None. split_and!; auto.
  - exists 0, s, (Some n). split_and!; auto.
  - exists 0, s, None. split_and!; auto.
Qed.

Lemma accept_round_det f f' a n s x y :
  accept_round f a n s = Some x → accept_round f' a n s = Some y → x = y.
Proof.
  destruct a as [fd b| | |]; cbn; try congruence. intros Hx Hy.
  apply bind_Some in Hx as (s1 & E1 & Hx). apply bind_Some in Hy as (s2 & E2 & Hy).
  rewrite (accept_client_det _ _ _ _ _ _ _ E1 E2) in Hx. congruence.
Qed.

Lemma step_serves o s o' s' : serves o s → step (o, s) (o', s') → serves o' s' ∧ client_fds s ⊆ client_fds s'.
Proof.
  intros Hs Hst. inversion Hst; subst.
  - match goal with H : start ?made ?added s = _ |- _ => destruct (proxy_start_ok made added s Hs) as (s1 & E & ? & Ec) end.
    assert (s1 = s') as -> by congruence. split; [done|]. by rewrite Ec.
  - split; [|done]. destruct (Hs) as [Hg Hc Hl Hb Ho Hi Hj]. constructor; cbn; try done; naive_solver.
  - split; [|done]. destruct (Hs) as [Hg Hc Hl Hb Ho Hi Hj]. constructor; cbn; try done; intros _; by apply Hi.
  - destruct (stop_clear_ok s Hs) as (s1 & E & ? & Ec & _). assert (s1 = s') as -> by congruence.
    split; [done|]. by rewrite Ec.
  - split; [|done]. destruct (Hs) as [Hg Hc Hl Hb Ho Hi Hj]. constructor; cbn; try done; naive_solver.
  - split; [|done]. eapply serves_loop; [exact Hs|try done..]; cbn; [congruence|].
    intros ? ? [= <- <-]. match goal with H : batch_ok _ _ |- _ => destruct H as (? & ? & _) end. done.
  - done.
  - split; [|done]. destruct (sv_batch _ _ Hs _ _ ltac:(eassumption)) as [H1' H2'].
    eapply serves_loop; [exact Hs|try done..]; cbn; [congruence|]. intros ? ? [= <- <-].
    apply Forall_cons in H1' as [_ ?]. apply NoDup_cons in H2' as [_ ?]. done.
  - match goal with Hp : pc s = _, Ha : accepted_ok _ s, Hr : accept_round _ _ _ _ = _ |- _ =>
      destruct (accept_round_ok o' _ _ _ s Hs Hp Ha) as (f & s1 & more1 & E & _ & Hs1 & Hsub);
      pose proof (accept_round_det _ _ _ _ _ _ _ E Hr) as [= -> ->] end.
    done.
  - split; [|done]. destruct (sv_batch _ _ Hs _ _ ltac:(eassumption)) as [H1' H2'].
    eapply serves_loop; [exact Hs|try done..]; cbn; [congruence|]. by intros ? ? [= <- <-].
  - match goal with Hp : pc s = _, Hu : handle_from_event _ = _, Hr : resume_handle _ _ _ _ = _ |- _ =>
      destruct (resume_handle_ok o' _ _ _ s Hs Hp Hu) as (f & s1 & E & Hs1 & Ec);
      pose proof (resume_handle_det _ _ _ _ _ _ _ E Hr) as -> end.
    split; [done|]. cbn. by rewrite Ec.
  - match goal with Hp : pc s = _ |- _ => destruct (reap_ok o' s Hs Hp) as (s1 & E & Hs1 & Ec & _) end.
    match goal with Hr : reap_finished_tasks s = Some ?x |- _ => assert (s1 = x) as -> by congruence end.
    split; [done|]. cbn. by rewrite Ec.
Qed.

Lemma make_serves w : serves Out (make w).
Proof.
  constructor; cbn [make live_tasks_ coros client_fds running_ loop_thread_ pc].
  - by apply (group_idle unit_value (idle w)).
  - rewrite dom_empty_L. apply empty_subseteq.
  - apply lookup_empty.
  - done.
  - done.
  - done.
  - done.
Qed.

Lemma steps_serve o s o' s' : serves o s → rtc step (o, s) (o', s') → serves o' s' ∧ client_fds s ⊆ client_fds s'.
Proof.
  intros Hs Hrtc.
  assert (serves (o', s').1 (o', s').2 ∧ client_fds s ⊆ client_fds (o', s').2) as H; [|done].
  refine (rtc_ind_r (λ os, serves os.1 os.2 ∧ client_fds s ⊆ client_fds os.2) _ _ _ _ Hrtc); [done|].
  intros [o1 s1] [o2 s2] _ Hst [H1 H2]. destruct (step_serves _ _ _ _ H1 Hst) as [H3 H4]. split; [done|].
  cbn in *. by etrans.
Qed.

Lemma reachable_serves w o s : rtc step (Out, make w) (o, s) → serves o s.
Proof. intros Hrtc. by eapply steps_serve; [apply make_serves|]. Qed.

(** C12: The proxy owns its coroutines: whatever the order in which it is started and
    stopped, clients connect, descriptors become ready and coroutines call one another
    and finish, at every point of the loop each task of [live_tasks_] owns a chain of
    live frames, each frame belongs to the chain of such a task (no frame is leaked),
    and a handle the poller holds is that of a live coroutine that is suspended at its
    await; and whenever [stop] is over (or [start] failed) there is no thread, no
    task, no frame and no registration. *)
Theorem proxy_owns_coroutines w o s :
  rtc step (Out, make w) (o, s) →
  (∀ fd h, live_tasks_ s !! fd = Some h → ∃ l, awaits (frames (coros s)) h l) ∧
  (∀ h, h ∈ dom (frames (coros s)) →
     ∃ fd r l, live_tasks_ s !! fd = Some r ∧ awaits (frames (coros s)) r l ∧ h ∈ l) ∧
  (∀ fd mask h, registered (coros s) !! fd = Some (mask, h) →
     ∃ b c, frames (coros s) !! h = Some (mkFrame (Ready b) c)) ∧
  (o = Out → running_ s = false → loop_thread_ s = false ∧ pc s = NoLoop ∧
     live_tasks_ s = ∅ ∧ frames (coros s) = ∅ ∧ registered (coros s) = ∅).
Proof.
  intros Hrtc. apply reachable_serves in Hrtc as [Hg Hc Hl Hb Ho Hi Hj].
  destruct (group_sound unit_value _ _ Hg) as (H1 & H2 & H3). split_and!; [done..|].
  intros E Hr. destruct (Ho E) as [Hrt Hf]. destruct (Hf Hr) as [Hpc Hlive]. rewrite Hlive in *.
  destruct (group_empty _ _ Hg) as (? & ? & _). split_and!; congruence.
Qed.

(** C13: The loop never touches a destroyed coroutine and always comes back: every
    event of a batch finds the coroutine whose handle was reported, although others
    of the batch have run, ended or registered in between; a new client's coroutine
    runs to its first suspension; reaping destroys exactly the finished tasks; [stop]
    can destroy what is left; and [start] never assigns to a thread that runs. *)
Theorem proxy_loop_defined w o s :
  rtc step (Out, make w) (o, s) →
  (∀ ev evs h, pc s = Batch (ev :: evs) None → userdata ev = Some h →
     ∃ fuel s', resume_handle fuel h (ev_fd ev) s = Some s') ∧
  (∀ evs n a, pc s = Batch evs (Some (S n)) → accepted_ok a s →
     ∃ fuel s' more, accept_round fuel a (S n) s = Some (s', more) ∧ (more = None ∨ more = Some n)) ∧
  (pc s = Batch [] None → ∃ s', reap_finished_tasks s = Some s' ∧
     ∀ fd h, live_tasks_ s' !! fd = Some h → unfinished (coros s') h) ∧
  (o = Joined → ∃ s', stop_clear s = Some s' ∧ pools_ (store (coros s')) = ∅) ∧
  (o = Out → ∀ made added, ∃ s', start made added s = Some s').
Proof.
  intros Hrtc. apply reachable_serves in Hrtc as Hs. split_and!.
  - intros ev evs h Hpc Hu. destruct (resume_handle_ok o ev h evs s Hs Hpc Hu) as (fuel & s' & ? & _). eauto.
  - intros evs n a Hpc Ha. destruct (accept_round_ok o evs n a s Hs Hpc Ha) as (fuel & s' & more & ? & ? & _). eauto 6.
  - intros Hpc. destruct (reap_ok o s Hs Hpc) as (s' & ? & _ & _ & ?). eauto.
  - intros ->. destruct (stop_clear_ok s Hs) as (s' & ? & _ & _ & ?). eauto.
  - intros -> made added. destruct (proxy_start_ok made added s Hs) as (s' & ? & _). eauto.
Qed.

(** The proxy leaks its clients' descriptors: once a client's coroutine has been
    suspended, no step closes the descriptor, not the end of the coroutine, not the
    reaping of finished coroutines and not [stop]. *)
Theorem proxy_client_leak w o s o' s' fd h :
  rtc step (Out, make w) (o, s) → live_tasks_ s !! fd = Some h →
  rtc step (o, s) (o', s') → fd ∈ client_fds s'.
Proof.
  intros Hrtc Hfd Hmore. apply reachable_serves in Hrtc as Hs.
  destruct (steps_serve _ _ _ _ Hs Hmore) as [_ Hsub]. apply Hsub, (sv_clients _ _ Hs). by eapply elem_of_dom_2.
Qed.

(** ** [stop] comes back *)

(** What the loop thread has left to do once [running_] is false. *)
Definition loop_measure (s : proxy) : nat :=
  match pc s with
  | NoLoop => 0
  | Top => 1
  | Batch evs acc => 2 + length evs * 130 + match acc with Some n => S n | None => 0 end
  end.

Lemma loop_decreases s s' :
  running_ s = false → step (Stopping, s) (Stopping, s') → loop_measure s' < loop_measure s.
Proof.
  intros Hr Hst. unfold loop_measure. inversion Hst; subst; try congruence;
    match goal with H : pc s = _ |- _ => rewrite H end; cbn [set_pc pc length]; try lia.
  - unfold kAcceptBatch. lia.
  - match goal with H : accept_round _ ?a _ _ = _ |- _ => destruct a; cbn in H end; [|simplify_eq; lia..].
    match goal with H : _ = Some (_, more) |- _ => apply bind_Some in H as (? & _ & [= _ <-]) end. lia.
Qed.

Lemma loop_progress s : serves Stopping s → pc s ≠ NoLoop → ∃ s', step (Stopping, s) (Stopping, s').
Proof.
  intros Hs Hpc. assert (running_ s = false) as Hr by (by apply (sv_in _ _ Hs)).
  destruct (pc s) as [| |evs [[|n]|]] eqn:E; [done|eexists; by apply step_exit|eexists; by eapply step_accepted| |].
  - destruct (accept_round_ok Stopping evs n AAgain s Hs E I) as (fuel & s' & more & Ha & _).
    eexists. by eapply (step_accept Stopping fuel AAgain n evs).
  - destruct evs as [|ev evs].
    + destruct (reap_ok Stopping s Hs E) as (s' & Hr' & _). eexists. by eapply step_reap.
    + destruct (userdata ev) as [h|] eqn:Hu.
      * destruct (resume_handle_ok Stopping ev h evs s Hs E Hu) as (fuel & s' & Hh & _).
        eexists. by eapply (step_resume Stopping fuel ev h evs).
      * destruct (sv_batch _ _ Hs _ _ E) as [Hrep _]. apply Forall_cons in Hrep as [Hev _].
        unfold reported in Hev. rewrite Hu in Hev. eexists. by eapply step_listen.
Qed.

Lemma loop_drains n : ∀ s, loop_measure s ≤ n → serves Stopping s →
  ∃ s', rtc step (Stopping, s) (Stopping, s') ∧ pc s' = NoLoop ∧ serves Stopping s'.
Proof.
  induction n as [|n IH]; intros s Hn Hs;
    (destruct (decide (loop_measure s = 0)) as [Hz|Hz];
      [exists s; split_and!; [done| |done]; unfold loop_measure in Hz; by destruct (pc s)|]); [lia|].
  destruct (loop_progress s Hs) as [s1 Hst]; [by intros E; apply Hz; unfold loop_measure; rewrite E|].
  pose proof (loop_decreases s s1 (sv_in _ _ Hs ltac:(done)) Hst).
  destruct (step_serves _ _ _ _ Hs Hst) as [Hs1 _]. destruct (IH s1) as (s' & Hrtc & Hrest); [lia|done|].
  exists s'. split; [by eapply rtc_l|done].
Qed.

Lemma stop_completes s : serves Stopping s →
  ∃ s1 s2, rtc step (Stopping, s) (Joined, s1) ∧ stop_clear s1 = Some s2 ∧ serves Out s2 ∧ running_ s2 = false.
Proof.
  intros Hs. destruct (loop_drains _ s (le_n _) Hs) as (s' & Hrtc & Hpc & Hs').
  assert (step (Stopping, s') (Joined, stop_join s')) as Hj by (by apply step_join).
  destruct (step_serves _ _ _ _ Hs' Hj) as [Hs1 _]. destruct (stop_clear_ok _ Hs1) as (s2 & Hc & Hs2 & _).
  exists (stop_join s'), s2. split_and!; [by eapply rtc_r|done|done|].
  unfold stop_clear in Hc. apply bind_Some in Hc as (m & _ & [= <-]). cbn. by apply (sv_in _ _ Hs').
Qed.

End server.

(** ** A run *)

Lemma eq_rtc {A} (R : relation A) x y : x = y → rtc R x y.
Proof. by intros ->. Qed.

(** A client whose coroutine awaits a task that waits for the client's bytes. *)
Definition demo_world0 : world := initial_world [] ∅ ∅ [] [].
Definition demo_body : body nat world := Call false (Await 5 1 (Return 7)) (λ v, Return v).
Abbreviation demo_step := (step 0 (λ _, true) 3 (λ _ _, True)).
Definition or_else (o : option (proxy (V := nat))) : proxy := default (make demo_world0) o.

Definition run_started : proxy := or_else (start true true (make (V := nat) demo_world0)).
Definition run_accepting : proxy := set_pc (Batch [] (Some kAcceptBatch)) run_started.
Definition run_accepted : proxy :=
  set_pc (Batch [] (Some 127)) (or_else (accept_client 0 (λ _, true) 3 20 5 demo_body run_accepting)).
Definition run_waiting : proxy := set_pc Top run_accepted.
Definition run_event : proxy := set_pc (Batch [mkEvent 5 (Some 1)] None) run_waiting.
Definition run_stopped : proxy := or_else (stop_clear (stop_join (set_pc NoLoop (stop_flag run_waiting)))).

Lemma run_waiting_reachable : rtc demo_step (Out, make demo_world0) (Out, run_waiting).
Proof.
  eapply rtc_l; [apply (step_start _ _ _ _ true true _ run_started); reflexivity|].
  eapply rtc_l; [apply (step_wait _ _ _ _ Out [mkEvent 3 None]); [reflexivity..|]|].
  { split_and!; [repeat constructor| |cbn; unfold kMaxEvents; lia].
    cbn. apply NoDup_singleton. }
  eapply rtc_l; [apply (step_listen _ _ _ _ Out (mkEvent 3 None) []); reflexivity|].
  eapply rtc_l; [eapply (step_accept _ _ _ _ Out 20 (AConn 5 demo_body) 127 [] _ _ (Some 127));
    [reflexivity| |reflexivity]|].
  { split; [|by split]. apply not_elem_of_empty. }
  eapply rtc_l; [eapply (step_accept _ _ _ _ Out 0 AAgain 126 [] _ _ None);
    [reflexivity|exact I|reflexivity]|].
  eapply rtc_l; [apply step_reap; [reflexivity|vm_compute; reflexivity]|]. apply eq_rtc. vm_compute. reflexivity.
Qed.

Lemma run_event_reachable : rtc demo_step (Out, make demo_world0) (Out, run_event).
Proof.
  etrans; [apply run_waiting_reachable|]. apply rtc_once. apply step_wait; [reflexivity..|].
  split_and!; [|apply NoDup_singleton|cbn; unfold kMaxEvents; lia].
  repeat constructor. exists 1%Z. vm_compute. reflexivity.
Qed.

Lemma run_stopped_reachable : rtc demo_step (Out, run_waiting) (Out, run_stopped).
Proof.
  eapply rtc_l; [apply step_flag; reflexivity|]. eapply rtc_l; [apply step_exit; reflexivity|].
  eapply rtc_l; [apply step_join; reflexivity|]. apply rtc_once, step_clear. vm_compute. reflexivity.
Qed.

Lemma proxy_owns_coroutines_witness :
  dom (frames (coros run_waiting)) = {[0; 1]} ∧ frames (coros run_stopped) = ∅ ∧ registered (coros run_stopped) = ∅.
Proof.
  split; [by apply (bool_decide_unpack _); vm_compute|].
  destruct (proxy_owns_coroutines 0 (λ _, true) 3 (λ _ _, True) demo_world0 Out run_stopped) as (_ & _ & _ & Hend).
  - etrans; [apply run_waiting_reachable|apply run_stopped_reachable].
  - destruct Hend as (_ & _ & _ & Hf & Hr); [reflexivity..|]. split; [exact Hf|exact Hr].
Defined.

Lemma proxy_loop_defined_witness :
  ∃ fuel s', resume_handle 0 (λ _, true) 3 fuel 1 5 run_event = Some s'.
Proof.
  destruct (proxy_loop_defined 0 (λ _, true) 3 (λ _ _, True) demo_world0 Out run_event run_event_reachable) as (Hr & _).
  apply (Hr (mkEvent 5 (Some 1)) [] 1); reflexivity.
Defined.

Lemma proxy_client_leak_witness : 5%Z ∈ client_fds run_stopped.
Proof.
  apply (proxy_client_leak 0 (λ _, true) 3 (λ _ _, True) demo_world0 Out run_waiting Out run_stopped 5 0);
    [apply run_waiting_reachable|vm_compute; reflexivity|apply run_stopped_reachable].
Defined.

