(* ===== verification/ProxyUses.v ===== *)
(** * What a client's coroutine may touch, and what it says

    The descriptors of the upstream connections are accounted for: each is idle in a
    pool, will be given out by a later connect, is closed, or is lent to one coroutine.
    [uses client lent f w]: from the shared state [w] the coroutine [f] of [client],
    to which [lent] is lent, keeps the account, waits only for its client and for what
    is lent to it, reads and writes no other descriptor, and returns what it borrowed
    before it ends, provided the others leave its descriptors alone while it is
    suspended.  [sane]: what was written anywhere is part of a request that a client
    sent, rewritten, or of what a client may be answered.  [serve_client_uses]: the
    coroutine of src/muses/net_components/proxy.hpp does all this. *)

From S2P Require Import Prelude Http Proxy ProxyIO ProxyCoro Task TaskProps Poller.
Import Tasks.

(** ** The account *)

Definition connect_fds (c : connect_result) : list Z :=
  match c with NoSocket => [] | Immediate fd | Refused fd | InProgress fd _ => [fd] end.

Definition pooled (ps : gmap str (list Z)) : list Z := map_to_list ps ≫= snd.
Definition upstream (w : world) : list Z := pooled (pools_ w) ++ (connects w ≫= connect_fds) ++ closed w.

Lemma pooled_lookup key ps : pooled ps ≡ₚ default [] (ps !! key) ++ pooled (delete key ps).
Proof.
  unfold pooled. destruct (ps !! key) as [l|] eqn:E; cbn.
  - by rewrite <- (map_to_list_delete ps key l E).
  - by rewrite delete_id.
Qed.

Lemma pooled_insert key l ps : pooled (<[key := l]> ps) ≡ₚ l ++ pooled (delete key ps).
Proof. by rewrite (pooled_lookup key), lookup_insert_eq, delete_insert_eq. Qed.

(** ** The streams *)

(** The bytes written to a descriptor. *)
Definition sent_to (fd : Z) (w : world) : list (Z * str) := filter (λ x, x.1 = fd) (sent w).

Definition same_streams (fd : Z) (w w' : world) : Prop :=
  reads w' !! fd = reads w !! fd ∧ writes w' !! fd = writes w !! fd ∧ sent_to fd w' = sent_to fd w.

(** What a coroutine with the descriptors [fds] leaves alone, and what it relies on. *)
Definition untouched (fds : list Z) (w w' : world) : Prop :=
  sent w `prefix_of` sent w' ∧ ∀ fd, fd ∉ fds → same_streams fd w w'.
Definition steady (fds : list Z) (w w' : world) : Prop :=
  sent w `prefix_of` sent w' ∧ ∀ fd, fd ∈ fds → same_streams fd w w'.

Lemma same_streams_trans fd w1 w2 w3 : same_streams fd w1 w2 → same_streams fd w2 w3 → same_streams fd w1 w3.
Proof. intros (? & ? & ?) (? & ? & ?). split_and!; congruence. Qed.

Lemma untouched_trans fds w1 w2 w3 : untouched fds w1 w2 → untouched fds w2 w3 → untouched fds w1 w3.
Proof. intros [? H1] [? H2]. split; [by etrans|]. intros fd Hfd. eapply same_streams_trans; auto. Qed.

Lemma steady_trans fds w1 w2 w3 : steady fds w1 w2 → steady fds w2 w3 → steady fds w1 w3.
Proof. intros [? H1] [? H2]. split; [by etrans|]. intros fd Hfd. eapply same_streams_trans; auto. Qed.

Lemma untouched_mono fds fds' w w' : (∀ fd, fd ∈ fds → fd ∈ fds') → untouched fds w w' → untouched fds' w w'.
Proof. intros Hsub [? H]. split; [done|]. intros fd Hfd. apply H. auto. Qed.

Lemma untouched_streams fds w w' :
  reads w' = reads w → writes w' = writes w → sent w' = sent w → untouched fds w w'.
Proof. intros E1 E2 E3. split; [by rewrite E3|]. intros fd _. unfold same_streams, sent_to. by rewrite E1, E2, E3. Qed.

Lemma untouched_refl fds w : untouched fds w w.
Proof. by apply untouched_streams. Qed.

Lemma steady_refl fds w : steady fds w w.
Proof. done. Qed.

Lemma steady_reading fds fd w w' : fd ∈ fds → steady fds w w' → reading fd w' = reading fd w.
Proof. intros Hfd [_ H]. destruct (H fd Hfd) as (E & _). unfold reading. by rewrite E. Qed.

(** ** What is said *)

(** A script after some reads. *)
Definition later : relation (list rd) := rtc (λ s s', ∃ n, s' = (sys_answer n s).2).

(** A request, as [serve_client] reads it, and the script after it. *)
Definition requests (s : list rd) (info : HttpInfo) (b : str) (s' : list rd) : Prop :=
  ∃ head i s1, read_until_script end_of_head s = Some (head, s1) ∧ find_sub end_of_head head = Some i ∧
    info = parse_request head ∧
    let body_len := content_length (header_get (headers info) (lit "Content-Length")) in
    let in_head := drop (i + 4) head in
    if decide (length in_head < body_len) then
      ∃ rest, read_n_script (body_len - length in_head) s1 = Some (rest, s') ∧ b = in_head ++ rest
    else b = in_head ∧ s' = s1.

(** The body of a response that follows [in_head]. *)
Definition body_follows (hs : gmap str str) (in_head : str) (s : list rd) (b : str) (s' : list rd) : Prop :=
  let te := header_get hs (lit "Transfer-Encoding") in
  let cl := header_get hs (lit "Content-Length") in
  if decide (find_sub (lit "chunked") te ≠ None) then ∃ n, chunk_loop n in_head s = Some (b, s')
  else if decide (cl ≠ []) then
    if decide (length in_head < content_length cl) then
      ∃ rest, read_n_script (content_length cl - length in_head) s = Some (rest, s') ∧ b = in_head ++ rest
    else b = in_head ∧ s' = s
  else ∃ n, eof_loop n in_head s = Some (b, s').

(** A response, as [serve_client] reads it. *)
Definition responds (s : list rd) (x : str) (s' : list rd) : Prop :=
  ∃ head i s1 b, read_until_script end_of_head s = Some (head, s1) ∧ find_sub end_of_head head = Some i ∧
    body_follows (headers (parse_request head)) (drop (i + 4) head) s1 b s' ∧ x = take (i + 4) head ++ b.

Section said.
Context (cfg : proxy_config) (w0 : world).

(** The request that the client [c] sent at some time. *)
Definition asked (c : Z) (info : HttpInfo) (b : str) : Prop :=
  c ∉ upstream w0 ∧ ∃ s s', later (reading c w0) s ∧ requests s info b s'.

(** The answer to that request: the response that some upstream connection gave after
    the rewritten request had been written to it. *)
Definition answered (said : list (Z * str)) (info : HttpInfo) (b x : str) : Prop :=
  ∃ r fd s s', find_route (routes_ cfg) (url info) = Some r ∧ fd ∈ upstream w0 ∧
    (fd, rewrite_request info b) ∈ said ∧ later (reading fd w0) s ∧ responds s x s'.

(** What may be written to a descriptor after [said]. *)
Definition may_say (said : list (Z * str)) (fd : Z) (data : str) : Prop :=
  if decide (fd ∈ upstream w0) then ∃ c info b, asked c info b ∧ data = rewrite_request info b
  else (∃ why, data = bad_gateway why) ∨ ∃ info b, asked fd info b ∧ answered said info b data.

Record sane (w : world) : Prop := mkSane {
  sn_reads fd : later (reading fd w0) (reading fd w);
  sn_sent said fd bs after : sent w = said ++ (fd, bs) :: after → ∃ data, bs `prefix_of` data ∧ may_say said fd data
}.

Lemma may_say_mono said said' fd data : said `prefix_of` said' → may_say said fd data → may_say said' fd data.
Proof.
  intros [l ->] H. unfold may_say in *. case_decide; [done|]. destruct H as [H|(info & b & Ha & Hr)]; [by left|].
  right. exists info, b. split; [done|]. destruct Hr as (r & fd' & s & s' & ? & ? & ? & ?).
  exists r, fd', s, s'. rewrite elem_of_app. tauto.
Qed.

(** Nothing is read and nothing is written. *)
Lemma sane_quiet w w' : reads w' = reads w → sent w' = sent w → sane w → sane w'.
Proof. intros E1 E2 [H1 H2]. constructor; unfold reading in *; [by rewrite E1|by rewrite E2]. Qed.

Lemma sane_read fd n w : sane w → sane (put_reads fd (sys_answer n (reading fd w)).2 w).
Proof.
  intros [H1 H2]. constructor; [|done]. intros fd'. unfold reading at 2. cbn. destruct (decide (fd' = fd)) as [->|Hne].
  - rewrite lookup_insert_eq. cbn. eapply rtc_r; [apply H1|]. by exists n.
  - rewrite lookup_insert_ne by done. apply H1.
Qed.

Lemma sane_touch fd w : sane w → sane (put_reads fd (reading fd w) w).
Proof.
  intros [H1 H2]. constructor; [|done]. intros fd'. unfold reading at 2. cbn. destruct (decide (fd' = fd)) as [->|Hne].
  - rewrite lookup_insert_eq. apply H1.
  - rewrite lookup_insert_ne by done. apply H1.
Qed.

Lemma sane_say fd bs data w : bs `prefix_of` data → may_say (sent w) fd data → sane w → sane (log_sent fd bs w).
Proof.
  intros Hp Hm [H1 H2]. constructor; [exact H1|]. intros said fd' bs' after E. cbn in E.
  destruct after as [|e after _] using rev_ind.
  - apply app_inj_tail in E as [<- [= <- <-]]. by exists data.
  - rewrite app_comm_cons, app_assoc in E. apply app_inj_tail in E as [E _]. by eapply H2.
Qed.

Lemma sane_start : sent w0 = [] → sane w0.
Proof.
  intros E. constructor; [intros fd; apply rtc_refl|]. intros said fd bs after. rewrite E. by destruct said.
Qed.
End said.

(** ** Fuel plays no part in what a loop reads *)

#[local] Opaque chunk_size.

Lemma read_until_enough delim n : ∀ buf s r m,
  read_until_loop n delim buf s = Some r → script_size s < m → read_until_loop m delim buf s = Some r.
Proof.
  induction n as [|n IH]; intros buf s r m Hl Hm; [done|]. destruct m as [|m]; [lia|]. cbn [read_until_loop] in *.
  destruct s as [|[b bs| | | |] s]; cbn [sys_read] in *; [done| |done| | |done].
  - destruct (sys_read_bytes chunk_size b bs s chunk_size_pos) as (s' & [= <-] & _ & _ & Hsz).
    case_decide; [done|]. apply IH; [done|lia].
  - apply IH; [done|]. change (script_size _) with (S (script_size s)) in Hm. lia.
  - apply IH; [done|]. change (script_size _) with (S (script_size s)) in Hm. lia.
Qed.

Lemma read_n_enough k n : ∀ buf s r m,
  read_n_loop n k buf s = Some r → script_size s < m → read_n_loop m k buf s = Some r.
Proof.
  induction n as [|n IH]; intros buf s r m Hl Hm; (destruct m as [|m]; [lia|]); cbn [read_n_loop] in *; [by case_decide|].
  case_decide as Hk; [done|].
  destruct s as [|[b bs| | | |] s]; cbn [sys_read] in *; [done| |done| | |done].
  - destruct (sys_read_bytes (Nat.min (k - length buf) chunk_size) b bs s) as (s' & [= <-] & _ & _ & Hsz).
    { pose proof chunk_size_pos. lia. }
    apply IH; [done|lia].
  - apply IH; [done|]. change (script_size _) with (S (script_size s)) in Hm. lia.
  - apply IH; [done|]. change (script_size _) with (S (script_size s)) in Hm. lia.
Qed.

(** ** Coroutines *)

Section uses.
Context (cfg : proxy_config) (w0 : world) (client : Z).
Abbreviation sound := (sane cfg w0).
Abbreviation upstreams l := (Forall (λ fd, fd ∈ upstream w0) l).

Fixpoint uses (lent : list Z) (f : flat val world) (w : world) : Prop :=
  match f with
  | Fin (Value _) => lent = []
  | Fin Exception => True
  | FAwait fd _ k => fd ∈ client :: lent ∧ ∀ w', sound w' → steady (client :: lent) w w' → uses lent k w'
  | FDo g k => upstreams (lent ++ upstream w) → sound w → ∃ lent',
      lent' ++ upstream (g w) ≡ₚ lent ++ upstream w ∧ untouched (client :: lent) w (g w) ∧ sound (g w) ∧
      uses lent' (k w) (g w)
  end.

(** A coroutine up to its next suspension or its end. *)
Definition rests (lent : list Z) (f : flat val world) (w : world) : Prop :=
  match f with FDo _ _ => False | _ => uses lent f w end.

Lemma uses_spin f : ∀ lent w,
  upstreams (lent ++ upstream w) → sound w → uses lent f w →
  let '(f', w') := spin f w in ∃ lent',
    lent' ++ upstream w' ≡ₚ lent ++ upstream w ∧ untouched (client :: lent ++ upstream w) w w' ∧ sound w' ∧
    rests lent' f' w'.
Proof.
  induction f as [r|fd mask k _|g k IH]; intros lent w Hup Hs Hu; cbn [spin].
  - exists lent. split_and!; [done|apply untouched_refl|done|exact Hu].
  - exists lent. split_and!; [done|apply untouched_refl|done|exact Hu].
  - destruct (Hu Hup Hs) as (lent1 & Hp & Hun & Hs1 & Hk). specialize (IH w lent1 (g w)).
    assert (upstreams (lent1 ++ upstream (g w))) as Hup1 by (by rewrite Hp).
    specialize (IH Hup1 Hs1 Hk). destruct (spin (k w) (g w)) as [f' w'].
    destruct IH as (lent' & Hp' & Hun' & Hs' & Hr). exists lent'. split_and!; [by rewrite Hp'| |done|done].
    eapply untouched_trans.
    + eapply untouched_mono; [|exact Hun]. intros fd. rewrite !elem_of_cons, elem_of_app. tauto.
    + eapply untouched_mono; [|exact Hun']. intros fd. rewrite !elem_of_cons. by rewrite Hp.
Qed.

(** ** Triples for the trees *)

(** What [Q] says holds of the value, the loans and the state in which [b] returns. *)
Definition triple (lent : list Z) (w : world) (b : co) (Q : val → list Z → world → Prop) : Prop :=
  ∀ K, (∀ v l w', sound w' → Q v l w' → uses l (K (Value v)) w') → (∀ l w', uses l (K Exception) w') →
    sound w → uses lent (inline VUnit b K) w.

Lemma triple_return lent w v (Q : val → list Z → world → Prop) : Q v lent w → triple lent w (Return v) Q.
Proof. intros HQ K Hv _ Hs. by apply Hv. Qed.

Lemma triple_throw lent w Q : triple lent w Throw Q.
Proof. intros K _ He _. apply He. Qed.

Lemma triple_weaken lent w b (Q R : val → list Z → world → Prop) :
  triple lent w b Q → (∀ v l w', Q v l w' → R v l w') → triple lent w b R.
Proof. intros Hb HQ K Hv He Hs. apply Hb; auto. Qed.

Lemma triple_sane lent w b Q : (sound w → triple lent w b Q) → triple lent w b Q.
Proof. intros Hb K Hv He Hs. by apply Hb. Qed.

Lemma triple_await lent w fd mask k Q :
  fd ∈ client :: lent → (∀ w', steady (client :: lent) w w' → triple lent w' k Q) → triple lent w (Await fd mask k) Q.
Proof. intros Hfd Hk K Hv He _. cbn. split; [done|]. intros w' Hs Hst. by apply Hk. Qed.

Lemma triple_call lent w b k (Q R : val → list Z → world → Prop) :
  triple lent w b Q → (∀ v l w', Q v l w' → triple l w' (k v) R) → triple lent w (co_await b k) R.
Proof. intros Hb Hk K Hv He Hs. cbn. apply Hb; [|done|done]. intros v l w' Hs' HQ. by eapply Hk. Qed.

Lemma triple_do lent lent' w f k Q :
  (upstreams (lent ++ upstream w) → sound w → lent' ++ upstream (f w) ≡ₚ lent ++ upstream w ∧ sound (f w)) →
  untouched (client :: lent) w (f w) → (upstreams lent → triple lent' (f w) (k w) Q) → triple lent w (Do f k) Q.
Proof.
  intros Hp Hun Hk K Hv He Hs. cbn. intros Hup _. destruct (Hp Hup Hs) as [? ?]. exists lent'.
  apply Forall_app in Hup as [Hup _]. split_and!; [done|done|done|by apply Hk].
Qed.

(** Code that borrows and returns nothing. *)
Lemma triple_local lent w f k Q :
  pools_ (f w) = pools_ w → connects (f w) = connects w → closed (f w) = closed w →
  (upstreams (lent ++ upstream w) → sound w → sound (f w)) →
  untouched (client :: lent) w (f w) → (upstreams lent → triple lent (f w) (k w) Q) → triple lent w (Do f k) Q.
Proof.
  intros E1 E2 E3 Hs. apply triple_do. intros Hup Hw. split; [|by apply Hs]. unfold upstream. by rewrite E1, E2, E3.
Qed.

(** *** Reading *)

(** Time passes: the log grows. *)
Abbreviation after w w' := (sent w `prefix_of` sent w').

Lemma put_reads_untouched fds fd s w : fd ∈ fds → untouched fds w (put_reads fd s w).
Proof.
  intros Hfd. split; [done|]. intros fd' Hne. split_and!; [|done..]. cbn. by rewrite lookup_insert_ne by (by intros ->).
Qed.

Lemma put_writes_untouched fds fd s w : fd ∈ fds → untouched fds w (put_writes fd s w).
Proof.
  intros Hfd. split; [done|]. intros fd' Hne. split_and!; [done| |done]. cbn. by rewrite lookup_insert_ne by (by intros ->).
Qed.

Lemma log_sent_untouched fds fd bs w : fd ∈ fds → untouched fds w (log_sent fd bs w).
Proof.
  intros Hfd. split; [by eexists|]. intros fd' Hne. split_and!; [done..|]. unfold sent_to. cbn.
  rewrite filter_app, filter_cons_False; [|cbn; by intros <-]. by rewrite filter_nil, app_nil_r.
Qed.

Lemma put_reads_reading fd s w : reading fd (put_reads fd s w) = s.
Proof. unfold reading. by rewrite put_reads_lookup. Qed.

Lemma triple_read lent w fd n k Q :
  fd ∈ client :: lent →
  (∀ w', after w w' → reading fd w' = (sys_answer n (reading fd w)).2 →
     triple lent w' (k (sys_answer n (reading fd w)).1) Q) →
  triple lent w (co_read fd n k) Q.
Proof.
  intros Hfd Hk. apply triple_local; [done..|intros _; apply sane_read|by apply put_reads_untouched|].
  intros _. apply Hk; [done|apply put_reads_reading].
Qed.

Lemma triple_touch lent w fd k Q :
  fd ∈ client :: lent → (∀ w', after w w' → reading fd w' = reading fd w → triple lent w' k Q) →
  triple lent w (touch_reads fd k) Q.
Proof.
  intros Hfd Hk. apply triple_local; [done..|intros _; apply sane_touch|by apply put_reads_untouched|].
  intros _. apply Hk; [done|apply put_reads_reading].
Qed.

(** A task that reads [fd] and returns what [g] finds in the script. *)
Definition finds (fd : Z) (lent : list Z) (w : world) (g : list rd → str → list rd → Prop) :
    val → list Z → world → Prop :=
  λ v l w', l = lent ∧ after w w' ∧ ∃ x, v = VStr x ∧ g (reading fd w) x (reading fd w').

Lemma finds_later fd lent w w1 (g g1 : list rd → str → list rd → Prop) b :
  after w w1 → (∀ x s', g1 (reading fd w1) x s' → g (reading fd w) x s') →
  triple lent w1 b (finds fd lent w1 g1) → triple lent w1 b (finds fd lent w g).
Proof.
  intros Ha Hg Hb. eapply triple_weaken; [exact Hb|]. intros v l w' (-> & Ha' & x & -> & Hx).
  split_and!; [done|by etrans|]. exists x. eauto.
Qed.

Lemma finds_now fd lent w w1 (g : list rd → str → list rd → Prop) x :
  after w w1 → g (reading fd w) x (reading fd w1) → triple lent w1 (Return (VStr x)) (finds fd lent w g).
Proof. intros Ha Hg. apply triple_return. split_and!; [done|done|]. by exists x. Qed.

Definition until (delim buf : str) (s : list rd) (x : str) (s' : list rd) : Prop :=
  ∃ n, read_until_loop n delim buf s = Some (x, s').

Lemma read_until_rounds_uses fd delim lent fuel : ∀ w buf, fd ∈ client :: lent →
  triple lent w (read_until_rounds fuel fd delim buf) (finds fd lent w (until delim buf)).
Proof.
  induction fuel as [|fuel IH]; intros w buf Hfd; cbn [read_until_rounds]; [apply triple_throw|].
  apply triple_read; [done|]. intros w' Ha Hr.
  destruct (reading fd w) as [|[b bs| | | |] s] eqn:E; cbn [sys_answer fst snd] in *.
  - apply triple_await; [done|]. intros w2 Hst. eapply finds_later; [|shelve|by apply IH]. Unshelve.
    + etrans; [exact Ha|apply Hst].
    + intros x s'. rewrite (steady_reading _ fd _ _ Hfd Hst), Hr, E. by intros [[|n] Hn].
  - case_decide as Hd.
    + apply finds_now; [done|]. rewrite E, Hr. exists 1. cbn [read_until_loop sys_read]. by rewrite decide_True.
    + eapply finds_later; [exact Ha| |by apply IH]. intros x s' [n Hn]. rewrite E. rewrite Hr in Hn.
      exists (S n). cbn [read_until_loop sys_read]. rewrite decide_False by (intros Hx; by apply Hx). exact Hn.
  - apply finds_now; [done|]. rewrite E, Hr. by exists 1.
  - apply triple_await; [done|]. intros w2 Hst. eapply finds_later; [|shelve|by apply IH]. Unshelve.
    + etrans; [exact Ha|apply Hst].
    + intros x s'. rewrite (steady_reading _ fd _ _ Hfd Hst), Hr, E. intros [n Hn]. by exists (S n).
  - eapply finds_later; [exact Ha| |by apply IH]. intros x s' [n Hn]. rewrite E. rewrite Hr in Hn. by exists (S n).
  - apply finds_now; [done|]. rewrite E, Hr. by exists 1.
Qed.

Lemma read_until_uses fuel fd delim lent w : fd ∈ client :: lent →
  triple lent w (read_until_co fuel fd delim)
    (finds fd lent w (λ s x s', read_until_script delim s = Some (x, s'))).
Proof.
  intros Hfd. apply triple_touch; [done|]. intros w' Ha Hr. eapply finds_later; [done| |by apply read_until_rounds_uses].
  intros x s' [n Hn]. rewrite Hr in Hn. unfold read_until_script. eapply read_until_enough; [exact Hn|lia].
Qed.

Definition up_to (k : nat) (buf : str) (s : list rd) (x : str) (s' : list rd) : Prop :=
  ∃ n, read_n_loop n k buf s = Some (x, s').

Lemma read_n_rounds_uses fd k lent fuel : ∀ w buf, fd ∈ client :: lent →
  triple lent w (read_n_rounds fuel fd k buf) (finds fd lent w (up_to k buf)).
Proof.
  induction fuel as [|fuel IH]; intros w buf Hfd; cbn [read_n_rounds];
    (case_decide as Hk; [apply finds_now; [done|]; exists 0; cbn; by rewrite decide_True|]); [apply triple_throw|].
  assert (Hstep : ∀ n s, read_n_loop (S n) k buf s = match sys_read (Nat.min (k - length buf) chunk_size) s with
    | None => None
    | Some (GBytes bs, s') => read_n_loop n k (buf ++ bs) s'
    | Some (GEof, s') | Some (GErr, s') => Some (buf, s')
    | Some (GRetry, s') => read_n_loop n k buf s' end).
  { intros n s. cbn [read_n_loop]. by rewrite decide_False. }
  apply triple_read; [done|]. intros w' Ha Hr.
  destruct (reading fd w) as [|[b bs| | | |] s] eqn:E; cbn [sys_answer fst snd] in *.
  - apply triple_await; [done|]. intros w2 Hst. eapply finds_later; [|shelve|by apply IH]. Unshelve.
    + etrans; [exact Ha|apply Hst].
    + intros x s'. rewrite (steady_reading _ fd _ _ Hfd Hst), Hr, E. intros [[|n] Hn]; [|by rewrite Hstep in Hn].
      cbn in Hn. by rewrite decide_False in Hn.
  - eapply finds_later; [exact Ha| |by apply IH]. intros x s' [n Hn]. rewrite E. rewrite Hr in Hn.
    exists (S n). by rewrite Hstep.
  - apply finds_now; [done|]. rewrite E, Hr. exists 1. by rewrite Hstep.
  - apply triple_await; [done|]. intros w2 Hst. eapply finds_later; [|shelve|by apply IH]. Unshelve.
    + etrans; [exact Ha|apply Hst].
    + intros x s'. rewrite (steady_reading _ fd _ _ Hfd Hst), Hr, E. intros [n Hn]. exists (S n). by rewrite Hstep.
  - eapply finds_later; [exact Ha| |by apply IH]. intros x s' [n Hn]. rewrite E. rewrite Hr in Hn. exists (S n). by rewrite Hstep.
  - apply finds_now; [done|]. rewrite E, Hr. exists 1. by rewrite Hstep.
Qed.

Lemma read_n_uses fuel fd k lent w : fd ∈ client :: lent →
  triple lent w (read_n_co fuel fd k) (finds fd lent w (λ s x s', read_n_script k s = Some (x, s'))).
Proof.
  intros Hfd. apply triple_touch; [done|]. intros w' Ha Hr. eapply finds_later; [done| |by apply read_n_rounds_uses].
  intros x s' [n Hn]. rewrite Hr in Hn. unfold read_n_script. eapply read_n_enough; [exact Hn|lia].
Qed.

(** *** Writing *)

(** The data may be written to [fd], to which only upstream connections are lent. *)
Definition sayable (lent : list Z) (fd : Z) (data : str) (w : world) : Prop :=
  upstreams lent → may_say cfg w0 (sent w) fd data.

Lemma sayable_later lent fd data w w' : after w w' → sayable lent fd data w → sayable lent fd data w'.
Proof. intros Ha Hs Hup. eapply may_say_mono; [exact Ha|auto]. Qed.

Definition writes_out (fd : Z) (data : str) (lent : list Z) (w : world) : val → list Z → world → Prop :=
  λ v l w', l = lent ∧ after w w' ∧ upstreams lent ∧ (to_bool v = true → (fd, data) ∈ sent w').

Lemma writes_out_later fd data lent w w1 b :
  after w w1 → triple lent w1 b (writes_out fd data lent w1) → triple lent w1 b (writes_out fd data lent w).
Proof.
  intros Ha Hb. eapply triple_weaken; [exact Hb|]. intros v l w' (-> & Ha' & Hup & H). split_and!; [done|by etrans|done|done].
Qed.

Lemma wrote_uses fd data off (ok : bool) lent w : fd ∈ client :: lent → sayable lent fd data w →
  (ok = true → length data ≤ off) → triple lent w (wrote fd data off ok) (writes_out fd data lent w).
Proof.
  intros Hfd Hsay Hok. apply triple_local; [done..| |by apply log_sent_untouched|].
  - intros [Hup _]%Forall_app. eapply sane_say; [|by apply Hsay]. apply prefix_take.
  - intros Hup. apply triple_return. split_and!; [done|by eexists|done|]. cbn. intros Ho.
    rewrite take_ge by (by apply Hok). apply elem_of_app. right. left.
Qed.

Lemma write_rounds_uses fd data lent fuel : ∀ w off, fd ∈ client :: lent → sayable lent fd data w →
  triple lent w (write_rounds fuel fd data off) (writes_out fd data lent w).
Proof.
  induction fuel as [|fuel IH]; intros w off Hfd Hsay; cbn [write_rounds];
    (case_decide; [by apply wrote_uses|]); [apply triple_throw|].
  apply triple_local; [done..|intros _; by apply sane_quiet|by apply put_writes_untouched|].
  intros _. set (w1 := put_writes _ _ _). assert (after w w1) as Ha by done.
  assert (∀ off ok, (ok = true → length data ≤ off) → triple lent w1 (wrote fd data off ok) (writes_out fd data lent w)) as Hend.
  { intros off' ok Hok. eapply writes_out_later; [done|]. by apply wrote_uses. }
  assert (∀ off w2, after w w2 → triple lent w2 (write_rounds fuel fd data off) (writes_out fd data lent w)) as Hgo.
  { intros off' w2 Ha2. eapply writes_out_later; [done|]. apply IH; [done|by eapply sayable_later]. }
  destruct (default WAgain _) as [[|n]| | |]; [by apply Hend|by apply Hgo| |by apply Hgo|by apply Hend].
  apply triple_await; [done|]. intros w2 Hst. apply Hgo. apply Hst.
Qed.

Lemma write_all_uses fuel fd data lent w : fd ∈ client :: lent → sayable lent fd data w →
  triple lent w (write_all_co fuel fd data) (writes_out fd data lent w).
Proof.
  intros Hfd Hsay. apply triple_local; [done..|intros _; by apply sane_quiet|by apply put_writes_untouched|].
  intros _. eapply writes_out_later; [done|]. by apply write_rounds_uses.
Qed.

(** *** Code that does not suspend *)

Lemma triple_sync {A} (m : io A) d k lent lent' w Q :
  let w1 := default w (snd <$> m w) in
  (upstreams (lent ++ upstream w) → lent' ++ upstream w1 ≡ₚ lent ++ upstream w) →
  reads w1 = reads w → writes w1 = writes w → sent w1 = sent w →
  (∀ a, triple lent' w1 (k a) Q) → triple lent w (sync m d k) Q.
Proof.
  intros w1 Hp E1 E2 E3 Hk. eapply triple_do; [|by apply untouched_streams|intros _; apply Hk].
  intros Hup Hs. split; [by apply Hp|]. by apply (sane_quiet _ _ w).
Qed.

(** The health table and the clock. *)
Definition gate {A} (m : io A) : Prop := ∀ w a w', m w = Some (a, w') →
  ∃ hs ts, w' = set_health hs (set_clock ts w).

Lemma triple_gate {A} (m : io A) d k lent w Q :
  gate m → (∀ a w', after w w' → triple lent w' (k a) Q) → triple lent w (sync m d k) Q.
Proof.
  intros Hg Hk.
  assert (∃ hs ts, default w (snd <$> m w) = set_health hs (set_clock ts w)) as (hs & ts & E).
  { destruct (m w) as [[a w']|] eqn:E; [by destruct (Hg _ _ _ E) as (? & ? & ->); eauto|].
    exists (health_ w), (clock w). by destruct w. }
  apply triple_sync with lent; rewrite E; [done..|]. intros a. by apply Hk.
Qed.

Lemma mark_unhealthy_gate host port : gate (mark_unhealthy host port).
Proof.
  intros w a w'. unfold mark_unhealthy, mbind, io_bind, now, modify. destruct (clock w) as [|t ts]; [done|].
  intros [= _ <-]. eexists _, ts. reflexivity.
Qed.

Lemma is_healthy_gate cooldown host port : gate (is_healthy cooldown host port).
Proof.
  assert (∀ w, w = set_health (health_ w) (set_clock (clock w) w)) as Hid by (by intros []).
  intros w a w'. unfold is_healthy, mbind, io_bind, gets, now, modify.
  destruct (health_ w !! _) as [h|]; [|intros [= _ <-]; eauto].
  destruct (healthy h); [intros [= _ <-]; eauto|]. destruct (clock w) as [|t ts]; [done|].
  destruct (health_test _ _ _ _) as [ok hs]. intros [= _ <-]. eexists _, ts. reflexivity.
Qed.

Lemma triple_close fd k w Q :
  (∀ a w', after w w' → triple [] w' (k a) Q) → triple [fd] w (sync (close_fd fd) () k) Q.
Proof.
  intros Hk. apply triple_sync with []; [|done..|intros a; by apply Hk].
  intros _. cbn. unfold upstream. cbn. solve_Permutation.
Qed.

Lemma triple_release host port fd k w Q :
  (0 ≤ fd)%Z → (∀ a w', after w w' → triple [] w' (k a) Q) →
  triple [fd] w (sync (release_upstream host port fd true) () k) Q.
Proof.
  intros Hfd Hk.
  assert (∃ w', release_upstream host port fd true w = Some ((), w') ∧ upstream w' ≡ₚ fd :: upstream w ∧
    reads w' = reads w ∧ writes w' = writes w ∧ sent w' = sent w) as (w' & E & Hp & E1 & E2 & E3).
  { unfold release_upstream, mbind, io_bind, gets, modify, close_fd. rewrite decide_False by lia. cbn [negb].
    case_decide; eexists; (split; [reflexivity|]); (split; [|done]); unfold upstream; cbn;
      rewrite pooled_insert, (pooled_lookup (upstream_key host port) (pools_ w)); solve_Permutation. }
  apply triple_sync with []; rewrite E; cbn; [by intros _|done..|]. intros a. apply Hk. by rewrite E3.
Qed.

(** *** Connecting *)

Definition lends_one (w : world) : val → list Z → world → Prop :=
  λ v l w', l = option_list (to_fd v) ∧ after w w'.

Lemma connect_uses w : triple [] w connect_co (lends_one w).
Proof.
  unfold connect_co. destruct (connects w) as [|c cs] eqn:E.
  { eapply triple_do with []; [|by apply untouched_streams|intros _; rewrite E; apply triple_throw].
    intros _ Hs. split; [|by apply (sane_quiet _ _ w)]. unfold upstream. cbn. by rewrite E. }
  apply triple_do with (connect_fds c); [|by apply untouched_streams|].
  { intros _ Hs. split; [|by apply (sane_quiet _ _ w)]. unfold upstream. cbn. rewrite E. cbn. solve_Permutation. }
  intros _. rewrite E. destruct c as [|fd|fd|fd so_error]; cbn [connect_fds].
  - by apply triple_return.
  - by apply triple_return.
  - apply triple_close. intros a w' Ha. by apply triple_return.
  - apply triple_await; [right; left|]. intros w' [Ha _]. destruct so_error; [|by apply triple_return].
    apply triple_close. intros a w'' Ha'. apply triple_return. split; [done|by etrans].
Qed.

Lemma acquire_uses host port w : triple [] w (acquire_co host port) (lends_one w).
Proof.
  apply triple_local; [done..|apply untouched_refl|]. intros _. cbn.
  assert (triple [] w (co_await connect_co Return) (lends_one w)) as Hnew.
  { eapply triple_call; [apply connect_uses|]. intros v l w' Hl. by apply triple_return. }
  destruct (pools_ w !! upstream_key host port) as [[|fd rest]|] eqn:E; [exact Hnew| |exact Hnew].
  apply triple_sync with [fd]; [|done..|intros a; by apply triple_return].
  intros _. cbn. unfold upstream. cbn.
  rewrite pooled_insert, (pooled_lookup (upstream_key host port) (pools_ w)), E. solve_Permutation.
Qed.

(** *** The client's coroutine *)

(** What follows once [x] was found. *)
Definition then_ {A} (lent : list Z) (fd : Z) (w : world) (g : list rd → A → list rd → Prop) (k : A → co) Q : Prop :=
  ∀ x w', after w w' → g (reading fd w) x (reading fd w') → triple lent w' (k x) Q.

Lemma triple_finds lent fd w g b (k : val → co) Q :
  triple lent w b (finds fd lent w g) → then_ lent fd w g (λ x, k (VStr x)) Q → triple lent w (co_await b k) Q.
Proof. intros Hb Hk. eapply triple_call; [exact Hb|]. intros v l w' (-> & Ha & x & -> & Hx). by apply Hk. Qed.

Lemma chunk_rounds_uses fuel fd lent k Q : fd ∈ client :: lent → ∀ n w buf,
  then_ lent fd w (λ s x s', ∃ n, chunk_loop n buf s = Some (x, s')) k Q →
  triple lent w (chunk_rounds fuel n fd buf k) Q.
Proof.
  intros Hfd n. induction n as [|n IH]; intros w buf Hk; cbn [chunk_rounds]; [apply triple_throw|].
  case_decide as Hl; [|case_decide as Hc].
  - apply Hk; [done|]. exists 1. cbn [chunk_loop]. by rewrite decide_True.
  - eapply triple_finds; [by apply read_until_uses|]. intros more w1 Ha Hm. apply IH. intros x w' Ha' [m Hx].
    apply Hk; [by etrans|]. exists (S m). cbn [chunk_loop]. rewrite (decide_False (P := find_sub last_chunk buf ≠ None)) by (intros Hn; by apply Hn).
    rewrite decide_True by done. rewrite Hm. exact Hx.
  - eapply triple_finds; [by apply read_n_uses|]. intros more w1 Ha Hm. cbn [to_str].
    assert (∀ m, chunk_loop (S m) buf (reading fd w) =
      if decide (more = []) then Some (buf, reading fd w1)
      else if decide (safety_cap < length (buf ++ more)) then Some (buf ++ more, reading fd w1)
      else chunk_loop m (buf ++ more) (reading fd w1)) as Hstep.
    { intros m. cbn [chunk_loop]. rewrite (decide_False (P := find_sub last_chunk buf ≠ None)) by (intros Hn; by apply Hn).
      rewrite decide_False by done. by rewrite Hm. }
    case_decide as Hn; [|case_decide as Hcap].
    + apply Hk; [done|]. exists 1. by rewrite Hstep.
    + apply Hk; [done|]. exists 1. by rewrite Hstep.
    + apply IH. intros x w' Ha' [m Hx]. apply Hk; [by etrans|]. exists (S m). by rewrite Hstep.
Qed.

Lemma eof_rounds_uses fuel fd lent k Q : fd ∈ client :: lent → ∀ n w buf,
  then_ lent fd w (λ s x s', ∃ n, eof_loop n buf s = Some (x, s')) k Q →
  triple lent w (eof_rounds fuel n fd buf k) Q.
Proof.
  intros Hfd n. induction n as [|n IH]; intros w buf Hk; cbn [eof_rounds]; [apply triple_throw|].
  eapply triple_finds; [by apply read_n_uses|]. intros more w1 Ha Hm. cbn [to_str].
  assert (∀ m, eof_loop (S m) buf (reading fd w) =
    if decide (more = []) then Some (buf, reading fd w1)
    else if decide (safety_cap < length (buf ++ more)) then Some (buf ++ more, reading fd w1)
    else eof_loop m (buf ++ more) (reading fd w1)) as Hstep.
  { intros m. cbn [eof_loop]. by rewrite Hm. }
  case_decide as Hn; [|case_decide as Hcap].
  - apply Hk; [done|]. exists 1. by rewrite Hstep.
  - apply Hk; [done|]. exists 1. by rewrite Hstep.
  - apply IH. intros x w' Ha' [m Hx]. apply Hk; [by etrans|]. exists (S m). by rewrite Hstep.
Qed.

Lemma response_body_uses fuel fd hs in_head lent k w Q : fd ∈ client :: lent →
  then_ lent fd w (body_follows hs in_head) k Q → triple lent w (response_body_co fuel fd hs in_head k) Q.
Proof.
  intros Hfd Hk. unfold response_body_co. unfold then_, body_follows in Hk. cbv zeta in Hk.
  case_decide; [|case_decide; [case_decide|]].
  - apply triple_touch; [done|]. intros w1 Ha Hr. apply chunk_rounds_uses; [done|]. intros x w' Ha' Hx.
    rewrite Hr in Hx. apply Hk; [by etrans|done].
  - eapply triple_finds; [by apply read_n_uses|]. intros x w' Ha Hx. apply Hk; [done|]. by exists x.
  - by apply Hk.
  - apply triple_touch; [done|]. intros w1 Ha Hr. apply eof_rounds_uses; [done|]. intros x w' Ha' Hx.
    rewrite Hr in Hx. apply Hk; [by etrans|done].
Qed.

Context (Hpos : Forall (λ fd, (0 ≤ fd)%Z) (upstream w0)) (Hclient : client ∉ upstream w0).

(** What follows with nothing borrowed. *)
Definition free {A} (w : world) (k : A → co) (R : A → world → Prop) Q : Prop :=
  ∀ x w', after w w' → R x w' → triple [] w' (k x) Q.

Lemma free_later {A} w w1 (k : A → co) R Q : after w w1 → free w k R Q → free w1 k R Q.
Proof. intros Ha Hk x w' Ha' HR. apply Hk; [by etrans|done]. Qed.

(** The answer to the request [info], [b], when there is one. *)
Definition reply_to (info : HttpInfo) (b : str) (resp : option str) (w : world) : Prop :=
  ∀ x, resp = Some x → answered cfg w0 (sent w) info b x.

Section forward.
Context (info : HttpInfo) (b : str) (r : ProxyRoute) (Q : val → list Z → world → Prop).
Context (Hasked : asked w0 client info b) (Hroute : find_route (routes_ cfg) (url info) = Some r).
Abbreviation awaits_reply w k := (free w k (reply_to info b) Q).

Lemma abandon_uses fd k w : awaits_reply w k → triple [fd] w (abandon r fd k) Q.
Proof.
  intros Hk. apply triple_close. intros a w' Ha. apply triple_gate; [apply mark_unhealthy_gate|].
  intros c w'' Ha'. apply Hk; [by etrans|done].
Qed.

Lemma attempt_uses fuel k w : awaits_reply w k → triple [] w (attempt_co fuel r (rewrite_request info b) k) Q.
Proof.
  intros Hk. eapply triple_call; [apply acquire_uses|]. intros up l w1 [-> Ha1].
  destruct (to_fd up) as [fd|]; cbn [option_list].
  2:{ apply triple_gate; [apply mark_unhealthy_gate|]. intros a w2 Ha2. apply Hk; [by etrans|done]. }
  eapply triple_call; [apply write_all_uses; [right; left|]|].
  { intros [Hup _]%Forall_cons. unfold may_say. rewrite decide_True by done. by exists client, info, b. }
  intros ok l w2 (-> & Ha2 & [Hup _]%Forall_cons & Hsent). assert (after w w2) as Hw2 by (by etrans).
  destruct (to_bool ok) eqn:Eok; cbn [negb]; [|by eapply abandon_uses, free_later].
  apply triple_sane. intros [Hreads _]. specialize (Hreads fd). specialize (Hsent eq_refl).
  eapply triple_finds; [apply read_until_uses; right; left|]. intros head w3 Ha3 Hhead. cbn [to_str].
  assert (after w w3) as Hw3 by (by etrans).
  destruct (find_sub end_of_head head) as [i|] eqn:Ei; [|by eapply abandon_uses, free_later].
  apply response_body_uses; [right; left|]. intros x w4 Ha4 Hx. apply triple_release.
  { rewrite Forall_forall in Hpos. by apply Hpos. }
  intros a w5 Ha5. assert (after w3 w5) as Ha35 by (by etrans). apply Hk; [by etrans|].
  intros y [= <-]. exists r, fd, (reading fd w2), (reading fd w4). split_and!; [done|done| |done|].
  - assert (after w2 w5) as [more ->] by (by etrans). apply elem_of_app. by left.
  - by exists head, i, (reading fd w3), x.
Qed.

Lemma forward_uses fuel n : ∀ k w, awaits_reply w k → triple [] w (forward_co fuel n r (rewrite_request info b) k) Q.
Proof.
  induction n as [|n IH]; intros k w Hk; cbn [forward_co]; [by apply Hk|].
  apply attempt_uses. intros [x|] w' Ha Hr; [by apply Hk|]. by eapply IH, free_later.
Qed.
End forward.

Abbreviation goes_on w k := (free w k (λ _ _, True)).

Lemma to_client fuel data k w Q :
  may_say cfg w0 (sent w) client data → goes_on w k Q → triple [] w (co_await (write_all_co fuel client data) k) Q.
Proof.
  intros Hsay Hk. eapply triple_call; [apply write_all_uses; [left|by intros _]|].
  intros v l w' (-> & Ha & _ & _). by apply Hk.
Qed.

Lemma answer_uses fuel info b k w Q :
  asked w0 client info b → goes_on w k Q → triple [] w (answer_co fuel cfg client info b k) Q.
Proof.
  intros Hasked Hk. unfold answer_co.
  assert (∀ why w', after w w' → triple [] w' (refuse_co fuel client why k) Q) as Hrefuse.
  { intros why w' Ha. apply to_client.
    - unfold may_say. rewrite decide_False by done. left. by eexists.
    - intros v w'' Ha' _. apply Hk; [by etrans|done]. }
  destruct (find_route (routes_ cfg) (url info)) as [r|] eqn:Hroute; [|by apply Hrefuse].
  apply triple_gate; [apply is_healthy_gate|]. intros ok w1 Ha1. destruct (negb ok); [by apply Hrefuse|].
  apply forward_uses; [done..|]. intros [x|] w2 Ha2 Hr; [|apply Hrefuse; by etrans].
  apply to_client.
  - unfold may_say. rewrite decide_False by done. right. exists info, b. split; [done|by apply Hr].
  - intros v w3 Ha3 _. assert (after w1 w3) by (by etrans). apply Hk; [by etrans|done].
Qed.

Lemma serve_once_uses fuel k w Q : goes_on w k Q → triple [] w (serve_once_co fuel cfg client k) Q.
Proof.
  intros Hk. apply triple_sane. intros [Hreads _]. specialize (Hreads client).
  eapply triple_finds; [apply read_until_uses; left|]. intros head w1 Ha1 Hhead. cbn [to_str]. cbv zeta.
  destruct (find_sub end_of_head head) as [i|] eqn:Ei; [|by apply Hk]. case_decide as Hlen.
  - eapply triple_finds; [apply read_n_uses; left|]. intros rest w2 Ha2 Hrest. cbn [to_str]. apply answer_uses.
    + split; [done|]. exists (reading client w), (reading client w2). split; [done|].
      exists head, i, (reading client w1). split_and!; [done..|]. cbv zeta. rewrite decide_True by done. by exists rest.
    + eapply free_later; [|exact Hk]. by etrans.
  - apply answer_uses; [|by eapply free_later].
    split; [done|]. exists (reading client w), (reading client w1). split; [done|].
    exists head, i, (reading client w1). split_and!; [done..|]. cbv zeta. by rewrite decide_False.
Qed.

Lemma client_rounds_uses fuel n : ∀ w, triple [] w (client_rounds fuel n cfg client) (λ _ l _, l = []).
Proof.
  induction n as [|n IH]; intros w; cbn [client_rounds]; [apply triple_throw|].
  apply serve_once_uses. intros [|] w' _ _; [apply IH|by apply triple_return].
Qed.

Lemma serve_client_uses fuel w : sound w → uses [] (meaning VUnit (serve_client_co fuel cfg client)) w.
Proof. apply (client_rounds_uses fuel fuel); [|done]. by intros v l w' _ ->. Qed.
End uses.
