(* ===== verification/ProxyClients.v ===== *)
(** * Many clients at once

    The event loop of ProxyServer.v with the coroutines of ProxyCoro.v.  [fleet]: every
    client's coroutine is at rest (waiting for a descriptor that is its own, or ended),
    and the descriptors of the clients, those lent to them and the idle ones are all
    different.  The steps of the loop keep it, so that no two coroutines ever wait for
    the same descriptor, no registration is refused, no client is forgotten and each is
    told only what ProxyUses.v allows. *)

From S2P Require Import Prelude Http Proxy ProxyProps ProxyRuns ProxyCoro ProxyUses Task TaskProps TaskDestroy TaskGroup ProxyServer.
Import Tasks TaskRuns.

(** A client and the upstream connections lent to its coroutine. *)
Abbreviation loan := (Z * list Z)%type.
Abbreviation coroutines := (machine val world).
Implicit Types (gs : list loan) (m : coroutines) (live : gmap Z nat).

(** The streams of a client and of what is lent to it. *)
Definition undisturbed (g : loan) (w w' : world) : Prop := steady (g.1 :: g.2) w w'.

Section clients.
Context (cfg : proxy_config) (w0 : world) (accepts : Z → bool).
(** The numbers of upstream connections are those of the initial state. *)
Abbreviation is_upstream := (λ fd, fd ∈ upstream w0).
Context (upstream_accepted : ∀ fd, fd ∈ upstream w0 → accepts fd = true).

(** A coroutine that has been suspended since the state [w], or has ended. *)
Definition at_rest (w : world) (g : loan) (st : status val world) : Prop :=
  match st with
  | Waits fd _ k => fd ∈ g.1 :: g.2 ∧ ∀ w', sane cfg w0 w' → undisturbed g w w' → uses cfg w0 g.1 g.2 k w'
  | Lost => False
  | Done (Value _) => g.2 = []
  | Done Exception => True
  end.

Lemma rest_later w w' gs P : Forall2 (at_rest w) gs P → (∀ g, g ∈ gs → undisturbed g w w') → Forall2 (at_rest w') gs P.
Proof.
  intros Hr. induction Hr as [|g st gs P Hst _ IH]; intros Hun; [constructor|]. constructor.
  - destruct st as [fd mask k| |r]; [|done..]. destruct Hst as [Hfd Hk]. split; [done|]. intros w2 Hs Hw2.
    apply Hk; [done|]. eapply steady_trans; [apply Hun; left|done].
  - apply IH. intros g' Hg. apply Hun. by right.
Qed.

Record fleet gs (P : list (status val world)) (w : world) : Prop := mkFleet {
  fl_rest : Forall2 (at_rest w) gs P;
  fl_apart : NoDup (gs.*1 ++ (gs ≫= snd) ++ upstream w);
  fl_upstream : Forall is_upstream ((gs ≫= snd) ++ upstream w);
  fl_watch : Forall (λ c, accepts c = true) gs.*1;
  fl_sane : sane cfg w0 w
}.

(** ** One coroutine runs *)

Lemma loans_mid gs1 c lent gs2 w :
  ((gs1 ++ (c, lent) :: gs2).*1 ++ ((gs1 ++ (c, lent) :: gs2) ≫= snd) ++ upstream w) ≡ₚ
  (c :: lent ++ upstream w) ++ ((gs1 ++ gs2).*1 ++ ((gs1 ++ gs2) ≫= snd)).
Proof. rewrite !fmap_app, !bind_app. cbn. solve_Permutation. Qed.

Lemma loans_mid_upstream gs1 (g : loan) gs2 w :
  ((gs1 ++ g :: gs2) ≫= snd) ++ upstream w ≡ₚ (g.2 ++ upstream w) ++ ((gs1 ++ gs2) ≫= snd).
Proof. rewrite !bind_app. cbn. solve_Permutation. Qed.

Lemma in_loans (g : loan) gs fd : g ∈ gs → fd ∈ g.1 :: g.2 → fd ∈ gs.*1 ++ (gs ≫= snd).
Proof.
  intros Hg Hfd. rewrite elem_of_app. apply elem_of_cons in Hfd as [->|Hfd].
  - left. apply list_elem_of_fmap. by exists g.
  - right. apply list_elem_of_bind. by exists g.
Qed.

Lemma waited_loans w gs P fd : Forall2 (at_rest w) gs P → fd ∈ waited P → fd ∈ gs.*1 ++ (gs ≫= snd).
Proof.
  intros Hr Hw. unfold waited in Hw. apply list_elem_of_omap in Hw as (st & Hst & E).
  destruct st as [fd' mask k| |]; cbn in E; [|done..]. injection E as ->.
  apply list_elem_of_lookup_1 in Hst as [i Hi].
  destruct (Forall2_lookup_r _ _ _ _ _ Hr Hi) as (g & Hg & Hin & _).
  eapply in_loans; [by eapply list_elem_of_lookup_2|done].
Qed.

(** The coroutine between [gs1] and [gs2] runs from [f] to its next rest. *)
Lemma fleet_settle gs1 gs2 B A c lent f w :
  Forall2 (at_rest w) gs1 B → Forall2 (at_rest w) gs2 A → sane cfg w0 w → uses cfg w0 c lent f w →
  NoDup ((gs1 ++ (c, lent) :: gs2).*1 ++ ((gs1 ++ (c, lent) :: gs2) ≫= snd) ++ upstream w) →
  Forall is_upstream (((gs1 ++ (c, lent) :: gs2) ≫= snd) ++ upstream w) →
  Forall (λ c, accepts c = true) (gs1 ++ (c, lent) :: gs2).*1 →
  let '(st, w') := settle accepts (B ++ A) f w in ∃ lent',
    fleet (gs1 ++ (c, lent') :: gs2) (B ++ st :: A) w' ∧ at_rest w' (c, lent') st ∧
    lent' ++ upstream w' ≡ₚ lent ++ upstream w ∧ (∀ g, g ∈ gs1 ++ gs2 → undisturbed g w w').
Proof.
  intros HB HA Hs Hu Hnd Hup Hwatch. rewrite loans_mid in Hnd. rewrite loans_mid_upstream in Hup. cbn [snd] in Hup.
  pose proof (proj1 (proj1 (Forall_app _ _ _) Hup)) as Hown.
  pose proof (uses_spin cfg w0 c f lent w) as Hspin. unfold settle. destruct (spin f w) as [f' w'].
  destruct Hspin as (lent' & Hp & Hun & Hs' & Hr); [done..|].
  assert (Hdis : ∀ fd, fd ∈ c :: lent ++ upstream w → fd ∉ (gs1 ++ gs2).*1 ++ ((gs1 ++ gs2) ≫= snd)).
  { apply NoDup_app in Hnd as (_ & Hd & _). exact Hd. }
  assert (Hother : ∀ g, g ∈ gs1 ++ gs2 → undisturbed g w w').
  { intros g Hg. destruct Hun as [Hlog Hun]. split; [done|]. intros fd Hfd. apply Hun.
    intros Hin. eapply Hdis; [exact Hin|]. by eapply in_loans. }
  assert (Hrest : ∀ st, at_rest w' (c, lent') st → fleet (gs1 ++ (c, lent') :: gs2) (B ++ st :: A) w').
  { intros st Hst. constructor.
    - apply Forall2_app; [|constructor; [done|]]; (eapply rest_later; [eassumption|]); intros g Hg; apply Hother;
        apply elem_of_app; tauto.
    - by rewrite loans_mid, Hp.
    - rewrite loans_mid_upstream. cbn [snd]. by rewrite Hp.
    - by rewrite fmap_app, fmap_cons in Hwatch |- *.
    - done. }
  destruct f' as [r|fd mask k|]; [| |done].
  - exists lent'. split_and!; [by apply Hrest|done..].
  - destruct Hr as [Hin Hk].
    assert (fd ∈ c :: lent ++ upstream w) as Hin'.
    { rewrite <- Hp. set_solver. }
    rewrite bool_decide_eq_true_2, andb_true_r.
    2:{ intros Hw. eapply Hdis; [exact Hin'|]. eapply (waited_loans w); [|exact Hw]. by apply Forall2_app. }
    assert (accepts fd = true) as ->.
    { apply elem_of_cons in Hin' as [->|Hin'].
      - rewrite Forall_forall in Hwatch. apply Hwatch. rewrite fmap_app. set_solver.
      - rewrite Forall_forall in Hown. by apply upstream_accepted, Hown. }
    exists lent'. split_and!; [by apply Hrest|done..].
Qed.

(** What was lent to a coroutine that is destroyed is not lent again. *)
Lemma fleet_drop gs1 g gs2 B st A w :
  fleet (gs1 ++ g :: gs2) (B ++ st :: A) w → Forall2 (at_rest w) gs1 B → Forall2 (at_rest w) gs2 A →
  fleet (gs1 ++ gs2) (B ++ A) w.
Proof.
  intros [_ Hap Hup Hw Hs] HB HA. destruct g as [c lent]. constructor; [by apply Forall2_app|..].
  - rewrite loans_mid in Hap. cbn in Hap. apply NoDup_cons in Hap as [_ Hap].
    rewrite <- app_assoc in Hap. apply NoDup_app in Hap as (_ & _ & Hap).
    by rewrite app_assoc, Permutation_app_comm.
  - rewrite loans_mid_upstream in Hup. rewrite !Forall_app in Hup. apply Forall_app. tauto.
  - rewrite fmap_app, fmap_cons, Forall_app, Forall_cons in Hw. rewrite fmap_app. apply Forall_app. tauto.
  - done.
Qed.

(** ** The coroutines of the machine *)

(** The tasks of [live] are the coroutines of the loans, client by client. *)
Definition serving gs live m : Prop :=
  ∃ ps P, represents VUnit ps P m ∧ map_to_list live ≡ₚ zip gs.*1 (proot <$> ps) ∧ fleet gs P (store m).

Lemma zip_mid {X Y} (xs1 xs2 : list X) (ys1 ys2 : list Y) x y :
  length xs1 = length ys1 → zip (xs1 ++ x :: xs2) (ys1 ++ y :: ys2) = zip xs1 ys1 ++ (x, y) :: zip xs2 ys2.
Proof. intros Hlen. by rewrite zip_with_app. Qed.

(** The coroutine of a task, and the others. *)
Lemma serving_split w gs ps P m i p :
  represents VUnit ps P m → Forall2 (at_rest w) gs P → ps !! i = Some p →
  ∃ gs1 c lent gs2 ps1 ps2 B st A, gs = gs1 ++ (c, lent) :: gs2 ∧ ps = ps1 ++ p :: ps2 ∧ P = B ++ st :: A ∧
    gs !! i = Some (c, lent) ∧ length gs1 = length ps1 ∧ length ps1 = length B ∧ Forall2 (at_rest w) gs1 B ∧ Forall2 (at_rest w) gs2 A ∧
    at_rest w (c, lent) st ∧ Forall2 (shows VUnit) ps1 B ∧ Forall2 (shows VUnit) ps2 A ∧ shows VUnit p st.
Proof.
  intros Hr Hg Hp. pose proof (rep_shows _ _ _ _ Hr) as Hs.
  assert (length (take i ps) = i) as Hi by (apply lookup_lt_Some in Hp; rewrite length_take; lia).
  apply take_drop_middle in Hp. revert Hs. rewrite <- Hp at 1. intros Hs.
  apply Forall2_app_inv_l in Hs as (B & A' & HB & HA & ->). apply Forall2_cons_inv_l in HA as (st & A & Hst & HA & ->).
  apply Forall2_app_inv_r in Hg as (gs1 & gs2' & HgB & HgA & ->).
  apply Forall2_cons_inv_r in HgA as ([c lent] & gs2 & Hcl & HgA & ->).
  assert (length gs1 = length (take i ps)) as Hlen.
  { rewrite (Forall2_length _ _ _ HgB). symmetry. by eapply Forall2_length. }
  exists gs1, c, lent, gs2, (take i ps), (drop (S i) ps), B, st, A. split_and!; try done.
  - apply list_lookup_middle. congruence.
  - by eapply Forall2_length.
Qed.

(** [resume_handle]. *)
Lemma serving_resume gs live m fd mask h :
  serving gs live m → registered m !! fd = Some (mask, h) →
  ∃ fuel m' gs1 c lent lent' gs2, gs = gs1 ++ (c, lent) :: gs2 ∧ fd ∈ c :: lent ∧
    resume VUnit accepts fuel h (set_registered (delete fd (registered m)) m) = Some m' ∧
    serving (gs1 ++ (c, lent') :: gs2) live m' ∧
    lent' ++ upstream (store m') ≡ₚ lent ++ upstream (store m) ∧
    (∀ g, g ∈ gs1 ++ gs2 → undisturbed g (store m) (store m')).
Proof.
  intros (ps & P & Hr & Hlive & Hfl) Hreg. pose proof Hreg as Hin. rewrite (rep_regs _ _ _ _ Hr) in Hin.
  apply elem_of_list_to_map_2 in Hin. unfold regs in Hin. apply list_elem_of_omap in Hin as (p & Hp & Hw).
  destruct (pwait p) as [[fd' mask']|] eqn:Ew; cbn in Hw; [|done]. injection Hw as -> -> <-.
  apply list_elem_of_lookup_1 in Hp as [i Hi].
  destruct (serving_split (store m) gs ps P m i p Hr (fl_rest _ _ _ Hfl) Hi)
    as (gs1 & c & lent & gs2 & ps1 & ps2 & B & st & A & -> & -> & -> & _ & Hlen & Hlen' & HgB & HgA & Hst & HB & HA & Hsh).
  destruct st as [fd' mask' k| |r]; cbn in Hsh; [|by destruct Hsh; congruence..].
  assert (fd' = fd ∧ mask' = mask) as [-> ->] by (destruct Hsh; split; congruence).
  destruct (event_resumes VUnit accepts ps1 p ps2 B A fd mask k m HB HA Hsh Hr) as (fuel & m' & p' & He & Hroot & Hsto & Hr').
  destruct Hst as [Hfd Hk]. cbn [fst snd] in Hfd.
  pose proof (fleet_settle gs1 gs2 B A c lent k (store m) HgB HgA) as Hset.
  destruct (settle accepts (B ++ A) k (store m)) as [st w']. cbn in Hsto, Hr'. subst w'.
  destruct Hset as (lent' & Hfl' & _ & Hp' & Hun); [apply Hfl|apply Hk; [apply Hfl|apply steady_refl]|apply Hfl..|].
  exists fuel, m', gs1, c, lent, lent', gs2. split_and!; [done|done| | |done|done].
  - unfold on_event in He. by rewrite Hreg in He.
  - eexists _, _. split_and!; [exact Hr'| |exact Hfl']. rewrite Hlive.
    rewrite !fmap_app, !fmap_cons, Hroot. done.
Qed.

(** [accept_clients]: a coroutine that ends at once is destroyed at once. *)
Lemma serving_spawn gs live m c b :
  serving gs live m → (∀ w, sane cfg w0 w → uses cfg w0 c [] (meaning VUnit b) w) → accepts c = true → c ∉ gs.*1 → c ∉ upstream w0 →
  live !! c = None →
  ∃ fuel m' fin, spawn VUnit accepts fuel b m = Some m' ∧ task_done (fresh_id m) m' = Some fin ∧
    (∀ g, g ∈ gs → undisturbed g (store m) (store m')) ∧
    if fin : bool then ∃ m'', drop_task (fresh_id m) m' = Some m'' ∧ serving gs live m'' ∧ store m'' = store m'
    else ∃ lent, serving (gs ++ [(c, lent)]) (<[c := fresh_id m]> live) m'.
Proof.
  intros (ps & P & Hr & Hlive & [Hrest Hap Hup Hw Hsane]) Hu Hacc Hc Hnu Hnone.
  destruct (spawn_settles VUnit accepts ps P b m Hr) as (fuel & m' & p & Hs & Hroot & Hsto & Hr').
  assert (Hlen : length ps = length P) by (eapply Forall2_length, Hr).
  pose proof (fleet_settle gs [] P [] c [] (meaning VUnit b) (store m) Hrest (List.Forall2_nil _) Hsane (Hu _ Hsane)) as Hset.
  rewrite !app_nil_r in Hset. destruct (settle accepts P (meaning VUnit b) (store m)) as [st w'].
  cbn in Hsto, Hr'. subst w'.
  destruct Hset as (lent & Hfl & Hst & _ & Hun).
  { change (gs ++ [(c, [])]) with (gs ++ (c, []) :: []). rewrite loans_mid, app_nil_r. cbn. apply NoDup_cons. split.
    - rewrite !elem_of_app. rewrite Forall_app, !Forall_forall in Hup. destruct Hup as [H1 H2]. naive_solver.
    - revert Hap. by rewrite app_assoc, Permutation_app_comm. }
  { rewrite bind_app. cbn. by rewrite app_nil_r. }
  { rewrite fmap_app. apply Forall_app. split; [done|]. by constructor. }
  exists fuel, m'. eexists. split_and!; [done|rewrite <- Hroot; by eapply represents_done|done|].
  destruct st as [fd mask k| |r].
  - exists lent. eexists _, _. split_and!; [exact Hr'| |exact Hfl]. rewrite map_to_list_insert, Hlive by done.
    rewrite !fmap_app. cbn. rewrite zip_mid by (rewrite !length_fmap; apply Forall2_length in Hrest; lia).
    rewrite Hroot. cbn. apply Permutation_cons_append.
  - done.
  - destruct (represents_drop VUnit ps p [] P r [] m' Hlen Hr') as (m'' & Hd & Hr'' & _ & Hst'').
    rewrite !app_nil_r in Hr''. exists m''. rewrite <- Hroot. split_and!; [done| |done].
    exists ps, P. split_and!; [done..|]. rewrite Hst''.
    apply (fleet_drop gs (c, lent) [] P (Done r) []) in Hfl; [by rewrite !app_nil_r in Hfl|by eapply rest_later|constructor].
Qed.

Lemma serving_task gs live m c h :
  serving gs live m → live !! c = Some h →
  ∃ gs1 lent gs2 ps1 p ps2 B st A, gs = gs1 ++ (c, lent) :: gs2 ∧ proot p = h ∧
    represents VUnit (ps1 ++ p :: ps2) (B ++ st :: A) m ∧ fleet (gs1 ++ (c, lent) :: gs2) (B ++ st :: A) (store m) ∧
    length ps1 = length B ∧ Forall2 (at_rest (store m)) gs1 B ∧ Forall2 (at_rest (store m)) gs2 A ∧ at_rest (store m) (c, lent) st ∧ shows VUnit p st ∧
    map_to_list (delete c live) ≡ₚ zip (gs1 ++ gs2).*1 (proot <$> (ps1 ++ ps2)).
Proof.
  intros (ps & P & Hr & Hlive & Hfl) Hc.
  assert ((c, h) ∈ zip gs.*1 (proot <$> ps)) as Hin by (rewrite <- Hlive; by apply elem_of_map_to_list).
  apply list_elem_of_lookup_1 in Hin as [i Hi]. apply lookup_zip_with_Some in Hi as (c' & h' & [= <- <-] & Hci & Hhi).
  rewrite list_lookup_fmap in Hci. rewrite list_lookup_fmap in Hhi. apply fmap_Some in Hhi as (p & Hp & Hh).
  apply fmap_Some in Hci as ([c' lent'] & Hgi & Hcc). cbn in Hcc. subst c'.
  destruct (serving_split (store m) gs ps P m i p Hr (fl_rest _ _ _ Hfl) Hp)
    as (gs1 & c' & lent & gs2 & ps1 & ps2 & B & st & A & Eg & -> & -> & Hgi' & Hlen & Hlen' & HgB & HgA & Hst & HB & HA & Hsh).
  assert (c' = c ∧ lent' = lent) as [-> ->] by (split; congruence). rewrite Eg in Hlive, Hfl.
  exists gs1, lent, gs2, ps1, p, ps2, B, st, A. split_and!; try done.
  rewrite <- (map_to_list_delete live c h Hc), !fmap_app, !fmap_cons, zip_mid in Hlive by (by rewrite !length_fmap).
  rewrite <- Hh in Hlive. apply (Permutation_app_inv [] _ (zip gs1.*1 (proot <$> ps1))) in Hlive.
  rewrite !fmap_app, zip_with_app by (by rewrite !length_fmap). exact Hlive.
Qed.

(** [reap_finished_tasks]. *)
Lemma serving_done gs live m c h : serving gs live m → live !! c = Some h →
  ∃ fin, task_done h m = Some fin ∧
    (fin = true → ∃ m' gs', drop_task h m = Some m' ∧ serving gs' (delete c live) m' ∧ store m' = store m).
Proof.
  intros Hs Hc. destruct (serving_task gs live m c h Hs Hc)
    as (gs1 & lent & gs2 & ps1 & p & ps2 & B & st & A & -> & <- & Hr & Hfl & Hlen & HgB & HgA & _ & _ & Hlive).
  eexists. split; [by eapply represents_done|]. destruct st as [fd mask k| |r]; [done..|]. intros _.
  destruct (represents_drop VUnit ps1 p ps2 B r A m Hlen Hr) as (m' & Hd & Hr' & _ & Hsto).
  exists m', (gs1 ++ gs2). split_and!; [done| |done]. exists (ps1 ++ ps2), (B ++ A). split_and!; [done..|].
  rewrite Hsto. by eapply fleet_drop.
Qed.

(** Every client has its task, which waits for one of its descriptors or has ended. *)
Lemma serving_sound gs live m c h : serving gs live m → live !! c = Some h →
  ∃ lent l, (c, lent) ∈ gs ∧ awaits (frames m) h l ∧
    ((∃ fd mask leaf, last l = Some leaf ∧ registered m !! fd = Some (mask, leaf) ∧ fd ∈ c :: lent) ∨
     (∃ r, frames m !! h = Some (mkFrame (Final r) None) ∧ (r ≠ Exception → lent = []))).
Proof.
  clear upstream_accepted. intros Hs Hc. destruct (serving_task gs live m c h Hs Hc)
    as (gs1 & lent & gs2 & ps1 & p & ps2 & B & st & A & -> & <- & Hr & _ & Hlen & HgB & HgA & Hst & Hsh & _).
  pose proof (represents_owned _ _ _ _ Hr) as Ho.
  exists lent, (handles p). split_and!; [set_solver|eapply owned_awaits; [done|set_solver]|].
  destruct st as [fd mask k| |r]; [left|done|right].
  - destruct Hst as [Hfd _], Hsh as [Hw _]. exists fd, mask, (pleaf p).
    split_and!; [unfold handles; by rewrite last_snoc| |done].
    rewrite (rep_regs _ _ _ _ Hr). apply elem_of_list_to_map_1.
    + rewrite (regs_waited VUnit _ _ (rep_shows _ _ _ _ Hr)). apply Hr.
    + unfold regs. apply list_elem_of_omap. exists p. split; [set_solver|]. by rewrite Hw.
  - destruct Hsh as (_ & Hf & Hstk). exists r. split; [|by destruct r].
    unfold proot. rewrite Hstk. cbn [root].
    eapply owned_entry; [exact Ho|apply elem_of_app; right; left|]. rewrite Hf, Hstk. left.
Qed.

Lemma serving_live gs live m c : serving gs live m → c ∈ gs.*1 ↔ c ∈ dom live.
Proof.
  intros (ps & P & Hr & Hlive & Hfl).
  assert ((map_to_list live).*1 ≡ₚ gs.*1) as Hp.
  { rewrite Hlive, fst_zip; [done|]. rewrite !length_fmap.
    rewrite (Forall2_length _ _ _ (fl_rest _ _ _ Hfl)), (Forall2_length _ _ _ (rep_shows _ _ _ _ Hr)). done. }
  rewrite <- Hp, elem_of_dom, list_elem_of_fmap. split.
  - intros ([c' h] & -> & Hin%elem_of_map_to_list). by exists h.
  - intros [h Hh]. exists (c, h). split; [done|]. by apply elem_of_map_to_list.
Qed.

Lemma serving_empty m w :
  frames m = ∅ → control m = None → NoDup (upstream w) → Forall is_upstream (upstream w) → sane cfg w0 w →
  serving [] ∅ (set_store w (set_registered ∅ m)).
Proof.
  intros Hf Hc Hnd Hup Hs. exists [], []. split_and!; [|by rewrite map_to_list_empty|by constructor].
  constructor; cbn; try done; [split; constructor|constructor].
Qed.

Lemma serving_upstream gs live m : serving gs live m →
  NoDup (upstream (store m)) ∧ Forall is_upstream (upstream (store m)) ∧ sane cfg w0 (store m).
Proof.
  intros (ps & P & _ & _ & [_ Hap Hup _ Hs]). rewrite app_assoc in Hap. apply NoDup_app in Hap as (_ & _ & ?).
  by apply Forall_app in Hup as [_ ?].
Qed.
End clients.

(** Closing the pools moves what was idle to what is closed. *)
Lemma stop_pools_upstream w : upstream (stop_pools w) ≡ₚ upstream w.
Proof.
  assert (∀ l w, pools_ (foldl (λ w fd, log_close fd w) w l) = pools_ w ∧
    connects (foldl (λ w fd, log_close fd w) w l) = connects w ∧
    closed (foldl (λ w fd, log_close fd w) w l) = closed w ++ l) as Hl.
  { induction l as [|fd l IH]; intros w0; cbn; [by rewrite app_nil_r|].
    destruct (IH (log_close fd w0)) as (-> & -> & ->). cbn. by rewrite <- app_assoc. }
  unfold stop_pools, upstream. cbn [pools_ connects closed set_pools].
  destruct (Hl (concat (map_to_list (pools_ w)).*2) w) as (_ & -> & ->).
  assert (concat (map_to_list (pools_ w)).*2 = pooled (pools_ w)) as ->.
  { unfold pooled. generalize (map_to_list (pools_ w)) as ps. intros ps. induction ps as [|[k l] ps IH]; cbn; [done|]. by rewrite IH. }
  unfold pooled at 1. rewrite map_to_list_empty. cbn. solve_Permutation.
Qed.

Lemma stop_pools_sane cfg w0 w : sane cfg w0 w → sane cfg w0 (stop_pools w).
Proof.
  assert (∀ l w, reads (foldl (λ w fd, log_close fd w) w l) = reads w ∧
    sent (foldl (λ w fd, log_close fd w) w l) = sent w) as Hl.
  { induction l as [|fd l IH]; intros w1; cbn; [done|]. by destruct (IH (log_close fd w1)) as [-> ->]. }
  unfold stop_pools. destruct (Hl (concat (map_to_list (pools_ w)).*2) w) as [E1 E2].
  by apply sane_quiet.
Qed.

(** ** The event loop *)

Section server.
Context (cfg : proxy_config) (listen_fd_ : Z) (w0 : world).

(** Clients have the coroutine [serve_client]; their numbers are not those of upstream
    connections. *)
Definition proxy_client (c : Z) (b : co) : Prop := (∃ f, b = serve_client_co f cfg c) ∧ c ∉ upstream w0.

Abbreviation all := (λ _ : Z, true).
Abbreviation proxy := (proxy (V := val)).
Abbreviation loop := (ProxyServer.step VUnit all listen_fd_ proxy_client).
Abbreviation attends gs s := (serving cfg w0 (watchable all listen_fd_) gs (live_tasks_ s) (coros s)).
Implicit Types s : proxy.

(** The upstream numbers are descriptors, all different, and not the listening one;
    nothing has been written yet. *)
Definition kernel_ok : Prop :=
  Forall (λ fd, (0 ≤ fd)%Z) (upstream w0) ∧ NoDup (upstream w0) ∧ listen_fd_ ∉ upstream w0 ∧ sent w0 = [].
Context (Hkernel : kernel_ok).

Lemma watchable_other c : c ≠ listen_fd_ → watchable all listen_fd_ c = true.
Proof. intros Hne. unfold watchable. by rewrite bool_decide_eq_false_2. Qed.

Lemma upstream_watchable fd : fd ∈ upstream w0 → watchable all listen_fd_ fd = true.
Proof. destruct Hkernel as (_ & _ & Hl & _). intros Hfd. apply watchable_other. by intros ->. Qed.

Lemma accept_attends o gs fuel fd b s s' :
  serves VUnit listen_fd_ o s → attends gs s → fd ∉ client_fds s → fd ≠ listen_fd_ → proxy_client fd b →
  accept_client VUnit all listen_fd_ fuel fd b s = Some s' → ∃ gs', attends gs' s'.
Proof.
  intros Hs Ha Hfd Hne [[f ->] Hnu] Hacc. pose proof (sv_clients _ _ _ _ Hs) as Hdom.
  assert (fd ∉ dom (live_tasks_ s)) as Hnd by set_solver. pose proof (proj1 (not_elem_of_dom _ _) Hnd) as Hnone.
  destruct (serving_spawn cfg w0 (watchable all listen_fd_) upstream_watchable gs (live_tasks_ s) (coros s) fd
    (serve_client_co f cfg fd) Ha) as (f1 & m & fin & Hsp & Hd & _ & Hend);
    [intros w; apply serve_client_uses; [apply Hkernel|done]|by apply watchable_other|by rewrite serving_live|done|done|].
  unfold accept_client in Hacc. apply bind_Some in Hacc as (m1 & Hsp1 & Hacc).
  assert (m1 = m) as -> by (eapply run_det; [exact Hsp1|exact Hsp]).
  rewrite Hd in Hacc. cbn [mbind option_bind] in Hacc. destruct fin.
  - destruct Hend as (m2 & Hdr & Hend & _). rewrite Hdr in Hacc. injection Hacc as <-. by exists gs.
  - rewrite Hnone in Hacc. injection Hacc as <-. destruct Hend as [lent Hend]. by eexists.
Qed.

Lemma reap_attends l : ∀ gs s s', attends gs s → NoDup l.*1 → (∀ fd h, (fd, h) ∈ l → live_tasks_ s !! fd = Some h) →
  reap_list l s = Some s' → ∃ gs', attends gs' s'.
Proof.
  induction l as [|[fd h] l IH]; intros gs s s' Ha Hnd Hl Hr; [injection Hr as <-; by exists gs|].
  apply NoDup_cons in Hnd as [Hfd Hnd].
  destruct (serving_done cfg w0 (watchable all listen_fd_) gs (live_tasks_ s) (coros s) fd h Ha) as (fin & Hd & Hdrop); [apply Hl; left|].
  cbn [reap_list] in Hr. rewrite Hd in Hr. cbn [mbind option_bind] in Hr. destruct fin.
  - destruct (Hdrop eq_refl) as (m & gs' & Hm & Ha' & _). rewrite Hm in Hr. cbn [mbind option_bind] in Hr.
    eapply (IH gs' (set_live (delete fd (live_tasks_ s)) (set_coros m s)) s' Ha' Hnd); [|exact Hr]. intros k g Hin. cbn. rewrite lookup_delete_ne; [apply Hl; by right|].
    intros <-. apply Hfd. apply list_elem_of_fmap. by exists (fd, g).
  - eapply (IH gs s s' Ha Hnd); [|exact Hr]. intros k g Hin. apply Hl. by right.
Qed.

Lemma resume_attends o gs ev h evs fuel s s' :
  serves VUnit listen_fd_ o s → attends gs s →
  pc s = Batch (ev :: evs) None → userdata ev = Some h → resume_handle VUnit all listen_fd_ fuel h (ev_fd ev) s = Some s' →
  ∃ gs1 c lent lent' gs2, gs = gs1 ++ (c, lent) :: gs2 ∧ ev_fd ev ∈ c :: lent ∧
    attends (gs1 ++ (c, lent') :: gs2) s' ∧
    lent' ++ upstream (store (coros s')) ≡ₚ lent ++ upstream (store (coros s)) ∧
    (∀ g, g ∈ gs1 ++ gs2 → undisturbed g (store (coros s)) (store (coros s'))).
Proof.
  intros Hs Ha Hpc Hu Hres. destruct (sv_batch _ _ _ _ Hs _ _ Hpc) as [Hrep _].
  apply Forall_cons in Hrep as [Hev _]. unfold reported in Hev. rewrite Hu in Hev. destruct Hev as [mask Hm].
  assert (ev_fd ev ≠ listen_fd_) as Hne by (pose proof (sv_listen _ _ _ _ Hs); congruence).
  destruct (serving_resume cfg w0 (watchable all listen_fd_) upstream_watchable gs (live_tasks_ s) (coros s)
    (ev_fd ev) mask h Ha) as (f & m & gs1 & c & lent & lent' & gs2 & -> & Hfd & Hr & Ha' & Hp & Hun);
    [done|].
  unfold resume_handle in Hres. rewrite decide_False in Hres by done.
  apply bind_Some in Hres as (m1 & Hr1 & Hres). injection Hres as <-.
  assert (m1 = m) as -> by (eapply run_det; [exact Hr1|exact Hr]).
  exists gs1, c, lent, lent', gs2. by split_and!.
Qed.

Lemma start_attends made added gs s s' :
  serves VUnit listen_fd_ Out s → attends gs s → start made added s = Some s' → ∃ gs', attends gs' s'.
Proof.
  intros Hs Ha Hst. unfold start in Hst. destruct (running_ s) eqn:Hr; [injection Hst as <-; by exists gs|].
  destruct (sv_out _ _ _ _ Hs eq_refl) as [_ Hf]. destruct (Hf Hr) as [_ Hlive].
  pose proof (sv_group _ _ _ _ Hs) as Hg. rewrite Hlive in Hg. destruct (group_empty _ _ Hg) as (Hfr & _ & Hc).
  assert (serving cfg w0 (watchable all listen_fd_) [] ∅ (set_registered ∅ (coros s))) as Hnew.
  { destruct (serving_upstream _ _ _ _ _ _ Ha) as (? & ? & ?). apply (serving_empty _ _ _ (coros s) (store (coros s))); done. }
  rewrite <- Hlive in Hnew. exists []. destruct (negb (made && added)); [injection Hst as <-; exact Hnew|].
  destruct (loop_thread_ s); [done|]. injection Hst as <-. exact Hnew.
Qed.

Lemma clear_attends gs s s' :
  serves VUnit listen_fd_ Joined s → attends gs s → stop_clear s = Some s' → ∃ gs', attends gs' s'.
Proof.
  intros Hs Ha Hst. pose proof (sv_group _ _ _ _ Hs) as Hg. unfold stop_clear in Hst.
  destruct (group_clear VUnit _ _ Hg) as (m & Hd & Hg' & Hsto). rewrite Hd in Hst. injection Hst as <-.
  destruct (group_empty _ _ Hg') as (Hf & _ & Hc). exists []. cbn [live_tasks_ coros]. rewrite Hsto.
  destruct (serving_upstream _ _ _ _ _ _ Ha) as (Hnd & Hup & Hsane).
  apply serving_empty; [exact Hf|exact Hc|by rewrite stop_pools_upstream..|].
  by apply stop_pools_sane.
Qed.

Lemma loop_attends o s o' s' :
  serves VUnit listen_fd_ o s → (∃ gs, attends gs s) → loop (o, s) (o', s') → ∃ gs, attends gs s'.
Proof.
  intros Hs [gs Ha] Hst. inversion Hst; subst; try by exists gs.
  - by eapply start_attends.
  - by eapply clear_attends.
  - match goal with H : accept_round _ _ _ _ ?a _ _ = _, Hok : accepted_ok _ _ ?a _ |- _ => rename H into Hr; destruct a as [fd b| | |] end;
      cbn in Hr; [|injection Hr as <- <-; by exists gs..].
    apply bind_Some in Hr as (s1 & Hacc & Hr). injection Hr as <- <-.
    match goal with H : accepted_ok _ _ _ _ |- _ => destruct H as (? & ? & ?) end.
    destruct (accept_attends o' gs fuel fd b s s1) as [gs' Ha']; [done..|by exists gs'].
  - match goal with Hp : pc s = _, Hu : handle_from_event _ = _, H : resume_handle _ _ _ _ _ _ _ = _ |- _ =>
      destruct (resume_attends o' gs _ _ _ _ _ _ Hs Ha Hp Hu H) as (gs1 & c & lent & lent' & gs2 & _ & _ & Ha' & _) end.
    by eexists.
  - match goal with H : reap_finished_tasks s = _ |- _ => eapply (reap_attends _ gs s) in H as [gs' Ha'] end;
      [by exists gs'|done|apply NoDup_fst_map_to_list|]. intros fd h. by rewrite elem_of_map_to_list.
Qed.

Lemma reachable_attends o s : rtc loop (Out, make w0) (o, s) →
  serves VUnit listen_fd_ o s ∧ ∃ gs, attends gs s.
Proof.
  intros Hrtc.
  refine (rtc_ind_r (λ os, serves VUnit listen_fd_ os.1 os.2 ∧ ∃ gs, attends gs os.2) _ _ _ _ Hrtc).
  - split; [apply make_serves|]. exists []. destruct Hkernel as (_ & Hnd & _ & Hlog).
    apply (serving_empty _ _ _ (idle w0) w0); [done..| |by apply sane_start]. by apply Forall_forall.
  - intros [o1 s1] [o2 s2] _ Hst [H1 H2]. split.
    + by destruct (step_serves VUnit all listen_fd_ proxy_client _ _ _ _ H1 Hst) as [? _].
    + by eapply loop_attends.
Qed.

(** [gs] has the clients of the proxy, each once, with the upstream connections that are
    lent to it; a connection is lent to one client, or idle, or closed, or yet to be
    opened.  A client's coroutine waits for its client or for a connection lent to it,
    or has ended, and then, unless with an exception, with nothing lent. *)
Definition lends gs s : Prop :=
  (∀ c, c ∈ gs.*1 ↔ c ∈ dom (live_tasks_ s)) ∧
  NoDup (gs.*1 ++ (gs ≫= snd) ++ upstream (store (coros s))) ∧
  ∀ c h, live_tasks_ s !! c = Some h →
    ∃ lent l, (c, lent) ∈ gs ∧ awaits (frames (coros s)) h l ∧
      ((∃ fd mask leaf, last l = Some leaf ∧ registered (coros s) !! fd = Some (mask, leaf) ∧ fd ∈ c :: lent) ∨
       (∃ r, frames (coros s) !! h = Some (mkFrame (Final r) None) ∧ (r ≠ Exception → lent = []))).

Lemma attends_lends gs s : attends gs s → lends gs s.
Proof.
  intros Ha. split_and!.
  - intros c. exact (serving_live _ _ _ _ _ _ c Ha).
  - destruct Ha as (ps & P & _ & _ & Hfl). exact (fl_apart _ _ _ _ _ _ Hfl).
  - intros c h Hc. destruct (serving_sound _ _ _ _ _ _ c h Ha Hc) as (lent & l & H). by exists lent, l.
Qed.


(** C7: Clients do not disturb one another: an event that the loop takes from its batch
    resumes the coroutine of the client it belongs to; that coroutine runs to its next
    suspension or its end, what it borrows and returns balances, and for every other
    client the bytes still to be read from it and from the connections lent to it, what
    the kernel will answer to writes there, and the bytes sent there are as before. *)
Theorem proxy_clients_isolated o s ev evs h :
  rtc loop (Out, make w0) (o, s) → pc s = Batch (ev :: evs) None → userdata ev = Some h →
  ∃ fuel s' gs1 c lent lent' gs2,
    resume_handle VUnit all listen_fd_ fuel h (ev_fd ev) s = Some s' ∧ ev_fd ev ∈ c :: lent ∧
    lends (gs1 ++ (c, lent) :: gs2) s ∧ lends (gs1 ++ (c, lent') :: gs2) s' ∧
    lent' ++ upstream (store (coros s')) ≡ₚ lent ++ upstream (store (coros s)) ∧
    (∀ g, g ∈ gs1 ++ gs2 → undisturbed g (store (coros s)) (store (coros s'))).
Proof.
  intros Hrtc Hpc Hu. destruct (reachable_attends o s Hrtc) as [Hs [gs Ha]].
  destruct (resume_handle_ok VUnit all listen_fd_ o ev h evs s Hs Hpc Hu) as (fuel & s' & Hr & _).
  destruct (resume_attends o gs ev h evs fuel s s' Hs Ha Hpc Hu Hr)
    as (gs1 & c & lent & lent' & gs2 & -> & Hin & Ha' & Hp & Hun).
  exists fuel, s', gs1, c, lent, lent', gs2. split_and!; [done|done|by apply attends_lends..|done|done].
Qed.

(** C6: Every client gets its own answers: with any number of clients, in any
    interleaving of their coroutines, what is written to a client is a 502 or (a part
    of) one response, read as the sequential reader reads it, off one upstream
    connection, to which a request that this very client had sent, and for which there
    is a route, was written before, rewritten; and what is written to an upstream connection is (a part of)
    the rewritten request of some client. *)
Theorem proxy_clients_answered o s said fd bs later_on :
  rtc loop (Out, make w0) (o, s) → sent (store (coros s)) = said ++ (fd, bs) :: later_on →
  (fd ∉ upstream w0 → ∃ data, bs `prefix_of` data ∧
     ((∃ why, data = bad_gateway why) ∨
      ∃ info b, asked w0 fd info b ∧ answered cfg w0 said info b data)) ∧
  (fd ∈ upstream w0 → ∃ c info b, asked w0 c info b ∧ bs `prefix_of` rewrite_request info b).
Proof.
  intros Hrtc Hsent. destruct (reachable_attends o s Hrtc) as [_ [gs Ha]].
  destruct (serving_upstream _ _ _ _ _ _ Ha) as (_ & _ & Hs).
  destruct (sn_sent _ _ _ Hs said fd bs later_on Hsent) as (data & Hp & Hsay). unfold may_say in Hsay. split; intros Hfd.
  - rewrite decide_False in Hsay by done. by exists data.
  - rewrite decide_True in Hsay by done. destruct Hsay as (c & info & b & Hasked & ->). by exists c, info, b.
Qed.

(** [stop] forgets the connections that are lent: it closes the idle ones and destroys
    the coroutines, whose descriptors are plain integers, so that a connection lent to
    a client at that moment is never closed. *)
Theorem proxy_stop_strands s :
  rtc loop (Out, make w0) (Joined, s) →
  ∃ gs s', lends gs s ∧ stop_clear s = Some s' ∧
    ∀ fd, fd ∈ gs ≫= snd → fd ∉ closed (store (coros s')) ∧ ∀ key, fd ∉ default [] (pools_ (store (coros s')) !! key).
Proof.
  intros Hrtc. destruct (reachable_attends Joined s Hrtc) as [Hs [gs Ha]].
  destruct (attends_lends gs s Ha) as (H1 & Hnd & H3).
  destruct (group_clear VUnit _ _ (sv_group _ _ _ _ Hs)) as (m & Hd & _ & Hsto).
  unfold stop_clear. rewrite Hd. cbn [mbind option_bind]. eexists gs, _. split; [done|]. split; [reflexivity|].
  cbn [coros store set_store]. rewrite Hsto. intros fd Hfd.
  apply NoDup_app in Hnd as (_ & _ & Hnd). apply NoDup_app in Hnd as (_ & Hout & _). specialize (Hout fd Hfd).
  rewrite <- stop_pools_upstream in Hout. split; [unfold upstream in Hout; set_solver|].
  intros key. cbn. apply not_elem_of_nil.
Qed.
End server.

(** ** Two clients *)

(** Both send a request in two pieces; the connections to the upstream take a moment. *)
Definition whole (l : str) : list rd := match l with [] => [] | b :: bs => [Data b bs] end.
Definition two_world : world :=
  mkWorld ∅ (initial_health [demo_route])
    {[4 := cut 20 (bytes demo_request); 5 := cut 10 (bytes demo_request); 9 := whole (bytes demo_response)]}%Z
    {[4 := [Wrote 1000]; 9 := [Wrote 1000]]}%Z
    [InProgress 9 false; InProgress 10 false]%Z [] [] [].

Definition two_or (o : option (proxy (V := val))) : proxy := default (make two_world) o.
Definition two_client (c : Z) : co := serve_client_co 20 demo_proxy c.
Abbreviation two_loop := (ProxyServer.step VUnit (λ _, true) 3 (proxy_client demo_proxy two_world)).
Abbreviation two_accept c := (accept_client VUnit (λ _, true) 3 500 c (two_client c)).
Abbreviation two_resume h fd := (resume_handle VUnit (λ _, true) 3 500 h fd).

Definition two_started : proxy := two_or (start true true (make two_world)).
Definition two_accepting : proxy := set_pc (Batch [] (Some 128)) two_started.
Definition two_first : proxy := set_pc (Batch [] (Some 127)) (two_or (two_accept 4 two_accepting)).
Definition two_both : proxy := set_pc (Batch [] (Some 126)) (two_or (two_accept 5 two_first)).
Definition two_reaped : proxy := set_pc Top (two_or (reap_finished_tasks (set_pc (Batch [] None) two_both))).
Definition two_ready : proxy := set_pc (Batch [mkEvent 4 (Some 1); mkEvent 5 (Some 3)] None) two_reaped.
Definition two_forwarding : proxy := set_pc (Batch [mkEvent 5 (Some 3)] None) (two_or (two_resume 1 4 two_ready)).

Lemma two_some (o : option proxy) : match o with Some _ => true | None => false end = true → o = Some (two_or o).
Proof. by destruct o. Qed.

Lemma accept_conn accepts listen fuel c b n (s s' : proxy) :
  accept_client VUnit accepts listen fuel c b s = Some s' →
  accept_round VUnit accepts listen fuel (AConn c b) (S n) s = Some (s', Some n).
Proof. intros E. cbn. by rewrite E. Qed.

Lemma two_kernel : kernel_ok 3 two_world.
Proof. split_and!; apply (bool_decide_unpack _); vm_compute; reflexivity. Qed.

Lemma two_client_ok c (s : proxy) :
  bool_decide (c ∉ client_fds s) = true → c ≠ 3%Z → bool_decide (c ∉ upstream two_world) = true →
  accepted_ok 3 (proxy_client demo_proxy two_world) (AConn c (two_client c)) s.
Proof. intros H1%bool_decide_eq_true H2 H3%bool_decide_eq_true. split_and!; [done|done|]. split; [by exists 20|done]. Qed.

Lemma two_ready_reachable : rtc two_loop (Out, make two_world) (Out, two_ready).
Proof.
  eapply rtc_l; [apply (step_start _ _ _ _ true true _ two_started); reflexivity|].
  eapply rtc_l; [apply (step_wait _ _ _ _ Out [mkEvent 3 None]); [reflexivity..|]|].
  { split_and!; [repeat constructor|apply NoDup_singleton|cbn; unfold kMaxEvents; lia]. }
  eapply rtc_l; [apply (step_listen _ _ _ _ Out (mkEvent 3 None) []); reflexivity|].
  eapply rtc_l; [eapply (step_accept _ _ _ _ Out 500 (AConn 4 (two_client 4)) 127 [] _ (two_or (two_accept 4 two_accepting)) (Some 127));
    [reflexivity|apply two_client_ok; [vm_compute; reflexivity|lia|vm_compute; reflexivity]|]|].
  { apply accept_conn, two_some. vm_compute. reflexivity. }
  change (set_pc _ _) with two_first.
  eapply rtc_l; [eapply (step_accept _ _ _ _ Out 500 (AConn 5 (two_client 5)) 126 [] _ (two_or (two_accept 5 two_first)) (Some 126));
    [reflexivity|apply two_client_ok; [vm_compute; reflexivity|lia|vm_compute; reflexivity]|]|].
  { apply accept_conn, two_some. vm_compute. reflexivity. }
  change (set_pc _ _) with two_both.
  eapply rtc_l; [eapply (step_accept _ _ _ _ Out 0 AAgain 125 [] two_both two_both None); [reflexivity|exact I|reflexivity]|].
  eapply rtc_l; [apply (step_reap _ _ _ _ _ _ (two_or (reap_finished_tasks (set_pc (Batch [] None) two_both)))); [reflexivity|]|].
  { apply two_some. vm_compute. reflexivity. }
  change (set_pc Top _) with two_reaped. apply rtc_once, step_wait; [reflexivity..|].
  split_and!; [|apply (bool_decide_unpack _); vm_compute; reflexivity|cbn; unfold kMaxEvents; lia].
  repeat constructor; exists 1%Z; vm_compute; reflexivity.
Qed.

Lemma two_forwarding_reachable : rtc two_loop (Out, make two_world) (Out, two_forwarding).
Proof.
  eapply rtc_r; [apply two_ready_reachable|].
  eapply (step_resume _ _ _ _ Out 500 (mkEvent 4 (Some 1)) 1 [mkEvent 5 (Some 3)]); [reflexivity|reflexivity|].
  apply two_some. vm_compute. reflexivity.
Qed.


Lemma proxy_clients_isolated_witness :
  ∃ fuel s' gs1 c lent lent' gs2,
    resume_handle VUnit (λ _, true) 3 fuel 1 4 two_ready = Some s' ∧ 4%Z ∈ c :: lent ∧
    lends (gs1 ++ (c, lent) :: gs2) two_ready ∧ lends (gs1 ++ (c, lent') :: gs2) s' ∧
    (∀ g, g ∈ gs1 ++ gs2 → undisturbed g (store (coros two_ready)) (store (coros s'))).
Proof.
  destruct (proxy_clients_isolated demo_proxy 3 two_world two_kernel Out two_ready (mkEvent 4 (Some 1))
    [mkEvent 5 (Some 3)] 1 two_ready_reachable) as (fuel & s' & gs1 & c & lent & lent' & gs2 & H1 & H2 & H3 & H4 & _ & H5);
    [reflexivity..|].
  exists fuel, s', gs1, c, lent, lent', gs2. split; [exact H1|]. split; [exact H2|]. split; [exact H3|]. split; [exact H4|exact H5].
Defined.

(** Stopping the proxy now: the connection to the upstream stays open. *)
Definition two_stopped : proxy :=
  two_or (stop_clear (stop_join (set_pc NoLoop (stop_flag
    (two_or (reap_finished_tasks (set_pc (Batch [] None) (two_or (two_resume 3 5 two_forwarding))))))))).

Example two_strands :
  connects (store (coros two_stopped)) = [] ∧ closed (store (coros two_stopped)) = [] ∧
  pools_ (store (coros two_stopped)) = ∅ ∧ size (frames (coros two_stopped)) = 0.
Proof. split_and!; vm_compute; reflexivity. Qed.

(** The connection is there: the request is forwarded and answered. *)
Definition two_waiting : proxy :=
  set_pc Top (two_or (reap_finished_tasks (set_pc (Batch [] None) (two_or (two_resume 3 5 two_forwarding))))).
Definition two_connected : proxy := set_pc (Batch [mkEvent 9 (Some 5)] None) two_waiting.
Definition two_answered : proxy := set_pc (Batch [] None) (two_or (two_resume 5 9 two_connected)).

Lemma two_answered_reachable : rtc two_loop (Out, make two_world) (Out, two_answered).
Proof.
  etrans; [apply two_forwarding_reachable|].
  eapply rtc_l; [eapply (step_resume _ _ _ _ Out 500 (mkEvent 5 (Some 3)) 3 [] _ (two_or (two_resume 3 5 two_forwarding)));
    [reflexivity|reflexivity|apply two_some; vm_compute; reflexivity]|].
  eapply rtc_l; [eapply step_reap; [reflexivity|apply two_some; vm_compute; reflexivity]|].
  change (set_pc Top _) with two_waiting. eapply rtc_l; [apply (step_wait _ _ _ _ Out [mkEvent 9 (Some 5)]); [reflexivity..|]|].
  { split_and!; [|apply NoDup_singleton|cbn; unfold kMaxEvents; lia]. repeat constructor. exists 2%Z. vm_compute. reflexivity. }
  apply rtc_once. eapply (step_resume _ _ _ _ Out 500 (mkEvent 9 (Some 5)) 5 []); [reflexivity|reflexivity|].
  apply two_some. vm_compute. reflexivity.
Qed.

Lemma proxy_clients_answered_witness :
  ∃ data, bytes demo_response `prefix_of` data ∧
     ((∃ why, data = bad_gateway why) ∨
      ∃ info b, asked two_world 4 info b ∧
        answered demo_proxy two_world [(9%Z, rewrite_request (msg_info demo_request []) (lit "ab"))] info b data).
Proof.
  destruct (proxy_clients_answered demo_proxy 3 two_world two_kernel Out two_answered
    [(9%Z, rewrite_request (msg_info demo_request []) (lit "ab"))] 4 (bytes demo_response) [] two_answered_reachable) as [H _];
    [vm_compute; reflexivity|].
  apply H. apply (bool_decide_unpack _). vm_compute. exact I.
Defined.
