(* ===== verification/Mains.v ===== *)
(** * The example programs (src/examples)

    [HttpMain]: [main] of http_server.cpp, from the environment to the exit code: the
    settings, the listener, the pool of reactors and the destructors.  [ProxyMain]:
    [main] of reverse_proxy.cpp with its routing table.  The environment, the number
    of cores and the answers of the system calls are given. *)

From Stdlib Require Import Ascii.
From S2P Require Import Prelude Http Cstdlib Task TaskProps ProxyCoro.
From S2P Require Import Poller BloomFilter Reactor ReactorProps ReactorInv ReactorLimits Server.
From S2P Require Import TaskDestroy TaskGroup Proxy ProxyServer.

(** ** Settings from the environment *)

(** [static_cast<unsigned>] and [static_cast<unsigned short>]. *)
Definition to_unsigned (z : Z) : Z := (z mod 2 ^ 32)%Z.
Definition to_ushort (z : Z) : Z := (z mod 2 ^ 16)%Z.

Section settings.
Context (getenv : str → option str).

(** A number read with [atoi] and cast, or the default. *)
Definition int_setting (name : str) (cast : Z → Z) (dflt : Z) : outcome Z :=
  match getenv name with Some v => n ← atoi v; Ret (cast n) | None => Ret dflt end.
(** A number read with [strtoull]. *)
Definition size_setting (name : str) (dflt : Z) : Z :=
  match getenv name with Some v => strtoull v | None => dflt end.

Lemma int_setting_decimal name cast dflt n :
  (Z.of_nat n < 2 ^ 31)%Z → getenv name = Some (decimal n) → int_setting name cast dflt = Ret (cast (Z.of_nat n)).
Proof. intros Hn E. unfold int_setting. rewrite E, atoi_decimal by done. done. Qed.

Lemma size_setting_decimal name dflt n :
  (Z.of_nat n < 2 ^ 64)%Z → getenv name = Some (decimal n) → size_setting name dflt = Z.of_nat n.
Proof. intros Hn E. unfold size_setting. by rewrite E, strtoull_decimal. Qed.

Lemma int_setting_range name cast lo hi dflt n :
  (∀ z, lo ≤ cast z < hi)%Z → (lo ≤ dflt < hi)%Z → int_setting name cast dflt = Ret n → (lo ≤ n < hi)%Z.
Proof.
  intros Hc Hd. unfold int_setting. destruct (getenv name) as [v|]; [|by intros [= <-]].
  destruct (atoi v); cbn; [intros [= <-]; apply Hc|done].
Qed.
End settings.

Lemma to_unsigned_range z : (0 ≤ to_unsigned z < 2 ^ 32)%Z.
Proof. apply Z.mod_pos_bound. lia. Qed.
Lemma to_ushort_range z : (0 ≤ to_ushort z < 2 ^ 16)%Z.
Proof. apply Z.mod_pos_bound. lia. Qed.

Lemma strtoull_range l : (0 ≤ strtoull l < 2 ^ 64)%Z.
Proof.
  unfold strtoull. destruct (scan_number l) as [neg ds]. rewrite digits_value_nat.
  case_decide; [lia|]. destruct neg; [unfold wrap64; apply Z.mod_pos_bound; lia|lia].
Qed.

Lemma size_setting_range getenv name dflt : (0 ≤ dflt < 2 ^ 64)%Z → (0 ≤ size_setting getenv name dflt < 2 ^ 64)%Z.
Proof. unfold size_setting. destruct (getenv name); [intros _; apply strtoull_range|done]. Qed.

(** ** The listener of a program *)

Section listening.
Context (ip : str) (port : nat) (others : gset Z) (a : Listener.answers).

Definition listen : (Z + str) * Listener.listener * gset Z :=
  Listener.get_listener (Listener.a_socket a) (Listener.a_bind a) (Listener.a_listen a) (Listener.a_error a)
    (Listener.TCPListener ip port) others.

Definition listens : Prop :=
  Listener.a_socket a ≠ None ∧ Listener.a_bind a = true ∧ Listener.a_listen a = true.

(** The call fails exactly when one of its system calls does, and the destructor
    closes what it opened. *)
Lemma listen_destroyed r l opened : Listener.answer_ok others a → listen = (r, l, opened) →
  Listener.destroy l opened = others ∧ (if r is inl fd then listens ∧ Listener.a_socket a = Some fd else ¬ listens).
Proof.
  intros Ha Hl.
  destruct (Listener.get_listener_holds others a (Listener.TCPListener ip port) others r l opened) as (Hh & Hr & _);
    [by left|done|exact Hl|].
  split.
  - unfold Listener.destroy. destruct Hh as [[-> ->]|(Hpos & Hn & ->)]; [by rewrite decide_False by auto|].
    rewrite decide_True by lia. set_solver.
  - unfold listen, Listener.get_listener, listens in *. cbn in Hl.
    destruct (Listener.a_socket a), (Listener.a_bind a), (Listener.a_listen a); cbn in Hl; simplify_eq; naive_solver.
Qed.
End listening.

Module HttpMain.
Import Shard Pool Listener.

Record settings : Type := mkSettings {
  reactors : Z;
  workers_per_shard : Z;
  port : Z;
  idle_timeout_s : Z;
  max_connections : Z;
  ip_rate_per_sec : Z
}.

Definition read_settings (hardware_concurrency : Z) (getenv : str → option str) : outcome settings :=
  let cores := if decide (hardware_concurrency = 0)%Z then 4%Z else hardware_concurrency in
  reactors ← int_setting getenv (lit "MUSES_REACTORS") to_unsigned cores;
  workers ← int_setting getenv (lit "MUSES_WORKERS") to_unsigned 4;
  port ← int_setting getenv (lit "MUSES_PORT") to_ushort 8864;
  idle ← int_setting getenv (lit "MUSES_IDLE_TIMEOUT") to_unsigned 30;
  Ret (mkSettings reactors workers port idle
         (size_setting getenv (lit "MUSES_MAX_CONNECTIONS") 10000)
         (size_setting getenv (lit "MUSES_IP_RATE") 0)).

(** What the shards get; the outbox has 1024 slots. *)
Definition pool_config (st : settings) (handler : str → option (str * bool)) (hash : Z → Z) : config :=
  mkConfig (seconds (idle_timeout_s st)) (Z.to_nat (max_connections st)) (Z.to_nat (ip_rate_per_sec st))
    1024 handler hash.

Definition banner (st : settings) (p : pool) : str :=
  lit "serving ./statics on http://127.0.0.1:" ++ decimal (Z.to_nat (port st)) ++
  lit "/ (reactors=" ++ decimal (shard_count p) ++
  lit ", workers/shard=" ++ decimal (Z.to_nat (workers_per_shard st)) ++
  lit ", idle_timeout=" ++ decimal (Z.to_nat (idle_timeout_s st)) ++ lit "s" ++
  lit ", max_conn=" ++ decimal (Z.to_nat (max_connections st)) ++
  lit ", ip_rate=" ++ decimal (Z.to_nat (ip_rate_per_sec st)) ++ lit "/s" ++
  lit ", Ctrl-C to quit)" ++ [LF].

(** What is left when the program ends. *)
Record final : Type := mkFinal {
  code : nat;
  out : str;
  err : str;
  opened : gset Z;                     (* the program's descriptors *)
  left : list shard
}.

(** What the shards do until the signal. *)
Inductive works (cfg : config) : pool → pool → Prop :=
  | works_act i s s' p :
      shards_ p !! i = Some s → activity cfg s s' →
      works cfg p (mkPool (started_ p) (<[i := s']> (shards_ p)) (workers_per_shard_ p)).

Section main.
Context (hardware_concurrency : Z) (getenv : str → option str).
Context (handler : str → option (str * bool)) (hash : Z → Z) (b : BloomFilter.t).
Context (a : answers) (others : gset Z).

Definition listener_of (st : settings) : (Z + str) * listener * gset Z :=
  listen (lit "127.0.0.1") (Z.to_nat (port st)) others a.
Definition pool_of (st : settings) : pool :=
  ReactorPool b (Z.to_nat (reactors st)) (Z.to_nat (workers_per_shard st)).

(** [main]: at its end the pool and the listener are destroyed, in this order; the
    destructor of the pool stops it (again). *)
Inductive main : final → Prop :=
  | main_refused st e l o :
      read_settings hardware_concurrency getenv = Ret st → listener_of st = (inr e, l, o) →
      main (mkFinal 1 [] (lit "failed to listen: " ++ e ++ [LF]) (destroy l o) [])
  | main_served st fd l o res p p' :
      read_settings hardware_concurrency getenv = Ret st → listener_of st = (inl fd, l, o) →
      Pool.start res (pool_of st) = Ret p →
      rtc (works (pool_config st handler hash)) p p' →
      main (mkFinal 0 (banner st p) [] (destroy l o) (shards_ (Pool.stop (Pool.stop p')))).

Lemma works_ok cfg p p' : pool_ok cfg p → rtc (works cfg) p p' → pool_ok cfg p' ∧ shard_count p' = shard_count p.
Proof.
  intros Hp Hrtc. refine (rtc_ind_r (λ p', pool_ok cfg p' ∧ shard_count p' = shard_count p) p _ _ p' Hrtc); [done|].
  intros p1 p2 _ Hw [H1 H2]. destruct Hw as [i s s' p1 Hi Ha].
  destruct (pool_step_ok cfg p1 _ H1 (pool_act cfg i s s' p1 Hi Ha)) as [? ->]. done.
Qed.

(** A stopped pool. *)
Lemma stopped_shards cfg p : pool_ok cfg p → started_ p = false →
  Forall (λ s, running_ s = false ∧ thread_ s = false ∧ connections_ (core s) = ∅ ∧ watched (core s) = ∅) (shards_ p).
Proof.
  intros [Hok Hst] Hs. specialize (Hst Hs). rewrite !Forall_forall in *. intros s Hin.
  destruct (Hok s Hin) as [[_ Hout _ _ Hidle] _]. specialize (Hst s Hin). destruct (Hidle eq_refl Hst).
  split_and!; [done| |done..]. by rewrite <- Hout.
Qed.

Lemma stop_count p : shard_count (Pool.stop p) = shard_count p.
Proof.
  unfold Pool.stop, shard_count. destruct (started_ p); [|done]. cbn. by rewrite length_reverse, length_fmap, length_reverse.
Qed.

Lemma fresh_pool_ok cfg n w : blacklist_ok b → pool_ok cfg (ReactorPool b n w).
Proof. intros Hb. destruct (make_ok cfg b Hb). split; cbn; [|intros _]; by apply Forall_replicate. Qed.

Lemma served_ok st res p p' : blacklist_ok b →
  Pool.start res (pool_of st) = Ret p → rtc (works (pool_config st handler hash)) p p' →
  pool_ok (pool_config st handler hash) p' ∧ shard_count p' = shard_count (pool_of st).
Proof.
  intros Hb Hp Hw. set (cfg := pool_config st handler hash) in *.
  destruct (start_pool_ok cfg res (pool_of st) (fresh_pool_ok cfg _ _ Hb)) as (p1 & E & Hok & <-).
  assert (p1 = p) as -> by congruence. by apply works_ok.
Qed.

End main.

(** ** The settings *)

(** The variable is not set and [v] is the default, or it is set to [v]. *)
Definition says (getenv : str → option str) (name : string) (dflt v : Z) : Prop :=
  getenv (lit name) = None ∧ v = dflt ∨ getenv (lit name) = Some (decimal (Z.to_nat v)).

Record in_range (st : settings) : Prop := mkInRange {
  ra_reactors : (0 ≤ reactors st < 2 ^ 32)%Z;
  ra_workers : (0 ≤ workers_per_shard st < 2 ^ 32)%Z;
  ra_port : (0 ≤ port st < 2 ^ 16)%Z;
  ra_idle : (0 ≤ idle_timeout_s st < 2 ^ 32)%Z;
  ra_max : (0 ≤ max_connections st < 2 ^ 64)%Z;
  ra_rate : (0 ≤ ip_rate_per_sec st < 2 ^ 64)%Z
}.

Lemma int_setting_says getenv name cast dflt v :
  says getenv name dflt v → (0 ≤ v < 2 ^ 31)%Z → cast v = v → int_setting getenv (lit name) cast dflt = Ret v.
Proof.
  intros [[E ->]|E] Hv Hc; [unfold int_setting; by rewrite E|].
  rewrite (int_setting_decimal getenv (lit name) cast dflt (Z.to_nat v)) by (rewrite ?Z2Nat.id; lia || done).
  rewrite Z2Nat.id by lia. by rewrite Hc.
Qed.

Lemma size_setting_says getenv name dflt v :
  says getenv name dflt v → (0 ≤ v < 2 ^ 64)%Z → size_setting getenv (lit name) dflt = v.
Proof.
  intros [[E ->]|E] Hv; [unfold size_setting; by rewrite E|].
  rewrite (size_setting_decimal getenv (lit name) dflt (Z.to_nat v)) by (rewrite ?Z2Nat.id; lia || done).
  by rewrite Z2Nat.id by lia.
Qed.

(** The settings are what the environment says: when each of the six variables is
    unset or holds the decimal digits of a value of its type (an [int] for the four
    that are read with [atoi], and a 16-bit one for the port), the program runs with
    exactly these values, the defaults standing for the unset ones (4 shards when the
    number of cores is not known).  Whatever the variables hold, the settings are in
    the range of their types, or a number is too large for [atoi] and the behaviour is
    undefined. *)
Theorem http_settings_roundtrip hardware getenv st :
  (0 ≤ hardware < 2 ^ 32)%Z →
  says getenv "MUSES_REACTORS" (if decide (hardware = 0)%Z then 4%Z else hardware) (reactors st) →
  says getenv "MUSES_WORKERS" 4 (workers_per_shard st) → says getenv "MUSES_PORT" 8864 (port st) →
  says getenv "MUSES_IDLE_TIMEOUT" 30 (idle_timeout_s st) →
  says getenv "MUSES_MAX_CONNECTIONS" 10000 (max_connections st) → says getenv "MUSES_IP_RATE" 0 (ip_rate_per_sec st) →
  in_range st → (reactors st < 2 ^ 31)%Z → (workers_per_shard st < 2 ^ 31)%Z → (idle_timeout_s st < 2 ^ 31)%Z →
  read_settings hardware getenv = Ret st ∧ (∀ getenv' st', read_settings hardware getenv' = Ret st' → in_range st').
Proof.
  intros Hhw H1 H2 H3 H4 H5 H6 [R1 R2 R3 R4 R5 R6] B1 B2 B4. split.
  - unfold read_settings.
    rewrite (int_setting_says _ _ to_unsigned _ _ H1) by first [lia|apply Z.mod_small; lia]. cbn [mbind outcome_bind].
    rewrite (int_setting_says _ _ to_unsigned _ _ H2) by first [lia|apply Z.mod_small; lia]. cbn [mbind outcome_bind].
    rewrite (int_setting_says _ _ to_ushort _ _ H3) by first [lia|apply Z.mod_small; lia]. cbn [mbind outcome_bind].
    rewrite (int_setting_says _ _ to_unsigned _ _ H4) by first [lia|apply Z.mod_small; lia]. cbn [mbind outcome_bind].
    rewrite (size_setting_says _ _ _ _ H5), (size_setting_says _ _ _ _ H6) by lia. by destruct st.
  - intros getenv' st' E. unfold read_settings in E.
    repeat match type of E with
    | (int_setting ?g ?n ?c ?d ≫= _) = _ => destruct (int_setting g n c d) eqn:?; cbn [mbind outcome_bind] in E; [|done]
    end.
    injection E as <-. constructor; cbn.
    + eapply (int_setting_range getenv' _ _ _ _ _ _ to_unsigned_range); [|eassumption]. case_decide; lia.
    + by eapply (int_setting_range getenv' _ _ _ _ _ _ to_unsigned_range); [|eassumption].
    + by eapply (int_setting_range getenv' _ _ _ _ _ _ to_ushort_range); [|eassumption].
    + by eapply (int_setting_range getenv' _ _ _ _ _ _ to_unsigned_range); [|eassumption].
    + by apply size_setting_range.
    + by apply size_setting_range.
Qed.

(** ** A run: port 8080, at most 100 requests per second and address *)

Definition demo_env (name : str) : option str :=
  if decide (name = lit "MUSES_PORT") then Some (lit "8080")
  else if decide (name = lit "MUSES_IP_RATE") then Some (lit "100") else None.
Definition demo_settings : settings := mkSettings 8 4 8080 30 10000 100.

Lemma http_settings_roundtrip_witness : read_settings 8 demo_env = Ret demo_settings.
Proof.
  apply (http_settings_roundtrip 8 demo_env demo_settings); try (cbn; lia).
  - left. split; vm_compute; reflexivity.
  - left. split; vm_compute; reflexivity.
  - right. vm_compute. reflexivity.
  - left. split; vm_compute; reflexivity.
  - left. split; vm_compute; reflexivity.
  - right. vm_compute. reflexivity.
  - constructor; cbn; lia.
Defined.

(** 70000 does not fit the port: the cast drops the high bits. *)
Example http_port_truncated :
  int_setting (λ _, Some (lit "70000")) (lit "MUSES_PORT") to_ushort 8864 = Ret 4464%Z.
Proof. vm_compute. reflexivity. Qed.

End HttpMain.

Module ProxyMain.
Import ProxyServer.

Definition api_route : ProxyRoute := mkRoute (lit "/api/") (lit "127.0.0.1") (Z.to_nat 8081).
Definition root_route : ProxyRoute := mkRoute (lit "/") (lit "127.0.0.1") (Z.to_nat 8082).
Definition routes : list ProxyRoute := [api_route; root_route].

(** The table is printed before anything else. *)
Definition banner (port : Z) : str :=
  lit "reverse proxy on http://127.0.0.1:" ++ decimal (Z.to_nat port) ++ lit "/" ++ [LF] ++
  lit "routes:" ++ [LF] ++
  (routes ≫= λ r, lit "  " ++ prefix r ++ lit " -> " ++ host r ++ lit ":" ++ decimal (Proxy.port r) ++ [LF]) ++
  lit "(Ctrl-C to quit)" ++ [LF].

Record final : Type := mkFinal {
  code : nat;
  out : str;
  err : str;
  opened : gset Z;                             (* the program's descriptors but for the clients' *)
  left : option (proxy (V := val))
}.

Section main.
Context (accepts : Z → bool) (getenv : str → option str).
(** What the kernel will answer to the coroutines. *)
Context (rs : gmap Z (list rd)) (ws : gmap Z (list wr)) (cs : list connect_result) (ts : list Z).
Context (a : Listener.answers) (others : gset Z).

Definition config : proxy_config := mkProxy routes 2 (seconds 10).

(** A client's coroutine is [serve_client]. *)
Definition serves_client (client : Z) (b : Tasks.body val world) : Prop := ∃ f, b = serve_client_co f config client.

(** [stop], from the flag to the end. *)
Inductive stops (fd : Z) : proxy (V := val) → proxy → Prop :=
  | stops_idle s : running_ s = false → stops fd s s
  | stops_all s s1 s2 :
      running_ s = true → rtc (step VUnit accepts fd serves_client) (Stopping, stop_flag s) (Joined, s1) →
      stop_clear s1 = Some s2 → stops fd s s2.

(** [main]: [stop] is called once more by the destructor of the proxy; the listener is
    destroyed last. *)
Inductive main : final → Prop :=
  | main_refused port e l o :
      int_setting getenv (lit "MUSES_PROXY_PORT") to_ushort 8865 = Ret port →
      listen (lit "127.0.0.1") (Z.to_nat port) others a = (inr e, l, o) →
      main (mkFinal 1 (banner port) (lit "failed to listen: " ++ e ++ [LF]) (Listener.destroy l o) None)
  | main_served port fd l o made added s1 s2 s3 s4 :
      int_setting getenv (lit "MUSES_PROXY_PORT") to_ushort 8865 = Ret port →
      listen (lit "127.0.0.1") (Z.to_nat port) others a = (inl fd, l, o) →
      start made added (make (initial_world (routes_ config) rs ws cs ts)) = Some s1 →
      rtc (λ s s', step VUnit accepts fd serves_client (Out, s) (Out, s')) s1 s2 →
      stops fd s2 s3 → stops fd s3 s4 →
      main (mkFinal 0 (banner port) [] (Listener.destroy l o) (Some s4)).

Lemma out_steps fd s s' : rtc (λ s s', step VUnit accepts fd serves_client (Out, s) (Out, s')) s s' →
  rtc (step VUnit accepts fd serves_client) (Out, s) (Out, s').
Proof. induction 1 as [|s s1 s' Hs _ IH]; [done|]. by eapply rtc_l. Qed.

Lemma stops_serves fd s s' : serves VUnit fd Out s → stops fd s s' →
  serves VUnit fd Out s' ∧ running_ s' = false.
Proof.
  intros Hs Hst. destruct Hst as [s Hr|s s1 s2 Hr Hrtc Hc]; [done|].
  destruct (step_serves VUnit accepts fd serves_client _ _ _ _ Hs (step_flag _ _ _ _ _ Hr)) as [Hf _].
  destruct (steps_serve VUnit accepts fd serves_client _ _ _ _ Hf Hrtc) as [Hj _].
  destruct (stop_clear_ok VUnit fd s1 Hj) as (s2' & E & Hs2 & _). assert (s2' = s2) as -> by congruence.
  split; [done|]. unfold stop_clear in Hc. apply bind_Some in Hc as (m & _ & [= <-]).
  cbn. by apply (sv_in _ _ _ _ Hj).
Qed.

Lemma stops_total fd s : serves VUnit fd Out s → ∃ s', stops fd s s'.
Proof.
  intros Hs. destruct (running_ s) eqn:Hr; [|exists s; by constructor].
  destruct (step_serves VUnit accepts fd serves_client _ _ _ _ Hs (step_flag _ _ _ _ _ Hr)) as [Hf _].
  destruct (stop_completes VUnit accepts fd serves_client _ Hf) as (s1 & s2 & ? & ? & _). exists s2. by eapply stops_all.
Qed.

(** The example proxy ends cleanly: it exits with 1 exactly when one of the
    listener's system calls fails, and otherwise with 0 after the signal, with the
    listen descriptor closed; whatever its clients did, no coroutine frame, no task
    and no registration with the poller is left, and the loop thread is over.
    Whenever the port can be read, the program does end once it is told to. *)
Theorem proxy_main_clean :
  Listener.answer_ok others a →
  (∀ f, main f → opened f = others ∧ code f = (if decide (listens a) then 0 else 1) ∧
     ∀ s, left f = Some s → running_ s = false ∧ loop_thread_ s = false ∧ live_tasks_ s = ∅ ∧
       Tasks.frames (coros s) = ∅ ∧ Tasks.registered (coros s) = ∅) ∧
  (int_setting getenv (lit "MUSES_PROXY_PORT") to_ushort 8865 ≠ Undef → ∃ f, main f).
Proof.
  intros Ha. split.
  - intros f Hm. destruct Hm as [port e l o Hp Hl|port fd l o made added s1 s2 s3 s4 Hp Hl Hs1 Hs2 Hs3 Hs4];
      destruct (listen_destroyed _ _ others a _ l o Ha Hl) as [Hd Hr]; cbn.
    + rewrite decide_False by done. by split_and!.
    + destruct Hr as [Hr _]. rewrite decide_True by done. split_and!; [done..|]. intros s [= <-].
      assert (serves VUnit fd Out s2) as H2.
      { apply (reachable_serves VUnit accepts fd serves_client (initial_world (routes_ config) rs ws cs ts)). eapply rtc_l; [by eapply step_start|by apply out_steps]. }
      destruct (stops_serves fd s2 s3 H2 Hs3) as [H3 _]. destruct (stops_serves fd s3 s4 H3 Hs4) as [H4 Hrun].
      destruct (sv_out _ _ _ _ H4 eq_refl) as [Ht Hf]. destruct (Hf Hrun) as [_ Hlive].
      pose proof (sv_group _ _ _ _ H4) as Hg. rewrite Hlive in Hg. destruct (group_empty _ _ Hg) as (? & ? & _).
      split_and!; congruence.
  - intros Hp. destruct (int_setting getenv _ to_ushort 8865) as [port|] eqn:E; [|done].
    destruct (listen (lit "127.0.0.1") (Z.to_nat port) others a) as [[[fd|e] l] o] eqn:El; [|eexists; by eapply main_refused].
    destruct (proxy_start_ok VUnit fd true true _ (make_serves VUnit fd (initial_world (routes_ config) rs ws cs ts))) as (s1 & Hs1 & H1 & _).
    destruct (stops_total fd s1 H1) as [s3 H3]. destruct (stops_total fd s3) as [s4 H4]; [by eapply stops_serves|].
    eexists. by eapply main_served.
Qed.
End main.

(** The example's routing table: targets below /api/ go to port 8081, all others
    to port 8082, so no request is answered with "no route". *)
Theorem proxy_example_routes target :
  find_route routes target = Some (if is_prefix (lit "/api/") target then api_route else root_route).
Proof.
  unfold find_route, routes. cbn [List.find prefix api_route]. destruct (is_prefix (lit "/api/") target); [done|].
  cbn [prefix root_route]. by destruct (is_prefix (lit "/") target).
Qed.

Lemma proxy_main_clean_witness :
  ∃ f, main (λ _, true) (λ _, None) ∅ ∅ [] [] (Listener.mkAnswers (Some 3%Z) true true []) {[0; 1; 2]}%Z f ∧
    opened f = {[0; 1; 2]}%Z ∧ code f = 0.
Proof.
  destruct (proxy_main_clean (λ _, true) (λ _, None) ∅ ∅ [] [] (Listener.mkAnswers (Some 3%Z) true true []) {[0; 1; 2]}%Z)
    as [Hend Hex].
  - split; [lia|]. apply (bool_decide_unpack _). vm_compute. exact I.
  - destruct Hex as [f Hf]; [discriminate|].
    exists f. destruct (Hend f Hf) as (Ho & Hc & _). split_and!; [exact Hf|exact Ho|]. rewrite Hc. reflexivity.
Defined.
End ProxyMain.
